(* ===== verification/_CoqProject ===== *)
-Q . S2P
Prelude.v
MemCopy.v
Containers.v
Packet.v
ReceiveQueue.v
Types.v
Asio.v
Datagram.v
Traffic.v
Overlapped.v
NativeLayer.v
SendQueue.v
Compression.v
Protocol.v
Float32.v
Rtt.v
Scheduler.v
Timer.v
State.v
Retrier.v
Transmit.v
Invariant.v
Sender.v
Connection.v
Closing.v
Wire.v
NetworkPath.v
Lifecycle.v
GivingUp.v
Emission.v
Moving.v
Socket.v
Facilities.v
Api.v
SocketLife.v
Agreement.v
Speaking.v
Hearing.v
Stream.v
SocketStream.v
Host.v
HostStream.v
Crypto.v
Session.v
AddressText.v
NativeQueue.v
ServiceLife.v
Proxy.v
ProxyApi.v
ProxyWire.v
Tunnel.v
ProxyLifecycle.v
ProxyProgram.v
