(* ===== verification/Prelude.v ===== *)
(** * MrUDP: a reliable transport over UDP, verified

    MrUDP carries reliable, ordered byte streams and unreliable datagrams between two endpoints
    over UDP. This library models the protocol engine of the repository, [src/mrudp], as executable
    definitions, and proves what makes it correct.

    ** The program

    A [Socket] owns the [Connection]s of one UDP socket and finds the connection of an incoming
    packet by its 16-bit short id, or by its 16-byte long id during the handshake. A [Connection]
    passes packets through its parts in a fixed order: [Handshake_Options], [NetworkPath] (is the
    packet from the known address?), [Handshake], [Probe], [Sender] (acknowledgements) and
    [Receiver] (data). The [Sender] cuts data into frames in its [SendQueue]s, sends packets as far
    as the window allows, and has the [Retrier] repeat those that are not acknowledged; the
    [Receiver] puts the frames back into order in its [ReceiveQueue]. Timers live in the
    [Scheduler]. Below, [imp/Asio] owns the sockets of the system: it queues packets in front of
    them, opens one per remote address for overlapped input and output, and hands datagrams to the
    [Socket]. The C interface [mrudp.h] reaches all of it through handles. A [Proxy] is a client
    of that interface: two of them tunnel many connections through one, the wire; the program
    [mrudp_proxy] reads a command line and opens one.

    ** The model

    Handlers are state-passing computations of the monad [M] below; [None] is undefined behaviour
    of the source (an access outside a buffer, the dereference of a missing entry, a conversion out
    of range, a use of freed memory) and an exhausted loop bound. Theorems that a computation
    equals [Some] therefore show definedness and termination. Integers keep their width: every
    conversion the source performs is written as [wrap] or [swrap]; floats are IEEE binary32.
    The handlers of a connection append what they do to the outside, packets sent, timers armed,
    callbacks of the user, to its list of [events]. That a handler runs to its end before the
    next one begins is an assumption of the model: the source locks its parts one by one and has no
    lock of a whole connection (between the test of the window and the dequeuing in
    [Sender::processReliableDataQueue], say, another thread may come in), and the interleavings
    modelled are those of whole handlers. The exceptions are the queue of a native socket
    ([NativeQueue.v]) and the timer ([Timer.v]), which are modelled critical section by critical
    section, and the callbacks of the scheduler ([Scheduler.v]), between which anything may be
    scheduled, allocated and freed.

    Code outside the repository is a class that the definitions take as a parameter, [Zlib],
    [OpenSSL], [Os], [Inet], with what its documentation promises as laws. The theorems quantify
    over it; the instances in the files are local to the examples and witnesses behind them.

    - [Prelude.v]: integers, little-endian encodings, lists, the monad [M] and its calculus [wp].
    - [MemCopy.v]: [base/detail/small_copy.hpp], [mem_copy.hpp].
    - [Containers.v]: [base/detail/CircularBuffer.hpp], [SizedVector.hpp].
    - [Packet.v]: [Packet.h], [Packet.inl], [sender/IDGenerator]. Headers, push and pop, id order.
    - [ReceiveQueue.v]: [receiver/ReceiveQueue], [receiver/UnreliableReceiveQueue].
    - [Types.v]: [Types], the option structures of [mrudp.h], [merge].
    - [SendQueue.v]: [sender/SendQueue]; zlib is the class [Zlib] with the laws [ZlibLaws].
    - [Compression.v]: [Receiver::processCompressed] and [processCompressedSubframes], against the
      compressed mode of the send queue.
    - [Protocol.v]: a send queue and a receive queue with a network between them.
    - [Float32.v], [Rtt.v]: binary32 and its bounds; [sender/RTT.h], [sender/WindowSize.h],
      [toDuration].
    - [Scheduler.v]: [Scheduler]; callbacks are arbitrary functions on an application state, which
      schedule, allocate and free timeouts.
    - [Timer.v]: [imp::SchedulerImp] and [Scheduler::process], with the native timer they keep armed.
    - [State.v]: the records of a connection and its parts, one field per member.
    - [Retrier.v], [Transmit.v]: [sender/Retrier], [Statistics], [connection/Probe],
      [Handshake_Options], [Connection::send].
    - [Invariant.v]: the invariant [conn_inv], the calculus of safe computations, frame rules.
    - [Sender.v]: [sender/Sender] and the closing of [Connection].
    - [Connection.v]: [receiver/Receiver], [Handshake], [NetworkPath], [Connection], and the
      timers [Probe::onTimeout] and [Retrier::onRetryTimeout].
    - [Closing.v], [Wire.v], [NetworkPath.v]: what failing and retrying do, what connections put on
      the wire, when the address changes.
    - [Lifecycle.v]: a connection as a state machine over packets, timers and calls of the user.
    - [GivingUp.v]: a connection whose peer has gone silent, expiry by expiry of its retry timer.
    - [Emission.v], [Moving.v]: what connections send fits a datagram; their address and the events
      that announce it.
    - [Socket.v]: [Socket], [socket/Drop.h]. The heap of connections is the map [store].
    - [Facilities.v]: [base/detail/Random.h], with the engine a parameter, and
      [base/detail/SimpleInPlaceArray.hpp].
    - [Api.v]: [mrudp.cpp] and the handles of connections, sockets and services.
    - [SocketLife.v]: a socket as a state machine over packets, timers and calls of the users.
    - [Agreement.v]: two connections and the network between them.
    - [Speaking.v], [Hearing.v], [Stream.v]: what each handler of a connection adds to the frames it
      sends, what it hands over of the frames it gets, and the stream from one to the other.
    - [SocketStream.v]: the streams in both directions, between the sockets the two connections are
      made in.
    - [Host.v]: a socket on its native layer, as [Socket] and [imp::SocketImp] are put together: what
      connections do to the outside is done to the layer, what the layer receives goes up.
    - [HostStream.v]: two of these, and a network that carries datagrams from one to the other.
    - [Crypto.v]: [Crypto], [imp/Crypto.h], [imp/CryptoOpenSSL.cpp] and the signed challenges of
      [NetworkPath]; OpenSSL is the class [OpenSSL] with the laws [OpenSSLLaws].
    - [Session.v]: two encrypted connections and the network between them.
    - [Asio.v]: [imp/Asio]; the system, reached through Boost.Asio, is the class [Os], completions
      of asynchronous operations are operations of the model, shared pointers are owners of the
      objects in [natives].
    - [Datagram.v]: addresses and endpoints, packets and datagrams; packets are compared by what they
      hold ([≡]), not by what is behind in their buffers.
    - [Traffic.v]: what the native layer carries, and the addresses it keeps of connections.
    - [AddressText.v]: addresses as text, [mrudp_resolve]; the functions of the system are the class
      [Inet] with the laws [InetLaws].
    - [NativeQueue.v]: the queue of a native socket, critical section by critical section.
    - [Overlapped.v], [NativeLayer.v]: the invariant of the native layer and the layer as a state
      machine over calls and completions.
    - [ServiceLife.v]: [Service], who keeps it alive, and the wait of [mrudp_close_service].
    - [Proxy.v]: [Proxy.cpp], [mrudp_proxy.cpp], on a library given by the class [Mrudp] with the
      laws [MrudpLaws]; the entries of its map are nodes on a heap that callbacks point to.
    - [ProxyApi.v]: the interface of [Api.v], with sockets and connections behind it, is such a
      library.
    - [ProxyWire.v], [Tunnel.v], [ProxyLifecycle.v]: messages on the wire and the invariant of a
      proxy; two proxies and the wire between them; how proxied connections begin and end.
    - [ProxyProgram.v]: the rest of [mrudp_proxy.cpp], and [mrudp_proxy/main.cpp].

    ** The theorems

    - End to end: between two whole connections, whatever their handlers, timers and users do and
      whatever the network loses, repeats and reorders, the user of one is handed over what the
      user of the other sent, in order and once ([connection_stream]); so it is, in both directions
      at once, between two sockets that have these connections among others ([socket_stream]), and
      between two hosts, through their native layers and datagrams ([host_stream]). It rests on the
      two queues and a network ([stream_end_to_end], from [send_queue_stream] and
      [reliable_delivery_in_order]), and holds within half the frame-id space. Both ends agree on their ids ([handshake_agreement]);
      compressed streams round trip ([processCompressed_compress]).
    - The connection: every reachable state is well-formed and handles every valid input to the end
      ([connection_progress]); the user hears of the end once ([connection_close_once]); failing
      closes and notifies ([fail_notifies]); the reliable queue goes on the wire in order, within the
      window ([send_window]); the retry timer gives up, repeats or waits, and is armed again, as it should ([onRetryTimeout_policy]), so that a silent peer
      is given up after as many attempts as the options allow, in bounded time
      ([silent_peer_given_up]); the address follows
      only an answered challenge ([address_follows_challenge]).
    - The socket, the scheduler and the interface: a socket is a family of connections, each living
      as the theorems on connections say ([socket_lives]); ids and look-ups ([connect_correct],
      [acquireShortConnectionID_fresh], [generateConnection_guard]), exactly the due timeouts run
      and the native timer stays armed ([process_correct], [schedule_correct], [timers_covered]), handles
      die when closed ([close_connection_handle_once]), a service ends with its last owner and who
      waits for it is woken ([service_close_waits]), addresses survive their text
      ([address_text_roundtrip]).
    - The proxy: two proxies and their wire are a queue of messages ([proxy_tunnel]), whose buffer
      is a queue of bytes ([circular_buffer_refines_queue]); on the modelled library a payload
      touches nothing freed ([payload_on_library]); the first packet opens what it asks for
      ([first_packet_opens]); ids of both sides stay apart ([proxy_ids_apart]); the
      program opens the proxy its command line describes ([main_command_line]).
    - Encryption: connections hold each other's session keys and open each other's packets, whatever
      the network does ([session_agreement]); the exchange gets through unless OpenSSL fails
      ([handshake_establishes_session]); encrypted packets fit and round trip
      ([aes_packet_roundtrip]).
    - The native layer: no operation is undefined and datagrams go where they were sent
      ([native_layer_sound]); under a socket it does what the connections above ask of it, and keeps
      up with their addresses, on every valid input ([host_sound]); its queues are queues for every interleaving ([native_queue_fifo]);
      packets and addresses survive the system's representation ([datagram_roundtrip],
      [address_endpoint_roundtrip]).
    - Foundations: [mem_copy_is_memcpy], [popData_pushData], [id_greater_than_signed],
      [Address_order], [rtt_pipeline_safe], [reliable_onReceive_safe].
    - Where the code does not do what it means to: [unreliable_onReceive_frames],
      [pushData_oversize_escapes_guard], [close_write_overtakes_compressed],
      [fail_stuck_when_compressing], [merge_defaults_loses_reliable_compression], [send_codes],
      [wire_end_dangles], [forged_response_accepted], [closed_send_blocks_queue],
      [relocate_keeps_closed_socket], [default_thread_quantity], [race_end], [str_to_addr_no_port],
      [usage_misspelt], [nextInt_least].

    ** Bounds and fuel

    Loops that are not structural take a fuel argument, given by the operation that calls the loop:
    the number of bytes or queue entries that every round consumes plus one ([onReceive_loop],
    [processQueue_loop], [coalesceStream_loop], the send loops), the 2^16 ids of
    [acquire_loop], or the number of timeouts due ([process_loop]); the loops of the proxy consume
    a header or five bytes a round, and a compressed batch comes out after enough [dequeue] calls. Calls that nest, a close inside a close callback, a write inside
    the growth of a buffer, nest once, and get the fuel for it. The theorems show these bounds
    to be enough, as they show the results to be [Some].

    [Lifecycle.valid] names the inputs the connection theorems are about. It leaves out packets on
    which the source reads outside a packet or converts out of range (short acknowledgement frames,
    ragged unreliable packets, huge probe delays), compressed frames (which have their own theorem),
    packet ids reused while still unacknowledged by a priority packet, and buffers of 2^31 bytes.
    [SocketLife.sk_valid] and [Host.host_valid] leave out the same, a new connection when no short id
    is left, and events of connections that are gone.
    The widths of a packet's header, which it asks for, are what [receive_into] makes them; so
    [Host.host_valid] does not ask for them again.

    ** Not modelled

    The calls of [Crypto] inside [Connection::send] and [receive], compiled only with
    [MRUDP_ENABLE_CRYPTO], which [Config.h] leaves off: encryption is modelled beside the
    connection. Of the native layer the injection of failures for tests and the unused [UVW.h]. Calls of
    the user from within its callbacks: they are inputs after the handler, and [Host.v] carries out what a
    handler does to the layer when the handler is done. [DropPercentage] and [nextReal], which are ill-formed. Logging, tracing,
    and smart pointers but for the ownership of native sockets and services; interleavings inside
    handlers, as said above. Of the proxy,
    its ticker thread: the ticks are steps; of its program, what it prints. The code under
    [_remove], the examples and the tests are not part of the library. *)

From coqutil Require Export Byte.
From coqutil Require Import Word.LittleEndianList.
From Stdlib Require Import Strings.Byte.
From stdpp Require Export sorting base list_basics gmap list numbers strings option.

#[global] Open Scope Z_scope.

Abbreviation last := list_basics.list.last.

(** ** Machine integers

    A [w]-bit unsigned integer of the source is a [Z] in [[0, 2^w)]; the conversions the source
    performs implicitly or with a cast are written out with these functions. *)
Definition wrap (w : Z) (z : Z) : Z := z `mod` 2 ^ w.
Abbreviation u8 := (wrap 8).
Abbreviation u16 := (wrap 16).
Abbreviation u32 := (wrap 32).
Abbreviation size_t := (wrap 64).

(** Two's complement reading of the low [w] bits ([int8_t], [int16_t], [int]). *)
Definition swrap (w : Z) (z : Z) : Z := (z + 2 ^ (w - 1)) `mod` 2 ^ w - 2 ^ (w - 1).
Abbreviation int16 := (swrap 16).
Abbreviation int32 := (swrap 32).

Definition in_u (w z : Z) : Prop := 0 ≤ z < 2 ^ w.

Lemma wrap_range w z : 0 ≤ w → in_u w (wrap w z).
Proof. intros. apply Z.mod_pos_bound. by apply Z.pow_pos_nonneg. Qed.

Lemma wrap_small w z : in_u w z → wrap w z = z.
Proof. apply Z.mod_small. Qed.

Lemma swrap_small w z : 0 < w → - 2 ^ (w - 1) ≤ z < 2 ^ (w - 1) → swrap w z = z.
Proof.
  intros Hw Hz. unfold swrap. rewrite Z.mod_small; [lia|].
  replace (2 ^ w) with (2 * 2 ^ (w - 1)); [lia|]. rewrite <-Z.pow_succ_r by lia. f_equal. lia.
Qed.

Lemma wrap_wrap_add w a b : wrap w (wrap w a + b) = wrap w (a + b).
Proof. unfold wrap. by rewrite Zplus_mod_idemp_l. Qed.

Lemma wrap_wrap w z : wrap w (wrap w z) = wrap w z.
Proof. unfold wrap. by rewrite Zmod_mod. Qed.

(** Linear goals about wrapped values, after the wraps are written as Euclidean divisions. *)
Ltac wrap_lia :=
  unfold in_u, wrap in *; cbn [Z.pow Z.pow_pos Pos.iter Z.mul Pos.mul] in *;
  Z.div_mod_to_equations; lia.

(** Two indices closer than the modulus that agree modulo it are equal. *)
Lemma wrap_inj_window w a b :
  0 ≤ w → Z.abs (a - b) < 2 ^ w → wrap w a = wrap w b → a = b.
Proof.
  intros Hw Hab Heq. unfold wrap in Heq.
  pose proof (Z.pow_pos_nonneg 2 w ltac:(lia) Hw) as Hpos.
  pose proof (Z.div_mod a (2 ^ w)) as Ha. pose proof (Z.div_mod b (2 ^ w)) as Hb.
  rewrite Heq in Ha.
  assert (a `div` 2 ^ w = b `div` 2 ^ w) by nia. lia.
Qed.

(** ** Bytes in memory

    Multi-byte fields are laid out in the byte order of the little-endian hosts the library is
    built for: the source copies structures to and from packets verbatim. *)
Abbreviation bytes := (list byte).

#[export] Instance byte_eq_decision : EqDecision byte := Byte.byte_eq_dec.
#[export] Instance byte_countable : Countable byte.
Proof. refine (inj_countable Byte.to_N Byte.of_N _). apply Byte.of_to_N. Defined.

Definition le_encode (n : nat) (z : Z) : bytes := le_split n z.
Definition le_decode (bs : bytes) : Z := le_combine bs.
#[global] Arguments le_encode : simpl never.
#[global] Arguments le_decode : simpl never.

Lemma le_encode_length n z : length (le_encode n z) = n.
Proof. apply length_le_split. Qed.

Lemma le_decode_encode n z : in_u (Z.of_nat n * 8) z → le_decode (le_encode n z) = z.
Proof. intros. unfold le_decode, le_encode. rewrite le_combine_split. by apply Z.mod_small. Qed.

Lemma le_encode_decode bs : le_encode (length bs) (le_decode bs) = bs.
Proof. apply split_le_combine. Qed.

Lemma le_decode_range bs : in_u (8 * Z.of_nat (length bs)) (le_decode bs).
Proof. apply le_combine_bound. Qed.

(** [slice o n l]: the [n] elements of [l] from offset [o]. *)
Definition slice {A} (o n : nat) (l : list A) : list A := take n (drop o l).

Lemma slice_length {A} o n (l : list A) : (o + n ≤ length l)%nat → length (slice o n l) = n.
Proof. intros. unfold slice. rewrite length_take, length_drop. lia. Qed.

Lemma slice_app_mid {A} (l1 l2 l3 : list A) :
  slice (length l1) (length l2) (l1 ++ l2 ++ l3) = l2.
Proof. unfold slice. by rewrite drop_app_length, take_app_length. Qed.

Lemma take_slice {A} o n (l : list A) : take o l ++ slice o n l = take (o + n) l.
Proof. unfold slice. by rewrite <-take_take_drop. Qed.

Lemma Forall_elem_of {A} (P : A → Prop) l x : Forall P l → x ∈ l → P x.
Proof. induction 1; intros [|]%elem_of_cons || (by intros ?%elem_of_nil); naive_solver. Qed.

(** ** Computations that can leave the defined behaviour of the source

    [M S A] is a computation on a state [S]. [None] stands for an execution the language does
    not define (an access outside an object) or, in a loop translated with fuel, for the fuel
    running out; theorems about an operation show that it is not [None]. *)
Definition M (S A : Type) : Type := S → option (A * S).

Section monad.
Context {S : Type}.
#[global] Instance M_ret : MRet (M S) := λ A a s, Some (a, s).
#[global] Instance M_bind : MBind (M S) := λ A B f m s,
  match m s with Some (a, s') => f a s' | None => None end.
Definition mget : M S S := λ s, Some (s, s).
Definition gets {A} (f : S → A) : M S A := λ s, Some (f s, s).
Definition modify (f : S → S) : M S unit := λ s, Some (tt, f s).
Definition ub {A} : M S A := λ _, None.
Definition lift {A} (o : option A) : M S A := λ s, (λ a, (a, s)) <$> o.
Definition when (b : bool) (m : M S unit) : M S unit := if b then m else mret tt.
Fixpoint mapM_ {A} (f : A → M S unit) (l : list A) : M S unit :=
  match l with [] => mret tt | x :: l => f x ;; mapM_ f l end.

(** Total correctness: [m] started in [s] is defined and ends with [Q]. *)
Definition wp {A} (m : M S A) (Q : A → S → Prop) (s : S) : Prop :=
  match m s with Some (a, s') => Q a s' | None => False end.

Lemma wp_ret {A} (a : A) Q s : Q a s → wp (mret a) Q s.
Proof. done. Qed.
Lemma wp_bind {A B} (m : M S A) (f : A → M S B) Q s :
  wp m (λ a, wp (f a) Q) s → wp (m ≫= f) Q s.
Proof. unfold wp, mbind, M_bind. by destruct (m s) as [[??]|]. Qed.
Lemma wp_mono {A} (m : M S A) (P Q : A → S → Prop) s :
  wp m P s → (∀ a s', P a s' → Q a s') → wp m Q s.
Proof. unfold wp. destruct (m s) as [[??]|]; auto. Qed.
Lemma wp_and {A} (m : M S A) (P Q : A → S → Prop) s :
  wp m P s → wp m Q s → wp m (λ a s', P a s' ∧ Q a s') s.
Proof. unfold wp. destruct (m s) as [[??]|]; auto. Qed.
Lemma wp_mget Q s : Q s s → wp mget Q s.
Proof. done. Qed.
Lemma wp_gets {A} (f : S → A) Q s : Q (f s) s → wp (gets f) Q s.
Proof. done. Qed.
Lemma wp_modify f Q s : Q tt (f s) → wp (modify f) Q s.
Proof. done. Qed.
Lemma wp_lift {A} (o : option A) a Q s : o = Some a → Q a s → wp (lift o) Q s.
Proof. by intros ->. Qed.
Lemma wp_when (b : bool) m Q s :
  (b = true → wp m Q s) → (b = false → Q tt s) → wp (when b m) Q s.
Proof. unfold when. destruct b; intros H1 H2; [by apply H1|apply wp_ret, H2; done]. Qed.
Lemma wp_some {A} (m : M S A) Q s :
  wp m Q s ↔ ∃ a s', m s = Some (a, s') ∧ Q a s'.
Proof.
  unfold wp. destruct (m s) as [[a s']|]; split; [by eauto| |done|].
  - by intros (?&?&[= <- <-]&?).
  - by intros (?&?&?&?).
Qed.

(** An invariant kept by the body is kept by the whole iteration. *)
Lemma wp_mapM_inv {A} (I : S → Prop) (f : A → M S unit) l s :
  I s → (∀ x s', x ∈ l → I s' → wp (f x) (λ _, I) s') → wp (mapM_ f l) (λ _, I) s.
Proof.
  revert s. induction l as [|x l IH]; intros s Hs Hf; simpl; [done|].
  apply wp_bind. eapply wp_mono; [apply Hf; [by left|done]|].
  intros [] s' Hs'. apply IH; [done|]. intros. apply Hf; [by right|done].
Qed.
End monad.

Create HintDb mrudp.
#[export] Hint Resolve wp_ret wp_mget wp_gets wp_modify : mrudp.

(** Step through the straight-line part of a handler. *)
Ltac wp_step :=
  match goal with
  | |- wp (mbind _ _) _ _ => apply wp_bind
  | |- wp (mret _) _ _ => apply wp_ret
  | |- wp (gets _) _ _ => apply wp_gets
  | |- wp mget _ _ => apply wp_mget
  | |- wp (modify _) _ _ => apply wp_modify
  end; cbv beta.
Ltac wp_steps := repeat wp_step.

