(* ===== verification/MemCopy.v ===== *)
(** * Copying memory: [base/detail/small_copy.hpp] and [base/detail/mem_copy.hpp]

    The destination and the source are the byte lists the two pointers point to; the pointers
    advance together, so one position [i] stands for both. A copied byte past the end of either
    list is an access outside the object and makes the result [None]. *)

From S2P Require Import Prelude.

(** [*d++ = *s++] executed [k] times from position [i]. *)
Fixpoint copy_bytes (k i : nat) (s d : bytes) : option (nat * bytes) :=
  match k with
  | O => Some (i, d)
  | S k =>
    match s !! i, d !! i with
    | Some b, Some _ => copy_bytes k (S i) s (<[i := b]> d)
    | _, _ => None
    end
  end.

(** The [while] loop: four bytes a round until at most four are left. *)
Fixpoint small_copy_loop (fuel i size : nat) (s d : bytes) : option bytes :=
  match fuel with
  | O => None
  | S fuel =>
    match size with
    | O => Some d
    | 1%nat => snd <$> copy_bytes 1 i s d
    | 2%nat => snd <$> copy_bytes (1 + 1) i s d
    | 3%nat => snd <$> copy_bytes (1 + 1 + 1) i s d
    | 4%nat => snd <$> copy_bytes (1 + 1 + 1 + 1) i s d
    | _ =>
      '(i', d') ← copy_bytes 4 i s d;
      small_copy_loop fuel i' (size - 4) s d'
    end
  end.

(** The first [switch], whose cases fall through. *)
Definition small_copy_v3 (d s : bytes) (size : nat) : option bytes :=
  match size with
  | 8%nat => snd <$> copy_bytes (4 + (2 + (1 + 1))) 0 s d
  | 4%nat => snd <$> copy_bytes (2 + (1 + 1)) 0 s d
  | 2%nat => snd <$> copy_bytes (1 + 1) 0 s d
  | 1%nat => snd <$> copy_bytes 1 0 s d
  | _ => small_copy_loop (S size) 0 size s d
  end.

Definition small_copy (d s : bytes) (size : nat) : option bytes := small_copy_v3 d s size.

(** [None] for the [false] result: nothing was copied. *)
Definition maybe_small_copy (d s : bytes) (size : nat) : option (option bytes) :=
  if decide (32 < size)%nat then None else Some (small_copy d s size).

(** The C library's [memcpy]: defined only inside both objects. *)
Definition memcpy (d s : bytes) (size : nat) : option bytes :=
  if decide (size ≤ length s ∧ size ≤ length d)%nat
  then Some (take size s ++ drop size d) else None.

Definition mem_copy (d s : bytes) (size : nat) : option bytes :=
  match maybe_small_copy d s size with
  | Some r => r
  | None => memcpy d s size
  end.

(** ** Every copy routine is [memcpy] *)

(** What [k] copied bytes from position [i] do, inside and outside the two objects. *)
Definition copied (k i : nat) (s d : bytes) : option bytes :=
  if decide (i + k ≤ length s ∧ i + k ≤ length d)%nat
  then Some (take i d ++ slice i k s ++ drop (i + k) d) else None.

Lemma copied_length k i s d d' : copied k i s d = Some d' → length d' = length d.
Proof.
  unfold copied. case_decide; [|done]. intros [= <-].
  rewrite !length_app, length_take, slice_length, length_drop by lia. lia.
Qed.

Lemma copied_0 i s d : (i ≤ length s)%nat → (i ≤ length d)%nat → copied 0 i s d = Some d.
Proof.
  intros. unfold copied. rewrite decide_True by lia. unfold slice.
  rewrite Nat.add_0_r, take_0. simpl. by rewrite take_drop.
Qed.

(** Copying [j] bytes and then [k] more is copying [j + k] bytes. *)
Lemma copied_add j k i s d :
  (i ≤ length s)%nat → (i ≤ length d)%nat →
  copied (j + k) i s d = d' ← copied j i s d; copied k (i + j) s d'.
Proof.
  intros Hs Hd.
  destruct (decide (i + j ≤ length s ∧ i + j ≤ length d)%nat) as [Hj|Hj]; cycle 1.
  { unfold copied. by rewrite !decide_False by lia. }
  assert (copied j i s d = Some (take i d ++ slice i j s ++ drop (i + j) d)) as ->.
  { unfold copied. by rewrite decide_True. }
  cbn [mbind option_bind].
  assert (length (take i d ++ slice i j s) = (i + j)%nat) as Hl.
  { rewrite length_app, length_take, slice_length by lia. lia. }
  assert (length (take i d ++ slice i j s ++ drop (i + j) d) = length d) as Hl'.
  { rewrite app_assoc, length_app, Hl, length_drop. lia. }
  unfold copied. rewrite Hl', Nat.add_assoc. case_decide; [|done]. f_equal.
  rewrite !(app_assoc (take i d) (slice i j s)), take_app_length' by lia.
  rewrite drop_app_ge, Hl, drop_drop by lia.
  replace (i + j + (i + j + k - (i + j)))%nat with (i + j + k)%nat by lia.
  rewrite <-!app_assoc. f_equal. rewrite app_assoc. f_equal.
  unfold slice. by rewrite <-drop_drop, take_take_drop.
Qed.

Lemma copied_1 i s d :
  (i ≤ length s)%nat → (i ≤ length d)%nat →
  copied 1 i s d = match s !! i, d !! i with Some b, Some _ => Some (<[i := b]> d) | _, _ => None end.
Proof.
  intros. unfold copied. case_decide as Hi.
  - destruct (lookup_lt_is_Some_2 s i) as [b Hb]; [lia|].
    destruct (lookup_lt_is_Some_2 d i) as [c Hc]; [lia|].
    rewrite Hb, Hc. f_equal. unfold slice. rewrite (drop_S s b i) by done.
    rewrite insert_take_drop by lia. by replace (i + 1)%nat with (S i) by lia.
  - destruct (s !! i) eqn:?; [|done]. destruct (d !! i) eqn:?; [|done].
    apply lookup_lt_Some in Heqo, Heqo0. lia.
Qed.

Lemma copy_bytes_copied k i s d :
  (i ≤ length s)%nat → (i ≤ length d)%nat →
  copy_bytes k i s d = (λ d', ((i + k)%nat, d')) <$> copied k i s d.
Proof.
  revert i d. induction k as [|k IH]; intros i d Hs Hd.
  { rewrite copied_0 by lia. simpl. by rewrite Nat.add_0_r. }
  change (S k) with (1 + k)%nat. rewrite copied_add, copied_1 by lia. simpl.
  destruct (s !! i) eqn:E1; [|done]. destruct (d !! i) eqn:E2; [|done].
  apply lookup_lt_Some in E1, E2. cbn [mbind option_bind].
  rewrite IH by (rewrite ?length_insert; lia).
  replace (S i) with (i + 1)%nat by lia. by replace (i + 1 + k)%nat with (i + S k)%nat by lia.
Qed.

Lemma small_copy_loop_copied fuel i size s d :
  (size < fuel)%nat → (i ≤ length s)%nat → (i ≤ length d)%nat →
  small_copy_loop fuel i size s d = copied size i s d.
Proof.
  revert i size d. induction fuel as [|fuel IH]; intros i size d Hf Hs Hd; [lia|].
  assert (∀ k, snd <$> copy_bytes k i s d = copied k i s d) as Hc.
  { intros k. rewrite copy_bytes_copied by lia. by destruct (copied k i s d). }
  do 5 (destruct size as [|size]; [first [by rewrite copied_0 by lia | apply Hc]|]).
  cbn [small_copy_loop]. rewrite copy_bytes_copied by lia.
  change (S (S (S (S (S size))))) with (4 + S size)%nat. rewrite copied_add by lia.
  destruct (copied 4 i s d) as [d'|] eqn:Ed; [|done]. simpl.
  pose proof (copied_length _ _ _ _ _ Ed). unfold copied in Ed. case_decide; [|done].
  apply IH; lia.
Qed.

Lemma small_copy_memcpy d s size : small_copy d s size = memcpy d s size.
Proof.
  assert (memcpy d s size = copied size 0 s d) as ->.
  { unfold memcpy, copied. simpl. by destruct (decide _). }
  assert (∀ k, snd <$> copy_bytes k 0 s d = copied k 0 s d) as Hc.
  { intros k. rewrite copy_bytes_copied by lia. by destruct (copied k 0 s d). }
  assert (small_copy_loop (S size) 0 size s d = copied size 0 s d) as Hl.
  { apply small_copy_loop_copied; lia. }
  unfold small_copy, small_copy_v3.
  do 9 (destruct size as [|size]; [exact Hl || apply Hc|]). exact Hl.
Qed.

Lemma memcpy_inside d s size :
  (size ≤ length s)%nat → (size ≤ length d)%nat → memcpy d s size = Some (take size s ++ drop size d).
Proof. intros. unfold memcpy. by rewrite decide_True. Qed.

Lemma mem_copy_eq d s size : mem_copy d s size = memcpy d s size.
Proof.
  unfold mem_copy, maybe_small_copy. case_decide; [done|]. apply small_copy_memcpy.
Qed.

(** C39: [mem_copy], with its unrolled copies of up to eight bytes, its four-bytes-a-round loop
    for up to 32 bytes and its call of [memcpy] above, is [memcpy] for every size: the same
    bytes end up in the destination, and it touches memory outside the two objects exactly
    when [memcpy] would. *)
Theorem mem_copy_is_memcpy : ∀ d s size, mem_copy d s size = memcpy d s size.
Proof. apply mem_copy_eq. Qed.
