(* ===== verification/Containers.v ===== *)
(** * Containers: [base/detail/CircularBuffer.hpp], [base/detail/SizedVector.hpp]

    The byte queue the proxy reassembles its wire in, and the vector whose storage never shrinks.
    Their assertions are compiled out: what they guard is written as the machine computes it.

    [CircularBuffer::grow] moves bytes inside the buffer with [memcpy], which the C standard leaves
    undefined when source and destination overlap. What the platform does then is the argument
    [memmoves]: [true] when its [memcpy] copies overlapping regions as [memmove] does. *)

From S2P Require Import Prelude MemCopy.

(** ** [CircularBuffer<char>] *)

Record CircularBuffer := mkCircularBuffer {
  buffer : bytes;
  begin_ : Z;   (* size_t *)
  end_ : Z;     (* size_t *)
  size_ : Z;    (* size_t *)
}.

Definition CircularBuffer_init : CircularBuffer := mkCircularBuffer [] 0 0 0.

Definition set_cb_buffer (x : bytes) (b : CircularBuffer) : CircularBuffer :=
  mkCircularBuffer x (begin_ b) (end_ b) (size_ b).
Definition set_end (x : Z) (b : CircularBuffer) : CircularBuffer :=
  mkCircularBuffer (buffer b) (begin_ b) x (size_ b).
Definition set_size (x : Z) (b : CircularBuffer) : CircularBuffer :=
  mkCircularBuffer (buffer b) (begin_ b) (end_ b) x.

Definition cb_clear (b : CircularBuffer) : CircularBuffer := mkCircularBuffer (buffer b) 0 0 0.

(** [buffer.size()] *)
Definition bufferSize (b : CircularBuffer) : Z := Z.of_nat (length (buffer b)).

Definition available (b : CircularBuffer) : Z := size_t (bufferSize b - size_ b).

Record Segment := mkSegment { seg_to : Z; seg_from : Z; seg_size : Z }.

(** [to_1] is an [int]. *)
Definition segments (b : CircularBuffer) (from_ dataSize : Z) : Segment * Segment :=
  if bufferSize b =? 0 then (mkSegment 0 0 0, mkSegment 0 0 0)
  else
    let from := from_ `mod` bufferSize b in
    let to_0 := size_t (from + dataSize) in
    let '(to_0, to_1) :=
      if bufferSize b <? to_0 then
        let to_1 := int32 (to_0 `mod` bufferSize b) in (size_t (to_0 - to_1), to_1)
      else (to_0, 0) in
    let seg_0 := size_t (to_0 - from) in
    let seg_1 := size_t to_1 in
    (mkSegment from 0 seg_0, mkSegment 0 seg_0 seg_1).

(** What [write] copies from: nothing (a null pointer), memory of the caller, or the buffer's own
    storage from its start. *)
Inductive Source := Null | External (bs : bytes) | Own.

(** [memcpy(d + to, s + from, size)] *)
Definition memcpy_at (d : bytes) (to : Z) (s : bytes) (from size : Z) : option bytes :=
  if decide (to ≤ Z.of_nat (length d) ∧ from ≤ Z.of_nat (length s))
  then (λ t, take (Z.to_nat to) d ++ t) <$>
         memcpy (drop (Z.to_nat to) d) (drop (Z.to_nat from) s) (Z.to_nat size)
  else None.

(** The regions of [size] bytes at [to] and at [from] of one object overlap. *)
Definition overlap (to from size : Z) : bool := (to <? from + size) && (from <? to + size).

Section operations.
Context (memmoves : bool).

(** The body of the loop over the segments. *)
Definition write_segment (data : Source) (b : CircularBuffer) (s : Segment) : option CircularBuffer :=
  if seg_size s =? 0 then Some b
  else
    d ← match data with
        | Null => memcpy_at (buffer b) (seg_to s) (replicate (Z.to_nat (seg_size s)) Byte.x00) 0 (seg_size s)
        | External bs => memcpy_at (buffer b) (seg_to s) bs (seg_from s) (seg_size s)
        | Own =>
          if overlap (seg_to s) (seg_from s) (seg_size s) && negb memmoves then None
          else memcpy_at (buffer b) (seg_to s) (buffer b) (seg_from s) (seg_size s)
        end;
    Some (set_end (size_t (seg_to s + seg_size s) `mod` bufferSize b) (set_cb_buffer d b)).

(** [grow] calls [write], which calls [grow]: [write] is an argument here. *)
Definition grow_with (write : Source → Z → CircularBuffer → option CircularBuffer)
    (dataSize : Z) (b : CircularBuffer) : option CircularBuffer :=
  if dataSize =? 0 then Some b
  else
    b' ← (if available b <=? dataSize then
            let previousBufferSize := bufferSize b in
            let b1 := set_cb_buffer (buffer b ++ replicate (Z.to_nat dataSize) Byte.x00) b in
            if end_ b1 <=? begin_ b1 then
              let previousEnd := end_ b1 in
              let b2 := set_end previousBufferSize b1 in
              if 0 <? previousEnd then
                write Own previousEnd (set_size (size_t (size_ b2 - previousEnd)) b2)
              else Some b2
            else Some b1
          else Some b);
    Some (set_size (size_t (size_ b' + dataSize)) b').

(** A source inside the buffer dangles if [grow] gave the buffer new storage. *)
Definition write_with (grow : Z → CircularBuffer → option CircularBuffer)
    (data : Source) (dataSize : Z) (b : CircularBuffer) : option CircularBuffer :=
  let size := size_ b in
  b1 ← grow dataSize b;
  match data with
  | Own => if bufferSize b1 =? bufferSize b then Some tt else None
  | _ => Some tt
  end;;
  let '(s0, s1) := segments b1 (size_t (begin_ b1 + size)) dataSize in
  b2 ← write_segment data b1 s0;
  write_segment data b2 s1.

Fixpoint write_ (fuel : nat) : Source → Z → CircularBuffer → option CircularBuffer :=
  match fuel with
  | O => λ _ _ _, None
  | S fuel => write_with (grow_with (write_ fuel))
  end.

(** The write inside [grow] does not grow again. *)
Definition cb_write : Source → Z → CircularBuffer → option CircularBuffer := write_ 2.
Definition cb_grow : Z → CircularBuffer → option CircularBuffer := grow_with (write_ 1).
End operations.

(** The bytes copied to the caller's [dataSize] bytes at [data]. *)
Definition cb_peek (dataSize : Z) (b : CircularBuffer) : option bytes :=
  if dataSize =? 0 then Some []
  else
    let '(s0, s1) := segments b (begin_ b) dataSize in
    let copy d s :=
      if seg_size s =? 0 then Some d else memcpy_at d (seg_from s) (buffer b) (seg_to s) (seg_size s) in
    d ← copy (replicate (Z.to_nat dataSize) Byte.x00) s0;
    copy d s1.

(** A division by zero when there is no buffer. *)
Definition cb_skip (dataSize : Z) (b : CircularBuffer) : option CircularBuffer :=
  if dataSize =? 0 then Some b
  else if bufferSize b =? 0 then None
  else Some (mkCircularBuffer (buffer b) (size_t (begin_ b + dataSize) `mod` bufferSize b) (end_ b)
               (size_t (size_ b - dataSize))).

Definition cb_read (dataSize : Z) (b : CircularBuffer) : option (bytes * CircularBuffer) :=
  if dataSize =? 0 then Some ([], b)
  else
    d ← cb_peek dataSize b;
    b' ← cb_skip dataSize b;
    Some (d, b').

(** ** [SizedVector<char>] *)

Record SizedVector := mkSizedVector { sv_v : bytes; sv_size : Z }.

Definition SizedVector_init : SizedVector := mkSizedVector [] 0.

Definition sv_reserve (size : Z) (s : SizedVector) : SizedVector :=
  if Z.of_nat (length (sv_v s)) <? size
  then mkSizedVector (sv_v s ++ replicate (Z.to_nat size - length (sv_v s)) Byte.x00) (sv_size s)
  else s.

(** Bytes beyond the old size are those that were there before. *)
Definition sv_resize (size : Z) (s : SizedVector) : SizedVector :=
  mkSizedVector (sv_v (sv_reserve size s)) size.

Definition sv_empty (s : SizedVector) : bool := sv_size s =? 0.

Definition sv_push_back (t : byte) (s : SizedVector) : SizedVector :=
  if sv_size s <? Z.of_nat (length (sv_v s))
  then mkSizedVector (<[Z.to_nat (sv_size s) := t]> (sv_v s)) (sv_size s + 1)
  else s.

Definition sv_pop_back (s : SizedVector) : SizedVector :=
  if 0 <? sv_size s then mkSizedVector (sv_v s) (sv_size s - 1) else s.

(** [erase(begin() + a, end())] *)
Definition sv_erase (a : Z) (s : SizedVector) : SizedVector :=
  mkSizedVector (sv_v s) (size_t (sv_size s - (sv_size s - a))).

#[global] Arguments write_ : simpl never.

(** ** The buffer as a queue of bytes *)

(** What the buffer holds: [size_] bytes from [begin_] on, round the end of the storage. *)
Definition cb_contents (b : CircularBuffer) : bytes :=
  take (Z.to_nat (size_ b)) (drop (Z.to_nat (begin_ b)) (buffer b ++ buffer b)).

Record cb_wf (b : CircularBuffer) : Prop := {
  cw_small : bufferSize b < 2 ^ 31;
  cw_size : 0 ≤ size_ b ≤ bufferSize b;
  cw_begin : 0 ≤ begin_ b ∧ (begin_ b < bufferSize b ∨ begin_ b = 0);
  cw_end : end_ b = (begin_ b + size_ b) `mod` bufferSize b;
}.

(** The byte at position [i] of the queue that starts at [from]. *)
Definition ring (b : CircularBuffer) (from i : Z) : option byte :=
  buffer b !! Z.to_nat ((from + i) `mod` bufferSize b).

(** One turn round the buffer. *)
Lemma turn N x : 0 ≤ x < 2 * N → x `mod` N = if decide (x < N) then x else x - N.
Proof.
  intros Hx. case_decide; [apply Z.mod_small; lia|].
  rewrite <-(Z.mod_unique x N 1 (x - N)); lia.
Qed.

Lemma cb_contents_lookup b i :
  cb_wf b → 0 ≤ i < size_ b → cb_contents b !! Z.to_nat i = ring b (begin_ b) i.
Proof.
  intros [Hs Hz Hb _] Hi. unfold cb_contents, ring, bufferSize in *.
  rewrite lookup_take, decide_True by lia. rewrite lookup_drop.
  rewrite turn by lia. case_decide.
  - rewrite lookup_app_l by lia. f_equal. lia.
  - rewrite lookup_app_r by lia. f_equal. lia.
Qed.

Lemma cb_contents_length b : cb_wf b → Z.of_nat (length (cb_contents b)) = size_ b.
Proof.
  intros [Hs Hz Hb _]. unfold cb_contents, bufferSize in *.
  rewrite length_take, length_drop, length_app. lia.
Qed.

Lemma CircularBuffer_init_wf : cb_wf CircularBuffer_init.
Proof. by split; simpl; try lia. Qed.

(** The contents are determined by their bytes. *)
Lemma cb_contents_eq b l :
  cb_wf b → Z.of_nat (length l) = size_ b →
  (∀ i, 0 ≤ i < size_ b → ring b (begin_ b) i = l !! Z.to_nat i) → cb_contents b = l.
Proof.
  intros Hw Hl Hr. apply list_eq. intros k. pose proof (cb_contents_length b Hw).
  destruct (decide (Z.of_nat k < size_ b)) as [Hk|Hk].
  - rewrite <-(Nat2Z.id k), cb_contents_lookup, Hr by (done || lia). done.
  - by rewrite !lookup_ge_None_2 by lia.
Qed.

(** *** Copying *)

Lemma memcpy_at_spec d to s from size :
  0 ≤ to → 0 ≤ from → 0 ≤ size → to + size ≤ Z.of_nat (length d) → from + size ≤ Z.of_nat (length s) →
  ∃ d', memcpy_at d to s from size = Some d' ∧ length d' = length d ∧
    (∀ j, to ≤ j < to + size → d' !! Z.to_nat j = s !! Z.to_nat (from + (j - to))) ∧
    (∀ j, 0 ≤ j → j < to ∨ to + size ≤ j → d' !! Z.to_nat j = d !! Z.to_nat j).
Proof.
  intros. unfold memcpy_at. rewrite decide_True by lia.
  rewrite memcpy_inside by (rewrite length_drop; lia). simpl. eexists. split; [done|].
  assert (length (take (Z.to_nat to) d) = Z.to_nat to) as Hto by (rewrite length_take; lia).
  assert (length (take (Z.to_nat size) (drop (Z.to_nat from) s)) = Z.to_nat size) as Hsz
    by (rewrite length_take, length_drop; lia).
  split_and!.
  - rewrite !length_app, Hto, Hsz, !length_drop. lia.
  - intros j Hj. rewrite lookup_app_r, lookup_app_l by lia. rewrite lookup_take, decide_True by lia.
    rewrite lookup_drop, Hto. f_equal. lia.
  - intros j Hj0 [Hj|Hj].
    + rewrite lookup_app_l by lia. by rewrite lookup_take, decide_True by lia.
    + rewrite !lookup_app_r by lia. rewrite !lookup_drop, Hto, Hsz. f_equal. lia.
Qed.

Lemma segments_spec b from_ n :
  0 < bufferSize b < 2 ^ 31 → 0 ≤ from_ → 0 ≤ n ≤ bufferSize b →
  segments b from_ n =
    let p := from_ `mod` bufferSize b in
    if decide (p + n ≤ bufferSize b) then (mkSegment p 0 n, mkSegment 0 n 0)
    else (mkSegment p 0 (bufferSize b - p), mkSegment 0 (bufferSize b - p) (p + n - bufferSize b)).
Proof.
  intros HN Hf Hn. unfold segments. rewrite (proj2 (Z.eqb_neq _ _)) by lia.
  set (N := bufferSize b) in *. pose proof (Z.mod_pos_bound from_ N ltac:(lia)) as Hp.
  set (p := from_ `mod` N) in *. cbv zeta. rewrite (wrap_small 64 (p + n)) by (unfold in_u; lia).
  destruct (Z.ltb_spec N (p + n)) as [Hw|Hw].
  - rewrite decide_False by lia. rewrite (turn N (p + n)), decide_False by lia.
    rewrite (swrap_small 32) by lia. rewrite (wrap_small 64 (p + n - (p + n - N))) by (unfold in_u; lia).
    rewrite !(wrap_small 64) by (unfold in_u; lia). by replace (p + n - (p + n - N) - p) with (N - p) by lia.
  - rewrite decide_True by lia. rewrite !(wrap_small 64) by (unfold in_u; lia).
    by replace (p + n - p) with n by lia.
Qed.

(** Byte [k] of a source, and that the source has [n] bytes. *)
Definition source_byte (data : Source) (b : CircularBuffer) (k : Z) : option byte :=
  match data with
  | Null => Some Byte.x00
  | External bs => bs !! Z.to_nat k
  | Own => buffer b !! Z.to_nat k
  end.
Definition source_has (data : Source) (b : CircularBuffer) (n : Z) : Prop :=
  match data with
  | Null => True
  | External bs => n ≤ Z.of_nat (length bs)
  | Own => n ≤ bufferSize b
  end.

(** [b'] is [b] with the storage and [end_] changed, the storage from [to] on overwritten. *)
Record overwritten (b b' : CircularBuffer) (to n : Z) (byte_at : Z → option byte) : Prop := {
  ow_begin : begin_ b' = begin_ b;
  ow_size : size_ b' = size_ b;
  ow_buffer : bufferSize b' = bufferSize b;
  ow_in : ∀ k, 0 ≤ k < n → buffer b' !! Z.to_nat (to + k) = byte_at k;
  ow_out : ∀ j, 0 ≤ j → j < to ∨ to + n ≤ j → buffer b' !! Z.to_nat j = buffer b !! Z.to_nat j;
}.

Section proofs.
Context (memmoves : bool).

Lemma write_segment_spec data b to from n :
  0 ≤ to → 0 ≤ from → 0 ≤ n → to + n ≤ bufferSize b < 2 ^ 31 → source_has data b (from + n) →
  (data = Own → overlap to from n && negb memmoves = false) →
  ∃ b', write_segment memmoves data b (mkSegment to from n) = Some b' ∧
    overwritten b b' to n (λ k, source_byte data b (from + k)) ∧
    end_ b' = if n =? 0 then end_ b else (to + n) `mod` bufferSize b.
Proof.
  intros Hto Hfrom Hn HN Hsrc Hov. unfold write_segment. simpl.
  destruct (Z.eqb_spec n 0) as [->|Hn0]; [by exists b; split_and!; [..|split; try lia|]|].
  rewrite (wrap_small 64) by (unfold in_u; lia). unfold bufferSize in *.
  enough (∀ s f, 0 ≤ f → f + n ≤ Z.of_nat (length s) →
    (∀ k, 0 ≤ k < n → s !! Z.to_nat (f + k) = source_byte data b (from + k)) →
    ∃ d, memcpy_at (buffer b) to s f n = Some d ∧
      overwritten b (set_end ((to + n) `mod` Z.of_nat (length (buffer b))) (set_cb_buffer d b)) to n
        (λ k, source_byte data b (from + k))) as Hcopy.
  { destruct data as [|bs|]; simpl in Hsrc.
    - destruct (Hcopy (replicate (Z.to_nat n) Byte.x00) 0) as (d&->&?);
        [lia|rewrite length_replicate; lia| |eexists; by split_and!].
      intros k Hk. simpl. apply lookup_replicate_2. lia.
    - destruct (Hcopy bs from) as (d&->&?); [lia..|done|]. eexists; by split_and!.
    - unfold bufferSize in Hsrc. rewrite (Hov eq_refl). destruct (Hcopy (buffer b) from) as (d&->&?); [lia..|done|].
      eexists; by split_and!. }
  intros s f Hf Hs Hk. destruct (memcpy_at_spec (buffer b) to s f n) as (d&E&Hl&Hi&Ho); [lia..|].
  exists d. split; [done|]. split; simpl; [done|done|by unfold bufferSize; simpl; rewrite Hl| |by apply Ho].
  intros k Hkn. rewrite <-Hk by done. rewrite Hi by lia. do 2 f_equal. lia.
Qed.

(** Bytes that do not come from the buffer itself, put round its end. *)
Lemma fill_spec data b from_ n :
  0 < bufferSize b < 2 ^ 31 → 0 ≤ from_ → 0 < n ≤ bufferSize b → source_has data b n → data ≠ Own →
  let N := bufferSize b in
  let p := from_ `mod` N in
  ∃ b', (let '(s0, s1) := segments b from_ n in
         b2 ← write_segment memmoves data b s0; write_segment memmoves data b2 s1) = Some b' ∧
    begin_ b' = begin_ b ∧ size_ b' = size_ b ∧ bufferSize b' = N ∧ end_ b' = (p + n) `mod` N ∧
    (∀ k, 0 ≤ k < n → buffer b' !! Z.to_nat ((p + k) `mod` N) = source_byte data b k) ∧
    (∀ j, 0 ≤ j < N → p + n ≤ j ∨ (j < p ∧ p + n - N ≤ j) → buffer b' !! Z.to_nat j = buffer b !! Z.to_nat j).
Proof.
  intros HN Hf Hn Hsrc Hown N p. pose proof (Z.mod_pos_bound from_ N ltac:(lia)) as Hp. fold p in Hp.
  assert (∀ b2 k, source_byte data b2 k = source_byte data b k) as Hbyte by (by destruct data).
  rewrite segments_spec by lia. fold N p. cbv zeta. case_decide as Hw.
  - destruct (write_segment_spec data b p 0 n) as (b1&->&[H1 H2 H3 H4 H5]&E1); [lia..|done|done|].
    simpl. unfold write_segment. simpl. rewrite (proj2 (Z.eqb_neq _ _)) in E1 by lia.
    exists b1. split_and!; [done..| |].
    + intros k Hk. rewrite Z.mod_small by lia. by apply H4.
    + intros j Hj ?. apply H5; lia.
  - assert (source_has data b (0 + (N - p))) as Hs0 by (destruct data; simpl in *; try done; unfold N in *; lia).
    destruct (write_segment_spec data b p 0 (N - p)) as (b1&->&[H1 H2 H3 H4 H5]&E1); [lia..|done|done|].
    assert (source_has data b1 (N - p + (p + n - N))) as Hs1 by (destruct data; simpl in *; try done; lia).
    simpl. destruct (write_segment_spec data b1 0 (N - p) (p + n - N)) as (b2&->&[K1 K2 K3 K4 K5]&E2); [lia..|done|done|].
    rewrite (proj2 (Z.eqb_neq _ _)) in E2 by lia. fold N in H3.
    exists b2. split_and!; [done|congruence|congruence|congruence|..].
    + rewrite E2, H3. rewrite (turn N (p + n)), decide_False by lia. apply Z.mod_small. lia.
    + intros k Hk. rewrite (turn N (p + k)) by lia. case_decide as Hk'.
      * rewrite K5 by lia. by apply H4; lia.
      * replace (p + k - N) with (0 + (p + k - N)) by lia. rewrite K4, Hbyte by lia.
        f_equal. lia.
    + intros j Hj ?. rewrite K5 by lia. apply H5; lia.
Qed.

(** *** Growing *)

(** The storage enlarged by [d] bytes. *)
Definition resized (b : CircularBuffer) (d : Z) : CircularBuffer :=
  set_cb_buffer (buffer b ++ replicate (Z.to_nat d) Byte.x00) b.

Lemma resized_size b d : 0 ≤ d → bufferSize (resized b d) = bufferSize b + d.
Proof. intros. unfold bufferSize. simpl. rewrite length_app, length_replicate. lia. Qed.

Lemma resized_byte b d j : 0 ≤ j < bufferSize b → buffer (resized b d) !! Z.to_nat j = buffer b !! Z.to_nat j.
Proof. intros. unfold bufferSize in *. simpl. rewrite lookup_app_l by lia. done. Qed.

(** A buffer that wraps, or is empty away from its start: [end_] is not behind [begin_]. *)
Lemma wrapped_cases b :
  cb_wf b → 0 < end_ b ≤ begin_ b →
  begin_ b < bufferSize b ∧
  ((size_ b = 0 ∧ end_ b = begin_ b) ∨ (0 < size_ b ∧ size_ b = bufferSize b - begin_ b + end_ b)).
Proof.
  intros [Hs Hz [Hb0 Hb] He] Hend. assert (begin_ b < bufferSize b) as Hb' by lia. split; [done|].
  rewrite turn in He by lia. case_decide; [left|right]; lia.
Qed.

(** Whether the move inside [grow] copies between overlapping regions. *)
Definition move_overlaps (b : CircularBuffer) (d : Z) : bool := (size_ b =? 0) || (2 * d <? end_ b).

(** The storage enlarged and the bytes of the buffer where they are now. *)
Definition moved (b b' : CircularBuffer) (d : Z) : Prop :=
  begin_ b' = begin_ b ∧ size_ b' = size_ b ∧ bufferSize b' = bufferSize b + d ∧
  ∀ i, 0 ≤ i < size_ b → ring b' (begin_ b) i = ring b (begin_ b) i.

(** The buffer before the move: its storage enlarged, its [end_] at the old end of the storage. *)
Definition enlarged (b : CircularBuffer) (d : Z) : CircularBuffer :=
  set_size (size_ b) (set_end (bufferSize b) (resized b d)).

Section move.
Context (b : CircularBuffer) (d : Z).
Hypothesis (wf : cb_wf b) (wrapped : 0 < end_ b ≤ begin_ b) (more : 0 < d) (bound : bufferSize b + d < 2 ^ 31).
Local Abbreviation N := (bufferSize b).
Local Abbreviation e := (end_ b).
Local Abbreviation b3 := (enlarged b d).

Lemma enlarged_size : bufferSize b3 = N + d.
Proof using more. apply (resized_size b d). lia. Qed.

(** An empty buffer: the bytes are copied onto themselves. *)
Lemma move_empty :
  size_ b = 0 → begin_ b < N →
  if memmoves then ∃ b', write_segment memmoves Own b3 (mkSegment 0 0 e) = Some b' ∧ moved b b' d
  else write_segment memmoves Own b3 (mkSegment 0 0 e) = None.
Proof using wrapped more bound.
  intros Hz Hb. pose proof enlarged_size as Hb3. destruct memmoves eqn:Hm.
  - destruct (write_segment_spec Own b3 0 0 e) as (b4&E4&[K1 K2 K3 K4 K5]&_);
      [rewrite ?Hb3; simpl; rewrite ?Hb3; lia..|by rewrite Hm, andb_false_r|].
    rewrite Hm in E4. rewrite E4. exists b4. split; [done|].
    split_and!; [by rewrite K1|by rewrite K2|by rewrite K3|]. intros. lia.
  - unfold write_segment. cbn [seg_size seg_to seg_from]. rewrite (proj2 (Z.eqb_neq e 0)) by lia.
    unfold overlap. rewrite (proj2 (Z.ltb_lt 0 (0 + e))) by lia. done.
Qed.

(** It fits behind the old end. *)
Lemma move_fits :
  size_ b = N - begin_ b + e → begin_ b < N → e ≤ d →
  ∃ b', write_segment memmoves Own b3 (mkSegment N 0 e) = Some b' ∧ moved b b' d.
Proof using wf wrapped more bound.
  intros Hsz Hb Hw. pose proof enlarged_size as Hb3. pose proof wf as [Hs Hz _ _].
  destruct (write_segment_spec Own b3 N 0 e) as (b4&E4&[K1 K2 K3 K4 K5]&_);
    [rewrite ?Hb3; simpl; rewrite ?Hb3; lia..|by unfold overlap; rewrite (proj2 (Z.ltb_ge _ _)) by lia|].
  rewrite E4. exists b4. split; [done|]. split_and!; [by rewrite K1|by rewrite K2|by rewrite K3|]. intros i Hi.
  unfold ring. rewrite K3, Hb3, (turn (N + d)), (turn N) by lia. rewrite decide_True by lia. case_decide.
  - rewrite K5 by lia. apply (resized_byte b d). lia.
  - replace (begin_ b + i) with (N + (begin_ b + i - N)) by lia. rewrite K4 by lia.
    rewrite Z.add_0_l. replace (N + (begin_ b + i - N) - N) with (begin_ b + i - N) by lia.
    apply (resized_byte b d). lia.
Qed.

(** What does not fit goes to the front. *)
Lemma move_turns :
  size_ b = N - begin_ b + e → begin_ b < N → d < e →
  let move := b4 ← write_segment memmoves Own b3 (mkSegment N 0 d); write_segment memmoves Own b4 (mkSegment 0 d (e - d)) in
  if (2 * d <? e) && negb memmoves then move = None else ∃ b', move = Some b' ∧ moved b b' d.
Proof using wf wrapped more bound.
  intros Hsz Hb Hw move. pose proof enlarged_size as Hb3. pose proof wf as [Hs Hz _ _]. unfold move.
  destruct (write_segment_spec Own b3 N 0 d) as (b4&E4&[K1 K2 K3 K4 K5]&_);
    [rewrite ?Hb3; simpl; rewrite ?Hb3; lia..|by unfold overlap; rewrite (proj2 (Z.ltb_ge _ _)) by lia|].
  rewrite E4. simpl. assert (overlap 0 d (e - d) = (2 * d <? e)) as Hov.
  { unfold overlap. rewrite (proj2 (Z.ltb_lt 0 _)) by lia. simpl.
    destruct (Z.ltb_spec (2 * d) e); [apply Z.ltb_lt|apply Z.ltb_ge]; lia. }
  destruct ((2 * d <? e) && negb memmoves) eqn:Eo.
  { unfold write_segment. simpl. by rewrite (proj2 (Z.eqb_neq _ _)), Hov, Eo by lia. }
  destruct (write_segment_spec Own b4 0 d (e - d)) as (b5&E5&[L1 L2 L3 L4 L5]&_);
    [rewrite ?K3, ?Hb3; simpl; rewrite ?K3, ?Hb3; lia..|by rewrite Hov|].
  rewrite E5. exists b5. split; [done|]. split_and!; [by rewrite L1, K1|by rewrite L2, K2|by rewrite L3, K3|].
  intros i Hi. unfold ring. rewrite L3, K3, Hb3, (turn (N + d)), (turn N) by lia.
  destruct (decide (begin_ b + i < N)).
  - rewrite decide_True, L5, K5 by lia. apply (resized_byte b d). lia.
  - rewrite <-(resized_byte b d (begin_ b + i - N)) by lia. case_decide.
    + rewrite L5 by lia. replace (begin_ b + i) with (N + (begin_ b + i - N)) by lia. rewrite K4 by lia.
      simpl. do 2 f_equal. lia.
    + replace (begin_ b + i - (N + d)) with (0 + (begin_ b + i - (N + d))) by lia. rewrite L4 by lia.
      simpl. rewrite K5 by lia. simpl. do 2 f_equal. lia.
Qed.

(** The second half of a write of [end_] bytes of the buffer itself. *)
Lemma own_write :
  begin_ b < N → (size_ b = 0 ∧ e = begin_ b ∨ 0 < size_ b ∧ size_ b = N - begin_ b + e) →
  let to := if size_ b =? 0 then 0 else N in
  write_ memmoves 1 Own e (set_size (size_t (size_ b - e)) (set_end N (resized b d))) =
  (let '(s0, s1) := segments b3 to e in
   b4 ← write_segment memmoves Own b3 s0; write_segment memmoves Own b4 s1).
Proof using wf wrapped more bound.
  intros Hb Hcase to. pose proof wf as [Hs Hz _ _]. set (b2 := set_size _ _).
  assert (bufferSize b2 = N + d) as Hb2 by (apply resized_size; lia).
  assert (size_ b2 = size_t (size_ b - e)) as Hs2 by done.
  assert (grow_with (write_ memmoves 0) e b2 = Some b3) as Hg.
  { unfold grow_with. rewrite (proj2 (Z.eqb_neq _ _)) by lia.
    assert (e < available b2) as Hav.
    { unfold available. rewrite Hb2, Hs2. destruct Hcase as [[-> ?]|[? ->]]; wrap_lia. }
    rewrite (proj2 (Z.leb_gt _ _)) by done. simpl. change b3 with (set_size (size_ b) b2). do 2 f_equal.
    rewrite wrap_wrap_add. replace (size_ b - e + e) with (size_ b) by lia.
    apply wrap_small. unfold in_u. lia. }
  change (write_ memmoves 1 Own e b2) with (write_with memmoves (grow_with (write_ memmoves 0)) Own e b2).
  unfold write_with. rewrite Hg. cbn [mbind option_bind]. rewrite enlarged_size, Hb2, Z.eqb_refl, Hs2. cbn [mbind option_bind].
  replace (size_t (begin_ b3 + size_t (size_ b - e))) with to; [done|]. unfold to. change (begin_ b3) with (begin_ b).
  destruct Hcase as [[-> <-]|[? ->]]; [simpl; wrap_lia|]. rewrite (proj2 (Z.eqb_neq _ _)) by lia. wrap_lia.
Qed.

(** The move of the bytes at the front of the storage behind its old end. *)
Lemma move_spec :
  let b2 := set_size (size_t (size_ b - e)) (set_end N (resized b d)) in
  if move_overlaps b d && negb memmoves then write_ memmoves 1 Own e b2 = None
  else ∃ b', write_ memmoves 1 Own e b2 = Some b' ∧ moved b b' d.
Proof using wf wrapped more bound.
  intros b2. destruct (wrapped_cases b wf wrapped) as [Hb Hcase]. unfold b2. rewrite own_write by done. clear b2.
  pose proof enlarged_size as Hb3. pose proof wf as [Hs Hz _ _]. unfold move_overlaps.
  assert (∀ x, write_segment memmoves Own x (mkSegment 0 e 0) = Some x) as Hnone by done.
  destruct Hcase as [[Hz0 Heb]|[Hz0 Hsz]].
  - rewrite Hz0, Z.eqb_refl. rewrite segments_spec by (rewrite ?Hb3; lia). rewrite Hb3, Z.mod_0_l by lia.
    rewrite decide_True by lia. simpl. pose proof (move_empty Hz0 Hb) as Hm. destruct memmoves; simpl.
    + destruct Hm as (b'&->&?). by exists b'.
    + by rewrite Hm.
  - rewrite (proj2 (Z.eqb_neq _ _)) by lia. rewrite segments_spec by (rewrite ?Hb3; lia).
    rewrite Hb3, (Z.mod_small N) by lia. cbn [orb]. case_decide as Hw.
    + rewrite (proj2 (Z.ltb_ge _ _)) by lia. simpl. destruct (move_fits Hsz Hb ltac:(lia)) as (b'&->&?). by exists b'.
    + replace (N + d - N) with d by lia. replace (N + e - (N + d)) with (e - d) by lia.
      apply (move_turns Hsz Hb). lia.
Qed.
End move.

(** The buffer enlarged, if need be, to take [n] more bytes. *)
Record grown (b b' : CircularBuffer) (n : Z) : Prop := {
  gr_begin : begin_ b' = begin_ b ∧ begin_ b < bufferSize b';
  gr_size : size_ b' = size_ b + n;
  gr_room : size_ b + n ≤ bufferSize b' < 2 ^ 31;
  gr_bytes : ∀ i, 0 ≤ i < size_ b → ring b' (begin_ b) i = ring b (begin_ b) i;
}.

(** A write of [n] bytes moves bytes between overlapping regions. *)
Definition needs_memmove (b : CircularBuffer) (n : Z) : bool :=
  negb (n =? 0) && (available b <=? n) && (0 <? end_ b) && (end_ b <=? begin_ b) && move_overlaps b n.

Lemma available_eq b : cb_wf b → available b = bufferSize b - size_ b.
Proof. intros [Hs Hz _ _]. unfold available. apply wrap_small. unfold in_u. lia. Qed.

(** Storage enlarged behind bytes that lie in one piece, or round a gap that has closed. *)
Lemma resized_ring b d i :
  cb_wf b → 0 ≤ d → 0 ≤ i < size_ b → begin_ b + i < bufferSize b →
  ring (resized b d) (begin_ b) i = ring b (begin_ b) i.
Proof.
  intros [Hs Hz Hb _] Hd Hi Hin. unfold ring. rewrite resized_size by done. rewrite !Z.mod_small by lia.
  apply resized_byte. lia.
Qed.

Lemma grow_spec n b :
  cb_wf b → 0 < n → size_ b + 2 * n < 2 ^ 31 →
  if needs_memmove b n && negb memmoves then cb_grow memmoves n b = None
  else ∃ b', cb_grow memmoves n b = Some b' ∧ grown b b' n.
Proof.
  intros Hwf Hn HN. pose proof (available_eq b Hwf) as Hav. pose proof Hwf as [Hs Hz [Hb0 Hb] He].
  unfold cb_grow, grow_with, needs_memmove. rewrite (proj2 (Z.eqb_neq n 0)) by lia. cbn [negb andb].
  destruct (Z.leb_spec (available b) n) as [Hg|Hg]; simpl; cycle 1.
  { eexists. split; [done|]. rewrite wrap_small by (unfold in_u; lia).
    set (b' := set_size _ _). assert (bufferSize b' = bufferSize b) by done.
    split; simpl; [lia|lia|lia|done]. }
  fold (resized b n). pose proof (resized_size b n ltac:(lia)) as HN'. pose proof He as He'.
  destruct (Z.leb_spec (end_ b) (begin_ b)) as [Hw|Hw]; cycle 1.
  - rewrite andb_false_r. simpl. eexists. split; [done|]. rewrite wrap_small by (unfold in_u; lia).
    set (b' := set_size _ _). assert (bufferSize b' = bufferSize b + n) by done.
    split; simpl; [lia|lia|lia|]. intros i Hi. apply resized_ring; [done|lia|done|].
    rewrite turn in He' by lia. case_decide; lia.
  - destruct (Z.ltb_spec 0 (end_ b)) as [Hp|Hp]; simpl.
    + pose proof (move_spec b n Hwf ltac:(lia) Hn ltac:(lia)) as Hm. cbv zeta in Hm.
      destruct (move_overlaps b n && negb memmoves); [by rewrite Hm|].
      destruct Hm as (b'&->&E1&E2&E3&E4). simpl. eexists. split; [done|]. rewrite E2, wrap_small by (unfold in_u; lia).
      set (b2 := set_size _ _). assert (bufferSize b2 = bufferSize b + n) by done.
      split; simpl; [lia|lia|lia|exact E4].
    + eexists. split; [done|]. rewrite wrap_small by (unfold in_u; lia).
      set (b' := set_size _ _). assert (bufferSize b' = bufferSize b + n) by done.
      split; simpl; [lia|lia|lia|]. intros i Hi. apply resized_ring; [done|lia|done|].
      rewrite turn in He' by lia. case_decide; lia.
Qed.

(** *** The operations are those of a queue *)

Lemma segments_0 b from_ :
  0 ≤ bufferSize b < 2 ^ 31 → segments b from_ 0 = (mkSegment (seg_to (segments b from_ 0).1) 0 0, mkSegment 0 0 0).
Proof.
  intros HN. unfold segments. destruct (Z.eqb_spec (bufferSize b) 0) as [?|Hn]; [done|].
  pose proof (Z.mod_pos_bound from_ (bufferSize b) ltac:(lia)) as Hp. set (p := from_ `mod` bufferSize b) in *.
  cbv zeta. rewrite Z.add_0_r, (wrap_small 64 p) by (unfold in_u; lia).
  rewrite (proj2 (Z.ltb_ge _ _)) by lia. simpl. by rewrite Z.sub_diag.
Qed.

Lemma cb_write_spec data n b :
  cb_wf b → 0 ≤ n → size_ b + 2 * n < 2 ^ 31 → data ≠ Own → source_has data b n →
  if needs_memmove b n && negb memmoves then cb_write memmoves data n b = None
  else ∃ b', cb_write memmoves data n b = Some b' ∧ cb_wf b' ∧ size_ b' = size_ b + n ∧
    (∀ i, 0 ≤ i < size_ b → ring b' (begin_ b') i = ring b (begin_ b) i) ∧
    (∀ k, 0 ≤ k < n → ring b' (begin_ b') (size_ b + k) = source_byte data b k).
Proof.
  intros Hwf Hn HN Hown Hsrc. pose proof Hwf as [Hs Hz [Hb0 Hb] He].
  change (cb_write memmoves) with (write_with memmoves (cb_grow memmoves)). unfold write_with.
  destruct (decide (n = 0)) as [->|Hn0].
  { unfold needs_memmove, cb_grow, grow_with. simpl. exists b. rewrite segments_0 by lia.
    split; [by destruct data|]. split_and!; lia || done. }
  pose proof (grow_spec n b Hwf ltac:(lia) HN) as Hg. destruct (_ && _); [by rewrite Hg|].
  destruct Hg as (b1&->&[[Hb1 Hlt] Hs1 [Hr1 Hr2] Hbytes]). cbn [mbind option_bind].
  destruct (fill_spec data b1 (size_t (begin_ b1 + size_ b)) n) as (b2&E2&F1&F2&F3&F4&F5&F6);
    [lia|apply wrap_range; lia|lia|by destruct data|done|].
  exists b2. split; [by destruct data|]. set (N := bufferSize b1) in *.
  rewrite Hb1, (wrap_small 64) in F4, F5, F6 by (unfold in_u; lia).
  assert (cb_wf b2) as Hwf2.
  { split; rewrite ?F3, ?F1, ?F2, ?Hs1, ?Hb1; [lia..|]. rewrite F4, Zplus_mod_idemp_l. f_equal. lia. }
  split_and!; [done|lia| |].
  - intros i Hi. rewrite <-(Hbytes i Hi). unfold ring. rewrite F3, F1, Hb1. fold N. apply F6.
    + apply Z.mod_pos_bound. lia.
    + rewrite (turn N (begin_ b + i)), (turn N (begin_ b + size_ b)) by lia. repeat case_decide; lia.
  - intros k Hk. unfold ring. rewrite F3, F1, Hb1.
    replace (source_byte data b k) with (source_byte data b1 k) by (by destruct data).
    by rewrite <-(F5 k Hk), Zplus_mod_idemp_l, Z.add_assoc by lia.
Qed.
End proofs.

(** *** Reading *)

Lemma cb_peek_bytes n b d :
  cb_wf b → 0 ≤ n ≤ size_ b → Z.of_nat (length d) = n →
  (∀ i, 0 ≤ i < n → d !! Z.to_nat i = ring b (begin_ b) i) → d = take (Z.to_nat n) (cb_contents b).
Proof.
  intros Hwf Hn Hl Hd. apply list_eq. intros k. rewrite lookup_take. case_decide as Hk.
  - rewrite <-(Nat2Z.id k), Hd, cb_contents_lookup by (done || lia). done.
  - apply lookup_ge_None_2. lia.
Qed.

Lemma cb_peek_spec n b : cb_wf b → 0 ≤ n ≤ size_ b → cb_peek n b = Some (take (Z.to_nat n) (cb_contents b)).
Proof.
  intros Hwf Hn. pose proof Hwf as [Hs Hz [Hb0 Hb] He]. unfold cb_peek.
  destruct (Z.eqb_spec n 0) as [->|Hn0]; [done|].
  rewrite segments_spec by lia. cbv zeta. rewrite (Z.mod_small (begin_ b)) by lia.
  assert (length (replicate (Z.to_nat n) Byte.x00) = Z.to_nat n) as Hl by apply length_replicate.
  set (d0 := replicate _ _) in *. case_decide as Hw; cbn [seg_size seg_to seg_from].
  - destruct (memcpy_at_spec d0 0 (buffer b) (begin_ b) n) as (d&E&Hl'&Hi&_); [unfold bufferSize in *; lia..|].
    rewrite (proj2 (Z.eqb_neq n 0)), E by lia. simpl. f_equal. apply cb_peek_bytes; [done..|lia|].
    intros i Hi'. rewrite Hi by lia. unfold ring. rewrite Z.mod_small by lia. do 2 f_equal. lia.
  - set (N := bufferSize b) in *. set (k := N - begin_ b) in *.
    destruct (memcpy_at_spec d0 0 (buffer b) (begin_ b) k) as (d&E&Hl'&Hi&Ho); [unfold k, N, bufferSize in *; lia..|].
    rewrite (proj2 (Z.eqb_neq k 0)), E by lia. cbn [mbind option_bind].
    destruct (memcpy_at_spec d k (buffer b) 0 (begin_ b + n - N)) as (d2&E2&Hl2&Hi2&Ho2);
      [unfold k, N, bufferSize in *; lia..|].
    rewrite (proj2 (Z.eqb_neq (begin_ b + n - N) 0)), E2 by lia. f_equal. apply cb_peek_bytes; [done..|lia|].
    intros i Hi'. unfold ring. fold N. rewrite turn by lia. case_decide.
    + rewrite Ho2, Hi by lia. do 2 f_equal. lia.
    + rewrite Hi2 by lia. do 2 f_equal. lia.
Qed.

Lemma cb_skip_spec n b :
  cb_wf b → 0 ≤ n ≤ size_ b →
  ∃ b', cb_skip n b = Some b' ∧ cb_wf b' ∧
    cb_contents b' = drop (Z.to_nat n) (cb_contents b).
Proof.
  intros Hwf Hn. pose proof Hwf as [Hs Hz [Hb0 Hb] He]. unfold cb_skip.
  destruct (Z.eqb_spec n 0) as [->|Hn0]; [by exists b|]. rewrite (proj2 (Z.eqb_neq _ _)) by lia.
  rewrite !(wrap_small 64) by (unfold in_u; lia). eexists. split; [done|].
  set (N := bufferSize b) in *. set (b' := mkCircularBuffer _ _ _ _).
  assert (bufferSize b' = N) as HN by done. pose proof (Z.mod_pos_bound (begin_ b + n) N ltac:(lia)) as Hp.
  assert (cb_wf b') as Hwf'.
  { split; rewrite ?HN; simpl; [lia|lia|lia|]. rewrite He, Zplus_mod_idemp_l. f_equal. lia. }
  split_and!; [done|]. pose proof (cb_contents_length b Hwf). apply cb_contents_eq; [done| |].
  - rewrite length_drop. simpl. lia.
  - simpl. intros i Hi. rewrite lookup_drop. replace (Z.to_nat n + Z.to_nat i)%nat with (Z.to_nat (n + i)) by lia.
    rewrite cb_contents_lookup by (done || lia). unfold ring. rewrite HN. fold N.
    rewrite Zplus_mod_idemp_l. simpl. do 3 f_equal. lia.
Qed.

Lemma cb_read_spec n b :
  cb_wf b → 0 ≤ n ≤ size_ b →
  ∃ b', cb_read n b = Some (take (Z.to_nat n) (cb_contents b), b') ∧ cb_wf b' ∧
    cb_contents b' = drop (Z.to_nat n) (cb_contents b).
Proof.
  intros Hwf Hn. unfold cb_read. destruct (Z.eqb_spec n 0) as [->|Hn0]; [by exists b|].
  rewrite cb_peek_spec by done. destruct (cb_skip_spec n b Hwf Hn) as (b'&->&?). simpl. by exists b'.
Qed.

Lemma cb_write_contents memmoves bs b :
  cb_wf b → size_ b + 2 * Z.of_nat (length bs) < 2 ^ 31 →
  if needs_memmove b (Z.of_nat (length bs)) && negb memmoves
  then cb_write memmoves (External bs) (Z.of_nat (length bs)) b = None
  else ∃ b', cb_write memmoves (External bs) (Z.of_nat (length bs)) b = Some b' ∧ cb_wf b' ∧
    cb_contents b' = cb_contents b ++ bs.
Proof.
  intros Hwf HN.
  pose proof (cb_write_spec memmoves (External bs) (Z.of_nat (length bs)) b Hwf ltac:(lia) HN ltac:(done) ltac:(simpl; lia)) as Hw.
  destruct (_ && _); [done|]. destruct Hw as (b'&?&Hwf'&Hsz&H1&H2). exists b'. split_and!; [done..|].
  pose proof (cb_contents_length b Hwf) as Hl. apply cb_contents_eq; [done|rewrite length_app; lia|].
  intros i Hi. destruct (decide (i < size_ b)).
  - rewrite lookup_app_l, H1, cb_contents_lookup by (done || lia). done.
  - rewrite lookup_app_r by lia. replace i with (size_ b + (i - size_ b)) at 1 by lia. rewrite H2 by lia.
    simpl. f_equal. lia.
Qed.

(** *** Histories *)

Inductive cb_op := OpWrite (bs : bytes) | OpRead (n : Z) | OpPeek (n : Z) | OpSkip (n : Z) | OpClear.

(** What an operation does to the buffer, and to the queue of bytes it stands for: a queue that
    hands out what is there, and takes bytes as long as the storage can grow by them below 2^31. *)
Definition cb_step (memmoves : bool) (o : cb_op) (b : CircularBuffer) : option (bytes * CircularBuffer) :=
  match o with
  | OpWrite bs => b' ← cb_write memmoves (External bs) (Z.of_nat (length bs)) b; Some ([], b')
  | OpRead n => cb_read n b
  | OpPeek n => d ← cb_peek n b; Some (d, b)
  | OpSkip n => b' ← cb_skip n b; Some ([], b')
  | OpClear => Some ([], cb_clear b)
  end.

Definition queue_step (o : cb_op) (q : bytes) : option (bytes * bytes) :=
  let len := Z.of_nat (length q) in
  let taken n f := if decide (0 ≤ n ≤ len) then Some (f (Z.to_nat n)) else None in
  match o with
  | OpWrite bs => if decide (len + 2 * Z.of_nat (length bs) < 2 ^ 31) then Some ([], q ++ bs) else None
  | OpRead n => taken n (λ n, (take n q, drop n q))
  | OpPeek n => taken n (λ n, (take n q, q))
  | OpSkip n => taken n (λ n, ([], drop n q))
  | OpClear => Some ([], [])
  end.

(** The outputs of a sequence of operations and the state after it. *)
Fixpoint history {S} (step : cb_op → S → option (bytes * S)) (os : list cb_op) (s : S) : option (list bytes * S) :=
  match os with
  | [] => Some ([], s)
  | o :: os =>
    '(d, s') ← step o s;
    '(ds, s'') ← history step os s';
    Some (d :: ds, s'')
  end.

Lemma cb_clear_wf b : cb_wf b → cb_wf (cb_clear b) ∧ cb_contents (cb_clear b) = [].
Proof. intros [Hs Hz _ _]. split; [|done]. split; unfold bufferSize in *; simpl; [lia|lia|lia|by rewrite Zmod_0_l]. Qed.

(** One operation: as the queue does, unless overlapping regions are copied on a platform that
    does not cater for them. *)
Lemma cb_step_refines memmoves o b d q :
  cb_wf b → queue_step o (cb_contents b) = Some (d, q) →
  (∃ b', cb_step memmoves o b = Some (d, b') ∧ cb_wf b' ∧ cb_contents b' = q) ∨
  (memmoves = false ∧ cb_step memmoves o b = None).
Proof.
  intros Hwf Hq. pose proof (cb_contents_length b Hwf) as Hl.
  destruct o as [bs|n|n|n|]; simpl in Hq; try (case_decide; [|done]); injection Hq as <- <-.
  - pose proof (cb_write_contents memmoves bs b Hwf ltac:(lia)) as Hw. simpl.
    destruct (needs_memmove _ _ && _) eqn:E.
    + right. rewrite Hw. apply andb_true_iff in E as [_ E]. by destruct memmoves.
    + left. destruct Hw as (b'&->&?&?). by exists b'.
  - left. destruct (cb_read_spec n b Hwf ltac:(lia)) as (b'&?&?&?). by exists b'.
  - left. exists b. simpl. by rewrite cb_peek_spec by (done || lia).
  - left. destruct (cb_skip_spec n b Hwf ltac:(lia)) as (b'&E&?&?). exists b'. simpl. by rewrite E.
  - left. destruct (cb_clear_wf b Hwf). by exists (cb_clear b).
Qed.

Lemma cb_history_refines memmoves os b ds q :
  cb_wf b → history queue_step os (cb_contents b) = Some (ds, q) →
  (∃ b', history (cb_step memmoves) os b = Some (ds, b') ∧ cb_wf b' ∧ cb_contents b' = q) ∨
  (memmoves = false ∧ history (cb_step memmoves) os b = None).
Proof.
  revert b ds q. induction os as [|o os IH]; intros b ds q Hwf Hq; simpl in Hq.
  { injection Hq as <- <-. left. by exists b. }
  destruct (queue_step o (cb_contents b)) as [[d q1]|] eqn:E1; [|done].
  simpl in Hq. destruct (cb_step_refines memmoves o b d q1 Hwf E1) as [(b1&Es&Hwf1&Hc1)|[-> Es]];
    simpl; rewrite Es; simpl; [|by right].
  destruct (history queue_step os q1) as [[ds1 q2]|] eqn:E2; [|done]. injection Hq as <- <-. rewrite <-Hc1 in E2.
  destruct (IH b1 ds1 q2 Hwf1 E2) as [(b2&->&?&?)|[-> ->]]; [left|by right]. by exists b2.
Qed.

(** ** Claims *)

(** C18: the circular buffer is a queue of bytes. For every sequence of writes, reads, peeks,
    skips and clears that takes no more bytes than are there and never needs 2^31 bytes of storage:
    on a platform whose [memcpy] caters for overlapping regions, every operation is defined and all
    outputs are those of a queue of bytes, however often the storage wraps and grows; on any other
    platform a history that stays defined has the same outputs. *)
Theorem circular_buffer_refines_queue (os : list cb_op) ds q :
  history queue_step os [] = Some (ds, q) →
  (∃ b, history (cb_step true) os CircularBuffer_init = Some (ds, b) ∧ cb_contents b = q) ∧
  (∀ ds' b, history (cb_step false) os CircularBuffer_init = Some (ds', b) → ds' = ds ∧ cb_contents b = q).
Proof.
  intros Hq. pose proof (λ m, cb_history_refines m os CircularBuffer_init ds q CircularBuffer_init_wf Hq) as H. split.
  - destruct (H true) as [(b&?&_&?)|[? _]]; [by exists b|done].
  - intros ds' b E. destruct (H false) as [(b'&E'&_&?)|[_ E']]; rewrite E' in E; [|done].
    injection E as <- <-. done.
Qed.

Definition example_history : list cb_op :=
  [OpWrite (replicate 8 Byte.x01); OpRead 5; OpWrite (replicate 4 Byte.x02); OpWrite [Byte.x03]; OpPeek 4; OpRead 8].

Lemma circular_buffer_refines_queue_witness :
  (∃ b, history (cb_step true) example_history CircularBuffer_init =
      Some ([[]; replicate 5 Byte.x01; []; []; replicate 3 Byte.x01 ++ [Byte.x02];
             replicate 3 Byte.x01 ++ replicate 4 Byte.x02 ++ [Byte.x03]], b) ∧ cb_contents b = []) ∧
  (∀ ds' b, history (cb_step false) example_history CircularBuffer_init = Some (ds', b) →
     ds' = [[]; replicate 5 Byte.x01; []; []; replicate 3 Byte.x01 ++ [Byte.x02];
            replicate 3 Byte.x01 ++ replicate 4 Byte.x02 ++ [Byte.x03]] ∧ cb_contents b = []).
Proof. apply (circular_buffer_refines_queue example_history); reflexivity. Defined.

(** The same history on a platform without: the fourth write moves four bytes by one. *)
Lemma circular_buffer_overlaps :
  history (cb_step false) (take 3 example_history) CircularBuffer_init ≠ None ∧
  history (cb_step false) (take 4 example_history) CircularBuffer_init = None.
Proof. by vm_compute. Qed.
