(* ===== verification/Packet.v ===== *)
(** * Packets: [Packet.h], [Packet.inl], [Packet.cpp] and [sender/IDGenerator]

    The packet types, the fixed-capacity packet buffer with its push and pop operations, the
    frames packed inside a packet, and the wrap-around order on packet and frame ids.

    A packet type arrives from the network as one arbitrary byte which the source casts to the
    enumeration and compares, so [TypeID] and [FrameTypeID] are byte-valued constants. *)

From S2P Require Import Prelude MemCopy.

(** ** Packet and frame types *)
Definition NONE : Z := 0.
Definition H0 : Z := 65.
Definition H1 : Z := 66.
Definition H2 : Z := 67.
Definition H3 : Z := 68.
Definition HANDSHAKE_COMPLETE : Z := 69.
Definition ACK : Z := 75.
Definition DATA_RELIABLE : Z := 82.
Definition DATA_UNRELIABLE : Z := 85.
Definition PROBE : Z := 80.
Definition CLOSE_READ : Z := 73.
Definition AUTHENTICATE_CHALLENGE : Z := 77.
Definition AUTHENTICATE_RESPONSE : Z := 87.
Definition ENCRYPTED_VIA_PUBLIC_KEY : Z := 90.
Definition ENCRYPTED_VIA_AES : Z := 89.

Definition isHandshake (typeID : Z) : bool := (H0 <=? typeID) && (typeID <? HANDSHAKE_COMPLETE).

Definition isAck (typeID : Z) : bool :=
  (typeID =? ACK) || (typeID =? H1) || (typeID =? H3) || (typeID =? AUTHENTICATE_RESPONSE).

Definition ACK_FRAME : Z := 65.
Definition DATA : Z := 84.
Definition CLOSE_WRITE : Z := 87.
Definition DATA_COMPRESSED : Z := 90.

(** ** Sizes *)
Definition MAX_PACKET_SIZE : Z := 1500.
Definition MAX_ROUTE_SIZE : Z := 0.
Definition MAX_PACKET_POST_CRYPTO_SIZE : Z := MAX_PACKET_SIZE - MAX_ROUTE_SIZE.
Definition MAX_CRYPTO_SIZE : Z := 64.
Definition MAX_PACKET_POST_FRAME_SIZE : Z := MAX_PACKET_POST_CRYPTO_SIZE - MAX_CRYPTO_SIZE.
Definition sizeof_FrameHeader : Z := 5.
Definition MAX_FRAME_HEADER_SIZE : Z := sizeof_FrameHeader.
Definition MAX_PACKET_DATA_SIZE : Z := MAX_PACKET_POST_FRAME_SIZE - MAX_FRAME_HEADER_SIZE.

(** Linear goals about the size constants. *)
Ltac size_lia :=
  unfold MAX_PACKET_DATA_SIZE, MAX_FRAME_HEADER_SIZE, MAX_PACKET_POST_FRAME_SIZE,
    MAX_PACKET_POST_CRYPTO_SIZE, MAX_PACKET_SIZE, MAX_ROUTE_SIZE, MAX_CRYPTO_SIZE,
    sizeof_FrameHeader, in_u in *; lia.

(** ** Structures *)
Definition MRUDP_VERSION : Z := 1.

Record Header := mkHeader {
  h_version : Z;     (* u8 *)
  h_connection : Z;  (* u16, ShortConnectionID *)
  h_type : Z;        (* u8, TypeID *)
  h_id : Z;          (* u16, PacketID *)
}.

Record FrameHeader := mkFrameHeader {
  fh_id : Z;         (* u16, FrameID *)
  fh_type : Z;       (* u8, FrameTypeID *)
  fh_dataSize : Z;   (* u16 *)
}.

(** [p_data] is the whole fixed array; only its first [p_dataSize] bytes are meaningful. *)
Record Packet := mkPacket {
  p_header : Header;
  p_data : bytes;
  p_dataSize : Z;    (* u16 *)
}.

Record Ack := mkAck {
  ack_packetID : Z;  (* u16 *)
  ack_delayedMS : Z; (* u16 *)
}.

Inductive PacketDiscard := Keep | Discard.

#[export] Instance PacketDiscard_eq_dec : EqDecision PacketDiscard.
Proof. solve_decision. Defined.

(** The packed layouts of the structures that are copied to and from packets. *)
Definition encode_Header (h : Header) : bytes :=
  le_encode 1 (h_version h) ++ le_encode 2 (h_connection h) ++
  le_encode 1 (h_type h) ++ le_encode 2 (h_id h).
Definition encode_FrameHeader (h : FrameHeader) : bytes :=
  le_encode 2 (fh_id h) ++ le_encode 1 (fh_type h) ++ le_encode 2 (fh_dataSize h).
Definition decode_FrameHeader (bs : bytes) : FrameHeader :=
  mkFrameHeader (le_decode (slice 0 2 bs)) (le_decode (slice 2 1 bs)) (le_decode (slice 3 2 bs)).
Definition encode_Ack (a : Ack) : bytes :=
  le_encode 2 (ack_packetID a) ++ le_encode 2 (ack_delayedMS a).
Definition decode_Ack (bs : bytes) : Ack :=
  mkAck (le_decode (slice 0 2 bs)) (le_decode (slice 2 2 bs)).

(** [strong<Packet>()]: value-initialised, then the default member initialisers. *)
Definition new_Packet : Packet :=
  mkPacket (mkHeader MRUDP_VERSION 0 NONE 0) (replicate (Z.to_nat MAX_PACKET_SIZE) Byte.x00) 0.

Definition set_header (p : Packet) (h : Header) : Packet := mkPacket h (p_data p) (p_dataSize p).
Definition set_type (p : Packet) (t : Z) : Packet :=
  let h := p_header p in set_header p (mkHeader (h_version h) (h_connection h) t (h_id h)).
Definition set_id (p : Packet) (i : Z) : Packet :=
  let h := p_header p in set_header p (mkHeader (h_version h) (h_connection h) (h_type h) i).
Definition set_connection (p : Packet) (c : Z) : Packet :=
  let h := p_header p in set_header p (mkHeader (h_version h) c (h_type h) (h_id h)).

(** The meaningful bytes of a packet. *)
Definition payload (p : Packet) : bytes := take (Z.to_nat (p_dataSize p)) (p_data p).

(** The invariant of packet buffers: the array has its declared capacity and [dataSize] stays
    inside it. Every operation below keeps it, and the native receive establishes it. *)
Definition packet_wf (p : Packet) : Prop :=
  length (p_data p) = Z.to_nat MAX_PACKET_SIZE ∧ 0 ≤ p_dataSize p ≤ MAX_PACKET_SIZE.

Definition packet_eqb (lhs rhs : Packet) : bool :=
  (p_dataSize lhs =? p_dataSize rhs) &&
  bool_decide (encode_Header (p_header lhs) ++ payload lhs =
               encode_Header (p_header rhs) ++ payload rhs).

(** ** Push and pop *)

(** [mem_copy(packet.data + offset, data, size)] *)
Definition write_data (d : bytes) (offset : Z) (bs : bytes) : option bytes :=
  if decide (offset ≤ Z.of_nat (length d))
  then (λ t, take (Z.to_nat offset) d ++ t) <$> mem_copy (drop (Z.to_nat offset) d) bs (length bs)
  else None.

(** [bool pushData(Packet &, const u8 *, size_t)]; the guard subtracts in [size_t]. *)
Definition pushData (p : Packet) (data : bytes) : option (Packet * bool) :=
  let size := Z.of_nat (length data) in
  if size_t (MAX_PACKET_SIZE - size) <? p_dataSize p then Some (p, false)
  else
    d ← write_data (p_data p) (p_dataSize p) data;
    Some (mkPacket (p_header p) d (u16 (p_dataSize p + u16 size)), true).

(** [template<T> bool pushData(Packet &, const T &)]: the result of the push is dropped. *)
Definition pushData_T (p : Packet) (t : bytes) : option (Packet * bool) :=
  '(p', _) ← pushData p t; Some (p', true).

Definition pushSizedData (p : Packet) (data : bytes) : option (Packet * bool) :=
  '(p1, b1) ← pushData p data;
  if (b1 : bool) then pushData_T p1 (le_encode 2 (u16 (Z.of_nat (length data))))
  else Some (p1, false).

(** [bool popData(Packet &, u8 *, size_t)]: [None] data for the [false] result. *)
Definition popData (p : Packet) (size : Z) : Packet * option bytes :=
  if p_dataSize p <? size then (p, None)
  else
    let n := u16 (p_dataSize p - u16 size) in
    (mkPacket (p_header p) (p_data p) n, Some (slice (Z.to_nat n) (Z.to_nat size) (p_data p))).

Definition popSizedData (p : Packet) : Packet * option bytes :=
  match popData p 2 with
  | (p1, Some size) => popData p1 (le_decode size)
  | (p1, None) => (p1, None)
  end.

Definition peekData (p : Packet) (size : Z) : option bytes :=
  if p_dataSize p <? size then None
  else Some (slice (Z.to_nat (p_dataSize p - size)) (Z.to_nat size) (p_data p)).

(** [data] is the memory the pointer argument points to. *)
Definition pushFrame (p : Packet) (header : FrameHeader) (data : bytes) : option (Packet * bool) :=
  '(p1, b1) ← pushData_T p (encode_FrameHeader header);
  if (b1 : bool) then
    if decide (fh_dataSize header ≤ Z.of_nat (length data))
    then pushData p1 (take (Z.to_nat (fh_dataSize header)) data)
    else None
  else Some (p1, false).

(** Both halves are popped from the end of the packet. *)
Definition popFrame (p : Packet) : Packet * option (FrameHeader * bytes) :=
  match popData p sizeof_FrameHeader with
  | (p1, Some h) =>
    let header := decode_FrameHeader h in
    match popData p1 (fh_dataSize header) with
    | (p2, Some data) => (p2, Some (header, data))
    | (p2, None) => (p2, None)
    end
  | (p1, None) => (p1, None)
  end.

(** [pushSize<T>] for a structure of [sizeof_T] bytes, and for a byte vector. *)
Definition pushSize (sizeof_T : Z) : Z := sizeof_T.
Definition pushSize_Vector (data : bytes) : Z := Z.of_nat (length data) + 2.

(** ** Ids *)

(** [id_greater_than<uint16_t>]; the operands are promoted to [int] for the subtractions. *)
Definition id_greater_than (lhs rhs : Z) : bool :=
  let top_bit := u16 (Z.shiftl 1 (2 * 8 - 1)) in
  let lhs_gtr_rhs := rhs <? lhs in
  let diff := if lhs_gtr_rhs then lhs - rhs else rhs - lhs in
  if top_bit <? diff then negb lhs_gtr_rhs else lhs_gtr_rhs.

(** [IDGenerator<uint16_t>::nextID]: the id handed out and the generator after it. *)
Definition IDGenerator_init : Z := 0.
Definition nextID (nextID_ : Z) : Z * Z := (nextID_, u16 (nextID_ + 1)).

(** ** Laws of the packet buffer *)

Section packet_laws.
Implicit Types (p : Packet) (bs : bytes).

Lemma payload_length p : packet_wf p → length (payload p) = Z.to_nat (p_dataSize p).
Proof. intros [??]. unfold payload. rewrite length_take. lia. Qed.

Lemma new_Packet_wf : packet_wf new_Packet.
Proof. split; [apply length_replicate|]. unfold new_Packet, MAX_PACKET_SIZE. simpl. lia. Qed.

Lemma new_Packet_payload : payload new_Packet = [].
Proof. done. Qed.

Lemma set_header_wf p h : packet_wf p → packet_wf (set_header p h).
Proof. done. Qed.

(** Pushing and popping do not touch the header. *)
Lemma popData_header p n : p_header (popData p n).1 = p_header p.
Proof. unfold popData. by destruct (_ <? _). Qed.
Lemma popSizedData_header p : p_header (popSizedData p).1 = p_header p.
Proof.
  unfold popSizedData. pose proof (popData_header p 2) as Hh. destruct (popData p 2) as [p1 [d|]]; [|done].
  by rewrite popData_header.
Qed.
Lemma pushData_header p bs p' b : pushData p bs = Some (p', b) → p_header p' = p_header p.
Proof.
  unfold pushData. destruct (_ <? _); [by intros [= <- <-]|].
  destruct (write_data _ _ _); simpl; [|done]. by intros [= <- <-].
Qed.
Lemma pushData_T_header p bs p' b : pushData_T p bs = Some (p', b) → p_header p' = p_header p.
Proof.
  unfold pushData_T. destruct (pushData p bs) as [[p1 b1]|] eqn:E; simpl; [|done].
  intros [= <- <-]. by eapply pushData_header.
Qed.
Lemma pushSizedData_header p bs p' b : pushSizedData p bs = Some (p', b) → p_header p' = p_header p.
Proof.
  unfold pushSizedData. destruct (pushData p bs) as [[p1 b1]|] eqn:E; simpl; [|done].
  apply pushData_header in E as <-. destruct b1; [apply pushData_T_header|by intros [= <- <-]].
Qed.

(** The append a push performs, when the bytes fit. *)
Lemma pushData_fits p bs :
  packet_wf p → p_dataSize p + Z.of_nat (length bs) ≤ MAX_PACKET_SIZE →
  ∃ p', pushData p bs = Some (p', true) ∧ packet_wf p' ∧
    payload p' = payload p ++ bs ∧ p_header p' = p_header p ∧
    p_dataSize p' = p_dataSize p + Z.of_nat (length bs).
Proof.
  intros [Hl Hs] Hfit. unfold MAX_PACKET_SIZE in *. unfold pushData.
  rewrite (wrap_small 64) by (unfold in_u, MAX_PACKET_SIZE; lia).
  rewrite (proj2 (Z.ltb_ge _ _)) by (unfold MAX_PACKET_SIZE; lia).
  unfold write_data. rewrite decide_True by lia.
  rewrite mem_copy_eq, memcpy_inside by (rewrite ?length_drop; lia). simpl.
  rewrite (wrap_small 16 (Z.of_nat _)) by (unfold in_u; lia).
  rewrite wrap_small by (unfold in_u; lia).
  rewrite (take_ge bs), drop_drop by lia.
  eexists. split; [done|].
  assert (length (take (Z.to_nat (p_dataSize p)) (p_data p) ++ bs ++
    drop (Z.to_nat (p_dataSize p) + length bs) (p_data p)) = 1500%nat) as Hl'.
  { rewrite !length_app, length_take, length_drop. lia. }
  split_and!; [| |done|done].
  - split; [exact Hl'|]. simpl. unfold MAX_PACKET_SIZE. lia.
  - unfold payload at 1. simpl. rewrite app_assoc, take_app_length'; [done|].
    rewrite length_app, length_take. lia.
Qed.

Lemma pushData_full p bs :
  packet_wf p → Z.of_nat (length bs) ≤ MAX_PACKET_SIZE →
  MAX_PACKET_SIZE < p_dataSize p + Z.of_nat (length bs) → pushData p bs = Some (p, false).
Proof.
  intros [Hl Hs] Hb Hfull. unfold MAX_PACKET_SIZE in *. unfold pushData.
  rewrite (wrap_small 64) by (unfold in_u, MAX_PACKET_SIZE; lia).
  by rewrite (proj2 (Z.ltb_lt _ _)) by (unfold MAX_PACKET_SIZE; lia).
Qed.

Lemma pushData_T_fits p bs :
  packet_wf p → p_dataSize p + Z.of_nat (length bs) ≤ MAX_PACKET_SIZE →
  ∃ p', pushData_T p bs = Some (p', true) ∧ packet_wf p' ∧
    payload p' = payload p ++ bs ∧ p_header p' = p_header p ∧
    p_dataSize p' = p_dataSize p + Z.of_nat (length bs).
Proof.
  intros Hp Hf. destruct (pushData_fits p bs Hp Hf) as (p'&E&?). exists p'.
  unfold pushData_T. by rewrite E.
Qed.

(** Whatever is pushed, a push that is defined keeps the invariant. *)
Lemma pushData_wf p bs p' b : packet_wf p → pushData p bs = Some (p', b) → packet_wf p'.
Proof.
  intros Hp E. destruct (decide (p_dataSize p + Z.of_nat (length bs) ≤ MAX_PACKET_SIZE)) as [Hf|Hf].
  { destruct (pushData_fits p bs Hp Hf) as (q&Eq&?&_). congruence. }
  revert E. unfold pushData. destruct (_ <? _); [by intros [= <- <-]|]. destruct Hp as [Hl Hs].
  unfold write_data, MAX_PACKET_SIZE in *. rewrite decide_True by lia. rewrite mem_copy_eq. unfold memcpy.
  rewrite decide_False; [done|]. rewrite length_drop. lia.
Qed.
Lemma pushData_T_wf p bs p' b : packet_wf p → pushData_T p bs = Some (p', b) → packet_wf p'.
Proof.
  unfold pushData_T. destruct (pushData p bs) as [[p1 b1]|] eqn:E; simpl; [|done]. intros Hp [= <- <-].
  by eapply pushData_wf.
Qed.

(** Whatever is pushed, a push of at most the capacity is defined and keeps the invariant. *)
Lemma pushData_defined p bs :
  packet_wf p → Z.of_nat (length bs) ≤ MAX_PACKET_SIZE →
  ∃ p' b, pushData p bs = Some (p', b) ∧ packet_wf p' ∧ p_header p' = p_header p.
Proof.
  intros Hp Hb.
  destruct (decide (p_dataSize p + Z.of_nat (length bs) ≤ MAX_PACKET_SIZE)).
  - destruct (pushData_fits p bs) as (p'&?&?&?&?&?); [done..|]. eauto.
  - exists p, false. by rewrite pushData_full by (done || lia).
Qed.

Lemma popData_some p (n : Z) :
  packet_wf p → 0 ≤ n ≤ p_dataSize p →
  ∃ p', popData p n = (p', Some (drop (Z.to_nat (p_dataSize p - n)) (payload p))) ∧
    packet_wf p' ∧ payload p' = take (Z.to_nat (p_dataSize p - n)) (payload p) ∧
    p_header p' = p_header p ∧ p_dataSize p' = p_dataSize p - n.
Proof.
  intros [Hl Hs] Hn. unfold MAX_PACKET_SIZE in *. unfold popData.
  rewrite (proj2 (Z.ltb_ge _ _)) by lia.
  rewrite (wrap_small 16 n) by (unfold in_u; lia).
  rewrite wrap_small by (unfold in_u; lia).
  eexists. split; [|split_and!].
  - f_equal. f_equal. unfold slice, payload. rewrite skipn_firstn_comm. f_equal. lia.
  - split; [exact Hl|]. simpl. unfold MAX_PACKET_SIZE. lia.
  - unfold payload. simpl. rewrite take_take. f_equal. lia.
  - done.
  - done.
Qed.

(** Popping what is at the end of the payload. *)
Lemma popData_app p x y :
  packet_wf p → payload p = x ++ y →
  ∃ p', popData p (Z.of_nat (length y)) = (p', Some y) ∧ packet_wf p' ∧ payload p' = x ∧
    p_header p' = p_header p.
Proof.
  intros Hp E. pose proof (payload_length p Hp) as Hl. rewrite E, length_app in Hl.
  pose proof (proj2 Hp) as Hs.
  destruct (popData_some p (Z.of_nat (length y)) Hp) as (p'&Ep&Hp'&Hpay&Hh&_); [lia|].
  replace (Z.to_nat (p_dataSize p - Z.of_nat (length y))) with (length x) in * by lia.
  exists p'. rewrite Ep, Hpay, E, drop_app_length, take_app_length. done.
Qed.

Lemma popSizedData_app p x y :
  packet_wf p → payload p = x ++ y ++ le_encode 2 (Z.of_nat (length y)) →
  ∃ p', popSizedData p = (p', Some y) ∧ packet_wf p' ∧ payload p' = x ∧ p_header p' = p_header p.
Proof.
  rewrite app_assoc. intros Hp E. unfold popSizedData.
  destruct (popData_app p (x ++ y) _ Hp E) as (p1&E1&Hp1&Hpay1&Hh1). rewrite le_encode_length in E1.
  change (Z.of_nat 2) with 2 in E1. rewrite E1.
  pose proof (payload_length p Hp) as Hl. destruct Hp as [_ Hs]. unfold MAX_PACKET_SIZE in Hs.
  rewrite E, !length_app in Hl. rewrite le_decode_encode by (unfold in_u; simpl; lia).
  destruct (popData_app p1 x y Hp1 Hpay1) as (p2&E2&?&?&?). exists p2. rewrite E2. by split_and!; [| | |congruence].
Qed.

Lemma popData_none p n : p_dataSize p < n → popData p n = (p, None).
Proof. intros. unfold popData. by rewrite (proj2 (Z.ltb_lt _ _)). Qed.
End packet_laws.

#[export] Hint Resolve new_Packet_wf set_header_wf : mrudp.

(** ** Structure codecs *)

Lemma encode_FrameHeader_length h : length (encode_FrameHeader h) = 5%nat.
Proof. done. Qed.

Lemma encode_Ack_length a : length (encode_Ack a) = 4%nat.
Proof. done. Qed.

Definition FrameHeader_wf (h : FrameHeader) : Prop :=
  in_u 16 (fh_id h) ∧ in_u 8 (fh_type h) ∧ in_u 16 (fh_dataSize h).

Lemma decode_encode_FrameHeader h rest :
  FrameHeader_wf h → decode_FrameHeader (encode_FrameHeader h ++ rest) = h.
Proof.
  intros (?&?&?). destruct h as [i t n]; simpl in *. unfold decode_FrameHeader, encode_FrameHeader.
  f_equal; [apply (le_decode_encode 2)|apply (le_decode_encode 1)|apply (le_decode_encode 2)]; done.
Qed.

Lemma decode_encode_Ack a :
  in_u 16 (ack_packetID a) → in_u 16 (ack_delayedMS a) → decode_Ack (encode_Ack a) = a.
Proof.
  intros. destruct a as [i d]; simpl in *. unfold decode_Ack, encode_Ack.
  f_equal; apply (le_decode_encode 2); done.
Qed.

Lemma decode_FrameHeader_wf bs : (5 ≤ length bs)%nat → FrameHeader_wf (decode_FrameHeader bs).
Proof.
  intros. unfold FrameHeader_wf, decode_FrameHeader. simpl.
  assert (∀ o n w, (o + n ≤ 5)%nat → w = 8 * Z.of_nat n → in_u w (le_decode (slice o n bs))) as Hr.
  { intros o n w ? ->. rewrite <-(slice_length o n bs) at 1 by lia. apply le_decode_range. }
  split_and!; apply Hr; lia.
Qed.

Lemma encode_decode_FrameHeader bs :
  (5 ≤ length bs)%nat → encode_FrameHeader (decode_FrameHeader bs) = take 5 bs.
Proof.
  intros. unfold encode_FrameHeader, decode_FrameHeader. cbn [fh_id fh_type fh_dataSize].
  assert (∀ o n, (o + n ≤ 5)%nat → le_encode n (le_decode (slice o n bs)) = slice o n bs) as Hr.
  { intros o n ?. rewrite <-(slice_length o n bs) at 1 by lia. apply le_encode_decode. }
  rewrite !Hr by lia. rewrite app_assoc.
  change (slice 0 2 bs) with (take 2 bs). by rewrite !take_slice.
Qed.

(** ** Claims *)

(** A push is undone by a pop of the same size: as long as the bytes fit, [popData] after
    [pushData] returns exactly the pushed bytes and leaves the packet with its earlier payload,
    size and header. This is how the short and long connection ids, the handshake options and
    the path-challenge fields travel at the end of packets. *)
Theorem popData_pushData (p : Packet) (bs : bytes) :
  packet_wf p → p_dataSize p + Z.of_nat (length bs) ≤ MAX_PACKET_SIZE →
  ∃ p1 p2, pushData p bs = Some (p1, true) ∧
    popData p1 (Z.of_nat (length bs)) = (p2, Some bs) ∧
    payload p2 = payload p ∧ p_dataSize p2 = p_dataSize p ∧ p_header p2 = p_header p.
Proof.
  intros Hp Hfit. destruct (pushData_fits p bs Hp Hfit) as (p1&E1&Hp1&Hpay&Hh&Hs).
  destruct (popData_some p1 (Z.of_nat (length bs)) Hp1) as (p2&E2&_&Hpay2&Hh2&Hs2).
  { destruct Hp. lia. }
  exists p1, p2. pose proof (payload_length p Hp) as Hlen.
  replace (p_dataSize p1 - Z.of_nat (length bs)) with (p_dataSize p) in * by lia.
  rewrite Hpay, <-Hlen in *. rewrite drop_app_length in E2. rewrite take_app_length in Hpay2.
  split_and!; congruence.
Qed.

Lemma popData_pushData_witness :
  ∃ p1 p2, pushData new_Packet [Byte.x01; Byte.x02] = Some (p1, true) ∧
    popData p1 2 = (p2, Some [Byte.x01; Byte.x02]) ∧
    payload p2 = payload new_Packet ∧ p_dataSize p2 = p_dataSize new_Packet ∧
    p_header p2 = p_header new_Packet.
Proof.
  apply (popData_pushData new_Packet [Byte.x01; Byte.x02]); [apply new_Packet_wf|].
  unfold MAX_PACKET_SIZE. simpl. lia.
Defined.

(** The capacity guard of [pushData] does not protect against oversized pushes. It
    computes [MAX_PACKET_SIZE - size] in [size_t], which wraps around for every size above the
    capacity, so the comparison passes and the copy runs past the end of the packet's array. *)
Theorem pushData_oversize_escapes_guard (p : Packet) (bs : bytes) :
  packet_wf p → MAX_PACKET_SIZE < Z.of_nat (length bs) < 2 ^ 63 → pushData p bs = None.
Proof.
  intros [Hl Hs] Hb. unfold MAX_PACKET_SIZE in *. unfold pushData.
  assert (size_t (1500 - Z.of_nat (length bs)) = 2 ^ 64 + 1500 - Z.of_nat (length bs)) as Hw.
  { unfold wrap. symmetry. apply (Z.mod_unique _ _ (-1)); lia. }
  unfold MAX_PACKET_SIZE. rewrite Hw. rewrite (proj2 (Z.ltb_ge _ _)) by lia.
  unfold write_data. rewrite decide_True by lia.
  rewrite mem_copy_eq. unfold memcpy. rewrite decide_False; [done|].
  rewrite length_drop. lia.
Qed.

Lemma pushData_oversize_witness : pushData new_Packet (replicate 1501 Byte.x00) = None.
Proof.
  apply pushData_oversize_escapes_guard; [apply new_Packet_wf|].
  rewrite length_replicate. unfold MAX_PACKET_SIZE. lia.
Defined.

(** For ids [d] apart on the 2^16 circle, the later one compares greater exactly when [d] is in the
    next half circle; only the antipodal distance 2^15 is decided by the numeric values. *)
Lemma id_greater_than_serial (k d : Z) :
  0 ≤ d < 2 ^ 16 →
  id_greater_than (u16 (k + d)) (u16 k) = true ↔
  0 < d < 2 ^ 15 ∨ (d = 2 ^ 15 ∧ u16 k < 2 ^ 15).
Proof.
  intros Hd. unfold id_greater_than. change (u16 (Z.shiftl 1 (2 * 8 - 1))) with 32768.
  assert (u16 (k + d) = u16 k + d ∨ u16 (k + d) = u16 k + d - 65536) as Hkd by wrap_lia.
  pose proof (wrap_range 16 k ltac:(lia)) as Hk. pose proof (wrap_range 16 (k + d) ltac:(lia)) as Hkd'.
  unfold in_u in *. generalize dependent (u16 (k + d)). generalize dependent (u16 k).
  intros a Ha b Hb Hb'. repeat (case_match || rewrite negb_true_iff in * ||
    rewrite Z.ltb_lt in * || rewrite Z.ltb_ge in *); simpl; split; intros; lia.
Qed.

(** The wrap-around order is serial number arithmetic. On 16-bit ids [id_greater_than] is
    irreflexive, of two different ids exactly one is greater, and, for ids that are not half the
    circle apart, it is the sign of the signed 16-bit difference. *)
Lemma id_greater_than_signed (a b : Z) :
  in_u 16 a → in_u 16 b →
  id_greater_than a a = false ∧
  (a ≠ b → id_greater_than a b = negb (id_greater_than b a)) ∧
  (swrap 16 (a - b) ≠ - 2 ^ 15 → id_greater_than a b = (0 <? swrap 16 (a - b))).
Proof.
  unfold in_u. intros Ha Hb.
  assert (swrap 16 (a - b) = a - b ∨ swrap 16 (a - b) = a - b + 65536 ∨ swrap 16 (a - b) = a - b - 65536) as Hs.
  { unfold swrap. change (2 ^ (16 - 1)) with 32768. change (2 ^ 16) with 65536.
    pose proof (Z.mod_pos_bound (a - b + 32768) 65536). pose proof (Z_div_mod_eq_full (a - b + 32768) 65536).
    assert (-1 ≤ (a - b + 32768) `div` 65536 ≤ 1) by lia. lia. }
  assert (- 32768 ≤ swrap 16 (a - b) < 32768) as Hr.
  { unfold swrap. change (2 ^ (16 - 1)) with 32768. change (2 ^ 16) with 65536.
    pose proof (Z.mod_pos_bound (a - b + 32768) 65536). lia. }
  unfold id_greater_than. change (u16 (Z.shiftl 1 (2 * 8 - 1))) with 32768.
  generalize dependent (swrap 16 (a - b)). intros s Hs Hr.
  split_and!; intros; repeat (case_match || rewrite negb_true_iff in * || rewrite negb_false_iff in * ||
    rewrite Z.ltb_lt in * || rewrite Z.ltb_ge in *); simpl; destruct (Z.ltb_spec 0 s); try lia; try done.
Qed.

Lemma id_greater_than_signed_witness :
  id_greater_than 3 3 = false ∧
  (3 ≠ 65534 → id_greater_than 3 65534 = negb (id_greater_than 65534 3)) ∧
  (swrap 16 (3 - 65534) ≠ - 2 ^ 15 → id_greater_than 3 65534 = (0 <? swrap 16 (3 - 65534))).
Proof. apply id_greater_than_signed; split; reflexivity || discriminate. Defined.
