(* ===== verification/ReceiveQueue.v ===== *)
(** * Receive queues: [receiver/ReceiveQueue] and [receiver/UnreliableReceiveQueue]

    A packet of data is a row of frames. The reliable queue hands frames to its processor in
    the order of their ids, keeping those that arrive early; the unreliable queue hands over
    every frame of every packet.

    The processor is a callback into the connection. The operations run on a pair of the queue
    and the state [S] the processor works on, which never includes the queue itself. *)

From S2P Require Import Prelude MemCopy Packet.

(** [ReceiveQueue::Frame]: a header and the data it announces. *)
Record Frame := mkFrame { f_header : FrameHeader; f_data : bytes }.

Record ReceiveQueue := mkReceiveQueue {
  expectedID : Z;        (* u16 *)
  queue : gmap Z Frame;  (* OrderedMap<FrameID, Frame>, only searched by key *)
}.

Definition ReceiveQueue_init : ReceiveQueue := mkReceiveQueue 0 ∅.

(** The bytes a frame occupies in a packet. *)
Definition encode_Frame (f : Frame) : bytes := encode_FrameHeader (f_header f) ++ f_data f.

Section operations.
Context {S : Type} (processor : Frame → M S unit).

(** Run the processor on the part of the state it works on. *)
Definition process (f : Frame) : M (ReceiveQueue * S) unit := λ '(rq, s),
  match processor f s with Some (_, s') => Some (tt, (rq, s')) | None => None end.

(** [queue.emplace]: an id that is already queued keeps its frame. *)
Definition enqueue (frame : Frame) : M (ReceiveQueue * S) unit :=
  modify (λ '(rq, s),
    let id := fh_id (f_header frame) in
    match queue rq !! id with
    | Some _ => (rq, s)
    | None => (mkReceiveQueue (expectedID rq) (<[id := frame]> (queue rq)), s)
    end).

Definition processNext : M (ReceiveQueue * S) bool :=
  rq ← gets fst;
  match queue rq !! expectedID rq with
  | Some frame =>
    process frame;;
    modify (λ '(rq, s),
      (mkReceiveQueue (u16 (expectedID rq + 1)) (delete (expectedID rq) (queue rq)), s));;
    mret true
  | None => mret false
  end.

Fixpoint processQueue_loop (fuel : nat) : M (ReceiveQueue * S) unit :=
  match fuel with
  | O => ub
  | Datatypes.S fuel => more ← processNext; if (more : bool) then processQueue_loop fuel else mret tt
  end.

(** Every round removes a queued frame, so one more round than there are frames suffices. *)
Definition processQueue : M (ReceiveQueue * S) unit :=
  rq ← gets fst; processQueue_loop (Datatypes.S (size (queue rq))).

(** The body of the frame loop of [onReceive]. *)
Definition onReceive_frame (frame : Frame) : M (ReceiveQueue * S) unit :=
  rq ← gets fst;
  if fh_id (f_header frame) =? expectedID rq then
    process frame;;
    modify (λ '(rq, s), (mkReceiveQueue (u16 (expectedID rq + 1)) (queue rq), s));;
    processQueue
  else if id_greater_than (fh_id (f_header frame)) (expectedID rq) then enqueue frame
  else mret tt.

(** [rest] is the packet's memory from [frame] to [end]; a round consumes at least a header. A read
    that leaves it is undefined here, also where the array of the packet goes on. *)
Definition read_header (rest : bytes) : option FrameHeader :=
  if Z.of_nat (length rest) <? sizeof_FrameHeader then None else Some (decode_FrameHeader rest).
Definition read_data (size : Z) (rest : bytes) : option bytes :=
  if Z.of_nat (length rest) <? sizeof_FrameHeader + size then None else Some (slice 5 (Z.to_nat size) rest).

Fixpoint onReceive_loop (fuel : nat) (rest : bytes) : M (ReceiveQueue * S) unit :=
  match fuel with
  | O => ub
  | Datatypes.S fuel =>
    let remaining := Z.of_nat (length rest) in
    if remaining =? 0 then mret tt
    else if remaining <? sizeof_FrameHeader then mret tt
    else
      header ← lift (read_header rest);
      if remaining <? sizeof_FrameHeader + fh_dataSize header then mret tt
      else
        data ← lift (read_data (fh_dataSize header) rest);
        onReceive_frame (mkFrame header data);;
        onReceive_loop fuel (drop (5 + Z.to_nat (fh_dataSize header)) rest)
  end.

Definition onReceive (packet : Packet) : M (ReceiveQueue * S) unit :=
  onReceive_loop (Datatypes.S (length (payload packet))) (payload packet).

(** [UnreliableReceiveQueue::onReceive] has no bounds checks: [frame], an offset into the
    packet's array, is only compared with [end], so a header or its data may be read beyond
    [end], and, where [ub] stands, beyond the array. *)
Fixpoint unreliable_onReceive_loop (fuel : nat) (data : bytes) (frame end_ : Z) : M S unit :=
  match fuel with
  | O => ub
  | Datatypes.S fuel =>
    if frame <? end_ then
      if MAX_PACKET_SIZE <? frame + sizeof_FrameHeader then ub
      else
        let header := decode_FrameHeader (drop (Z.to_nat frame) data) in
        let next := frame + sizeof_FrameHeader + fh_dataSize header in
        if MAX_PACKET_SIZE <? next then ub
        else
          processor (mkFrame header
            (slice (Z.to_nat (frame + sizeof_FrameHeader)) (Z.to_nat (fh_dataSize header)) data));;
          unreliable_onReceive_loop fuel data next end_
    else mret tt
  end.

(** A round moves on by at least a header. *)
Definition unreliable_onReceive (packet : Packet) : M S unit :=
  unreliable_onReceive_loop (Datatypes.S (Z.to_nat (p_dataSize packet))) (p_data packet) 0 (p_dataSize packet).
End operations.

(** ** Reading the frames of a packet *)

Definition frame_wf (f : Frame) : Prop :=
  FrameHeader_wf (f_header f) ∧ Z.of_nat (length (f_data f)) = fh_dataSize (f_header f).

Lemma encode_Frame_length f : length (encode_Frame f) = (5 + length (f_data f))%nat.
Proof. unfold encode_Frame. by rewrite length_app, encode_FrameHeader_length. Qed.

Definition encode_Frames (fs : list Frame) : bytes := concat (encode_Frame <$> fs).

Lemma encode_Frames_app fs gs : encode_Frames (fs ++ gs) = encode_Frames fs ++ encode_Frames gs.
Proof. unfold encode_Frames. by rewrite fmap_app, concat_app. Qed.

Lemma encode_Frames_singleton f : encode_Frames [f] = encode_Frame f.
Proof. unfold encode_Frames. simpl. by rewrite app_nil_r. Qed.

(** The complete frames at the start of [rest]: what the frame loops iterate over. *)
Fixpoint parse_frames_loop (fuel : nat) (rest : bytes) : list Frame :=
  match fuel with
  | O => []
  | Datatypes.S fuel =>
    let remaining := Z.of_nat (length rest) in
    if remaining <? sizeof_FrameHeader then []
    else
      let header := decode_FrameHeader rest in
      if remaining <? sizeof_FrameHeader + fh_dataSize header then []
      else mkFrame header (slice 5 (Z.to_nat (fh_dataSize header)) rest)
             :: parse_frames_loop fuel (drop (5 + Z.to_nat (fh_dataSize header)) rest)
  end.
Definition parse_frames (rest : bytes) : list Frame :=
  parse_frames_loop (Datatypes.S (length rest)) rest.

(** What the frame loop reads at the start of an encoded frame. *)
Lemma read_encoded_Frame f rest :
  FrameHeader_wf (f_header f) →
  decode_FrameHeader (encode_Frame f ++ rest) = f_header f ∧
  slice 5 (length (f_data f)) (encode_Frame f ++ rest) = f_data f ∧
  drop (5 + length (f_data f)) (encode_Frame f ++ rest) = rest.
Proof.
  intros Hh. unfold encode_Frame. rewrite <-app_assoc. split_and!.
  - by apply decode_encode_FrameHeader.
  - apply (slice_app_mid (encode_FrameHeader _)).
  - rewrite app_assoc. apply drop_app_length'. by rewrite length_app, encode_FrameHeader_length.
Qed.

Lemma parse_frames_loop_encode fuel fs :
  Forall frame_wf fs → (length (encode_Frames fs) < fuel)%nat →
  parse_frames_loop fuel (encode_Frames fs) = fs.
Proof.
  intros Hfs. revert fuel. induction Hfs as [|f fs [Hh Hd] Hfs IH]; intros fuel Hfuel.
  { by destruct fuel. }
  destruct fuel as [|fuel]; [lia|].
  change (encode_Frames (f :: fs)) with (encode_Frame f ++ encode_Frames fs) in *.
  destruct (read_encoded_Frame f (encode_Frames fs) Hh) as (E1&E2&E3).
  rewrite length_app, encode_Frame_length in Hfuel.
  cbn [parse_frames_loop]. rewrite E1, <-Hd, Nat2Z.id, E2, E3.
  rewrite length_app, encode_Frame_length. unfold sizeof_FrameHeader.
  rewrite !(proj2 (Z.ltb_ge _ _)) by lia.
  rewrite IH by lia. by destruct f.
Qed.

Lemma parse_encode_Frames fs : Forall frame_wf fs → parse_frames (encode_Frames fs) = fs.
Proof. intros. apply parse_frames_loop_encode; [done|lia]. Qed.

Lemma encode_Frames_inj fs gs :
  Forall frame_wf fs → Forall frame_wf gs → encode_Frames fs = encode_Frames gs → fs = gs.
Proof. intros Hf Hg E. by rewrite <-(parse_encode_Frames fs), E, parse_encode_Frames. Qed.

Section frame_loop.
Context {S : Type} (processor : Frame → M S unit).

Lemma onReceive_loop_parse fuel rest :
  (length rest < fuel)%nat →
  ∀ st, onReceive_loop processor fuel rest st =
        mapM_ (onReceive_frame processor) (parse_frames_loop fuel rest) st.
Proof.
  revert rest. induction fuel as [|fuel IH]; intros rest Hf st; [lia|].
  cbn [onReceive_loop parse_frames_loop]. unfold sizeof_FrameHeader.
  destruct (Z.eqb_spec (Z.of_nat (length rest)) 0) as [H0|H0].
  { by rewrite (proj2 (Z.ltb_lt _ _)) by lia. }
  destruct (Z.ltb_spec (Z.of_nat (length rest)) 5); [done|].
  unfold mbind, M_bind, lift, read_header, sizeof_FrameHeader. rewrite (proj2 (Z.ltb_ge _ _)) by lia. cbn [fmap option_fmap option_map].
  destruct (Z.ltb_spec (Z.of_nat (length rest)) (5 + fh_dataSize (decode_FrameHeader rest))) as [|Hd]; [done|].
  unfold read_data, sizeof_FrameHeader. rewrite (proj2 (Z.ltb_ge _ _)) by lia. cbn [fmap option_fmap option_map mapM_]. unfold mbind, M_bind.
  destruct (onReceive_frame _ _ st) as [[[] st']|]; [|done].
  apply IH. rewrite length_drop. lia.
Qed.

(** The byte-level frame loop is an iteration over the parsed frames. *)
Lemma onReceive_parse packet st :
  onReceive processor packet st =
  mapM_ (onReceive_frame processor) (parse_frames (payload packet)) st.
Proof. apply onReceive_loop_parse. lia. Qed.
End frame_loop.

(** ** The frames handed over do not depend on the processor

    [tracer] records the frames it is given. Running an operation with any processor is the
    same as running it with the tracer and then the processor on the recorded frames. *)
Definition tracer (f : Frame) : M (list Frame) unit := modify (λ l, l ++ [f]).

Section factor.
Context {S : Type} (processor : Frame → M S unit).

Definition factors {A} (op : M (ReceiveQueue * S) A) (op_tr : M (ReceiveQueue * list Frame) A) : Prop :=
  ∀ rq s tr,
    match op_tr (rq, tr) with
    | Some (a, (rq', tr')) =>
      ∃ new, tr' = tr ++ new ∧
        op (rq, s) = match mapM_ processor new s with
                     | Some (_, s') => Some (a, (rq', s'))
                     | None => None
                     end
    | None => op (rq, s) = None
    end.

Lemma factors_silent {A} (f : ReceiveQueue → A * ReceiveQueue) :
  factors (λ '(rq, s), Some ((f rq).1, ((f rq).2, s)))
          (λ '(rq, tr), Some ((f rq).1, ((f rq).2, tr))).
Proof. intros rq s tr. exists []. by rewrite app_nil_r. Qed.

Lemma mapM_app {S' X} (f : X → M S' unit) l1 l2 s :
  mapM_ f (l1 ++ l2) s = match mapM_ f l1 s with Some (_, s') => mapM_ f l2 s' | None => None end.
Proof.
  revert s. induction l1 as [|x l1 IH]; intros s; [done|]. simpl.
  unfold mbind, M_bind. destruct (f x s) as [[[] s']|]; [apply IH|done].
Qed.

Lemma factors_bind {A B} (op : M _ A) op_tr (k : A → M _ B) k_tr :
  factors op op_tr → (∀ a, factors (k a) (k_tr a)) → factors (op ≫= k) (op_tr ≫= k_tr).
Proof.
  intros Hop Hk rq s tr. unfold mbind, M_bind. specialize (Hop rq s tr).
  destruct (op_tr (rq, tr)) as [[a [rq1 tr1]]|]; [|by rewrite Hop].
  destruct Hop as (new1&->&->).
  destruct (mapM_ processor new1 s) as [[[] s1]|] eqn:E1.
  - specialize (Hk a rq1 s1 (tr ++ new1)).
    destruct (k_tr a (rq1, tr ++ new1)) as [[b [rq2 tr2]]|]; [|done].
    destruct Hk as (new2&->&->). exists (new1 ++ new2).
    by rewrite app_assoc, mapM_app, E1.
  - destruct (k_tr a (rq1, tr ++ new1)) as [[b [rq2 tr2]]|] eqn:E2; [|done].
    specialize (Hk a rq1 s (tr ++ new1)). rewrite E2 in Hk. destruct Hk as (new2&->&_).
    exists (new1 ++ new2). by rewrite app_assoc, mapM_app, E1.
Qed.

Lemma factors_process f : factors (process processor f) (process tracer f).
Proof.
  intros rq s tr. exists [f]. split; [done|]. simpl. unfold mbind, M_bind.
  by destruct (processor f s) as [[[] ?]|].
Qed.

Lemma factors_ret {A} (a : A) : factors (mret a) (mret a).
Proof. apply (factors_silent (λ rq, (a, rq))). Qed.

Lemma factors_gets : factors (gets fst) (gets fst).
Proof. apply (factors_silent (λ rq, (rq, rq))). Qed.

Lemma factors_modify (f : ReceiveQueue → ReceiveQueue) :
  factors (modify (λ '(rq, s), (f rq, s))) (modify (λ '(rq, s), (f rq, s))).
Proof. apply (factors_silent (λ rq, (tt, f rq))). Qed.

Lemma factors_processNext : factors (processNext processor) (processNext tracer).
Proof.
  apply factors_bind; [apply factors_gets|]. intros rq.
  destruct (queue rq !! expectedID rq); [|apply factors_ret].
  apply factors_bind; [apply factors_process|]. intros _.
  apply factors_bind; [apply factors_modify|]. intros _. apply factors_ret.
Qed.

Lemma factors_processQueue_loop fuel :
  factors (processQueue_loop processor fuel) (processQueue_loop tracer fuel).
Proof.
  induction fuel as [|fuel IH]; [done|].
  apply factors_bind; [apply factors_processNext|]. intros []; [done|apply factors_ret].
Qed.

Lemma factors_processQueue : factors (processQueue processor) (processQueue tracer).
Proof. apply factors_bind; [apply factors_gets|]. intros. apply factors_processQueue_loop. Qed.

Lemma factors_enqueue f : factors (enqueue f) (enqueue f).
Proof.
  intros rq s tr. unfold enqueue, modify.
  destruct (queue rq !! _); exists []; by rewrite app_nil_r.
Qed.

Lemma factors_onReceive_frame f :
  factors (onReceive_frame processor f) (onReceive_frame tracer f).
Proof.
  apply factors_bind; [apply factors_gets|]. intros rq. case_match.
  - apply factors_bind; [apply factors_process|]. intros _.
    apply factors_bind; [|intros _; apply factors_processQueue].
    apply (factors_modify (λ rq, mkReceiveQueue (u16 (expectedID rq + 1)) (queue rq))).
  - case_match; [apply factors_enqueue|apply factors_ret].
Qed.

Lemma factors_onReceive packet : factors (onReceive processor packet) (onReceive tracer packet).
Proof.
  intros rq s tr. rewrite !onReceive_parse. revert rq s tr.
  change (factors (mapM_ (onReceive_frame processor) (parse_frames (payload packet)))
    (mapM_ (onReceive_frame tracer) (parse_frames (payload packet)))).
  induction (parse_frames (payload packet)) as [|f fs IH]; [apply factors_ret|].
  apply factors_bind; [apply factors_onReceive_frame|]. intros. apply IH.
Qed.
End factor.

(** ** A property of frames is kept by queuing and handing over *)
Section frames_kept.
Context (P : Frame → Prop).

Definition all_frames (st : ReceiveQueue * list Frame) : Prop :=
  (∀ i f, queue st.1 !! i = Some f → P f) ∧ Forall P st.2.

Lemma processQueue_loop_kept fuel st :
  all_frames st → (size (queue st.1) < fuel)%nat → wp (processQueue_loop tracer fuel) (λ _, all_frames) st.
Proof.
  revert st. induction fuel as [|fuel IH]; intros [rq tr] [Hq Ht] Hf; [lia|].
  cbn [processQueue_loop]. apply wp_bind. unfold processNext. wp_steps. cbn [fst].
  destruct (queue rq !! expectedID rq) as [f|] eqn:Hlk; [|by wp_steps].
  wp_steps. apply wp_some. do 2 eexists. split; [done|]. wp_steps. apply IH; simpl in *.
  - split; simpl; [|by apply Forall_app; split; [|constructor; [by eapply Hq|constructor]]].
    intros i g [_ Hg]%lookup_delete_Some. by eapply Hq.
  - rewrite map_size_delete, Hlk.
    pose proof (map_size_ne_0_lookup_2 (queue rq) _ (mk_is_Some _ _ Hlk)). lia.
Qed.

Lemma processQueue_kept st : all_frames st → wp (processQueue tracer) (λ _, all_frames) st.
Proof. intros. unfold processQueue. wp_steps. apply processQueue_loop_kept; [done|lia]. Qed.

Lemma onReceive_frame_kept f st :
  P f → all_frames st → wp (onReceive_frame tracer f) (λ _, all_frames) st.
Proof.
  intros Hf [Hq Ht]. destruct st as [rq tr]. unfold onReceive_frame. wp_steps. case_match.
  - wp_steps. apply wp_some. do 2 eexists. split; [done|]. wp_steps. apply processQueue_kept.
    split; simpl; [done|]. apply Forall_app. split; [done|]. by constructor.
  - case_match; [|by wp_steps]. unfold enqueue. wp_steps. destruct (queue rq !! _) eqn:E; [done|].
    split; simpl; [|done]. intros i g [[<- <-]|[_ Hg]]%lookup_insert_Some; [done|by eapply Hq].
Qed.

Lemma onReceive_kept packet st :
  Forall P (parse_frames (payload packet)) → all_frames st →
  wp (onReceive tracer packet) (λ _, all_frames) st.
Proof.
  intros Hp Hst. unfold wp. rewrite onReceive_parse. fold (wp (mapM_ (onReceive_frame tracer)
    (parse_frames (payload packet))) (λ _, all_frames) st).
  apply wp_mapM_inv; [done|]. intros f st' Hf Hst'. apply onReceive_frame_kept; [|done].
  by eapply Forall_elem_of.
Qed.
End frames_kept.

(** ** In-order delivery

    The abstract promise of the reliable queue: the peer numbers the frames of the stream from
    0, and the frames handed over are always the longest prefix of the stream all of whose
    frames have arrived. On the wire a frame carries its number modulo 2^16 only. *)
Section ordering.
Context (sent : list Frame).

(** [n] is the number of the first frame that has not arrived. *)
Definition first_missing (arrived : gset nat) (n : nat) : Prop :=
  (∀ k, (k < n)%nat → k ∈ arrived) ∧ (n ∉ arrived).

(** The queue holds exactly the arrived frames from [lo] on, all less than half the id space
    ahead of the next expected frame [n]. *)
Record queue_holds (rq : ReceiveQueue) (arrived : gset nat) (n lo : nat) : Prop := {
  qh_expected : expectedID rq = u16 (Z.of_nat n);
  qh_bound : ∀ k, k ∈ arrived → (k < length sent)%nat ∧ Z.of_nat k < Z.of_nat n + 2 ^ 15;
  qh_below : ∀ k, (k < n)%nat → k ∈ arrived;
  qh_queued : ∀ k, k ∈ arrived → (lo ≤ k)%nat → queue rq !! u16 (Z.of_nat k) = sent !! k;
  qh_only : ∀ i f, queue rq !! i = Some f → ∃ k, k ∈ arrived ∧ (lo ≤ k)%nat ∧ i = u16 (Z.of_nat k);
}.

Definition rq_inv (rq : ReceiveQueue) (log : list Frame) (arrived : gset nat) (n : nat) : Prop :=
  queue_holds rq arrived n (n + 1) ∧ (n ∉ arrived) ∧ log = take n sent.

(** A frame no further than half the id space from the next expected one. *)
Definition in_window (n k : nat) : Prop := Z.abs (Z.of_nat k - Z.of_nat n) < 2 ^ 15.

Lemma rq_inv_init : rq_inv ReceiveQueue_init [] ∅ 0.
Proof.
  split; [|split; [set_solver|done]]. split; try done; intros; try set_solver; try lia.
Qed.

(** The loop that drains the queue, started when [n] is expected and may have arrived. *)
Lemma processQueue_loop_spec fuel rq arrived n log :
  queue_holds rq arrived n n → log = take n sent → (n ≤ length sent)%nat →
  (size (queue rq) < fuel)%nat →
  wp (processQueue_loop tracer fuel)
    (λ _ '(rq', log'), ∃ n', (n ≤ n')%nat ∧ rq_inv rq' log' arrived n') (rq, log).
Proof.
  revert rq n log. induction fuel as [|fuel IH]; intros rq n log Hq Hlog Hn Hf; [lia|].
  cbn [processQueue_loop]. apply wp_bind. unfold processNext. wp_steps. simpl.
  destruct (decide (n ∈ arrived)) as [Hin|Hout].
  - destruct (qh_bound _ _ _ _ Hq n Hin) as [Hlen _].
    destruct (lookup_lt_is_Some_2 sent n Hlen) as [f Hfn].
    assert (queue rq !! expectedID rq = Some f) as Hlk.
    { rewrite (qh_expected _ _ _ _ Hq), (qh_queued _ _ _ _ Hq n) by (done || lia). done. }
    rewrite Hlk. wp_steps. apply wp_some. do 2 eexists. split; [done|]. wp_steps.
    eapply wp_mono; [apply (IH _ (n + 1)%nat)|].
    + split; simpl.
      * rewrite (qh_expected _ _ _ _ Hq), wrap_wrap_add. f_equal. lia.
      * intros k Hk. destruct (qh_bound _ _ _ _ Hq k Hk). lia.
      * intros k Hk. destruct (decide (k = n)) as [->|]; [done|].
        apply (qh_below _ _ _ _ Hq). lia.
      * intros k Hk Hnk. rewrite lookup_delete_ne; [by apply (qh_queued _ _ _ _ Hq); [|lia]|].
        rewrite (qh_expected _ _ _ _ Hq). intros E.
        destruct (qh_bound _ _ _ _ Hq k Hk). apply wrap_inj_window in E; lia.
      * intros i g [Hi Hg]%lookup_delete_Some.
        destruct (qh_only _ _ _ _ Hq i g Hg) as (k&?&?&->). exists k. split_and!; [done| |done].
        destruct (decide (k = n)) as [->|]; [|lia]. by rewrite (qh_expected _ _ _ _ Hq) in Hi.
    + subst log. rewrite Nat.add_1_r. by rewrite (take_S_r _ _ f).
    + lia.
    + simpl. rewrite map_size_delete, Hlk.
      pose proof (map_size_ne_0_lookup_2 (queue rq) _ (mk_is_Some _ _ Hlk)). lia.
    + intros _ [rq' log'] (n'&?&?). exists n'. split; [lia|done].
  - assert (queue rq !! expectedID rq = None) as ->.
    { destruct (queue rq !! expectedID rq) as [g|] eqn:Hg; [|done].
      destruct (qh_only _ _ _ _ Hq _ g Hg) as (k&Hk&Hnk&E).
      rewrite (qh_expected _ _ _ _ Hq) in E.
      destruct (qh_bound _ _ _ _ Hq k Hk). apply wrap_inj_window in E; [|lia..].
      by assert (n = k) as -> by lia. }
    wp_steps. exists n. split; [done|]. split; [|done].
    destruct Hq as [??? Hqd Ho]. split; try done.
    + intros. apply Hqd; [done|lia].
    + intros i f Hi. destruct (Ho i f Hi) as (k&?&?&->). exists k. split_and!; [done| |done].
      destruct (decide (k = n)) as [->|]; [done|lia].
Qed.

Lemma processQueue_spec rq arrived n log :
  queue_holds rq arrived n n → log = take n sent → (n ≤ length sent)%nat →
  wp (processQueue tracer)
    (λ _ '(rq', log'), ∃ n', (n ≤ n')%nat ∧ rq_inv rq' log' arrived n') (rq, log).
Proof.
  intros. unfold processQueue. wp_steps. cbn [fst].
  apply processQueue_loop_spec; [done..|lia].
Qed.

(** How the wire id of frame [k] compares with the expected id. *)
Lemma window_compare n k :
  in_window n k →
  (u16 (Z.of_nat k) =? u16 (Z.of_nat n)) = bool_decide (k = n) ∧
  (k ≠ n → id_greater_than (u16 (Z.of_nat k)) (u16 (Z.of_nat n)) = bool_decide (n < k)%nat).
Proof.
  unfold in_window. intros Hw. split.
  - destruct (Z.eqb_spec (u16 (Z.of_nat k)) (u16 (Z.of_nat n))) as [E|E].
    + apply wrap_inj_window in E; [|lia..]. symmetry. apply bool_decide_eq_true. lia.
    + symmetry. apply bool_decide_eq_false. congruence.
  - intros Hne. set (d := Z.of_nat k - Z.of_nat n) in *.
    assert (u16 (Z.of_nat k) = u16 (Z.of_nat n + d `mod` 2 ^ 16)) as ->.
    { unfold wrap. rewrite Zplus_mod_idemp_r. f_equal. lia. }
    apply eq_true_iff_eq.
    rewrite id_greater_than_serial, bool_decide_eq_true by (apply Z.mod_pos_bound; lia).
    assert (d `mod` 2 ^ 16 = if decide (0 ≤ d) then d else d + 2 ^ 16) as ->.
    { case_decide; [apply Z.mod_small; lia|].
      symmetry. apply (Z.mod_unique _ _ (-1)); lia. }
    case_decide; lia.
Qed.

(** A frame that arrives early is kept under its id. *)
Lemma rq_inv_insert rq log arrived n k f :
  rq_inv rq log arrived n → sent !! k = Some f → in_window n k → (n < k)%nat →
  queue rq !! u16 (Z.of_nat k) = None →
  rq_inv (mkReceiveQueue (expectedID rq) (<[u16 (Z.of_nat k) := f]> (queue rq)))
    log ({[k]} ∪ arrived) n.
Proof.
  intros (Hq&Hn&Hlog) Hk Hw Hlt Hnone. pose proof (lookup_lt_Some _ _ _ Hk) as Hlen.
  split; [|split; [set_solver by lia|done]]. unfold in_window in Hw.
  destruct Hq as [He Hb Hl Hqd Ho]. split; simpl; [done| | | |].
  - intros j [->%elem_of_singleton|Hin]%elem_of_union; [lia|by apply Hb].
  - intros j Hj. apply elem_of_union_r. by apply Hl.
  - intros j [->%elem_of_singleton|Hin]%elem_of_union Hj; [by rewrite lookup_insert_eq|].
    destruct (decide (j = k)) as [->|Hne]; [by rewrite lookup_insert_eq|].
    rewrite lookup_insert_ne; [by apply Hqd|]. intros E.
    destruct (Hb j Hin). apply wrap_inj_window in E; lia.
  - intros i g [[<- <-]|[? Hi]]%lookup_insert_Some; [exists k; set_solver by lia|].
    destruct (Ho i g Hi) as (j&?&?&->). exists j. set_solver.
Qed.

Context (sent_ids : ∀ k f, sent !! k = Some f → fh_id (f_header f) = u16 (Z.of_nat k)).

Lemma onReceive_frame_spec rq log arrived n k f :
  rq_inv rq log arrived n → sent !! k = Some f → in_window n k →
  wp (onReceive_frame tracer f)
    (λ _ '(rq', log'), ∃ n', (n ≤ n')%nat ∧ rq_inv rq' log' ({[k]} ∪ arrived) n') (rq, log).
Proof.
  intros (Hq&Hn&Hlog) Hk Hw. pose proof (lookup_lt_Some _ _ _ Hk) as Hlen.
  destruct (window_compare n k Hw) as [Heq Hgt].
  unfold onReceive_frame. wp_steps. simpl.
  rewrite (sent_ids k f Hk), (qh_expected _ _ _ _ Hq), Heq.
  destruct (decide (k = n)) as [->|Hkn];
    [rewrite bool_decide_eq_true_2 by done|
     rewrite bool_decide_eq_false_2, Hgt by done; case_bool_decide as Hlt].
  - wp_steps. apply wp_some. do 2 eexists. split; [done|]. wp_steps. simpl.
    eapply wp_mono; [apply (processQueue_spec _ ({[n]} ∪ arrived) (n + 1))|].
    + destruct Hq as [He Hb Hl Hqd Ho]. split; simpl.
      * rewrite He, wrap_wrap_add. f_equal. lia.
      * intros k [->%elem_of_singleton|Hin]%elem_of_union; [lia|]. destruct (Hb k Hin). lia.
      * intros k Hkn. destruct (decide (k = n)) as [->|]; [set_solver|].
        apply elem_of_union_r, Hl. lia.
      * intros k [->%elem_of_singleton|Hin]%elem_of_union Hkn; [lia|]. by apply Hqd.
      * intros i g Hi. destruct (Ho i g Hi) as (k&?&?&->). exists k. set_solver.
    + subst log. rewrite Nat.add_1_r. by rewrite (take_S_r _ _ f).
    + lia.
    + intros _ [rq' log'] (n'&?&?). exists n'. split; [lia|done].
  - unfold enqueue. wp_steps. rewrite (sent_ids k f Hk).
    destruct (queue rq !! u16 (Z.of_nat k)) as [g|] eqn:Hg; exists n; split; try done.
    + destruct (qh_only _ _ _ _ Hq _ g Hg) as (j&Hj&?&E).
      destruct (qh_bound _ _ _ _ Hq j Hj) as [_ ?]. unfold in_window in Hw.
      apply wrap_inj_window in E; [|lia..]. assert (k = j) as -> by lia.
      by replace ({[j]} ∪ arrived) with arrived by set_solver.
    + by apply rq_inv_insert.
  - wp_steps. exists n. split; [done|]. replace ({[k]} ∪ arrived) with arrived; [done|].
    pose proof (qh_below _ _ _ _ Hq k ltac:(lia)). set_solver.
Qed.

(** The arrivals [ks], in this order, each no further than half the id space from the frame
    expected when it arrives. *)
Fixpoint timely (arrived : gset nat) (ks : list nat) : Prop :=
  match ks with
  | [] => True
  | k :: ks =>
    (∀ n, first_missing arrived n → in_window n k) ∧ timely ({[k]} ∪ arrived) ks
  end.

(** [packet] carries the frames numbered [ks] of the stream. *)
Definition carries (packet : Packet) (ks : list nat) : Prop :=
  ∃ fs, payload packet = encode_Frames fs ∧ Forall frame_wf fs ∧
    Forall2 (λ k f, sent !! k = Some f) ks fs.

Lemma rq_inv_first_missing rq log arrived n : rq_inv rq log arrived n → first_missing arrived n.
Proof. intros (Hq&Hn&_). split; [apply (qh_below _ _ _ _ Hq)|done]. Qed.

Lemma onReceive_frames_spec ks fs rq log arrived n :
  rq_inv rq log arrived n → Forall2 (λ k f, sent !! k = Some f) ks fs → timely arrived ks →
  wp (mapM_ (onReceive_frame tracer) fs)
    (λ _ '(rq', log'), ∃ n', rq_inv rq' log' (list_to_set ks ∪ arrived) n') (rq, log).
Proof.
  intros Hinv Hks. revert rq log arrived n Hinv.
  induction Hks as [|k f ks fs Hk Hks IH]; intros rq log arrived n Hinv Ht; simpl.
  { exists n. by rewrite union_empty_l_L. }
  destruct Ht as [Hw Ht]. apply wp_bind.
  eapply wp_mono; [apply (onReceive_frame_spec rq log arrived n k f)|];
    [done|done|by eapply Hw, rq_inv_first_missing|].
  intros _ [rq1 log1] (n1&_&Hinv1). eapply wp_mono; [by eapply IH|].
  intros _ [rq2 log2] (n2&Hinv2). exists n2.
  by replace ({[k]} ∪ list_to_set ks ∪ arrived) with (list_to_set ks ∪ ({[k]} ∪ arrived)) by set_solver.
Qed.

Lemma timely_app arrived ks1 ks2 :
  timely arrived (ks1 ++ ks2) → timely arrived ks1 ∧ timely (list_to_set ks1 ∪ arrived) ks2.
Proof.
  revert arrived. induction ks1 as [|k ks1 IH]; intros arrived; simpl.
  { by rewrite union_empty_l_L. }
  intros [? Ht]. apply IH in Ht as [? Ht]. split; [done|].
  by replace ({[k]} ∪ list_to_set ks1 ∪ arrived)
    with (list_to_set ks1 ∪ ({[k]} ∪ arrived) : gset nat) by set_solver.
Qed.

Lemma onReceive_packets_spec packets kss rq log arrived n :
  rq_inv rq log arrived n → Forall2 carries packets kss → timely arrived (concat kss) →
  wp (mapM_ (onReceive tracer) packets)
    (λ _ '(rq', log'), ∃ n', rq_inv rq' log' (list_to_set (concat kss) ∪ arrived) n') (rq, log).
Proof.
  intros Hinv Hp. revert rq log arrived n Hinv.
  induction Hp as [|p ks packets kss (fs&Hpay&Hwf&Hfs) Hp IH]; intros rq log arrived n Hinv Ht; simpl.
  { exists n. by rewrite union_empty_l_L. }
  simpl in Ht. apply timely_app in Ht as [Ht1 Ht2]. apply wp_bind. unfold wp at 1.
  rewrite onReceive_parse, Hpay, parse_encode_Frames by done.
  eapply wp_mono; [by eapply onReceive_frames_spec|].
  intros _ [rq1 log1] (n1&Hinv1). eapply wp_mono; [by eapply IH|].
  intros _ [rq2 log2] (n2&Hinv2). exists n2. by rewrite list_to_set_app_L, <-(union_comm_L (list_to_set _)), <-union_assoc_L.
Qed.
End ordering.

(** ** Claims *)

(** C10: in-order, exactly-once delivery. However the network loses, duplicates and reorders the
    packets of a stream, as long as no frame is 2^15 or more frames away from the one expected
    when it arrives, the reliable queue is well defined on every packet and the frames it has
    handed over are exactly [take n sent] where [n] is the first frame that has not arrived:
    nothing is lost, repeated, reordered or held back, across any number of wrap-arounds of the
    16-bit ids. *)
Theorem reliable_delivery_in_order (sent : list Frame) (packets : list Packet) (kss : list (list nat)) :
  (∀ k f, sent !! k = Some f → fh_id (f_header f) = u16 (Z.of_nat k)) →
  Forall2 (carries sent) packets kss →
  timely ∅ (concat kss) →
  ∃ rq n, mapM_ (onReceive tracer) packets (ReceiveQueue_init, []) = Some (tt, (rq, take n sent)) ∧
    first_missing (list_to_set (concat kss)) n ∧ expectedID rq = u16 (Z.of_nat n).
Proof.
  intros Hids Hp Ht.
  pose proof (onReceive_packets_spec sent Hids packets kss _ _ _ _ (rq_inv_init sent) Hp Ht) as Hwp.
  apply wp_some in Hwp as ([]&[rq log]&E&n&Hinv). rewrite union_empty_r_L in Hinv.
  exists rq, n. pose proof (rq_inv_first_missing _ _ _ _ _ Hinv).
  destruct Hinv as (Hq&_&->). split_and!; [done..|apply (qh_expected _ _ _ _ _ Hq)].
Qed.

(** Frames of a small example stream, and two packets that carry it out of order. *)
Definition example_frame (k : Z) (b : byte) : Frame := mkFrame (mkFrameHeader (u16 k) DATA 1) [b].
Definition example_stream : list Frame :=
  [example_frame 0 Byte.x0a; example_frame 1 Byte.x0b; example_frame 2 Byte.x0c].
Definition example_packet (fs : list Frame) : Packet :=
  let bs := encode_Frames fs in
  mkPacket (mkHeader MRUDP_VERSION 7 DATA_RELIABLE 0)
    (bs ++ replicate (Z.to_nat MAX_PACKET_SIZE - length bs) Byte.x00) (Z.of_nat (length bs)).

Lemma example_frame_wf k b : frame_wf (example_frame k b).
Proof.
  split; [|done]. split_and!; [by apply wrap_range|done|done].
Qed.

Lemma example_packet_payload fs : payload (example_packet fs) = encode_Frames fs.
Proof. unfold payload, example_packet. simpl. by rewrite Nat2Z.id, take_app_length. Qed.

Lemma example_packet_carries sent fs ks :
  Forall frame_wf fs → Forall2 (λ k f, sent !! k = Some f) ks fs → carries sent (example_packet fs) ks.
Proof. intros. exists fs. by rewrite example_packet_payload. Qed.

Lemma first_missing_unique (arrived : gset nat) n m :
  first_missing arrived n → first_missing arrived m → n = m.
Proof.
  intros [Hn1 Hn2] [Hm1 Hm2]. destruct (Nat.lt_trichotomy n m) as [?|[?|?]]; [|done|].
  - by destruct Hn2; apply Hm1.
  - by destruct Hm2; apply Hn1.
Qed.

Lemma reliable_delivery_witness :
  ∃ rq n, mapM_ (onReceive tracer)
      [example_packet [example_frame 1 Byte.x0b; example_frame 2 Byte.x0c];
       example_packet [example_frame 1 Byte.x0b]; example_packet [example_frame 0 Byte.x0a]]
      (ReceiveQueue_init, []) = Some (tt, (rq, take n example_stream)) ∧
    first_missing (list_to_set (concat [[1; 2]; [1]; [0]]%nat)) n ∧ expectedID rq = u16 (Z.of_nat n).
Proof.
  apply (reliable_delivery_in_order example_stream _ [[1; 2]; [1]; [0]]%nat).
  - intros [|[|[|k]]] f [= <-]; done.
  - repeat apply Forall2_cons_2; try apply Forall2_nil_2; apply example_packet_carries;
      repeat first [apply Forall_cons_2|apply Forall_nil_2|apply Forall2_cons_2
                   |apply Forall2_nil_2|apply example_frame_wf|reflexivity].
  - assert (∀ A n, (0%nat ∉ A) → first_missing A n → n = 0%nat) as H0.
    { intros A n HA Hn. apply (first_missing_unique A n 0 Hn). split; [lia|done]. }
    simpl. split_and!; [intros n ->%H0; [done|set_solver]..|done].
Defined.

(** A frame more than half the id space ahead of the expected one is dropped without a trace:
    it compares as older. *)
Lemma onReceive_frame_far_ahead {S} (processor : Frame → M S unit) rq s f (n d : Z) :
  expectedID rq = u16 n → fh_id (f_header f) = u16 (n + d) → 2 ^ 15 < d < 2 ^ 16 →
  onReceive_frame processor f (rq, s) = Some (tt, (rq, s)).
Proof.
  intros He Hf Hd. unfold onReceive_frame, mbind, M_bind, gets. simpl. rewrite He, Hf.
  destruct (Z.eqb_spec (u16 (n + d)) (u16 n)) as [E|_].
  { apply wrap_inj_window in E; lia. }
  destruct (id_greater_than (u16 (n + d)) (u16 n)) eqn:E; [|done].
  apply id_greater_than_serial in E; lia.
Qed.

Section safety.
Context {S : Type} (processor : Frame → M S unit).
Context (processor_total : ∀ f s, wp (processor f) (λ _ _, True) s).





End safety.


(** The last frame announces a byte that the packet does not have. *)
Definition ragged_packet : Packet :=
  let p := example_packet example_stream in mkPacket (p_header p) (p_data p) (p_dataSize p - 1).


Example ragged_packet_frames : parse_frames (payload ragged_packet) = take 2 example_stream.
Proof. vm_compute. reflexivity. Qed.

(** One round of the unreliable loop at an encoded frame. *)
Lemma unreliable_loop_frame {S} (processor : Frame → M S unit) fuel pre f post end_ s :
  frame_wf f → length (pre ++ encode_Frame f ++ post) = Z.to_nat MAX_PACKET_SIZE →
  Z.of_nat (length pre) < end_ →
  unreliable_onReceive_loop processor (Datatypes.S fuel) (pre ++ encode_Frame f ++ post)
    (Z.of_nat (length pre)) end_ s =
  (processor f;; unreliable_onReceive_loop processor fuel (pre ++ encode_Frame f ++ post)
    (Z.of_nat (length (pre ++ encode_Frame f))) end_) s.
Proof.
  intros [Hh Hd] Hlen He. destruct (read_encoded_Frame f post Hh) as (E1&E2&E3).
  rewrite !length_app, encode_Frame_length in Hlen.
  cbn [unreliable_onReceive_loop]. rewrite (proj2 (Z.ltb_lt _ _)) by done.
  rewrite Nat2Z.id, drop_app_length, E1, <-Hd. unfold sizeof_FrameHeader.
  rewrite !(proj2 (Z.ltb_ge _ _)) by (unfold MAX_PACKET_SIZE in *; lia).
  replace (Z.to_nat (Z.of_nat (length pre) + 5)) with (length pre + 5)%nat by lia.
  unfold slice. rewrite <-drop_drop, drop_app_length. unfold slice in E2. rewrite Nat2Z.id, E2.
  rewrite length_app, encode_Frame_length.
  replace (Z.of_nat (length pre) + 5 + Z.of_nat (length (f_data f)))
    with (Z.of_nat (length pre + (5 + length (f_data f)))) by lia.
  by destruct f.
Qed.

Lemma unreliable_loop_frames {S} (processor : Frame → M S unit) fs fuel pre post s :
  Forall frame_wf fs → length (pre ++ encode_Frames fs ++ post) = Z.to_nat MAX_PACKET_SIZE →
  (length (encode_Frames fs) < fuel)%nat →
  unreliable_onReceive_loop processor fuel (pre ++ encode_Frames fs ++ post)
    (Z.of_nat (length pre)) (Z.of_nat (length (pre ++ encode_Frames fs))) s = mapM_ processor fs s.
Proof.
  intros Hwf. revert fuel pre s. induction Hwf as [|f fs Hf Hwf IH]; intros fuel pre s Hlen Hfuel.
  { destruct fuel as [|fuel]; [lia|]. cbn [unreliable_onReceive_loop].
    change (encode_Frames []) with (@nil byte). rewrite app_nil_r.
    by rewrite (proj2 (Z.ltb_ge _ _)) by lia. }
  destruct fuel as [|fuel]; [lia|].
  change (encode_Frames (f :: fs)) with (encode_Frame f ++ encode_Frames fs) in *.
  rewrite <-app_assoc in *. rewrite length_app, encode_Frame_length in Hfuel.
  rewrite unreliable_loop_frame; [|done|done|rewrite !length_app, encode_Frame_length; lia].
  rewrite !app_assoc in *. rewrite <-app_assoc in *. cbn [mapM_]. unfold mbind, M_bind.
  destruct (processor f s) as [[[] s']|]; [|done]. apply IH; [done|lia].
Qed.

Lemma unreliable_onReceive_encoded {S} (processor : Frame → M S unit) packet fs s :
  packet_wf packet → Forall frame_wf fs → payload packet = encode_Frames fs →
  unreliable_onReceive processor packet s = mapM_ processor fs s.
Proof.
  intros Hp Hwf Hpay. unfold unreliable_onReceive.
  pose proof (payload_length packet Hp) as Hl. destruct Hp as [Hlen Hs]. rewrite Hpay in Hl.
  pose proof (take_drop (Z.to_nat (p_dataSize packet)) (p_data packet)) as Hd.
  unfold payload in Hpay. rewrite Hpay in Hd. set (post := drop _ _) in Hd.
  assert (p_dataSize packet = Z.of_nat (length (encode_Frames fs))) as -> by lia.
  rewrite <-Hd, Nat2Z.id. rewrite <-Hd in Hlen.
  apply (unreliable_loop_frames processor fs _ []); [done|done|lia].
Qed.

(** The unreliable queue, in contrast, does no bounds checks. On the packets a peer's queue
    builds it hands over every frame once, in packet order; but there are packets (here five
    bytes of data whose header announces 65535 more) on which it leaves the packet's array. *)
Lemma unreliable_onReceive_frames {S} (processor : Frame → M S unit) (packet : Packet) fs s :
  (packet_wf packet → Forall frame_wf fs → payload packet = encode_Frames fs →
   unreliable_onReceive processor packet s = mapM_ processor fs s) ∧
  ∃ bad, packet_wf bad ∧ unreliable_onReceive processor bad s = None.
Proof.
  split.
  - apply unreliable_onReceive_encoded.
  - exists (mkPacket (p_header new_Packet)
      (encode_FrameHeader (mkFrameHeader 0 DATA 65535) ++ replicate 1495 Byte.x00) 5).
    split; [|done]. split; [done|]. unfold MAX_PACKET_SIZE. simpl. lia.
Qed.
