(* ===== verification/Types.v ===== *)
(** * Types, options and error codes: [Types.h], [Types.cpp], [mrudp.h]

    Connection ids and addresses as the byte arrays the source compares with [memcmp], the
    option structures with their merge, and the codes the library returns. *)

From S2P Require Import Prelude.

(** ** Codes *)
Definition MRUDP_OK : Z := 0.
Definition MRUDP_ERROR_GENERAL_FAILURE : Z := 1.
Definition MRUDP_ERROR_PACKET_SIZE_TOO_LARGE : Z := 2.
Definition MRUDP_ERROR_CONNECTION_CLOSED : Z := 3.
Definition mrudp_failed (x : Z) : bool := negb (x =? MRUDP_OK).

(** [enum ErrorCode]. [ERROR_CONNECTION_CLOSED] is given the value of another code. *)
Definition OK : Z := 0.
Definition ERROR_GENERAL_FAILURE : Z := MRUDP_ERROR_GENERAL_FAILURE.
Definition ERROR_PACKET_SIZE_TOO_LARGE : Z := MRUDP_ERROR_PACKET_SIZE_TOO_LARGE.
Definition ERROR_CONNECTION_CLOSED : Z := MRUDP_ERROR_PACKET_SIZE_TOO_LARGE.

Inductive mrudp_event_t := MRUDP_EVENT_NOT_ACCEPTED | MRUDP_EVENT_TIMEOUT | MRUDP_EVENT_CLOSED.

Inductive Reliability := UNRELIABLE | RELIABLE.

#[export] Instance mrudp_event_eq_dec : EqDecision mrudp_event_t.
Proof. solve_decision. Defined.
#[export] Instance Reliability_eq_dec : EqDecision Reliability.
Proof. solve_decision. Defined.

(** ** Memory comparison *)

(** The sign of the first differing byte, compared as unsigned. *)
Fixpoint memcmp (l r : bytes) : Z :=
  match l, r with
  | a :: l, b :: r =>
    if byte.unsigned a <? byte.unsigned b then -1
    else if byte.unsigned b <? byte.unsigned a then 1
    else memcmp l r
  | _, _ => 0
  end.

(** ** Ids and addresses *)

(** The 16 bytes of a [LongConnectionID]. *)
Definition LongConnectionID : Type := bytes.
Definition sizeof_LongConnectionID : Z := 16.
Definition NullLongConnectionID : LongConnectionID := replicate 16 Byte.x00.
Definition LongConnectionID_eqb (lhs rhs : LongConnectionID) : bool := memcmp lhs rhs =? 0.

(** The 28 bytes of the [mrudp_addr_t] union, the size of its largest member [sockaddr_in6]. *)
Definition Address : Type := bytes.
Definition sizeof_Address : Z := 28.
Definition AF_INET : Z := 2.
Definition AF_INET6 : Z := 10.
Definition Address_empty : Address := replicate 28 Byte.x00.
Definition Address_ltb (lhs rhs : Address) : bool := memcmp lhs rhs <? 0.
Definition Address_eqb (lhs rhs : Address) : bool := memcmp lhs rhs =? 0.
Definition Address_neqb (lhs rhs : Address) : bool := negb (memcmp lhs rhs =? 0).

(** The printed form: two letters a byte, low half first. *)
Definition print_LongConnectionID (v : LongConnectionID) : list Z :=
  v ≫= λ b, [97 + Z.land (byte.unsigned b) 15; 97 + Z.land (Z.shiftr (byte.unsigned b) 4) 15].

(** ** Options *)
Definition MRUDP_COALESCE_NONE : Z := 0.
Definition MRUDP_COALESCE_PACKET : Z := 1.
Definition MRUDP_COALESCE_STREAM : Z := 2.
Definition MRUDP_COALESCE_STREAM_COMPRESSED : Z := 3.

Record coalesce_options := mkCoalesce {
  mode : Z;               (* int8_t *)
  delay_ms : Z;           (* int32_t *)
  compression_level : Z;  (* int8_t *)
}.

Record ConnectionOptions := mkOptions {
  coalesce_reliable : coalesce_options;
  coalesce_unreliable : coalesce_options;
  probe_delay_ms : Z;          (* int32_t *)
  maximum_retry_attempts : Z;  (* int16_t *)
}.

(** [merge] keeps a field of [lhs] unless it is -1. The source has no case for
    [coalesce_reliable.compression_level]. *)
Definition merge (lhs rhs : ConnectionOptions) : ConnectionOptions :=
  let pick (l r : Z) := if l =? -1 then r else l in
  let lr := coalesce_reliable lhs in let rr := coalesce_reliable rhs in
  let lu := coalesce_unreliable lhs in let ru := coalesce_unreliable rhs in
  mkOptions
    (mkCoalesce (pick (mode lr) (mode rr)) (pick (delay_ms lr) (delay_ms rr)) (compression_level lr))
    (mkCoalesce (pick (mode lu) (mode ru)) (pick (delay_ms lu) (delay_ms ru))
       (pick (compression_level lu) (compression_level ru)))
    (pick (probe_delay_ms lhs) (probe_delay_ms rhs))
    (pick (maximum_retry_attempts lhs) (maximum_retry_attempts rhs)).

(** Options for which the conversion of the probe delay to milliseconds fits an [int]. *)
Definition options_ok (o : ConnectionOptions) : Prop :=
  probe_delay_ms o < 900000000 ∧ -2 ^ 15 ≤ maximum_retry_attempts o < 2 ^ 15.

(** No queue compresses its data. *)
Definition uncompressed (o : ConnectionOptions) : Prop :=
  mode (coalesce_reliable o) ≠ MRUDP_COALESCE_STREAM_COMPRESSED ∧
  mode (coalesce_unreliable o) ≠ MRUDP_COALESCE_STREAM_COMPRESSED.

(** Options that keep any service's options so. *)
Definition options_keep (o : ConnectionOptions) : Prop :=
  ∀ d, options_ok d → uncompressed d → options_ok (merge o d) ∧ uncompressed (merge o d).

(** [mrudp_default_connection_options]: everything left to the service. *)
Definition mrudp_default_connection_options : ConnectionOptions :=
  mkOptions (mkCoalesce (-1) (-1) (-1)) (mkCoalesce (-1) (-1) (-1)) (-1) (-1).

(** The service's own defaults ([imp/Asio.cpp]). *)
Definition getDefaultConnectionOptions : ConnectionOptions :=
  mkOptions (mkCoalesce MRUDP_COALESCE_STREAM 5 0) (mkCoalesce MRUDP_COALESCE_PACKET 5 (-1)) (-1) 5.

Definition with_compression (o : ConnectionOptions) (level : Z) : ConnectionOptions :=
  mkOptions (mkCoalesce (mode (coalesce_reliable o)) (delay_ms (coalesce_reliable o)) level)
    (coalesce_unreliable o) (probe_delay_ms o) (maximum_retry_attempts o).

(** ** Laws of [memcmp] *)

Lemma memcmp_refl l : memcmp l l = 0.
Proof. induction l as [|a l IH]; [done|]. simpl. by rewrite Z.ltb_irrefl. Qed.

Lemma memcmp_0 l r : length l = length r → memcmp l r = 0 → l = r.
Proof.
  revert r. induction l as [|a l IH]; intros [|b r]; simpl; try done. intros [= Hl].
  destruct (Z.ltb_spec (byte.unsigned a) (byte.unsigned b)); [done|].
  destruct (Z.ltb_spec (byte.unsigned b) (byte.unsigned a)); [done|].
  intros ?%IH; [|done]. f_equal; [|done]. apply byte.unsigned_inj. lia.
Qed.

Lemma memcmp_trans a b c :
  length a = length b → length b = length c → memcmp a b < 0 → memcmp b c < 0 → memcmp a c < 0.
Proof.
  revert b c. induction a as [|x a IH]; intros [|y b] [|z c]; simpl; try done.
  intros [= ?] [= ?].
  destruct (Z.ltb_spec (byte.unsigned x) (byte.unsigned y)),
    (Z.ltb_spec (byte.unsigned y) (byte.unsigned x)),
    (Z.ltb_spec (byte.unsigned y) (byte.unsigned z)),
    (Z.ltb_spec (byte.unsigned z) (byte.unsigned y)),
    (Z.ltb_spec (byte.unsigned x) (byte.unsigned z)),
    (Z.ltb_spec (byte.unsigned z) (byte.unsigned x)); try lia. by apply IH.
Qed.

Lemma memcmp_antisym a b : memcmp a b = - memcmp b a.
Proof.
  revert b. induction a as [|x a IH]; intros [|y b]; simpl; try done.
  destruct (Z.ltb_spec (byte.unsigned x) (byte.unsigned y)),
    (Z.ltb_spec (byte.unsigned y) (byte.unsigned x)); try lia; try done.
Qed.

(** ** Claims *)

(** C40: addresses are ordered by [operator<] as the ordered maps keyed by them require: on
    addresses of the union's size it is a strict total order whose equivalence is
    [operator==], which in turn is equality of the bytes. *)
Theorem Address_order (a b c : Address) :
  Z.of_nat (length a) = sizeof_Address → Z.of_nat (length b) = sizeof_Address →
  Z.of_nat (length c) = sizeof_Address →
  Address_ltb a a = false ∧
  (Address_ltb a b = true → Address_ltb b c = true → Address_ltb a c = true) ∧
  (Address_eqb a b = true ↔ a = b) ∧
  (Address_eqb a b = negb (Address_ltb a b || Address_ltb b a)) ∧
  Address_neqb a b = negb (Address_eqb a b).
Proof.
  unfold sizeof_Address, Address_ltb, Address_eqb, Address_neqb. intros Ha Hb Hc.
  assert (length a = length b ∧ length b = length c) as [Hab Hbc] by lia.
  pose proof (memcmp_antisym a b) as Hanti. split_and!; [by rewrite memcmp_refl| | | |done].
  - rewrite !Z.ltb_lt. by apply memcmp_trans.
  - rewrite Z.eqb_eq. split; [by apply memcmp_0|intros <-; apply memcmp_refl].
  - destruct (Z.eqb_spec (memcmp a b) 0), (Z.ltb_spec (memcmp a b) 0), (Z.ltb_spec (memcmp b a) 0); lia || done.
Qed.

Lemma Address_order_witness :
  Address_ltb Address_empty Address_empty = false ∧
  (Address_ltb Address_empty (replicate 28 Byte.x01) = true →
   Address_ltb (replicate 28 Byte.x01) (replicate 28 Byte.x02) = true →
   Address_ltb Address_empty (replicate 28 Byte.x02) = true) ∧
  (Address_eqb Address_empty (replicate 28 Byte.x01) = true ↔ Address_empty = replicate 28 Byte.x01) ∧
  (Address_eqb Address_empty (replicate 28 Byte.x01) =
   negb (Address_ltb Address_empty (replicate 28 Byte.x01) || Address_ltb (replicate 28 Byte.x01) Address_empty)) ∧
  Address_neqb Address_empty (replicate 28 Byte.x01) = negb (Address_eqb Address_empty (replicate 28 Byte.x01)).
Proof. apply (Address_order Address_empty (replicate 28 Byte.x01) (replicate 28 Byte.x02)); reflexivity. Defined.

(** Options left at their defaults inherit the service's, with one exception: the source
    forgets [coalesce_reliable.compression_level], so merging the defaults yields the service's
    options with that level forced to -1, whatever the service configured, and a level set by
    the user is always kept. *)
Theorem merge_defaults_loses_reliable_compression (service user : ConnectionOptions) :
  merge mrudp_default_connection_options service = with_compression service (-1) ∧
  compression_level (coalesce_reliable (merge user service)) = compression_level (coalesce_reliable user).
Proof. by destruct service as [[] [] ? ?]. Qed.
