(* ===== verification/Asio.v ===== *)
(** * The native layer: [imp/Asio]

    Sockets of the system, the queue of packets in front of each, the sockets that overlapped
    input and output opens per remote address, and the threads of a service.

    The system, reached through Boost.Asio, is the class [Os]: what its calls answer. Completions
    of asynchronous operations are operations of the model, [on_sent] and [on_received]. Objects
    held by shared pointers live in [natives] as long as [held] finds a pointer to them; the maps
    and handlers that hold weak pointers find nothing once they are gone. *)

From S2P Require Import Prelude MemCopy Packet ReceiveQueue Types.

(** ** Addresses *)

(** [udp::endpoint]; an address of version 6 has a scope. *)
Inductive Endpoint :=
  | V4 (address : bytes) (port : Z)
  | V6 (address : bytes) (scope : Z) (port : Z).

#[export] Instance Endpoint_eq_dec : EqDecision Endpoint.
Proof. solve_decision. Defined.

(** [htons] and [ntohs]: ports are stored with their high byte first. *)
Definition htons (port : Z) : bytes := rev (le_encode 2 port).
Definition ntohs (b : bytes) : Z := le_decode (rev b).

Definition toAddr (endpoint : Endpoint) : Address :=
  match endpoint with
  | V4 a port => le_encode 2 AF_INET ++ htons port ++ a ++ replicate 20 Byte.x00
  | V6 a _ port => le_encode 2 AF_INET6 ++ htons port ++ replicate 4 Byte.x00 ++ a ++ replicate 4 Byte.x00
  end.

Definition toEndpoint (addr : Address) : Endpoint :=
  if le_decode (slice 0 2 addr) =? AF_INET then V4 (slice 4 4 addr) (ntohs (slice 2 2 addr))
  else V6 (slice 8 16 addr) 0 (ntohs (slice 2 2 addr)).

(** The endpoint of a socket that has none. *)
Definition Endpoint_default : Endpoint := V4 (replicate 4 Byte.x00) 0.

(** ** Datagrams *)

Definition sizeof_Header : Z := 6.

Definition decode_Header (b : bytes) : Header :=
  mkHeader (le_decode (slice 0 1 b)) (le_decode (slice 1 2 b)) (le_decode (slice 3 1 b)) (le_decode (slice 4 2 b)).

(** A packet in memory, and the part of it that [SocketNative::send] hands to the system. *)
Definition Packet_image (p : Packet) : bytes :=
  encode_Header (p_header p) ++ p_data p ++ le_encode 2 (p_dataSize p).

Definition datagram (p : Packet) : option bytes :=
  let size := p_dataSize p + sizeof_Header in
  if size <=? Z.of_nat (length (Packet_image p)) then Some (take (Z.to_nat size) (Packet_image p)) else None.

(** The completion of [SocketNative::receive]: the system writes what fits of a datagram to the
    packet, over what was there; the result is whether it is long enough for a header. *)
Definition receive_into (p : Packet) (d : bytes) : Packet * bool :=
  let room := (6 + length (p_data p))%nat in
  let written := take room d in
  let image := written ++ drop (length written) (encode_Header (p_header p) ++ p_data p) in
  let bytesTransferred := Z.of_nat (length written) in
  let header := decode_Header image in
  if bytesTransferred <? sizeof_Header then (mkPacket header (drop 6 image) (p_dataSize p), false)
  else (mkPacket header (drop 6 image) (u16 (bytesTransferred - sizeof_Header)), true).

(** ** Options *)

Record OptionsImp := mkOptionsImp {
  connection : ConnectionOptions;
  overlapped_io : Z;    (* int8_t *)
  send_via_queue : Z;   (* int8_t *)
  thread_quantity : Z;  (* int8_t *)
}.

(** The defaults of Linux, and of other systems with their number of processors. *)
Definition systemDefaultOptions : OptionsImp := mkOptionsImp getDefaultConnectionOptions 0 1 1.
Definition systemDefaultOptions_other (hardware_concurrency : Z) : OptionsImp :=
  mkOptionsImp getDefaultConnectionOptions 1 0 (swrap 8 (hardware_concurrency - 1)).

Definition merge_imp (lhs rhs : OptionsImp) : OptionsImp :=
  let pick (l r : Z) := if l =? -1 then r else l in
  mkOptionsImp (merge (connection lhs) (connection rhs)) (pick (overlapped_io lhs) (overlapped_io rhs))
    (pick (send_via_queue lhs) (send_via_queue rhs)) (pick (thread_quantity lhs) (thread_quantity rhs)).

(** [ServiceImp::ServiceImp] *)
Definition service_options_imp (defaults : OptionsImp) (options_ : option OptionsImp) : OptionsImp :=
  merge_imp (default defaults options_) defaults.

(** ** The threads of a service *)

Inductive Runner := Joinable (id : nat) | Joined (id : nat) | Detached (id : nat).

Record ServiceImp := mkServiceImp {
  options : OptionsImp;
  working : bool;
  io_stopped : bool;     (* io_service::stopped *)
  runners : list Runner;
}.

Definition ServiceImp_init (defaults : OptionsImp) (options_ : option OptionsImp) : ServiceImp :=
  mkServiceImp (service_options_imp defaults options_) false false [].

(** The quantity is an [int8_t], the number of processors an [unsigned]: the result of the
    conditional is unsigned. *)
Definition processor_count (s : ServiceImp) (hardware_concurrency : Z) : Z :=
  let q := thread_quantity (options s) in if q =? 0 then u32 hardware_concurrency else u32 q.

(** [start]; the system numbers its threads from [first] on. The counter of the loop is an [int]. *)
Definition ServiceImp_start (hardware_concurrency : Z) (first : nat) (s : ServiceImp) : option ServiceImp :=
  if working s then Some s
  else
    let n := processor_count s hardware_concurrency in
    if n <? 2 ^ 31 then
      Some (mkServiceImp (options s) true (io_stopped s) (runners s ++ (Joinable <$> seq first (Z.to_nat n))))
    else None.

(** [stop], called by the thread [self]. *)
Definition stop_runner (self : nat) (r : Runner) : Runner :=
  match r with
  | Joinable id => if decide (id = self) then Detached id else Joined id
  | _ => r
  end.

Definition ServiceImp_stop (self : nat) (s : ServiceImp) : ServiceImp :=
  if working s then mkServiceImp (options s) false true (stop_runner self <$> runners s) else s.

(** ** Sockets of the system *)

Inductive Handle :=
  | Closed
  | Opened
  | Bound (local : Endpoint)
  | Connected (local remote : Endpoint).

Definition is_open (h : Handle) : bool := match h with Closed => false | _ => true end.

(** [handle.local_endpoint(ec)]: the default endpoint when there is none. *)
Definition local_endpoint (h : Handle) : Endpoint :=
  match h with Bound l | Connected l _ => l | _ => Endpoint_default end.

Record Send := mkSend { address : Address; packet : Packet }.

Record SocketNative := mkSocketNative {
  handle : Handle;
  queue : list Send;
  isOverlapped : bool;
  remoteEndpoint : Endpoint;
  overlapKey : Address;
}.

Definition SocketNative_init : SocketNative := mkSocketNative Closed [] false Endpoint_default Address_empty.
Definition SocketNative_overlapped (remote : Endpoint) (key : Address) : SocketNative :=
  mkSocketNative Closed [] true remote key.

Definition set_handle (h : Handle) (s : SocketNative) : SocketNative :=
  mkSocketNative h (queue s) (isOverlapped s) (remoteEndpoint s) (overlapKey s).
Definition set_queue (q : list Send) (s : SocketNative) : SocketNative :=
  mkSocketNative (handle s) q (isOverlapped s) (remoteEndpoint s) (overlapKey s).

(** [SendQueue]: the new size of the queue is the result. *)
Definition push_back (t : Send) (s : SocketNative) : SocketNative * nat :=
  (set_queue (queue s ++ [t]) s, S (length (queue s))).
Definition front (s : SocketNative) : option Send := head (queue s).
Definition pop_front (s : SocketNative) : option (SocketNative * nat) :=
  match queue s with [] => None | _ :: q => Some (set_queue q s, length q) end.

(** Where [SocketNative::send] sends to: an overlapped socket is connected. *)
Definition destination (s : SocketNative) (t : Send) : Endpoint :=
  if isOverlapped s then remoteEndpoint s else toEndpoint (address t).

(** The answers of the system: whether a call succeeds; for [bind], the endpoint it chose. *)
Class Os := {
  OsState : Type;
  os_close : OsState → bool * OsState;
  os_open : bool → OsState → bool * OsState;
  os_set_option : OsState → bool * OsState;
  os_bind : Endpoint → OsState → option Endpoint * OsState;
  os_local_endpoint : OsState → bool * OsState;
  os_connect : Endpoint → OsState → bool * OsState;
}.

Abbreviation NativeRef := nat.
Abbreviation ConnRef := nat.

(** A connection's [ConnectionImp], and the remote address of the connection. *)
Record ConnectionImp := mkConnectionImp {
  remoteAddress : Address;
  overlappedSocket : option NativeRef;
}.

(** Operations the system has not completed. The handler of a queued send owns the socket and goes
    on with the queue; that of a direct send owns the packet. *)
Record Sending := mkSending { sn_socket : NativeRef; sn_send : Send; sn_queued : bool }.
Record Receiving := mkReceiving { rv_socket : NativeRef; rv_packet : Packet }.

(** A [SocketImp], what it owns, and what went out ([sent]) and was handed to the socket above
    ([received]). *)
Record SocketImp {os : Os} := mkSocketImp {
  os_state : OsState;
  imp_options : OptionsImp;
  socket : NativeRef;
  natives : gmap NativeRef SocketNative;
  next_native : NativeRef;
  localEndpoint : Endpoint;
  overlappedSockets : gmap Address (option NativeRef);   (* weak pointers *)
  running : bool;
  imps : gmap ConnRef ConnectionImp;
  sending : list Sending;
  receiving : list Receiving;
  sent : list (Send * Endpoint * bytes);
  received : list (Address * Packet);
}.

Section asio.
Context {os : Os}.
Implicit Types (w : SocketImp) (n : NativeRef) (c : ConnRef).
Abbreviation N := (M SocketImp).

Definition set_os (o : OsState) w : SocketImp :=
  mkSocketImp _ o (imp_options w) (socket w) (natives w) (next_native w) (localEndpoint w) (overlappedSockets w)
    (running w) (imps w) (sending w) (receiving w) (sent w) (received w).
Definition set_natives (m : gmap NativeRef SocketNative) w : SocketImp :=
  mkSocketImp _ (os_state w) (imp_options w) (socket w) m (next_native w) (localEndpoint w) (overlappedSockets w)
    (running w) (imps w) (sending w) (receiving w) (sent w) (received w).
Definition set_next (n : NativeRef) w : SocketImp :=
  mkSocketImp _ (os_state w) (imp_options w) (socket w) (natives w) n (localEndpoint w) (overlappedSockets w)
    (running w) (imps w) (sending w) (receiving w) (sent w) (received w).
Definition set_local (e : Endpoint) w : SocketImp :=
  mkSocketImp _ (os_state w) (imp_options w) (socket w) (natives w) (next_native w) e (overlappedSockets w)
    (running w) (imps w) (sending w) (receiving w) (sent w) (received w).
Definition set_overlapped (m : gmap Address (option NativeRef)) w : SocketImp :=
  mkSocketImp _ (os_state w) (imp_options w) (socket w) (natives w) (next_native w) (localEndpoint w) m
    (running w) (imps w) (sending w) (receiving w) (sent w) (received w).
Definition set_running (b : bool) w : SocketImp :=
  mkSocketImp _ (os_state w) (imp_options w) (socket w) (natives w) (next_native w) (localEndpoint w)
    (overlappedSockets w) b (imps w) (sending w) (receiving w) (sent w) (received w).
Definition set_imps (m : gmap ConnRef ConnectionImp) w : SocketImp :=
  mkSocketImp _ (os_state w) (imp_options w) (socket w) (natives w) (next_native w) (localEndpoint w)
    (overlappedSockets w) (running w) m (sending w) (receiving w) (sent w) (received w).
Definition set_sending (l : list Sending) w : SocketImp :=
  mkSocketImp _ (os_state w) (imp_options w) (socket w) (natives w) (next_native w) (localEndpoint w)
    (overlappedSockets w) (running w) (imps w) l (receiving w) (sent w) (received w).
Definition set_receiving (l : list Receiving) w : SocketImp :=
  mkSocketImp _ (os_state w) (imp_options w) (socket w) (natives w) (next_native w) (localEndpoint w)
    (overlappedSockets w) (running w) (imps w) (sending w) l (sent w) (received w).
Definition log_sent (x : Send * Endpoint * bytes) w : SocketImp :=
  mkSocketImp _ (os_state w) (imp_options w) (socket w) (natives w) (next_native w) (localEndpoint w)
    (overlappedSockets w) (running w) (imps w) (sending w) (receiving w) (sent w ++ [x]) (received w).
Definition log_received (x : Address * Packet) w : SocketImp :=
  mkSocketImp _ (os_state w) (imp_options w) (socket w) (natives w) (next_native w) (localEndpoint w)
    (overlappedSockets w) (running w) (imps w) (sending w) (receiving w) (sent w) (received w ++ [x]).

(** A call of the system. *)
Definition sys {A} (f : OsState → A * OsState) : N A := λ w,
  let '(a, o) := f (os_state w) in Some (a, set_os o w).

(** An access to a native socket through a pointer. *)
Definition at_native n : N SocketNative := λ w, s ← natives w !! n; Some (s, w).
Definition put_native n (s : SocketNative) : N unit := modify (λ w, set_natives (<[n := s]> (natives w)) w).
Definition upd_native n (f : SocketNative → SocketNative) : N unit := s ← at_native n; put_native n (f s).
Definition at_imp c : N ConnectionImp := λ w, i ← imps w !! c; Some (i, w).
Definition put_imp c (i : ConnectionImp) : N unit := modify (λ w, set_imps (<[c := i]> (imps w)) w).

(** ** Ownership *)

Definition held w n : Prop :=
  n = socket w ∨ map_Exists (λ _ i, overlappedSocket i = Some n) (imps w) ∨
  Exists (λ x, sn_queued x = true ∧ sn_socket x = n) (sending w).

#[global] Instance held_dec w n : Decision (held w n).
Proof. unfold held. apply _. Defined.

(** [strong(weak)] of an entry of [overlappedSockets] *)
Definition lock_native (r : option NativeRef) w : option NativeRef :=
  n ← r; if decide (is_Some (natives w !! n)) then Some n else None.

Definition releaseOverlappedSocket (key : Address) : N unit :=
  w ← mget;
  match overlappedSockets w !! key with
  | None => mret tt
  | Some r =>
    match lock_native r w with
    | None => modify (λ w, set_overlapped (delete key (overlappedSockets w)) w)
    | Some _ => mret tt
    end
  end.

(** [SocketNative::~SocketNative] *)
Definition destroy n : N unit :=
  s ← at_native n;
  modify (λ w, set_natives (delete n (natives w)) w);;
  when (isOverlapped s) (releaseOverlappedSocket (overlapKey s)).

(** A shared pointer to [n] was given up. *)
Definition drop_ref n : N unit :=
  w ← mget;
  if decide (held w n) then mret tt else destroy n.

(** ** Sending and receiving *)

(** [SocketNative::send]: without an open handle, nothing, and no completion either. *)
Definition native_send n (t : Send) (queued : bool) : N unit :=
  s ← at_native n;
  if is_open (handle s) then
    d ← lift (datagram (packet t));
    modify (λ w, log_sent (t, destination s t, d) (set_sending (sending w ++ [mkSending n t queued]) w))
  else mret tt.

Definition doSend n : N unit :=
  s ← at_native n;
  t ← lift (front s);
  native_send n t true.

Definition sendViaQueue n (addr : Address) (p : Packet) : N unit :=
  s ← at_native n;
  let '(s, size) := push_back (mkSend addr p) s in
  put_native n s;;
  when (size =? 1)%nat (doSend n).

Definition sendDirect n (addr : Address) (p : Packet) : N unit := native_send n (mkSend addr p) false.

(** The completion of the [i]-th send. *)
Definition on_sent (i : nat) : N unit :=
  w ← mget;
  x ← lift (sending w !! i);
  modify (λ w, set_sending (delete i (sending w)) w);;
  if sn_queued x then
    s ← at_native (sn_socket x);
    '(s, size) ← lift (pop_front s);
    put_native (sn_socket x) s;;
    when (0 <? size)%nat (doSend (sn_socket x));;
    drop_ref (sn_socket x)
  else mret tt.

(** [SocketImp::send]: to the given address, or to that of the connection. *)
Definition SocketImp_send (p : Packet) c (address_ : option Address) : N Z :=
  i ← at_imp c;
  w ← mget;
  let target := if (overlapped_io (imp_options w) =? 1) && bool_decide (address_ = None)
                then overlappedSocket i else Some (socket w) in
  match target with
  | None => mret MRUDP_ERROR_GENERAL_FAILURE
  | Some n =>
    let addr := default (remoteAddress i) address_ in
    (if send_via_queue (imp_options w) =? 1 then sendViaQueue n addr p else sendDirect n addr p);;
    mret MRUDP_OK
  end.

(** [SocketNative::receive] and [SocketImp::doReceive] *)
Definition native_receive n (p : Packet) : N unit :=
  s ← at_native n;
  when (is_open (handle s)) (modify (λ w, set_receiving (receiving w ++ [mkReceiving n p]) w)).

Definition doReceive n (p : Packet) : N unit :=
  w ← mget;
  when (running w) (native_receive n p).

Definition handleReceiveFrom (remote : Address) (p : Packet) : N unit := modify (log_received (remote, p)).

(** The completion of the [i]-th receive: an error, or a datagram and where it comes from. *)
Definition on_received (i : nat) (result : option (Endpoint * bytes)) : N unit :=
  w ← mget;
  x ← lift (receiving w !! i);
  modify (λ w, set_receiving (delete i (receiving w)) w);;
  p ← match result with
      | None => mret (rv_packet x)
      | Some (from, d) =>
        let '(p, ok) := receive_into (rv_packet x) d in
        when ok (handleReceiveFrom (toAddr from) p);;
        mret p
      end;
  w ← mget;
  match lock_native (Some (rv_socket x)) w with
  | Some n => doReceive n p
  | None => mret tt
  end.

(** ** Overlapped sockets *)

Definition getLocalAddress : N Address :=
  w ← mget; s ← at_native (socket w); mret (toAddr (local_endpoint (handle s))).

Definition is_v4 (e : Endpoint) : bool := match e with V4 _ _ => true | _ => false end.

(** Open, mark, bind and connect a new overlapped socket; [false] at the first call that fails. *)
Definition open_overlapped n (local remote : Endpoint) : N bool :=
  ok ← sys (os_open (is_v4 local));
  if (ok : bool) then
    upd_native n (set_handle Opened);;
    ok ← sys os_set_option;
    if (ok : bool) then
      bound ← sys (os_bind local);
      match bound with
      | None => mret false
      | Some local =>
        upd_native n (set_handle (Bound local));;
        ok ← sys (os_connect remote);
        if (ok : bool) then upd_native n (set_handle (Connected local remote));; mret true
        else mret false
      end
    else mret false
  else mret false.

(** A socket whose pointer goes out of scope without having been shared is destroyed. *)
Definition getOverlappedSocket (remote : Address) : N (option NativeRef) :=
  w ← mget;
  match lock_native (default None (overlappedSockets w !! remote)) w with
  | Some n => mret (Some n)
  | None =>
    modify (λ w, set_overlapped (<[remote := None]> (overlappedSockets w)) w);;
    local ← getLocalAddress;
    let n := next_native w in
    modify (set_next (S n));;
    put_native n (SocketNative_overlapped (toEndpoint remote) remote);;
    ok ← open_overlapped n (toEndpoint local) (toEndpoint remote);
    if (ok : bool) then
      modify (λ w, set_overlapped (<[remote := Some n]> (overlappedSockets w)) w);;
      doReceive n new_Packet;;
      mret (Some n)
    else destroy n;; mret None
  end.

(** [ConnectionImp] *)
Definition ConnectionImp_open c : N Z :=
  i ← at_imp c;
  w ← mget;
  if overlapped_io (imp_options w) =? 0 then mret MRUDP_OK
  else
    n ← getOverlappedSocket (remoteAddress i);
    put_imp c (mkConnectionImp (remoteAddress i) n);;
    mret (match n with None => MRUDP_ERROR_GENERAL_FAILURE | Some _ => MRUDP_OK end).

Definition reset_ptr (n : option NativeRef) : N unit := match n with None => mret tt | Some n => drop_ref n end.

Definition reacquireOverlappedSocket c : N unit :=
  i ← at_imp c;
  put_imp c (mkConnectionImp (remoteAddress i) None);;
  reset_ptr (overlappedSocket i);;
  w ← mget;
  if overlapped_io (imp_options w) =? 0 then mret tt
  else
    n ← getOverlappedSocket (remoteAddress i);
    put_imp c (mkConnectionImp (remoteAddress i) n).

(** [Connection::onRemoteAddressChanged] *)
Definition onRemoteAddressChanged c (remote : Address) : N unit :=
  i ← at_imp c;
  put_imp c (mkConnectionImp remote (overlappedSocket i));;
  reacquireOverlappedSocket c.

Definition new_ConnectionImp c (remote : Address) : N unit := put_imp c (mkConnectionImp remote None).

(** [~ConnectionImp] *)
Definition delete_ConnectionImp c : N unit :=
  i ← at_imp c;
  modify (λ w, set_imps (delete c (imps w)) w);;
  reset_ptr (overlappedSocket i).

(** ** The socket *)

(** A call that leaves by an exception. *)
Inductive Outcome := Returned | Threw.

Definition insertEndpoint (e : Endpoint) : bool := true.

(** The part of [acquireAddress] for overlapped sockets: a second handle takes over the endpoint.
    [Some] is the end of the whole call. *)
Definition acquire_overlapped (local : Endpoint) : N (option Outcome) :=
  w ← mget;
  let n := socket w in
  upd_native n (set_handle Closed);;   (* temporary = std::move(socket->handle) *)
  ok ← sys (os_open (is_v4 local));
  if (ok : bool) then
    upd_native n (set_handle Opened);;
    ok ← sys os_set_option;
    if (ok : bool) then
      ok ← sys os_close;                (* temporary.close() *)
      if (ok : bool) then
        bound ← sys (os_bind local);
        match bound with
        | None => mret (Some Returned)
        | Some local => upd_native n (set_handle (Bound local));; mret None
        end
      else mret (Some Threw)
    else mret (Some Returned)
  else mret (Some Threw).

(** The loop of [acquireAddress]; the calls without an error argument throw. *)
Fixpoint acquireAddress_loop (fuel : nat) (addr : Address) : N Outcome :=
  match fuel with
  | O => ub
  | S fuel =>
    w ← mget;
    let n := socket w in
    ok ← sys os_close;
    upd_native n (set_handle Closed);;
    if (ok : bool) then
      let endpoint := toEndpoint addr in
      ok ← sys (os_open (is_v4 endpoint));
      if (ok : bool) then
        upd_native n (set_handle Opened);;
        bound ← sys (os_bind endpoint);
        match bound with
        | None => mret Threw
        | Some local =>
          upd_native n (set_handle (Bound local));;
          ok ← sys os_local_endpoint;
          modify (set_local (if (ok : bool) then local else Endpoint_default));;
          if (ok : bool) then
            let acquiredAddress := insertEndpoint local in
            ended ← (if overlapped_io (imp_options w) =? 1 then acquire_overlapped local else mret None);
            match ended with
            | Some o => mret o
            | None => if acquiredAddress then mret Returned else acquireAddress_loop fuel addr
            end
          else mret Returned
        end
      else mret Threw
    else mret Returned
  end.

Definition acquireAddress (addr : Address) : N Outcome := acquireAddress_loop 1 addr.

(** [SocketImp::SocketImp] with the native socket it makes. *)
Definition SocketImp_init (o : OsState) (opts : OptionsImp) : SocketImp :=
  mkSocketImp _ o opts 0%nat {[0%nat := SocketNative_init]} 1%nat Endpoint_default ∅ false ∅ [] [] [] [].

Definition SocketImp_open : N unit :=
  modify (set_running true);;
  w ← mget;
  doReceive (socket w) new_Packet.

(** The results of closing are only logged. *)
Definition overlapped_refs w : list NativeRef :=
  omap (λ x, lock_native x.2 w) (map_to_list (overlappedSockets w)).

Definition close_handles (l : list NativeRef) w : SocketImp :=
  set_natives (foldr (alter (set_handle Closed)) (natives w) l) w.

Definition SocketImp_close : N unit :=
  w ← mget;
  when (running w) (
    modify (set_running false);;
    upd_native (socket w) (set_handle Closed);;
    modify (λ w, close_handles (overlapped_refs w) w)).

(** [eraseEndpoint] does nothing, whether the socket still is or not. *)
Definition eraseEndpoint (e : Endpoint) : N unit := mret tt.
Definition SocketImp_destroy : N unit :=
  SocketImp_close;;
  w ← mget;
  eraseEndpoint (localEndpoint w).

(** [relocate]; [order] is the order in which the unordered map of connections is run through. *)
Definition relocate (addr : Address) (order : list ConnRef) : N Outcome :=
  SocketImp_close;;
  o ← acquireAddress addr;
  match o with
  | Threw => mret Threw
  | Returned =>
    SocketImp_open;;
    mapM_ reacquireOverlappedSocket order;;
    mret Returned
  end.
End asio.
