(* ===== verification/Datagram.v ===== *)
(** * Addresses and datagrams

    Endpoints of the system and addresses of the library stand for each other; packets and the
    datagrams they travel in as well. *)

From S2P Require Import Prelude MemCopy Packet ReceiveQueue Types Asio.

Definition endpoint_wf (e : Endpoint) : Prop :=
  match e with
  | V4 a port => length a = 4%nat ∧ in_u 16 port
  | V6 a _ port => length a = 16%nat ∧ in_u 16 port
  end.

(** What an address keeps of an endpoint. *)
Definition without_scope (e : Endpoint) : Endpoint :=
  match e with V4 a p => V4 a p | V6 a _ p => V6 a 0 p end.

Lemma htons_length p : length (htons p) = 2%nat.
Proof. unfold htons. by rewrite length_rev, le_encode_length. Qed.

Lemma ntohs_htons p : in_u 16 p → ntohs (htons p) = p.
Proof. intros. unfold ntohs, htons. rewrite rev_involutive. by apply (le_decode_encode 2). Qed.

Lemma toAddr_length e : endpoint_wf e → length (toAddr e) = 28%nat.
Proof.
  destruct e as [a p|a s p]; intros [Ha _]; unfold toAddr;
    rewrite !length_app, le_encode_length, htons_length, !length_replicate, Ha; done.
Qed.

(** A field behind others whose lengths add up to its offset. *)
Lemma slice_field {A} o n (l1 l2 l3 : list A) : length l1 = o → length l2 = n → slice o n (l1 ++ l2 ++ l3) = l2.
Proof. intros <- <-. apply slice_app_mid. Qed.

Lemma slice_first {A} n (l1 l2 : list A) : length l1 = n → slice 0 n (l1 ++ l2) = l1.
Proof. intros <-. apply (slice_app_mid [] l1 l2). Qed.

Lemma toEndpoint_toAddr e : endpoint_wf e → toEndpoint (toAddr e) = without_scope e.
Proof.
  destruct e as [a p|a s p]; intros [Ha Hp]; unfold toEndpoint, toAddr; pose proof (htons_length p) as Hh;
    (rewrite slice_first by apply le_encode_length); (rewrite (slice_field 2 2) by (done || apply le_encode_length)); rewrite ntohs_htons by done.
  - change (le_decode (le_encode 2 AF_INET) =? AF_INET) with true. cbv iota. unfold without_scope. f_equal. rewrite app_assoc. apply slice_field; [|done]. rewrite length_app, le_encode_length. lia.
  - change (le_decode (le_encode 2 AF_INET6) =? AF_INET) with false. cbv iota. unfold without_scope. f_equal. rewrite !app_assoc, <-(app_assoc _ a). apply slice_field; [|done].
    rewrite !length_app, le_encode_length, length_replicate. lia.
Qed.

Lemma toAddr_without_scope e : toAddr (without_scope e) = toAddr e.
Proof. by destruct e. Qed.

Lemma toEndpoint_wf a : length a = 28%nat → endpoint_wf (toEndpoint a).
Proof.
  intros Ha. assert (in_u 16 (ntohs (slice 2 2 a))) as Hp.
  { unfold ntohs. replace 16 with (8 * Z.of_nat (length (rev (slice 2 2 a)))); [apply le_decode_range|].
    rewrite length_rev, slice_length by lia. done. }
  unfold toEndpoint. case_match; (split; [apply slice_length; lia|done]).
Qed.

(** ** Headers and images *)

Definition Header_wf (h : Header) : Prop :=
  in_u 8 (h_version h) ∧ in_u 16 (h_connection h) ∧ in_u 8 (h_type h) ∧ in_u 16 (h_id h).

Lemma encode_Header_length h : length (encode_Header h) = 6%nat.
Proof. done. Qed.

Lemma decode_encode_Header h r : Header_wf h → decode_Header (encode_Header h ++ r) = h.
Proof.
  intros (?&?&?&?). destruct h as [v c t i]; simpl in *. unfold decode_Header, encode_Header.
  f_equal; [apply (le_decode_encode 1)|apply (le_decode_encode 2)|apply (le_decode_encode 1)|apply (le_decode_encode 2)]; done.
Qed.

Lemma datagram_eq p : packet_wf p → datagram p = Some (encode_Header (p_header p) ++ payload p).
Proof.
  intros [Hl Hs]. unfold datagram, Packet_image, sizeof_Header.
  rewrite (proj2 (Z.leb_le _ _)) by (rewrite !length_app, encode_Header_length, Hl; lia). f_equal.
  replace (Z.to_nat (p_dataSize p + 6)) with (length (encode_Header (p_header p)) + Z.to_nat (p_dataSize p))%nat
    by (rewrite encode_Header_length; lia).
  rewrite take_app_add. f_equal. unfold payload. rewrite take_app_le; [done|]. rewrite Hl. lia.
Qed.

Lemma receive_into_wf p d : packet_wf p → packet_wf (receive_into p d).1.
Proof.
  intros [Hl Hs]. unfold receive_into. change (Z.to_nat MAX_PACKET_SIZE) with 1500%nat in Hl. rewrite Hl.
  set (x := take (6 + 1500) d). assert (length x ≤ 1506)%nat as Hx by (unfold x; rewrite length_take; lia).
  assert (length (drop 6 (x ++ drop (length x) (encode_Header (p_header p) ++ p_data p))) = 1500%nat) as Hd.
  { rewrite length_drop, length_app, length_drop, length_app, encode_Header_length, Hl. lia. }
  unfold sizeof_Header, MAX_PACKET_SIZE in *. destruct (Z.ltb_spec (Z.of_nat (length x)) 6); split; simpl; try done.
  rewrite wrap_small; unfold in_u, MAX_PACKET_SIZE; lia.
Qed.

Lemma receive_into_datagram buf h d :
  packet_wf buf → Header_wf h → (length d ≤ 1500)%nat →
  ∃ q, receive_into buf (encode_Header h ++ d) = (q, true) ∧ p_header q = h ∧ payload q = d ∧ p_dataSize q = Z.of_nat (length d).
Proof.
  intros [Hl _] Hh Hd. unfold receive_into. change (Z.to_nat MAX_PACKET_SIZE) with 1500%nat in Hl. rewrite Hl.
  rewrite (take_ge (encode_Header h ++ d)) by (rewrite length_app, encode_Header_length; lia).
  rewrite length_app, encode_Header_length. unfold sizeof_Header. rewrite (proj2 (Z.ltb_ge _ _)) by lia.
  eexists. split; [done|]. unfold payload. cbn [p_header p_data p_dataSize]. rewrite <-app_assoc, decode_encode_Header by done.
  replace (Z.of_nat (6 + length d) - 6) with (Z.of_nat (length d)) by lia. rewrite wrap_small by (unfold in_u; lia).
  split_and!; [done| |done]. rewrite (drop_app_length' (encode_Header h)) by done.
  rewrite Nat2Z.id. apply take_app_length.
Qed.

(** ** Packets after a journey *)

(** The same packet for everyone who reads its header and its data: bytes behind the data may differ. *)
#[export] Instance Packet_equiv : Equiv Packet := λ p q,
  p_header p = p_header q ∧ p_dataSize p = p_dataSize q ∧ length (p_data p) = length (p_data q) ∧ payload p = payload q.

#[export] Instance Packet_equivalence : Equivalence (≡@{Packet}).
Proof.
  split.
  - by intros p.
  - intros p q (?&?&?&?). by split_and!.
  - intros p q r (?&?&?&?) (?&?&?&?). split_and!; congruence.
Qed.
#[export] Instance p_header_proper : Proper ((≡) ==> (=)) p_header.
Proof. by intros p q (?&_). Qed.
#[export] Instance payload_proper : Proper ((≡) ==> (=)) payload.
Proof. by intros p q (_&_&_&?). Qed.
#[export] Instance packet_wf_proper : Proper ((≡) ==> iff) packet_wf.
Proof. intros p q (_&Es&El&_). unfold packet_wf. by rewrite Es, El. Qed.
#[export] Instance packet_eqb_proper : Proper ((≡) ==> (≡) ==> (=)) packet_eqb.
Proof. intros p p' (Eh&Es&_&Ep) q q' (Eh'&Es'&_&Ep'). unfold packet_eqb. by rewrite Eh, Es, Ep, Eh', Es', Ep'. Qed.

(** Packets and headers whose fields fit their widths. *)
Definition packet_ok (p : Packet) : Prop := packet_wf p ∧ Header_wf (p_header p).
#[export] Instance packet_ok_proper : Proper ((≡) ==> iff) packet_ok.
Proof. intros p q E. unfold packet_ok. by rewrite E. Qed.

(** Popping reads the data only. *)
Lemma popData_equiv p q n : packet_wf p → 0 ≤ n < 2 ^ 16 → p ≡ q → (popData p n).1 ≡ (popData q n).1 ∧ (popData p n).2 = (popData q n).2.
Proof.
  intros [Hl Hs] Hn E. pose proof E as (Eh&Es&El&Ep). unfold popData. rewrite <-Es.
  destruct (Z.ltb_spec (p_dataSize p) n) as [|Hle]; [by split|]. unfold MAX_PACKET_SIZE in *.
  rewrite (wrap_small 16 n), wrap_small by (unfold in_u; lia). unfold payload in Ep. rewrite <-Es in Ep.
  assert (∀ k m : nat, (k + m ≤ Z.to_nat (p_dataSize p))%nat → slice k m (p_data p) = slice k m (p_data q)) as Hk.
  { intros k m Hkm. unfold slice. rewrite <-(take_drop (Z.to_nat (p_dataSize p)) (p_data p)), <-(take_drop (Z.to_nat (p_dataSize p)) (p_data q)), Ep.
    assert (length (take (Z.to_nat (p_dataSize p)) (p_data q)) = Z.to_nat (p_dataSize p)) as Ht by (rewrite length_take; lia).
    rewrite !drop_app_le, !take_app_le; rewrite ?length_drop; lia || done. }
  split; simpl.
  - split_and!; simpl; [done|done|done|]. unfold payload. simpl. apply (Hk 0%nat). lia.
  - f_equal. apply Hk. lia.
Qed.

Lemma popData_wf p n : 0 ≤ n < 2 ^ 16 → packet_wf p → packet_wf (popData p n).1.
Proof.
  intros Hn [Hl Hs]. unfold popData, packet_wf, MAX_PACKET_SIZE in *.
  destruct (Z.ltb_spec (p_dataSize p) n); [done|]. simpl. rewrite (wrap_small 16 n), wrap_small by (unfold in_u; lia). lia.
Qed.

Lemma popData_ok p n : 0 ≤ n < 2 ^ 16 → packet_ok p → packet_ok (popData p n).1.
Proof. intros Hn [Hp Hh]. split; [by apply popData_wf|by rewrite popData_header]. Qed.

(** [w], handed to the system, is received as [q], into whatever buffer. *)
Definition travels (w q : Packet) : Prop :=
  ∃ d buf, datagram w = Some d ∧ packet_wf buf ∧ receive_into buf d = (q, true).

Lemma decode_Header_wf b : Header_wf (decode_Header b).
Proof.
  assert (∀ o n, in_u (8 * Z.of_nat n) (le_decode (slice o n b))) as Hs.
  { intros o n. pose proof (le_decode_range (slice o n b)) as Hd. unfold in_u in *. split; [apply Hd|].
    eapply Z.lt_le_trans; [apply Hd|]. apply Z.pow_le_mono_r; [lia|]. unfold slice. rewrite length_take. lia. }
  split_and!; apply Hs.
Qed.

(** Whatever arrives, the packet handed on is well formed. *)
Lemma receive_into_ok buf d q : packet_wf buf → receive_into buf d = (q, true) → packet_ok q.
Proof.
  intros Hb E. split.
  - pose proof (receive_into_wf buf d Hb) as Hw. by rewrite E in Hw.
  - revert E. unfold receive_into. destruct (_ <? _); [done|]. intros [= <-]. apply decode_Header_wf.
Qed.

Lemma travels_ok w q : travels w q → packet_ok q.
Proof. intros (d&buf&_&Hb&E). by eapply receive_into_ok. Qed.

Lemma travels_same w q : packet_ok w → travels w q → q ≡ w.
Proof.
  intros [Hw Hh] (d&buf&Ed&Hb&E). rewrite (datagram_eq w Hw) in Ed. apply (inj Some) in Ed. subst d.
  pose proof (payload_length w Hw) as Hl. pose proof Hw as [Hlw Hs]. unfold MAX_PACKET_SIZE in *.
  destruct (receive_into_datagram buf _ (payload w) Hb Hh) as (q'&E'&?&?&?); [lia|]. rewrite E in E'. injection E' as <-.
  pose proof (receive_into_wf buf (encode_Header (p_header w) ++ payload w) Hb) as [Hlq _]. rewrite E in Hlq. simpl in Hlq.
  unfold MAX_PACKET_SIZE in Hlq. split_and!; [done|lia|lia|done].
Qed.

Lemma travels_total w buf : packet_ok w → packet_wf buf → ∃ d q, datagram w = Some d ∧ receive_into buf d = (q, true) ∧ travels w q.
Proof.
  intros [Hw Hh] Hb. pose proof (payload_length w Hw) as Hl. pose proof Hw as [Hlw Hs]. unfold MAX_PACKET_SIZE in *.
  destruct (receive_into_datagram buf _ (payload w) Hb Hh) as (q&E&_); [lia|].
  eexists _, q. split_and!; [by apply datagram_eq|done|]. eexists _, buf. split_and!; [by apply datagram_eq|done|done].
Qed.

(** ** Claims *)

(** C27: addresses stand for endpoints. [toAddr] fills the whole union, [toEndpoint] undoes it but
    for the scope of an address of version 6, which is lost; two endpoints have equal addresses,
    compared byte by byte as the maps of the library do, exactly when they agree but for scopes. *)
Theorem address_endpoint_roundtrip (e e' : Endpoint) :
  endpoint_wf e → endpoint_wf e' →
  Z.of_nat (length (toAddr e)) = sizeof_Address ∧ toEndpoint (toAddr e) = without_scope e ∧
  toAddr (toEndpoint (toAddr e)) = toAddr e ∧
  (Address_eqb (toAddr e) (toAddr e') = true ↔ without_scope e = without_scope e').
Proof.
  intros He He'. rewrite toAddr_length, toEndpoint_toAddr, toAddr_without_scope by done. split_and!; try done. split.
  - unfold Address_eqb. intros ?%Z.eqb_eq%memcmp_0; [|by rewrite !toAddr_length].
    by rewrite <-!toEndpoint_toAddr by done; f_equal.
  - intros E. unfold Address_eqb. by rewrite <-(toAddr_without_scope e), E, toAddr_without_scope, memcmp_refl.
Qed.

Lemma address_endpoint_roundtrip_witness :
  let e := V6 (replicate 16 Byte.x0a) 3 443 in let e' := V6 (replicate 16 Byte.x0a) 4 443 in
  Z.of_nat (length (toAddr e)) = sizeof_Address ∧ toEndpoint (toAddr e) = without_scope e ∧
  toAddr (toEndpoint (toAddr e)) = toAddr e ∧
  (Address_eqb (toAddr e) (toAddr e') = true ↔ without_scope e = without_scope e').
Proof. apply address_endpoint_roundtrip; split; [reflexivity|split; reflexivity || discriminate|reflexivity|split; reflexivity || discriminate]. Defined.

(** C26: packets travel in datagrams. A packet goes out as its header and data and comes in as the
    same packet, whatever the receive buffer held before; and whatever datagram arrives, too long
    or too short, the buffer stays a well-formed packet, which is handed on exactly when the
    datagram has room for a header. *)
Theorem datagram_roundtrip (p buf : Packet) :
  packet_wf p → Header_wf (p_header p) → packet_wf buf →
  (∃ d q, datagram p = Some d ∧ Z.of_nat (length d) = sizeof_Header + p_dataSize p ∧
    receive_into buf d = (q, true) ∧ packet_wf q ∧ packet_eqb q p = true ∧ p_header q = p_header p) ∧
  (∀ d, packet_wf (receive_into buf d).1 ∧ ((receive_into buf d).2 = true ↔ sizeof_Header ≤ Z.of_nat (length d))).
Proof.
  intros Hp Hh Hb. split.
  - pose proof (payload_length p Hp) as Hl. destruct (proj2 Hp) as [Hs1 Hs2]. unfold MAX_PACKET_SIZE in Hs2.
    destruct (receive_into_datagram buf _ (payload p) Hb Hh) as (q&E&Hq&Pq&Sq); [lia|].
    exists (encode_Header (p_header p) ++ payload p), q. rewrite length_app, encode_Header_length. unfold sizeof_Header.
    split_and!; [by apply datagram_eq|lia|done| | |done].
    + pose proof (receive_into_wf buf (encode_Header (p_header p) ++ payload p) Hb) as Hw. by rewrite E in Hw.
    + unfold packet_eqb. rewrite (proj2 (Z.eqb_eq _ _)) by lia. rewrite Hq, Pq. by apply bool_decide_eq_true.
  - intros d. split; [by apply receive_into_wf|]. unfold receive_into, sizeof_Header. rewrite length_take.
    destruct (Z.ltb_spec (Z.of_nat ((6 + length (p_data buf)) `min` length d)) 6); simpl; split; try done; lia.
Qed.

Lemma datagram_roundtrip_witness :
  (∃ d q, datagram (set_type new_Packet H0) = Some d ∧ Z.of_nat (length d) = sizeof_Header + 0 ∧
    receive_into new_Packet d = (q, true) ∧ packet_wf q ∧ packet_eqb q (set_type new_Packet H0) = true ∧
    p_header q = mkHeader MRUDP_VERSION 0 H0 0) ∧
  (∀ d, packet_wf (receive_into new_Packet d).1 ∧ ((receive_into new_Packet d).2 = true ↔ sizeof_Header ≤ Z.of_nat (length d))).
Proof.
  apply (datagram_roundtrip (set_type new_Packet H0) new_Packet).
  - apply set_header_wf, new_Packet_wf.
  - split_and!; split; reflexivity || discriminate.
  - apply new_Packet_wf.
Defined.
