(* ===== verification/Traffic.v ===== *)
(** * What goes through a native layer

    The packets in the queues and on their way are those the layer was asked to send, each to the
    address it was sent to; and the layer has the addresses of the connections it was told of. *)

From S2P Require Import Prelude MemCopy Packet ReceiveQueue Types Asio Datagram.

Section traffic.
Context {os : Os}.
Implicit Types (w : SocketImp) (n : NativeRef) (c : ConnRef).

(** Every send the layer holds or has made satisfies [P]. *)
Definition carried (P : Send → Prop) w : Prop :=
  (∀ n s t, natives w !! n = Some s → t ∈ queue s → P t) ∧ (∀ t e d, (t, e, d) ∈ sent w → P t).

Definition addresses w : gmap ConnRef Address := remoteAddress <$> imps w.

Lemma carried_impl (P Q : Send → Prop) w : (∀ t, P t → Q t) → carried P w → carried Q w.
Proof. intros HPQ [Hq Hs]. split; eauto. Qed.

Lemma carried_init P o opts : carried P (SocketImp_init o opts).
Proof.
  split; [intros n s t Hn Ht|intros t e d Ht; by apply elem_of_nil in Ht].
  simpl in Hn. apply lookup_singleton_Some in Hn as [_ <-]. by apply elem_of_nil in Ht.
Qed.

(** A layer that carries on: nothing new is sent, and the addresses stay. *)
Definition conveys (P : Send → Prop) : relation SocketImp := λ w w',
  (carried P w → carried P w') ∧ addresses w' = addresses w.

#[export] Instance conveys_preorder P : PreOrder (conveys P).
Proof. split; [by intros w|]. intros w1 w2 w3 [H1 E1] [H2 E2]. split; [auto|congruence]. Qed.

(** [m] relates the states it starts and ends in. *)
Definition always {A} (R : relation SocketImp) (m : M SocketImp A) : Prop := ∀ w a w', m w = Some (a, w') → R w w'.

Section rules.
Context (R : relation SocketImp) `{!PreOrder R}.
Lemma always_ret {A} (a : A) : always R (mret a).
Proof. by intros w ? ? [= <- <-]. Qed.
Lemma always_ub {A} : always R (ub (A := A)).
Proof. done. Qed.
Lemma always_bind {A B} (m : M SocketImp A) (f : A → M SocketImp B) :
  always R m → (∀ a, always R (f a)) → always R (m ≫= f).
Proof.
  intros Hm Hf w b w2. unfold mbind, M_bind. destruct (m w) as [[a w1]|] eqn:E; [|done]. intros E2.
  etrans; [by eapply Hm|by eapply Hf].
Qed.
Lemma always_mget : always R mget.
Proof. by intros w ? ? [= <- <-]. Qed.
Lemma always_lift {A} (o : option A) : always R (lift o).
Proof. intros w a w'. unfold lift. destruct o; [|done]. by intros [= <- <-]. Qed.
Lemma always_when (b : bool) m : always R m → always R (when b m).
Proof. destruct b; [done|]. intros _. apply always_ret. Qed.
Lemma always_mapM {X} (f : X → M SocketImp unit) l : (∀ x, always R (f x)) → always R (mapM_ f l).
Proof. intros Hf. induction l as [|x l IH]; simpl; [apply always_ret|]. apply always_bind; [apply Hf|done]. Qed.
Lemma always_at_native n : always R (at_native n).
Proof. intros w a w'. unfold at_native. destruct (natives w !! n); [|done]. by intros [= <- <-]. Qed.
Lemma always_at_imp c : always R (at_imp c).
Proof. intros w a w'. unfold at_imp. destruct (imps w !! c); [|done]. by intros [= <- <-]. Qed.
End rules.

Create HintDb traffic.
Hint Resolve always_ret always_ub always_mget always_lift always_at_native always_at_imp : traffic.

Ltac flow_step :=
  match goal with
  | |- always _ (mbind _ _) => apply (always_bind _); [|intros ?]
  | |- always _ (when _ _) => apply (always_when _)
  | |- always _ (mapM_ _ _) => apply (always_mapM _); intros ?
  | |- always _ (match ?x with _ => _ end) => destruct x
  | |- always _ (if ?x then _ else _) => destruct x
  end.
Ltac flow := repeat (first [solve [eauto with traffic typeclass_instances]|flow_step]); try done.

Section conveying.
Context (P : Send → Prop).

(** What [conveys] depends on. *)
Definition visible w := (natives w, sent w, imps w).

Lemma conveys_modify f : (∀ w, visible (f w) = visible w) → always (conveys P) (modify f).
Proof.
  intros Hf w [] w' [= <-]. specialize (Hf w). unfold visible in Hf. injection Hf as En Es Ei.
  unfold conveys, carried, addresses. by rewrite En, Es, Ei.
Qed.

Lemma conveys_sys {A} (f : OsState → A * OsState) : always (conveys P) (sys f).
Proof. intros w a w'. unfold sys. destruct (f (os_state w)). by intros [= <- <-]. Qed.

(** A socket with a queue that has nothing new. *)
Lemma conveys_put n s' w :
  (carried P w → ∀ t, t ∈ queue s' → P t) → conveys P w (set_natives (<[n := s']> (natives w)) w).
Proof.
  intros Hs'. split; [|done]. intros Hc. specialize (Hs' Hc). destruct Hc as [Hq Hs]. split; [|done].
  intros m s t. simpl. intros [[<- <-]|[_ Hm]]%lookup_insert_Some; [apply Hs'|by apply (Hq m)].
Qed.

Lemma conveys_upd n f : (∀ s, queue (f s) = queue s) → always (conveys P) (upd_native n f).
Proof.
  intros Hf w [] w'. unfold upd_native, mbind, M_bind, at_native. destruct (natives w !! n) as [s|] eqn:En; [|done]. intros [= <-].
  apply conveys_put. intros [Hq _] t. rewrite Hf. by apply (Hq n).
Qed.

Lemma conveys_delete n : always (conveys P) (modify (λ w, set_natives (delete n (natives w)) w)).
Proof. intros w [] w' [= <-]. split; [|done]. intros [Hq Hs]. split; [|done]. intros m s t. simpl. intros [_ Hm]%lookup_delete_Some. by apply (Hq m). Qed.

Lemma conveys_put_imp c i w :
  remoteAddress <$> imps w !! c = Some (remoteAddress i) → conveys P w (set_imps (<[c := i]> (imps w)) w).
Proof.
  intros E. split; [by intros []|]. unfold addresses. simpl. rewrite fmap_insert. apply insert_id. by rewrite lookup_fmap, E.
Qed.
#[local] Hint Resolve conveys_sys : traffic.
#[local] Hint Extern 1 (always (conveys P) (modify _)) => (by apply conveys_modify) : traffic.
#[local] Hint Extern 1 (always (conveys P) (upd_native _ (set_handle _))) => (by apply conveys_upd) : traffic.

Lemma conveys_destroy n : always (conveys P) (destroy n).
Proof. unfold destroy, releaseOverlappedSocket. flow. apply conveys_delete. Qed.
#[local] Hint Resolve conveys_destroy : traffic.
Lemma conveys_drop_ref n : always (conveys P) (drop_ref n).
Proof. unfold drop_ref. flow. Qed.
#[local] Hint Resolve conveys_drop_ref : traffic.
Lemma conveys_doReceive n p : always (conveys P) (doReceive n p).
Proof. unfold doReceive, native_receive. flow. Qed.
#[local] Hint Resolve conveys_doReceive : traffic.

(** *** Sending *)

Lemma conveys_native_send n t q w a w' :
  (carried P w → P t) → native_send n t q w = Some (a, w') → conveys P w w'.
Proof.
  intros Ht. unfold native_send, mbind, M_bind, at_native, lift, modify. destruct (natives w !! n) as [s|]; [|done]. simpl.
  destruct (is_open _); [|by intros [= _ <-]]. destruct (datagram _) as [d|]; [|done]. simpl. intros [= _ <-]. split; [|done].
  intros Hc. specialize (Ht Hc). destruct Hc as [Hq Hs]. split; [done|].
  simpl. intros u e x [Hu|[= -> _ _]%list_elem_of_singleton]%elem_of_app; [by eapply Hs|done].
Qed.

Lemma conveys_doSend n : always (conveys P) (doSend n).
Proof.
  intros w a w'. unfold doSend, mbind, M_bind, at_native, lift, front. destruct (natives w !! n) as [s|] eqn:En; [|done]. simpl.
  destruct (queue s) as [|t l] eqn:Eq; [done|]. simpl. apply conveys_native_send. intros [Hq _]. apply (Hq n s); [done|].
  rewrite Eq. by left.
Qed.
#[local] Hint Resolve conveys_doSend : traffic.

Lemma conveys_sendViaQueue n addr p : P (mkSend addr p) → always (conveys P) (sendViaQueue n addr p).
Proof.
  intros Ht w a w'. unfold sendViaQueue. unfold mbind at 1, M_bind at 1, at_native. destruct (natives w !! n) as [s|] eqn:En; [|done]. simpl.
  unfold mbind, M_bind. cbn. intros E. etrans; [|eapply (always_when (conveys P)); [apply conveys_doSend|exact E]].
  apply conveys_put. intros [Hq _] t. simpl. intros [?| ->%list_elem_of_singleton]%elem_of_app; [by apply (Hq n s)|done].
Qed.

Lemma conveys_on_sent i : always (conveys P) (on_sent i).
Proof.
  unfold on_sent. apply (always_bind _); [flow|]. intros w0. apply (always_bind _); [flow|]. intros x.
  apply (always_bind _); [flow|]. intros _. destruct (sn_queued x); [|flow]. set (n := sn_socket x).
  intros w a w'. unfold mbind at 1, M_bind at 1, at_native. destruct (natives w !! n) as [s|] eqn:En; [|done]. simpl.
  unfold pop_front. destruct (queue s) as [|t l] eqn:Eq; [done|]. unfold mbind at 1, M_bind at 1. cbn [lift fmap option_fmap option_map].
  unfold mbind at 1, M_bind at 1, put_native, modify. intros E.
  etrans; [|refine (always_bind (conveys P) _ _ _ _ _ _ _ E); [apply (always_when _), conveys_doSend|intros ?; apply conveys_drop_ref]].
  apply conveys_put. intros [Hq _] u Hu. apply (Hq n s); [done|]. rewrite Eq. by right.
Qed.

(** *** Overlapped sockets *)

Lemma conveys_getOverlappedSocket remote : always (conveys P) (getOverlappedSocket remote).
Proof.
  unfold getOverlappedSocket, open_overlapped, getLocalAddress. flow.
  intros w [] w' [= <-]. apply conveys_put. intros _ t Ht. by apply elem_of_nil in Ht.
Qed.

(** The imp of [c] gets another socket for the same address. *)
Lemma conveys_acquire {A} c (i : ConnectionImp) (m : M SocketImp A) (f : A → option NativeRef) w a w' :
  addresses w !! c = Some (remoteAddress i) → always (conveys P) m →
  (x ← m; put_imp c (mkConnectionImp (remoteAddress i) (f x))) w = Some (a, w') → conveys P w w'.
Proof.
  intros Hc Hm. unfold mbind, M_bind. destruct (m w) as [[x w1]|] eqn:E1; [|done]. intros [= _ <-].
  apply Hm in E1. etrans; [exact E1|]. apply conveys_put_imp. destruct E1 as [_ E1]. unfold addresses in *.
  by rewrite <-lookup_fmap, E1.
Qed.

Lemma conveys_reset_ptr r : always (conveys P) (reset_ptr r).
Proof. unfold reset_ptr. flow. Qed.

Lemma conveys_reacquire c : always (conveys P) (reacquireOverlappedSocket c).
Proof.
  intros w a w'. unfold reacquireOverlappedSocket. unfold mbind at 1, M_bind at 1, at_imp. destruct (imps w !! c) as [i|] eqn:Ec; [|done]. simpl.
  assert (addresses w !! c = Some (remoteAddress i)) as Ha by (unfold addresses; by rewrite lookup_fmap, Ec).
  unfold mbind at 1, M_bind at 1, put_imp, modify. set (w1 := set_imps _ w).
  assert (conveys P w w1) as H1 by (apply conveys_put_imp; by rewrite Ec). intros E. etrans; [exact H1|].
  unfold mbind at 1, M_bind at 1 in E. destruct (reset_ptr _ w1) as [[[] w2]|] eqn:E2; [|done].
  apply conveys_reset_ptr in E2. etrans; [exact E2|]. unfold mbind at 1, M_bind at 1, mget in E. simpl in E.
  destruct (_ =? 0); [by injection E as _ <-|]. eapply (conveys_acquire c i _ Datatypes.id); [|apply conveys_getOverlappedSocket|exact E].
  destruct E2 as [_ ->], H1 as [_ ->]. done.
Qed.
#[local] Hint Resolve conveys_reacquire conveys_getOverlappedSocket : traffic.

Lemma conveys_open c : always (conveys P) (ConnectionImp_open c).
Proof.
  intros w a w'. unfold ConnectionImp_open. unfold mbind at 1, M_bind at 1, at_imp. destruct (imps w !! c) as [i|] eqn:Ec; [|done]. simpl.
  assert (addresses w !! c = Some (remoteAddress i)) as Ha by (unfold addresses; by rewrite lookup_fmap, Ec).
  unfold mbind at 1, M_bind at 1, mget. destruct (_ =? 0); [by intros [= _ <-]|]. unfold mbind at 1, M_bind at 1.
  destruct (getOverlappedSocket _ w) as [[n w1]|] eqn:E1; [|done]. unfold mbind, M_bind. intros [= _ <-].
  apply (conveys_acquire c i (getOverlappedSocket (remoteAddress i)) Datatypes.id w tt); [done|apply conveys_getOverlappedSocket|].
  unfold mbind, M_bind. by rewrite E1.
Qed.

(** *** The socket *)

Lemma conveys_acquireAddress addr : always (conveys P) (acquireAddress addr).
Proof. unfold acquireAddress. cbn [acquireAddress_loop]. unfold acquire_overlapped. flow. Qed.

Lemma conveys_SocketImp_open : always (conveys P) SocketImp_open.
Proof. unfold SocketImp_open. flow. Qed.

Lemma conveys_SocketImp_close : always (conveys P) SocketImp_close.
Proof.
  unfold SocketImp_close. flow. intros w [] w' [= <-]. split; [|done]. intros [Hq Hs]. split; [|done]. unfold close_handles. simpl.
  generalize (overlapped_refs w). intros l. induction l as [|m l IH]; simpl; [exact Hq|].
  intros n s t. rewrite lookup_alter_Some. intros [(<-&u&Hu&->)|[_ Hn]]; [simpl; by apply (IH m)|by apply (IH n)].
Qed.
Lemma conveys_SocketImp_destroy : always (conveys P) SocketImp_destroy.
Proof.
  unfold SocketImp_destroy. apply (always_bind _); [apply conveys_SocketImp_close|]. intros _.
  apply (always_bind _); [apply (always_mget _)|]. intros w. apply (always_ret _).
Qed.

Lemma conveys_relocate addr order : always (conveys P) (relocate addr order).
Proof.
  unfold relocate. apply (always_bind _); [apply conveys_SocketImp_close|]. intros _.
  apply (always_bind _); [apply conveys_acquireAddress|]. intros [|]; [|flow].
  apply (always_bind _); [apply conveys_SocketImp_open|]. intros _. flow.
Qed.

(** What is asked for goes to the given address, or to that of the connection. *)
Lemma conveys_SocketImp_send p c to w a w' :
  (∀ i, imps w !! c = Some i → P (mkSend (default (remoteAddress i) to) p)) →
  SocketImp_send p c to w = Some (a, w') → conveys P w w'.
Proof.
  intros HP. unfold SocketImp_send. unfold mbind at 1, M_bind at 1, at_imp. destruct (imps w !! c) as [i|] eqn:Ec; [|done]. simpl.
  specialize (HP i eq_refl). unfold mbind at 1, M_bind at 1, mget. destruct (if _ && _ then _ else _) as [n|]; [|by intros [= _ <-]].
  unfold mbind, M_bind. destruct (send_via_queue _ =? 1).
  - destruct (sendViaQueue _ _ _ w) as [[[] w1]|] eqn:E; [|done]. intros [= _ <-]. by eapply conveys_sendViaQueue.
  - unfold sendDirect. destruct (native_send _ _ _ w) as [[[] w1]|] eqn:E; [|done]. intros [= _ <-]. by eapply conveys_native_send.
Qed.

(** *** Connections come, move and go *)

Lemma told c remote w a w' :
  onRemoteAddressChanged c remote w = Some (a, w') →
  (carried P w → carried P w') ∧ addresses w' = <[c := remote]> (addresses w).
Proof.
  unfold onRemoteAddressChanged. unfold mbind at 1, M_bind at 1, at_imp. destruct (imps w !! c) as [i|] eqn:Ec; [|done]. simpl.
  unfold mbind at 1, M_bind at 1, put_imp, modify. intros E%conveys_reacquire. destruct E as [E1 E2]. split; [done|].
  rewrite E2. unfold addresses. simpl. by rewrite fmap_insert.
Qed.

Lemma made_known c remote w a w' :
  (new_ConnectionImp c remote;; ConnectionImp_open c) w = Some (a, w') →
  (carried P w → carried P w') ∧ addresses w' = <[c := remote]> (addresses w).
Proof.
  unfold mbind, M_bind, new_ConnectionImp, put_imp, modify. intros [E1 E2]%conveys_open. split; [done|].
  rewrite E2. unfold addresses. simpl. by rewrite fmap_insert.
Qed.

Lemma forgotten c w a w' :
  delete_ConnectionImp c w = Some (a, w') → (carried P w → carried P w') ∧ addresses w' = delete c (addresses w).
Proof.
  unfold delete_ConnectionImp. unfold mbind at 1, M_bind at 1, at_imp. destruct (imps w !! c) as [i|] eqn:Ec; [|done]. simpl.
  unfold mbind, M_bind, modify. intros [E1 E2]%conveys_reset_ptr. split; [done|].
  rewrite E2. unfold addresses. simpl. by rewrite fmap_delete.
Qed.
End conveying.
End traffic.
