(* ===== verification/Overlapped.v ===== *)
(** * The sockets of a native layer

    The invariant of [SocketImp]: one live socket per remote address, known to the map and owned by
    somebody, and what is sent goes where it was meant to go. Every operation keeps it. *)

From S2P Require Import Prelude MemCopy Packet ReceiveQueue Types Asio Datagram.

Section overlapped.
Context {os : Os}.
Implicit Types (w : SocketImp) (n : NativeRef) (c : ConnRef) (s : SocketNative) (L : NativeRef → Prop).

Definition queued_sockets (l : list Sending) : list NativeRef := sn_socket <$> filter (λ x, sn_queued x = true) l.

(** [L] are sockets whose pointer is on its way to its owner or was just given up. *)
Record native_inv L w : Prop := {
  ni_main : ∃ s, natives w !! socket w = Some s ∧ isOverlapped s = false;
  ni_next : ∀ n, is_Some (natives w !! n) → (n < next_native w)%nat;
  ni_overlapped : ∀ n s, natives w !! n = Some s → n ≠ socket w →
    isOverlapped s = true ∧ (held w n ∨ L n) ∧ overlappedSockets w !! overlapKey s = Some (Some n) ∧
    remoteEndpoint s = toEndpoint (overlapKey s) ∧ Forall (λ t, address t = overlapKey s) (queue s);
  ni_entry : ∀ k r, overlappedSockets w !! k = Some r →
    ∃ n s, r = Some n ∧ natives w !! n = Some s ∧ n ≠ socket w ∧ overlapKey s = k;
  ni_imps : ∀ c i n, imps w !! c = Some i → overlappedSocket i = Some n →
    n ≠ socket w ∧ ∃ s, natives w !! n = Some s ∧ overlapKey s = remoteAddress i;
  ni_sending : ∀ x, x ∈ sending w → sn_queued x = true →
    ∃ s, natives w !! sn_socket x = Some s ∧ front s = Some (sn_send x);
  ni_one : NoDup (queued_sockets (sending w));
  ni_packets : ∀ n s t, natives w !! n = Some s → t ∈ queue s → packet_wf (packet t);
  ni_sent : ∀ t e d, (t, e, d) ∈ sent w → e = toEndpoint (address t) ∧ datagram (packet t) = Some d;
  ni_receiving : ∀ x, x ∈ receiving w → packet_wf (rv_packet x);
  ni_received : ∀ a p, (a, p) ∈ received w → packet_wf p ∧ length a = 28%nat;
}.

Definition none : NativeRef → Prop := λ _, False.

Lemma elem_of_queued n l : n ∈ queued_sockets l ↔ ∃ x, x ∈ l ∧ sn_queued x = true ∧ sn_socket x = n.
Proof. unfold queued_sockets. rewrite list_elem_of_fmap. setoid_rewrite list_elem_of_filter. naive_solver. Qed.

Lemma held_queued w n : n ∈ queued_sockets (sending w) → held w n.
Proof. intros (x&Hx&Hq)%elem_of_queued. right; right. apply list_relations.list.Exists_exists. by exists x. Qed.

(** ** What keeps the invariant *)

Lemma inv_weaken L L' w : native_inv L w → (∀ n, L n → held w n ∨ L' n) → native_inv L' w.
Proof. intros [? ? Ho ? ? ? ? ? ? ? ?] HL. split; try done. intros n s Hn Hs. destruct (Ho n s Hn Hs) as (?&[?|?]&?&?&?); naive_solver. Qed.

Lemma inv_set_os L w o : native_inv L w → native_inv L (set_os o w).
Proof. intros []; by split. Qed.
Lemma inv_set_local L w e : native_inv L w → native_inv L (set_local e w).
Proof. intros []; by split. Qed.
Lemma inv_set_running L w b : native_inv L w → native_inv L (set_running b w).
Proof. intros []; by split. Qed.

Lemma inv_receiving L w l :
  native_inv L w → (∀ x, x ∈ l → packet_wf (rv_packet x)) → native_inv L (set_receiving l w).
Proof. intros []; by split. Qed.

Lemma inv_received L w a p : native_inv L w → packet_wf p → length a = 28%nat → native_inv L (log_received (a, p) w).
Proof.
  intros [] Hp Ha; split; try done. simpl. intros b q [H|[= -> ->]%list_elem_of_singleton]%elem_of_app; auto.
Qed.

(** A native socket changes but for what makes it an overlapped one. *)
Lemma inv_native L w n s s' :
  native_inv L w → natives w !! n = Some s →
  isOverlapped s' = isOverlapped s → remoteEndpoint s' = remoteEndpoint s → overlapKey s' = overlapKey s →
  (n ≠ socket w → Forall (λ t, address t = overlapKey s) (queue s')) →
  (∀ t, t ∈ queue s' → packet_wf (packet t)) →
  (∀ x, x ∈ sending w → sn_queued x = true → sn_socket x = n → front s' = Some (sn_send x)) →
  native_inv L (set_natives (<[n := s']> (natives w)) w).
Proof.
  intros [(s0&Hm&Hm') Hn Ho He Hi Hs H1 Hp Hsent Hr Hrd] Hns E1 E2 E3 Hq Hpk Hf. split; simpl; try done.
  - destruct (decide (n = socket w)) as [->|]; [|by rewrite lookup_insert_ne; eauto].
    exists s'. rewrite lookup_insert_eq. rewrite Hm in Hns. injection Hns as ->. by rewrite E1.
  - intros m. destruct (decide (m = n)) as [->|]; [|by rewrite lookup_insert_ne by done; auto]. intros _. apply Hn. by eexists.
  - intros m t. destruct (decide (m = n)) as [->|]; [|rewrite lookup_insert_ne by done; apply Ho].
    rewrite lookup_insert_eq. intros [= <-] Hne. destruct (Ho n s Hns Hne) as (?&?&?&?&_). rewrite E1, E2, E3. split_and!; auto.
  - intros k r Hk. destruct (He k r Hk) as (m&t&->&Hmt&Hne&Hkey). destruct (decide (m = n)) as [->|].
    + exists n, s'. rewrite lookup_insert_eq, E3. split_and!; [done|done|done|congruence].
    + exists m, t. by rewrite lookup_insert_ne by done.
  - intros c i m Hc Hm2. destruct (Hi c i m Hc Hm2) as (Hne&t&Ht&Hk). split; [done|]. destruct (decide (m = n)) as [->|].
    + exists s'. rewrite lookup_insert_eq, E3. split; [done|congruence].
    + exists t. by rewrite lookup_insert_ne by done.
  - intros x Hx Hxq. destruct (Hs x Hx Hxq) as (t&Ht&Hft). destruct (decide (sn_socket x = n)) as [E|].
    + exists s'. rewrite E, lookup_insert_eq. auto.
    + exists t. by rewrite lookup_insert_ne by done.
  - intros m t u. destruct (decide (m = n)) as [->|]; [|rewrite lookup_insert_ne by done; apply Hp].
    rewrite lookup_insert_eq. intros [= <-]. apply Hpk.
Qed.

Lemma inv_handle L w n s h : native_inv L w → natives w !! n = Some s →
  native_inv L (set_natives (<[n := set_handle h s]> (natives w)) w).
Proof.
  intros Hi Hs. pose proof Hi as [_ _ Ho _ _ Hsn _ Hp _ _ _]. eapply inv_native; try done.
  - intros Hn. apply (Ho n s Hs Hn).
  - intros t. simpl. by apply (Hp n s).
  - intros x Hx Hq <-. destruct (Hsn x Hx Hq) as (t&Ht&Hf). rewrite Hs in Ht. by injection Ht as <-.
Qed.

(** Pointers of connections change. *)
Definition points n (m : gmap ConnRef ConnectionImp) : Prop := map_Exists (λ _ i, overlappedSocket i = Some n) m.

Lemma inv_imps L L' w m :
  native_inv L w →
  (∀ c i n, m !! c = Some i → overlappedSocket i = Some n →
    n ≠ socket w ∧ ∃ s, natives w !! n = Some s ∧ overlapKey s = remoteAddress i) →
  (∀ n, L n ∨ points n (imps w) → points n m ∨ L' n) →
  native_inv L' (set_imps m w).
Proof.
  intros [Hm Hn Ho He Hi Hs H1 Hp Hsent Hr Hrd] Hi' HL. split; simpl; try done.
  intros n s Hs' Hne. destruct (Ho n s Hs' Hne) as (?&Hh&?&?&?). split_and!; try done.
  destruct Hh as [[Hh|[Hh|Hh]]|Hh]; [by left; left| |by left; right; right|].
  - destruct (HL n (or_intror Hh)); [by left; right; left|by right].
  - destruct (HL n (or_introl Hh)); [by left; right; left|by right].
Qed.

Lemma inv_imp L L' w c i :
  native_inv L w →
  (∀ n, overlappedSocket i = Some n → n ≠ socket w ∧ ∃ s, natives w !! n = Some s ∧ overlapKey s = remoteAddress i) →
  (∀ n, L n → overlappedSocket i = Some n ∨ L' n) →
  (∀ j n, imps w !! c = Some j → overlappedSocket j = Some n → overlappedSocket i = Some n ∨ L' n) →
  native_inv L' (set_imps (<[c := i]> (imps w)) w).
Proof.
  intros Hi Hi' HL Hold. eapply inv_imps; [done|..].
  - intros d j n. destruct (decide (d = c)) as [->|]; [|rewrite lookup_insert_ne by done; apply Hi].
    rewrite lookup_insert_eq. intros [= <-]. apply Hi'.
  - assert (∀ n, overlappedSocket i = Some n → points n (<[c:=i]> (imps w))) as Hnew.
    { intros n E. exists c, i. by rewrite lookup_insert_eq. }
    intros n [Hn|(d&j&Hd&Hj)]; [destruct (HL n Hn); auto|].
    destruct (decide (d = c)) as [->|]; [destruct (Hold j n Hd Hj); auto|].
    left. exists d, j. by rewrite lookup_insert_ne by done.
Qed.

(** A send begins: of the front of the queue, when the handler is to go on with the queue. *)
Lemma inv_send L w n s t q d :
  native_inv L w → natives w !! n = Some s → datagram (packet t) = Some d →
  (n ≠ socket w → address t = overlapKey s) →
  (q = true → front s = Some t ∧ n ∉ queued_sockets (sending w)) →
  native_inv L (log_sent (t, destination s t, d) (set_sending (sending w ++ [mkSending n t q]) w)).
Proof.
  intros [(s0&Hm&Hm') Hn Ho He Hi Hs H1 Hp Hsent Hr Hrd] Hns Hd Ha Hq. split; simpl; try done; [by exists s0|..].
  - intros m u Hu Hne. destruct (Ho m u Hu Hne) as (?&Hh&?&?&?). split_and!; try done. destruct Hh as [[?|[?|Hh]]|?]; [by left; left|by left; right; left| |by right].
    left. right; right. simpl. apply list_relations.list.Exists_app. by left.
  - intros x [Hx| ->%list_elem_of_singleton]%elem_of_app; [by apply Hs|]. simpl. intros E. exists s. split; [done|by apply Hq].
  - unfold queued_sockets in *. rewrite list.filter_app, fmap_app. destruct q; simpl; [|by rewrite app_nil_r].
    apply list.NoDup_app. split_and!; [done| |apply NoDup_singleton].
    intros m Hm2 ->%list_elem_of_singleton. by apply (proj2 (Hq eq_refl)).
  - intros u e b [Hu|[= -> -> ->]%list_elem_of_singleton]%elem_of_app; [by apply Hsent|]. split; [|done]. unfold destination.
    destruct (decide (n = socket w)) as [->|Hne].
    + rewrite Hm in Hns. injection Hns as ->. by rewrite Hm'.
    + destruct (Ho n s Hns Hne) as (E1&_&_&E2&_). by rewrite E1, E2, Ha.
Qed.

(** A send has ended; the handler still holds its socket. *)
Lemma inv_sent w i x :
  native_inv none w → sending w !! i = Some x →
  native_inv (λ m, sn_queued x = true ∧ m = sn_socket x) (set_sending (delete i (sending w)) w) ∧
  (sn_queued x = true → sn_socket x ∉ queued_sockets (delete i (sending w))).
Proof.
  intros [Hm Hn Ho He Hi Hs H1 Hp Hsent Hr Hrd] Hx.
  apply list_elem_of_split_length in Hx as (l1&l2&E&->). rewrite E, delete_middle. rewrite E in Hs, H1.
  unfold queued_sockets in *. rewrite list.filter_app, fmap_app in H1. split.
  - split; simpl; try done.
    + intros n s Hns Hne. destruct (Ho n s Hns Hne) as (?&Hh&?&?&?). split_and!; try done.
      destruct Hh as [[?|[?|Hh]]|[]]; [by left; left|by left; right; left|]. rewrite E in Hh.
      apply list_relations.list.Exists_app in Hh as [Hh|Hh]; [by left; right; right; apply list_relations.list.Exists_app; left|].
      apply Exists_cons in Hh as [[Hq <-]|Hh]; [by right|by left; right; right; apply list_relations.list.Exists_app; right].
    + intros y Hy. apply Hs. apply elem_of_app in Hy as [|]; apply elem_of_app; [by left|by right; right].
    + unfold queued_sockets. rewrite list.filter_app, fmap_app. destruct (decide (sn_queued x = true)); [rewrite filter_cons_True in H1 by done|by rewrite filter_cons_False in H1 by done].
      simpl in H1. apply list.NoDup_app in H1 as (?&Hd&?%NoDup_cons_1_2). apply list.NoDup_app. split_and!; [done| |done].
      intros y Hy Hy2. apply (Hd y Hy). by right.
  - intros Hq. rewrite filter_cons_True in H1 by done. simpl in H1. apply list.NoDup_app in H1 as (_&Hd&Hd2).
    rewrite list.filter_app, fmap_app. intros [Hy|Hy]%elem_of_app; [by apply (Hd _ Hy); left|].
    by apply NoDup_cons_1_1 in Hd2.
Qed.

(** ** Steps *)

Lemma wp_at_native n s w Q : natives w !! n = Some s → Q s w → wp (at_native n) Q w.
Proof. intros E HQ. unfold wp, at_native. by rewrite E. Qed.

Lemma wp_upd_native n f s w Q :
  natives w !! n = Some s → Q tt (set_natives (<[n := f s]> (natives w)) w) → wp (upd_native n f) Q w.
Proof. intros E HQ. unfold upd_native. apply wp_bind. by eapply wp_at_native. Qed.

Lemma wp_sys {A} (f : OsState → A * OsState) w (Q : A → SocketImp → Prop) : (∀ a o, Q a (set_os o w)) → wp (sys f) Q w.
Proof. intros HQ. unfold wp, sys. destruct (f (os_state w)). apply HQ. Qed.

Lemma wp_at_imp c i w Q : imps w !! c = Some i → Q i w → wp (at_imp c) Q w.
Proof. intros E HQ. unfold wp, at_imp. by rewrite E. Qed.

(** What operations on packets leave alone. *)
Definition same_sockets w w' : Prop :=
  natives w' = natives w ∧ imps w' = imps w ∧ socket w' = socket w ∧ overlappedSockets w' = overlappedSockets w.

Lemma native_send_wp L n s t q w :
  native_inv L w → natives w !! n = Some s → packet_wf (packet t) →
  (n ≠ socket w → address t = overlapKey s) →
  (q = true → front s = Some t ∧ n ∉ queued_sockets (sending w)) →
  wp (native_send n t q) (λ _ w', native_inv L w' ∧ same_sockets w w') w.
Proof.
  intros Hi Hs Hp Ha Hq. unfold native_send. apply wp_bind. eapply wp_at_native; [done|].
  destruct (is_open (handle s)); [|by apply wp_ret]. apply wp_bind. eapply wp_lift; [by apply datagram_eq|].
  apply wp_modify. split; [|done]. apply inv_send; try done. by apply datagram_eq.
Qed.

Lemma doSend_wp L n s w :
  native_inv L w → natives w !! n = Some s → queue s ≠ [] → n ∉ queued_sockets (sending w) →
  wp (doSend n) (λ _ w', native_inv L w' ∧ same_sockets w w') w.
Proof.
  intros Hi Hs Hq Hn. unfold doSend. apply wp_bind. eapply wp_at_native; [done|]. destruct (queue s) as [|t l] eqn:E; [done|].
  apply wp_bind. eapply wp_lift; [unfold front; by rewrite E|]. pose proof Hi as [_ _ Ho _ _ _ _ Hp _ _ _].
  eapply native_send_wp; [done|done| | |].
  - apply (Hp n s); [done|]. rewrite E. by left.
  - intros Hne. destruct (Ho n s Hs Hne) as (_&_&_&_&Hall). rewrite E in Hall. by apply Forall_cons_1 in Hall as [? _].
  - intros _. unfold front. by rewrite E.
Qed.

Lemma sendViaQueue_wp L n s addr p w :
  native_inv L w → natives w !! n = Some s → packet_wf p → (n ≠ socket w → addr = overlapKey s) →
  wp (sendViaQueue n addr p) (λ _ w', native_inv L w' ∧ imps w' = imps w ∧ socket w' = socket w) w.
Proof.
  intros Hi Hs Hp Ha. unfold sendViaQueue. apply wp_bind. eapply wp_at_native; [done|]. unfold push_back. cbv beta iota.
  apply wp_bind. unfold put_native. apply wp_modify. set (s' := set_queue (queue s ++ [mkSend addr p]) s).
  pose proof Hi as [_ _ Ho _ _ Hsn _ Hpk _ _ _].
  assert (native_inv L (set_natives (<[n:=s']> (natives w)) w)) as Hi'.
  { eapply inv_native; try done.
    - intros Hne. destruct (Ho n s Hs Hne) as (_&_&_&_&Hall). apply Forall_app. split; [done|]. by apply Forall_singleton, Ha.
    - intros t. simpl. intros [Ht| ->%list_elem_of_singleton]%elem_of_app; [by apply (Hpk n s)|done].
    - intros x Hx Hq <-. destruct (Hsn x Hx Hq) as (u&Hu&Hf). rewrite Hs in Hu. injection Hu as <-.
      unfold front in *. simpl. by destruct (queue s). }
  apply wp_when; [|done]. intros E1%Nat.eqb_eq. assert (queue s = []) as Eq by (destruct (queue s); [done|simpl in E1; lia]).
  eapply wp_mono; [eapply (doSend_wp L n s'); [done|apply lookup_insert_eq| |]|].
  - by destruct (queue s).
  - intros (x&Hx&Hxq&<-)%elem_of_queued. destruct (Hsn x Hx Hxq) as (u&Hu&Hf). rewrite Hs in Hu. injection Hu as <-.
    unfold front in Hf. by rewrite Eq in Hf.
  - intros [] w' (?&_&?&?&_). done.
Qed.

(** The last pointer to a socket is gone: the socket is closed and its entry erased. *)
Lemma inv_destroyed n s w :
  native_inv (λ m, m = n) w → natives w !! n = Some s → ¬ held w n →
  native_inv none (set_overlapped (delete (overlapKey s) (overlappedSockets w)) (set_natives (delete n (natives w)) w)).
Proof.
  intros [(s0&Hm&Hm') Hn Ho He Hi Hs H1 Hp Hsent Hr Hrd] Hns Hh. assert (n ≠ socket w) as Hne by (intros ->; apply Hh; by left).
  split; simpl; try done.
  - exists s0. by rewrite lookup_delete_ne.
  - intros m [u Hu]. apply lookup_delete_Some in Hu as [_ Hu]. apply Hn. by eexists.
  - intros m u [Hmn Hu]%lookup_delete_Some Hms. destruct (Ho m u Hu Hms) as (?&Hh'&Hent&?&?). split_and!; try done.
    + left. by destruct Hh' as [|<-].
    + rewrite lookup_delete_ne; [done|]. intros Ek. rewrite <-Ek in Hent.
      destruct (Ho n s Hns Hne) as (_&_&Hent'&_). rewrite Hent in Hent'. by injection Hent'.
  - intros k r [Hk Hr']%lookup_delete_Some. destruct (He k r Hr') as (m&u&->&Hu&Hms&Hku). exists m, u. split_and!; try done.
    apply lookup_delete_Some. split; [|done]. intros <-. rewrite Hns in Hu. injection Hu as <-. done.
  - intros c i m Hc Hm2. destruct (Hi c i m Hc Hm2) as (Hms&u&Hu&Hku). split; [done|]. exists u. split; [|done].
    apply lookup_delete_Some. split; [|done]. intros <-. apply Hh. right; left. by exists c, i.
  - intros x Hx Hq. destruct (Hs x Hx Hq) as (u&Hu&Hf). exists u. split; [|done]. apply lookup_delete_Some. split; [|done].
    intros E. apply Hh, held_queued, elem_of_queued. by exists x.
  - intros m u t [_ Hu]%lookup_delete_Some. by apply (Hp m u).
Qed.

Lemma destroy_run n s w :
  native_inv (λ m, m = n) w → natives w !! n = Some s → ¬ held w n →
  destroy n w = Some (tt, set_overlapped (delete (overlapKey s) (overlappedSockets w)) (set_natives (delete n (natives w)) w)).
Proof.
  intros [_ _ Ho _ _ _ _ _ _ _ _] Hs Hh. assert (n ≠ socket w) as Hne by (intros ->; apply Hh; by left).
  destruct (Ho n s Hs Hne) as (Eo&_&He&_). unfold destroy, at_native, mbind, M_bind, when. simpl. rewrite Hs. simpl.
  unfold modify. rewrite Eo. unfold releaseOverlappedSocket, mbind, M_bind, mget. simpl. rewrite He.
  unfold lock_native. simpl. rewrite decide_False; [done|]. rewrite lookup_delete_eq. by intros [].
Qed.

(** What changes of owners leave alone. *)
Definition same_imps w w' : Prop := imps w' = imps w ∧ socket w' = socket w ∧ imp_options w' = imp_options w.

Lemma drop_ref_wp n w :
  native_inv (λ m, m = n) w → is_Some (natives w !! n) →
  wp (drop_ref n) (λ _ w', native_inv none w' ∧ same_imps w w' ∧
    ∀ m s, held w m → natives w !! m = Some s → natives w' !! m = Some s) w.
Proof.
  intros Hi [s Hs]. unfold drop_ref. apply wp_bind, wp_mget. destruct (decide (held w n)) as [Hh|Hh].
  - apply wp_ret. split; [|done]. eapply inv_weaken; [done|]. intros m ->. by left.
  - apply wp_some. eexists _, _. split; [by apply destroy_run|]. split_and!; [by apply inv_destroyed|done|].
    intros m t Hm Ht. simpl. rewrite lookup_delete_ne; [done|]. by intros ->.
Qed.

Lemma on_sent_wp i w : native_inv none w → is_Some (sending w !! i) → wp (on_sent i) (λ _, native_inv none) w.
Proof.
  intros Hi [x Hx]. unfold on_sent. apply wp_bind, wp_mget, wp_bind. eapply wp_lift; [done|]. apply wp_bind, wp_modify.
  destruct (inv_sent w i x Hi Hx) as [Hi1 Hnq]. pose proof Hi as [_ _ _ _ _ Hsn _ _ _ _ _].
  destruct (sn_queued x) eqn:Eq; [|apply wp_ret; eapply inv_weaken; [done|naive_solver]].
  assert (x ∈ sending w) as Hin by (by eapply list_elem_of_lookup_2). destruct (Hsn x Hin Eq) as (s&Hs&Hf).
  set (n := sn_socket x) in *. set (w1 := set_sending (delete i (sending w)) w) in *. assert (natives w1 !! n = Some s) as Hs1 by done.
  specialize (Hnq eq_refl). apply wp_bind. eapply wp_at_native; [done|]. unfold pop_front, front in *.
  destruct (queue s) as [|t l] eqn:El; [done|]. apply wp_bind. eapply wp_lift; [done|]. cbv beta iota.
  apply wp_bind, wp_modify. set (s' := set_queue l s).
  assert (native_inv (λ m, m = n) (set_natives (<[n:=s']> (natives w1)) w1)) as Hi2.
  { pose proof Hi1 as [_ _ Ho _ _ _ _ Hp _ _ _].
    eapply (inv_native _ w1 n s s'); try done; [by eapply inv_weaken; [done|]; intros m [_ ->]; right|..].
    - intros Hne. destruct (Ho n s Hs1 Hne) as (_&_&_&_&Hall). rewrite El in Hall. by apply Forall_cons_1 in Hall as [_ ?].
    - intros u Hu. apply (Hp n s u); [done|]. rewrite El. by right.
    - intros y Hy Hyq Hyn. exfalso. apply Hnq. apply elem_of_queued. by exists y. }
  assert (natives (set_natives (<[n:=s']> (natives w1)) w1) !! n = Some s') as Hs2 by apply lookup_insert_eq.
  apply wp_bind, wp_when.
  - intros El2%Nat.ltb_lt. eapply wp_mono; [eapply (doSend_wp _ n s'); [done|done| |done]|].
    + simpl. destruct l; [simpl in El2; lia|done].
    + intros [] w2 (Hi3&En&_). eapply wp_mono; [apply drop_ref_wp; [done|rewrite En, Hs2; by eexists]|]. by intros [] w3 [? _].
  - intros _. eapply wp_mono; [apply drop_ref_wp; [done|rewrite Hs2; by eexists]|]. by intros [] w3 [? _].
Qed.

(** ** Receiving *)

Lemma doReceive_wp L n p w :
  native_inv L w → is_Some (natives w !! n) → packet_wf p →
  wp (doReceive n p) (λ _ w', native_inv L w' ∧ same_sockets w w' ∧ ∃ l, w' = set_receiving l w) w.
Proof.
  intros Hi [s Hs] Hp. assert (∃ l, w = set_receiving l w) as E by (exists (receiving w); by destruct w).
  unfold doReceive. apply wp_bind, wp_mget, wp_when; [intros _|done].
  unfold native_receive. apply wp_bind. eapply wp_at_native; [done|]. apply wp_when; [intros _|done]. apply wp_modify.
  split; [|split; [done|by eexists]]. apply inv_receiving; [done|]. pose proof Hi as [_ _ _ _ _ _ _ _ _ Hr _].
  intros x [Hx| ->%list_elem_of_singleton]%elem_of_app; [by apply Hr|done].
Qed.

Lemma on_received_wp i result w :
  native_inv none w → is_Some (receiving w !! i) → (∀ e d, result = Some (e, d) → endpoint_wf e) →
  wp (on_received i result) (λ _, native_inv none) w.
Proof.
  intros Hi [x Hx] He. unfold on_received. apply wp_bind, wp_mget, wp_bind. eapply wp_lift; [done|]. apply wp_bind, wp_modify.
  pose proof Hi as [_ _ _ _ _ _ _ _ _ Hr _]. assert (packet_wf (rv_packet x)) as Hx' by (apply Hr; by eapply list_elem_of_lookup_2).
  set (w1 := set_receiving _ w). assert (native_inv none w1) as Hi1.
  { apply inv_receiving; [done|]. intros y Hy. apply Hr. eapply elem_of_submseteq; [done|apply submseteq_delete]. }
  apply wp_bind. apply (wp_mono _ (λ p w', packet_wf p ∧ native_inv none w')).
  - destruct result as [[e d]|]; [|by apply wp_ret]. pose proof (receive_into_wf (rv_packet x) d Hx') as Hwf.
    destruct (receive_into (rv_packet x) d) as [p ok]. apply wp_bind, wp_when; intros _; [|by apply wp_ret].
    unfold handleReceiveFrom. apply wp_modify, wp_ret. split; [done|]. apply inv_received; [done|done|]. by eapply toAddr_length, He.
  - intros p w' [Hp Hi']. apply wp_bind, wp_mget. destruct (lock_native (Some (rv_socket x)) w') as [n|] eqn:El; [|by apply wp_ret].
    eapply wp_mono; [apply (doReceive_wp none); [done| |done]|by intros [] w'' [? _]].
    unfold lock_native in El. simpl in El. case_decide; [|done]. by injection El as <-.
Qed.

(** ** Overlapped sockets *)

(** Calls of the system on the handle of one socket. *)
Definition with_handle n (h : Handle) s (o : OsState) w : SocketImp :=
  set_os o (set_natives (<[n := set_handle h s]> (natives w)) w).

Lemma wp_upd_handle n h h0 s o w Q :
  Q tt (with_handle n h s o w) → wp (upd_native n (set_handle h)) Q (with_handle n h0 s o w).
Proof.
  intros HQ. eapply wp_upd_native; [apply lookup_insert_eq|]. unfold with_handle in *. simpl.
  unfold set_natives, set_os in *. simpl in *. by rewrite insert_insert_eq.
Qed.

Lemma with_handle_self n s w : natives w !! n = Some s → w = with_handle n (handle s) s (os_state w) w.
Proof.
  intros Hs. assert (set_handle (handle s) s = s) as E by (by destruct s). unfold with_handle.
  rewrite E, insert_id by done. by destruct w.
Qed.

Lemma open_overlapped_wp n s local remote w :
  natives w !! n = Some s →
  wp (open_overlapped n local remote) (λ ok w', ∃ h o, w' = with_handle n h s o w ∧ (ok = true → ∃ l, h = Connected l remote)) w.
Proof.
  intros Hs. rewrite (with_handle_self n s w) by done. set (h0 := handle s). generalize (os_state w). intros o0.
  assert (∀ h o, wp (mret false) (λ (ok : bool) w', ∃ h' o', w' = with_handle n h' s o' (with_handle n h0 s o0 w) ∧ (ok = true → ∃ l, h' = Connected l remote))
    (with_handle n h s o w)) as Hfail.
  { intros h o. apply wp_ret. exists h, o. split; [|done]. unfold with_handle, set_natives, set_os. simpl. by rewrite insert_insert_eq. }
  unfold open_overlapped. apply wp_bind, wp_sys. intros ok o1. change (set_os o1 _) with (with_handle n h0 s o1 w).
  destruct ok; [|apply Hfail]. apply wp_bind, wp_upd_handle, wp_bind, wp_sys. intros ok o2.
  change (set_os o2 _) with (with_handle n Opened s o2 w). destruct ok; [|apply Hfail]. apply wp_bind, wp_sys. intros b o3.
  change (set_os o3 _) with (with_handle n Opened s o3 w). destruct b as [l|]; [|apply Hfail].
  apply wp_bind, wp_upd_handle, wp_bind, wp_sys. intros ok o4. change (set_os o4 _) with (with_handle n (Bound l) s o4 w).
  destruct ok; [|apply Hfail]. apply wp_bind, wp_upd_handle, wp_ret. exists (Connected l remote), o4.
  split; [|by eauto]. unfold with_handle, set_natives, set_os. simpl. by rewrite insert_insert_eq.
Qed.

(** A new overlapped socket is entered under its address. *)
Lemma inv_entered w s o remote :
  native_inv none w → overlappedSockets w !! remote = None →
  isOverlapped s = true → overlapKey s = remote → remoteEndpoint s = toEndpoint remote → queue s = [] →
  native_inv (λ m, m = next_native w) (set_overlapped (<[remote := Some (next_native w)]> (overlappedSockets w))
    (set_os o (set_natives (<[next_native w := s]> (natives w)) (set_next (S (next_native w)) w)))).
Proof.
  intros [(s0&Hm&Hm') Hn Ho He Hi Hs H1 Hp Hsent Hr Hrd] Hno E1 E2 E3 E4. set (n := next_native w) in *.
  assert (∀ m, is_Some (natives w !! m) → m ≠ n) as Hfresh by (intros m Hm2%Hn; lia).
  assert (n ≠ socket w) as Hns by (intros E; apply (Hfresh (socket w)); [by eexists|done]).
  split; simpl; try done.
  - exists s0. rewrite lookup_insert_ne by done. done.
  - intros m. destruct (decide (m = n)) as [->|]; [lia|]. rewrite lookup_insert_ne by done. intros Hm2%Hn. lia.
  - intros m u. destruct (decide (m = n)) as [->|].
    + rewrite lookup_insert_eq. intros [= <-] _. rewrite E1, E2, E3, E4, lookup_insert_eq. split_and!; auto.
    + rewrite lookup_insert_ne by done. intros Hu Hne. destruct (Ho m u Hu Hne) as (?&Hh&Hent&?&?). split_and!; try done.
      * left. by destruct Hh as [|[]].
      * rewrite lookup_insert_ne; [done|]. intros E. rewrite <-E, Hno in Hent. done.
  - intros k r. destruct (decide (k = remote)) as [->|].
    + rewrite lookup_insert_eq. intros [= <-]. exists n, s. by rewrite lookup_insert_eq.
    + rewrite lookup_insert_ne by done. intros Hk. destruct (He k r Hk) as (m&u&->&Hu&Hne&Hku). exists m, u.
      rewrite lookup_insert_ne; [done|]. intros <-. apply (Hfresh n); [by eexists|done].
  - intros c i m Hc Hm2. destruct (Hi c i m Hc Hm2) as (?&u&Hu&?). split; [done|]. exists u. split; [|done].
    rewrite lookup_insert_ne; [done|]. intros <-. apply (Hfresh n); [by eexists|done].
  - intros x Hx Hq. destruct (Hs x Hx Hq) as (u&Hu&?). exists u. split; [|done].
    rewrite lookup_insert_ne; [done|]. intros E. apply (Hfresh (sn_socket x)); [by eexists|done].
  - intros m u t. destruct (decide (m = n)) as [->|]; [|rewrite lookup_insert_ne by done; apply Hp].
    rewrite lookup_insert_eq. intros [= <-]. rewrite E4. by intros ?%elem_of_nil.
Qed.

Lemma inv_next L w o k : native_inv L w → (next_native w ≤ k)%nat → native_inv L (set_os o (set_next k w)).
Proof. intros [? Hn] Hk; split; try done. simpl. intros n Hs%Hn. lia. Qed.

Lemma getOverlappedSocket_existing remote n w :
  overlappedSockets w !! remote = Some (Some n) → is_Some (natives w !! n) → getOverlappedSocket remote w = Some (Some n, w).
Proof.
  intros E Hn. unfold getOverlappedSocket, mbind, M_bind, mget. rewrite E. unfold lock_native. simpl. by rewrite decide_True.
Qed.

(** A socket that was never entered is destroyed with the empty entry it was made for. *)
Lemma wp_destroy_unentered n s w Q :
  natives w !! n = Some s → isOverlapped s = true → overlappedSockets w !! overlapKey s = Some None →
  Q tt (set_overlapped (delete (overlapKey s) (overlappedSockets w)) (set_natives (delete n (natives w)) w)) →
  wp (destroy n) Q w.
Proof.
  intros Hs Ho He HQ. unfold destroy. apply wp_bind. eapply wp_at_native; [done|]. apply wp_bind, wp_modify. rewrite Ho.
  unfold when, releaseOverlappedSocket. apply wp_bind, wp_mget. simpl. rewrite He. simpl. by apply wp_modify.
Qed.

(** The state in which a new socket is opened, what becomes of it when that succeeds and when it
    fails. *)
Definition made n s (remote : Address) w : SocketImp :=
  let w1 := set_next (S n) (set_overlapped (<[remote := None]> (overlappedSockets w)) w) in
  set_natives (<[n := s]> (natives w1)) w1.

Lemma made_entered n h s o remote w :
  let w' := with_handle n h s o (made n s remote w) in
  set_overlapped (<[remote := Some n]> (overlappedSockets w')) w' =
  set_overlapped (<[remote := Some n]> (overlappedSockets w))
    (set_os o (set_natives (<[n := set_handle h s]> (natives w)) (set_next (S n) w))).
Proof. destruct w. cbn. unfold set_overlapped. cbn. by rewrite !insert_insert_eq. Qed.

Lemma made_destroyed n h s o remote w :
  natives w !! n = None → overlappedSockets w !! remote = None →
  let w' := with_handle n h s o (made n s remote w) in
  set_overlapped (delete remote (overlappedSockets w')) (set_natives (delete n (natives w')) w') =
  set_os o (set_next (S n) w).
Proof.
  intros Hn Ho. destruct w. cbn in *. unfold set_overlapped. cbn.
  by rewrite insert_insert_eq, !delete_insert_id by done.
Qed.

Lemma getOverlappedSocket_new remote w :
  native_inv none w → overlappedSockets w !! remote = None →
  wp (getOverlappedSocket remote) (λ r w', native_inv (λ m, r = Some m) w' ∧ same_imps w w' ∧
    (∀ m t, natives w !! m = Some t → natives w' !! m = Some t) ∧
    ∀ n, r = Some n → n ≠ socket w ∧ ∃ s l, natives w' !! n = Some s ∧ overlapKey s = remote ∧ handle s = Connected l (toEndpoint remote)) w.
Proof.
  intros Hi Hno. pose proof Hi as [(s0&Hm&_) Hn _ _ _ _ _ _ _ _ _]. unfold getOverlappedSocket.
  generalize new_Packet_wf. generalize new_Packet. intros buf Hbuf. apply wp_bind, wp_mget.
  rewrite Hno. simpl. apply wp_bind, wp_modify. unfold getLocalAddress. apply wp_bind, wp_bind, wp_mget, wp_bind.
  eapply wp_at_native; [exact Hm|]. apply wp_ret. apply wp_bind, wp_modify. apply wp_bind, wp_modify.
  set (n := next_native w). set (s := SocketNative_overlapped (toEndpoint remote) remote).
  change (set_natives _ _) with (made n s remote w). apply wp_bind.
  assert (natives w !! n = None) as Hfresh.
  { destruct (natives w !! n) eqn:E; [|done]. specialize (Hn n ltac:(by eexists)). unfold n in Hn. lia. }
  assert (n ≠ socket w) as Hns by (intros E; rewrite E, Hm in Hfresh; done).
  eapply wp_mono; [eapply (open_overlapped_wp n s); apply lookup_insert_eq|]. intros ok w' (h&o&->&Hh). destruct ok.
  - destruct (Hh eq_refl) as [l ->]. apply wp_bind, wp_modify. rewrite made_entered.
    pose proof (inv_entered w (set_handle (Connected l (toEndpoint remote)) s) o remote Hi Hno eq_refl eq_refl eq_refl eq_refl) as Hi'.
    fold n in Hi'. apply wp_bind.
    eapply wp_mono; [apply (doReceive_wp _ n buf _ Hi'); [simpl; rewrite lookup_insert_eq; by eexists|done]|].
    intros [] w2 (Hi2&(En&Ei&Es&Eo)&l2&->). apply wp_ret. split; [|split; [done|split]].
    + eapply inv_weaken; [done|]. intros m ->. by right.
    + intros m t Hm2. simpl. rewrite lookup_insert_ne; [done|]. intros <-. by rewrite Hfresh in Hm2.
    + intros m [= <-]. split; [done|]. eexists _, l. simpl. rewrite lookup_insert_eq. split_and!; done.
  - apply wp_bind. eapply wp_destroy_unentered; [apply lookup_insert_eq|done|apply lookup_insert_eq|].
    change (overlapKey (set_handle h s)) with remote. rewrite (made_destroyed n h s o remote w Hfresh Hno). apply wp_ret. split_and!; [|done..].
    eapply inv_weaken; [apply inv_next; [done|unfold n; lia]|done].
Qed.

Lemma getOverlappedSocket_wp remote w :
  native_inv none w →
  wp (getOverlappedSocket remote) (λ r w', native_inv (λ m, r = Some m) w' ∧ same_imps w w' ∧
    (∀ m t, natives w !! m = Some t → natives w' !! m = Some t) ∧
    (∀ m t, natives w !! m = Some t → m ≠ socket w → overlapKey t = remote → r = Some m) ∧
    ∀ n, r = Some n → n ≠ socket w ∧ ∃ s, natives w' !! n = Some s ∧ overlapKey s = remote) w.
Proof.
  intros Hi. destruct (overlappedSockets w !! remote) as [r|] eqn:E.
  - pose proof Hi as [_ _ _ He _ _ _ _ _ _ _]. destruct (He _ _ E) as (n&s&->&Hs&Hne&Hk).
    apply wp_some. eexists _, _. split; [apply (getOverlappedSocket_existing remote n); [done|by eexists]|].
    split; [by eapply inv_weaken|]. split; [done|]. split; [done|]. split.
    + intros m t Hm Hms Hk2. pose proof Hi as [_ _ Ho _ _ _ _ _ _ _ _]. destruct (Ho m t Hm Hms) as (_&_&E2&_). congruence.
    + intros m [= <-]. split; [done|]. by exists s.
  - eapply wp_mono; [by apply getOverlappedSocket_new|]. intros r w' (?&?&?&Hr). split; [done|]. split; [done|]. split; [done|]. split.
    { intros m t Hm Hms Hk2. pose proof Hi as [_ _ Ho _ _ _ _ _ _ _ _]. destruct (Ho m t Hm Hms) as (_&_&E2&_). congruence. }
    intros n Hn. destruct (Hr n Hn) as (?&s&l&?&?&_). eauto.
Qed.

(** The pointer goes to the connection. *)
Lemma put_overlapped_wp c i r w :
  native_inv (λ m, r = Some m) w → imps w !! c = Some i → overlappedSocket i = None →
  (∀ n, r = Some n → n ≠ socket w ∧ ∃ s, natives w !! n = Some s ∧ overlapKey s = remoteAddress i) →
  wp (put_imp c (mkConnectionImp (remoteAddress i) r)) (λ _ w', native_inv none w' ∧ dom (imps w') = dom (imps w) ∧
    w' = set_imps (<[c := mkConnectionImp (remoteAddress i) r]> (imps w)) w) w.
Proof.
  intros Hi Hc Hnone Hr. unfold put_imp. apply wp_modify. split_and!; [| |done].
  - eapply inv_imp; [done|done|by left|]. intros j n Hj. rewrite Hc in Hj. injection Hj as <-. by rewrite Hnone.
  - simpl. rewrite dom_insert_L. apply elem_of_dom_2 in Hc. set_solver.
Qed.

(** The connection [c] has another socket, or the same one when there is one for its address. *)
Definition without_socket c (i : ConnectionImp) w : SocketImp :=
  set_imps (<[c := mkConnectionImp (remoteAddress i) None]> (imps w)) w.

Definition reacquired c (i : ConnectionImp) w w' : Prop :=
  ∃ r, imps w' = <[c := mkConnectionImp (remoteAddress i) r]> (imps w) ∧ socket w' = socket w ∧
    imp_options w' = imp_options w ∧
    (∀ m t, held (without_socket c i w) m → natives w !! m = Some t → natives w' !! m = Some t) ∧
    (overlapped_io (imp_options w) ≠ 0 → ∀ m t, held (without_socket c i w) m → natives w !! m = Some t →
      m ≠ socket w → overlapKey t = remoteAddress i → r = Some m).

Lemma reacquired_dom c i w w' : imps w !! c = Some i → reacquired c i w w' → dom (imps w') = dom (imps w).
Proof. intros Hc%elem_of_dom_2 (r&->&_). rewrite dom_insert_L. set_solver. Qed.

(** [reacquireOverlappedSocket], where the socket may be one for an earlier address. *)
Lemma reacquire_wp c i w :
  imps w !! c = Some i →
  native_inv (λ m, overlappedSocket i = Some m) (without_socket c i w) →
  (∀ n, overlappedSocket i = Some n → is_Some (natives w !! n)) →
  wp (reacquireOverlappedSocket c) (λ _ w', native_inv none w' ∧ reacquired c i w w') w.
Proof.
  intros Hc Hi Hlive. unfold reacquireOverlappedSocket. apply wp_bind. eapply wp_at_imp; [done|]. apply wp_bind, wp_modify.
  change (set_imps _ w) with (without_socket c i w). set (w1 := without_socket c i w) in *.
  assert (imps w1 !! c = Some (mkConnectionImp (remoteAddress i) None)) as Hc1 by apply lookup_insert_eq.
  apply wp_bind. apply (wp_mono _ (λ _ w', native_inv none w' ∧ same_imps w1 w' ∧
    ∀ m s, held w1 m → natives w1 !! m = Some s → natives w' !! m = Some s)).
  - unfold reset_ptr. destruct (overlappedSocket i) as [n|] eqn:En.
    + eapply wp_mono; [apply drop_ref_wp; [by eapply inv_weaken; [done|]; intros m [= ->]; right|by apply Hlive]|]. done.
    + apply wp_ret. split; [|done]. by eapply inv_weaken.
  - intros [] w2 (Hi2&(Ei&Es&Eo)&Hk2). apply wp_bind, wp_mget. case_match eqn:Eover.
    { apply wp_ret. split; [done|]. exists None. split; [done|]. split; [done|]. split; [done|]. split; [done|]. intros Hno.
      exfalso. apply Hno. rewrite Eo in Eover. by apply Z.eqb_eq. }
    apply wp_bind. eapply wp_mono; [by apply getOverlappedSocket_wp|]. intros r w3 (Hi3&(Ei3&Es3&Eo3)&Hk3&Hx3&Hr).
    eapply wp_mono; [eapply (put_overlapped_wp c (mkConnectionImp (remoteAddress i) None)); [done|congruence|done|by rewrite Es3]|].
    intros [] w4 (?&_&->). split; [done|]. exists r. simpl. split; [by rewrite Ei3, Ei; simpl; rewrite insert_insert_eq|].
    split; [by rewrite Es3, Es|]. split; [by rewrite Eo3, Eo|]. split; [by auto|].
    intros _ m t Hh Ht Hms Hkey. apply (Hx3 m t); [by apply Hk2|by rewrite Es|done].
Qed.

(** A connection in good standing. *)
Lemma reacquire_good c i w :
  native_inv none w → imps w !! c = Some i →
  wp (reacquireOverlappedSocket c) (λ _ w', native_inv none w' ∧ reacquired c i w w') w.
Proof.
  intros Hi Hc. eapply reacquire_wp; [done| |].
  - eapply inv_imp; [done|done|done|]. intros j n Hj ?. rewrite Hc in Hj. injection Hj as <-. by right.
  - intros n Hn. pose proof Hi as [_ _ _ _ Him _ _ _ _ _ _]. destruct (Him c i n Hc Hn) as (_&s&Hs&_). by eexists.
Qed.

(** ** The socket *)

Definition acquired n (h : Handle) s (o : OsState) (e : Endpoint) w : SocketImp := set_local e (with_handle n h s o w).

Lemma acquired_self n s w : natives w !! n = Some s → w = acquired n (handle s) s (os_state w) (localEndpoint w) w.
Proof. intros Hs. unfold acquired. rewrite <-(with_handle_self n s w) by done. by destruct w. Qed.

Lemma wp_upd_acquired n h h0 s o e w Q :
  Q tt (acquired n h s o e w) → wp (upd_native n (set_handle h)) Q (acquired n h0 s o e w).
Proof.
  intros HQ. eapply wp_upd_native; [apply lookup_insert_eq|]. destruct w. unfold acquired, with_handle in *.
  unfold set_local, set_natives, set_os in *. simpl in *. by rewrite insert_insert_eq.
Qed.

Lemma inv_acquired L n h s o e w : native_inv L w → natives w !! n = Some s → native_inv L (acquired n h s o e w).
Proof. intros Hi Hs. by apply inv_set_local, inv_set_os, inv_handle. Qed.

Lemma acquire_overlapped_wp s h o e l w :
  wp (acquire_overlapped l) (λ _ w', ∃ h' o' e', w' = acquired (socket w) h' s o' e' w) (acquired (socket w) h s o e w).
Proof.
  assert (∀ r h o, wp (mret r) (λ (_ : option Outcome) w', ∃ h' o' e', w' = acquired (socket w) h' s o' e' w) (acquired (socket w) h s o e w)) as Hend
    by (intros r h' o'; apply wp_ret; by eexists _, _, _).
  unfold acquire_overlapped. apply wp_bind, wp_mget, wp_bind, wp_upd_acquired, wp_bind, wp_sys. intros ok o1.
  change (set_os o1 _) with (acquired (socket w) Closed s o1 e w). destruct ok; [|apply Hend].
  apply wp_bind, wp_upd_acquired, wp_bind, wp_sys. intros ok o2. change (set_os o2 _) with (acquired (socket w) Opened s o2 e w).
  destruct ok; [|apply Hend]. apply wp_bind, wp_sys. intros ok o3. change (set_os o3 _) with (acquired (socket w) Opened s o3 e w).
  destruct ok; [|apply Hend]. apply wp_bind, wp_sys. intros b o4. change (set_os o4 _) with (acquired (socket w) Opened s o4 e w).
  destruct b; [|apply Hend]. apply wp_bind, wp_upd_acquired, Hend.
Qed.

(** One round is enough; only the socket's own handle and endpoint change. *)
Lemma acquireAddress_wp addr s w :
  natives w !! socket w = Some s →
  wp (acquireAddress addr) (λ _ w', ∃ h o e, w' = acquired (socket w) h s o e w) w.
Proof.
  intros Hs. enough (∀ h0 o0 e0, wp (acquireAddress addr) (λ _ w', ∃ h o e, w' = acquired (socket w) h s o e w) (acquired (socket w) h0 s o0 e0 w)) as Hall.
  { specialize (Hall (handle s) (os_state w) (localEndpoint w)). by rewrite <-(acquired_self (socket w) s w Hs) in Hall. }
  intros h0 o0 e0.
  assert (∀ r h o e, wp (mret r) (λ (_ : Outcome) w', ∃ h o e, w' = acquired (socket w) h s o e w) (acquired (socket w) h s o e w)) as Hend
    by (intros r h o e; apply wp_ret; by eexists _, _, _).
  unfold acquireAddress. cbn [acquireAddress_loop]. apply wp_bind, wp_mget, wp_bind, wp_sys. intros ok o1.
  change (set_os o1 _) with (acquired (socket w) h0 s o1 e0 w). apply wp_bind, wp_upd_acquired. destruct ok; [|apply Hend].
  apply wp_bind, wp_sys. intros ok o2. change (set_os o2 _) with (acquired (socket w) Closed s o2 e0 w). destruct ok; [|apply Hend].
  apply wp_bind, wp_upd_acquired, wp_bind, wp_sys. intros b o3. change (set_os o3 _) with (acquired (socket w) Opened s o3 e0 w).
  destruct b as [l|]; [|apply Hend]. apply wp_bind, wp_upd_acquired, wp_bind, wp_sys. intros ok o4.
  change (set_os o4 _) with (acquired (socket w) (Bound l) s o4 e0 w). apply wp_bind, wp_modify.
  set (e1 := if ok then l else Endpoint_default). change (set_local e1 _) with (acquired (socket w) (Bound l) s o4 e1 w).
  destruct ok; [|apply Hend]. apply wp_bind. eapply (wp_mono _ (λ _ w', ∃ h o e, w' = acquired (socket w) h s o e w)).
  - case_match; [apply acquire_overlapped_wp|]. apply wp_ret. by eexists _, _, _.
  - intros r w' (h&o&e&->). destruct r; apply Hend.
Qed.

Lemma inv_close_handles L l w : native_inv L w → native_inv L (close_handles l w).
Proof.
  intros Hi. induction l as [|n l IH]; [by destruct w|]. set (w1 := close_handles l w) in *.
  change (close_handles (n :: l) w) with (set_natives (alter (set_handle Closed) n (natives w1)) w1).
  destruct (natives w1 !! n) as [s|] eqn:E.
  - replace (alter (set_handle Closed) n (natives w1)) with (<[n := set_handle Closed s]> (natives w1)); [by apply inv_handle|].
    apply map_eq. intros m. destruct (decide (m = n)) as [->|]; [by rewrite lookup_insert_eq, lookup_alter_eq, E|].
    by rewrite lookup_insert_ne, lookup_alter_ne by done.
  - replace (alter (set_handle Closed) n (natives w1)) with (natives w1); [by destruct w1|].
    apply map_eq. intros m. destruct (decide (m = n)) as [->|]; [by rewrite lookup_alter_eq, E|by rewrite lookup_alter_ne].
Qed.

Lemma SocketImp_close_wp w :
  native_inv none w → wp SocketImp_close (λ _ w', native_inv none w' ∧ imps w' = imps w ∧ socket w' = socket w) w.
Proof.
  intros Hi. pose proof Hi as [(s&Hs&_) _ _ _ _ _ _ _ _ _ _]. unfold SocketImp_close. apply wp_bind, wp_mget, wp_when; [intros _|done].
  apply wp_bind, wp_modify, wp_bind. eapply wp_upd_native; [exact Hs|]. apply wp_modify. split; [|done].
  apply inv_close_handles. by apply (inv_handle _ (set_running false w)); [apply inv_set_running|].
Qed.

Lemma SocketImp_open_wp w :
  native_inv none w → wp SocketImp_open (λ _ w', native_inv none w' ∧ imps w' = imps w ∧ socket w' = socket w) w.
Proof.
  intros Hi. pose proof Hi as [(s&Hs&_) _ _ _ _ _ _ _ _ _ _]. unfold SocketImp_open. apply wp_bind, wp_modify, wp_bind, wp_mget.
  eapply wp_mono; [apply (doReceive_wp none); [by apply inv_set_running|by eexists|apply new_Packet_wf]|].
  intros [] w' (?&(_&Ei&Es&_)&_). by rewrite Ei, Es.
Qed.

Lemma relocate_wp addr order w :
  native_inv none w → Forall (λ c, is_Some (imps w !! c)) order → wp (relocate addr order) (λ _, native_inv none) w.
Proof.
  intros Hi Hord. unfold relocate. apply wp_bind. eapply wp_mono; [by apply SocketImp_close_wp|]. intros [] w1 (Hi1&Ei1&Es1).
  apply wp_bind. pose proof Hi1 as [(s&Hs&_) _ _ _ _ _ _ _ _ _ _]. eapply wp_mono; [by apply acquireAddress_wp|].
  intros r w2 (h&o&e&->). assert (native_inv none (acquired (socket w1) h s o e w1)) as Hi2 by (by apply inv_acquired).
  destruct r; [|by apply wp_ret]. apply wp_bind. eapply wp_mono; [by apply SocketImp_open_wp|]. intros [] w3 (Hi3&Ei3&Es3).
  apply wp_bind. apply (wp_mono _ (λ _ w', native_inv none w' ∧ dom (imps w') = dom (imps w))); [|intros [] w4 [? _]; by apply wp_ret].
  apply (wp_mapM_inv (λ w', native_inv none w' ∧ dom (imps w') = dom (imps w))).
  - split; [done|]. rewrite Ei3. simpl. by rewrite Ei1.
  - intros c w' Hc [Hi' Hd]. assert (is_Some (imps w' !! c)) as [i Hci].
    { apply elem_of_dom. rewrite Hd. apply elem_of_dom. by apply (Forall_elem_of _ _ _ Hord). }
    eapply wp_mono; [by apply (reacquire_good c i)|]. intros [] w'' [? Hr]. split; [done|]. by rewrite (reacquired_dom c i w').
Qed.
End overlapped.
