(* ===== verification/NativeLayer.v ===== *)
(** * The native layer as a state machine

    Calls from above, completions from below, in any order: the invariant of [Overlapped.v] holds
    throughout, and nothing is undefined. What [relocate] does to connections that share a socket. *)

From S2P Require Import Prelude MemCopy Packet ReceiveQueue Types Asio Datagram Overlapped.

Section layer.
Context {os : Os}.
Implicit Types (w : SocketImp) (n : NativeRef) (c : ConnRef) (s : SocketNative).

Inductive Op :=
  | Acquire (addr : Address)
  | Open
  | Close
  | Relocate (addr : Address) (order : list ConnRef)
  | Connect (c : ConnRef) (remote : Address)
  | AddressChanged (c : ConnRef) (remote : Address)
  | Disconnect (c : ConnRef)
  | SendPacket (p : Packet) (c : ConnRef) (to : option Address)
  | SendCompleted (i : nat)
  | ReceiveCompleted (i : nat) (result : option (Endpoint * bytes)).

Definition exec (op : Op) : M SocketImp unit :=
  match op with
  | Acquire addr => _ ← acquireAddress addr; mret tt
  | Open => SocketImp_open
  | Close => SocketImp_close
  | Relocate addr order => _ ← relocate addr order; mret tt
  | Connect c remote => new_ConnectionImp c remote;; _ ← ConnectionImp_open c; mret tt
  | AddressChanged c remote => onRemoteAddressChanged c remote
  | Disconnect c => delete_ConnectionImp c
  | SendPacket p c to => _ ← SocketImp_send p c to; mret tt
  | SendCompleted i => on_sent i
  | ReceiveCompleted i result => on_received i result
  end.

(** Calls about connections there are, completions of operations under way. *)
Definition valid (op : Op) w : Prop :=
  match op with
  | Acquire _ | Open | Close => True
  | Relocate _ order => Forall (λ c, is_Some (imps w !! c)) order
  | Connect c _ => imps w !! c = None
  | AddressChanged c _ | Disconnect c => is_Some (imps w !! c)
  | SendPacket p c _ => packet_wf p ∧ is_Some (imps w !! c)
  | SendCompleted i => is_Some (sending w !! i)
  | ReceiveCompleted i result => is_Some (receiving w !! i) ∧ ∀ e d, result = Some (e, d) → endpoint_wf e
  end.

Lemma new_imp_inv c remote w :
  native_inv none w → imps w !! c = None →
  native_inv none (set_imps (<[c := mkConnectionImp remote None]> (imps w)) w).
Proof. intros Hi Hc. eapply inv_imp; [done|done|by right|]. intros j n Hj. by rewrite Hc in Hj. Qed.

Lemma ConnectionImp_open_wp c i w :
  native_inv none w → imps w !! c = Some i → overlappedSocket i = None → wp (ConnectionImp_open c) (λ _, native_inv none) w.
Proof.
  intros Hi Hc Hn. unfold ConnectionImp_open. apply wp_bind. eapply wp_at_imp; [done|]. apply wp_bind, wp_mget.
  case_match; [by apply wp_ret|]. apply wp_bind. eapply wp_mono; [by apply getOverlappedSocket_wp|].
  intros r w1 (Hi1&(Ei&Es&_)&_&_&Hr). apply wp_bind.
  eapply wp_mono; [eapply (put_overlapped_wp c i); [done|congruence|done|by rewrite Es]|]. intros [] w2 [? _]. by apply wp_ret.
Qed.

Lemma address_changed_wp c remote i w :
  native_inv none w → imps w !! c = Some i → wp (onRemoteAddressChanged c remote) (λ _, native_inv none) w.
Proof.
  intros Hi Hc. unfold onRemoteAddressChanged. apply wp_bind. eapply wp_at_imp; [done|]. apply wp_bind, wp_modify.
  set (i' := mkConnectionImp remote (overlappedSocket i)). set (w1 := set_imps _ w).
  pose proof Hi as [_ _ _ _ Him _ _ _ _ _ _].
  eapply wp_mono; [apply (reacquire_wp c i' w1)|by intros [] w' [? _]].
  - apply lookup_insert_eq.
  - replace (without_socket c i' w1) with (without_socket c (mkConnectionImp remote None) w).
    { eapply inv_imp; [done|done|done|]. intros j n Hj ?. rewrite Hc in Hj. injection Hj as <-. by right. }
    unfold without_socket, w1. simpl. by rewrite insert_insert_eq.
  - intros n Hn. destruct (Him c i n Hc Hn) as (_&s&Hs&_). by exists s.
Qed.

Lemma delete_imp_wp c i w :
  native_inv none w → imps w !! c = Some i → wp (delete_ConnectionImp c) (λ _, native_inv none) w.
Proof.
  intros Hi Hc. unfold delete_ConnectionImp. apply wp_bind. eapply wp_at_imp; [done|]. apply wp_bind, wp_modify.
  pose proof Hi as [_ _ _ _ Him _ _ _ _ _ _].
  assert (native_inv (λ m, overlappedSocket i = Some m) (set_imps (delete c (imps w)) w)) as Hi1.
  { eapply inv_imps; [done| |].
    - intros d j n [_ Hd]%lookup_delete_Some. by apply (Him d).
    - intros n [[]|(d&j&Hd&Hj)]. destruct (decide (d = c)) as [->|]; [right; congruence|].
      left. exists d, j. by rewrite lookup_delete_ne. }
  unfold reset_ptr. destruct (overlappedSocket i) as [n|] eqn:En; [|apply wp_ret; by eapply inv_weaken].
  eapply wp_mono; [apply drop_ref_wp|by intros [] w' [? _]].
  - eapply inv_weaken; [done|]. intros m [= ->]. by right.
  - destruct (Him c i n Hc En) as (_&s&Hs&_). by exists s.
Qed.

Lemma SocketImp_send_wp p c to i w :
  native_inv none w → imps w !! c = Some i → packet_wf p → wp (SocketImp_send p c to) (λ _, native_inv none) w.
Proof.
  intros Hi Hc Hp. unfold SocketImp_send. apply wp_bind. eapply wp_at_imp; [done|]. apply wp_bind, wp_mget.
  pose proof Hi as [(s0&Hs0&_) _ _ _ Him _ _ _ _ _ _].
  assert (∀ n s addr, natives w !! n = Some s → (n ≠ socket w → addr = overlapKey s) →
    wp (if send_via_queue (imp_options w) =? 1 then sendViaQueue n addr p else sendDirect n addr p) (λ _, native_inv none) w) as Hsend.
  { intros n s addr Hs Ha. case_match.
    - eapply wp_mono; [by eapply sendViaQueue_wp|]. by intros [] w' [? _].
    - eapply wp_mono; [by eapply native_send_wp|]. by intros [] w' [? _]. }
  destruct ((overlapped_io (imp_options w) =? 1) && bool_decide (to = None)) eqn:Eo.
  - apply andb_true_iff in Eo as [_ ->%bool_decide_eq_true]. destruct (overlappedSocket i) as [n|] eqn:En; [|by apply wp_ret].
    destruct (Him c i n Hc En) as (_&s&Hs&Hk). apply wp_bind. eapply wp_mono; [by eapply (Hsend n s)|]. intros [] w' ?. by apply wp_ret.
  - apply wp_bind. eapply wp_mono; [by eapply (Hsend (socket w) s0)|]. intros [] w' ?. by apply wp_ret.
Qed.

(** Every operation. *)
Lemma exec_wp op w : native_inv none w → valid op w → wp (exec op) (λ _, native_inv none) w.
Proof.
  intros Hi Hv. destruct op as [addr| | |addr order|c remote|c remote|c|p c to|k|k result]; simpl in Hv |- *.
  - apply wp_bind. pose proof Hi as [(s&Hs&_) _ _ _ _ _ _ _ _ _ _]. eapply wp_mono; [by apply acquireAddress_wp|].
    intros r w' (h&o&e&->). apply wp_ret. by apply inv_acquired.
  - eapply wp_mono; [by apply SocketImp_open_wp|]. by intros [] w' [? _].
  - eapply wp_mono; [by apply SocketImp_close_wp|]. by intros [] w' [? _].
  - apply wp_bind. eapply wp_mono; [by apply relocate_wp|]. intros r w' ?. by apply wp_ret.
  - apply wp_bind. unfold new_ConnectionImp, put_imp. apply wp_modify. apply wp_bind.
    eapply wp_mono; [apply (ConnectionImp_open_wp c (mkConnectionImp remote None)); [by apply new_imp_inv|apply lookup_insert_eq|done]|].
    intros r w' ?. by apply wp_ret.
  - destruct Hv as [i Hc]. by eapply address_changed_wp.
  - destruct Hv as [i Hc]. by eapply delete_imp_wp.
  - destruct Hv as [Hp [i Hc]]. apply wp_bind. eapply wp_mono; [by eapply SocketImp_send_wp|]. intros r w' ?. by apply wp_ret.
  - by apply on_sent_wp.
  - destruct Hv. by apply on_received_wp.
Qed.

Lemma SocketImp_init_inv o opts : native_inv none (SocketImp_init o opts).
Proof.
  split; simpl; try done.
  - exists SocketNative_init. by rewrite lookup_singleton_eq.
  - intros n [s [<- _]%lookup_singleton_Some]. lia.
  - intros n s [<- _]%lookup_singleton_Some. done.
  - intros x Hx. by apply elem_of_nil in Hx.
  - apply NoDup_nil_2.
  - intros n s t [_ <-]%lookup_singleton_Some Ht. by apply elem_of_nil in Ht.
  - intros t e d Ht. by apply elem_of_nil in Ht.
  - intros x Hx. by apply elem_of_nil in Hx.
  - intros a p Hx. by apply elem_of_nil in Hx.
Qed.

Inductive native_step : SocketImp → SocketImp → Prop :=
  | native_step_intro op w w' : valid op w → exec op w = Some (tt, w') → native_step w w'.

Lemma native_reachable o opts w : rtc native_step (SocketImp_init o opts) w → native_inv none w.
Proof.
  intros Hr. pose proof (SocketImp_init_inv o opts) as Hi. revert Hi. induction Hr as [|w1 w2 w3 Hs _ IH]; [done|].
  intros Hi. apply IH. destruct Hs as [op w1 w2 Hv E]. pose proof (exec_wp op w1 Hi Hv) as Hwp. unfold wp in Hwp. by rewrite E in Hwp.
Qed.

(** ** Connections that share a socket *)

Lemma closed_lookup l n s w :
  n ∈ l → natives w !! n = Some s → natives (close_handles l w) !! n = Some (set_handle Closed s).
Proof.
  intros Hin Hs. enough (natives (close_handles l w) !! n = Some (if decide (n ∈ l) then set_handle Closed s else s)) as ->.
  { by rewrite decide_True. }
  clear Hin. induction l as [|m l IH]; simpl in *; [done|]. destruct (decide (m = n)) as [->|Hne].
  - rewrite lookup_alter_eq, IH. rewrite (decide_True (P := n ∈ n :: l)) by (by left). simpl. by case_decide.
  - rewrite lookup_alter_ne, IH by done. f_equal. repeat case_decide; set_solver.
Qed.

(** Closing the socket closes every overlapped one. *)
Lemma close_closes n s w :
  native_inv none w → running w = true → natives w !! n = Some s → n ≠ socket w →
  wp SocketImp_close (λ _ w', native_inv none w' ∧ same_imps w w' ∧ natives w' !! n = Some (set_handle Closed s)) w.
Proof.
  intros Hi Hrun Hs Hne. pose proof Hi as [(s0&Hs0&_) _ Ho _ _ _ _ _ _ _ _]. destruct (Ho n s Hs Hne) as (_&_&He&_&_).
  unfold SocketImp_close. apply wp_bind, wp_mget. rewrite Hrun. unfold when. apply wp_bind, wp_modify, wp_bind.
  eapply wp_upd_native; [exact Hs0|]. apply wp_modify. split_and!; [|done|].
  - apply inv_close_handles. by apply (inv_handle _ (set_running false w)); [apply inv_set_running|].
  - apply closed_lookup; [|simpl; by rewrite lookup_insert_ne].
    unfold overlapped_refs. apply list_elem_of_omap. exists (overlapKey s, Some n). split; [by apply elem_of_map_to_list|].
    simpl. rewrite decide_True; [done|]. simpl. by rewrite lookup_insert_ne.
Qed.

(** The socket [n], its handle closed, in the hands of two connections. *)
Record shared_closed n c1 c2 (i1 i2 : ConnectionImp) (w0 w : SocketImp) : Prop := {
  sc_inv : native_inv none w;
  sc_options : imp_options w = imp_options w0;
  sc_closed : ∃ s, natives w !! n = Some s ∧ handle s = Closed;
  sc_dom : dom (imps w) = dom (imps w0);
  sc_first : imps w !! c1 = Some i1;
  sc_second : imps w !! c2 = Some i2;
}.

Lemma reacquire_shared n c1 c2 i1 i2 c w0 w :
  c1 ≠ c2 → overlappedSocket i1 = Some n → overlappedSocket i2 = Some n → overlapped_io (imp_options w0) ≠ 0 →
  is_Some (imps w0 !! c) → shared_closed n c1 c2 i1 i2 w0 w →
  wp (reacquireOverlappedSocket c) (λ _, shared_closed n c1 c2 i1 i2 w0) w.
Proof.
  intros Hc12 En1 En2 Hio Hc [Hi Eo (s&Hs&Hcl) Hd H1 H2]. assert (is_Some (imps w !! c)) as [i Hci].
  { apply elem_of_dom. rewrite Hd. by apply elem_of_dom. }
  eapply wp_mono; [by apply (reacquire_good c i)|]. intros [] w' [Hi' Hreq].
  pose proof (reacquired_dom c i w w' Hci Hreq) as Hd'. destruct Hreq as (r&Ei&Es&Eo'&Hkeep&Hsame).
  assert (held (without_socket c i w) n) as Hheld.
  { right; left. destruct (decide (c = c1)) as [->|]; [exists c2, i2|exists c1, i1]; simpl; by rewrite lookup_insert_ne by done. }
  pose proof Hi as [_ _ _ _ Him _ _ _ _ _ _]. rewrite Eo in Hsame. specialize (Hsame Hio n s Hheld Hs).
  assert (∀ d j, imps w !! d = Some j → overlappedSocket j = Some n → imps w' !! d = Some j) as Hj.
  { intros d j Hdj Hjn. rewrite Ei. destruct (decide (d = c)) as [->|]; [|by rewrite lookup_insert_ne by done].
    rewrite lookup_insert_eq. rewrite Hci in Hdj. injection Hdj as ->. destruct (Him c j n Hci Hjn) as (Hne&t&Ht&Hk).
    rewrite Hs in Ht. injection Ht as <-. rewrite Hsame by done. destruct j. simpl in *. by rewrite Hjn. }
  split; [done|congruence| |congruence|by apply Hj|by apply Hj].
  exists s. split; [|done]. by apply Hkeep.
Qed.

(** Sending through a socket whose handle is closed. *)
Lemma send_closed p c i n s w :
  imps w !! c = Some i → overlappedSocket i = Some n → natives w !! n = Some s → handle s = Closed →
  overlapped_io (imp_options w) = 1 →
  wp (SocketImp_send p c None) (λ r w', r = MRUDP_OK ∧ sent w' = sent w) w.
Proof.
  intros Hc En Hs Hcl Hio. unfold SocketImp_send. apply wp_bind. eapply wp_at_imp; [done|]. apply wp_bind, wp_mget.
  rewrite Hio, En, bool_decide_true by done. cbn [andb Z.eqb Pos.eqb default]. apply wp_bind.
  apply (wp_mono _ (λ _ w', sent w' = sent w)); [|intros [] w' ?; by apply wp_ret]. case_match.
  - unfold sendViaQueue. apply wp_bind. eapply wp_at_native; [done|]. cbv beta iota. apply wp_bind, wp_modify. unfold push_back. cbn.
    apply wp_when; [intros _|done]. unfold doSend. apply wp_bind. eapply wp_at_native; [apply lookup_insert_eq|].
    apply wp_bind. destruct (queue s) as [|t l] eqn:Eq; eapply wp_lift; [unfold front; simpl; by rewrite ?Eq| |unfold front; simpl; by rewrite ?Eq|].
    all: unfold native_send; apply wp_bind; eapply wp_at_native; [apply lookup_insert_eq|]; simpl; rewrite Hcl; by apply wp_ret.
  - unfold sendDirect, native_send. apply wp_bind. eapply wp_at_native; [done|]. rewrite Hcl. by apply wp_ret.
Qed.
End layer.

(** ** Claims *)

(** C24: the native layer is sound. Whatever is called from above and completes below, in any order
    and whatever the system answers: no operation touches a socket that is gone, an empty queue or
    memory outside a packet; every datagram went to the endpoint of the address it was sent to,
    with the bytes of its packet; a connection's overlapped socket is connected to the connection's
    remote address; there is one live socket per address, it is entered in the map, and every
    socket alive is owned; what is handed to the socket above is a well-formed packet. *)
Theorem native_layer_sound {os : Os} (o : OsState) (opts : OptionsImp) (w : SocketImp) :
  rtc native_step (SocketImp_init o opts) w →
  (∀ op, valid op w → is_Some (exec op w)) ∧
  (∀ t e d, (t, e, d) ∈ sent w → e = toEndpoint (address t) ∧ datagram (packet t) = Some d) ∧
  (∀ c i n, imps w !! c = Some i → overlappedSocket i = Some n →
    ∃ s, natives w !! n = Some s ∧ remoteEndpoint s = toEndpoint (remoteAddress i)) ∧
  (∀ n m s t, natives w !! n = Some s → natives w !! m = Some t → n ≠ socket w → m ≠ socket w →
    overlapKey s = overlapKey t → n = m) ∧
  (∀ n s, natives w !! n = Some s → held w n) ∧
  (∀ a p, (a, p) ∈ received w → packet_wf p ∧ Z.of_nat (length a) = sizeof_Address).
Proof.
  intros Hi%native_reachable. pose proof Hi as [_ _ Ho _ Him _ _ _ Hsent _ Hrd]. split_and!; [|done|..].
  - intros op Hv. pose proof (exec_wp op w Hi Hv) as (?&?&E&_)%wp_some. by eexists.
  - intros c i n Hc Hn. destruct (Him c i n Hc Hn) as (Hne&s&Hs&<-). exists s. split; [done|]. by destruct (Ho n s Hs Hne) as (_&_&_&?&_).
  - intros n m s t Hs Ht Hn Hm Hk. destruct (Ho n s Hs Hn) as (_&_&E1&_), (Ho m t Ht Hm) as (_&_&E2&_). congruence.
  - intros n s Hs. destruct (decide (n = socket w)) as [->|Hne]; [by left|]. by destruct (Ho n s Hs Hne) as (_&[?|[]]&_).
  - intros a p Hap. destruct (Hrd a p Hap) as [? ->]. done.
Qed.

(** [relocate] leaves connections that share an overlapped socket with a closed one. It closes
    all overlapped sockets and has each connection give up its socket and get one for its address;
    while another connection still owns the old socket the map finds it. Afterwards both
    connections hold the socket with the closed handle, and sending on them succeeds and sends
    nothing. *)
Lemma relocate_keeps_closed_socket {os : Os} (o : OsState) (opts : OptionsImp) (w : SocketImp)
    (addr : Address) (order : list ConnRef) (c1 c2 : ConnRef) (i1 i2 : ConnectionImp) (n : NativeRef) (p : Packet) :
  rtc native_step (SocketImp_init o opts) w → overlapped_io (imp_options w) = 1 → running w = true →
  c1 ≠ c2 → imps w !! c1 = Some i1 → imps w !! c2 = Some i2 →
  overlappedSocket i1 = Some n → overlappedSocket i2 = Some n → valid (Relocate addr order) w →
  ∃ r w', relocate addr order w = Some (r, w') ∧ imps w' !! c1 = Some i1 ∧ imps w' !! c2 = Some i2 ∧
    (∃ s, natives w' !! n = Some s ∧ handle s = Closed) ∧
    ∃ w'', SocketImp_send p c1 None w' = Some (MRUDP_OK, w'') ∧ sent w'' = sent w'.
Proof.
  intros Hi%native_reachable Hio Hrun Hc12 H1 H2 En1 En2 Hord. simpl in Hord.
  pose proof Hi as [_ _ _ _ Him _ _ _ _ _ _]. destruct (Him c1 i1 n H1 En1) as (Hne&s&Hs&_).
  assert (wp (relocate addr order) (λ _, shared_closed n c1 c2 i1 i2 w) w) as (r&w'&E&[Hi' Eo (s'&Hs'&Hcl) _ H1' H2'])%wp_some.
  { unfold relocate. apply wp_bind. eapply wp_mono; [by apply (close_closes n s)|]. intros [] w1 (Hi1&(Ei1&Es1&Eo1)&Hs1).
    apply wp_bind. pose proof Hi1 as [(s0&Hs0&_) _ _ _ _ _ _ _ _ _ _]. eapply wp_mono; [by apply acquireAddress_wp|].
    intros r w2 (h&o2&e&->). assert (shared_closed n c1 c2 i1 i2 w (acquired (socket w1) h s0 o2 e w1)) as Hsc.
    { split; simpl; [by apply inv_acquired|done| |by rewrite Ei1|by rewrite Ei1|by rewrite Ei1].
      eexists. rewrite lookup_insert_ne by congruence. done. }
    destruct r; [|by apply wp_ret]. apply wp_bind. eapply (wp_mono _ (λ _, shared_closed n c1 c2 i1 i2 w)).
    - destruct Hsc as [Hi2 Eo2 Hc2 Hd2 H12 H22]. pose proof Hi2 as [(s2&Hs2&_) _ _ _ _ _ _ _ _ _ _].
      unfold SocketImp_open. apply wp_bind, wp_modify, wp_bind, wp_mget.
      eapply wp_mono; [apply (doReceive_wp none); [by apply inv_set_running|by exists s2|apply new_Packet_wf]|].
      intros [] w3 (Hi3&(En3&Ei3&_)&l&->). split; done.
    - intros [] w3 Hsc3. apply wp_bind. apply (wp_mono _ (λ _, shared_closed n c1 c2 i1 i2 w)); [|intros [] w4 Hsc4; by apply wp_ret].
      apply wp_mapM_inv; [done|]. intros c w4 Hc Hsc4. eapply reacquire_shared; try done; [lia|].
      by apply (Forall_elem_of _ _ _ Hord). }
  exists r, w'. split_and!; [done|done|done|by eauto|].
  destruct (proj1 (wp_some _ _ _) (send_closed p c1 i1 n s' w' H1' En1 Hs' Hcl ltac:(congruence))) as (?&w''&E2&->&?). by exists w''.
Qed.

(** ** A system that answers every call, two connections to one address *)

#[local] Instance Os_example : Os := {|
  OsState := unit;
  os_close _ := (true, tt);
  os_open _ _ := (true, tt);
  os_set_option _ := (true, tt);
  os_bind e _ := (Some e, tt);
  os_local_endpoint _ := (true, tt);
  os_connect _ _ := (true, tt);
|}.

Definition after {os : Os} (op : Op) (w : SocketImp) : SocketImp :=
  match exec op w with Some (_, w') => w' | None => w end.

Lemma after_step {os : Os} op w o opts :
  rtc native_step (SocketImp_init o opts) w → valid op w → rtc native_step (SocketImp_init o opts) (after op w).
Proof.
  intros Hr Hv. pose proof (exec_wp op w (native_reachable o opts w Hr) Hv) as ([]&w'&E&_)%wp_some.
  eapply rtc_r; [done|]. unfold after. rewrite E. by apply (native_step_intro op).
Qed.

Definition example_local : Address := toAddr (V4 (replicate 4 Byte.x00) 7000).
Definition example_moved : Address := toAddr (V4 (replicate 4 Byte.x00) 8000).
Definition example_remote : Address := toAddr (V4 [Byte.x7f; Byte.x00; Byte.x00; Byte.x01] 9000).
Definition example_options : OptionsImp := systemDefaultOptions_other 4.

Definition example_opened : SocketImp := after Open (after (Acquire example_local) (SocketImp_init (os := Os_example) tt example_options)).
Definition example_one : SocketImp := after (Connect 1 example_remote) example_opened.
Definition example_layer : SocketImp := after (Connect 2 example_remote) example_one.

Lemma example_layer_reachable : rtc native_step (SocketImp_init (os := Os_example) tt example_options) example_layer.
Proof.
  apply after_step; [apply after_step; [apply after_step; [apply after_step; [reflexivity|done]|done]|]|];
    vm_compute; reflexivity.
Qed.

Lemma native_layer_sound_witness :
  (∀ op, valid op example_layer → is_Some (exec op example_layer)) ∧
  (∀ t e d, (t, e, d) ∈ sent example_layer → e = toEndpoint (address t) ∧ datagram (packet t) = Some d) ∧
  (∀ c i n, imps example_layer !! c = Some i → overlappedSocket i = Some n →
    ∃ s, natives example_layer !! n = Some s ∧ remoteEndpoint s = toEndpoint (remoteAddress i)) ∧
  (∀ n m s t, natives example_layer !! n = Some s → natives example_layer !! m = Some t → n ≠ socket example_layer →
    m ≠ socket example_layer → overlapKey s = overlapKey t → n = m) ∧
  (∀ n s, natives example_layer !! n = Some s → held example_layer n) ∧
  (∀ a p, (a, p) ∈ received example_layer → packet_wf p ∧ Z.of_nat (length a) = sizeof_Address).
Proof. apply (native_layer_sound (os := Os_example) tt example_options). apply example_layer_reachable. Defined.

Lemma relocate_keeps_closed_socket_witness :
  ∃ r w', relocate example_moved [1; 2]%nat example_layer = Some (r, w') ∧
    imps w' !! 1%nat = Some (mkConnectionImp example_remote (Some 1%nat)) ∧
    imps w' !! 2%nat = Some (mkConnectionImp example_remote (Some 1%nat)) ∧
    (∃ s, natives w' !! 1%nat = Some s ∧ handle s = Closed) ∧
    ∃ w'', SocketImp_send new_Packet 1 None w' = Some (MRUDP_OK, w'') ∧ sent w'' = sent w'.
Proof.
  apply (relocate_keeps_closed_socket (os := Os_example) tt example_options example_layer example_moved [1; 2]%nat 1 2
    (mkConnectionImp example_remote (Some 1%nat)) (mkConnectionImp example_remote (Some 1%nat)) 1 new_Packet).
  - apply example_layer_reachable.
  - vm_compute; reflexivity.
  - vm_compute; reflexivity.
  - discriminate.
  - vm_compute; reflexivity.
  - vm_compute; reflexivity.
  - reflexivity.
  - reflexivity.
  - apply Forall_cons_2; [eexists; vm_compute; reflexivity|]. apply Forall_cons_2; [eexists; vm_compute; reflexivity|]. apply Forall_nil_2.
Defined.

(** With a socket of its own a connection moves along: its packet leaves through the new handle. *)
Example relocate_alone_run :
  let w := after (Relocate example_moved [1%nat]) example_one in
  (overlappedSocket <$> imps w !! 1%nat) = Some (Some 2%nat) ∧
  (handle <$> natives w !! 2%nat) = Some (Connected (toEndpoint example_moved) (toEndpoint example_remote)) ∧
  length (sent (after (SendPacket new_Packet 1 None) w)) = 1%nat.
Proof. by vm_compute. Qed.

(** A receive that was under way when the socket was relocated begins again beside the one that
    [relocate] began: the socket then receives twice at a time. *)
Example relocate_doubles_receives :
  let w := after (ReceiveCompleted 0 None) (after (Relocate example_moved []) example_opened) in
  (rv_socket <$> receiving example_opened) = [0%nat] ∧ (rv_socket <$> receiving w) = [0%nat; 0%nat].
Proof. by vm_compute. Qed.

(** ** Threads *)

Definition is_joinable (r : Runner) : bool := match r with Joinable _ => true | _ => false end.

Lemma stopped_runner self r : is_joinable (stop_runner self r) = false ∧ (is_joinable r = true → stop_runner self r ≠ Joined self).
Proof. destruct r as [id|id|id]; simpl; try done. case_decide; split; try done. congruence. Qed.

(** The threads of a service with the default options outside Linux. On up to 128 processors
    it starts one thread less than there are processors, and at least one; stopping it, also from
    one of its threads, leaves no thread to be joined, and no thread joins itself. From 129
    processors on the quantity, an [int8_t], wraps around, and the service begins to start more
    threads than an [int] can count. *)
Lemma default_thread_quantity (hardware_concurrency : Z) (first self : nat) :
  let s := ServiceImp_init (systemDefaultOptions_other hardware_concurrency) None in
  (1 ≤ hardware_concurrency ≤ 128 → ∃ s', ServiceImp_start hardware_concurrency first s = Some s' ∧
    Z.of_nat (length (runners s')) = Z.max 1 (hardware_concurrency - 1) ∧ working s' = true ∧
    Forall (λ r, is_joinable r = false ∧ r ≠ Joined self) (runners (ServiceImp_stop self s'))) ∧
  (129 ≤ hardware_concurrency ≤ 256 → ServiceImp_start hardware_concurrency first s = None).
Proof.
  intros s. assert (thread_quantity (options s) = swrap 8 (hardware_concurrency - 1)) as Hq by (simpl; by case_match).
  unfold ServiceImp_start, processor_count. rewrite Hq. cbn [working s ServiceImp_init]. split; intros Hh.
  - rewrite swrap_small by lia. destruct (Z.eqb_spec (hardware_concurrency - 1) 0); rewrite wrap_small by (unfold in_u; lia).
    all: rewrite (proj2 (Z.ltb_lt _ _)) by lia; eexists; split; [done|]; simpl; rewrite length_fmap, length_seq.
    all: split; [lia|]; split; [done|]; apply Forall_fmap, Forall_fmap, Forall_forall; intros k _; simpl.
    all: destruct (stopped_runner self (Joinable k)) as [? Hj]; split; [done|by apply Hj].
  - assert (swrap 8 (hardware_concurrency - 1) = hardware_concurrency - 257) as ->.
    { unfold swrap. change (2 ^ (8 - 1)) with 128. change (2 ^ 8) with 256.
      replace (hardware_concurrency - 1 + 128) with (hardware_concurrency - 129 + 1 * 256) by lia.
      rewrite Z_mod_plus_full, Z.mod_small by lia. lia. }
    rewrite (proj2 (Z.eqb_neq _ _)) by lia. unfold wrap. change (2 ^ 32) with 4294967296.
    replace (hardware_concurrency - 257) with (hardware_concurrency + 4294967039 + -1 * 4294967296) by lia.
    rewrite Z_mod_plus_full, Z.mod_small by lia. rewrite (proj2 (Z.ltb_ge _ _)) by lia. done.
Qed.

Lemma default_thread_quantity_witness :
  (∃ s', ServiceImp_start 8 0 (ServiceImp_init (systemDefaultOptions_other 8) None) = Some s' ∧
    Z.of_nat (length (runners s')) = 7 ∧ working s' = true ∧
    Forall (λ r, is_joinable r = false ∧ r ≠ Joined 3) (runners (ServiceImp_stop 3 s'))) ∧
  ServiceImp_start 192 0 (ServiceImp_init (systemDefaultOptions_other 192) None) = None.
Proof.
  split.
  - apply (default_thread_quantity 8 0 3). lia.
  - apply (default_thread_quantity 192 0 3). lia.
Defined.
