(* ===== verification/SendQueue.v ===== *)
(** * The send queue: [sender/SendQueue]

    The queue of packets yet to be sent. Data is appended as frames, to the last packet, to new
    packets or to the compression buffer, depending on the coalescing mode; packets are taken
    from the front.

    The options pointer of the source aliases the connection's options: the one field read
    through it, the compression level, is an argument of the operations that read it. The
    second compression buffer is scratch space that is empty between calls. *)

From S2P Require Import Prelude MemCopy Packet ReceiveQueue Types.

(** ** zlib, used through [compress2] and [uncompress] *)

Class Zlib := {
  (** source, capacity of the destination, level: the compressed bytes, [None] if not [Z_OK] *)
  compress2 : bytes → Z → Z → option bytes;
  (** source, capacity: the first [destLen] bytes of the destination after the call *)
  uncompress : bytes → Z → bytes;
}.

(** What zlib documents: a successful compression fits the given capacity, and decompressing it
    into a buffer of the original size restores the original. *)
Class ZlibLaws `{!Zlib} : Prop := {
  compress2_fits src cap level out :
    compress2 src cap level = Some out → Z.of_nat (length out) ≤ cap;
  uncompress_compress2 src cap level out :
    compress2 src cap level = Some out → uncompress out (Z.of_nat (length src)) = src;
}.

(** ** State *)
Inductive Status := OPEN | CLOSED.
#[export] Instance Status_eq_dec : EqDecision Status.
Proof. solve_decision. Defined.

Record SendQueue := mkSendQueue {
  status : Status;
  frameIDGenerator : Z;         (* IDGenerator<FrameID> *)
  queue : list Packet;
  compressionBuffer : bytes;    (* compressionBuffers[0] *)
}.

Definition SendQueue_init : SendQueue := mkSendQueue OPEN IDGenerator_init [] [].

Definition set_queue (l : list Packet) (q : SendQueue) : SendQueue :=
  mkSendQueue (status q) (frameIDGenerator q) l (compressionBuffer q).
Definition set_buffer (b : bytes) (q : SendQueue) : SendQueue :=
  mkSendQueue (status q) (frameIDGenerator q) (queue q) b.

(** Assign to the object at the back of a list. *)
Definition replace_back {A} (l : list A) (x : A) : list A := take (pred (length l)) l ++ [x].

(** ** Operations *)

Definition close : M SendQueue unit :=
  modify (λ q, if decide (status q = CLOSED) then q
               else mkSendQueue CLOSED (frameIDGenerator q) [] (compressionBuffer q)).

(** [frameIDGenerator.nextID()] *)
Definition nextFrameID : M SendQueue Z := λ q,
  let '(i, g) := nextID (frameIDGenerator q) in
  Some (i, mkSendQueue (status q) g (queue q) (compressionBuffer q)).

(** [queue.push_back(strong<Packet>())] *)
Definition push_new : M SendQueue unit := modify (λ q, set_queue (queue q ++ [new_Packet]) q).

(** [pushFrame( *queue.back(), header, data)]; the result is not looked at. *)
Definition pushFrame_back (header : FrameHeader) (data : bytes) : M SendQueue unit := λ q,
  match last (queue q) with
  | Some packet =>
    '(packet', _) ← pushFrame packet header data;
    Some (tt, set_queue (replace_back (queue q) packet') q)
  | None => None
  end.

Definition coalescePacket (type : Z) (data : bytes) : M SendQueue bool :=
  q ← mget;
  match last (queue q) with
  | None => mret false
  | Some packet =>
    let size := Z.of_nat (length data) in
    if size_t (p_dataSize packet + size + sizeof_FrameHeader) <? MAX_PACKET_POST_FRAME_SIZE then
      id ← nextFrameID;
      pushFrame_back (mkFrameHeader id type (u16 size)) data;;
      mret true
    else mret false
  end.

(** [offset] is an [int]: the sum is formed in [size_t] and converted back. *)
Fixpoint coalesceStream_loop (fuel : nat) (type : Z) (data : bytes) (offset size : Z) : M SendQueue unit :=
  match fuel with
  | O => ub
  | S fuel =>
    if 0 <? size then
      q ← mget;
      match last (queue q) with
      | None => ub
      | Some packet =>
        let availableWriteSize := MAX_PACKET_POST_FRAME_SIZE - (p_dataSize packet + sizeof_FrameHeader) in
        if 0 <? availableWriteSize then
          let writeSize := Z.min availableWriteSize size in
          if offset <? 0 then ub else
          id ← nextFrameID;
          pushFrame_back (mkFrameHeader id type (u16 writeSize)) (drop (Z.to_nat offset) data);;
          coalesceStream_loop fuel type data (int32 (offset + writeSize)) (size - writeSize)
        else
          push_new;;
          coalesceStream_loop fuel type data offset size
      end
    else mret tt
  end.

(** At most every second round only opens a packet; every other one writes at least a byte. *)
Definition coalesceStream (type : Z) (data : bytes) : M SendQueue bool :=
  q ← mget;
  when (bool_decide (queue q = [])) push_new;;
  coalesceStream_loop (2 * length data + 2) type data 0 (Z.of_nat (length data));;
  mret true.

Definition coalesceStreamCompressed (type : Z) (data : bytes) : M SendQueue bool :=
  modify (λ q, set_buffer (compressionBuffer q ++
    le_encode 1 type ++ le_encode 4 (Z.of_nat (length data)) ++ data) q);;
  mret true.

Section with_zlib.
Context `{!Zlib}.

(** The bytes [compress] builds in the scratch buffer: total size, flag, and either the
    uncompressed size with the compressed bytes or the bytes themselves. *)
Definition compress_output (level : Z) (source : bytes) : bytes :=
  let sourceLen := Z.of_nat (length source) in
  let minimumSizeToAttemptCompression := 48 in
  let compressed :=
    if (0 <? level) && (minimumSizeToAttemptCompression <=? sourceLen)
    then compress2 source sourceLen level else None in
  match compressed with
  | Some dest =>
    let outSize := u32 (4 + 1 + 4 + Z.of_nat (length dest)) in
    take (Z.to_nat outSize) (le_encode 4 outSize ++ le_encode 1 1 ++ le_encode 4 (u32 sourceLen) ++ dest)
  | None =>
    let outSize := u32 (4 + 1 + sourceLen) in
    take (Z.to_nat outSize) (le_encode 4 outSize ++ le_encode 1 0 ++ source)
  end.

Definition compress (level : Z) : M SendQueue unit :=
  q ← mget;
  coalesceStream DATA_COMPRESSED (compress_output level (compressionBuffer q));;
  modify (set_buffer []).

Definition coalesce (type : Z) (data : bytes) (mode : Z) : M SendQueue bool :=
  if mode =? MRUDP_COALESCE_NONE then mret false
  else if mode =? MRUDP_COALESCE_PACKET then coalescePacket type data
  else if mode =? MRUDP_COALESCE_STREAM then coalesceStream type data
  else if mode =? MRUDP_COALESCE_STREAM_COMPRESSED then coalesceStreamCompressed type data
  else mret false.

Definition enqueue (type : Z) (data : bytes) (mode : Z) : M SendQueue unit :=
  q ← mget;
  if decide (status q = CLOSED) then mret tt
  else
    coalesced ← coalesce type data mode;
    if (coalesced : bool) then mret tt
    else
      id ← nextFrameID;
      '(packet, _) ← lift (pushFrame new_Packet (mkFrameHeader id type (u16 (Z.of_nat (length data)))) data);
      modify (λ q, set_queue (queue q ++ [packet]) q).

Definition dequeue (level : Z) : M SendQueue (option Packet) :=
  q ← mget;
  if decide (status q = CLOSED) then mret None
  else
    when (bool_decide (queue q = []) && negb (bool_decide (compressionBuffer q = []))) (compress level);;
    q ← mget;
    match queue q with
    | [] => mret None
    | packet :: rest => modify (set_queue rest);; mret (Some packet)
    end.

End with_zlib.

Definition empty (q : SendQueue) : bool :=
  bool_decide (queue q = []) && bool_decide (compressionBuffer q = []).

Definition clear : M SendQueue unit :=
  modify (λ q, set_queue [] (set_buffer [] q)).

(** ** The frames in the queue

    The abstract view of a queue: the sequence of frames its packets hold, numbered without
    gaps, and the number the next frame gets. *)

(** [p] holds exactly the frames [fs] and leaves room for the crypto overhead. *)
Definition packet_frames (p : Packet) (fs : list Frame) : Prop :=
  packet_wf p ∧ p_dataSize p ≤ MAX_PACKET_POST_FRAME_SIZE ∧
  payload p = encode_Frames fs ∧ Forall frame_wf fs.

Definition numbered (base : nat) (fs : list Frame) : Prop :=
  ∀ i f, fs !! i = Some f → fh_id (f_header f) = u16 (Z.of_nat (base + i)).

Definition sq_rep (q : SendQueue) (base : nat) (fs : list Frame) : Prop :=
  ∃ fss, Forall2 packet_frames (queue q) fss ∧ fs = concat fss ∧ numbered base fs ∧
    frameIDGenerator q = u16 (Z.of_nat (base + length fs)).

Definition frames_data (fs : list Frame) : bytes := concat (f_data <$> fs).

Lemma frames_data_app fs gs : frames_data (fs ++ gs) = frames_data fs ++ frames_data gs.
Proof. unfold frames_data. by rewrite fmap_app, concat_app. Qed.

Lemma numbered_app base fs gs :
  numbered base (fs ++ gs) ↔ numbered base fs ∧ numbered (base + length fs) gs.
Proof.
  split.
  - intros H. split; intros i f Hi.
    + apply H. by apply lookup_app_l_Some.
    + rewrite <-Nat.add_assoc. apply H. rewrite lookup_app_r by lia.
      by replace (length fs + i - length fs)%nat with i by lia.
  - intros [H1 H2] i f [Hi|[? Hi]]%lookup_app_Some; [by apply H1|].
    rewrite (H2 _ _ Hi). f_equal. lia.
Qed.

Lemma replace_back_snoc {A} (l : list A) x y : replace_back (l ++ [x]) y = l ++ [y].
Proof.
  unfold replace_back. rewrite length_app, Nat.add_comm. simpl. by rewrite take_app_length.
Qed.

Lemma new_Packet_frames : packet_frames new_Packet [].
Proof. split_and!; [apply new_Packet_wf|done|done|constructor]. Qed.

Lemma sq_rep_init : sq_rep SendQueue_init 0 [].
Proof. exists []. split_and!; [constructor|done|by intros i f ?|done]. Qed.

(** Pushing a frame that fits appends it to the packet's frames. *)
Lemma pushFrame_fits p fs h data :
  packet_frames p fs → FrameHeader_wf h → fh_dataSize h ≤ Z.of_nat (length data) →
  p_dataSize p + sizeof_FrameHeader + fh_dataSize h ≤ MAX_PACKET_POST_FRAME_SIZE →
  ∃ p', pushFrame p h data = Some (p', true) ∧
    packet_frames p' (fs ++ [mkFrame h (take (Z.to_nat (fh_dataSize h)) data)]) ∧
    p_header p' = p_header p ∧
    p_dataSize p' = p_dataSize p + sizeof_FrameHeader + fh_dataSize h.
Proof.
  intros (Hwf&Hs&Hpay&Hfs) Hh Hd Hfit. pose proof Hh as (_&_&[??]).
  destruct (pushData_T_fits p (encode_FrameHeader h)) as (p1&E1&Hwf1&Hpay1&Hh1&Hs1);
    [done|rewrite encode_FrameHeader_length; size_lia|].
  rewrite encode_FrameHeader_length in Hs1.
  destruct (pushData_fits p1 (take (Z.to_nat (fh_dataSize h)) data)) as (p2&E2&Hwf2&Hpay2&Hh2&Hs2);
    [done|rewrite length_take; size_lia|].
  rewrite length_take in Hs2. exists p2.
  unfold pushFrame. rewrite E1. simpl. rewrite decide_True by done. rewrite E2.
  split_and!; [done| |congruence|size_lia].
  split_and!; [done|size_lia| |].
  - rewrite Hpay2, Hpay1, Hpay, encode_Frames_app, encode_Frames_singleton, <-app_assoc. done.
  - apply Forall_app. split; [done|]. apply Forall_singleton. split; [done|]. simpl.
    rewrite length_take. lia.
Qed.

(** ** What each operation appends *)

(** Everything but the packets and the id generator. *)
Definition same_rest (q q' : SendQueue) : Prop :=
  status q' = status q ∧ compressionBuffer q' = compressionBuffer q.

Definition next_frame (base : nat) (fs : list Frame) (type : Z) (data : bytes) : Frame :=
  mkFrame (mkFrameHeader (u16 (Z.of_nat (base + length fs))) type (Z.of_nat (length data))) data.

Lemma sq_rep_snoc q base fs p p' gs f :
  sq_rep q base fs → last (queue q) = Some p → packet_frames p gs →
  packet_frames p' (gs ++ [f]) → fh_id (f_header f) = u16 (Z.of_nat (base + length fs)) →
  sq_rep (mkSendQueue (status q) (u16 (frameIDGenerator q + 1)) (replace_back (queue q) p')
            (compressionBuffer q)) base (fs ++ [f]).
Proof.
  intros (fss&Hq&->&Hn&Hg) [l Hl]%last_Some Hp Hp' Hid. rewrite Hl in *.
  apply Forall2_app_inv_l in Hq as (fss1&fss2&Hl1&Hl2&->).
  apply Forall2_cons_inv_l in Hl2 as (gs'&?&Hgs&->%Forall2_nil_inv_l&->).
  assert (gs' = gs) as ->.
  { destruct Hgs as (_&_&E1&?), Hp as (_&_&E2&?). rewrite E1 in E2. by apply encode_Frames_inj. }
  exists (fss1 ++ [gs ++ [f]]). rewrite replace_back_snoc. split_and!; simpl.
  - apply Forall2_app; [done|]. by apply Forall2_cons_2.
  - rewrite !concat_app. simpl. by rewrite !app_nil_r, app_assoc.
  - apply numbered_app. split; [done|]. intros [|i] g Hi; [|done]. injection Hi as <-.
    rewrite Hid. f_equal. lia.
  - rewrite Hg, wrap_wrap_add, length_app. simpl. f_equal. lia.
Qed.

Lemma last_replace_back {A} (l : list A) x : last (replace_back l x) = Some x.
Proof. unfold replace_back. apply last_snoc. Qed.

Lemma sq_rep_last q base fs p :
  sq_rep q base fs → last (queue q) = Some p → ∃ gs, packet_frames p gs.
Proof.
  intros (fss&Hq&_) [l Hl]%last_Some. rewrite Hl in Hq.
  apply Forall2_app_inv_l in Hq as (?&?&_&Hq&_).
  apply Forall2_cons_inv_l in Hq as (gs&?&?&_). eauto.
Qed.

Lemma sq_rep_gen q base fs : sq_rep q base fs → frameIDGenerator q = u16 (Z.of_nat (base + length fs)).
Proof. by intros (?&_&_&_&?). Qed.

(** Write the first [n] bytes of [data] as one frame into the last packet. *)
Lemma wp_append {B} (k : M SendQueue B) Q q base fs p type data n :
  sq_rep q base fs → last (queue q) = Some p → in_u 8 type →
  0 ≤ n ≤ Z.of_nat (length data) →
  p_dataSize p + sizeof_FrameHeader + n ≤ MAX_PACKET_POST_FRAME_SIZE →
  (∀ q' p', sq_rep q' base (fs ++ [next_frame base fs type (take (Z.to_nat n) data)]) →
     same_rest q q' → last (queue q') = Some p' →
     p_dataSize p' = p_dataSize p + sizeof_FrameHeader + n → wp k Q q') →
  wp (id ← nextFrameID; pushFrame_back (mkFrameHeader id type (u16 n)) data;; k) Q q.
Proof.
  intros Hq Hl Ht Hn Hfit Hk. destruct (sq_rep_last _ _ _ _ Hq Hl) as [gs Hgs].
  pose proof Hgs as ((_&?)&_).
  rewrite (wrap_small 16 n) by size_lia.
  apply wp_bind. unfold wp at 1, nextFrameID, nextID. simpl.
  set (h := mkFrameHeader (frameIDGenerator q) type n).
  assert (FrameHeader_wf h) as Hh.
  { unfold h. split_and!; simpl; [|done|size_lia].
    rewrite (sq_rep_gen _ _ _ Hq). apply wrap_range. lia. }
  destruct (pushFrame_fits p gs h data) as (p'&E&Hp'&_&Hs); [done|done|simpl; lia|simpl; size_lia|].
  apply wp_bind. unfold wp at 1, pushFrame_back. simpl. rewrite Hl, E. simpl.
  eapply Hk; [| |apply last_replace_back|done]; [|done].
  replace (next_frame base fs type (take (Z.to_nat n) data))
    with (mkFrame h (take (Z.to_nat (fh_dataSize h)) data)).
  - eapply sq_rep_snoc; [done..|]. simpl. by apply sq_rep_gen.
  - unfold next_frame, h. simpl. rewrite (sq_rep_gen _ _ _ Hq), length_take.
    repeat f_equal. lia.
Qed.

Lemma sq_rep_new q base fs :
  sq_rep q base fs → sq_rep (set_queue (queue q ++ [new_Packet]) q) base fs.
Proof.
  intros (fss&Hq&->&?&?). exists (fss ++ [[]]). simpl. rewrite concat_app. simpl. rewrite app_nil_r.
  split_and!; [|done..]. apply Forall2_app; [done|]. apply Forall2_cons_2; [|constructor].
  apply new_Packet_frames.
Qed.

(** The frames an operation has appended to carry [data]. *)
Definition appended (q : SendQueue) (base : nat) (fs : list Frame) (type : Z) (data : bytes)
    (q' : SendQueue) : Prop :=
  ∃ new, sq_rep q' base (fs ++ new) ∧ same_rest q q' ∧ frames_data new = data ∧
    Forall (λ f, fh_type (f_header f) = type) new.

Lemma same_rest_trans q1 q2 q3 : same_rest q1 q2 → same_rest q2 q3 → same_rest q1 q3.
Proof. unfold same_rest. intuition congruence. Qed.

Lemma coalesceStream_loop_spec fuel type data off q base fs p :
  let rest := drop off data in
  sq_rep q base fs → last (queue q) = Some p → in_u 8 type →
  (off ≤ length data)%nat → Z.of_nat (length data) < 2 ^ 31 →
  (2 * length rest + (if decide (p_dataSize p + sizeof_FrameHeader < MAX_PACKET_POST_FRAME_SIZE)%Z
     then 1 else 2) ≤ fuel)%nat →
  wp (coalesceStream_loop fuel type data (Z.of_nat off) (Z.of_nat (length rest)))
    (λ _, appended q base fs type rest) q.
Proof.
  cbv zeta. revert off q fs p.
  induction fuel as [|fuel IH]; intros off q fs p Hq Hl Ht Hoff Hbig Hf.
  { case_decide; lia. }
  cbn [coalesceStream_loop].
  destruct (Z.ltb_spec 0 (Z.of_nat (length (drop off data)))) as [Hd|Hd]; cycle 1.
  { wp_steps. exists []. rewrite app_nil_r. split_and!; [done|done| |constructor].
    destruct (drop off data); [done|simpl in Hd; lia]. }
  wp_steps. rewrite Hl. case_decide as Hroom.
  - rewrite (proj2 (Z.ltb_lt _ _)) by lia. rewrite (proj2 (Z.ltb_ge _ _)) by lia.
    rewrite Nat2Z.id. set (n := Z.min _ _) in *. pose proof (length_drop data off) as Hld.
    apply (wp_append _ _ q base fs p); [done|done|done|size_lia|size_lia|].
    intros q' p' Hq' Hsame Hl' Hs'.
    rewrite (swrap_small 32) by lia. replace (Z.of_nat off + n) with (Z.of_nat (off + Z.to_nat n)) by size_lia.
    assert (Z.of_nat (length (drop off data)) - n = Z.of_nat (length (drop (off + Z.to_nat n) data))) as ->.
    { rewrite !length_drop. size_lia. }
    eapply wp_mono; [eapply (IH _ q'); [done|done|done|size_lia|done|]|].
    { rewrite length_drop. case_decide; size_lia. }
    intros [] q'' (new&Hrep&Hsame'&Hdata&Hty).
    exists (next_frame base fs type (take (Z.to_nat n) (drop off data)) :: new).
    rewrite <-app_assoc in Hrep. split_and!; [done|by eapply same_rest_trans| |by constructor].
    change (frames_data (?f :: new)) with (f_data f ++ frames_data new). rewrite Hdata. simpl.
    rewrite <-drop_drop. apply take_drop.
  - rewrite (proj2 (Z.ltb_ge _ _)) by lia. unfold push_new. wp_steps.
    eapply wp_mono; [eapply (IH _ _ fs new_Packet); [by apply sq_rep_new|apply last_snoc|done|done|done|]|done].
    rewrite decide_True by (simpl; size_lia). lia.
Qed.

Lemma coalesceStream_spec type data q base fs :
  sq_rep q base fs → in_u 8 type → Z.of_nat (length data) < 2 ^ 31 →
  wp (coalesceStream type data) (λ b q', b = true ∧ appended q base fs type data q') q.
Proof.
  intros Hq Ht Hbig. unfold coalesceStream. wp_steps.
  assert (∀ q', sq_rep q' base fs → same_rest q q' → queue q' ≠ [] →
    wp (coalesceStream_loop (2 * length data + 2) type data 0 (Z.of_nat (length data));; mret true)
      (λ b q', b = true ∧ appended q base fs type data q') q') as Hk.
  { intros q' Hq' Hs Hne. destruct (last (queue q')) as [p|] eqn:Hl; [|by apply last_None in Hl].
    apply wp_bind. eapply wp_mono;
      [eapply (coalesceStream_loop_spec _ _ data 0 q' base fs p); [done|done|done|lia|done|]|].
    { rewrite drop_0. case_decide; lia. }
    rewrite drop_0. intros [] q'' (new&?&?&?&?). wp_steps. split; [done|]. exists new.
    split_and!; [done|by eapply same_rest_trans|done..]. }
  apply wp_when; intros E.
  - apply wp_modify. apply Hk; [by apply sq_rep_new|done|]. simpl. by destruct (queue q).
  - apply Hk; [done|done|]. by apply bool_decide_eq_false in E.
Qed.

Lemma coalescePacket_spec type data q base fs :
  sq_rep q base fs → in_u 8 type → Z.of_nat (length data) < 2 ^ 63 →
  wp (coalescePacket type data)
    (λ b q', if (b : bool) then sq_rep q' base (fs ++ [next_frame base fs type data]) ∧ same_rest q q'
             else q' = q) q.
Proof.
  intros Hq Ht Hsz. unfold coalescePacket. wp_steps.
  destruct (last (queue q)) as [p|] eqn:Hl; [|by wp_steps].
  destruct (sq_rep_last _ _ _ _ Hq Hl) as [gs ([? ?]&?&_)].
  rewrite (wrap_small 64) by size_lia.
  destruct (Z.ltb_spec (p_dataSize p + Z.of_nat (length data) + sizeof_FrameHeader)
    MAX_PACKET_POST_FRAME_SIZE); [|by wp_steps].
  eapply wp_append; [done..|size_lia|size_lia|].
  intros q' p' Hq' Hs _ _. wp_steps. by rewrite Nat2Z.id, take_ge in Hq' by lia.
Qed.

(** A frame in a packet of its own at the back of the queue. *)
Lemma wp_push_packet q base fs type data Q :
  sq_rep q base fs → in_u 8 type → Z.of_nat (length data) ≤ MAX_PACKET_DATA_SIZE →
  (∀ q', sq_rep q' base (fs ++ [next_frame base fs type data]) → same_rest q q' → Q tt q') →
  wp (id ← nextFrameID;
      '(packet, _) ← lift (pushFrame new_Packet (mkFrameHeader id type (u16 (Z.of_nat (length data)))) data);
      modify (λ q, set_queue (queue q ++ [packet]) q)) Q q.
Proof.
  intros Hq Ht Hsz HQ. rewrite (wrap_small 16 (Z.of_nat _)) by size_lia.
  apply wp_bind. unfold wp at 1, nextFrameID, nextID. simpl.
  set (h := mkFrameHeader (frameIDGenerator q) type (Z.of_nat (length data))).
  pose proof (sq_rep_gen _ _ _ Hq) as Hg.
  assert (FrameHeader_wf h) as Hh.
  { unfold h. split_and!; simpl; [|done|size_lia]. rewrite Hg. apply wrap_range. lia. }
  destruct (pushFrame_fits new_Packet [] h data) as (p&E&Hp&_);
    [apply new_Packet_frames|done|done|simpl; size_lia|].
  apply wp_bind. eapply wp_lift; [done|]. apply wp_modify. apply HQ; [|done].
  destruct Hq as (fss&Hq&->&Hn&_). simpl in Hp. rewrite Nat2Z.id, take_ge in Hp by lia.
  exists (fss ++ [[mkFrame h data]]). simpl. split_and!.
  - apply Forall2_app; [done|]. by apply Forall2_cons_2.
  - rewrite concat_app. simpl. unfold next_frame, h. by rewrite Hg.
  - apply numbered_app. split; [done|]. intros [|i] g Hi; [|done]. injection Hi as <-.
    simpl. f_equal. lia.
  - rewrite Hg, wrap_wrap_add, length_app. simpl. f_equal. lia.
Qed.

Section with_zlib.
Context `{!Zlib}.

Lemma enqueue_frame_spec type data mode q base fs :
  sq_rep q base fs → status q = OPEN → in_u 8 type →
  mode = MRUDP_COALESCE_NONE ∨ mode = MRUDP_COALESCE_PACKET →
  Z.of_nat (length data) ≤ MAX_PACKET_DATA_SIZE →
  wp (enqueue type data mode)
    (λ _ q', sq_rep q' base (fs ++ [next_frame base fs type data]) ∧ same_rest q q') q.
Proof.
  intros Hq Hst Ht Hmode Hsz. unfold enqueue. wp_steps. rewrite decide_False by congruence.
  destruct Hmode as [-> | ->]; apply wp_bind.
  - change (coalesce _ _ _) with (mret false : M SendQueue bool). apply wp_ret. cbv beta iota.
    apply (wp_push_packet q base fs); [done..|]. by intros.
  - change (coalesce _ _ _) with (coalescePacket type data).
    eapply wp_mono; [eapply coalescePacket_spec; [done..|size_lia]|].
    intros [] q' Hb; [by wp_steps|subst q']. cbv beta iota.
    apply (wp_push_packet q base fs); [done..|]. by intros.
Qed.

Lemma enqueue_stream_spec type data q base fs :
  sq_rep q base fs → status q = OPEN → in_u 8 type → Z.of_nat (length data) < 2 ^ 31 →
  wp (enqueue type data MRUDP_COALESCE_STREAM) (λ _, appended q base fs type data) q.
Proof.
  intros Hq Hst Ht Hbig. unfold enqueue. wp_steps. rewrite decide_False by congruence.
  change (coalesce _ _ _) with (coalesceStream type data).
  apply wp_bind. eapply wp_mono; [by eapply coalesceStream_spec|].
  intros b q' [-> ?]. by wp_steps.
Qed.

(** Buffers the stream loop can count in an [int]. *)
Definition buffer_small (q : SendQueue) : Prop :=
  Z.of_nat (length (compressionBuffer q)) + 9 < 2 ^ 31.

Lemma compress_output_small `{!ZlibLaws} level source :
  Z.of_nat (length source) + 9 < 2 ^ 31 → Z.of_nat (length (compress_output level source)) < 2 ^ 31.
Proof.
  intros Hs. unfold compress_output. case_match eqn:E; rewrite length_take, !length_app, !le_encode_length.
  - case_match; [|done]. apply compress2_fits in E. lia.
  - lia.
Qed.

Lemma compress_spec `{!ZlibLaws} level q base fs :
  sq_rep q base fs → buffer_small q →
  wp (compress level) (λ _ q', ∃ new, sq_rep q' base (fs ++ new) ∧ status q' = status q ∧
    compressionBuffer q' = [] ∧ frames_data new = compress_output level (compressionBuffer q) ∧
    Forall (λ f, fh_type (f_header f) = DATA_COMPRESSED) new) q.
Proof.
  intros Hq Hsm. unfold compress. wp_steps.
  eapply wp_mono; [apply coalesceStream_spec; [done|done|by apply compress_output_small]|].
  intros b q' (_&new&(fss&?)&[? _]&?&?). wp_steps. exists new. split_and!; try done. by exists fss.
Qed.

(** What dequeuing first moves into the queue: the compressed buffer, if nothing else waits. *)
Definition flushed (level : Z) (q : SendQueue) (fs fs1 : list Frame) : Prop :=
  if decide (queue q = [] ∧ compressionBuffer q ≠ [])
  then frames_data fs1 = compress_output level (compressionBuffer q) ∧
       Forall (λ f, fh_type (f_header f) = DATA_COMPRESSED) fs1
  else fs1 = fs.

Lemma sq_rep_empty q base fs : sq_rep q base fs → queue q = [] → fs = [].
Proof. intros (fss&Hq&->&_) E. rewrite E in Hq. by apply Forall2_nil_inv_l in Hq as ->. Qed.

(** The result of a [dequeue]: the front packet with its frames, or that nothing waits. *)
Definition dequeued (level : Z) (q : SendQueue) (base : nat) (fs : list Frame)
    (r : option Packet) (q' : SendQueue) : Prop :=
  ∃ fs1, flushed level q fs fs1 ∧ status q' = OPEN ∧
    compressionBuffer q' = (if decide (queue q = []) then [] else compressionBuffer q) ∧
    match r with
    | Some p => ∃ gs rest, fs1 = gs ++ rest ∧ packet_frames p gs ∧ sq_rep q' (base + length gs) rest
    | None => queue q' = [] ∧ fs1 = [] ∧ sq_rep q' base []
    end.

Lemma pop_front_spec level q q1 base fs fs1 :
  sq_rep q1 base fs1 → flushed level q fs fs1 → status q1 = OPEN →
  compressionBuffer q1 = (if decide (queue q = []) then [] else compressionBuffer q) →
  wp (q2 ← mget; match queue q2 with [] => mret None
       | packet :: rest => modify (set_queue rest);; mret (Some packet) end)
    (dequeued level q base fs) q1.
Proof.
  intros Hq1 Hfl Hs1 Hb1. wp_steps. destruct (queue q1) as [|p rest] eqn:Eq1; wp_steps.
  - pose proof (sq_rep_empty _ _ _ Hq1 Eq1) as ->. by exists [].
  - exists fs1. split_and!; [done..|]. destruct Hq1 as (fss&Hf&->&Hn&Hg). rewrite Eq1 in Hf.
    apply Forall2_cons_inv_l in Hf as (gs&fss'&Hp&Hf&->). exists gs, (concat fss').
    split_and!; [done|done|]. simpl in Hn, Hg. apply numbered_app in Hn as [_ Hn].
    exists fss'. split_and!; [done|done|done|]. simpl. rewrite Hg, length_app. f_equal. lia.
Qed.

Lemma dequeue_spec `{!ZlibLaws} level q base fs :
  sq_rep q base fs → status q = OPEN → buffer_small q → wp (dequeue level) (dequeued level q base fs) q.
Proof.
  intros Hq Hst Hsm. unfold dequeue. wp_steps. rewrite decide_False by congruence.
  apply wp_bind, wp_when; intros E.
  - apply andb_true_iff in E as [E1%bool_decide_eq_true E2%negb_true_iff%bool_decide_eq_false].
    eapply wp_mono; [by apply compress_spec|]. intros [] q1 (new&Hq1&Hs1&Hb1&Hd&Ht).
    rewrite (sq_rep_empty _ _ _ Hq E1) in Hq1.
    eapply (pop_front_spec level q q1 base fs new); [done| |congruence|].
    + unfold flushed. by rewrite decide_True.
    + by rewrite decide_True.
  - apply (pop_front_spec level q q base fs fs); [done| |done|].
    + unfold flushed. destruct (decide _) as [[H1 H2]|]; [|done].
      by rewrite bool_decide_eq_true_2, bool_decide_eq_false_2 in E.
    + case_decide as H1; [|done]. rewrite bool_decide_eq_true_2 in E by done. simpl in E.
      by apply negb_false_iff, bool_decide_eq_true in E.
Qed.
End with_zlib.

(** ** The queue as a stream of numbered frames *)

Record Send := mkSend { s_type : Z; s_data : bytes; s_mode : Z }.

Inductive op := Enqueue (s : Send) | Dequeue.

Definition sends (ops : list op) : list Send :=
  omap (λ o, match o with Enqueue s => Some s | Dequeue => None end) ops.

(** What the callers pass: byte-sized types, and frames that fit a packet unless they are split. *)
Definition send_valid (s : Send) : Prop :=
  in_u 8 (s_type s) ∧
  ((s_mode s = MRUDP_COALESCE_NONE ∨ s_mode s = MRUDP_COALESCE_PACKET) ∧
     Z.of_nat (length (s_data s)) ≤ MAX_PACKET_DATA_SIZE ∨
   s_mode s = MRUDP_COALESCE_STREAM ∧ Z.of_nat (length (s_data s)) < 2 ^ 31).

(** The frames that carry one send. *)
Definition carries_send (s : Send) (fs : list Frame) : Prop :=
  frames_data fs = s_data s ∧ Forall (λ f, fh_type (f_header f) = s_type s) fs.

Section runs.
Context `{!Zlib}.

(** Run operations in any interleaving; the packets taken out, in order. *)
Fixpoint run (level : Z) (ops : list op) : M SendQueue (list Packet) :=
  match ops with
  | [] => mret []
  | Enqueue s :: ops => enqueue (s_type s) (s_data s) (s_mode s);; run level ops
  | Dequeue :: ops =>
    r ← dequeue level;
    ps ← run level ops;
    mret (option_list r ++ ps)
  end.

Lemma enqueue_valid_spec s q base fs :
  sq_rep q base fs → status q = OPEN → send_valid s →
  wp (enqueue (s_type s) (s_data s) (s_mode s))
    (λ _ q', ∃ new, sq_rep q' base (fs ++ new) ∧ same_rest q q' ∧ carries_send s new) q.
Proof.
  intros Hq Hst [Ht [[Hm Hsz]|[-> Hsz]]].
  - eapply wp_mono; [by apply enqueue_frame_spec|]. intros [] q' [Hq' Hs].
    eexists. split_and!; [done|done|]. split; [apply app_nil_r|by apply Forall_singleton].
  - eapply wp_mono; [by apply enqueue_stream_spec|]. intros [] q' (new&?&?&?&?). by exists new.
Qed.

Lemma dequeue_stream_spec `{!ZlibLaws} level q base fs :
  sq_rep q base fs → status q = OPEN → compressionBuffer q = [] →
  wp (dequeue level) (λ r q', ∃ gs rest, fs = gs ++ rest ∧
    Forall2 packet_frames (option_list r) (option_list ((λ _, gs) <$> r)) ∧ (r = None → gs = []) ∧
    sq_rep q' (base + length gs) rest ∧ status q' = OPEN ∧ compressionBuffer q' = []) q.
Proof.
  intros Hq Hst Hb. eapply wp_mono; [apply dequeue_spec; [done|done|unfold buffer_small; by rewrite Hb]|].
  intros r q' (fs1&Hfl&Hst'&Hb'&Hr). unfold flushed in Hfl.
  rewrite decide_False in Hfl by naive_solver. subst fs1.
  assert (compressionBuffer q' = []) by (rewrite Hb'; by case_decide).
  destruct r as [p|]; simpl.
  - destruct Hr as (gs&rest&->&?&?). exists gs, rest. split_and!; try done. by apply Forall2_cons_2.
  - destruct Hr as (_&->&?). exists [], []. simpl. rewrite Nat.add_0_r.
    split_and!; [done|constructor|done..].
Qed.

Lemma run_spec `{!ZlibLaws} level ops q base fs :
  sq_rep q base fs → status q = OPEN → compressionBuffer q = [] → Forall send_valid (sends ops) →
  wp (run level ops) (λ ps q', ∃ gss rest chunks,
    Forall2 packet_frames ps gss ∧ Forall2 carries_send (sends ops) chunks ∧
    fs ++ concat chunks = concat gss ++ rest ∧ numbered base (fs ++ concat chunks) ∧
    sq_rep q' (base + length (concat gss)) rest) q.
Proof.
  revert q base fs. induction ops as [|[s|] ops IH]; intros q base fs Hq Hst Hb Hv; cbn [run].
  - wp_steps. exists [], fs, []. rewrite app_nil_r, Nat.add_0_r.
    split_and!; [constructor|constructor|done| |done]. by destruct Hq as (?&_&->&?&_).
  - apply Forall_cons_1 in Hv as [Hs Hv]. apply wp_bind.
    eapply wp_mono; [by apply enqueue_valid_spec|]. intros [] q' (new&Hq'&[Es Eb]&Hc).
    eapply wp_mono; [apply (IH q' base (fs ++ new)); [done|congruence|congruence|done]|].
    intros ps q'' (gss&rest&chunks&?&?&E&Hn&?). exists gss, rest, (new :: chunks).
    rewrite <-app_assoc in E, Hn. split_and!; [done|by apply Forall2_cons_2|done..].
  - apply wp_bind. eapply wp_mono; [by eapply dequeue_stream_spec|].
    intros r q' (gs&rest&->&Hp&Hgs&Hq'&Hst'&Hb'). apply wp_bind.
    eapply wp_mono; [by eapply (IH q')|]. intros ps q'' (gss&rest'&chunks&?&?&E&Hn&Hq'').
    wp_steps. exists (option_list ((λ _, gs) <$> r) ++ gss), rest', chunks.
    assert (concat (option_list ((λ _, gs) <$> r) ++ gss) = gs ++ concat gss) as ->.
    { destruct r; simpl; [done|]. by rewrite (Hgs eq_refl). }
    rewrite <-app_assoc, E, app_assoc, length_app, Nat.add_assoc.
    split_and!; [by apply Forall2_app|done|done| |done].
    rewrite <-app_assoc, <-E. apply numbered_app. split; [|done].
    destruct Hq as (?&_&E1&Hn1&_). by apply numbered_app in Hn1 as [? _].
Qed.
End runs.

(** ** Claims *)

(** C11: the send queue is a stream of frames. For every interleaving of enqueues (uncompressed
    modes, sizes the senders pass) and dequeues, all operations are defined, and the frames of
    the packets taken out, followed by the frames still queued, are the sends in order: each
    send is carried by frames of its type whose data concatenates to exactly its bytes, frames
    are numbered consecutively from 0 modulo 2^16, and every packet taken out leaves room for
    the crypto overhead. *)
Theorem send_queue_stream `{!Zlib, !ZlibLaws} (level : Z) (ops : list op) :
  Forall send_valid (sends ops) →
  ∃ ps q gss rest chunks,
    run level ops SendQueue_init = Some (ps, q) ∧
    Forall2 packet_frames ps gss ∧ sq_rep q (length (concat gss)) rest ∧
    Forall2 carries_send (sends ops) chunks ∧
    concat chunks = concat gss ++ rest ∧ numbered 0 (concat chunks).
Proof.
  intros Hv. pose proof (run_spec level ops SendQueue_init 0 [] sq_rep_init eq_refl eq_refl Hv) as Hr.
  apply wp_some in Hr as (ps&q&E&gss&rest&chunks&?&?&Ec&?&?). simpl in *.
  exists ps, q, gss, rest, chunks. split_and!; try done.
Qed.

(** A codec for examples, which keeps the bytes as they are. *)
#[local] Instance Zlib_stored : Zlib := {|
  compress2 := λ src cap _, if Z.of_nat (length src) <=? cap then Some src else None;
  uncompress := λ src cap, take (Z.to_nat cap) src;
|}.

#[local] Instance ZlibLaws_stored : ZlibLaws.
Proof.
  split; simpl; intros src cap _ out; destruct (Z.leb_spec (Z.of_nat (length src)) cap); intros [= <-].
  - done.
  - apply take_ge. lia.
Qed.

Lemma send_queue_stream_witness :
  let ops := [Enqueue (mkSend DATA (replicate 3000 Byte.x61) MRUDP_COALESCE_STREAM); Dequeue;
              Enqueue (mkSend CLOSE_WRITE [] MRUDP_COALESCE_PACKET); Dequeue; Dequeue] in
  ∃ ps q gss rest chunks,
    run 0 ops SendQueue_init = Some (ps, q) ∧
    Forall2 packet_frames ps gss ∧ sq_rep q (length (concat gss)) rest ∧
    Forall2 carries_send (sends ops) chunks ∧
    concat chunks = concat gss ++ rest ∧ numbered 0 (concat chunks).
Proof.
  intros ops. apply send_queue_stream.
  repeat apply Forall_cons_2; [..|apply Forall_nil_2]; (split; [done|]).
  - right. by split.
  - left. split; [by right|done].
Defined.

(** Closing overtakes compressed data. Data sent in the compressed mode waits in the
    compression buffer, while the [CLOSE_WRITE] frame [Sender::close] enqueues in packet mode goes
    straight to the queue, and [dequeue] compresses the buffer only when the queue is empty: the
    first packet taken out holds the [CLOSE_WRITE] frame, numbered before all the data, which is
    still in the buffer. *)
Theorem close_write_overtakes_compressed `{!Zlib} (level : Z) (data : bytes) :
  ∃ p q, run level [Enqueue (mkSend DATA data MRUDP_COALESCE_STREAM_COMPRESSED);
                    Enqueue (mkSend CLOSE_WRITE [] MRUDP_COALESCE_PACKET); Dequeue]
           SendQueue_init = Some ([p], q) ∧
    packet_frames p [mkFrame (mkFrameHeader 0 CLOSE_WRITE 0) []] ∧
    compressionBuffer q = le_encode 1 DATA ++ le_encode 4 (Z.of_nat (length data)) ++ data.
Proof.
  set (buf := le_encode 1 DATA ++ le_encode 4 (Z.of_nat (length data)) ++ data).
  set (h := mkFrameHeader 0 CLOSE_WRITE 0).
  destruct (pushFrame_fits new_Packet [] h []) as (p&E&Hp&_); [apply new_Packet_frames|done|done|done|].
  exists p, (mkSendQueue OPEN 1 [] buf). split_and!; [|exact Hp|done].
  change (run level _ SendQueue_init) with
    (match pushFrame new_Packet h [] with
     | Some (packet, _) => run level [Dequeue] (mkSendQueue OPEN 1 [packet] buf)
     | None => None
     end).
  by rewrite E.
Qed.
