(* ===== verification/Compression.v ===== *)
(** * Compressed streams: [SendQueue::compress] against [Receiver::processCompressed]

    In the compressed mode the sender collects records (type, size, data) in a buffer, wraps
    the buffer in a batch (total size, flag, uncompressed size, bytes), and sends the batch as a
    stream of frames. The receiver collects the frames of a batch in a buffer of its own and,
    when the batch is complete, hands over the data of each record.

    The receiving operations run on a pair of the receiver's buffer and the state [S] that
    [Connection::receive] works on. The second receive buffer is scratch space. *)

From S2P Require Import Prelude MemCopy Packet ReceiveQueue Types SendQueue.

Section operations.
Context `{!Zlib} {S : Type} (receive : bytes → M S unit).

(** [rest] is the memory from [p] to [end]. *)
Fixpoint processCompressedSubframes_loop (fuel : nat) (rest : bytes) : M S unit :=
  match fuel with
  | O => ub
  | Datatypes.S fuel =>
    if bool_decide (rest = []) then mret tt
    else if Z.of_nat (length rest) <? 1 + 4 then ub
    else
      let frameSize := le_decode (slice 1 4 rest) in
      let size := Z.of_nat (length rest) - (1 + 4) in
      if size <? frameSize then mret tt
      else
        receive (slice 5 (Z.to_nat frameSize) rest);;
        processCompressedSubframes_loop fuel (drop (5 + Z.to_nat frameSize) rest)
  end.

(** The size is converted to [int]; a negative size puts [end] before [begin]. *)
Definition processCompressedSubframes (begin : bytes) : M S unit :=
  let rest := take (Z.to_nat (int32 (Z.of_nat (length begin)))) begin in
  processCompressedSubframes_loop (Datatypes.S (length rest)) rest.

(** Run an operation of the connection beside the receiver's buffer. *)
Definition beside (m : M S unit) : M (bytes * S) unit := λ '(b, s),
  match m s with Some (_, s') => Some (tt, (b, s')) | None => None end.

Definition processCompressed (data : bytes) : M (bytes * S) unit :=
  modify (λ '(b, s), (b ++ data, s));;
  compressed ← gets fst;
  let inSize := Z.of_nat (length compressed) in
  if inSize <? 4 then mret tt
  else
    let bufferSize := le_decode (take 4 compressed) in
    if inSize <? bufferSize then mret tt
    else
      match compressed !! 4%nat with
      | None => ub
      | Some wasCompressed =>
        (if decide (wasCompressed = Byte.x00) then
           beside (processCompressedSubframes (drop 5 compressed))
         else if inSize <? 9 then ub
         else
           let uncompressedSize := le_decode (slice 5 4 compressed) in
           beside (processCompressedSubframes (uncompress (drop 9 compressed) uncompressedSize)));;
        modify (λ '(_, s), ([], s))
      end.
End operations.

(** ** Records *)

(** A record of the compression buffer, as [coalesceStreamCompressed] writes it. *)
Definition encode_record (r : Z * bytes) : bytes :=
  le_encode 1 r.1 ++ le_encode 4 (Z.of_nat (length r.2)) ++ r.2.
Definition encode_records (rs : list (Z * bytes)) : bytes := concat (encode_record <$> rs).

Lemma encode_record_length r : length (encode_record r) = (5 + length r.2)%nat.
Proof. unfold encode_record. rewrite !length_app, !le_encode_length. lia. Qed.

Section roundtrip.
Context `{!Zlib, !ZlibLaws} {S : Type} (receive : bytes → M S unit).

Lemma read_record r rest :
  Z.of_nat (length r.2) < 2 ^ 32 →
  le_decode (slice 1 4 (encode_record r ++ rest)) = Z.of_nat (length r.2) ∧
  slice 5 (length r.2) (encode_record r ++ rest) = r.2 ∧
  drop (5 + length r.2) (encode_record r ++ rest) = rest.
Proof.
  intros Hs. unfold encode_record. rewrite <-!app_assoc. split_and!.
  - transitivity (le_decode (le_encode 4 (Z.of_nat (length r.2))));
      [|apply le_decode_encode; unfold in_u; simpl; lia].
    done.
  - rewrite app_assoc. apply (slice_app_mid (le_encode 1 r.1 ++ le_encode 4 _)).
  - rewrite !app_assoc. apply drop_app_length'.
    rewrite !length_app, !le_encode_length. lia.
Qed.

(** Exactly the data of the records is handed over, in order. *)
Lemma subframes_loop_records rs fuel s :
  Forall (λ r, Z.of_nat (length r.2) < 2 ^ 32) rs → (length (encode_records rs) < fuel)%nat →
  processCompressedSubframes_loop receive fuel (encode_records rs) s = mapM_ receive (snd <$> rs) s.
Proof.
  intros Hrs. revert fuel s. induction Hrs as [|r rs Hr Hrs IH]; intros fuel s Hf.
  { destruct fuel; [lia|done]. }
  destruct fuel as [|fuel]; [lia|].
  change (encode_records (r :: rs)) with (encode_record r ++ encode_records rs) in *.
  destruct (read_record r (encode_records rs) Hr) as (E1&E2&E3).
  rewrite length_app, encode_record_length in Hf.
  cbn [processCompressedSubframes_loop fmap list_fmap mapM_].
  rewrite bool_decide_eq_false_2 by done. rewrite E1, Nat2Z.id, E2, E3.
  rewrite length_app, encode_record_length, !(proj2 (Z.ltb_ge _ _)) by lia.
  unfold mbind, M_bind. destruct (receive r.2 s) as [[[] s']|]; [|done]. apply IH. lia.
Qed.

Lemma records_small rs n :
  Z.of_nat (length (encode_records rs)) < n → Forall (λ r, Z.of_nat (length r.2) < n) rs.
Proof.
  induction rs as [|r rs IH]; [constructor|].
  change (encode_records (r :: rs)) with (encode_record r ++ encode_records rs).
  rewrite length_app, encode_record_length. intros. constructor; [lia|]. apply IH. lia.
Qed.

Lemma subframes_records rs s :
  Z.of_nat (length (encode_records rs)) < 2 ^ 31 →
  processCompressedSubframes receive (encode_records rs) s = mapM_ receive (snd <$> rs) s.
Proof.
  intros Hs. unfold processCompressedSubframes.
  rewrite (swrap_small 32), Nat2Z.id, take_ge by lia.
  apply subframes_loop_records; [|lia].
  apply records_small. lia.
Qed.

(** ** Batches *)

(** The shape of a batch: the total size, and the bytes that follow. *)
Lemma compress_output_size level source :
  Z.of_nat (length source) + 9 < 2 ^ 31 →
  ∃ body, compress_output level source = le_encode 4 (4 + Z.of_nat (length body)) ++ body ∧
    Z.of_nat (length body) < 2 ^ 31 ∧
    ((body = Byte.x00 :: source) ∨
     (∃ dest, compress2 source (Z.of_nat (length source)) level = Some dest ∧
        body = Byte.x01 :: le_encode 4 (Z.of_nat (length source)) ++ dest)).
Proof.
  intros Hs. unfold compress_output. case_match eqn:E.
  - case_match; [|done]. pose proof (compress2_fits _ _ _ _ E).
    rewrite !(wrap_small 32) by (unfold in_u; lia).
    exists (Byte.x01 :: le_encode 4 (Z.of_nat (length source)) ++ l).
    assert (length (Byte.x01 :: le_encode 4 (Z.of_nat (length source)) ++ l) = (5 + length l)%nat) as Hl.
    { done. }
    rewrite Hl, take_ge; [|rewrite !length_app, !le_encode_length; lia].
    replace (4 + 1 + 4 + Z.of_nat (length l)) with (4 + Z.of_nat (5 + length l)) by lia.
    split_and!; [done|lia|eauto].
  - rewrite !(wrap_small 32) by (unfold in_u; lia).
    exists (Byte.x00 :: source). rewrite take_ge; [|rewrite !length_app, !le_encode_length; lia].
    split_and!; [|simpl; lia|by left]. cbn [length].
    replace (4 + 1 + Z.of_nat (length source)) with (4 + Z.of_nat (Datatypes.S (length source))) by lia.
    done.
Qed.

(** A complete batch hands over its records and leaves the buffer empty. *)
Lemma processCompressed_complete level rs b data s :
  Z.of_nat (length (encode_records rs)) + 9 < 2 ^ 31 →
  b ++ data = compress_output level (encode_records rs) →
  processCompressed receive data (b, s) =
    match mapM_ receive (snd <$> rs) s with Some (_, s') => Some (tt, ([], s')) | None => None end.
Proof.
  intros Hs Hb. destruct (compress_output_size level (encode_records rs) Hs) as (body&Eo&Hl&Hbody).
  rewrite Eo in Hb. unfold processCompressed. unfold mbind at 1, M_bind at 1, modify at 1.
  unfold mbind at 1, M_bind at 1, gets. cbn [fst]. rewrite Hb.
  rewrite length_app, le_encode_length, take_app_length' by done.
  rewrite (le_decode_encode 4) by (unfold in_u; simpl; lia).
  rewrite !(proj2 (Z.ltb_ge _ _)) by lia.
  rewrite lookup_app_r by done.
  destruct Hbody as [->|(dest&Ed&->)]; cbn [lookup list_lookup Nat.sub le_encode_length].
  - rewrite le_encode_length. cbn [Nat.sub]. change ((Byte.x00 :: ?l) !! 0%nat) with (Some Byte.x00).
    cbv beta iota. rewrite decide_True by done.
    replace (drop 5 (le_encode 4 _ ++ _)) with (encode_records rs) by done.
    unfold mbind, M_bind, beside. rewrite subframes_records by lia. by destruct (mapM_ _ _ s) as [[[] ?]|].
  - rewrite le_encode_length. cbn [Nat.sub]. change ((Byte.x01 :: ?l) !! 0%nat) with (Some Byte.x01).
    cbv beta iota. rewrite decide_False by done.
    rewrite (proj2 (Z.ltb_ge _ _)) by (cbn [length]; rewrite length_app, le_encode_length; lia).
    set (pre := le_encode 4 (4 + _)).
    replace (slice 5 4 (pre ++ _)) with (le_encode 4 (Z.of_nat (length (encode_records rs)))).
    2:{ symmetry. apply (slice_app_mid (pre ++ [Byte.x01]) (le_encode 4 _) dest). }
    rewrite (le_decode_encode 4) by (unfold in_u; simpl; lia).
    replace (drop 9 (pre ++ _)) with dest by done.
    rewrite (uncompress_compress2 _ _ _ _ Ed).
    unfold mbind, M_bind, beside. rewrite subframes_records by lia. by destruct (mapM_ _ _ s) as [[[] ?]|].
Qed.

(** A proper prefix of a batch is only collected. *)
Lemma processCompressed_partial level rs b data rest s :
  Z.of_nat (length (encode_records rs)) + 9 < 2 ^ 31 → rest ≠ [] →
  b ++ data ++ rest = compress_output level (encode_records rs) →
  processCompressed receive data (b, s) = Some (tt, (b ++ data, s)).
Proof.
  intros Hs Hr Hb. destruct (compress_output_size level (encode_records rs) Hs) as (body&Eo&Hl&_).
  rewrite Eo, app_assoc in Hb. unfold processCompressed. unfold mbind at 1, M_bind at 1, modify at 1.
  unfold mbind at 1, M_bind at 1, gets. cbn [fst].
  assert (Z.of_nat (length (b ++ data)) < 4 + Z.of_nat (length body)) as Hlt.
  { apply (f_equal length) in Hb. rewrite (length_app _ rest), (length_app (le_encode _ _)), le_encode_length in Hb.
    assert (length rest ≠ 0%nat) by (by destruct rest). lia. }
  destruct (Z.ltb_spec (Z.of_nat (length (b ++ data))) 4) as [|Hge]; [done|].
  assert (take 4 (b ++ data) = le_encode 4 (4 + Z.of_nat (length body))) as ->.
  { rewrite <-(take_app_le (b ++ data) rest) by lia. rewrite Hb. by apply take_app_length'. }
  rewrite (le_decode_encode 4) by (unfold in_u; simpl; lia).
  by rewrite (proj2 (Z.ltb_lt _ _)) by lia.
Qed.

(** A batch cut into pieces anyhow. *)
Lemma processCompressed_batch level rs b pieces s :
  Z.of_nat (length (encode_records rs)) + 9 < 2 ^ 31 →
  b ++ concat pieces = compress_output level (encode_records rs) →
  b ≠ compress_output level (encode_records rs) →
  mapM_ (processCompressed receive) pieces (b, s) =
    match mapM_ receive (snd <$> rs) s with Some (_, s') => Some (tt, ([], s')) | None => None end.
Proof.
  intros Hs. revert b. induction pieces as [|d pieces IH]; intros b Hb Hne.
  { by rewrite app_nil_r in Hb. }
  cbn [mapM_]. unfold mbind, M_bind. cbn [concat] in Hb.
  destruct (decide (concat pieces = [])) as [He|He].
  - rewrite He, app_nil_r in Hb. rewrite (processCompressed_complete level rs) by done.
    destruct (mapM_ receive (snd <$> rs) s) as [[[] s']|]; [|done]. clear - He.
    induction pieces as [|d' pieces IH]; [done|].
    simpl in He. apply app_nil in He as [-> He]. simpl. unfold mbind, M_bind.
    by apply IH.
  - rewrite (processCompressed_partial level rs b d (concat pieces)) by done.
    apply IH; [by rewrite <-app_assoc|]. intros E. rewrite <-Hb, app_assoc in E.
    rewrite <-(app_nil_r (b ++ d)) in E at 1. by apply app_inv_head in E.
Qed.

Lemma compress_output_nonempty level source :
  Z.of_nat (length source) + 9 < 2 ^ 31 → compress_output level source ≠ [].
Proof. intros Hs. destruct (compress_output_size level source Hs) as (body&->&_). done. Qed.
End roundtrip.

(** ** The sending queue *)

Section sending.
Context `{!Zlib, !ZlibLaws}.

(** The calls of a sender in the compressed mode. *)
Definition compressed_sends (rs : list (Z * bytes)) : list op :=
  (λ r, Enqueue (mkSend r.1 r.2 MRUDP_COALESCE_STREAM_COMPRESSED)) <$> rs.

(** The data of the frames in packets, in order. *)
Definition frame_data (ps : list Packet) : list bytes := f_data <$> (ps ≫= λ p, parse_frames (payload p)).

(** A send in the compressed mode appends its record to the buffer. *)
Lemma enqueue_compressed r q :
  status q = OPEN →
  enqueue r.1 r.2 MRUDP_COALESCE_STREAM_COMPRESSED q =
    Some (tt, set_buffer (compressionBuffer q ++ encode_record r) q).
Proof. destruct q as [st g l b]. simpl. intros ->. done. Qed.

Lemma run_collects level rs ops q :
  status q = OPEN →
  run level (compressed_sends rs ++ ops) q = run level ops (set_buffer (compressionBuffer q ++ encode_records rs) q).
Proof.
  revert q. induction rs as [|r rs IH]; intros q Hq.
  { change (encode_records []) with (@nil byte). rewrite app_nil_r. by destruct q. }
  change (compressed_sends (r :: rs) ++ ops) with
    (Enqueue (mkSend r.1 r.2 MRUDP_COALESCE_STREAM_COMPRESSED) :: compressed_sends rs ++ ops).
  cbn [run s_type s_data s_mode]. unfold mbind, M_bind. rewrite enqueue_compressed by done.
  rewrite IH by done. unfold set_buffer. cbn [status frameIDGenerator queue compressionBuffer].
  rewrite <-app_assoc. done.
Qed.

(** With nothing to compress the packets come out as they are. *)
Lemma run_drains level n q :
  status q = OPEN → compressionBuffer q = [] → (length (queue q) ≤ n)%nat →
  run level (replicate n Dequeue) q = Some (queue q, set_queue [] q).
Proof.
  destruct q as [st g l b]. simpl. intros -> ->. revert l.
  induction n as [|n IH]; intros l Hn; (destruct l as [|p l]; simpl in Hn; [|try lia]); [done| |].
  - cbn [replicate run]. unfold mbind, M_bind.
    change (dequeue level _) with (Some (@None Packet, mkSendQueue OPEN g [] [])). cbv beta iota.
    rewrite (IH []) by (simpl; lia). done.
  - cbn [replicate run]. unfold mbind, M_bind.
    change (dequeue level _) with (Some (Some p, mkSendQueue OPEN g l [])). cbv beta iota.
    rewrite IH by lia. done.
Qed.

(** The first packet asked for has the buffer compressed. *)
Lemma run_compresses level n q q1 :
  status q = OPEN → queue q = [] → compressionBuffer q ≠ [] → compress level q = Some (tt, q1) →
  status q1 = OPEN → compressionBuffer q1 = [] →
  run level (replicate (S n) Dequeue) q = run level (replicate (S n) Dequeue) q1.
Proof.
  intros Hq Hn Hb Ec Hq1 Hb1. cbn [replicate run]. unfold mbind at 1 3, M_bind at 1 3.
  assert (dequeue level q = dequeue level q1) as ->; [|done].
  unfold dequeue, when, mbind, M_bind, mget. rewrite Hq, Hn, !decide_False by congruence.
  rewrite (bool_decide_eq_false_2 (compressionBuffer q = [])) by done. cbn [bool_decide andb negb].
  rewrite Hb1, andb_false_r. cbn. rewrite Ec. done.
Qed.

(** Packets that hold frames parse to them. *)
Lemma frame_data_frames ps fss :
  Forall2 packet_frames ps fss → (ps ≫= λ p, parse_frames (payload p)) = concat fss.
Proof.
  induction 1 as [|p fs ps fss (_&_&E&Hfs) _ IH]; [done|].
  cbn [mbind list_bind concat]. rewrite IH, E. f_equal. by apply parse_encode_Frames.
Qed.

(** A queue with nothing in it. *)
Definition idle (q : SendQueue) : Prop :=
  status q = OPEN ∧ queue q = [] ∧ compressionBuffer q = [] ∧ in_u 16 (frameIDGenerator q).

Lemma idle_rep q : idle q → ∃ base, sq_rep q base [].
Proof.
  intros (_&Hq&_&[? ?]). exists (Z.to_nat (frameIDGenerator q)), [].
  rewrite Hq. split_and!; [constructor|done|by intros i f ?|].
  simpl. rewrite (wrap_small 16); [lia|]. unfold in_u. lia.
Qed.

(** Records sent and then dequeued often enough come out as the frames of one batch. *)
Lemma run_batch level rs q :
  idle q → rs ≠ [] → Z.of_nat (length (encode_records rs)) + 9 < 2 ^ 31 →
  ∃ N, ∀ n, (N ≤ n)%nat → ∃ ps q', idle q' ∧
    run level (compressed_sends rs ++ replicate n Dequeue) q = Some (ps, q') ∧
    concat (frame_data ps) = compress_output level (encode_records rs) ∧
    Forall (λ f, fh_type (f_header f) = DATA_COMPRESSED) (ps ≫= λ p, parse_frames (payload p)).
Proof.
  intros Hi Hrs Hs. destruct (idle_rep q Hi) as [base Hq]. destruct Hi as (Ho&He&Hb&_).
  set (q0 := set_buffer (compressionBuffer q ++ encode_records rs) q).
  assert (compressionBuffer q0 = encode_records rs) as Hb0 by (simpl; by rewrite Hb).
  assert (wp (compress level) (λ _ q', ∃ new, sq_rep q' base ([] ++ new) ∧ status q' = status q0 ∧
    compressionBuffer q' = [] ∧ frames_data new = compress_output level (compressionBuffer q0) ∧
    Forall (λ f, fh_type (f_header f) = DATA_COMPRESSED) new) q0) as Hc.
  { apply compress_spec; [exact Hq|]. unfold buffer_small. by rewrite Hb0. }
  apply wp_some in Hc as ([]&q1&Ec&new&(fss&Hf&Hn&_&Hg)&Ho1&Hb1&Hd&Ht). rewrite Hb0 in Hd. simpl in Hn.
  exists (S (length (queue q1))). intros [|n] HN; [lia|]. exists (queue q1), (set_queue [] q1).
  split_and!.
  - split_and!; simpl; [rewrite Ho1; done|done|done|]. rewrite Hg. apply wrap_range. lia.
  - rewrite run_collects by done. fold q0. rewrite (run_compresses level n q0 q1);
      [apply run_drains; [rewrite Ho1; done|done|lia]|done|done| |done|rewrite Ho1; done|done].
    rewrite Hb0. by destruct rs as [|[]].
  - unfold frame_data. by rewrite (frame_data_frames _ _ Hf), <-Hn.
  - by rewrite (frame_data_frames _ _ Hf), <-Hn.
Qed.
End sending.

(** The state a connection with a stream receiver hands data over to: the list of data. *)
Definition collect (data : bytes) : M (list bytes) unit := modify (λ l, l ++ [data]).

(** ** Claims *)

(** C12: compressed streams round trip, from the sender's calls to the receiver's. On a queue
    with nothing in it, whatever it sent before, any records enqueued in the compressed mode and
    then dequeued until nothing is left are all defined and come out as packets whose frames are
    all of the type [DATA_COMPRESSED]; the queue has nothing in it again. Handing the data of
    those frames one after the other to [Receiver::processCompressed], with an empty buffer, does
    what receiving the data of each record in order does (also when that is not defined), and
    leaves the buffer empty; at every compression level, for every zlib that obeys its
    documentation, whether or not it could shrink the records. *)
Theorem processCompressed_compress `{!Zlib, !ZlibLaws} {S} (receive : bytes → M S unit)
    (level : Z) (rs : list (Z * bytes)) (q : SendQueue) (s : S) :
  idle q → Z.of_nat (length (encode_records rs)) + 9 < 2 ^ 31 →
  ∃ N, ∀ n, (N ≤ n)%nat → ∃ ps q', idle q' ∧
    run level (compressed_sends rs ++ replicate n Dequeue) q = Some (ps, q') ∧
    Forall (λ f, fh_type (f_header f) = DATA_COMPRESSED) (ps ≫= λ p, parse_frames (payload p)) ∧
    mapM_ (processCompressed receive) (frame_data ps) ([], s) =
      match mapM_ receive (snd <$> rs) s with Some (_, s') => Some (tt, ([], s')) | None => None end.
Proof.
  intros Hi Hs. destruct (decide (rs = [])) as [->|Hrs].
  - exists O. intros n _. exists [], q. pose proof Hi as (Ho&He&Hb&_).
    split_and!; [done| |constructor|done]. simpl. rewrite run_drains by (rewrite ?He; simpl; done || lia).
    rewrite He. destruct q. simpl in *. by subst.
  - destruct (run_batch level rs q Hi Hrs Hs) as [N HN]. exists N. intros n Hn.
    destruct (HN n Hn) as (ps&q'&?&?&Ec&?). exists ps, q'. split_and!; [done..|].
    apply (processCompressed_batch receive level); [done|done|]. symmetry. by apply compress_output_nonempty.
Qed.

#[local] Existing Instance Zlib_stored.
#[local] Existing Instance ZlibLaws_stored.

Lemma processCompressed_compress_witness :
  let rs := [(DATA, [Byte.x0a; Byte.x0b]); (DATA, replicate 3000 Byte.x0c)] in
  ∃ N, ∀ n, (N ≤ n)%nat → ∃ ps q', idle q' ∧
    run 5 (compressed_sends rs ++ replicate n Dequeue) SendQueue_init = Some (ps, q') ∧
    Forall (λ f, fh_type (f_header f) = DATA_COMPRESSED) (ps ≫= λ p, parse_frames (payload p)) ∧
    mapM_ (processCompressed collect) (frame_data ps) ([], []) =
      Some (tt, ([], [[Byte.x0a; Byte.x0b]; replicate 3000 Byte.x0c])).
Proof.
  intros rs. apply (processCompressed_compress collect 5 rs SendQueue_init []).
  - by split_and!.
  - by vm_compute.
Defined.

(** The same records on the concrete queue: three packets. *)
Example compressed_packets :
  (λ r, length r.1) <$> run 5 (compressed_sends [(DATA, [Byte.x0a; Byte.x0b]); (DATA, replicate 3000 Byte.x0c)]
    ++ replicate 4 Dequeue) SendQueue_init = Some 3%nat.
Proof. vm_compute. reflexivity. Qed.
