(* ===== verification/Protocol.v ===== *)
(** * The reliable stream, end to end

    The sending queue of one endpoint ([SendQueue]) and the receiving queue of the other
    ([ReceiveQueue]), with a network between them that loses, repeats and reorders packets. What
    the sender does to a packet between the queue and the wire (type, id and connection of the
    header) does not touch its payload, so the network is described by the payloads it delivers. *)
From S2P Require Import Prelude Packet ReceiveQueue Types SendQueue.
From stdpp Require Import list.
#[local] Open Scope Z_scope.

(** The frames in the [i]-th packet are numbered on from the frames in the packets before it. *)
Definition frame_numbers (gss : list (list Frame)) (i : nat) : list nat :=
  seq (length (concat (take i gss))) (length (default [] (gss !! i))).

(** One delivery by the network: which packet, and the datagram that arrives. *)
Definition delivers (ps : list Packet) (arrival : nat * Packet) : Prop :=
  ∃ p, ps !! arrival.1 = Some p ∧ payload arrival.2 = payload p.

Lemma concat_lookup_block {A} (xss : list (list A)) i xs j x :
  xss !! i = Some xs → xs !! j = Some x →
  concat xss !! (length (concat (take i xss)) + j)%nat = Some x.
Proof.
  revert i. induction xss as [|ys xss IH]; intros [|i] Hi Hj; simplify_eq/=.
  - by apply lookup_app_l_Some.
  - rewrite length_app, <-Nat.add_assoc, lookup_app_r by lia.
    replace (_ - _)%nat with (length (concat (take i xss)) + j)%nat by lia. by apply IH.
Qed.

Lemma block_carries gss rest p i gs :
  gss !! i = Some gs → payload p = encode_Frames gs → Forall frame_wf gs →
  carries (concat gss ++ rest) p (frame_numbers gss i).
Proof.
  intros Hgs Hpay Hwf. exists gs. unfold frame_numbers. rewrite Hgs. simpl. split_and!; [done|done|].
  apply Forall2_same_length_lookup. rewrite length_seq. split; [done|].
  intros j k f Hk Hf. apply lookup_seq in Hk as [-> Hj].
  apply lookup_app_l_Some. by eapply concat_lookup_block.
Qed.

Lemma arrival_carries ps gss rest arrival :
  Forall2 packet_frames ps gss → delivers ps arrival →
  carries (concat gss ++ rest) arrival.2 (frame_numbers gss arrival.1).
Proof.
  intros Hps (p&Hp&Epay). destruct (Forall2_lookup_l _ _ _ _ _ Hps Hp) as (gs&Hgs&_&_&Ep&Hwf).
  by apply (block_carries gss rest _ _ gs); [|rewrite Epay|].
Qed.

(** The frame numbers of all packets together are all the numbers. *)
Lemma elem_of_frame_numbers gss k :
  (k < length (concat gss))%nat → ∃ i, (i < length gss)%nat ∧ k ∈ frame_numbers gss i.
Proof.
  revert k. induction gss as [|gs gss IH]; intros k Hk; simpl in Hk; [lia|].
  rewrite length_app in Hk. destruct (decide (k < length gs)%nat) as [?|?].
  - exists 0%nat. split; [simpl; lia|]. unfold frame_numbers. simpl. apply elem_of_seq. lia.
  - destruct (IH (k - length gs)%nat ltac:(lia)) as (i&?&Hi). exists (S i). split; [simpl; lia|].
    unfold frame_numbers in *. simpl. rewrite length_app. apply elem_of_seq in Hi. apply elem_of_seq. lia.
Qed.

Lemma frame_numbers_bound gss i k : k ∈ frame_numbers gss i → (k < length (concat gss))%nat.
Proof.
  unfold frame_numbers. rewrite elem_of_seq. intros [_ Hk].
  destruct (gss !! i) as [gs|] eqn:E; simpl in Hk.
  - rewrite <-(take_drop_middle gss i gs E), concat_app. simpl. rewrite !length_app. lia.
  - rewrite take_ge in Hk by (by apply lookup_ge_None). lia.
Qed.

Lemma carries_sends ss chunks :
  Forall2 carries_send ss chunks → frames_data (concat chunks) = concat (s_data <$> ss).
Proof.
  induction 1 as [|s fs ss chunks [E _] _ IH]; [done|]. simpl. by rewrite frames_data_app, E, IH.
Qed.

(** If all frames below [m], and no other, arrived, the first missing one is [m]. *)
Lemma first_missing_all (arrived : gset nat) n m :
  first_missing arrived n → (∀ k, k ∈ arrived ↔ (k < m)%nat) → n = m.
Proof. intros Hn Hk. apply (first_missing_unique arrived n m Hn). split; intros; rewrite Hk in *; lia. Qed.

(** If every packet is among the arrivals [order], exactly all frames have arrived. *)
Lemma all_numbers gss (order : list nat) k :
  (∀ i, (i < length gss)%nat → i ∈ order) →
  k ∈ (list_to_set (concat (frame_numbers gss <$> order)) : gset nat) ↔ (k < length (concat gss))%nat.
Proof.
  intros Hall. rewrite elem_of_list_to_set. split.
  - intros (l&Hl&Hk)%list_elem_of_In%in_concat. revert Hl Hk.
    rewrite <-!list_elem_of_In. intros (i&->&_)%list_elem_of_fmap. apply frame_numbers_bound.
  - intros (i&Hi&Hk)%elem_of_frame_numbers. apply list_elem_of_In, in_concat.
    exists (frame_numbers gss i). rewrite <-!list_elem_of_In. split; [|done].
    apply list_elem_of_fmap. exists i. split; [done|]. by apply Hall.
Qed.

(** ** Claim *)

(** C8: the reliable byte stream. Take any interleaving of uncompressed sends and dequeues at one
    endpoint, with any zlib that obeys its documentation, and any sequence of deliveries of the packets taken out, in which packets are lost, repeated and
    reordered as the network likes but no frame arrives 2^15 or more frames away from the one the
    receiver expects. Then both ends are defined throughout, the frames handed to the receiver's
    user carry a prefix of the bytes sent, in order and once each; and if every packet taken out
    has arrived at least once and nothing is left in the sending queue, they carry all of them. *)
Theorem stream_end_to_end `{!Zlib, !ZlibLaws} (level : Z) (ops : list op) :
  Forall send_valid (sends ops) →
  ∃ ps q gss rest,
    run level ops SendQueue_init = Some (ps, q) ∧
    Forall2 packet_frames ps gss ∧ sq_rep q (length (concat gss)) rest ∧
    ∀ wire,
      Forall (delivers ps) wire →
      timely ∅ (concat (frame_numbers gss <$> wire.*1)) →
      ∃ rq delivered,
        mapM_ (onReceive tracer) wire.*2 (ReceiveQueue_init, []) = Some (tt, (rq, delivered)) ∧
        frames_data delivered `prefix_of` concat (s_data <$> sends ops) ∧
        ((∀ i, (i < length ps)%nat → i ∈ wire.*1) → rest = [] →
         frames_data delivered = concat (s_data <$> sends ops)).
Proof.
  intros Hv. pose proof (run_spec level ops SendQueue_init 0 [] sq_rep_init eq_refl eq_refl Hv) as Hr.
  apply wp_some in Hr as (ps&q&E&gss&rest&chunks&Hps&Hch&Ec&Hn&Hq). simpl in *.
  exists ps, q, gss, rest. split_and!; [done|done|done|]. intros wire Hw Ht.
  pose proof (onReceive_packets_spec (concat chunks)) as Hrecv.
  specialize (Hrecv ltac:(intros k f Hk; apply (Hn k f Hk)) wire.*2 (frame_numbers gss <$> wire.*1)).
  specialize (Hrecv _ _ _ _ (rq_inv_init (concat chunks))).
  assert (Forall2 (carries (concat chunks)) wire.*2 (frame_numbers gss <$> wire.*1)) as Hc.
  { rewrite Ec. clear -Hw Hps. induction Hw as [|a wire Ha _ IH]; [constructor|].
    constructor; [by eapply arrival_carries|done]. }
  specialize (Hrecv Hc Ht). apply wp_some in Hrecv as ([]&[rq log]&Er&n&Hinv).
  rewrite union_empty_r_L in Hinv.
  pose proof (rq_inv_first_missing _ _ _ _ _ Hinv) as Hfm. destruct Hinv as (_&_&->).
  exists rq, (take n (concat chunks)). rewrite <-(carries_sends _ _ Hch). split_and!; [done| |].
  - exists (frames_data (drop n (concat chunks))). by rewrite <-frames_data_app, take_drop.
  - intros Hall ->. rewrite app_nil_r in Ec. f_equal. apply take_ge. rewrite Ec.
    rewrite (first_missing_all _ _ (length (concat gss)) Hfm); [done|].
    intros k. apply all_numbers. intros i Hi. apply Hall. by rewrite (Forall2_length _ _ _ Hps).
Qed.

(** Three thousand bytes, split into three packets, and the close frame. *)
Definition example_ops : list op :=
  [Enqueue (mkSend DATA (replicate 3000 Byte.x61) MRUDP_COALESCE_STREAM); Dequeue;
   Enqueue (mkSend CLOSE_WRITE [] MRUDP_COALESCE_PACKET); Dequeue; Dequeue].

#[local] Existing Instance Zlib_stored.
#[local] Existing Instance ZlibLaws_stored.

Lemma stream_end_to_end_witness :
  ∃ ps q gss rest,
    run 0 example_ops SendQueue_init = Some (ps, q) ∧
    Forall2 packet_frames ps gss ∧ sq_rep q (length (concat gss)) rest ∧
    ∀ wire,
      Forall (delivers ps) wire →
      timely ∅ (concat (frame_numbers gss <$> wire.*1)) →
      ∃ rq delivered,
        mapM_ (onReceive tracer) wire.*2 (ReceiveQueue_init, []) = Some (tt, (rq, delivered)) ∧
        frames_data delivered `prefix_of` concat (s_data <$> sends example_ops) ∧
        ((∀ i, (i < length ps)%nat → i ∈ wire.*1) → rest = [] →
         frames_data delivered = concat (s_data <$> sends example_ops)).
Proof.
  apply stream_end_to_end.
  repeat apply Forall_cons_2; [..|apply Forall_nil_2]; (split; [done|]).
  - right. by split.
  - left. split; [by right|done].
Defined.

(** Run: the packets of the example arrive in the reverse order, the middle one twice, and the
    three thousand bytes come out. *)
Example stream_run :
  match run 0 example_ops SendQueue_init with
  | Some ([p0; p1; p2], _) =>
    match mapM_ (onReceive tracer) [p2; p1; p1; p0] (ReceiveQueue_init, []) with
    | Some (_, (_, delivered)) => frames_data delivered = replicate 3000 Byte.x61
    | None => False
    end
  | _ => False
  end.
Proof. by vm_compute. Qed.
