(* ===== verification/Float32.v ===== *)
(** * Single precision arithmetic

    The source computes round trip times in [float]. Values are the binary floating point
    numbers of the Standard Library's [SpecFloat] at the precision of IEEE binary32 (and
    binary64 for the one expression of type [double]), every operation rounding to nearest even,
    as compilers for the supported hosts do. Conversions to integers truncate and are undefined
    when the value does not fit.

    The lemmas bound the magnitude of results, so that the conversions the source performs can
    be shown to be defined. *)

From S2P Require Import Prelude.
From Stdlib Require Import Floats.SpecFloat.

Abbreviation float := spec_float.

Definition f32_of_Z (z : Z) : float := binary_normalize 24 128 z 0 false.
Definition f64_of_Z (z : Z) : float := binary_normalize 53 1024 z 0 false.
Definition fmul : float → float → float := SFmul 24 128.
Definition fadd : float → float → float := SFadd 24 128.
Definition fsub : float → float → float := SFsub 24 128.
Definition fdiv : float → float → float := SFdiv 24 128.

(** Conversion from [double] to [float]. *)
Definition f32_of_f64 (x : float) : float :=
  match x with
  | S754_finite s m e => binary_normalize 24 128 (if s then Zneg m else Zpos m) e s
  | _ => x
  end.

(** [std::min] and [std::max]; a comparison with a NaN is false. *)
Definition fmin (a b : float) : float := if SFltb b a then b else a.
Definition fmax (a b : float) : float := if SFltb a b then b else a.

(** Truncation towards zero. *)
Definition ftrunc (x : float) : option Z :=
  match x with
  | S754_zero _ => Some 0
  | S754_finite s m e =>
    let n := if 0 <=? e then Zpos m * 2 ^ e else Zpos m `div` 2 ^ (- e) in
    Some (if s then - n else n)
  | _ => None
  end.

Definition float_to_int (x : float) : option Z :=
  z ← ftrunc x; if (- 2 ^ 31 <=? z) && (z <? 2 ^ 31) then Some z else None.
Definition float_to_size_t (x : float) : option Z :=
  z ← ftrunc x; if (0 <=? z) && (z <? 2 ^ 64) then Some z else None.

(** ** Magnitudes *)

(** A finite value below [2^K] whose mantissa has at most [p] bits. *)
Definition fbounded (p K : Z) (x : float) : Prop :=
  match x with
  | S754_zero _ => True
  | S754_finite _ m e => e ≤ K ∧ Zpos m < 2 ^ (K - e) ∧ Zpos m < 2 ^ p
  | _ => False
  end.

Lemma digits2_log2 (p : positive) : Zpos (digits2_pos p) = Z.log2 (Zpos p) + 1.
Proof.
  induction p as [p IH|p IH|]; cbn [digits2_pos]; [..|done].
  - rewrite Pos2Z.inj_succ, IH, (Pos2Z.inj_xI p), Z.log2_succ_double by lia. lia.
  - rewrite Pos2Z.inj_succ, IH, (Pos2Z.inj_xO p), Z.log2_double by lia. lia.
Qed.

Lemma Zdigits2_spec m : 0 ≤ m → 0 ≤ Zdigits2 m ∧ m < 2 ^ Zdigits2 m.
Proof.
  intros Hm. destruct m as [|p|p]; [done| |lia]. cbn [Zdigits2]. rewrite digits2_log2.
  pose proof (Z.log2_spec (Zpos p) eq_refl). pose proof (Z.log2_nonneg (Zpos p)).
  rewrite <-Z.add_1_r in *. lia.
Qed.

Lemma Zdigits2_le m k : 0 ≤ k → 0 ≤ m < 2 ^ k → Zdigits2 m ≤ k.
Proof.
  intros Hk Hm. destruct m as [|p|p]; [simpl; lia| |lia]. cbn [Zdigits2]. rewrite digits2_log2.
  pose proof (proj1 (Z.log2_lt_pow2 (Zpos p) k eq_refl) (proj2 Hm)). lia.
Qed.

Lemma shr_1_div mrs : 0 ≤ shr_m mrs → shr_m (shr_1 mrs) = shr_m mrs `div` 2.
Proof.
  destruct mrs as [m r s]. simpl. intros Hm. destruct m as [|[p|p|]|p]; try done.
  - simpl. rewrite (Pos2Z.inj_xI p). apply (Z.div_unique _ _ _ 1); lia.
  - simpl. rewrite (Pos2Z.inj_xO p). apply (Z.div_unique _ _ _ 0); lia.
Qed.

Lemma div_pow2_nonneg m (n : positive) : 0 ≤ m → 0 ≤ m `div` 2 ^ Zpos n.
Proof. intros. apply Z.div_pos; [done|]. by apply Z.pow_pos_nonneg. Qed.

Lemma iter_shr_div n mrs :
  0 ≤ shr_m mrs → shr_m (iter_pos shr_1 n mrs) = shr_m mrs `div` 2 ^ Zpos n.
Proof.
  revert mrs. induction n as [n IH|n IH|]; intros mrs Hm; cbn [iter_pos].
  - assert (0 ≤ shr_m (shr_1 mrs)) by (rewrite shr_1_div by done; by apply Z.div_pos).
    assert (0 ≤ shr_m (iter_pos shr_1 n (shr_1 mrs))) by (rewrite IH by done; by apply div_pow2_nonneg).
    rewrite !IH, shr_1_div, !Z.div_div by (done || lia). f_equal.
    replace (Zpos n~1) with (1 + Zpos n + Zpos n) by lia. rewrite !Z.pow_add_r by lia. lia.
  - assert (0 ≤ shr_m (iter_pos shr_1 n mrs)) by (rewrite IH by done; by apply div_pow2_nonneg).
    rewrite !IH, !Z.div_div by (done || lia). f_equal.
    replace (Zpos n~0) with (Zpos n + Zpos n) by lia. by rewrite Z.pow_add_r by lia.
  - by apply shr_1_div.
Qed.

Section rounding.
Context (prec emax : Z) (Hprec : 0 < prec) (Hemax : 3 ≤ emax - prec).

(** One normalising shift: the mantissa gets at most [prec] digits and the bound is kept. *)
Lemma shr_fexp_bound m e l K :
  0 ≤ K → 0 ≤ m → e ≤ K → m < 2 ^ (K - e) →
  let '(mrs, e') := shr_fexp prec emax m e l in
  0 ≤ shr_m mrs ∧ e' ≤ K ∧ shr_m mrs < 2 ^ (K - e') ∧ shr_m mrs < 2 ^ prec.
Proof.
  intros HK Hm He Hmk. unfold shr_fexp. set (k := fexp prec emax (Zdigits2 m + e) - e).
  destruct (Zdigits2_spec m Hm) as [Hd0 Hd].
  assert (Zdigits2 m + e ≤ K) as Hdk by (pose proof (Zdigits2_le m (K - e)); lia).
  assert (e + k ≤ K ∧ Zdigits2 m - k ≤ prec) as [Hk1 Hk2].
  { unfold k, fexp, emin. lia. }
  assert (shr_m (shr_record_of_loc m l) = m) as Em by (by destruct l as [|[]]).
  clearbody k. destruct k as [|k|k]; simpl.
  1,3: rewrite Em; split_and!; try done; eapply Z.lt_le_trans; [exact Hd|apply Z.pow_le_mono_r; lia].
  rewrite iter_shr_div, Em by lia. split_and!; [by apply div_pow2_nonneg|done| |].
  - apply Z.div_lt_upper_bound; [lia|]. rewrite <-Z.pow_add_r by lia.
    eapply Z.lt_le_trans; [exact Hmk|]. apply Z.pow_le_mono_r; lia.
  - apply Z.div_lt_upper_bound; [lia|]. rewrite <-Z.pow_add_r by lia.
    eapply Z.lt_le_trans; [exact Hd|]. apply Z.pow_le_mono_r; lia.
Qed.

Lemma round_nearest_even_bound m l : m ≤ round_nearest_even m l ≤ m + 1.
Proof. destruct l as [|[]]; simpl; [lia..| |lia|lia]. destruct (Z.even m); lia. Qed.

Lemma binary_round_aux_bound s m e l K :
  0 ≤ K → K + 1 ≤ emax - prec → 0 ≤ m → e ≤ K → m < 2 ^ (K - e) →
  fbounded prec (K + 1) (binary_round_aux prec emax s m e l).
Proof.
  intros HK Hmax Hm He Hmk. unfold binary_round_aux.
  pose proof (shr_fexp_bound m e l K HK Hm He Hmk) as H1.
  destruct (shr_fexp prec emax m e l) as [mrs1 e1]. destruct H1 as (Hm1&He1&Hk1&Hp1).
  set (m2 := round_nearest_even _ _).
  pose proof (round_nearest_even_bound (shr_m mrs1) (loc_of_shr_record mrs1)) as Hm2. fold m2 in Hm2.
  assert (m2 < 2 ^ (K + 1 - e1)) as Hk2.
  { replace (K + 1 - e1) with (Z.succ (K - e1)) by lia. rewrite Z.pow_succ_r by lia. lia. }
  pose proof (shr_fexp_bound m2 e1 loc_Exact (K + 1) ltac:(lia) ltac:(lia) ltac:(lia) Hk2) as H2.
  destruct (shr_fexp prec emax m2 e1 loc_Exact) as [mrs2 e2]. destruct H2 as (Hm3&He3&Hk3&Hp3).
  destruct (shr_m mrs2) as [|p|p]; [done| |lia].
  by rewrite (proj2 (Z.leb_le _ _)) by lia.
Qed.

Lemma shl_align_spec m e e' :
  let '(m', e'') := shl_align m e e' in e'' ≤ e ∧ Zpos m' = Zpos m * 2 ^ (e - e'').
Proof.
  unfold shl_align. destruct (e' - e) as [|d|d] eqn:E; [split; [lia|]..|].
  1,2: rewrite Z.sub_diag; lia.
  split; [lia|]. replace (e - e') with (Zpos d) by lia. clear E.
  revert m. induction d as [|d IH] using Pos.peano_ind; intros m; [simpl; lia|].
  rewrite Pos.iter_succ, Pos2Z.inj_xO, IH, Pos2Z.inj_succ, Z.pow_succ_r by lia. lia.
Qed.

Lemma binary_round_bound s m e K :
  0 ≤ K → K + 1 ≤ emax - prec → e ≤ K → Zpos m < 2 ^ (K - e) →
  fbounded prec (K + 1) (binary_round prec emax s m e).
Proof.
  intros HK Hmax He Hm. unfold binary_round.
  pose proof (shl_align_spec m e (fexp prec emax (Zpos (digits2_pos m) + e))) as Ha.
  destruct (shl_align _ _ _) as [m' e']. destruct Ha as [He' Em].
  apply binary_round_aux_bound; [lia..|].
  rewrite Em. replace (K - e') with (K - e + (e - e')) by lia. rewrite Z.pow_add_r by lia.
  apply Z.mul_lt_mono_pos_r; [apply Z.pow_pos_nonneg; lia|done].
Qed.

Lemma binary_normalize_bound z e s K :
  0 ≤ K → K + 1 ≤ emax - prec → e ≤ K → Z.abs z < 2 ^ (K - e) →
  fbounded prec (K + 1) (binary_normalize prec emax z e s).
Proof. intros. destruct z; [done|..]; apply binary_round_bound; done || lia. Qed.

Lemma SFmul_bound x y K1 K2 p :
  0 ≤ K1 → 0 ≤ K2 → K1 + K2 + 1 ≤ emax - prec → fbounded p K1 x → fbounded p K2 y →
  fbounded prec (K1 + K2 + 1) (SFmul prec emax x y).
Proof.
  intros ??? Hx Hy. destruct x as [| | |sx mx ex], y as [| | |sy my ey]; try done.
  destruct Hx as (?&?&_), Hy as (?&?&_). apply binary_round_aux_bound; [lia..|].
  replace (K1 + K2 - (ex + ey)) with ((K1 - ex) + (K2 - ey)) by lia.
  rewrite Z.pow_add_r, Pos2Z.inj_mul by lia. apply Z.mul_lt_mono_nonneg; lia.
Qed.

Lemma fbounded_mono p K K' x : K ≤ K' → fbounded p K x → fbounded p K' x.
Proof.
  intros HK. destruct x as [| | |s m e]; try done. intros (?&Hm&?). split_and!; [lia| |done].
  eapply Z.lt_le_trans; [exact Hm|]. apply Z.pow_le_mono_r; lia.
Qed.

Lemma shl_align_bound m e ez K :
  ez ≤ e → e ≤ K → Zpos m < 2 ^ (K - e) → Zpos (fst (shl_align m e ez)) < 2 ^ (K - ez).
Proof.
  intros Hz He Hm. pose proof (shl_align_spec m e ez) as Ha.
  assert (snd (shl_align m e ez) = ez) as Es.
  { unfold shl_align. destruct (ez - e) eqn:E; simpl; lia. }
  destruct (shl_align m e ez) as [m' e']. simpl in *. subst e'.
  destruct Ha as [_ ->]. replace (K - ez) with (K - e + (e - ez)) by lia. rewrite Z.pow_add_r by lia.
  apply Z.mul_lt_mono_pos_r; [apply Z.pow_pos_nonneg; lia|done].
Qed.

Lemma SFadd_bound x y K :
  0 ≤ K → K + 2 ≤ emax - prec → fbounded prec K x → fbounded prec K y →
  fbounded prec (K + 2) (SFadd prec emax x y).
Proof.
  intros ?? Hx Hy. pose proof (fbounded_mono prec K (K + 2) x ltac:(lia) Hx).
  pose proof (fbounded_mono prec K (K + 2) y ltac:(lia) Hy).
  destruct x as [sx| | |sx mx ex], y as [sy| | |sy my ey]; try done; [by destruct sx, sy|].
  destruct Hx as (?&?&_), Hy as (?&?&_). unfold SFadd. cbv zeta. set (ez := Z.min ex ey).
  pose proof (shl_align_bound mx ex ez K). pose proof (shl_align_bound my ey ez K).
  replace (K + 2) with ((K + 1) + 1) by lia. apply binary_normalize_bound; [lia..|].
  replace (K + 1 - ez) with (Z.succ (K - ez)) by lia. rewrite Z.pow_succ_r by lia.
  unfold cond_Zopp. destruct sx, sy; lia.
Qed.

(** The quotient by a value whose exponent is at least [- L]. *)
Lemma SFdiv_bound x s my ey K L p :
  0 ≤ K → 0 ≤ L → K + L + 1 ≤ emax - prec → fbounded p K x → - L ≤ ey →
  fbounded prec (K + L + 1) (SFdiv prec emax x (S754_finite s my ey)).
Proof.
  intros ??? Hx Hy. destruct x as [| | |sx mx ex]; try done. destruct Hx as (?&Hmx&_).
  unfold SFdiv, SFdiv_core_binary. set (e' := Z.min _ (ex - ey)). set (sh := ex - ey - e').
  assert (0 ≤ sh) by (unfold sh, e'; lia).
  assert ((match sh with Z0 => Zpos mx | Zpos _ => Zpos mx ≪ sh | Zneg _ => 0 end) = Zpos mx * 2 ^ sh) as ->.
  { destruct sh as [|p'|p']; [simpl; lia| |lia]. by rewrite Z.shiftl_mul_pow2 by lia. }
  pose proof (Z_div_mod (Zpos mx * 2 ^ sh) (Zpos my) ltac:(lia)) as Hdm.
  destruct (Z.div_eucl _ _) as [q r]. destruct Hdm as [Eq Hr].
  pose proof (Z.pow_pos_nonneg 2 sh ltac:(lia) ltac:(lia)).
  assert (0 ≤ q ≤ Zpos mx * 2 ^ sh) as [? Hq] by nia.
  apply binary_round_aux_bound; [lia|lia|lia|unfold e' in *; lia|].
  eapply Z.le_lt_trans; [exact Hq|]. eapply Z.lt_le_trans.
  { apply Z.mul_lt_mono_pos_r; [done|]. exact Hmx. }
  rewrite <-Z.pow_add_r by lia. apply Z.pow_le_mono_r; [lia|]. unfold sh. lia.
Qed.
End rounding.

Lemma ftrunc_bound p K x : 0 ≤ K → fbounded p K x → ∃ z, ftrunc x = Some z ∧ Z.abs z < 2 ^ K.
Proof.
  intros HK Hx. destruct x as [| | |s m e]; try done.
  { exists 0. split; [done|]. simpl. apply Z.pow_pos_nonneg; lia. }
  destruct Hx as (He&Hm&_). eexists. split; [done|].
  assert (0 ≤ (if 0 <=? e then Zpos m * 2 ^ e else Zpos m `div` 2 ^ (- e)) < 2 ^ K); [|destruct s; lia].
  destruct (Z.leb_spec 0 e) as [H0|H0].
  - pose proof (Z.pow_pos_nonneg 2 e ltac:(lia) H0). split; [lia|].
    replace K with (K - e + e) by lia. rewrite Z.pow_add_r by lia. nia.
  - pose proof (Z.pow_pos_nonneg 2 (- e) ltac:(lia) ltac:(lia)).
    split; [by apply Z.div_pos; lia|]. apply Z.div_lt_upper_bound; [done|].
    rewrite <-Z.pow_add_r by lia. by replace (- e + K) with (K - e) by lia.
Qed.

(** ** Signs *)
Definition fpositive (x : float) : Prop :=
  match x with S754_zero _ => True | S754_finite s _ _ => s = false | _ => False end.

Lemma binary_round_aux_sign prec emax m e l :
  match binary_round_aux prec emax false m e l with S754_finite s _ _ => s = false | _ => True end.
Proof.
  unfold binary_round_aux. destruct (shr_fexp _ _ _ _ _) as [mrs1 e1].
  destruct (shr_fexp _ _ (round_nearest_even _ _) _ _) as [mrs2 e2].
  destruct (shr_m mrs2); [done| |done]. by destruct (e2 <=? emax - prec).
Qed.

Lemma fpositive_of_bounded p K x :
  fbounded p K x → match x with S754_finite s _ _ => s = false | _ => True end → fpositive x.
Proof. by destruct x. Qed.

Lemma SFmul_sign prec emax x y :
  fpositive x → fpositive y →
  match SFmul prec emax x y with S754_finite s _ _ => s = false | _ => True end.
Proof.
  destruct x as [| | |sx mx ex], y as [| | |sy my ey]; try done. simpl. intros -> ->.
  apply binary_round_aux_sign.
Qed.

Lemma SFadd_sign prec emax x y :
  fpositive x → fpositive y →
  match SFadd prec emax x y with S754_finite s _ _ => s = false | _ => True end.
Proof.
  destruct x as [sx| | |sx mx ex], y as [sy| | |sy my ey]; cbn [fpositive]; try done;
    [by destruct sx, sy|].
  intros -> ->. simpl. unfold binary_round. destruct (shl_align _ _ _). apply binary_round_aux_sign.
Qed.

Lemma ftrunc_pos p K x :
  0 ≤ K → fbounded p K x → fpositive x → ∃ z, ftrunc x = Some z ∧ 0 ≤ z < 2 ^ K.
Proof.
  intros HK Hx Hp. destruct (ftrunc_bound p K x HK Hx) as (z&E&Hz). exists z. split; [done|].
  assert (0 ≤ z); [|lia].
  destruct x as [| | |s m e]; try done; [by injection E as <-|]. simpl in Hp, E. subst s.
  injection E as <-. destruct (Z.leb_spec 0 e).
  - apply Z.mul_nonneg_nonneg; [lia|]. by apply Z.pow_nonneg.
  - apply Z.div_pos; [lia|]. apply Z.pow_pos_nonneg; lia.
Qed.

Lemma float_to_int_pos p K x :
  0 ≤ K ≤ 31 → fbounded p K x → fpositive x → ∃ z, float_to_int x = Some z ∧ 0 ≤ z < 2 ^ K.
Proof.
  intros HK Hx Hp. destruct (ftrunc_pos p K x ltac:(lia) Hx Hp) as (z&E&Hz). exists z. split; [|done].
  pose proof (Z.pow_le_mono_r 2 K 31 ltac:(lia) ltac:(lia)). unfold float_to_int. rewrite E. simpl.
  by rewrite (proj2 (Z.leb_le _ _)), (proj2 (Z.ltb_lt _ _)) by lia.
Qed.

Lemma float_to_size_t_pos p K x :
  0 ≤ K ≤ 64 → fbounded p K x → fpositive x → ∃ z, float_to_size_t x = Some z ∧ 0 ≤ z < 2 ^ K.
Proof.
  intros HK Hx Hp. destruct (ftrunc_pos p K x ltac:(lia) Hx Hp) as (z&E&Hz). exists z. split; [|done].
  pose proof (Z.pow_le_mono_r 2 K 64 ltac:(lia) ltac:(lia)). unfold float_to_size_t. rewrite E. simpl.
  by rewrite (proj2 (Z.leb_le _ _)), (proj2 (Z.ltb_lt _ _)) by lia.
Qed.

(** ** Mantissas: the results of operations are numbers of the format *)
Definition mantissa_ok (p : Z) (x : float) : Prop :=
  match x with S754_finite _ m _ => Zpos m < 2 ^ p | _ => True end.

Section mantissa.
Context (prec emax : Z) (Hprec : 0 < prec) (Hemax : 3 ≤ emax - prec).

Lemma binary_round_aux_mantissa s m e l :
  0 ≤ m → mantissa_ok prec (binary_round_aux prec emax s m e l).
Proof.
  intros Hm. unfold binary_round_aux. destruct (Zdigits2_spec m Hm) as [Hd0 Hd].
  set (K := Z.max 0 (Zdigits2 m + e)).
  assert (m < 2 ^ (K - e)) as Hmk.
  { eapply Z.lt_le_trans; [exact Hd|]. apply Z.pow_le_mono_r; lia. }
  pose proof (shr_fexp_bound prec emax Hprec Hemax m e l K ltac:(lia) Hm ltac:(lia) Hmk) as H1.
  destruct (shr_fexp prec emax m e l) as [mrs1 e1]. destruct H1 as (Hm1&He1&Hk1&_).
  set (m2 := round_nearest_even _ _).
  pose proof (round_nearest_even_bound (shr_m mrs1) (loc_of_shr_record mrs1)) as Hm2. fold m2 in Hm2.
  assert (m2 < 2 ^ (K + 1 - e1)) as Hk2.
  { replace (K + 1 - e1) with (Z.succ (K - e1)) by lia. rewrite Z.pow_succ_r by lia. lia. }
  pose proof (shr_fexp_bound prec emax Hprec Hemax m2 e1 loc_Exact (K + 1)
    ltac:(lia) ltac:(lia) ltac:(lia) Hk2) as H2.
  destruct (shr_fexp prec emax m2 e1 loc_Exact) as [mrs2 e2]. destruct H2 as (_&_&_&Hp3).
  destruct (shr_m mrs2); [done| |done]. by destruct (e2 <=? emax - prec).
Qed.

Lemma SFmul_mantissa x y : mantissa_ok prec (SFmul prec emax x y).
Proof. destruct x, y; try done. by apply binary_round_aux_mantissa. Qed.

Lemma SFadd_mantissa x y :
  mantissa_ok prec x → mantissa_ok prec y → mantissa_ok prec (SFadd prec emax x y).
Proof.
  destruct x as [sx|sx| |sx mx ex], y as [sy|sy| |sy my ey]; try done; try by destruct sx, sy.
  intros _ _. unfold SFadd. cbv zeta.
  destruct (_ + _) as [|m|m]; [done|..]; cbn [binary_normalize]; unfold binary_round;
    destruct (shl_align _ _ _); by apply binary_round_aux_mantissa.
Qed.
End mantissa.

Lemma SFdiv_sign prec emax x y :
  fpositive x → fpositive y →
  match SFdiv prec emax x y with S754_finite s _ _ => s = false | _ => True end.
Proof.
  destruct x as [| | |sx mx ex], y as [| | |sy my ey]; try done. intros -> ->. unfold SFdiv.
  destruct (SFdiv_core_binary _ _ _ _ _ _) as [[mz ez] lz]. apply binary_round_aux_sign.
Qed.

(** ** Integer bounds

    [fle A x]: [x] is a nonnegative number of at most [A]. In contrast to [fbounded] it does not
    lose a factor with every operation, so sums of many terms can be bounded. *)
Definition fle (A : Z) (x : float) : Prop :=
  match x with
  | S754_zero _ => True
  | S754_finite s m e => s = false ∧ e ≤ 0 ∧ Zpos m ≤ A * 2 ^ (- e)
  | _ => False
  end.

Lemma fle_mono A B x : A ≤ B → fle A x → fle B x.
Proof.
  intros HAB. destruct x as [| | |s m e]; try done. intros (->&?&Hm). split_and!; [done|done|].
  pose proof (Z.pow_pos_nonneg 2 (- e) ltac:(lia) ltac:(lia)). nia.
Qed.

Lemma fle_bounded p K A x : 0 ≤ K → A < 2 ^ K → mantissa_ok p x → fle A x → fbounded p K x.
Proof.
  intros HK HA Hp. destruct x as [| | |s m e]; try done. intros (->&?&Hm). split_and!; [lia| |done].
  replace (K - e) with (K + - e) by lia. rewrite Z.pow_add_r by lia.
  pose proof (Z.pow_pos_nonneg 2 (- e) ltac:(lia) ltac:(lia)). nia.
Qed.

Section integer_bounds.
Context (prec emax : Z) (Hprec : 0 < prec) (Hemax : 3 ≤ emax - prec).

Lemma shr_fexp_le m e l A :
  0 ≤ m → e ≤ 0 → 0 ≤ A < 2 ^ prec → m ≤ A * 2 ^ (- e) →
  let '(mrs, e') := shr_fexp prec emax m e l in
  0 ≤ shr_m mrs ∧ e' ≤ 0 ∧ shr_m mrs ≤ A * 2 ^ (- e').
Proof.
  intros Hm He HA Hb. unfold shr_fexp. set (k := fexp prec emax (Zdigits2 m + e) - e).
  assert (e + k ≤ 0) as Hk.
  { assert (Zdigits2 m ≤ prec - e).
    { apply Zdigits2_le; [lia|]. split; [done|]. replace (prec - e) with (prec + - e) by lia.
      rewrite Z.pow_add_r by lia. pose proof (Z.pow_pos_nonneg 2 (- e) ltac:(lia) ltac:(lia)). nia. }
    unfold k, fexp, emin. lia. }
  assert (shr_m (shr_record_of_loc m l) = m) as Em by (by destruct l as [|[]]).
  clearbody k. destruct k as [|k|k]; simpl; [by rewrite Em| |by rewrite Em].
  rewrite iter_shr_div, Em by lia. split_and!; [by apply div_pow2_nonneg|done|].
  apply Z.div_le_upper_bound; [by apply Z.pow_pos_nonneg|].
  replace (2 ^ Zpos k * (A * 2 ^ (- (e + Zpos k)))) with (A * (2 ^ Zpos k * 2 ^ (- (e + Zpos k)))) by lia.
  rewrite <-Z.pow_add_r by lia. by replace (Zpos k + - (e + Zpos k)) with (- e) by lia.
Qed.

Lemma binary_round_aux_le m e l A :
  0 ≤ m → e ≤ 0 → 0 ≤ A → A + 1 < 2 ^ prec → m ≤ A * 2 ^ (- e) →
  fle (A + 1) (binary_round_aux prec emax false m e l).
Proof.
  intros Hm He HA HA' Hb. unfold binary_round_aux.
  pose proof (shr_fexp_le m e l A Hm He ltac:(lia) Hb) as H1.
  destruct (shr_fexp prec emax m e l) as [mrs1 e1]. destruct H1 as (Hm1&He1&Hb1).
  pose proof (round_nearest_even_bound (shr_m mrs1) (loc_of_shr_record mrs1)) as Hm2.
  set (m2 := round_nearest_even _ _) in *.
  pose proof (Z.pow_pos_nonneg 2 (- e1) ltac:(lia) ltac:(lia)).
  pose proof (shr_fexp_le m2 e1 loc_Exact (A + 1) ltac:(lia) He1 ltac:(lia) ltac:(nia)) as H2.
  destruct (shr_fexp prec emax m2 e1 loc_Exact) as [mrs2 e2]. destruct H2 as (Hm3&He2&Hb2).
  destruct (shr_m mrs2) as [|p|p]; [done| |lia].
  by rewrite (proj2 (Z.leb_le _ _)) by lia.
Qed.

Lemma binary_round_le m e A :
  e ≤ 0 → 0 ≤ A → A + 1 < 2 ^ prec → Zpos m ≤ A * 2 ^ (- e) →
  fle (A + 1) (binary_round prec emax false m e).
Proof.
  intros He HA HA' Hm. unfold binary_round.
  pose proof (shl_align_spec m e (fexp prec emax (Zpos (digits2_pos m) + e))) as Ha.
  destruct (shl_align _ _ _) as [m' e']. destruct Ha as [He' Em].
  apply binary_round_aux_le; [lia..|]. rewrite Em. replace (- e') with (- e + (e - e')) by lia.
  rewrite Z.pow_add_r by lia. pose proof (Z.pow_pos_nonneg 2 (e - e') ltac:(lia) ltac:(lia)). nia.
Qed.

Lemma SFmul_le x y A B :
  0 ≤ A → 0 ≤ B → A * B + 1 < 2 ^ prec → fle A x → fle B y → fle (A * B + 1) (SFmul prec emax x y).
Proof.
  intros HA HB HAB Hx Hy. destruct x as [| | |sx mx ex], y as [| | |sy my ey]; try done.
  destruct Hx as (->&?&Hmx), Hy as (->&?&Hmy). apply binary_round_aux_le; [lia|lia|nia|done|].
  replace (- (ex + ey)) with (- ex + - ey) by lia. rewrite Z.pow_add_r, Pos2Z.inj_mul by lia.
  replace (A * B * (2 ^ (- ex) * 2 ^ (- ey))) with ((A * 2 ^ (- ex)) * (B * 2 ^ (- ey))) by lia.
  apply Z.mul_le_mono_nonneg; lia.
Qed.

Lemma SFadd_le x y A B :
  0 ≤ A → 0 ≤ B → A + B + 1 < 2 ^ prec → fle A x → fle B y → fle (A + B + 1) (SFadd prec emax x y).
Proof.
  intros HA HB HAB Hx Hy. pose proof (fle_mono A (A + B + 1) x ltac:(lia) Hx) as Hx'.
  pose proof (fle_mono B (A + B + 1) y ltac:(lia) Hy) as Hy'.
  destruct x as [sx| | |sx mx ex], y as [sy| | |sy my ey]; try done; [by destruct sx, sy|].
  destruct Hx as (->&?&Hmx), Hy as (->&?&Hmy). unfold SFadd. cbv zeta. set (ez := Z.min ex ey).
  assert (∀ m e D, ez ≤ e → Zpos m ≤ D * 2 ^ (- e) → e ≤ 0 →
    Zpos (fst (shl_align m e ez)) ≤ D * 2 ^ (- ez)) as Hal.
  { intros m e D Hez HD He. pose proof (shl_align_spec m e ez) as Ha.
    assert (snd (shl_align m e ez) = ez) as Es by (unfold shl_align; destruct (ez - e) eqn:E; simpl; lia).
    destruct (shl_align m e ez) as [m' e']. simpl in *. subst e'. destruct Ha as [_ ->].
    replace (- ez) with (- e + (e - ez)) by lia. rewrite Z.pow_add_r by lia.
    pose proof (Z.pow_pos_nonneg 2 (e - ez) ltac:(lia) ltac:(lia)). nia. }
  pose proof (Hal mx ex A ltac:(lia) Hmx ltac:(lia)). pose proof (Hal my ey B ltac:(lia) Hmy ltac:(lia)).
  cbn [cond_Zopp]. rewrite <-Pos2Z.inj_add. apply binary_round_le; [lia|lia|lia|]. lia.
Qed.

(** Division by a number of at least [B]. *)
Lemma SFdiv_le x my ey A B Q :
  0 ≤ A → 0 < B → 0 ≤ Q → Q + 1 < 2 ^ prec → A ≤ Q * B → A < 2 ^ prec → fle A x →
  ey ≤ 0 → B * 2 ^ (- ey) ≤ Zpos my → fle (Q + 1) (SFdiv prec emax x (S754_finite false my ey)).
Proof.
  intros HA HB HQ HQ' HAQ HAp Hx Hey Hmy. destruct x as [| | |sx mx ex]; try done.
  destruct Hx as (->&Hex&Hmx). unfold SFdiv, SFdiv_core_binary.
  set (e' := Z.min _ (ex - ey)). set (sh := ex - ey - e').
  assert (0 ≤ sh) by (unfold sh, e'; lia).
  assert (e' ≤ 0) as He'.
  { assert (Zdigits2 (Zpos mx) ≤ prec - ex).
    { apply Zdigits2_le; [lia|]. split; [lia|]. replace (prec - ex) with (prec + - ex) by lia.
      rewrite Z.pow_add_r by lia. pose proof (Z.pow_pos_nonneg 2 (- ex) ltac:(lia) ltac:(lia)). nia. }
    assert (0 < Zdigits2 (Zpos my) + ey).
    { destruct (Zdigits2_spec (Zpos my) ltac:(lia)) as [Hd0 Hd]. apply Z.nle_gt. intros Hle.
      pose proof (Z.pow_le_mono_r 2 (Zdigits2 (Zpos my)) (- ey) ltac:(lia) ltac:(lia)).
      pose proof (Z.pow_pos_nonneg 2 (- ey) ltac:(lia) ltac:(lia)). nia. }
    unfold e', fexp, emin. lia. }
  assert ((match sh with Z0 => Zpos mx | Zpos _ => Zpos mx ≪ sh | Zneg _ => 0 end) = Zpos mx * 2 ^ sh) as ->.
  { destruct sh as [|p'|p']; [simpl; lia| |lia]. by rewrite Z.shiftl_mul_pow2 by lia. }
  pose proof (Z_div_mod (Zpos mx * 2 ^ sh) (Zpos my) ltac:(lia)) as Hdm.
  destruct (Z.div_eucl _ _) as [q r]. destruct Hdm as [Eq Hr].
  pose proof (Z.pow_pos_nonneg 2 sh ltac:(lia) ltac:(lia)) as Hsh.
  assert (0 ≤ q) by nia. apply binary_round_aux_le; [lia..|].
  pose proof (Z.pow_pos_nonneg 2 (- ey) ltac:(lia) ltac:(lia)) as Hpy.
  assert (2 ^ (- ex) * 2 ^ sh = 2 ^ (- e') * 2 ^ (- ey)) as Ep.
  { rewrite <-!Z.pow_add_r by lia. f_equal. unfold sh. lia. }
  assert (q * (B * 2 ^ (- ey)) ≤ Q * 2 ^ (- e') * (B * 2 ^ (- ey))); [|nia].
  transitivity (Zpos mx * 2 ^ sh); [nia|]. transitivity (A * (2 ^ (- ex) * 2 ^ sh)); [nia|].
  rewrite Ep. pose proof (Z.pow_pos_nonneg 2 (- e') ltac:(lia) ltac:(lia)). nia.
Qed.
End integer_bounds.

(** Closed bounds are checked by evaluation. *)
Ltac fconst := vm_compute; repeat split; (reflexivity || (intros ?; discriminate)).
