(* ===== verification/Rtt.v ===== *)
(** * Round trip time and window size: [sender/RTT.h], [sender/WindowSize.h]

    The smoothed round trip time and the number of unacknowledged packets allowed for it, with
    the other float computations on the way to a timer: [toDuration] of [Base.h] and
    [Retrier::calculateRetryDuration]. The members [maximum] and [minimum] of the structures are
    never assigned and are constants here. *)

From S2P Require Import Prelude Float32.
From Stdlib Require Import Floats.SpecFloat.

(** The literals [1.0f], [0.005f] and [0.9f], rounded to binary32. *)
Definition maximum : float := S754_finite false 8388608 (-23).
Definition minimum : float := S754_finite false 10737418 (-31).
Definition a : float := S754_finite false 15099494 (-24).
Definition b : float := fsub (f32_of_Z 1) a.

(** ** RTTSimple *)
Definition RTT_init : float := maximum.

Definition calculate (duration sample : float) : float :=
  fmin maximum (fmax minimum (fadd (fmul a duration) (fmul b sample))).

(** The new [duration]. *)
Definition RTT_onSample (duration sample : float) : float := calculate duration sample.
Definition RTT_onAckFailure (duration : float) : float := RTT_onSample duration maximum.

(** ** WindowSize *)
Definition window_minimum : Z := 3.
Definition window_maximum : Z := 1024.
Definition WindowSize_init : Z := 3.

(** [WindowSizeSimple::onSample]: the new [size]. *)
Definition WindowSize_onSample (rtt : float) : option Z :=
  n ← float_to_size_t (fdiv (f32_of_Z 2) rtt);
  Some (Z.min window_maximum (Z.max window_minimum n)).

(** [WindowSizeMinMaxLinear::onSample]; its [maximumLength] is [maximum - minimum]. *)
Definition linear_minimum : Z := 3.
Definition linear_maximum : Z := 256.
Definition WindowSizeMinMaxLinear_onSample (rtt : float) : option Z :=
  let rtt := fmin rtt maximum in
  let drtt := fsub maximum rtt in
  float_to_size_t (fadd (fmul (fdiv drtt maximum) (f32_of_Z (linear_maximum - linear_minimum)))
                        (f32_of_Z linear_minimum)).

(** ** Durations *)

(** [Duration toDuration(float)], in milliseconds. *)
Definition toDuration (v : float) : option Z := float_to_int (fmul v (f32_of_Z 1000)).

Definition calculateRetryDuration (rtt : float) : float :=
  let delayedAckContribution := fdiv (f32_of_Z 30) (f32_of_Z 1000) in
  fadd (fmul (f32_of_Z 2) rtt) delayedAckContribution.

(** ** Ranges *)

(** The values [duration] takes: binary32 numbers from [minimum] to [maximum]. *)
Definition rtt_ok (r : float) : Prop :=
  SFleb minimum r = true ∧ SFleb r maximum = true ∧
  mantissa_ok 24 r.

Lemma rtt_ok_finite r :
  rtt_ok r → ∃ m e, r = S754_finite false m e ∧ -31 ≤ e ≤ -23 ∧ Zpos m < 2 ^ 24.
Proof.
  intros (Hl&Hu&Hm). destruct r as [s|s| |s m e]; try done; [by destruct s|].
  destruct s; [done|]. exists m, e. split_and!; [done| | |done].
  - unfold SFleb, SFcompare, minimum in Hl. destruct (Z.compare_spec (-31) e); [lia|lia|done].
  - unfold SFleb, SFcompare, maximum in Hu. destruct (Z.compare_spec e (-23)); [lia|lia|done].
Qed.

Lemma rtt_ok_bounded r : rtt_ok r → fbounded 24 1 r ∧ fpositive r.
Proof.
  intros (m&e&->&He&Hm)%rtt_ok_finite. split; [|done]. split_and!; [lia| |done].
  eapply Z.lt_le_trans; [exact Hm|]. apply Z.pow_le_mono_r; lia.
Qed.

Lemma maximum_ok : rtt_ok maximum.
Proof. by vm_compute. Qed.

Lemma minimum_ok : rtt_ok minimum.
Proof. by vm_compute. Qed.

Lemma calculateRetryDuration_bounded r :
  rtt_ok r → fbounded 24 6 (calculateRetryDuration r) ∧ fpositive (calculateRetryDuration r).
Proof.
  intros [Hb Hp]%rtt_ok_bounded. unfold calculateRetryDuration, fadd.
  assert (fbounded 24 4 (fmul (f32_of_Z 2) r)) as Hm.
  { apply (SFmul_bound 24 128 ltac:(lia) ltac:(lia) _ _ 2 1 24); [lia|lia|lia|by fconst|done]. }
  assert (fbounded 24 6 (SFadd 24 128 (fmul (f32_of_Z 2) r) (fdiv (f32_of_Z 30) (f32_of_Z 1000)))) as Ha.
  { apply (SFadd_bound 24 128 ltac:(lia) ltac:(lia) _ _ 4); [lia|lia|done|by fconst]. }
  split; [done|]. eapply fpositive_of_bounded; [done|]. apply SFadd_sign; [|by vm_compute].
  eapply fpositive_of_bounded; [done|]. by apply SFmul_sign.
Qed.

(** A retry timer is never further than [2^17] milliseconds away. *)
Lemma toDuration_retry r :
  rtt_ok r → ∃ d, toDuration (calculateRetryDuration r) = Some d ∧ 0 ≤ d < 2 ^ 17.
Proof.
  intros [Hb Hp]%calculateRetryDuration_bounded.
  assert (fbounded 24 17 (fmul (calculateRetryDuration r) (f32_of_Z 1000))) as Hm.
  { apply (SFmul_bound 24 128 ltac:(lia) ltac:(lia) _ _ 6 10 24); [lia|lia|lia|done|by fconst]. }
  apply (float_to_int_pos 24); [lia|done|]. eapply fpositive_of_bounded; [done|]. by apply SFmul_sign.
Qed.

(** The linger time of a closed connection, [toDuration(rtt.duration * 3)]. *)
Lemma toDuration_linger r :
  rtt_ok r → ∃ d, toDuration (fmul r (f32_of_Z 3)) = Some d ∧ 0 ≤ d < 2 ^ 15.
Proof.
  intros [Hb Hp]%rtt_ok_bounded.
  assert (fbounded 24 4 (fmul r (f32_of_Z 3))) as H1.
  { apply (SFmul_bound 24 128 ltac:(lia) ltac:(lia) _ _ 1 2 24); [lia|lia|lia|done|by fconst]. }
  assert (fbounded 24 15 (fmul (fmul r (f32_of_Z 3)) (f32_of_Z 1000))) as H2.
  { apply (SFmul_bound 24 128 ltac:(lia) ltac:(lia) _ _ 4 10 24); [lia|lia|lia|done|by fconst]. }
  apply (float_to_int_pos 24); [lia|done|]. eapply fpositive_of_bounded; [done|].
  apply SFmul_sign; [|done]. eapply fpositive_of_bounded; [done|]. by apply SFmul_sign.
Qed.

Lemma calculate_ok duration sample : rtt_ok (calculate duration sample).
Proof.
  unfold calculate. set (x := fadd _ _).
  assert (mantissa_ok 24 x) as Hx.
  { apply (SFadd_mantissa 24 128); [lia|lia|apply (SFmul_mantissa 24 128); lia..]. }
  assert (SFleb minimum (fmax minimum x) = true ∧ mantissa_ok 24 (fmax minimum x)) as [Hl Hm].
  { unfold fmax. destruct (SFltb minimum x) eqn:E; [|by vm_compute]. split; [|done].
    unfold SFltb in E. unfold SFleb. by destruct (SFcompare minimum x) as [[]|]. }
  unfold fmin. destruct (SFltb (fmax minimum x) maximum) eqn:E; [|apply maximum_ok].
  split_and!; [done| |done]. unfold SFltb in E. unfold SFleb.
  by destruct (SFcompare (fmax minimum x) maximum) as [[]|].
Qed.

Lemma WindowSize_onSample_ok r :
  rtt_ok r → ∃ n, WindowSize_onSample r = Some n ∧ window_minimum ≤ n ≤ window_maximum.
Proof.
  intros Hr. destruct (rtt_ok_bounded r Hr) as [_ Hp].
  destruct (rtt_ok_finite r Hr) as (m&e&->&He&_). unfold WindowSize_onSample.
  assert (fbounded 24 34 (fdiv (f32_of_Z 2) (S754_finite false m e))) as Hb.
  { apply (SFdiv_bound 24 128 ltac:(lia) ltac:(lia) _ false m e 2 31 24); [lia|lia|lia|by fconst|lia]. }
  destruct (float_to_size_t_pos 24 34 _ ltac:(lia) Hb) as (z&E&Hz).
  { eapply fpositive_of_bounded; [done|]. by apply SFdiv_sign. }
  rewrite E. eexists. split; [done|]. unfold window_minimum, window_maximum. lia.
Qed.

(** ** Claims *)

(** C35: the float pipeline is defined and in range. Whatever the previous duration and whatever
    the sample (negative, infinite or NaN included: a peer chooses the delay subtracted from it),
    the round trip time stays a binary32 number from 0.005 to 1; for such a value the window size
    is defined and between 3 and 1024 packets, and the conversions to the retry and linger
    timers are defined, nonnegative and below [2^17] and [2^15] milliseconds. *)
Theorem rtt_pipeline_safe (duration sample : float) :
  let r := RTT_onSample duration sample in
  rtt_ok r ∧
  (∃ n, WindowSize_onSample r = Some n ∧ window_minimum ≤ n ≤ window_maximum) ∧
  (∃ d, toDuration (calculateRetryDuration r) = Some d ∧ 0 ≤ d < 2 ^ 17) ∧
  (∃ d, toDuration (fmul r (f32_of_Z 3)) = Some d ∧ 0 ≤ d < 2 ^ 15).
Proof.
  pose proof (calculate_ok duration sample) as Hr. cbv zeta. unfold RTT_onSample.
  split_and!; [done|by apply WindowSize_onSample_ok|by apply toDuration_retry|by apply toDuration_linger].
Qed.
