(* ===== verification/Scheduler.v ===== *)
(** * The timer queue: [Scheduler]

    All timers of a service share one queue ordered by time. A [Timeout] is allocated once with
    its callback and then moves between its own handle and the queue; here a timeout is named by
    a number and [handles] holds the timeouts whose node is extracted. Time points are in
    nanoseconds, the tick of the steady clock. [updates] records the calls of [imp->update],
    which arm the native timer.

    Callbacks run inside [process_] with the lock released. The application is a state [W] on which
    a callback acts; what the callback, or another thread meanwhile, does to the queue is a list of
    requests: to schedule, allocate or free timeouts. *)

From S2P Require Import Prelude.
From stdpp Require Import list.
#[local] Open Scope Z_scope.

Abbreviation Timepoint := Z.
Abbreviation TimeoutID := nat.

Record Node := mkNode { when_ : Timepoint; parent : TimeoutID }.

Record Scheduler := mkScheduler {
  queue : list Node;               (* std::multiset<Node>, ordered by [when_] *)
  last_ : Timepoint;
  handles : gset TimeoutID;
  updates : list (Timepoint * bool);
}.

(** [Timepoint::min()] *)
Definition Timepoint_min : Timepoint := - 2 ^ 63.

Definition Scheduler_init : Scheduler := mkScheduler [] Timepoint_min ∅ [].

(** [queue.insert]: after the nodes that are not later. *)
Fixpoint insert_node (n : Node) (l : list Node) : list Node :=
  match l with
  | [] => [n]
  | x :: l' => if when_ n <? when_ x then n :: l else x :: insert_node n l'
  end.

Definition in_queue (t : TimeoutID) (s : Scheduler) : bool :=
  bool_decide (Exists (λ n, parent n = t) (queue s)).

(** [timeout.where == queue.begin()] *)
Definition is_begin (t : TimeoutID) (s : Scheduler) : bool :=
  match queue s with n :: _ => bool_decide (parent n = t) | [] => false end.

(** [timeout.handle = queue.extract(timeout.where)] *)
Definition extract (t : TimeoutID) (s : Scheduler) : Scheduler :=
  mkScheduler (filter (λ n, parent n ≠ t) (queue s)) (last_ s) ({[t]} ∪ handles s) (updates s).

(** ** Operations *)

Definition allocate (t : TimeoutID) : M Scheduler unit :=
  modify (λ s, mkScheduler (queue s) (last_ s) ({[t]} ∪ handles s) (updates s)).

(** The timeout's node goes with it. *)
Definition free (t : TimeoutID) : M Scheduler unit :=
  modify (λ s, mkScheduler (filter (λ n, parent n ≠ t) (queue s)) (last_ s)
                 (handles s ∖ {[t]}) (updates s)).

(** When a timeout scheduled for [then_] fires, [last] being the time of the last pass. *)
Definition fire_time (last then_ : Timepoint) : Timepoint :=
  let ensureRuns := if then_ <=? last then 1 else 0 in
  let then_ := if then_ <=? last then last else then_ in
  let milliseconds := wrap 64 (then_ `quot` 1000000 + ensureRuns) in
  let roundAmount := 10 - milliseconds `mod` 10 in
  then_ + roundAmount * 1000000.

Definition schedule_ (t : TimeoutID) (then_ : Timepoint) : M Scheduler (bool * Timepoint) :=
  s ← mget;
  if negb (in_queue t s) && negb (bool_decide (t ∈ handles s)) then ub
  else
    let changed := in_queue t s && is_begin t s in
    when (in_queue t s) (modify (extract t));;
    modify (λ s, mkScheduler (insert_node (mkNode (fire_time (last_ s) then_) t) (queue s)) (last_ s)
                   (handles s ∖ {[t]}) (updates s));;
    s ← mget;
    match queue s with
    | [] => ub
    | n :: _ => mret (changed || is_begin t s, when_ n)
    end.

Definition update (next : Timepoint) (processing : bool) : M Scheduler unit :=
  modify (λ s, mkScheduler (queue s) (last_ s) (handles s) (updates s ++ [(next, processing)])).

Definition schedule (t : TimeoutID) (then_ : Timepoint) : M Scheduler unit :=
  '(changed, next) ← schedule_ t then_;
  when changed (update next false).

(** ** Callbacks *)

Inductive Request := Schedule (t : TimeoutID) (then_ : Timepoint) | Allocate (t : TimeoutID) | Free (t : TimeoutID).

Definition target (r : Request) : TimeoutID := match r with Schedule t _ | Allocate t | Free t => t end.

(** A request made while the callback of [running] runs. To destroy a timeout whose callback runs
    destroys the function that is executing. *)
Definition request (running : TimeoutID) (r : Request) : M Scheduler unit :=
  match r with
  | Schedule t then_ => schedule t then_
  | Allocate t => allocate t
  | Free t => if decide (t = running) then ub else free t
  end.

Section process.
Context {W : Type} (callback : TimeoutID → W → list Request * W).

Definition run_callback (t : TimeoutID) (w : W) : M Scheduler W :=
  let '(reqs, w') := callback t w in
  mapM_ (request t) reqs;;
  mret w'.

(** The timeouts that ran, in order, and the application afterwards. *)
Fixpoint process_loop (fuel : nat) (now : Timepoint) (w : W) : M Scheduler (list TimeoutID * W) :=
  match fuel with
  | O => ub
  | S fuel =>
    s ← mget;
    match queue s with
    | [] => mret ([], w)
    | front :: _ =>
      if now <=? when_ front then mret ([], w)
      else
        modify (extract (parent front));;
        w ← run_callback (parent front) w;
        '(ran, w) ← process_loop fuel now w;
        mret (parent front :: ran, w)
    end
  end.

Definition process_ (now : Timepoint) (w : W) : M Scheduler (list TimeoutID * W * Timepoint) :=
  modify (λ s, mkScheduler (queue s) now (handles s) (updates s));;
  s ← mget;
  '(ran, w) ← process_loop (S (length (queue s))) now w;
  s ← mget;
  mret (ran, w, match queue s with n :: _ => when_ n | [] => Timepoint_min end).

Definition process (time : Timepoint) (w : W) : M Scheduler (list TimeoutID * W) :=
  '(ran, w, next) ← process_ time w;
  when (negb (next =? Timepoint_min)) (update next true);;
  mret (ran, w).
End process.

(** ** Invariant *)

(** The queue is in time order and every timeout has one node, in the queue or extracted. *)
Record sched_inv (s : Scheduler) : Prop := {
  si_sorted : StronglySorted (λ x y, when_ x ≤ when_ y) (queue s);
  si_nodup : NoDup (parent <$> queue s);
  si_handles : ∀ t, t ∈ parent <$> queue s → t ∉ handles s;
}.

Definition allocated (s : Scheduler) : gset TimeoutID := list_to_set (parent <$> queue s) ∪ handles s.

Lemma in_queue_true t s : in_queue t s = true ↔ t ∈ parent <$> queue s.
Proof.
  unfold in_queue. rewrite bool_decide_eq_true, Exists_exists, list_elem_of_fmap.
  split; [intros (n&Hn&<-); by exists n|].
  intros (n&->&Hn). by exists n.
Qed.

Lemma insert_node_perm n l : insert_node n l ≡ₚ n :: l.
Proof.
  induction l as [|x l IH]; simpl; [done|]. destruct (when_ n <? when_ x); [done|].
  rewrite IH. apply perm_swap.
Qed.

Lemma insert_node_sorted n l :
  StronglySorted (λ x y, when_ x ≤ when_ y) l → StronglySorted (λ x y, when_ x ≤ when_ y) (insert_node n l).
Proof.
  induction 1 as [|x l Hs IH Hx]; simpl; [repeat constructor|].
  destruct (Z.ltb_spec (when_ n) (when_ x)).
  - constructor; [by constructor|]. constructor; [lia|]. eapply Forall_impl; [done|]. simpl. lia.
  - constructor; [done|]. rewrite insert_node_perm. constructor; [done|done].
Qed.

Lemma StronglySorted_filter_ {A} (R : A → A → Prop) (P : A → Prop) `{!∀ x, Decision (P x)} l :
  StronglySorted R l → StronglySorted R (filter P l).
Proof.
  induction 1 as [|x l Hs IH Hx]; [constructor|]. rewrite filter_cons. case_decide; [|done].
  constructor; [done|]. apply Forall_forall. intros y [_ Hy]%list_elem_of_filter.
  by eapply Forall_forall in Hx.
Qed.

Lemma filter_parent_sublist t l : filter (λ n, parent n ≠ t) l `sublist_of` l.
Proof. apply sublist_filter. Qed.

Lemma elem_of_parents t (l : list Node) : t ∈ parent <$> l ↔ ∃ n, n ∈ l ∧ parent n = t.
Proof. rewrite list_elem_of_fmap. split; intros (n&?&?); exists n; by split. Qed.

Lemma extract_inv t s : sched_inv s → sched_inv (extract t s).
Proof.
  intros [Hs Hn Hh]. split; simpl.
  - by apply StronglySorted_filter_.
  - eapply sublist_NoDup; [done|]. apply fmap_sublist, filter_parent_sublist.
  - intros u (n&[Hnt Hin]%list_elem_of_filter&<-)%elem_of_parents.
    rewrite not_elem_of_union, not_elem_of_singleton. split; [done|]. apply Hh, elem_of_parents. eauto.
Qed.

(** ** Scheduling *)

Lemma fire_time_spec last then_ :
  let w := fire_time last then_ in
  last < w ∧ then_ < w ∧ w ≤ Z.max last then_ + 10 * 1000000 ∧
  (last < then_ → 0 ≤ then_ < 2 ^ 63 → w `quot` 1000000 `mod` 10 = 0).
Proof.
  cbv zeta. unfold fire_time.
  pose proof (Z.mod_pos_bound (wrap 64 ((if then_ <=? last then last else then_) `quot` 1000000 +
    (if then_ <=? last then 1 else 0))) 10 ltac:(lia)) as Hm.
  destruct (Z.leb_spec then_ last) as [Hl|Hl]; split_and!; try lia.
  intros _ Ht. rewrite Z.add_0_r, wrap_small.
  2:{ split; [apply Z.quot_pos; lia|]. apply Z.quot_lt_upper_bound; lia. }
  rewrite (Z.quot_div_nonneg then_) by lia.
  set (m := then_ `div` 1000000). rewrite Z.quot_div_nonneg.
  2:{ assert (0 ≤ m) by (apply Z.div_pos; lia). pose proof (Z.mod_pos_bound m 10). lia. }
  2: lia.
  rewrite Z.div_add by lia. fold m.
  replace (m + (10 - m `mod` 10)) with ((m - m `mod` 10) + 1 * 10) by lia.
  rewrite Z.mod_add by lia. rewrite Zminus_mod, Zmod_mod, Z.sub_diag. done.
Qed.

Lemma filter_absent t (l : list Node) : t ∉ parent <$> l → filter (λ n, parent n ≠ t) l = l.
Proof.
  induction l as [|n l IH]; [done|]. cbn [fmap list_fmap]. rewrite not_elem_of_cons. intros [Hn Hl].
  rewrite filter_cons_True by congruence. by rewrite IH.
Qed.

Lemma extract_allocated t s : t ∈ parent <$> queue s → allocated (extract t s) = allocated s.
Proof.
  intros Ht. unfold allocated, extract. simpl. apply set_eq. intros u.
  rewrite !elem_of_union, elem_of_singleton, !elem_of_list_to_set, !elem_of_parents.
  split.
  - intros [(n&[??]%list_elem_of_filter&?)|[->|?]]; [left; eauto|left; by apply elem_of_parents|by right].
  - intros [(n&?&?)|?]; [|by right; right]. destruct (decide (u = t)) as [->|]; [by right; left|].
    left. exists n. split; [|done]. apply list_elem_of_filter. split; [congruence|done].
Qed.

(** The queue after a [schedule]. *)
Definition rescheduled (t : TimeoutID) (w : Timepoint) (l : list Node) : list Node :=
  insert_node (mkNode w t) (filter (λ n, parent n ≠ t) l).

Lemma rescheduled_parents t w l : parent <$> rescheduled t w l ≡ₚ t :: (parent <$> filter (λ n, parent n ≠ t) l).
Proof. unfold rescheduled. by rewrite insert_node_perm. Qed.

Lemma rescheduled_inv t w s hs us l :
  sched_inv s → hs = handles s ∖ {[t]} →
  let s' := mkScheduler (rescheduled t w (queue s)) l hs us in
  sched_inv s' ∧ (t ∈ allocated s → allocated s' = allocated s).
Proof.
  intros Hi -> s'. pose proof (extract_inv t s Hi) as [Hs1 Hn1 Hh1]. simpl in Hs1, Hn1, Hh1.
  split; [split; simpl|].
  - by apply insert_node_sorted.
  - rewrite rescheduled_parents. apply NoDup_cons. split; [|done].
    intros (n&[Hn _]%list_elem_of_filter&E)%elem_of_parents. done.
  - intros u. rewrite rescheduled_parents, elem_of_cons. intros [->|Hu%Hh1]; set_solver.
  - intros Ht. unfold allocated. simpl. apply set_eq. intros u.
    rewrite !elem_of_union, !elem_of_list_to_set, rescheduled_parents, elem_of_cons.
    unfold allocated in Ht. rewrite elem_of_union, elem_of_list_to_set in Ht.
    destruct (decide (u = t)) as [->|Hu]; [set_solver|].
    rewrite elem_of_difference, not_elem_of_singleton, !elem_of_parents.
    split; [intros [[?|(n&[??]%list_elem_of_filter&?)]|[??]]; [done|left; eauto|by right]|].
    intros [(n&?&?)|?]; [left; right|by right]. exists n. split; [|done].
    apply list_elem_of_filter. split; [congruence|done].
Qed.

Lemma schedule__spec t then_ s :
  sched_inv s → t ∈ allocated s →
  wp (schedule_ t then_) (λ '(changed, next) s',
    sched_inv s' ∧ allocated s' = allocated s ∧ last_ s' = last_ s ∧ updates s' = updates s ∧
    queue s' = rescheduled t (fire_time (last_ s) then_) (queue s) ∧
    (when_ <$> head (queue s')) = Some next ∧
    (changed = false → head (queue s') = head (queue s))) s.
Proof.
  intros Hi Ht. unfold schedule_. wp_steps.
  assert (negb (in_queue t s) && negb (bool_decide (t ∈ handles s)) = false) as ->.
  { apply andb_false_iff. unfold allocated in Ht. apply elem_of_union in Ht as [Ht|Ht].
    - left. rewrite negb_false_iff, in_queue_true. by apply elem_of_list_to_set in Ht.
    - right. by rewrite negb_false_iff, bool_decide_eq_true. }
  set (w := fire_time (last_ s) then_).
  destruct (rescheduled_inv t w s (handles s ∖ {[t]}) (updates s) (last_ s) Hi eq_refl) as [Hi' Ha].
  set (s' := mkScheduler _ _ _ _) in Hi', Ha.
  assert (∀ (c : bool),
    (c = false → is_begin t s = false) →
    wp (s ← mget; match queue s with [] => ub | n :: _ => mret (c || is_begin t s, when_ n) end)
    (λ '(changed, next) s',
      sched_inv s' ∧ allocated s' = allocated s ∧ last_ s' = last_ s ∧ updates s' = updates s ∧
      queue s' = rescheduled t w (queue s) ∧ (when_ <$> head (queue s')) = Some next ∧
      (changed = false → head (queue s') = head (queue s))) s') as Hk.
  { intros c Hc. wp_steps. destruct (queue s') as [|n rest] eqn:Eq.
    { simpl in Eq. unfold rescheduled in Eq. by destruct (filter _ _); simpl in Eq; [|case_match]. }
    wp_steps. rewrite Eq. split_and!; [done|by apply Ha|done|done|by rewrite <-Eq|done|].
    intros [Hc' Hb]%orb_false_iff. simpl. unfold is_begin in Hb. rewrite Eq in Hb.
    apply bool_decide_eq_false in Hb. simpl in Eq. unfold rescheduled in Eq.
    specialize (Hc Hc'). unfold is_begin in Hc. destruct (queue s) as [|m l]; [by injection Eq as <- _|].
    apply bool_decide_eq_false in Hc. rewrite filter_cons_True in Eq by done. simpl in Eq.
    destruct (w <? when_ m); injection Eq as <- _; [done|by f_equal]. }
  apply wp_bind, wp_when; intros Hin; [apply wp_modify|]; apply wp_bind, wp_modify.
  - replace (mkScheduler (insert_node _ _) _ _ _) with s'.
    + apply Hk. by rewrite Hin.
    + unfold s', extract, rescheduled. simpl. f_equal. set_solver.
  - replace (mkScheduler (insert_node _ _) _ _ _) with s'.
    + apply Hk. intros _. rewrite <-not_true_iff_false in *. intros Hb. apply Hin, in_queue_true.
      unfold is_begin in Hb. destruct (queue s) as [|m l]; [done|]. apply bool_decide_eq_true in Hb.
      rewrite <-Hb. apply elem_of_cons. by left.
    + unfold s', rescheduled. f_equal. rewrite filter_absent; [done|].
      by rewrite <-in_queue_true, Hin.
Qed.

(** The native timer is armed for the front of the queue. *)
Definition armed (s : Scheduler) : Prop :=
  ∀ n, head (queue s) = Some n → ∃ b, last (updates s) = Some (when_ n, b).

Lemma schedule_spec t then_ s :
  sched_inv s → t ∈ allocated s →
  wp (schedule t then_) (λ _ s',
    sched_inv s' ∧ allocated s' = allocated s ∧ last_ s' = last_ s ∧
    queue s' = rescheduled t (fire_time (last_ s) then_) (queue s) ∧
    (armed s → armed s')) s.
Proof.
  intros Hi Ht. unfold schedule. apply wp_bind. eapply wp_mono; [by apply schedule__spec|].
  intros [changed next] s' (Hi'&Ha&Hl&Hu&Hq&Hn&Hc). apply wp_when; intros ->.
  - apply wp_modify. split_and!; simpl; [by destruct Hi'|done..|].
    intros _ n Hh. simpl in Hh |- *. rewrite last_snoc. rewrite Hh in Hn. injection Hn as ->. eauto.
  - split_and!; [done..|]. intros Harm n Hh. rewrite Hu. apply Harm. by rewrite <-Hc.
Qed.

(** ** A pass over the due timeouts *)

Definition due (now : Timepoint) (l : list Node) : list Node := filter (λ n, when_ n < now) l.

Lemma due_insert now n l : now ≤ when_ n → due now (insert_node n l) = due now l.
Proof.
  intros Hn. unfold due. induction l as [|x l IH]; simpl.
  - by rewrite filter_cons_False by lia.
  - destruct (when_ n <? when_ x); [by rewrite filter_cons_False by lia|].
    rewrite !filter_cons. by rewrite IH.
Qed.

Lemma due_filter now (P : Node → Prop) `{!∀ n, Decision (P n)} l : due now (filter P l) = filter P (due now l).
Proof. unfold due. rewrite !list_filter_filter. apply list_filter_iff. naive_solver. Qed.

(** *** Requests *)

(** The requests a callback may make when the timeouts [A] exist, and the timeouts that exist then. *)
Fixpoint legal (running : TimeoutID) (A : gset TimeoutID) (reqs : list Request) : Prop :=
  match reqs with
  | [] => True
  | Schedule t _ :: reqs => t ∈ A ∧ legal running A reqs
  | Allocate t :: reqs => t ∉ A ∧ legal running ({[t]} ∪ A) reqs
  | Free t :: reqs => t ∈ A ∧ t ≠ running ∧ legal running (A ∖ {[t]}) reqs
  end.

Definition after1 (A : gset TimeoutID) (r : Request) : gset TimeoutID :=
  match r with Schedule _ _ => A | Allocate t => {[t]} ∪ A | Free t => A ∖ {[t]} end.
Definition after (A : gset TimeoutID) (reqs : list Request) : gset TimeoutID := foldl after1 A reqs.

(** The last request for a timeout. *)
Definition last_request (t : TimeoutID) (reqs : list Request) : option Request :=
  last (filter (λ r, target r = t) reqs).

(** Whether a node is in the queue after requests, if it was before exactly when [old]. *)
Definition settled (now : Timepoint) (reqs : list Request) (old : Prop) (n : Node) : Prop :=
  match last_request (parent n) reqs with
  | None => old
  | Some (Schedule _ then_) => when_ n = fire_time now then_
  | Some _ => False
  end.

Definition targets (reqs : list Request) : gset TimeoutID := list_to_set (target <$> reqs).

Lemma last_request_app t reqs reqs' :
  last_request t (reqs ++ reqs') =
  match last_request t reqs' with Some r => Some r | None => last_request t reqs end.
Proof. unfold last_request. rewrite filter_app, last_app. done. Qed.

Lemma settled_app now reqs reqs' old n :
  settled now (reqs ++ reqs') old n ↔ settled now reqs' (settled now reqs old n) n.
Proof. unfold settled. rewrite last_request_app. by destruct (last_request (parent n) reqs'). Qed.

Lemma settled_iff now reqs old old' n : (old ↔ old') → settled now reqs old n ↔ settled now reqs old' n.
Proof. unfold settled. by destruct (last_request _ _). Qed.

Lemma settled_one now r old n :
  settled now [r] old n ↔
  (target r = parent n ∧ match r with Schedule _ then_ => when_ n = fire_time now then_ | _ => False end) ∨
  (target r ≠ parent n ∧ old).
Proof.
  unfold settled, last_request. rewrite filter_cons. case_decide as E; simpl; [|naive_solver].
  destruct r; naive_solver.
Qed.

(** What one request does. *)
Lemma request_spec running r s :
  sched_inv s → legal running (allocated s) [r] →
  wp (request running r) (λ _ s', sched_inv s' ∧ allocated s' = after1 (allocated s) r ∧ last_ s' = last_ s ∧
    (∀ n, n ∈ queue s' ↔ settled (last_ s) [r] (n ∈ queue s) n) ∧
    due (last_ s) (queue s') = filter (λ n, parent n ≠ target r) (due (last_ s) (queue s))) s.
Proof.
  intros Hi Hl. destruct r as [t then_|t|t]; simpl in Hl |- *.
  - eapply wp_mono; [by apply schedule_spec; [|apply Hl]|]. intros [] s' (Hi'&Ha&Hl'&Hq&_).
    split_and!; [done|done|done| |].
    + intros n. rewrite settled_one, Hq. unfold rescheduled. rewrite insert_node_perm, elem_of_cons, list_elem_of_filter. simpl.
      split; [intros [->|?]; naive_solver|]. intros [[-> E]|?]; [left; destruct n; simpl in *; by subst|right; naive_solver].
    + rewrite Hq. unfold rescheduled. rewrite due_insert; [apply due_filter|]. simpl.
      destruct (fire_time_spec (last_ s) then_) as [? _]. lia.
  - apply wp_modify. destruct Hi as [H1 H2 H3]. destruct Hl as [Hl _]. unfold allocated in Hl.
    rewrite not_elem_of_union, elem_of_list_to_set in Hl. destruct Hl as [Hl _]. split_and!; simpl; [|set_solver|done| |].
    + split; simpl; [done|done|]. intros u Hu. rewrite not_elem_of_union, not_elem_of_singleton.
      split; [by intros ->; done|by apply H3].
    + intros n. rewrite settled_one. simpl. split; [|naive_solver]. intros Hn. right. split; [|done].
      intros ->. apply Hl, elem_of_parents. eauto.
    + rewrite <-due_filter, filter_absent by apply Hl. done.
  - destruct Hl as (Ht&Hr&_). rewrite decide_False by done. apply wp_modify.
    destruct (extract_inv t s Hi) as [H1 H2 H3]. simpl in H1, H2, H3. split_and!; simpl; [| |done| |].
    + split; simpl; [done|done|]. intros u Hu%H3. set_solver.
    + unfold allocated. simpl. apply set_eq. intros u. rewrite !elem_of_difference, !elem_of_union, elem_of_difference,
        !elem_of_list_to_set, !elem_of_parents, !not_elem_of_singleton.
      split; [intros [(n&[??]%list_elem_of_filter&<-)|?]; naive_solver|].
      intros [[(n&?&<-)|?] ?]; [left; exists n; by rewrite list_elem_of_filter|by right].
    + intros n. rewrite settled_one, list_elem_of_filter. simpl. naive_solver.
    + apply due_filter.
Qed.

Lemma requests_spec running reqs s :
  sched_inv s → legal running (allocated s) reqs →
  wp (mapM_ (request running) reqs) (λ _ s',
    sched_inv s' ∧ allocated s' = after (allocated s) reqs ∧ last_ s' = last_ s ∧
    (∀ n, n ∈ queue s' ↔ settled (last_ s) reqs (n ∈ queue s) n) ∧
    due (last_ s) (queue s') = filter (λ n, parent n ∉ targets reqs) (due (last_ s) (queue s))) s.
Proof.
  revert s. induction reqs as [|r reqs IH]; intros s Hi Hr; simpl.
  { wp_steps. split_and!; try done. induction (due (last_ s) (queue s)) as [|n l IH]; [done|].
    rewrite filter_cons_True by set_solver. by rewrite <-IH. }
  assert (legal running (allocated s) [r] ∧ legal running (after1 (allocated s) r) reqs) as [H1 H2]
    by (destruct r; simpl in *; tauto).
  apply wp_bind. eapply wp_mono; [by apply request_spec|]. intros [] s1 (Hi1&Ha1&Hl1&Hq1&Hd1).
  eapply wp_mono; [apply IH; [done|by rewrite Ha1]|]. intros [] s2 (Hi2&Ha2&Hl2&Hq2&Hd2).
  rewrite Hl1 in Hl2, Hq2, Hd2. split_and!; [done|by rewrite Ha2, Ha1|done| |].
  - intros n. rewrite Hq2. rewrite (settled_iff _ _ _ _ _ (Hq1 n)). symmetry. apply (settled_app _ [r] reqs).
  - rewrite Hd2, Hd1, list_filter_filter. apply list_filter_iff. intros n. unfold targets.
    cbn [fmap list_fmap list_to_set]. rewrite not_elem_of_union, not_elem_of_singleton. tauto.
Qed.

(** *** The pass *)

Section process_spec.
Context {W : Type} (callback : TimeoutID → W → list Request * W) (I : W → gset TimeoutID → Prop).

(** The application knows which timeouts exist: in a state [w] that fits the timeouts [A], the
    callback of one of them makes legal requests and leaves a state that fits what they leave. *)
Definition callback_ok : Prop :=
  ∀ t w A, t ∈ A → I w A →
    legal t A (callback t w).1 ∧ I (callback t w).2 (after A (callback t w).1).

(** What a pass is to do: the callbacks of the timeouts [ts], except those that a callback before has
    scheduled anew, freed or allocated, each with the requests it makes. *)
Fixpoint due_pass (ts : list TimeoutID) (touched : gset TimeoutID) (w : W) : list (TimeoutID * list Request) * W :=
  match ts with
  | [] => ([], w)
  | t :: ts =>
    if decide (t ∈ touched) then due_pass ts touched w
    else
      let '(reqs, w) := callback t w in
      let '(trace, w) := due_pass ts (touched ∪ targets reqs) w in
      ((t, reqs) :: trace, w)
  end.

Lemma due_pass_filter X ts touched w :
  due_pass (filter (λ t, t ∉ X) ts) touched w = due_pass ts (X ∪ touched) w.
Proof.
  revert touched w. induction ts as [|t ts IH]; intros touched w; [done|]. rewrite filter_cons. simpl.
  destruct (decide (t ∉ X)) as [Ht|Ht]; simpl.
  - destruct (decide (t ∈ touched)) as [Hd|Hd]; [rewrite decide_True by set_solver; apply IH|].
    rewrite decide_False by set_solver. destruct (callback t w) as [reqs w1]. rewrite IH.
    by rewrite (assoc_L (∪)).
  - rewrite decide_True; [apply IH|]. apply elem_of_union_l. destruct (decide (t ∈ X)); [done|contradiction].
Qed.

Lemma due_pass_sublist ts touched w : (fst <$> (due_pass ts touched w).1) `sublist_of` ts.
Proof.
  revert touched w. induction ts as [|t ts IH]; intros touched w; [done|]. simpl. case_decide.
  - apply sublist_cons, IH.
  - destruct (callback t w) as [reqs w1]. specialize (IH (touched ∪ targets reqs) w1).
    destruct (due_pass _ _ _) as [trace w2]. simpl in *. by constructor.
Qed.

(** The front of a sorted queue is due if any node is. *)
Lemma due_front now n l :
  StronglySorted (λ x y, when_ x ≤ when_ y) (n :: l) → now ≤ when_ n → due now (n :: l) = [].
Proof.
  intros [_ Hl]%StronglySorted_inv Hn. unfold due. rewrite filter_cons_False by lia.
  induction Hl as [|x l Hx Hl IH]; [done|]. by rewrite filter_cons_False by lia.
Qed.

Lemma parent_filter (X : gset TimeoutID) (l : list Node) :
  parent <$> filter (λ n, parent n ∉ X) l = filter (λ t : TimeoutID, t ∉ X) (parent <$> l).
Proof.
  induction l as [|n l IH]; [done|]. cbn [fmap list_fmap]. rewrite !filter_cons.
  case_decide; [|done]. cbn [fmap list_fmap]. by rewrite <-IH.
Qed.

(** A pass from a state, in terms of the state. *)
Definition pass_result (now : Timepoint) (w : W) (s : Scheduler) (r : list TimeoutID * W) (s' : Scheduler) : Prop :=
  let '(trace, w') := due_pass (parent <$> due now (queue s)) ∅ w in
  let reqs := concat (snd <$> trace) in
  r = (fst <$> trace, w') ∧ allocated s' = after (allocated s) reqs ∧ I w' (allocated s') ∧
  ∀ n, n ∈ queue s' ↔ settled now reqs (n ∈ queue s ∧ now ≤ when_ n) n.

Lemma pass_result_none now w s : I w (allocated s) → due now (queue s) = [] → pass_result now w s ([], w) s.
Proof.
  intros HI Hd. unfold pass_result. rewrite Hd. simpl. split_and!; [done|done|done|]. intros n. unfold settled. simpl.
  split; [|tauto]. intros Hn. split; [done|]. apply Z.nlt_ge. intros Hlt. apply (not_elem_of_nil n). rewrite <-Hd.
  by apply list_elem_of_filter.
Qed.

(** One callback and then the rest of the pass. *)
Lemma pass_result_cons now w s front rest reqs w1 s2 ran w3 s3 :
  sched_inv s → queue s = front :: rest → when_ front < now → callback (parent front) w = (reqs, w1) →
  allocated s2 = after (allocated s) reqs →
  (∀ n, n ∈ queue s2 ↔ settled now reqs (n ∈ queue (extract (parent front) s)) n) →
  due now (queue s2) = filter (λ n, parent n ∉ targets reqs) (due now rest) →
  pass_result now w1 s2 (ran, w3) s3 → pass_result now w s (parent front :: ran, w3) s3.
Proof.
  intros Hi Eq Hw Ec Ha Hq Hd. unfold pass_result. rewrite Hd, parent_filter, due_pass_filter, (right_id_L ∅ (∪)).
  assert (due now (queue s) = front :: due now rest) as -> by (rewrite Eq; unfold due; by rewrite filter_cons_True).
  cbn [fmap list_fmap due_pass]. rewrite decide_False by set_solver. rewrite Ec, (left_id_L ∅ (∪)).
  destruct (due_pass (parent <$> due now rest) (targets reqs) w1) as [trace w'].
  intros ([= -> ->]&Ha3&HI3&Hq3). cbn [fmap list_fmap concat fst snd]. split_and!; [done| |done|].
  { unfold after in *. by rewrite foldl_app, Ha3, Ha. }
  intros n. rewrite Hq3, settled_app. apply settled_iff. rewrite Hq. unfold settled.
  destruct (last_request (parent n) reqs) as [[t then_|t|t]|]; [|tauto|tauto|].
  - split; [tauto|]. intros E. destruct (fire_time_spec now then_) as [? _]. split; [done|lia].
  - simpl. rewrite list_elem_of_filter. split; [tauto|]. intros [Hn Hl]. split_and!; [|done|done]. intros Ep.
    assert (n = front) as ->; [|lia]. pose proof (si_nodup _ Hi) as Hnd. rewrite Eq in Hnd, Hn.
    cbn [fmap list_fmap] in Hnd. apply NoDup_cons in Hnd as [Hnd _].
    apply elem_of_cons in Hn as [->|Hn]; [done|]. destruct Hnd. apply elem_of_parents. eauto.
Qed.

Context (Hcb : callback_ok).

Lemma process_loop_spec fuel now w s :
  sched_inv s → last_ s = now → I w (allocated s) → (length (due now (queue s)) < fuel)%nat →
  wp (process_loop callback fuel now w) (λ r s',
    sched_inv s' ∧ last_ s' = now ∧ due now (queue s') = [] ∧ pass_result now w s r s') s.
Proof.
  revert w s. induction fuel as [|fuel IH]; intros w s Hi Hl HI Hf; [lia|].
  cbn [process_loop]. wp_steps. pose proof (si_sorted _ Hi) as Hs.
  destruct (queue s) as [|front rest] eqn:Eq.
  { wp_steps. split_and!; [done|done|by rewrite Eq|]. apply pass_result_none; [done|by rewrite Eq]. }
  destruct (Z.leb_spec now (when_ front)) as [Hw|Hw].
  { wp_steps. assert (due now (queue s) = []) as Hd by (rewrite Eq; by apply due_front).
    split_and!; [done..|]. by apply pass_result_none. }
  wp_steps. unfold run_callback. destruct (callback (parent front) w) as [reqs w1] eqn:Ec.
  pose proof (extract_inv (parent front) s Hi) as Hi1. set (s1 := extract (parent front) s) in *.
  assert (parent front ∈ parent <$> queue s) as Hin by (rewrite Eq; apply elem_of_cons; by left).
  assert (allocated s1 = allocated s) as Ha1 by (by apply extract_allocated).
  destruct (Hcb (parent front) w (allocated s)) as [Hlegal HI1];
    [unfold allocated; by apply elem_of_union_l, elem_of_list_to_set|done|]. rewrite Ec in Hlegal, HI1. simpl in Hlegal, HI1.
  assert (due now (queue s1) = due now rest) as Hdue1.
  { unfold s1. simpl. rewrite Eq, filter_cons_False by naive_solver. rewrite filter_absent; [done|].
    pose proof (si_nodup _ Hi) as Hn. rewrite Eq in Hn. by apply NoDup_cons in Hn as [? _]. }
  apply wp_bind. eapply wp_mono; [apply (requests_spec (parent front)); [done|by rewrite Ha1]|].
  intros [] s2 (Hi2&Ha2&Hl2&Hq2&Hd2). change (last_ s1) with (last_ s) in Hl2, Hq2, Hd2.
  rewrite Hl in Hl2, Hq2, Hd2. rewrite Ha1 in Ha2. rewrite Hdue1 in Hd2. apply wp_ret.
  apply wp_bind. eapply wp_mono; [apply (IH w1); [done|done|by rewrite Ha2|]|].
  { rewrite Hd2. unfold due in Hf |- *. rewrite filter_cons_True in Hf by done. cbn [length] in Hf.
    eapply Nat.le_lt_trans; [apply length_filter|]. lia. }
  intros [ran w3] s3 (Hi3&Hl3&Hd3&Hr). apply wp_ret. split_and!; [done..|].
  by eapply (pass_result_cons now w s front rest reqs w1 s2).
Qed.

Lemma process_spec now w s :
  sched_inv s → I w (allocated s) → Timepoint_min < now →
  wp (process callback now w) (λ r s',
    sched_inv s' ∧ (∀ n, n ∈ queue s' → now ≤ when_ n) ∧ pass_result now w s r s' ∧ armed s') s.
Proof.
  intros Hi HI Hnow. unfold process, process_. wp_steps.
  eapply wp_mono; [apply process_loop_spec; [by destruct Hi|done|done|simpl; apply Nat.lt_succ_r, length_filter]|].
  intros [ran w'] s' (Hi'&Hl&Hd&Hran). wp_steps.
  assert (∀ n, n ∈ queue s' → now ≤ when_ n) as Hlate.
  { intros n Hn. apply Z.nlt_ge. intros Hlt. apply (not_elem_of_nil n). rewrite <-Hd.
    by apply list_elem_of_filter. }
  apply wp_when; intros Hc; wp_steps.
  - destruct (queue s') as [|n l] eqn:Eq; [by rewrite Z.eqb_refl in Hc|].
    split_and!; simpl; [by destruct Hi'|by rewrite Eq|done|].
    intros m. simpl. rewrite Eq, last_snoc. intros [= <-]. eauto.
  - split_and!; [done..|]. intros m Hm. destruct (queue s') as [|n l]; [done|].
    apply negb_false_iff, Z.eqb_eq in Hc. pose proof (Hlate n ltac:(by left)). lia.
Qed.
End process_spec.

(** ** Claims *)

(** Scheduling. For an allocated timeout, wherever its node is, [schedule] is defined, keeps
    the queue ordered with one node per timeout, and puts the timeout's node strictly after both
    the requested time and the last pass, by at most ten milliseconds; all other nodes stay where
    they are; and if the native timer was armed for the earliest node before, it is afterwards,
    although it is only updated when the front of the queue changes. *)
Theorem schedule_correct (s : Scheduler) (t : TimeoutID) (then_ : Timepoint) :
  sched_inv s → t ∈ allocated s → armed s →
  ∃ s' w, schedule t then_ s = Some (tt, s') ∧ sched_inv s' ∧ armed s' ∧
    allocated s' = allocated s ∧
    Z.max (last_ s) then_ < w ≤ Z.max (last_ s) then_ + 10 * 1000000 ∧
    queue s' ≡ₚ mkNode w t :: filter (λ n, parent n ≠ t) (queue s).
Proof.
  intros Hi Ht Ha. pose proof (schedule_spec t then_ s Hi Ht) as H.
  apply wp_some in H as ([]&s'&E&Hi'&Ha'&Hl&Hq&Harm).
  exists s', (fire_time (last_ s) then_).
  destruct (fire_time_spec (last_ s) then_) as (?&?&?&_).
  split_and!; [done|done|by apply Harm|done|lia|lia|]. rewrite Hq. apply insert_node_perm.
Qed.

Definition example_scheduler : Scheduler :=
  mkScheduler [mkNode 20000000 1; mkNode 40000000 2] 5000000 {[ 3%nat ]} [(20000000, false)].

Lemma example_scheduler_inv : sched_inv example_scheduler.
Proof.
  split; simpl.
  - repeat constructor; simpl; lia.
  - apply NoDup_cons; split; [|apply NoDup_singleton]. by rewrite list_elem_of_singleton.
  - intros t [->|[->|[]%not_elem_of_nil]%elem_of_cons]%elem_of_cons; set_solver.
Qed.

Lemma example_scheduler_armed : armed example_scheduler.
Proof. intros n [= <-]. by exists false. Qed.

Lemma schedule_correct_witness :
  ∃ s' w, schedule 2 3000000 example_scheduler = Some (tt, s') ∧ sched_inv s' ∧ armed s' ∧
    allocated s' = allocated example_scheduler ∧
    Z.max (last_ example_scheduler) 3000000 < w ≤ Z.max (last_ example_scheduler) 3000000 + 10 * 1000000 ∧
    queue s' ≡ₚ mkNode w 2 :: filter (λ n, parent n ≠ 2%nat) (queue example_scheduler).
Proof.
  apply schedule_correct.
  - apply example_scheduler_inv.
  - set_solver.
  - apply example_scheduler_armed.
Defined.

(** C33: a pass. The callbacks act on an application state and may schedule, allocate and free
    timeouts (not free the running one), their own timeout and others that are due included.
    [process] terminates, since anything scheduled during the pass is put after it, and it does
    exactly this: it runs the callback of each timeout that was due, in time order and once, except
    those that a callback before has rescheduled or freed; the application ends in the state these
    callbacks leave. The queue then holds, for each timeout a callback made a request about, what the
    last request asks (a node at its fire time after the pass, or none), and of the others the nodes
    that were not due; no queued timeout is due, the timeouts that exist are those the requests
    leave, the invariant holds, and the native timer is armed for the earliest node. *)
Theorem process_correct {W} (callback : TimeoutID → W → list Request * W) (I : W → gset TimeoutID → Prop)
    (now : Timepoint) (w : W) (s : Scheduler) :
  callback_ok callback I → sched_inv s → I w (allocated s) → Timepoint_min < now →
  let due := parent <$> filter (λ n, when_ n < now) (queue s) in
  let '(trace, w') := due_pass callback due ∅ w in
  let ran := fst <$> trace in
  let reqs := concat (snd <$> trace) in
  ∃ s', process callback now w s = Some ((ran, w'), s') ∧ sched_inv s' ∧ armed s' ∧
    NoDup ran ∧ ran `sublist_of` due ∧
    allocated s' = after (allocated s) reqs ∧ I w' (allocated s') ∧
    (∀ n, n ∈ queue s' → now ≤ when_ n) ∧
    (∀ n, n ∈ queue s' ↔
       match last_request (parent n) reqs with
       | None => n ∈ queue s ∧ now ≤ when_ n
       | Some (Schedule _ then_) => when_ n = fire_time now then_
       | Some _ => False
       end).
Proof.
  intros Hcb Hi HI Hnow due_. pose proof (process_spec callback I Hcb now w s Hi HI Hnow) as H.
  pose proof (due_pass_sublist callback due_ ∅ w) as Hsub.
  apply wp_some in H as (r&s'&E&Hi'&Hlate&Hr&Harm). unfold pass_result in Hr. change (parent <$> due now (queue s)) with due_ in Hr.
  destruct (due_pass callback due_ ∅ w) as [trace w']. destruct Hr as (->&Ha&HI'&Hq). simpl in Hsub.
  exists s'. split_and!; [done|done|done| |done|done|done|done|done].
  eapply sublist_NoDup; [exact (si_nodup _ Hi)|]. etrans; [exact Hsub|]. apply fmap_sublist, sublist_filter.
Qed.

(** An application that keeps the set of its timeouts: the callback of timeout 1 schedules itself
    for a time already past, frees timeout 2, and allocates and schedules timeout 4. *)
Definition example_callback (t : TimeoutID) (A : gset TimeoutID) : list Request * gset TimeoutID :=
  if decide (t = 1%nat ∧ 2%nat ∈ A ∧ 4%nat ∉ A)
  then ([Schedule 1 0; Free 2; Allocate 4; Schedule 4 60000000], {[4%nat]} ∪ A ∖ {[2%nat]})
  else ([], A).

Lemma example_callback_ok : callback_ok example_callback (λ w A, w = A).
Proof.
  intros t w A Ht ->. unfold example_callback. case_decide as Hd; [|done].
  destruct Hd as (->&H2&H4). split; [|done]. simpl. split_and!; set_solver.
Qed.

(** Both 1 and 2 are due; only 1 runs, and then 1 and 4 are queued. *)
Lemma process_correct_witness :
  ∃ s', process example_callback 50000000 (allocated example_scheduler) example_scheduler =
      Some (([1%nat], {[1; 3; 4]}%nat), s') ∧ sched_inv s' ∧ armed s' ∧
    mkNode 59000000 1 ∈ queue s' ∧ mkNode 70000000 4 ∈ queue s' ∧ ∀ w, mkNode w 2 ∉ queue s'.
Proof.
  pose proof (process_correct example_callback (λ w A, w = A) 50000000 (allocated example_scheduler) example_scheduler
    example_callback_ok example_scheduler_inv eq_refl ltac:(reflexivity)) as H.
  assert (due_pass example_callback (parent <$> filter (λ n, when_ n < 50000000) (queue example_scheduler)) ∅
    (allocated example_scheduler) =
    ([(1%nat, [Schedule 1 0; Free 2; Allocate 4; Schedule 4 60000000])], {[1; 3; 4]}%nat)) as Ep by (vm_compute; reflexivity).
  cbv zeta in H. rewrite Ep in H. destruct H as (s'&E&Hi&Ha&_&_&_&_&_&Hq). exists s'. split_and!; [exact E|exact Hi|exact Ha| | |].
  - apply (Hq (mkNode 59000000 1)). reflexivity.
  - apply (Hq (mkNode 70000000 4)). reflexivity.
  - intros w Hw. exact (proj1 (Hq (mkNode w 2)) Hw).
Defined.
