(* ===== verification/Timer.v ===== *)
(** * The native timer: [imp::SchedulerImp] and [Scheduler::open], [close], [process]

    One steady timer of the io service serves the whole queue of [Scheduler.v].
    [SchedulerImp::update] sets its expiry, which cancels the wait in progress, and starts a new
    wait; the handler of a wait that was not cancelled calls [Scheduler::process]. Of the timer
    itself only this is used: a wait that is not cancelled expires once the clock has reached its
    expiry, and its handler is then called, once; the handler of a cancelled wait gets an error
    and does nothing.

    [Scheduler::process] computes the next expiry with the queue locked and passes it to [update]
    after the lock is released. The two are separate steps here, and [owed] is the update between
    them: other threads may schedule meanwhile. *)

From S2P Require Import Prelude Scheduler.
From stdpp Require Import list.
#[local] Open Scope Z_scope.

Record TimerService := mkTimerService {
  sched : Scheduler;
  attached : bool;              (* SchedulerImp::scheduler and Scheduler::imp are set *)
  pending : option Timepoint;   (* the expiry of the wait that has not expired *)
  ready : nat;                  (* expired waits whose handlers have not run *)
  owed : option Timepoint;
}.

Definition TimerService_init : TimerService := mkTimerService Scheduler_init false None 0 None.

Abbreviation T := (M TimerService).

Definition set_sched (s : Scheduler) (ts : TimerService) : TimerService :=
  mkTimerService s (attached ts) (pending ts) (ready ts) (owed ts).

(** ** Operations *)

(** [timer.expires_at(next)] and [timer.async_wait]; the second argument is not used. *)
Definition SchedulerImp_update (next : Timepoint) (ts : TimerService) : TimerService :=
  mkTimerService (sched ts) (attached ts) (Some next) (ready ts) (owed ts).

Definition Scheduler_open : T unit :=
  modify (λ ts, mkTimerService (sched ts) true (pending ts) (ready ts) (owed ts)).
Definition Scheduler_close : T unit :=
  modify (λ ts, mkTimerService (sched ts) false (pending ts) (ready ts) (owed ts)).

(** Run an operation of the queue and make the updates it asks for; [Scheduler::schedule] does
    not check that there is an implementation to update. *)
Definition with_updates {A} (m : M Scheduler A) : T A := λ ts,
  match m (sched ts) with
  | Some (a, s') =>
    let new := drop (length (updates (sched ts))) (updates s') in
    if negb (attached ts) && negb (bool_decide (new = [])) then None
    else Some (a, foldl (λ ts u, SchedulerImp_update u.1 ts) (set_sched s' ts) new)
  | None => None
  end.

Section callbacks.
(** The callbacks act on an application state [W]; [I] says which states fit the timeouts that exist. *)
Context {W : Type} (callback : TimeoutID → W → list Request * W) (I : W → gset TimeoutID → Prop).

(** The handler of a wait without error: [Scheduler::process] as far as the unlock. *)
Definition wait_handler (now : Timepoint) (w : W) : T (list TimeoutID) :=
  ts ← mget;
  if attached ts then
    '(ran, _, next) ← with_updates (process_ callback now w);
    modify (λ ts, mkTimerService (sched ts) (attached ts) (pending ts) (ready ts)
                    (if next =? Timepoint_min then None else Some next));;
    mret ran
  else mret [].

(** The rest of [Scheduler::process]. *)
Definition process_update : T unit :=
  modify (λ ts, match owed ts with
                | Some next =>
                  let ts := mkTimerService (sched ts) (attached ts) (pending ts) (ready ts) None in
                  if attached ts then SchedulerImp_update next ts else ts
                | None => ts
                end).

(** ** Steps *)

Inductive Act :=
  | Allocates (t : TimeoutID) | Frees (t : TimeoutID)
  | Schedules (t : TimeoutID) (then_ : Timepoint)  (* any thread *)
  | Expires (now : Timepoint)                       (* the native timer *)
  | Handles (now : Timepoint) (w : W)               (* the service's thread takes a handler *)
  | Updates.                                        (* and finishes it *)

(** [None]: undefined, or not possible in this state. *)
Definition act (a : Act) : T unit :=
  match a with
  | Allocates t => with_updates (allocate t)
  | Frees t => with_updates (free t)
  | Schedules t then_ => with_updates (schedule t then_)
  | Expires now =>
    ts ← mget;
    match pending ts with
    | Some e => if e <=? now then modify (λ ts, mkTimerService (sched ts) (attached ts) None (S (ready ts)) (owed ts)) else ub
    | None => ub
    end
  | Handles now w =>
    ts ← mget;
    match ready ts, owed ts with
    | S k, None =>
      modify (λ ts, mkTimerService (sched ts) (attached ts) (pending ts) k (owed ts));;
      wait_handler now w;; mret tt
    | _, _ => ub
    end
  | Updates => process_update
  end.

(** Acts that make sense: timeouts that exist, a clock that has started, and an application whose
    state, whatever it became since the last pass, fits the timeouts that exist. *)
Definition act_ok (a : Act) (ts : TimerService) : Prop :=
  match a with
  | Schedules t _ => t ∈ allocated (sched ts)
  | Allocates t => t ∉ allocated (sched ts)
  | Handles now w => Timepoint_min < now ∧ I w (allocated (sched ts))
  | _ => True
  end.

(** No thread schedules between the two steps of [process]. *)
Definition undisturbed (a : Act) (ts : TimerService) : Prop :=
  match a with Schedules _ _ => owed ts = None | _ => True end.

(** The states an open scheduler can reach by acts that satisfy [P]. *)
Inductive timer_reachable (P : Act → TimerService → Prop) : TimerService → Prop :=
  | timer_init ts : Scheduler_open TimerService_init = Some (tt, ts) → timer_reachable P ts
  | timer_step ts a ts' : timer_reachable P ts → act_ok a ts → P a ts → act a ts = Some (tt, ts') →
      timer_reachable P ts'.

(** ** Every timeout is covered *)

(** The timer will run the scheduler no later than [w]. *)
Definition covered (ts : TimerService) (w : Timepoint) : Prop :=
  (0 < ready ts)%nat ∨ (∃ e, pending ts = Some e ∧ e ≤ w) ∨ (∃ e, owed ts = Some e ∧ e ≤ w).

Record timer_inv (ts : TimerService) : Prop := {
  ti_sched : sched_inv (sched ts);
  ti_attached : attached ts = true;
  ti_covered : ∀ n, head (queue (sched ts)) = Some n → covered ts (when_ n);
  ti_owed : ∀ n e, head (queue (sched ts)) = Some n → owed ts = Some e → e ≤ when_ n;
}.

(** What the updates of a queue operation do to the timer: only the last one counts. *)
Lemma foldl_update ts (us : list (Timepoint * bool)) :
  foldl (λ ts u, SchedulerImp_update u.1 ts) ts us =
  mkTimerService (sched ts) (attached ts) (match last us with Some u => Some u.1 | None => pending ts end)
    (ready ts) (owed ts).
Proof.
  induction us as [|u us IH] using rev_ind; [by destruct ts|].
  rewrite foldl_app, IH, last_snoc. done.
Qed.

Lemma with_updates_some {A} (m : M Scheduler A) ts a ts' :
  with_updates m ts = Some (a, ts') →
  ∃ s', m (sched ts) = Some (a, s') ∧
    ts' = mkTimerService s' (attached ts)
      (match last (drop (length (updates (sched ts))) (updates s')) with Some u => Some u.1 | None => pending ts end)
      (ready ts) (owed ts).
Proof.
  unfold with_updates. destruct (m (sched ts)) as [[a' s']|]; [|done].
  destruct (_ && _); [done|]. rewrite foldl_update. intros [= <- <-]. by exists s'.
Qed.

(** Scheduling updates the timer exactly if the front changes. *)
Lemma schedule_updates t then_ s s' :
  sched_inv s → t ∈ allocated s → schedule t then_ s = Some (tt, s') →
  sched_inv s' ∧
  ((updates s' = updates s ∧ head (queue s') = head (queue s)) ∨
   ∃ n, head (queue s') = Some n ∧ updates s' = updates s ++ [(when_ n, false)]).
Proof.
  intros Hi Ht. unfold schedule, mbind, M_bind. pose proof (schedule__spec t then_ s Hi Ht) as Hs.
  unfold wp in Hs. destruct (schedule_ t then_ s) as [[[changed next] s1]|]; [|done].
  destruct Hs as (Hi'&_&_&Hu&_&Hn&Hc). destruct changed; intros [= <-].
  - split; [by destruct Hi'|]. right. simpl. destruct (head (queue s1)) as [n|]; [|done].
    injection Hn as <-. exists n. by rewrite Hu.
  - split; [done|]. left. auto.
Qed.

Lemma process__spec now w s :
  callback_ok callback I → sched_inv s → I w (allocated s) → Timepoint_min < now →
  wp (process_ callback now w) (λ '(_, next) s', sched_inv s' ∧
    match queue s' with n :: _ => next = when_ n ∧ now ≤ when_ n | [] => next = Timepoint_min end) s.
Proof.
  intros Hcb Hi HI Hnow. unfold process_. wp_steps.
  eapply wp_mono; [apply (process_loop_spec callback I); [done|by destruct Hi|done|done|simpl; apply Nat.lt_succ_r, length_filter]|].
  intros [ran w'] s' (Hi'&_&Hd&_). wp_steps. split; [done|]. destruct (queue s') as [|n l] eqn:Eq; [done|].
  split; [done|]. apply Z.nlt_ge. intros Hlt. apply (not_elem_of_nil n). rewrite <-Hd. apply list_elem_of_filter.
  split; [done|by left].
Qed.

(** Freeing a timeout can only make the front later. *)
Lemma free_front t s n :
  sched_inv s → head (filter (λ n, parent n ≠ t) (queue s)) = Some n →
  ∃ m, head (queue s) = Some m ∧ when_ m ≤ when_ n.
Proof.
  intros [Hs _ _] Hn. destruct (queue s) as [|m l]; [done|]. exists m. split; [done|].
  apply StronglySorted_inv in Hs as [_ Hl]. rewrite filter_cons in Hn. case_decide; [by injection Hn as <-|].
  assert (n ∈ l) as Hin. { apply head_Some_elem_of, list_elem_of_filter in Hn. tauto. }
  by eapply Forall_forall in Hl.
Qed.

Lemma covered_mono ts w w' : w ≤ w' → covered ts w → covered ts w'.
Proof. intros Hw [?|[(e&?&?)|(e&?&?)]]; [by left|right; left|right; right]; exists e; split; (done || lia). Qed.

Context (Hcb : callback_ok callback I).

Lemma schedules_inv t then_ ts ts' :
  timer_inv ts → t ∈ allocated (sched ts) → owed ts = None →
  with_updates (schedule t then_) ts = Some (tt, ts') → timer_inv ts'.
Proof.
  intros [Hi Ha Hc _] Ht Ho (s'&E&->)%with_updates_some.
  destruct (schedule_updates _ _ _ _ Hi Ht E) as [Hi' [[Eu Eh]|(n&Eh&Eu)]].
  - rewrite Eu, drop_all. split; simpl; [done|done| |by rewrite Ho]. intros m. rewrite Eh. intros [?|[?|?]]%Hc; [by left|right; by left|right; by right].
  - rewrite Eu, drop_app_length. split; simpl; [done|done| |by rewrite Ho]. intros m. rewrite Eh. intros [= <-].
    right. left. by exists (when_ n).
Qed.

Lemma handles_inv now w ts ts' :
  timer_inv ts → Timepoint_min < now → I w (allocated (sched ts)) → act (Handles now w) ts = Some (tt, ts') → timer_inv ts'.
Proof.
  intros [Hi Ha _ _] Hnow HI. cbn [act]. unfold mbind, M_bind, mget. destruct (ready ts) as [|k], (owed ts); try done.
  unfold modify, wait_handler, mbind, M_bind, mget. cbn [attached]. rewrite Ha.
  set (ts1 := mkTimerService _ _ _ _ _). destruct (with_updates (process_ callback now w) ts1) as [[[[ran w'] next] ts2]|] eqn:E; [|done].
  apply with_updates_some in E as (s'&E&->). intros [= <-]. simpl.
  pose proof (process__spec now w (sched ts) Hcb Hi HI Hnow) as Hp. unfold wp in Hp. simpl in E. rewrite E in Hp.
  destruct Hp as [Hi' Hn]. split; simpl; [done|done| |]; intros n.
  - intros Hh. destruct (queue s') as [|m l]; [done|]. injection Hh as ->. destruct Hn as [-> Hle].
    right. right. simpl. exists (when_ n). by rewrite (proj2 (Z.eqb_neq _ _)) by lia.
  - intros e Hh. destruct (queue s') as [|m l]; [done|]. injection Hh as ->. destruct Hn as [-> Hle].
    destruct (_ =? _); [done|]. by intros [= <-].
Qed.

Lemma act_inv a ts ts' :
  timer_inv ts → act_ok a ts → undisturbed a ts → act a ts = Some (tt, ts') → timer_inv ts'.
Proof.
  intros Hts Hok Hu E. destruct a as [t|t|t then_|now|now w|]; [| |by eapply schedules_inv| |by destruct Hok; eapply handles_inv|];
    destruct Hts as [Hi Ha Hc Ho].
  - apply with_updates_some in E as (s'&[= <-]&->). simpl in *. rewrite drop_all. split; simpl; [|done|done|done].
    destruct Hi as [H1 H2 H3]. split; simpl; [done|done|]. intros u Hu' [->%elem_of_singleton|?]%elem_of_union; [|by eapply H3].
    apply Hok. unfold allocated. apply elem_of_union_l, elem_of_list_to_set. done.
  - apply with_updates_some in E as (s'&[= <-]&->). simpl. rewrite drop_all. split; simpl; [|done| |].
    + destruct (extract_inv t _ Hi) as [H1 H2 H3]. split; simpl in *; [done|done|]. intros u Hu'%H3. set_solver.
    + intros n (m&Hm&Hle)%free_front; [|done]. eapply covered_mono; [exact Hle|]. destruct (Hc m Hm) as [?|[?|?]]; [by left|right; by left|right; by right].
    + intros n e (m&Hm&Hle)%free_front He; [|done]. pose proof (Ho m e Hm He). lia.
  - cbn [act] in E. unfold mbind, M_bind, mget in E. destruct (pending ts) as [e|]; [|done].
    destruct (e <=? now); [|done]. injection E as <-. split; simpl; [done|done| |done]. intros n Hn. left. simpl. lia.
  - injection E as <-. destruct (owed ts) as [e|] eqn:Eo; [|by split; rewrite ?Eo]. simpl. rewrite Ha.
    split; simpl; [done|done| |done]. intros n Hn. right. left. exists e. split; [done|]. by apply Ho.
Qed.
End callbacks.

(** ** Claim *)

(** A run in which a thread schedules timeout 1 for the second second, while the service's thread
    is between the two steps of [process] with a timeout in a minute left in the queue. *)
Definition race : list (Act (W := unit)) :=
  [Allocates 0; Allocates 1; Allocates 2; Schedules 0 1000000000; Schedules 2 60000000000;
   Expires 1010000000; Handles 1050000000 tt; Schedules 1 2000000000; Updates].

Definition quiet_callback (_ : TimeoutID) (w : unit) : list Request * unit := ([], w).
Definition any_timeouts (_ : unit) (_ : gset TimeoutID) : Prop := True.

Lemma quiet_callback_ok : callback_ok quiet_callback any_timeouts.
Proof. done. Qed.

#[export] Instance act_ok_dec a ts : Decision (act_ok any_timeouts a ts).
Proof. destruct a; simpl; unfold any_timeouts; apply _. Defined.

#[export] Instance undisturbed_dec (a : Act (W := unit)) ts : Decision (undisturbed a ts).
Proof. destruct a; simpl; apply _. Defined.

(** Run acts, if they are possible, sensible and satisfy [P]. *)
Section runs.
Context (P : Act (W := unit) → TimerService → Prop) `{!∀ a ts, Decision (P a ts)}.
Fixpoint act_all (l : list (Act (W := unit))) (ts : TimerService) : option TimerService :=
  match l with
  | [] => Some ts
  | a :: l =>
    if bool_decide (act_ok any_timeouts a ts ∧ P a ts)
    then match act quiet_callback a ts with Some (_, ts') => act_all l ts' | None => None end
    else None
  end.

Lemma act_all_reachable l ts ts' :
  timer_reachable quiet_callback any_timeouts P ts → act_all l ts = Some ts' →
  timer_reachable quiet_callback any_timeouts P ts'.
Proof.
  revert ts. induction l as [|a l IH]; intros ts Hr; simpl; [by intros [= <-]|].
  case_bool_decide as Hok; [|done]. destruct Hok, (act quiet_callback a ts) as [[[] ts1]|] eqn:E; [|done].
  apply IH. by eapply timer_step.
Qed.
End runs.

Definition opened : TimerService := mkTimerService Scheduler_init true None 0 None.

(** What matters of a state: the front of the queue, and the timer. *)
Definition front_and_timer (ts : TimerService) := (head (queue (sched ts)), ready ts, pending ts, owed ts).

Lemma race_end :
  front_and_timer <$> act_all (λ _ _, True) race opened = Some (Some (mkNode 2010000000 1), 0%nat, Some 60010000000, None).
Proof. vm_compute. reflexivity. Qed.

(** C34: no timeout is missed by the native timer. However timeouts are allocated, freed and
    scheduled, by callbacks and by other threads, and whenever waits expire and their handlers
    run, every timeout in the queue is covered: a handler is about to run, or the wait in
    progress expires no later than the timeout, or the update that [process] is about to make
    does, although only changes of the front of the queue update the timer and every update
    cancels the wait before. This needs that no thread schedules between the two steps of
    [Scheduler::process], which the code does not ensure: it makes the update after it has
    released the lock. There is a run in which that happens and that ends with nothing running,
    nothing owed, and the timer armed for later than the earliest timeout. *)
Theorem timers_covered {W} (callback : TimeoutID → W → list Request * W) (I : W → gset TimeoutID → Prop)
    (ts : TimerService) :
  callback_ok callback I →
  (timer_reachable callback I undisturbed ts → ∀ n, n ∈ queue (sched ts) → covered ts (when_ n)) ∧
  ∃ late n, timer_reachable quiet_callback any_timeouts (λ _ _, True) late ∧ n ∈ queue (sched late) ∧ ¬ covered late (when_ n).
Proof.
  intros Hcb. split.
  - intros Hr. assert (timer_inv ts) as [Hi _ Hc _].
    { clear -Hr Hcb. induction Hr as [ts [= <-]|ts a ts' _ IH Hok Hu E]; [|by eapply act_inv].
      split; [split; simpl; [constructor|constructor|by intros t ?%not_elem_of_nil]|done|done|done]. }
    intros n Hn. destruct (queue (sched ts)) as [|m l] eqn:Eq; [by apply not_elem_of_nil in Hn|].
    apply (covered_mono ts (when_ m)); [|by apply Hc]. pose proof (si_sorted _ Hi) as Hs. rewrite Eq in Hs.
    apply StronglySorted_inv in Hs as [_ Hl]. apply elem_of_cons in Hn as [->|Hn]; [done|]. by eapply Forall_forall in Hl.
  - pose proof race_end as Hr. destruct (act_all (λ _ _, True) race opened) as [late|] eqn:E; [|done].
    injection Hr as Hh Hrd Hrp Hro.
    exists late, (mkNode 2010000000 1). split_and!.
    + eapply act_all_reachable; [|exact E]. by apply timer_init.
    + by apply head_Some_elem_of.
    + intros [?|[(e&?&?)|(e&?&?)]]; [lia| |congruence]. simplify_eq/=. lia.
Qed.

(** A timeout scheduled for the first second: the timer is armed. *)
Definition scheduled_once : option TimerService := act_all undisturbed [Allocates 0; Schedules 0 1000000000] opened.

Lemma scheduled_once_queue : (λ ts, queue (sched ts)) <$> scheduled_once = Some [mkNode 1010000000 0].
Proof. vm_compute. reflexivity. Qed.

Lemma timers_covered_witness : ∃ ts, scheduled_once = Some ts ∧ covered ts 1010000000.
Proof.
  pose proof scheduled_once_queue as Hq. destruct scheduled_once as [ts|] eqn:E; [|done]. exists ts. split; [done|].
  injection Hq as Hq. refine (proj1 (timers_covered quiet_callback any_timeouts ts quiet_callback_ok) _ (mkNode 1010000000 0) _).
  - eapply act_all_reachable; [|exact E]. by apply timer_init.
  - rewrite Hq. left.
Defined.
