(* ===== verification/State.v ===== *)
(** * The state of a connection

    The structures [Connection], [Sender], [Receiver], [Probe], [Handshake], [Retrier] and
    [ConnectionStatistics] refer to each other through back pointers, so one record holds them
    all and every handler of the connection is a computation on it. The packets of the retrier
    are shared with the sends that first transmitted them; the only field written through the
    sharing is [header.connection], which every transmission overwrites first, so packets are
    values here. The code modelled is the one built without [MRUDP_ENABLE_CRYPTO].

    What a handler does to the outside is appended to [events]: datagrams handed to the socket,
    timers scheduled, data and close notifications handed to the user, the request to be erased.
    User callbacks are not run inside the handlers: calls they make into the library are
    further handlers run after the one that made the event. [clock] is what the service's clock
    shows during a handler, in nanoseconds. *)

From S2P Require Import Prelude Packet ReceiveQueue Types SendQueue Float32 Rtt.

(** ** Retrier *)
Record PacketPath := mkPacketPath { pp_packet : Packet; pp_address : option Address }.
Abbreviation MultiPacketPath := (list PacketPath).

Record Retry := mkRetry {
  paths : MultiPacketPath;
  sentAt : Z;
  retryAt : Z;
  attempts : Z;       (* size_t *)
  priority_ : bool;
}.

Record Retrier := mkRetrier {
  rt_status : Status;
  window : gmap Z Retry;  (* OrderedMap<PacketID, StrongPtr<Retry>> *)
  priority : gset Z;      (* Set<PacketID> *)
}.

(** ** Sender *)
Inductive OpenStatus := UNINITIALIZED | OPENED | SHUT.
#[export] Instance OpenStatus_eq_dec : EqDecision OpenStatus.
Proof. solve_decision. Defined.

Record Schedule := mkSchedule { sc_when : option Z; running : bool }.
Record DelayedAck := mkDelayedAck { da_packetID : Z; da_when : Z }.

Record Sender := mkSender {
  s_status : OpenStatus;
  packetIDGenerator : Z;
  rtt : float;
  windowSize : Z;
  retrier : Retrier;
  dataQueue : SendQueue;
  unreliableDataQueue : SendQueue;
  schedule_unreliable : Schedule;   (* schedules[0] *)
  schedule_reliable : Schedule;     (* schedules[1] *)
  delayedAcks : list DelayedAck;    (* delayedAcks[0]; delayedAcks[1] is empty between calls *)
  lastDelayedAcksSend : Z;
}.

(** ** Receiver *)
Record Receiver := mkReceiver {
  r_status : OpenStatus;
  receiveQueue : ReceiveQueue;
  receiveBuffer : bytes;            (* compressionBuffers[0] *)
}.

(** ** Probe and handshake *)
Record Probe := mkProbe {
  p_status : Status;
  nextProbeTime : Z;
  probeInterval : Z;                (* milliseconds *)
  isRegistered : bool;
}.

Record Handshake := mkHandshake {
  waitingFor : Z;                   (* TypeID *)
  firstNonHandshakePacketID : Z;    (* u16 *)
}.

(** ** Statistics *)
Record send_receive := mkSendReceive { sent : Z; received : Z }.  (* uint32_t *)
Record data_statistics := mkDataStatistics {
  st_packets : send_receive; st_frames : send_receive; st_bytes : send_receive }.
Record Statistics := mkStatistics {
  packets_received : Z;
  packets_sent : Z;
  reliable : data_statistics;
  unreliable : data_statistics;
  acks_sent : Z;
  packets_resent : Z;
}.

(** ** Events *)
Inductive Timer := RetryTimer | ProbeTimer | FinishTimer | QueueTimer (r : Reliability).
Inductive Event :=
  | Sent (p : Packet) (to : option Address)   (* socket->send *)
  | Scheduled (t : Timer) (at_ : Z)           (* timeout.schedule *)
  | Received (data : bytes) (r : Reliability) (* receiveHandler *)
  | UserClosed (e : mrudp_event_t)            (* closeHandler *)
  | Erased                                    (* socket->erase *)
  | AddressChanged (a : Address).             (* imp->onRemoteAddressChanged *)

(** ** Connection *)
Record Connection := mkConnection {
  id : LongConnectionID;
  remoteID : Z;                     (* u16 *)
  localID : Z;                      (* u16 *)
  remoteAddress : Address;
  options : ConnectionOptions;
  handshake : Handshake;
  sender : Sender;
  receiver : Receiver;
  probe : Probe;
  statistics : Statistics;
  receiveHandler : bool;            (* whether a handler is set *)
  closeHandler : bool;
  closeReason : mrudp_event_t;
  closed : bool;
  userDataDisposed : bool;
  events : list Event;
  clock : Z;
}.

Abbreviation C := (M Connection).

(** ** Initial states: the member initialisers and constructors *)
Definition Retrier_init : Retrier := mkRetrier OPEN ∅ ∅.
Definition Sender_init : Sender :=
  mkSender UNINITIALIZED IDGenerator_init RTT_init WindowSize_init Retrier_init
    SendQueue_init SendQueue_init (mkSchedule None false) (mkSchedule None false) [] 0.
Definition Receiver_init : Receiver := mkReceiver UNINITIALIZED ReceiveQueue_init [].
Definition Probe_init : Probe := mkProbe OPEN 0 0 false.
Definition Handshake_init : Handshake := mkHandshake H0 0.
Definition Statistics_init : Statistics :=
  let z := mkSendReceive 0 0 in let d := mkDataStatistics z z z in mkStatistics 0 0 d d 0 0.

(** [Connection::Connection]; the options are the service's. *)
Definition Connection_init (id : LongConnectionID) (remoteAddress : Address) (localID : Z)
    (service_options : ConnectionOptions) (now : Z) : Connection :=
  mkConnection id 0 localID remoteAddress service_options Handshake_init Sender_init Receiver_init
    Probe_init Statistics_init false false MRUDP_EVENT_CLOSED false true [] now.

(** ** Assignments *)
Section setters.
Implicit Types (c : Connection) (s : Sender).

Definition set_retrier (r : Retrier) s : Sender :=
  mkSender (s_status s) (packetIDGenerator s) (rtt s) (windowSize s) r (dataQueue s)
    (unreliableDataQueue s) (schedule_unreliable s) (schedule_reliable s) (delayedAcks s)
    (lastDelayedAcksSend s).
Definition set_s_status (st : OpenStatus) s : Sender :=
  mkSender st (packetIDGenerator s) (rtt s) (windowSize s) (retrier s) (dataQueue s)
    (unreliableDataQueue s) (schedule_unreliable s) (schedule_reliable s) (delayedAcks s)
    (lastDelayedAcksSend s).
Definition set_packetIDGenerator (g : Z) s : Sender :=
  mkSender (s_status s) g (rtt s) (windowSize s) (retrier s) (dataQueue s)
    (unreliableDataQueue s) (schedule_unreliable s) (schedule_reliable s) (delayedAcks s)
    (lastDelayedAcksSend s).
Definition set_rtt (r : float) s : Sender :=
  mkSender (s_status s) (packetIDGenerator s) r (windowSize s) (retrier s) (dataQueue s)
    (unreliableDataQueue s) (schedule_unreliable s) (schedule_reliable s) (delayedAcks s)
    (lastDelayedAcksSend s).
Definition set_windowSize (w : Z) s : Sender :=
  mkSender (s_status s) (packetIDGenerator s) (rtt s) w (retrier s) (dataQueue s)
    (unreliableDataQueue s) (schedule_unreliable s) (schedule_reliable s) (delayedAcks s)
    (lastDelayedAcksSend s).
Definition set_dataQueue (r : Reliability) (q : SendQueue) s : Sender :=
  mkSender (s_status s) (packetIDGenerator s) (rtt s) (windowSize s) (retrier s)
    (match r with RELIABLE => q | UNRELIABLE => dataQueue s end)
    (match r with RELIABLE => unreliableDataQueue s | UNRELIABLE => q end)
    (schedule_unreliable s) (schedule_reliable s) (delayedAcks s) (lastDelayedAcksSend s).
Definition set_schedule (r : Reliability) (sc : Schedule) s : Sender :=
  mkSender (s_status s) (packetIDGenerator s) (rtt s) (windowSize s) (retrier s) (dataQueue s)
    (unreliableDataQueue s)
    (match r with RELIABLE => schedule_unreliable s | UNRELIABLE => sc end)
    (match r with RELIABLE => sc | UNRELIABLE => schedule_reliable s end)
    (delayedAcks s) (lastDelayedAcksSend s).
Definition set_delayedAcks (l : list DelayedAck) (t : Z) s : Sender :=
  mkSender (s_status s) (packetIDGenerator s) (rtt s) (windowSize s) (retrier s) (dataQueue s)
    (unreliableDataQueue s) (schedule_unreliable s) (schedule_reliable s) l t.

Definition upd_sender (f : Sender → Sender) c : Connection :=
  mkConnection (id c) (remoteID c) (localID c) (remoteAddress c) (options c) (handshake c)
    (f (sender c)) (receiver c) (probe c) (statistics c) (receiveHandler c) (closeHandler c)
    (closeReason c) (closed c) (userDataDisposed c) (events c) (clock c).
Definition set_receiver (r : Receiver) c : Connection :=
  mkConnection (id c) (remoteID c) (localID c) (remoteAddress c) (options c) (handshake c)
    (sender c) r (probe c) (statistics c) (receiveHandler c) (closeHandler c)
    (closeReason c) (closed c) (userDataDisposed c) (events c) (clock c).
Definition set_probe (p : Probe) c : Connection :=
  mkConnection (id c) (remoteID c) (localID c) (remoteAddress c) (options c) (handshake c)
    (sender c) (receiver c) p (statistics c) (receiveHandler c) (closeHandler c)
    (closeReason c) (closed c) (userDataDisposed c) (events c) (clock c).
Definition set_handshake (h : Handshake) c : Connection :=
  mkConnection (id c) (remoteID c) (localID c) (remoteAddress c) (options c) h
    (sender c) (receiver c) (probe c) (statistics c) (receiveHandler c) (closeHandler c)
    (closeReason c) (closed c) (userDataDisposed c) (events c) (clock c).
Definition set_remoteID (i : Z) c : Connection :=
  mkConnection (id c) i (localID c) (remoteAddress c) (options c) (handshake c)
    (sender c) (receiver c) (probe c) (statistics c) (receiveHandler c) (closeHandler c)
    (closeReason c) (closed c) (userDataDisposed c) (events c) (clock c).
Definition set_remoteAddress (a : Address) c : Connection :=
  mkConnection (id c) (remoteID c) (localID c) a (options c) (handshake c)
    (sender c) (receiver c) (probe c) (statistics c) (receiveHandler c) (closeHandler c)
    (closeReason c) (closed c) (userDataDisposed c) (events c) (clock c).
Definition set_options (o : ConnectionOptions) c : Connection :=
  mkConnection (id c) (remoteID c) (localID c) (remoteAddress c) o (handshake c)
    (sender c) (receiver c) (probe c) (statistics c) (receiveHandler c) (closeHandler c)
    (closeReason c) (closed c) (userDataDisposed c) (events c) (clock c).
Definition set_statistics (s : Statistics) c : Connection :=
  mkConnection (id c) (remoteID c) (localID c) (remoteAddress c) (options c) (handshake c)
    (sender c) (receiver c) (probe c) s (receiveHandler c) (closeHandler c)
    (closeReason c) (closed c) (userDataDisposed c) (events c) (clock c).
(** The user's side: handlers and whether they are disposed. *)
Definition set_user (rh ch disposed : bool) c : Connection :=
  mkConnection (id c) (remoteID c) (localID c) (remoteAddress c) (options c) (handshake c)
    (sender c) (receiver c) (probe c) (statistics c) rh ch
    (closeReason c) (closed c) disposed (events c) (clock c).
Definition set_closed (reason : mrudp_event_t) (b : bool) c : Connection :=
  mkConnection (id c) (remoteID c) (localID c) (remoteAddress c) (options c) (handshake c)
    (sender c) (receiver c) (probe c) (statistics c) (receiveHandler c) (closeHandler c)
    reason b (userDataDisposed c) (events c) (clock c).
Definition add_event (e : Event) c : Connection :=
  mkConnection (id c) (remoteID c) (localID c) (remoteAddress c) (options c) (handshake c)
    (sender c) (receiver c) (probe c) (statistics c) (receiveHandler c) (closeHandler c)
    (closeReason c) (closed c) (userDataDisposed c) (events c ++ [e]) (clock c).
Definition set_clock (t : Z) c : Connection :=
  mkConnection (id c) (remoteID c) (localID c) (remoteAddress c) (options c) (handshake c)
    (sender c) (receiver c) (probe c) (statistics c) (receiveHandler c) (closeHandler c)
    (closeReason c) (closed c) (userDataDisposed c) (events c) t.
End setters.

Definition queue_of (r : Reliability) (s : Sender) : SendQueue :=
  match r with RELIABLE => dataQueue s | UNRELIABLE => unreliableDataQueue s end.
Definition schedule_of (r : Reliability) (s : Sender) : Schedule :=
  match r with RELIABLE => schedule_reliable s | UNRELIABLE => schedule_unreliable s end.
Definition coalesce_of (r : Reliability) (o : ConnectionOptions) : coalesce_options :=
  match r with RELIABLE => coalesce_reliable o | UNRELIABLE => coalesce_unreliable o end.

Definition emit (e : Event) : C unit := modify (add_event e).
Definition modify_sender (f : Sender → Sender) : C unit := modify (upd_sender f).
Definition modify_retrier (f : Retrier → Retrier) : C unit :=
  modify_sender (λ s, set_retrier (f (retrier s)) s).

(** Run an operation of a send queue. *)
Definition on_queue {A} (r : Reliability) (m : M SendQueue A) : C A := λ c,
  match m (queue_of r (sender c)) with
  | Some (a, q) => Some (a, upd_sender (set_dataQueue r q) c)
  | None => None
  end.
