(* ===== verification/Retrier.v ===== *)
(** * The retry window: [sender/Retrier], and [Statistics]

    Every reliable packet is kept in the window until it is acknowledged. One timer serves the
    whole window: it is set for the first packet of the window, or for the first of the priority
    packets if there are any. The handler of the timer, [onRetryTimeout], resends through the
    connection and is in [Connection.v]. *)

From S2P Require Import Prelude Packet Types SendQueue Float32 Rtt State.

(** ** Statistics; the counters are [uint32_t] *)
Definition incr (n : Z) : Z := u32 (n + 1).

Definition st_onReceive (p : Packet) (s : Statistics) : Statistics :=
  let bump d := mkDataStatistics (mkSendReceive (sent (st_packets d)) (incr (received (st_packets d))))
                  (st_frames d) (st_bytes d) in
  mkStatistics (incr (packets_received s)) (packets_sent s)
    (if h_type (p_header p) =? DATA_RELIABLE then bump (reliable s) else reliable s)
    (if h_type (p_header p) =? DATA_UNRELIABLE then bump (unreliable s) else unreliable s)
    (acks_sent s) (packets_resent s).

Definition st_onSend (p : Packet) (s : Statistics) : Statistics :=
  let bump d := mkDataStatistics (mkSendReceive (incr (sent (st_packets d))) (received (st_packets d)))
                  (st_frames d) (st_bytes d) in
  mkStatistics (packets_received s) (incr (packets_sent s))
    (if h_type (p_header p) =? DATA_RELIABLE then bump (reliable s) else reliable s)
    (if h_type (p_header p) =? DATA_UNRELIABLE then bump (unreliable s) else unreliable s)
    (acks_sent s) (packets_resent s).

Definition st_onReceiveDataFrame (size : Z) (r : Reliability) (s : Statistics) : Statistics :=
  let bump d := mkDataStatistics (st_packets d)
                  (mkSendReceive (sent (st_frames d)) (incr (received (st_frames d))))
                  (mkSendReceive (sent (st_bytes d)) (u32 (received (st_bytes d) + size))) in
  mkStatistics (packets_received s) (packets_sent s)
    (match r with RELIABLE => bump (reliable s) | UNRELIABLE => reliable s end)
    (match r with RELIABLE => unreliable s | UNRELIABLE => bump (unreliable s) end)
    (acks_sent s) (packets_resent s).

Definition st_onSendDataFrame (size : Z) (r : Reliability) (s : Statistics) : Statistics :=
  let bump d := mkDataStatistics (st_packets d)
                  (mkSendReceive (incr (sent (st_frames d))) (received (st_frames d)))
                  (mkSendReceive (u32 (sent (st_bytes d) + size)) (received (st_bytes d))) in
  mkStatistics (packets_received s) (packets_sent s)
    (match r with RELIABLE => bump (reliable s) | UNRELIABLE => reliable s end)
    (match r with RELIABLE => unreliable s | UNRELIABLE => bump (unreliable s) end)
    (acks_sent s) (packets_resent s).

Definition st_onResend (s : Statistics) : Statistics :=
  mkStatistics (packets_received s) (packets_sent s) (reliable s) (unreliable s)
    (acks_sent s) (incr (packets_resent s)).

Definition modify_statistics (f : Statistics → Statistics) : C unit :=
  modify (λ c, set_statistics (f (statistics c)) c).

(** ** Ordered containers: [begin()] of a [std::set] or of the keys of a [std::map] *)
Definition set_begin (s : gset Z) : option Z :=
  foldr (λ k acc, Some (match acc with Some m => Z.min k m | None => k end)) None (elements s).

(** ** Retrier *)
Definition rt_close : C unit :=
  modify_retrier (λ r, if decide (rt_status r = CLOSED) then r
                       else mkRetrier CLOSED ∅ (priority r)).

(** The id and the retry; the dereference of [window.end()] is undefined. *)
Definition getNextRetry : C (option (Z * Retry)) :=
  r ← gets (λ c, retrier (sender c));
  if bool_decide (window r = ∅) then mret None
  else
    match set_begin (priority r) with
    | Some i => match window r !! i with Some retry => mret (Some (i, retry)) | None => ub end
    | None =>
      match set_begin (dom (window r)) with
      | Some i => match window r !! i with Some retry => mret (Some (i, retry)) | None => ub end
      | None => ub
      end
    end.

(** Assign through the pointer to a retry of the window. *)
Definition set_retry (i : Z) (retry : Retry) : C unit :=
  modify_retrier (λ r, mkRetrier (rt_status r) (<[i := retry]> (window r)) (priority r)).

Definition recalculateRetryTimeout : C unit :=
  next ← getNextRetry;
  match next with
  | None => mret tt
  | Some (i, retry) =>
    r ← gets (λ c, rtt (sender c));
    interval ← lift (toDuration (calculateRetryDuration r));
    let retryAt' := sentAt retry + interval * 1000000 in
    set_retry i (mkRetry (paths retry) (sentAt retry) retryAt' (attempts retry) (priority_ retry));;
    emit (Scheduled RetryTimer retryAt')
  end.

(** [InsertResult::wasFirst] *)
Definition rt_insert (packetPaths : MultiPacketPath) (now : Z) (prio : bool) : C bool :=
  r ← gets (λ c, retrier (sender c));
  if decide (rt_status r = CLOSED) then mret false
  else
    let wasEmpty := bool_decide (window r = ∅) in
    match packetPaths with
    | [] => ub
    | front :: _ =>
      let i := h_id (p_header (pp_packet front)) in
      let retry := mkRetry packetPaths now 0 0 prio in
      modify_retrier (λ r, mkRetrier (rt_status r)
        (match window r !! i with Some _ => window r | None => <[i := retry]> (window r) end)
        (if prio then {[i]} ∪ priority r else priority r));;
      when (wasEmpty || prio) recalculateRetryTimeout;;
      mret wasEmpty
    end.

Record AckResult := mkAckResult { contained : bool; needsRetryTimeoutRecalculation : bool; ar_rtt : float }.

(** [duration_cast<duration<float>>] of a duration in nanoseconds *)
Definition seconds_of_ns (ns : Z) : float := fdiv (f32_of_Z ns) (f32_of_Z 1000000000).

Definition rt_ack (packetID : Z) (now : Z) (delayedMS : Z) : C AckResult :=
  r ← gets (λ c, retrier (sender c));
  match window r !! packetID with
  | None => mret (mkAckResult false false (f32_of_Z 0))
  | Some retry =>
    let wasFirst := bool_decide (set_begin (dom (window r)) = Some packetID) in
    let duration := now - sentAt retry - delayedMS * 1000000 in
    modify_retrier (λ r, mkRetrier (rt_status r) (delete packetID (window r))
      (if priority_ retry then priority r ∖ {[packetID]} else priority r));;
    mret (mkAckResult true (wasFirst || priority_ retry) (seconds_of_ns duration))
  end.

Definition numUnacked : C Z := gets (λ c, Z.of_nat (size (window (retrier (sender c))))).
Definition rt_empty (c : Connection) : bool := bool_decide (window (retrier (sender c)) = ∅).

(** ** Invariant *)

(** The priority set names exactly the priority retries of the window, unless closing emptied
    the window (which leaves the set as it was). *)
Definition retrier_inv (r : Retrier) : Prop :=
  (rt_status r = CLOSED ∧ window r = ∅) ∨
  (rt_status r = OPEN ∧ ∀ i, i ∈ priority r ↔ ∃ x, window r !! i = Some x ∧ priority_ x = true).

Lemma set_begin_spec s :
  match set_begin s with Some k => k ∈ s ∧ ∀ j, j ∈ s → k ≤ j | None => s = ∅ end.
Proof.
  assert (∀ l, match foldr (λ k acc, Some (match acc with Some m => Z.min k m | None => k end)) None l with
    | Some k => k ∈ l ∧ ∀ j, j ∈ l → k ≤ j | None => l = [] end) as Hl.
  { induction l as [|x l IH]; [done|]. simpl.
    destruct (foldr _ None l) as [m|]; [destruct IH as [Hin Hle]|subst l].
    - split; [destruct (Z.min_spec x m) as [[? ->]|[? ->]]; [by left|by right]|].
      intros j [->|Hj%Hle]%elem_of_cons; lia.
    - split; [by left|]. intros j ->%list_elem_of_singleton. done. }
  specialize (Hl (elements s)). unfold set_begin. destruct (foldr _ None (elements s)).
  - destruct Hl as [Hin Hle]. split; [by apply elem_of_elements|].
    intros j Hj. by apply Hle, elem_of_elements.
  - by apply elements_empty_iff, leibniz_equiv in Hl.
Qed.
