(* ===== verification/Transmit.v ===== *)
(** * Transmission: [connection/Probe] timing, [Handshake_Options], [Connection::send]

    The way of a packet from the sender to the socket, and the probe timer every transmission
    pushes back. The handler of the probe timer is in [Connection.v]. *)

From S2P Require Import Prelude MemCopy Packet Types SendQueue Float32 Rtt State Retrier.
From Stdlib Require Import Floats.SpecFloat.

(** ** Probe *)
Definition pr_close : C unit :=
  modify (λ c, let p := probe c in
    set_probe (mkProbe CLOSED (nextProbeTime p) (probeInterval p) (isRegistered p)) c).

(** The sum [recalculateProbeTimeout] forms over [n] more attempts. *)
Fixpoint probe_attempts (n : nat) (r timeout : float) : float :=
  match n with
  | O => timeout
  | S n => let r := calculate r maximum in probe_attempts n r (fadd timeout (calculateRetryDuration r))
  end.

(** [probe_delay_ms / 1000.0] is a [double]. *)
Definition probe_timeout (o : ConnectionOptions) : float :=
  let n := Z.to_nat ((maximum_retry_attempts o + 1) `quot` 2) in
  let timeout := probe_attempts n minimum (calculateRetryDuration minimum) in
  if 0 <? probe_delay_ms o then
    f32_of_f64 (SFadd 53 1024 timeout (SFdiv 53 1024 (f64_of_Z (probe_delay_ms o)) (f64_of_Z 1000)))
  else timeout.

Definition recalculateProbeTimeout : C unit :=
  o ← gets options;
  interval ← lift (toDuration (probe_timeout o));
  modify (λ c, let p := probe c in
    set_probe (mkProbe (p_status p) (nextProbeTime p) interval (isRegistered p)) c).

Definition registerTimeout (at_ : Z) : C unit :=
  p ← gets probe;
  let set := (at_ <? nextProbeTime p) || negb (isRegistered p) in
  modify (set_probe (mkProbe (p_status p) at_ (probeInterval p) (isRegistered p || set)));;
  when set (emit (Scheduled ProbeTimer at_)).

(** [Probe::on], which [onStart], [onReceive], [onSend] and [onProbe] call. *)
Definition pr_on (now : Z) : C unit :=
  recalculateProbeTimeout;;
  p ← gets probe;
  registerTimeout (now + probeInterval p * 1000000).

(** ** Handshake_Options *)

(** [HandshakeOptionsData]: a [uint32_t] and an [int16_t], packed. *)
Definition sizeof_HandshakeOptionsData : Z := 6.
Definition encode_HandshakeOptionsData (probe_delay_ms maximum_retry_attempts : Z) : bytes :=
  le_encode 4 probe_delay_ms ++ le_encode 2 maximum_retry_attempts.

Definition ho_onSend (o : ConnectionOptions) (p : Packet) : option (Packet * PacketDiscard) :=
  if h_type (p_header p) =? H3 then
    '(p', b) ← pushData_T p (encode_HandshakeOptionsData (u32 (Z.max (probe_delay_ms o) 0))
                               (maximum_retry_attempts o));
    Some (p', if (b : bool) then Keep else Discard)
  else Some (p, Keep).

(** The stored [uint32_t] is assigned to an [int32_t]. *)
Definition ho_onReceive (p : Packet) : C (Packet * PacketDiscard) :=
  if h_type (p_header p) =? H3 then
    match popData p sizeof_HandshakeOptionsData with
    | (p', None) => mret (p', Discard)
    | (p', Some d) =>
      modify (λ c, let o := options c in
        set_options (mkOptions (coalesce_reliable o) (coalesce_unreliable o)
          (int32 (le_decode (take 4 d))) (int16 (le_decode (drop 4 d)))) c);;
      mret (p', Keep)
    end
  else mret (p, Keep).

(** ** Connection::send *)

(** Without [MRUDP_ENABLE_CRYPTO]. *)
Definition canSend (c : Connection) : bool := 0 <? remoteID c.

Definition send_ (p : Packet) (address : option Address) : C unit :=
  r ← gets remoteID;
  let p := set_connection p r in
  (if h_connection (p_header p) =? 0 then
     i ← gets id;
     '(p', _) ← lift (pushData_T p i);
     emit (Sent p' address)
   else emit (Sent p address));;
  now ← gets clock;
  pr_on now.

Definition send (p : Packet) (address : option Address) : C unit :=
  modify_statistics (st_onSend p);;
  o ← gets options;
  '(p', d) ← lift (ho_onSend o p);
  if decide (d = Discard) then mret tt else send_ p' address.

Definition resend (p : Packet) (address : option Address) : C unit :=
  send_ p address;;
  modify_statistics st_onResend.

(** ** The probe interval *)

Lemma rtt_ok_le r : rtt_ok r → fle 2 r.
Proof.
  intros (m&e&->&He&Hm)%rtt_ok_finite. split_and!; [done|lia|].
  change 2 with (2 ^ 1) at 1. rewrite <-Z.pow_add_r by lia.
  pose proof (Z.pow_le_mono_r 2 24 (1 + - e) ltac:(lia) ltac:(lia)). lia.
Qed.

Lemma calculateRetryDuration_le r : rtt_ok r → fle 7 (calculateRetryDuration r).
Proof.
  intros Hr%rtt_ok_le. unfold calculateRetryDuration, fadd.
  apply (SFadd_le 24 128 ltac:(lia) ltac:(lia) _ _ 5 1); [lia|lia|lia| |by fconst].
  apply (SFmul_le 24 128 ltac:(lia) ltac:(lia) _ _ 2 2); [lia|lia|lia|by fconst|done].
Qed.

Lemma calculateRetryDuration_mantissa r : mantissa_ok 24 (calculateRetryDuration r).
Proof.
  apply (SFadd_mantissa 24 128); [lia|lia|apply (SFmul_mantissa 24 128); lia|]. by vm_compute.
Qed.

Lemma probe_attempts_le n r timeout A :
  0 ≤ A → A + 8 * Z.of_nat n < 2 ^ 24 → fle A timeout → mantissa_ok 24 timeout →
  fle (A + 8 * Z.of_nat n) (probe_attempts n r timeout) ∧ mantissa_ok 24 (probe_attempts n r timeout).
Proof.
  revert r timeout A. induction n as [|n IH]; intros r timeout A HA Hn Hle Hm; cbn [probe_attempts].
  { split; [|done]. eapply fle_mono; [|done]. lia. }
  set (t := fadd _ _).
  assert (fle (A + 8) t) as Ht.
  { replace (A + 8) with (A + 7 + 1) by lia.
    apply (SFadd_le 24 128 ltac:(lia) ltac:(lia) _ _ A 7); [lia|lia|lia|done|].
    apply calculateRetryDuration_le, calculate_ok. }
  destruct (IH (calculate r maximum) t (A + 8)) as [H1 H2]; [lia|lia|done| |].
  { apply (SFadd_mantissa 24 128); [lia|lia|done|apply calculateRetryDuration_mantissa]. }
  split; [|done]. by replace (A + 8 * Z.of_nat (S n)) with (A + 8 + 8 * Z.of_nat n) by lia.
Qed.

Lemma f64_of_Z_le z : 0 ≤ z < 2 ^ 31 → fle (z + 1) (f64_of_Z z).
Proof.
  intros Hz. destruct z as [|p|p]; [done| |lia].
  apply (binary_round_le 53 1024 ltac:(lia) ltac:(lia)); lia.
Qed.

Lemma f32_of_f64_le x A :
  0 ≤ A → A + 1 < 2 ^ 24 → fle A x → fle (A + 1) (f32_of_f64 x) ∧ mantissa_ok 24 (f32_of_f64 x).
Proof.
  intros HA HA' Hx. destruct x as [| | |s m e]; try done. destruct Hx as (->&He&Hm).
  simpl. split; [by apply (binary_round_le 24 128 ltac:(lia) ltac:(lia))|].
  unfold binary_round. destruct (shl_align _ _ _). by apply (binary_round_aux_mantissa 24 128 ltac:(lia) ltac:(lia)).
Qed.

Lemma f64_1000 : f64_of_Z 1000 = S754_finite false (1000 * 2 ^ 43)%positive (-43).
Proof. by vm_compute. Qed.

Lemma probe_timeout_le o :
  options_ok o → fle 1031082 (probe_timeout o) ∧ mantissa_ok 24 (probe_timeout o).
Proof.
  intros [Hd Hr]. unfold probe_timeout.
  assert ((maximum_retry_attempts o + 1) `quot` 2 ≤ 16384) by (apply Z.quot_le_upper_bound; lia).
  destruct (probe_attempts_le (Z.to_nat ((maximum_retry_attempts o + 1) `quot` 2)) minimum
    (calculateRetryDuration minimum) 7) as [H1 H2]; [lia|lia| |apply calculateRetryDuration_mantissa|].
  { apply calculateRetryDuration_le, minimum_ok. }
  set (t := probe_attempts _ _ _) in *.
  apply (fle_mono _ 131079) in H1; [|lia].
  destruct (Z.ltb_spec 0 (probe_delay_ms o)); [|split; [by eapply fle_mono; [|done]|done]].
  assert (fle 900001 (SFdiv 53 1024 (f64_of_Z (probe_delay_ms o)) (f64_of_Z 1000))) as Hq.
  { rewrite f64_1000.
    apply (SFdiv_le 53 1024 ltac:(lia) ltac:(lia) _ _ _ 900000000 1000 900000); [lia..| |lia|done].
    eapply fle_mono; [|by apply f64_of_Z_le; lia]. lia. }
  apply (f32_of_f64_le _ 1031081); [lia|lia|].
  apply (SFadd_le 53 1024 ltac:(lia) ltac:(lia) _ _ 131079 900001); [lia|lia|lia|done|done].
Qed.

Lemma toDuration_probe o :
  options_ok o → ∃ d, toDuration (probe_timeout o) = Some d ∧ 0 ≤ d < 2 ^ 31.
Proof.
  intros [Hle Hm]%probe_timeout_le. pose proof (fle_bounded 24 20 1031082 _ ltac:(lia) ltac:(lia) Hm Hle) as Hb.
  assert (fbounded 24 31 (fmul (probe_timeout o) (f32_of_Z 1000))) as Hb'.
  { apply (SFmul_bound 24 128 ltac:(lia) ltac:(lia) _ _ 20 10 24); [lia|lia|lia|done|by fconst]. }
  apply (float_to_int_pos 24); [lia|done|]. eapply fpositive_of_bounded; [done|].
  apply SFmul_sign; [|done]. by destruct (probe_timeout o); try done; destruct Hle.
Qed.
