(* ===== verification/Invariant.v ===== *)
(** * The invariant of connections

    [conn_inv] is the well-formedness every handler relies on and keeps; [evolves] relates the
    states before and after a handler: what never goes back. A computation is [safe] at a state
    when it is defined there and keeps both. The lemmas compose: a handler is safe because its
    parts are. This file has the parts in [Retrier.v] and [Transmit.v]. *)

From S2P Require Import Prelude MemCopy Packet ReceiveQueue Types SendQueue Float32 Rtt State Retrier Transmit.

(** ** Well-formedness *)

Definition retry_ok (i : Z) (x : Retry) : Prop :=
  paths x ≠ [] ∧ Forall (λ p, packet_wf (pp_packet p) ∧ h_id (p_header (pp_packet p)) = i) (paths x) ∧
  0 ≤ attempts x.

(** A send queue that holds numbered frames and no data waiting for compression. *)
Definition sq_ok (q : SendQueue) : Prop :=
  (∃ base fs, sq_rep q base fs) ∧ compressionBuffer q = [].

(** Frames the receiver can process: acknowledgements are complete. Compressed frames have their
    own theorem and are excluded here. *)
Definition frame_ok (f : Frame) : Prop :=
  (fh_type (f_header f) = ACK_FRAME → (4 ≤ length (f_data f))%nat) ∧
  fh_type (f_header f) ≠ DATA_COMPRESSED.

Record conn_inv (c : Connection) : Prop := {
  ci_retrier : retrier_inv (retrier (sender c));
  ci_window : ∀ i x, window (retrier (sender c)) !! i = Some x → retry_ok i x;
  ci_rtt : rtt_ok (rtt (sender c));
  ci_windowSize : window_minimum ≤ windowSize (sender c) ≤ window_maximum;
  ci_reliable : sq_ok (dataQueue (sender c));
  ci_unreliable : sq_ok (unreliableDataQueue (sender c));
  ci_generator : in_u 16 (packetIDGenerator (sender c));
  ci_frames : ∀ i f, ReceiveQueue.queue (receiveQueue (receiver c)) !! i = Some f → frame_ok f;
  ci_options : options_ok (options c);
  ci_uncompressed : uncompressed (options c);
  ci_id : length (id c) = 16%nat;
  ci_disposed : userDataDisposed c = true → receiveHandler c = false ∧ closeHandler c = false;
}.

(** ** Evolution *)
Definition status_rank (s : OpenStatus) : Z := match s with UNINITIALIZED => 0 | OPENED => 1 | SHUT => 2 end.

Definition is_closed_event (e : Event) : bool := match e with UserClosed _ => true | _ => false end.
Definition is_received_event (e : Event) : bool := match e with Received _ _ => true | _ => false end.
Definition n_closed (l : list Event) : Z := Z.of_nat (length (List.filter is_closed_event l)).
Definition n_received (l : list Event) : Z := Z.of_nat (length (List.filter is_received_event l)).

Record evolves (c c' : Connection) : Prop := {
  ev_events : events c `prefix_of` events c';
  ev_sender : status_rank (s_status (sender c)) ≤ status_rank (s_status (sender c'));
  ev_receiver : status_rank (r_status (receiver c)) ≤ status_rank (r_status (receiver c'));
  ev_retrier : rt_status (retrier (sender c)) = CLOSED → rt_status (retrier (sender c')) = CLOSED;
  ev_probe : p_status (probe c) = CLOSED → p_status (probe c') = CLOSED;
  ev_closed : closed c = true → closed c' = true;
  ev_disposed : userDataDisposed c = true → userDataDisposed c' = true;
  (* the user is told of the close at most once *)
  ev_user : n_closed (events c') + Z.b2z (negb (userDataDisposed c')) ≤
            n_closed (events c) + Z.b2z (negb (userDataDisposed c));
  (* and gets no data afterwards *)
  ev_quiet : userDataDisposed c = true → n_received (events c') = n_received (events c);
  ev_clock : clock c' = clock c;
  ev_id : id c' = id c ∧ localID c' = localID c;
}.

#[export] Instance evolves_preorder : PreOrder evolves.
Proof.
  split.
  - intros c. split; try done; lia.
  - intros c1 c2 c3 [H1 H2 H3 H4 H4' H5 H6 H7 H8 H9 [H10 H11]] [K1 K2 K3 K4 K4' K5 K6 K7 K8 K9 [K10 K11]].
    split; [by etrans|lia|lia|by auto|by auto|by auto|by auto|lia| |congruence|split; congruence].
    intros Hd. rewrite K8, H8; auto.
Qed.

Definition safe {A} (m : C A) (c : Connection) : Prop :=
  conn_inv c → wp m (λ _ c', conn_inv c' ∧ evolves c c') c.

Lemma safe_ret {A} (a : A) c : safe (mret a) c.
Proof. intros Hc. by split. Qed.

Lemma safe_bind {A B} (m : C A) (f : A → C B) c :
  safe m c → (∀ a c', evolves c c' → conn_inv c' → safe (f a) c') → safe (m ≫= f) c.
Proof.
  intros Hm Hf Hc. apply wp_bind. eapply wp_mono; [by apply Hm|]. intros a c1 [Hc1 He1].
  eapply wp_mono; [by apply (Hf a c1)|]. intros b c2 [Hc2 He2]. split; [done|by etrans].
Qed.

(** [m] is safe and returns a value with [Q]. *)
Definition safe_returns {A} (m : C A) (Q : A → Prop) (c : Connection) : Prop :=
  conn_inv c → wp m (λ a c', (conn_inv c' ∧ evolves c c') ∧ Q a) c.

Lemma safe_bind_returns {A B} (m : C A) (f : A → C B) (Q : A → Prop) c :
  safe_returns m Q c → (∀ a c', Q a → evolves c c' → conn_inv c' → safe (f a) c') → safe (m ≫= f) c.
Proof.
  intros Hm Hf Hc. apply wp_bind. eapply wp_mono; [by apply Hm|]. intros a c1 [[Hc1 He1] HQ].
  eapply wp_mono; [by apply (Hf a c1)|]. intros b c2 [Hc2 He2]. split; [done|by etrans].
Qed.

Lemma safe_returns_ret {A} (a : A) (Q : A → Prop) c : Q a → safe_returns (mret a) Q c.
Proof. intros HQ Hc. by split. Qed.

Lemma safe_returns_bind {A B} (m : C A) (f : A → C B) (Q : B → Prop) c :
  safe m c → (∀ a c', evolves c c' → conn_inv c' → safe_returns (f a) Q c') → safe_returns (m ≫= f) Q c.
Proof.
  intros Hm Hf Hc. apply wp_bind. eapply wp_mono; [by apply Hm|]. intros a c1 [Hc1 He1].
  eapply wp_mono; [by apply (Hf a c1)|]. intros b c2 [[Hc2 He2] HQ]. split; [split; [done|by etrans]|done].
Qed.

(** Reading the state tells what was read. *)
Lemma safe_gets {A B} (g : Connection → A) (f : A → C B) c : safe (f (g c)) c → safe (gets g ≫= f) c.
Proof. intros Hf Hc. apply wp_bind, wp_gets. by apply Hf. Qed.

Lemma safe_mget {B} (f : Connection → C B) c : safe (f c) c → safe (mget ≫= f) c.
Proof. intros Hf Hc. apply wp_bind, wp_mget. by apply Hf. Qed.

Lemma safe_lift {A B} (o : option A) a (f : A → C B) c :
  o = Some a → safe (f a) c → safe (lift o ≫= f) c.
Proof. intros -> Hf Hc. apply wp_bind. by apply Hf. Qed.

Lemma safe_modify f c : (conn_inv c → conn_inv (f c) ∧ evolves c (f c)) → safe (modify f) c.
Proof. intros Hf Hc. apply wp_modify. by apply Hf. Qed.

Lemma safe_when (b : bool) m c : (b = true → safe m c) → safe (when b m) c.
Proof. destruct b; intros H; [by apply H|apply safe_ret]. Qed.

Lemma safe_inv {A} (m : C A) c : (conn_inv c → safe m c) → safe m c.
Proof. intros H Hc. by apply H. Qed.

(** ** Primitive steps *)

Lemma n_closed_snoc l e : n_closed (l ++ [e]) = n_closed l + Z.b2z (is_closed_event e).
Proof. unfold n_closed. rewrite List.filter_app, length_app. simpl. destruct (is_closed_event e); simpl; lia. Qed.

Lemma n_received_snoc l e : n_received (l ++ [e]) = n_received l + Z.b2z (is_received_event e).
Proof. unfold n_received. rewrite List.filter_app, length_app. simpl. destruct (is_received_event e); simpl; lia. Qed.

(** An assignment to fields that [conn_inv] or [evolves] constrain leaves those to prove. *)
Ltac step_fields :=
  apply safe_modify; intros Hc; split;
  [split; simpl; try apply Hc; try done|split; simpl; try done; try lia; try (by split)].

Lemma safe_emit e c :
  is_closed_event e = false → is_received_event e = false → safe (emit e) c.
Proof.
  intros H1 H2. unfold emit. step_fields.
  - by eexists.
  - rewrite n_closed_snoc, H1. simpl. lia.
  - intros _. rewrite n_received_snoc, H2. simpl. lia.
Qed.

Lemma safe_statistics f c : safe (modify_statistics f) c.
Proof. unfold modify_statistics. step_fields. Qed.

Lemma safe_set_probe f c :
  (p_status (probe c) = CLOSED → p_status (f c) = CLOSED) →
  safe (modify (λ c, set_probe (f c) c)) c.
Proof. intros H. step_fields. Qed.

Lemma safe_retrier f c :
  (conn_inv c → retrier_inv (f (retrier (sender c))) ∧
   (∀ i x, window (f (retrier (sender c))) !! i = Some x → retry_ok i x) ∧
   (rt_status (retrier (sender c)) = CLOSED → rt_status (f (retrier (sender c))) = CLOSED)) →
  safe (modify_retrier f) c.
Proof. intros H. unfold modify_retrier, modify_sender. step_fields; by apply H. Qed.

(** The fields of the sender without an invariant of their own. *)
Lemma safe_sender f c :
  retrier (f (sender c)) = retrier (sender c) →
  status_rank (s_status (sender c)) ≤ status_rank (s_status (f (sender c))) →
  (conn_inv c → rtt_ok (rtt (f (sender c))) ∧
    (window_minimum ≤ windowSize (f (sender c)) ≤ window_maximum) ∧
    sq_ok (dataQueue (f (sender c))) ∧ sq_ok (unreliableDataQueue (f (sender c))) ∧
    in_u 16 (packetIDGenerator (f (sender c)))) →
  safe (modify_sender f) c.
Proof.
  intros Hr Hs H. unfold modify_sender. step_fields; rewrite ?Hr; try apply Hc; try done;
    by apply H.
Qed.

#[export] Hint Resolve safe_ret safe_statistics : mrudp.

(** ** Retrier *)

Lemma safe_rt_close c : safe rt_close c.
Proof.
  apply safe_retrier. intros Hc. case_decide as E.
  - split_and!; [apply Hc|apply Hc|done].
  - split_and!; simpl; [by left|by intros ??; rewrite lookup_empty|done].
Qed.

(** Under the invariant the next retry exists unless the window is empty. *)
Lemma getNextRetry_wp c :
  conn_inv c →
  wp getNextRetry (λ res c', c' = c ∧
    match res with
    | Some (i, x) => window (retrier (sender c)) !! i = Some x
    | None => window (retrier (sender c)) = ∅
    end) c.
Proof.
  intros Hc. unfold getNextRetry. wp_steps. case_bool_decide as E; [by wp_steps|].
  destruct (ci_retrier _ Hc) as [[_ E']|[_ Hp]]; [done|].
  pose proof (set_begin_spec (priority (retrier (sender c)))) as Hb.
  destruct (set_begin (priority _)) as [i|].
  - destruct Hb as [Hi _]. apply Hp in Hi as (x&Ex&_). rewrite Ex. by wp_steps.
  - pose proof (set_begin_spec (dom (window (retrier (sender c))))) as Hd.
    destruct (set_begin (dom _)) as [i|]; [|by apply dom_empty_inv_L in Hd].
    destruct Hd as [[x Hx]%elem_of_dom _]. rewrite Hx. by wp_steps.
Qed.

Lemma safe_getNextRetry {B} (f : option (Z * Retry) → C B) c :
  (∀ res, match res with
          | Some (i, x) => window (retrier (sender c)) !! i = Some x
          | None => window (retrier (sender c)) = ∅ end → safe (f res) c) →
  safe (getNextRetry ≫= f) c.
Proof.
  intros H Hc. apply wp_bind. eapply wp_mono; [by apply getNextRetry_wp|].
  intros res c' [-> Hres]. by apply H.
Qed.

(** Assigning to a retry of the window what does not change its packets and priority. *)
Lemma safe_set_retry i x y c :
  window (retrier (sender c)) !! i = Some x →
  paths y = paths x → priority_ y = priority_ x → 0 ≤ attempts y → safe (set_retry i y) c.
Proof.
  intros Hx Hp Hpr Ha. apply safe_retrier. intros Hc. split_and!; simpl; [| |done].
  - destruct (ci_retrier _ Hc) as [[_ E]|[Ho Hpi]]; [by rewrite E, lookup_empty in Hx|].
    right. split; [done|]. intros j. simpl. rewrite Hpi. destruct (decide (j = i)) as [->|Hne].
    + rewrite lookup_insert_eq, Hx. split; intros (z&[= <-]&?); eexists; (split; [done|congruence]).
    + by rewrite lookup_insert_ne.
  - intros j z [[<- <-]|[_ Hz]]%lookup_insert_Some; [|by apply (ci_window _ Hc)].
    destruct (ci_window _ Hc i x Hx) as (?&?&?). split_and!; [by rewrite Hp|by rewrite Hp|done].
Qed.

Lemma safe_recalculateRetryTimeout c : safe recalculateRetryTimeout c.
Proof.
  apply safe_inv. intros Hc. apply safe_getNextRetry. intros [[i x]|] Hx; [|apply safe_ret].
  apply safe_gets. destruct (toDuration_retry _ (ci_rtt _ Hc)) as (d&Hd&_).
  eapply safe_lift; [done|]. apply safe_bind.
  - eapply safe_set_retry; [done..|]. simpl. by destruct (ci_window _ Hc i x Hx) as (?&?&?).
  - intros _ c' _ _. by apply safe_emit.
Qed.

(** Inserting a priority packet needs an id that is not in the window. *)
Lemma safe_rt_insert packetPaths now prio c :
  packetPaths ≠ [] →
  (∀ p, head packetPaths = Some p →
    Forall (λ q, packet_wf (pp_packet q) ∧
                 h_id (p_header (pp_packet q)) = h_id (p_header (pp_packet p))) packetPaths ∧
    (prio = true → window (retrier (sender c)) !! h_id (p_header (pp_packet p)) = None)) →
  safe (rt_insert packetPaths now prio) c.
Proof.
  intros Hne Hp. unfold rt_insert. apply safe_gets. case_decide as Ho; [apply safe_ret|].
  destruct packetPaths as [|p ps]; [done|]. destruct (Hp p eq_refl) as [Hf Hfresh].
  apply safe_bind; [|intros _ c' _ _; apply safe_bind; [apply safe_when; intros _; apply safe_recalculateRetryTimeout|]; intros; apply safe_ret].
  apply safe_retrier. intros Hc. set (i := h_id _) in *. split_and!; simpl; [| |done].
  - destruct (ci_retrier _ Hc) as [[? _]|[Ho' Hpi]]; [done|]. right. split; [done|]. intros j. simpl.
    destruct (window (retrier (sender c)) !! i) as [x|] eqn:Ex.
    + destruct prio; [by specialize (Hfresh eq_refl)|]. apply Hpi.
    + destruct (decide (j = i)) as [->|Hne'].
      * rewrite lookup_insert_eq. destruct prio.
        -- split; [eauto|set_solver].
        -- rewrite Hpi, Ex. split; intros (?&[= <-]&?); done.
      * rewrite lookup_insert_ne, <-Hpi by done. destruct prio; set_solver.
  - intros j z. destruct (window (retrier (sender c)) !! i) as [x|] eqn:Ex; [apply (ci_window _ Hc)|].
    intros [[<- <-]|[_ Hz]]%lookup_insert_Some; [|by apply (ci_window _ Hc)]. by split_and!.
Qed.

Lemma safe_rt_ack packetID now delayedMS c : safe (rt_ack packetID now delayedMS) c.
Proof.
  unfold rt_ack. apply safe_gets. destruct (window _ !! packetID) as [x|] eqn:Ex; [|apply safe_ret].
  apply safe_bind; [|intros; apply safe_ret]. apply safe_retrier. intros Hc. split_and!; simpl; [| |done].
  - destruct (ci_retrier _ Hc) as [[_ E]|[Ho Hpi]]; [by rewrite E, lookup_empty in Ex|].
    right. split; [done|]. intros j. simpl. destruct (decide (j = packetID)) as [->|Hne].
    + rewrite lookup_delete_eq. split; [|intros (?&?&?); done].
      destruct (priority_ x) eqn:Ep; [set_solver|]. rewrite Hpi, Ex. intros (?&[= <-]&?). congruence.
    + rewrite lookup_delete_ne, <-Hpi by done. destruct (priority_ x); set_solver.
  - intros j z [_ Hz]%lookup_delete_Some. by apply (ci_window _ Hc).
Qed.

(** ** Transmission *)

Lemma safe_pr_close c : safe pr_close c.
Proof. by apply (safe_set_probe (λ c, mkProbe CLOSED _ _ _)). Qed.

Lemma safe_recalculateProbeTimeout c : safe recalculateProbeTimeout c.
Proof.
  apply safe_inv. intros Hc. unfold recalculateProbeTimeout. apply safe_gets.
  destruct (toDuration_probe _ (ci_options _ Hc)) as (d&Hd&_). eapply safe_lift; [done|].
  by apply (safe_set_probe (λ c, mkProbe _ _ _ _)).
Qed.

Lemma safe_registerTimeout t c : safe (registerTimeout t) c.
Proof.
  unfold registerTimeout. apply safe_gets. apply safe_bind.
  - apply (safe_set_probe (λ _, mkProbe _ _ _ _)). done.
  - intros _ c' _ _. apply safe_when. intros _. by apply safe_emit.
Qed.

Lemma safe_pr_on now c : safe (pr_on now) c.
Proof.
  unfold pr_on. apply safe_bind; [apply safe_recalculateProbeTimeout|]. intros _ c' _ _.
  apply safe_gets, safe_registerTimeout.
Qed.

Lemma pushData_T_defined p bs :
  packet_wf p → Z.of_nat (length bs) ≤ MAX_PACKET_SIZE →
  ∃ p', pushData_T p bs = Some (p', true) ∧ packet_wf p' ∧ p_header p' = p_header p.
Proof.
  intros Hp Hb. destruct (pushData_defined p bs Hp Hb) as (p'&b&E&?&?). exists p'.
  unfold pushData_T. by rewrite E.
Qed.

Lemma safe_send_ p address c : packet_wf p → safe (send_ p address) c.
Proof.
  intros Hp. apply safe_inv. intros Hc. unfold send_. apply safe_gets. apply safe_bind.
  - destruct (_ =? 0); [|by apply safe_emit]. apply safe_gets.
    destruct (pushData_T_defined (set_connection p (remoteID c)) (id c)) as (p'&E&_).
    { by apply set_header_wf. }
    { rewrite (ci_id _ Hc). by vm_compute. }
    eapply safe_lift; [done|]. by apply safe_emit.
  - intros _ c' _ _. apply safe_gets, safe_pr_on.
Qed.

Lemma safe_send p address c : packet_wf p → safe (send p address) c.
Proof.
  intros Hp. unfold send. apply safe_bind; [apply safe_statistics|]. intros _ c' _ _. apply safe_gets.
  unfold ho_onSend. destruct (_ =? H3).
  - destruct (pushData_T_defined p (encode_HandshakeOptionsData (u32 (Z.max (probe_delay_ms (options c')) 0))
      (maximum_retry_attempts (options c')))) as (p'&E&Hp'&_); [done|by vm_compute|].
    eapply safe_lift; [by rewrite E|]. by apply safe_send_.
  - eapply safe_lift; [done|]. by apply safe_send_.
Qed.

Lemma safe_resend p address c : packet_wf p → safe (resend p address) c.
Proof.
  intros Hp. unfold resend. apply safe_bind; [by apply safe_send_|]. intros. apply safe_statistics.
Qed.

(** Iterating over a list. *)
Lemma safe_mapM {X} (f : X → C unit) l c :
  (∀ x c', x ∈ l → evolves c c' → safe (f x) c') → safe (mapM_ f l) c.
Proof.
  revert c. induction l as [|x l IH]; intros c Hf; simpl; [apply safe_ret|].
  apply safe_bind; [by apply Hf; [left|]|]. intros _ c1 He _. apply IH. intros y c2 Hy He2.
  apply Hf; [by right|by etrans].
Qed.

(** ** Frame rules

    [respects R m]: wherever [m] is defined, the states before and after are related by the
    preorder [R]. With [R] an equality of projections this says which fields [m] leaves alone. *)
Definition respects {A} (R : relation Connection) (m : C A) : Prop :=
  ∀ c a c', m c = Some (a, c') → R c c'.

Definition same {X} (g : Connection → X) : relation Connection := λ c c', g c' = g c.
#[export] Instance same_preorder {X} (g : Connection → X) : PreOrder (same g).
Proof. split; [done|]. intros c1 c2 c3 H1 H2. unfold same in *. congruence. Qed.

Section respects.
Context (R : relation Connection) `{!PreOrder R}.

Lemma respects_ret {A} (a : A) : respects R (mret a).
Proof. by intros c ? ? [= <- <-]. Qed.
Lemma respects_ub {A} : respects R (ub (A := A)).
Proof. done. Qed.
Lemma respects_bind {A B} (m : C A) (f : A → C B) :
  respects R m → (∀ a, respects R (f a)) → respects R (m ≫= f).
Proof.
  intros Hm Hf c b c2. unfold mbind, M_bind. destruct (m c) as [[a c1]|] eqn:E; [|done].
  intros E2. etrans; [by eapply Hm|by eapply Hf].
Qed.
Lemma respects_modify f : (∀ c, R c (f c)) → respects R (modify f).
Proof. intros Hf c ? ? [= <- <-]. apply Hf. Qed.
Lemma respects_gets {A} (g : Connection → A) : respects R (gets g).
Proof. by intros c ? ? [= <- <-]. Qed.
Lemma respects_mget : respects R mget.
Proof. by intros c ? ? [= <- <-]. Qed.
Lemma respects_lift {A} (o : option A) : respects R (lift o).
Proof. intros c a c'. unfold lift. destruct o; [|done]. by intros [= <- <-]. Qed.
Lemma respects_when (b : bool) m : respects R m → respects R (when b m).
Proof. destruct b; [done|]. intros _. apply respects_ret. Qed.
Lemma respects_mapM {X} (f : X → C unit) l : (∀ x, respects R (f x)) → respects R (mapM_ f l).
Proof.
  intros Hf. induction l as [|x l IH]; simpl; [apply respects_ret|].
  apply respects_bind; [apply Hf|done].
Qed.
End respects.

Create HintDb frame.
#[export] Hint Resolve respects_ret respects_ub respects_gets respects_mget respects_lift : frame.

(** Prove [respects] for a handler from the frame rules of its parts. *)
Ltac frame_step :=
  match goal with
  | |- respects _ (mbind _ _) => apply (respects_bind _); [|intros ?]
  | |- respects _ (modify _) => apply respects_modify; intros ?
  | |- respects _ (when _ _) => apply (respects_when _)
  | |- respects _ (mapM_ _ _) => apply (respects_mapM _); intros ?
  | |- respects _ (match ?x with _ => _ end) => destruct x
  | |- respects _ (if ?x then _ else _) => destruct x
  end.
Ltac frame := repeat (first [solve [eauto with frame typeclass_instances]|frame_step]); try done.

Lemma wp_respects {A} R (m : C A) Q c :
  respects R m → wp m Q c → wp m (λ a c', Q a c' ∧ R c c') c.
Proof. intros Hr. unfold wp. destruct (m c) as [[a c']|] eqn:E; [|done]. intros. split; [done|by eapply Hr]. Qed.

(** Transmitting touches the retrier, the id generator, the probe, the statistics and the
    events; everything else is this. *)
Definition tx_frame (c : Connection) :=
  (remoteID c, options c, handshake c, receiver c, remoteAddress c,
   (s_status (sender c), rtt (sender c), windowSize (sender c), dataQueue (sender c),
    unreliableDataQueue (sender c), schedule_unreliable (sender c), schedule_reliable (sender c),
    delayedAcks (sender c)),
   (receiveHandler c, closeHandler c, closeReason c, closed c, userDataDisposed c), clock c,
   rt_status (retrier (sender c))).

Lemma recalculateRetryTimeout_frame : respects (same tx_frame) recalculateRetryTimeout.
Proof. unfold recalculateRetryTimeout, getNextRetry, set_retry, modify_retrier, modify_sender, emit. frame. Qed.
#[export] Hint Resolve recalculateRetryTimeout_frame : frame.

Lemma rt_insert_frame ps now prio : respects (same tx_frame) (rt_insert ps now prio).
Proof. unfold rt_insert, modify_retrier, modify_sender. frame. Qed.
Lemma pr_on_frame now : respects (same tx_frame) (pr_on now).
Proof. unfold pr_on, recalculateProbeTimeout, registerTimeout, emit. frame. Qed.
#[export] Hint Resolve rt_insert_frame pr_on_frame : frame.

Lemma send__frame p a : respects (same tx_frame) (send_ p a).
Proof. unfold send_, emit. frame. Qed.
#[export] Hint Resolve send__frame : frame.
Lemma send_frame p a : respects (same tx_frame) (send p a).
Proof. unfold send, modify_statistics. frame. Qed.
Lemma resend_frame p a : respects (same tx_frame) (resend p a).
Proof. unfold resend, modify_statistics. frame. Qed.
#[export] Hint Resolve send_frame resend_frame : frame.

(** Of these, only [rt_insert] changes which packets wait for an acknowledgement. *)
Definition unacked (c : Connection) : gset Z := dom (window (retrier (sender c))).

Lemma send_unacked p a : respects (same unacked) (send p a).
Proof.
  unfold send, send_, modify_statistics, pr_on, recalculateProbeTimeout, registerTimeout, emit. frame.
Qed.

Lemma getNextRetry_some c res c' :
  getNextRetry c = Some (res, c') →
  c' = c ∧ ∀ i x, res = Some (i, x) → window (retrier (sender c)) !! i = Some x.
Proof.
  unfold getNextRetry, mbind, M_bind, gets. case_bool_decide; [by intros [= <- <-]|].
  assert (∀ i, match window (retrier (sender c)) !! i with
    | Some retry => mret (Some (i, retry)) | None => ub end c = Some (res, c') →
    c' = c ∧ ∀ j x, res = Some (j, x) → window (retrier (sender c)) !! j = Some x) as Hk.
  { intros i. destruct (window _ !! i) as [y|] eqn:E; [|done]. intros [= <- <-].
    split; [done|]. by intros j x [= <- <-]. }
  destruct (set_begin (priority _)); [apply Hk|]. destruct (set_begin (dom _)); [apply Hk|done].
Qed.

Lemma recalculateRetryTimeout_unacked : respects (same unacked) recalculateRetryTimeout.
Proof.
  intros c a c'. unfold recalculateRetryTimeout. unfold mbind at 1, M_bind at 1.
  destruct (getNextRetry c) as [[res c1]|] eqn:E; [|done].
  apply getNextRetry_some in E as [-> Hres]. destruct res as [[i x]|]; [|by intros [= <- <-]].
  specialize (Hres i x eq_refl). unfold mbind, M_bind, gets, lift. simpl.
  destruct (toDuration _); [|done]. intros [= <- <-]. unfold same, unacked. simpl.
  rewrite dom_insert_L. apply elem_of_dom_2 in Hres. set_solver.
Qed.

(** A reliable packet joins the packets waiting for an acknowledgement. *)
Lemma rt_insert_unacked ps now prio c b c' :
  rt_insert ps now prio c = Some (b, c') →
  unacked c ⊆ unacked c' ∧
  ∀ p, head ps = Some p → unacked c' ⊆ {[h_id (p_header (pp_packet p))]} ∪ unacked c ∧
    (rt_status (retrier (sender c)) = OPEN → h_id (p_header (pp_packet p)) ∈ unacked c').
Proof.
  unfold rt_insert, mbind, M_bind, gets. case_decide as Ho.
  { intros [= <- <-]. split; [done|]. intros. split; [set_solver|congruence]. }
  destruct ps as [|p ps]; [done|]. set (i := h_id _). unfold modify_retrier, modify_sender, modify.
  set (c1 := upd_sender _ c). destruct (when _ _ c1) as [[[] c2]|] eqn:E; [|done]. intros [= <- <-].
  assert (unacked c2 = unacked c1) as ->.
  { eapply (respects_when (same unacked)); [apply recalculateRetryTimeout_unacked|exact E]. }
  assert (unacked c1 = {[i]} ∪ unacked c) as ->.
  { unfold unacked, c1. simpl. destruct (window (retrier (sender c)) !! i) as [x|] eqn:Ex.
    - apply elem_of_dom_2 in Ex. set_solver.
    - apply dom_insert_L. }
  split; [set_solver|]. intros q [= <-]. set_solver.
Qed.

(** ** A new connection is well-formed *)

Lemma Connection_init_inv l a i o t :
  length l = 16%nat → options_ok o → uncompressed o → conn_inv (Connection_init l a i o t).
Proof.
  intros Hl Ho Hu. split; simpl; try done.
  - right. split; [done|]. intros j. split; [set_solver|]. intros (x&E&_).
    change ((∅ : gmap Z Retry) !! j = Some x) in E. by rewrite lookup_empty in E.
  - split; [|done]. exists 0%nat, []. apply sq_rep_init.
  - split; [|done]. exists 0%nat, []. apply sq_rep_init.
Qed.

Definition example_connection : Connection :=
  Connection_init (replicate 16 Byte.x07) (replicate 28 Byte.x01) 5 getDefaultConnectionOptions 1000000000.

Lemma example_connection_inv : conn_inv example_connection.
Proof. apply Connection_init_inv; [done|split; simpl; lia|split; discriminate]. Qed.
