(* ===== verification/Sender.v ===== *)
(** * The sender: [sender/Sender], and the closing of [Connection]

    Enqueuing, the two send loops, acknowledgements in both directions, and the part of
    [Connection] the sender calls back into: [possiblyClose] and what it leads to. *)

From S2P Require Import Prelude MemCopy Packet ReceiveQueue Types SendQueue Float32 Rtt State Retrier Transmit Invariant.

(** ** Sending packets reliably *)

Definition sendReliablyMultipath (multipath : MultiPacketPath) (prio : bool) : C unit :=
  g ← gets (λ c, packetIDGenerator (sender c));
  let '(i, g') := nextID g in
  modify_sender (set_packetIDGenerator g');;
  let multipath := (λ p, mkPacketPath (set_id (pp_packet p) i) (pp_address p)) <$> multipath in
  now ← gets clock;
  rt_insert multipath now prio;;
  mapM_ (λ p, send (pp_packet p) (pp_address p)) multipath.

(** [multipath.front()] returns a copy, so the assignment of the address is lost. *)
Definition sendReliably (packet : Packet) (address : option Address) : C unit :=
  let multipath := [mkPacketPath packet None] in
  sendReliablyMultipath multipath false.

Definition isReadyToSend (c : Connection) : bool :=
  negb (bool_decide (s_status (sender c) = UNINITIALIZED)) && canSend c.

Definition s_empty (c : Connection) : bool := rt_empty c && SendQueue.empty (dataQueue (sender c)).

Section with_zlib.
Context `{!Zlib}.

(** ** The send loops *)

(** Enough rounds to empty a queue: one for every packet in it and, when it compresses its
    buffer, one for every byte that can become a packet. *)
Definition queue_fuel (q : SendQueue) : nat :=
  S (length (SendQueue.queue q) + length (compressionBuffer q) + 10).

Fixpoint processReliableDataQueue_loop (fuel : nat) : C unit :=
  match fuel with
  | O => ub
  | S fuel =>
    n ← numUnacked;
    w ← gets (λ c, windowSize (sender c));
    if n <? w then
      level ← gets (λ c, compression_level (coalesce_reliable (options c)));
      packet ← on_queue RELIABLE (dequeue level);
      match packet with
      | Some packet =>
        sendReliably (set_type packet DATA_RELIABLE) None;;
        processReliableDataQueue_loop fuel
      | None => mret tt
      end
    else mret tt
  end.

Definition processReliableDataQueue : C unit :=
  c ← mget;
  if negb (isReadyToSend c) then mret tt
  else processReliableDataQueue_loop (queue_fuel (dataQueue (sender c))).

(** The second vector of delayed acks is the one iterated over; nothing is added meanwhile. *)
Definition queueDelayedAcks : C unit :=
  now ← gets clock;
  acks ← gets (λ c, delayedAcks (sender c));
  match acks with
  | [] => mret tt
  | _ =>
    modify_sender (set_delayedAcks [] now);;
    mapM_ (λ a,
      let delayedMS := (now - da_when a) `quot` 1000000 in
      on_queue UNRELIABLE (SendQueue.enqueue ACK_FRAME
        (encode_Ack (mkAck (da_packetID a) (u16 delayedMS))) MRUDP_COALESCE_PACKET)) acks
  end.

Fixpoint processUnreliableDataQueue_loop (fuel : nat) : C unit :=
  match fuel with
  | O => ub
  | S fuel =>
    level ← gets (λ c, compression_level (coalesce_unreliable (options c)));
    packet ← on_queue UNRELIABLE (dequeue level);
    match packet with
    | Some packet =>
      send (set_type packet DATA_UNRELIABLE) None;;
      processUnreliableDataQueue_loop fuel
    | None => mret tt
    end
  end.

Definition processUnreliableDataQueue : C unit :=
  c ← mget;
  if isReadyToSend c then
    queueDelayedAcks;;
    c ← mget;
    processUnreliableDataQueue_loop (queue_fuel (unreliableDataQueue (sender c)))
  else on_queue UNRELIABLE SendQueue.clear.

Definition processDataQueue (r : Reliability) : C unit :=
  match r with RELIABLE => processReliableDataQueue | UNRELIABLE => processUnreliableDataQueue end.

(** ** Scheduling the loops *)

Definition scheduleDataQueueProcessing (r : Reliability) (immediate : bool) : C unit :=
  o ← gets (λ c, coalesce_of r (options c));
  if mode o =? MRUDP_COALESCE_NONE then processDataQueue r
  else
    now ← gets clock;
    let then_ := now + (if immediate then 0 else delay_ms o) * 1000000 in
    sc ← gets (λ c, schedule_of r (sender c));
    if match sc_when sc with None => true | Some w => then_ <? w end then
      modify_sender (set_schedule r (mkSchedule (Some then_) (running sc)));;
      when (negb (running sc)) (emit (Scheduled (QueueTimer r) then_))
    else mret tt.

(** The handler of a queue's timer. *)
Definition processSchedule (r : Reliability) : C unit :=
  sc ← gets (λ c, schedule_of r (sender c));
  if running sc then mret tt
  else
    modify_sender (set_schedule r (mkSchedule None true));;
    processDataQueue r;;
    sc ← gets (λ c, schedule_of r (sender c));
    modify_sender (set_schedule r (mkSchedule (sc_when sc) false));;
    match sc_when sc with
    | Some w => emit (Scheduled (QueueTimer r) w)
    | None => mret tt
    end.

Definition s_enqueue (typeID : Z) (data : bytes) (r : Reliability) (mode : Z) : C unit :=
  on_queue r (SendQueue.enqueue typeID data mode);;
  c ← mget;
  when (isReadyToSend c) (scheduleDataQueueProcessing r false).

(** ** Opening, sending, closing *)

Definition s_open : C unit :=
  modify_sender (λ s, if decide (s_status s = UNINITIALIZED) then set_s_status OPENED s else s);;
  scheduleDataQueueProcessing RELIABLE false;;
  scheduleDataQueueProcessing UNRELIABLE false.

Definition s_send (data : bytes) (r : Reliability) : C Z :=
  c ← mget;
  if decide (s_status (sender c) = SHUT) then mret ERROR_CONNECTION_CLOSED
  else
    let m := mode (coalesce_of r (options c)) in
    if (MAX_PACKET_DATA_SIZE <? Z.of_nat (length data)) &&
       negb (m =? MRUDP_COALESCE_STREAM) && negb (m =? MRUDP_COALESCE_STREAM_COMPRESSED)
    then mret ERROR_PACKET_SIZE_TOO_LARGE
    else s_enqueue DATA data r m;; mret OK.

Definition s_close : C unit :=
  c ← mget;
  if decide (s_status (sender c) = SHUT) then mret tt
  else
    s_enqueue CLOSE_WRITE [] RELIABLE MRUDP_COALESCE_PACKET;;
    modify_sender (set_s_status SHUT).

Definition s_fail : C unit :=
  modify_sender (λ s, if decide (s_status s = SHUT) then s else set_s_status SHUT s);;
  rt_close;;
  on_queue RELIABLE SendQueue.close;;
  on_queue UNRELIABLE SendQueue.close.

Definition s_ack (packetID : Z) : C unit :=
  now ← gets clock;
  modify_sender (λ s, set_delayedAcks (delayedAcks s ++ [mkDelayedAck packetID now]) (lastDelayedAcksSend s) s);;
  scheduleDataQueueProcessing UNRELIABLE false.

(** ** Connection: closing *)

Definition closeUser (event : mrudp_event_t) : C unit :=
  c ← mget;
  if userDataDisposed c then mret tt
  else
    modify (set_user false false true);;
    when (closeHandler c) (emit (UserClosed event)).

Definition finishWhenReady : C unit :=
  c ← mget;
  interval ← lift (toDuration (fmul (rtt (sender c)) (f32_of_Z 3)));
  emit (Scheduled FinishTimer (clock c + interval * 1000000)).

Definition close_event (event : mrudp_event_t) : C unit :=
  c ← mget;
  if closed c then mret tt
  else
    modify (set_closed (closeReason c) true);;
    closeUser event;;
    finishWhenReady.

Definition possiblyClose : C unit :=
  c ← mget;
  if closed c then mret tt
  else if bool_decide (s_status (sender c) = SHUT) && bool_decide (r_status (receiver c) = SHUT) && s_empty c
  then close_event (closeReason c)
  else mret tt.

(** ** Receiving acknowledgements *)

Definition onAck (ack : Ack) : C unit :=
  now ← gets clock;
  ackResult ← rt_ack (ack_packetID ack) now (ack_delayedMS ack);
  when (contained ackResult) (
    modify_sender (λ s, set_rtt (RTT_onSample (rtt s) (ar_rtt ackResult)) s);;
    r ← gets (λ c, rtt (sender c));
    w ← lift (WindowSize_onSample r);
    modify_sender (set_windowSize w);;
    when (needsRetryTimeoutRecalculation ackResult) recalculateRetryTimeout);;
  scheduleDataQueueProcessing RELIABLE true;;
  possiblyClose.

Definition onAck_packet (packet : Packet) : C unit := onAck (mkAck (h_id (p_header packet)) 0).

Definition s_onReceive (packet : Packet) : C unit :=
  if isAck (h_type (p_header packet)) then onAck_packet packet
  else if h_type (p_header packet) =? CLOSE_READ then s_fail;; possiblyClose
  else mret tt.
End with_zlib.

(** ** Safety *)

Section safety.
Context `{!Zlib}.

Lemma dequeue_uncompressed level q :
  compressionBuffer q = [] →
  dequeue level q = Some (if decide (status q = CLOSED) then (None, q)
                          else match SendQueue.queue q with
                               | [] => (None, q)
                               | p :: rest => (Some p, set_queue rest q)
                               end).
Proof.
  intros Hb. unfold dequeue, mbind, M_bind, mget. case_decide; [done|].
  rewrite Hb, andb_false_r. cbn [when]. unfold mret, M_ret. by destruct (SendQueue.queue q).
Qed.

Lemma sq_ok_tail q p rest :
  sq_ok q → SendQueue.queue q = p :: rest → packet_wf p ∧ sq_ok (set_queue rest q).
Proof.
  intros [(base&fs&fss&Hf&->&Hn&Hg) Hb] Eq. rewrite Eq in Hf.
  apply Forall2_cons_inv_l in Hf as (gs&fss'&Hp&Hf&->). split; [apply Hp|]. split; [|done].
  simpl in Hn, Hg. apply numbered_app in Hn as [_ Hn]. exists (base + length gs)%nat, (concat fss'), fss'.
  split_and!; [done|done|done|]. simpl. rewrite Hg, length_app. f_equal. lia.
Qed.

Lemma sq_ok_empty q st : sq_ok q → sq_ok (mkSendQueue st (frameIDGenerator q) [] []).
Proof.
  intros [(base&fs&_&_&_&_&Hg) Hb]. split; [|done]. exists (base + length fs)%nat, [], [].
  split_and!; [constructor|done|by intros i f ?|]. simpl. rewrite Hg. f_equal. lia.
Qed.

(** What the sender enqueues. *)
Definition enqueue_ok (typeID : Z) (data : bytes) (m : Z) : Prop :=
  in_u 8 typeID ∧ m ≠ MRUDP_COALESCE_STREAM_COMPRESSED ∧
  (Z.of_nat (length data) ≤ MAX_PACKET_DATA_SIZE ∨
   m = MRUDP_COALESCE_STREAM ∧ Z.of_nat (length data) < 2 ^ 31).

(** One send, in whichever uncompressed mode: frames of its type that carry its bytes; a send
    that is not split is one frame. *)
Lemma enqueue_ok_spec typeID data m q base fs :
  sq_rep q base fs → status q = OPEN → enqueue_ok typeID data m →
  wp (SendQueue.enqueue typeID data m) (λ _ q', ∃ new, sq_rep q' base (fs ++ new) ∧ same_rest q q' ∧
    frames_data new = data ∧ Forall (λ f, fh_type (f_header f) = typeID) new ∧
    (m ≠ MRUDP_COALESCE_STREAM → ∃ f, new = [f])) q.
Proof.
  intros Hq Ho (Ht&Hm&Hs).
  assert (∀ q', sq_rep q' base (fs ++ [next_frame base fs typeID data]) → same_rest q q' →
    ∃ new, sq_rep q' base (fs ++ new) ∧ same_rest q q' ∧ frames_data new = data ∧
      Forall (λ f, fh_type (f_header f) = typeID) new ∧ (m ≠ MRUDP_COALESCE_STREAM → ∃ f, new = [f])) as Hone.
  { intros q' ??. exists [next_frame base fs typeID data].
    split_and!; [done|done|apply app_nil_r|by apply Forall_singleton|by eexists]. }
  destruct (decide (m = MRUDP_COALESCE_STREAM)) as [->|Hns].
  - eapply wp_mono; [apply enqueue_stream_spec; [done|done|done|]|].
    { destruct Hs as [?|[_ ?]]; [size_lia|done]. }
    intros [] q' (new&?&?&?&?). by exists new.
  - destruct Hs as [Hs|[? _]]; [|done].
    destruct (decide (m = MRUDP_COALESCE_PACKET)) as [->|Hnp].
    + eapply wp_mono; [apply enqueue_frame_spec; [done|done|done|by right|done]|].
      intros [] q' [? ?]. by apply Hone.
    + unfold SendQueue.enqueue. wp_steps. rewrite decide_False by congruence. apply wp_bind.
      assert (coalesce typeID data m = mret false) as ->.
      { unfold coalesce. destruct (Z.eqb_spec m MRUDP_COALESCE_NONE); [done|].
        by rewrite !(proj2 (Z.eqb_neq _ _)). }
      apply wp_ret. cbv beta iota. by apply (wp_push_packet q base fs).
Qed.

Lemma enqueue_closed typeID data m q :
  status q = CLOSED → SendQueue.enqueue typeID data m q = Some (tt, q).
Proof. intros Hc. unfold SendQueue.enqueue, mbind, M_bind, mget. by rewrite decide_True. Qed.

Lemma sq_ok_enqueue typeID data m q :
  sq_ok q → enqueue_ok typeID data m → wp (SendQueue.enqueue typeID data m) (λ _, sq_ok) q.
Proof.
  intros [(base&fs&Hq) Hb] He. destruct (status q) eqn:Hc.
  - eapply wp_mono; [by eapply enqueue_ok_spec|]. intros [] q' (new&?&[_ Eb]&_).
    split; [by exists base, (fs ++ new)|congruence].
  - unfold wp. rewrite enqueue_closed by done. split; [by exists base, fs|done].
Qed.

Lemma safe_on_queue {A} r (m : M SendQueue A) c :
  (sq_ok (queue_of r (sender c)) → wp m (λ _, sq_ok) (queue_of r (sender c))) → safe (on_queue r m) c.
Proof.
  intros Hm Hc. assert (sq_ok (queue_of r (sender c))) as Hq by (destruct r; apply Hc).
  specialize (Hm Hq). unfold wp, on_queue in *. destruct (m _) as [[a q]|]; [|done].
  split; [|split; simpl; try done; lia].
  split; simpl; try apply Hc; destruct r; apply Hc || done.
Qed.

(** ** Reliable sends *)

Lemma nextID_range g : in_u 16 (snd (nextID g)).
Proof. by apply wrap_range. Qed.

(** A multipath of packets without ids. *)
Lemma safe_sendReliablyMultipath ps prio c :
  ps ≠ [] → Forall (λ p, packet_wf (pp_packet p)) ps →
  (prio = true → window (retrier (sender c)) !! packetIDGenerator (sender c) = None) →
  safe (sendReliablyMultipath ps prio) c.
Proof.
  intros Hne Hps Hfresh. unfold sendReliablyMultipath. apply safe_gets.
  destruct (nextID (packetIDGenerator (sender c))) as [i g'] eqn:En. injection En as <- <-.
  set (i := packetIDGenerator (sender c)) in *.
  set (ps' := _ <$> ps).
  assert (Forall (λ q, packet_wf (pp_packet q) ∧ h_id (p_header (pp_packet q)) = i) ps') as Hps'.
  { apply Forall_fmap. eapply Forall_impl; [|exact Hps]. intros p Hp. by split. }
  assert (safe (modify_sender (set_packetIDGenerator (u16 (i + 1)))) c) as Hg.
  { apply safe_sender; [done|done|]. intros Hc. split_and!; try apply Hc. by apply wrap_range. }
  intros Hc. apply wp_bind, wp_modify. set (c1 := upd_sender _ c).
  assert (conn_inv c1 ∧ evolves c c1) as [Hc1 He1] by exact (Hg Hc).
  enough (safe (now ← gets clock; rt_insert ps' now prio;;
                mapM_ (λ p, send (pp_packet p) (pp_address p)) ps') c1) as Hs.
  { eapply wp_mono; [exact (Hs Hc1)|]. intros [] c2 [? ?]. split; [done|by etrans]. }
  apply safe_gets. apply safe_bind.
  - apply safe_rt_insert; [by destruct ps|]. intros p Hp.
    assert (h_id (p_header (pp_packet p)) = i) as Ei.
    { destruct ps' as [|p' l]; [done|]. injection Hp as <-. by apply Forall_cons_1 in Hps' as [[_ ?] _]. }
    rewrite Ei. done.
  - intros _ c2 _ _. apply safe_mapM. intros p c3 Hin _. apply safe_send.
    by destruct (Forall_elem_of _ _ _ Hps' Hin).
Qed.

Lemma safe_sendReliably p a c : packet_wf p → safe (sendReliably p a) c.
Proof. intros Hp. apply safe_sendReliablyMultipath; [done|by constructor; [|constructor]|done]. Qed.

Lemma sendReliably_frame p a : respects (same tx_frame) (sendReliably p a).
Proof. unfold sendReliably, sendReliablyMultipath, modify_sender. frame. Qed.
Lemma sendReliablyMultipath_frame ps prio : respects (same tx_frame) (sendReliablyMultipath ps prio).
Proof. unfold sendReliablyMultipath, modify_sender. frame. Qed.
End safety.

#[export] Hint Resolve sendReliably_frame sendReliablyMultipath_frame : frame.

(** ** What is sent, and what waits for its acknowledgement *)

Definition transmission (e : Event) : option (Packet * option Address) :=
  match e with Sent p a => Some (p, a) | _ => None end.
Definition transmissions (c : Connection) : list (Packet * option Address) :=
  omap transmission (events c).

(** What a retry remembers, apart from when its timer is due. *)
Definition core (x : Retry) := (paths x, sentAt x, attempts x, priority_ x).
Definition cores (c : Connection) := core <$> window (retrier (sender c)).

Lemma bind_some {St A B} (m : M St A) (f : A → M St B) (c : St) r :
  (m ≫= f) c = Some r → ∃ a c1, m c = Some (a, c1) ∧ f a c1 = Some r.
Proof. unfold mbind, M_bind. destruct (m c) as [[a c1]|]; [by eauto|done]. Qed.

Section quiet.
Context `{!Zlib}.

Lemma pr_on_quiet now : respects (same transmissions) (pr_on now).
Proof.
  unfold pr_on, recalculateProbeTimeout, registerTimeout, emit. frame.
  all: unfold same, transmissions; simpl; by rewrite omap_app, app_nil_r.
Qed.

Lemma recalculateRetryTimeout_quiet : respects (same transmissions) recalculateRetryTimeout.
Proof.
  unfold recalculateRetryTimeout, getNextRetry, set_retry, modify_retrier, modify_sender, emit. frame.
  all: unfold same, transmissions; simpl; by rewrite omap_app, app_nil_r.
Qed.

Lemma recalculateRetryTimeout_cores : respects (same cores) recalculateRetryTimeout.
Proof.
  intros c a c'. unfold recalculateRetryTimeout. unfold mbind at 1, M_bind at 1.
  destruct (getNextRetry c) as [[res c1]|] eqn:E; [|done].
  apply getNextRetry_some in E as [-> Hres]. destruct res as [[i x]|]; [|by intros [= <- <-]].
  specialize (Hres i x eq_refl). unfold mbind, M_bind, gets, lift. simpl.
  destruct (toDuration _); [|done]. intros [= <- <-]. unfold same, cores. simpl.
  rewrite fmap_insert. apply insert_id. by rewrite lookup_fmap, Hres.
Qed.

End quiet.

(** ** The send loops *)

Section loops.
Context `{!Zlib}.

(** The packet gets the next id and waits for its acknowledgement. *)
Lemma sendReliablyMultipath_unacked ps prio c c' :
  ps ≠ [] → sendReliablyMultipath ps prio c = Some (tt, c') →
  unacked c ⊆ unacked c' ∧ unacked c' ⊆ {[packetIDGenerator (sender c)]} ∪ unacked c ∧
  (rt_status (retrier (sender c)) = OPEN → packetIDGenerator (sender c) ∈ unacked c').
Proof.
  intros Hne. unfold sendReliablyMultipath. unfold mbind at 1, M_bind at 1, gets at 1.
  destruct (nextID (packetIDGenerator (sender c))) as [i g'] eqn:En. injection En as <- <-.
  set (ps' := _ <$> ps). unfold mbind at 1, M_bind at 1, modify_sender, modify at 1.
  set (c1 := upd_sender _ c). unfold mbind at 1, M_bind at 1, gets at 1.
  unfold mbind at 1, M_bind at 1. destruct (rt_insert ps' _ prio c1) as [[b c2]|] eqn:E; [|done].
  intros E'. assert (unacked c' = unacked c2) as ->.
  { eapply (respects_mapM (same unacked)); [|exact E']. intros. apply send_unacked. }
  apply rt_insert_unacked in E as [H1 H2].
  destruct ps as [|p ps]; [done|]. destruct (H2 _ eq_refl) as [H3 H4]. done.
Qed.

Definition n_unacked (c : Connection) : Z := Z.of_nat (size (window (retrier (sender c)))).

Lemma n_unacked_size c : n_unacked c = Z.of_nat (size (unacked c)).
Proof. unfold n_unacked, unacked. by rewrite size_dom. Qed.

Lemma sendReliably_n_unacked p a c c' :
  sendReliably p a c = Some (tt, c') → n_unacked c ≤ n_unacked c' ≤ n_unacked c + 1.
Proof.
  intros E. apply sendReliablyMultipath_unacked in E as (H1&H2&_); [|done].
  rewrite !n_unacked_size. apply subseteq_size in H1, H2.
  pose proof (size_union_alt {[packetIDGenerator (sender c)]} (unacked c)) as Hu.
  rewrite size_singleton in Hu.
  pose proof (subseteq_size (unacked c ∖ {[packetIDGenerator (sender c)]}) (unacked c) ltac:(set_solver)).
  lia.
Qed.

Lemma upd_dataQueue_eta r c : upd_sender (set_dataQueue r (queue_of r (sender c))) c = c.
Proof. by destruct r, c as [? ? ? ? ? ? [] ? ? ? ? ? ? ? ? ? ?]. Qed.

Lemma wp_dequeue r level Q c :
  compressionBuffer (queue_of r (sender c)) = [] →
  ((status (queue_of r (sender c)) = OPEN → SendQueue.queue (queue_of r (sender c)) = []) → Q None c) →
  (∀ p rest, SendQueue.queue (queue_of r (sender c)) = p :: rest →
    Q (Some p) (upd_sender (set_dataQueue r (set_queue rest (queue_of r (sender c)))) c)) →
  wp (on_queue r (dequeue level)) Q c.
Proof.
  intros Hb Hn Hs. unfold wp, on_queue. rewrite dequeue_uncompressed by done.
  case_decide as Ho; [rewrite upd_dataQueue_eta; apply Hn; congruence|].
  destruct (SendQueue.queue _) as [|p rest]; [rewrite upd_dataQueue_eta; by apply Hn|by apply Hs].
Qed.

(** Taking the front packet out of a queue keeps the invariant. *)
Lemma dequeued_inv r p rest c :
  conn_inv c → SendQueue.queue (queue_of r (sender c)) = p :: rest →
  let c' := upd_sender (set_dataQueue r (set_queue rest (queue_of r (sender c)))) c in
  packet_wf p ∧ conn_inv c' ∧ evolves c c'.
Proof.
  intros Hc Eq c'. assert (sq_ok (queue_of r (sender c))) as Hq by (destruct r; apply Hc).
  destruct (sq_ok_tail _ p rest Hq Eq) as [Hp Hq']. split; [done|].
  split; [|split; simpl; try done; lia]. split; simpl; try apply Hc; destruct r; apply Hc || done.
Qed.

(** *** What one reliable packet does *)

(** The [k]th packet from now on, as it waits for its acknowledgement. *)
Definition posted (c : Connection) (k : nat) (p : Packet) : Packet :=
  set_id (set_type p DATA_RELIABLE) (u16 (packetIDGenerator (sender c) + Z.of_nat k)).

(** Packets as they go on the wire, and as what waits for their acknowledgement: a packet whose id
    is still waited for is not remembered. *)
Definition on_the_wire (c : Connection) (ps : list Packet) : list (Packet * option Address) :=
  imap (λ k p, (set_connection (posted c k p) (remoteID c), None)) ps.
Definition waiting (c : Connection) (ps : list Packet) : gmap Z (MultiPacketPath * Z * Z * bool) :=
  if decide (rt_status (retrier (sender c)) = CLOSED) then ∅
  else list_to_map (imap (λ k p, (h_id (p_header (posted c k p)), ([mkPacketPath (posted c k p) None], clock c, 0, false))) ps).

Lemma rt_insert_effect p now c b c' :
  rt_insert [p] now false c = Some (b, c') →
  cores c' = cores c ∪ (if decide (rt_status (retrier (sender c)) = CLOSED) then ∅
    else {[h_id (p_header (pp_packet p)) := ([p], now, 0, false)]}) ∧
  transmissions c' = transmissions c ∧ packetIDGenerator (sender c') = packetIDGenerator (sender c).
Proof.
  unfold rt_insert. intros (?&?&[= <- <-]&E)%bind_some. case_decide as Ho.
  { injection E as <- <-. by rewrite map_union_empty. }
  apply bind_some in E as ([]&c1&[= <-]&E). apply bind_some in E as ([]&c2&E&[= <- <-]).
  set (i := h_id _) in *. set (c1 := upd_sender _ c) in *.
  assert (same (λ c, (transmissions c, packetIDGenerator (sender c))) c1 c2) as [= Et Eg].
  { eapply (respects_when (same _)); [|exact E].
    unfold recalculateRetryTimeout, getNextRetry, set_retry, modify_retrier, modify_sender, emit. frame.
    all: unfold same, transmissions; simpl; by rewrite omap_app, app_nil_r. }
  assert (cores c2 = cores c1) as -> by (eapply (respects_when (same cores)); [apply recalculateRetryTimeout_cores|exact E]).
  rewrite Et, Eg. split_and!; [|done|done]. unfold cores. simpl.
  destruct (window (retrier (sender c)) !! i) as [x|] eqn:Ex.
  - symmetry. eapply union_singleton_r. by rewrite lookup_fmap, Ex.
  - rewrite fmap_insert. apply insert_union_singleton_r. by rewrite lookup_fmap, Ex.
Qed.

Lemma send__effect p a c c' :
  remoteID c ≠ 0 → send_ p a c = Some (tt, c') →
  transmissions c' = transmissions c ++ [(set_connection p (remoteID c), a)].
Proof.
  intros Hr. unfold send_. intros (?&?&[= <- <-]&([]&c1&E&(?&?&[= <- <-]&Ep)%bind_some)%bind_some)%bind_some.
  change (h_connection _) with (remoteID c) in E. rewrite (proj2 (Z.eqb_neq _ _) Hr) in E. injection E as <-.
  apply pr_on_quiet in Ep. unfold same in Ep. rewrite Ep. unfold transmissions. simpl. by rewrite omap_app.
Qed.

(** Data goes through the handshake's hook as it is. *)
Lemma send_effect p a c c' :
  remoteID c ≠ 0 → h_type (p_header p) = DATA_RELIABLE → send p a c = Some (tt, c') →
  transmissions c' = transmissions c ++ [(set_connection p (remoteID c), a)] ∧
  cores c' = cores c ∧ packetIDGenerator (sender c') = packetIDGenerator (sender c).
Proof.
  intros Hr Ht E.
  assert (same (λ c, (cores c, packetIDGenerator (sender c))) c c') as [= -> ->].
  { revert E. unfold send, send_, modify_statistics, pr_on, recalculateProbeTimeout, registerTimeout, emit.
    match goal with |- ?m c = _ → _ => assert (respects (same (λ c, (cores c, packetIDGenerator (sender c)))) m) as Hm by frame end.
    apply Hm. }
  split_and!; [|done..]. unfold send in E. apply bind_some in E as ([]&c1&[= <-]&E).
  apply bind_some in E as (?&?&[= <- <-]&E). apply bind_some in E as ([p' d]&c2&El&E).
  unfold lift, ho_onSend in El. rewrite Ht in El. injection El as <- <- <-.
  exact (send__effect p a (set_statistics (st_onSend p (statistics c)) c) c' Hr E).
Qed.

Lemma sendReliably_effect p c c' :
  remoteID c ≠ 0 → in_u 16 (packetIDGenerator (sender c)) → sendReliably (set_type p DATA_RELIABLE) None c = Some (tt, c') →
  transmissions c' = transmissions c ++ on_the_wire c [p] ∧
  cores c' = cores c ∪ waiting c [p] ∧
  packetIDGenerator (sender c') = u16 (packetIDGenerator (sender c) + 1).
Proof.
  intros Hr Hg. unfold sendReliably, sendReliablyMultipath. intros (?&?&[= <- <-]&E)%bind_some.
  unfold nextID in E. cbv beta iota zeta in E. apply bind_some in E as ([]&c1&[= <-]&E).
  apply bind_some in E as (?&?&[= <- <-]&E). apply bind_some in E as (b&c2&E1&E). cbn [fmap list_fmap pp_packet pp_address] in E1, E.
  pose proof (rt_insert_frame _ _ _ _ _ _ E1) as Hf. unfold same, tx_frame in Hf. injection Hf as Hr2 _.
  apply rt_insert_effect in E1 as (Hc2&Ht2&Hg2).
  cbn [mapM_] in E. apply bind_some in E as ([]&c3&E&[= <-]).
  cbn [pp_packet pp_address] in E. apply send_effect in E as (Ht3&Hc3&Hg3); [|by rewrite Hr2|done].
  assert (posted c 0 p = set_id (set_type p DATA_RELIABLE) (packetIDGenerator (sender c))) as Ep.
  { unfold posted. by rewrite Z.add_0_r, (wrap_small 16). }
  unfold on_the_wire, waiting. cbn [imap]. rewrite Ep. split_and!.
  - by rewrite Ht3, Ht2, Hr2.
  - rewrite Hc3, Hc2. reflexivity.
  - by rewrite Hg3, Hg2.
Qed.

(** Sending one packet and then more is sending them all. *)
Lemma posted_next c c1 k p :
  packetIDGenerator (sender c1) = u16 (packetIDGenerator (sender c) + 1) → posted c1 k p = posted c (S k) p.
Proof. unfold posted. intros ->. rewrite wrap_wrap_add. do 2 f_equal. lia. Qed.

Lemma sent_next c c1 p ps :
  packetIDGenerator (sender c1) = u16 (packetIDGenerator (sender c) + 1) → remoteID c1 = remoteID c → clock c1 = clock c →
  rt_status (retrier (sender c1)) = rt_status (retrier (sender c)) →
  on_the_wire c (p :: ps) = on_the_wire c [p] ++ on_the_wire c1 ps ∧
  waiting c (p :: ps) = waiting c [p] ∪ waiting c1 ps.
Proof.
  intros Hg Hr Hk Hs. unfold on_the_wire, waiting. rewrite !imap_cons. simpl. rewrite Hr, Hk, Hs. split.
  - f_equal. apply imap_ext. intros k q _. simpl. by rewrite (posted_next c c1 k q Hg).
  - case_decide; [by rewrite map_union_empty|]. rewrite <-insert_union_l, map_empty_union. do 2 f_equal.
    apply imap_ext. intros k q _. pose proof (posted_next c c1 k q Hg) as E.
    pose proof (f_equal (λ p, h_id (p_header p)) E) as Ei. simpl in *. by rewrite E, Ei.
Qed.

(** How the reliable loop ends. *)
Definition reliable_loop_post (c c' : Connection) : Prop :=
  (∃ ps, SendQueue.queue (dataQueue (sender c)) = ps ++ SendQueue.queue (dataQueue (sender c')) ∧
     (remoteID c ≠ 0 → transmissions c' = transmissions c ++ on_the_wire c ps ∧ cores c' = cores c ∪ waiting c ps)) ∧
  n_unacked c ≤ n_unacked c' ≤ Z.max (n_unacked c) (windowSize (sender c)) ∧
  (status (dataQueue (sender c)) = OPEN →
   SendQueue.queue (dataQueue (sender c')) = [] ∨ windowSize (sender c) ≤ n_unacked c').

Lemma reliable_loop_none c :
  (status (dataQueue (sender c)) = OPEN → SendQueue.queue (dataQueue (sender c)) = [] ∨ windowSize (sender c) ≤ n_unacked c) →
  reliable_loop_post c c.
Proof.
  intros He. split_and!; [|lia|lia|done]. exists []. split; [done|]. intros _.
  unfold on_the_wire, waiting. simpl. rewrite app_nil_r. split; [done|].
  by destruct (decide _); rewrite map_union_empty.
Qed.

Lemma reliable_loop_cons c c1 c2 c3 p rest :
  in_u 16 (packetIDGenerator (sender c)) → n_unacked c < windowSize (sender c) →
  SendQueue.queue (dataQueue (sender c)) = p :: rest →
  c1 = upd_sender (set_dataQueue RELIABLE (set_queue rest (dataQueue (sender c)))) c →
  sendReliably (set_type p DATA_RELIABLE) None c1 = Some (tt, c2) →
  reliable_loop_post c2 c3 → reliable_loop_post c c3.
Proof.
  intros Hg Hw Eq -> E ((ps&Eps&Hps)&Hn3&Hend). set (c1 := upd_sender _ c) in E.
  pose proof (sendReliably_n_unacked _ _ _ _ E) as Hn2. change (n_unacked c1) with (n_unacked c) in Hn2.
  assert (remoteID c2 = remoteID c ∧ clock c2 = clock c ∧ windowSize (sender c2) = windowSize (sender c) ∧
    dataQueue (sender c2) = set_queue rest (dataQueue (sender c)) ∧
    rt_status (retrier (sender c2)) = rt_status (retrier (sender c))) as (Er&Ek&Ew&Ed&Es).
  { pose proof (sendReliably_frame _ _ _ _ _ E) as Hf. unfold same, tx_frame in Hf. simplify_eq. done. }
  rewrite Ed in *. rewrite Ew in *. split_and!; [|lia|lia|exact Hend].
  exists (p :: ps). split; [by rewrite Eq; simpl; f_equal; rewrite <-Eps|]. intros Hr.
  apply sendReliably_effect in E as (Ht&Hco&Hgen); [|done|done].
  destruct (sent_next c c2 p ps) as [-> ->]; [done..|]. destruct Hps as [-> ->]; [congruence|].
  rewrite Ht, Hco. by rewrite app_assoc, (assoc_L (∪)).
Qed.

Lemma processReliableDataQueue_loop_spec fuel c :
  conn_inv c → (length (SendQueue.queue (dataQueue (sender c))) < fuel)%nat →
  wp (processReliableDataQueue_loop fuel)
    (λ _ c', (conn_inv c' ∧ evolves c c') ∧ reliable_loop_post c c') c.
Proof.
  revert c. induction fuel as [|fuel IH]; intros c Hc Hf; [lia|].
  cbn [processReliableDataQueue_loop]. unfold numUnacked. wp_steps. fold (n_unacked c).
  destruct (Z.ltb_spec (n_unacked c) (windowSize (sender c))) as [Hw|Hw]; cycle 1.
  { wp_steps. split; [done|]. apply reliable_loop_none. by right. }
  wp_steps. apply wp_dequeue; [apply (ci_reliable _ Hc)| |].
  { intros He. wp_steps. split; [done|]. apply reliable_loop_none. intros ?%He. by left. }
  intros p rest Eq. destruct (dequeued_inv RELIABLE p rest c Hc Eq) as (Hp&Hc1&He1).
  cbn [queue_of] in *. set (c1 := upd_sender _ c) in *. cbv beta iota. apply wp_bind.
  pose proof (safe_sendReliably (set_type p DATA_RELIABLE) None c1 Hp Hc1) as Hs.
  apply wp_some in Hs as ([]&c2&E&Hc2&He2). unfold wp at 1. rewrite E.
  assert (dataQueue (sender c2) = dataQueue (sender c1)) as Hd2.
  { pose proof (sendReliably_frame _ _ _ _ _ E) as Hf2. unfold same, tx_frame in Hf2. simplify_eq. done. }
  eapply wp_mono; [apply (IH c2); [done|]|].
  { rewrite Hd2. simpl. rewrite Eq in Hf. simpl in Hf. lia. }
  intros [] c3 ([Hc3 He3]&Hpost). split; [split; [done|by do 2 (etrans; [done|])]|].
  by eapply (reliable_loop_cons c c1 c2); [apply Hc|..].
Qed.

Lemma safe_processReliableDataQueue c : safe processReliableDataQueue c.
Proof.
  unfold processReliableDataQueue. apply safe_mget. destruct (negb _); [apply safe_ret|]. intros Hc.
  eapply wp_mono; [apply processReliableDataQueue_loop_spec; [done|unfold queue_fuel; lia]|].
  by intros [] c' [? _].
Qed.

Lemma processUnreliableDataQueue_loop_spec fuel c :
  conn_inv c → (length (SendQueue.queue (unreliableDataQueue (sender c))) < fuel)%nat →
  wp (processUnreliableDataQueue_loop fuel)
    (λ _ c', (conn_inv c' ∧ evolves c c') ∧
      (status (unreliableDataQueue (sender c)) = OPEN →
       SendQueue.queue (unreliableDataQueue (sender c')) = [])) c.
Proof.
  revert c. induction fuel as [|fuel IH]; intros c Hc Hf; [lia|].
  cbn [processUnreliableDataQueue_loop]. wp_steps. apply wp_dequeue; [apply (ci_unreliable _ Hc)| |].
  { intros He. by wp_steps. }
  intros p rest Eq. destruct (dequeued_inv UNRELIABLE p rest c Hc Eq) as (Hp&Hc1&He1).
  cbn [queue_of] in *. set (c1 := upd_sender _ c) in *. cbv beta iota. apply wp_bind.
  pose proof (safe_send (set_type p DATA_UNRELIABLE) None c1 Hp Hc1) as Hs.
  apply wp_some in Hs as ([]&c2&E&Hc2&He2). unfold wp at 1. rewrite E.
  pose proof (send_frame _ _ _ _ _ E) as Hf2.
  assert (unreliableDataQueue (sender c2) = unreliableDataQueue (sender c1)) as Hd2.
  { unfold same, tx_frame in Hf2. simplify_eq. done. }
  eapply wp_mono; [apply (IH c2); [done|]|].
  { rewrite Hd2. simpl. rewrite Eq in Hf. simpl in Hf. lia. }
  intros [] c3 ([Hc3 He3]&Hend). rewrite Hd2 in Hend.
  split; [split; [done|by do 2 (etrans; [done|])]|done].
Qed.

Lemma encode_Ack_enqueue_ok a : enqueue_ok ACK_FRAME (encode_Ack a) MRUDP_COALESCE_PACKET.
Proof. split_and!; [done|done|]. left. rewrite encode_Ack_length. by vm_compute. Qed.

Lemma safe_queueDelayedAcks c : safe queueDelayedAcks c.
Proof.
  unfold queueDelayedAcks. apply safe_gets, safe_gets.
  destruct (delayedAcks (sender c)) as [|a acks]; [apply safe_ret|]. apply safe_bind.
  - apply safe_sender; [done|done|]. intros Hc. split_and!; apply Hc.
  - intros _ c' _ _. apply safe_mapM. intros x c2 _ _. apply safe_on_queue. intros Hq.
    apply sq_ok_enqueue; [done|apply encode_Ack_enqueue_ok].
Qed.

Lemma safe_processUnreliableDataQueue c : safe processUnreliableDataQueue c.
Proof.
  unfold processUnreliableDataQueue. apply safe_mget. destruct (isReadyToSend c).
  - apply safe_bind; [apply safe_queueDelayedAcks|]. intros _ c1 _ _. apply safe_mget. intros Hc1.
    eapply wp_mono; [apply processUnreliableDataQueue_loop_spec; [done|unfold queue_fuel; lia]|].
    by intros [] c' [? _].
  - apply safe_on_queue. intros Hq. apply wp_modify. by apply (sq_ok_empty (unreliableDataQueue (sender c)) (status (unreliableDataQueue (sender c)))).
Qed.

Lemma safe_processDataQueue r c : safe (processDataQueue r) c.
Proof. destruct r; [apply safe_processUnreliableDataQueue|apply safe_processReliableDataQueue]. Qed.

Lemma safe_set_schedule r sc c : safe (modify_sender (set_schedule r sc)) c.
Proof. apply safe_sender; [done|done|]. intros Hc. split_and!; apply Hc. Qed.

Lemma safe_scheduleDataQueueProcessing r immediate c : safe (scheduleDataQueueProcessing r immediate) c.
Proof.
  unfold scheduleDataQueueProcessing. apply safe_gets. destruct (_ =? _); [apply safe_processDataQueue|].
  apply safe_gets, safe_gets. case_match; [|apply safe_ret]. apply safe_bind; [apply safe_set_schedule|].
  intros _ c' _ _. apply safe_when. intros _. by apply safe_emit.
Qed.

Lemma safe_processSchedule r c : safe (processSchedule r) c.
Proof.
  unfold processSchedule. apply safe_gets. destruct (running _); [apply safe_ret|].
  apply safe_bind; [apply safe_set_schedule|]. intros _ c1 _ _.
  apply safe_bind; [apply safe_processDataQueue|]. intros _ c2 _ _. apply safe_gets.
  apply safe_bind; [apply safe_set_schedule|]. intros _ c3 _ _.
  destruct (sc_when _); [by apply safe_emit|apply safe_ret].
Qed.

Lemma safe_s_enqueue typeID data r m c : enqueue_ok typeID data m → safe (s_enqueue typeID data r m) c.
Proof.
  intros He. unfold s_enqueue. apply safe_bind.
  - apply safe_on_queue. intros Hq. by apply sq_ok_enqueue.
  - intros _ c1 _ _. apply safe_mget, safe_when. intros _. apply safe_scheduleDataQueueProcessing.
Qed.

Lemma safe_s_open c : safe s_open c.
Proof.
  unfold s_open. apply safe_bind.
  - apply safe_sender; [by case_decide|case_decide as E; [by rewrite E|done]|].
    intros Hc. case_decide; split_and!; apply Hc.
  - intros _ c1 _ _. apply safe_bind; [apply safe_scheduleDataQueueProcessing|]. intros _ c2 _ _.
    apply safe_scheduleDataQueueProcessing.
Qed.

Lemma safe_s_send data r c : Z.of_nat (length data) < 2 ^ 31 → safe (s_send data r) c.
Proof.
  intros Hlen. apply safe_inv. intros Hc. unfold s_send. apply safe_mget. case_decide; [apply safe_ret|].
  set (m := mode _). destruct (_ && _) eqn:E; [apply safe_ret|].
  apply safe_bind; [|intros; apply safe_ret]. apply safe_s_enqueue. split_and!; [done| |].
  - unfold m. destruct r; apply (ci_uncompressed _ Hc).
  - assert (m ≠ MRUDP_COALESCE_STREAM_COMPRESSED) by (unfold m; destruct r; apply (ci_uncompressed _ Hc)).
    destruct (decide (m = MRUDP_COALESCE_STREAM)); [by right|left].
    rewrite !(proj2 (Z.eqb_neq _ _)), !andb_true_r in E by done. by apply Z.ltb_ge in E.
Qed.

Lemma status_rank_bound s : 0 ≤ status_rank s ≤ 2.
Proof. destruct s; simpl; lia. Qed.

Lemma safe_set_shut c : safe (modify_sender (set_s_status SHUT)) c.
Proof.
  apply safe_sender; [done|simpl; pose proof (status_rank_bound (s_status (sender c))); lia|].
  intros Hc. split_and!; apply Hc.
Qed.

Lemma safe_s_close c : safe s_close c.
Proof.
  unfold s_close. apply safe_mget. case_decide; [apply safe_ret|]. apply safe_bind.
  - apply safe_s_enqueue. split_and!; [done|done|]. by left.
  - intros _ c1 _ _. apply safe_set_shut.
Qed.

Lemma safe_queue_close r c : safe (on_queue r SendQueue.close) c.
Proof.
  apply safe_on_queue. intros Hq. apply wp_modify. case_decide; [done|].
  pose proof Hq as [_ ->]. by apply (sq_ok_empty _ CLOSED).
Qed.

Lemma safe_s_fail c : safe s_fail c.
Proof.
  unfold s_fail. apply safe_bind.
  - apply safe_sender; [by case_decide| |intros Hc; case_decide; split_and!; apply Hc].
    pose proof (status_rank_bound (s_status (sender c))). case_decide; simpl; lia.
  - intros _ c1 _ _. apply safe_bind; [apply safe_rt_close|]. intros _ c2 _ _.
    apply safe_bind; [apply safe_queue_close|]. intros _ c3 _ _. apply safe_queue_close.
Qed.

Lemma safe_s_ack packetID c : safe (s_ack packetID) c.
Proof.
  unfold s_ack. apply safe_gets. apply safe_bind.
  - apply safe_sender; [done|done|]. intros Hc. split_and!; apply Hc.
  - intros _ c1 _ _. apply safe_scheduleDataQueueProcessing.
Qed.

(** ** Closing *)

(** The handler is called exactly when the user's data was not yet disposed. *)
Lemma safe_closeUser event c : safe (closeUser event) c.
Proof.
  unfold closeUser. apply safe_mget. destruct (userDataDisposed c) eqn:Hd; [apply safe_ret|].
  intros Hc. apply wp_bind, wp_modify. unfold when, emit. destruct (closeHandler c); [apply wp_modify|].
  - split; [split; simpl; try apply Hc; try done|split; simpl; try done; rewrite ?Hd; try lia].
    + by eexists.
    + rewrite n_closed_snoc. simpl. lia.
  - split; [split; simpl; try apply Hc; try done|split; simpl; try done; rewrite ?Hd; simpl; try lia].
Qed.

Lemma safe_finishWhenReady c : safe finishWhenReady c.
Proof.
  apply safe_inv. intros Hc. unfold finishWhenReady. apply safe_mget.
  destruct (toDuration_linger _ (ci_rtt _ Hc)) as (d&Hd&_). eapply safe_lift; [done|]. by apply safe_emit.
Qed.

Lemma safe_close_event event c : safe (close_event event) c.
Proof.
  unfold close_event. apply safe_mget. destruct (closed c) eqn:Ec; [apply safe_ret|]. apply safe_bind.
  - step_fields.
  - intros _ c1 _ _. apply safe_bind; [apply safe_closeUser|]. intros _ c2 _ _. apply safe_finishWhenReady.
Qed.

Lemma safe_possiblyClose c : safe possiblyClose c.
Proof.
  unfold possiblyClose. apply safe_mget. destruct (closed c); [apply safe_ret|].
  destruct (_ && _); [apply safe_close_event|apply safe_ret].
Qed.

Lemma safe_onAck ack c : safe (onAck ack) c.
Proof.
  unfold onAck. apply safe_gets. apply safe_bind; [apply safe_rt_ack|]. intros res c1 _ _.
  apply safe_bind.
  - apply safe_when. intros _. apply safe_bind.
    + apply safe_sender; [done|done|]. intros Hc. split_and!; try apply Hc. apply calculate_ok.
    + intros _ c2 _ Hc2. apply safe_gets.
      destruct (WindowSize_onSample_ok _ (ci_rtt _ Hc2)) as (w&Ew&Hw). eapply safe_lift; [done|].
      apply safe_bind; [apply safe_sender; [done|done|]; intros Hc; split_and!; try apply Hc; apply Hw|].
      intros _ c3 _ _. apply safe_when. intros _. apply safe_recalculateRetryTimeout.
  - intros _ c2 _ _. apply safe_bind; [apply safe_scheduleDataQueueProcessing|]. intros _ c3 _ _.
    apply safe_possiblyClose.
Qed.

Lemma safe_s_onReceive packet c : safe (s_onReceive packet) c.
Proof.
  unfold s_onReceive, onAck_packet. destruct (isAck _); [apply safe_onAck|].
  destruct (_ =? CLOSE_READ); [|apply safe_ret]. apply safe_bind; [apply safe_s_fail|].
  intros _ c1 _ _. apply safe_possiblyClose.
Qed.
End loops.

(** ** Claims *)

(** C14: the send window. In every well-formed state, processing the reliable queue ends. The packets
    it takes are a front part of the queue; if the sender is ready they all go on the wire, in order,
    once each, typed and numbered consecutively from the generator's id, and they wait for their
    acknowledgement from now on (a packet whose id is still waited for is sent but not remembered;
    nothing is remembered by a closed retrier). Then at most as many packets wait as the window
    allows (or as waited before, if that was more), and a ready sender with an open queue stops only
    because the queue is empty or the window is full. A sender that is not ready does nothing. *)
Theorem send_window `{!Zlib} (c : Connection) :
  conn_inv c →
  ∃ c' ps, processReliableDataQueue c = Some (tt, c') ∧ conn_inv c' ∧
    SendQueue.queue (dataQueue (sender c)) = ps ++ SendQueue.queue (dataQueue (sender c')) ∧
    n_unacked c ≤ n_unacked c' ≤ Z.max (n_unacked c) (windowSize (sender c)) ∧
    (isReadyToSend c = true →
     transmissions c' = transmissions c ++ on_the_wire c ps ∧ cores c' = cores c ∪ waiting c ps ∧
     (status (dataQueue (sender c)) = OPEN →
      SendQueue.queue (dataQueue (sender c')) = [] ∨ windowSize (sender c) ≤ n_unacked c')) ∧
    (isReadyToSend c = false → c' = c).
Proof.
  intros Hc. unfold processReliableDataQueue, mbind, M_bind, mget.
  destruct (isReadyToSend c) eqn:Er; cbn [negb].
  - pose proof (processReliableDataQueue_loop_spec (queue_fuel (dataQueue (sender c))) c Hc
      ltac:(unfold queue_fuel; lia)) as Hw.
    apply wp_some in Hw as ([]&c'&E&[Hc' _]&(ps&Hq&Hps)&Hn&Hend). exists c', ps.
    apply andb_true_iff in Er as [_ Er%Z.ltb_lt]. destruct Hps as [Ht Hco]; [lia|].
    split_and!; try done; lia.
  - exists c, []. split_and!; try done; lia.
Qed.

(** A connection whose handshake is complete, with five one-packet sends queued. *)
Definition sending_connection : Connection :=
  set_remoteID 9 (upd_sender (set_s_status OPENED) example_connection).

#[local] Existing Instance Zlib_stored.
#[local] Existing Instance ZlibLaws_stored.

Definition five_sends : C unit :=
  mapM_ (λ b, on_queue RELIABLE (SendQueue.enqueue DATA [b] MRUDP_COALESCE_NONE))
    [Byte.x01; Byte.x02; Byte.x03; Byte.x04; Byte.x05].
Definition queued_connection : Connection :=
  match five_sends sending_connection with Some (_, c) => c | None => sending_connection end.

Lemma safe_five_sends c : safe five_sends c.
Proof.
  apply safe_mapM. intros b c1 _ _. apply safe_on_queue. intros Hq.
  apply sq_ok_enqueue; [done|]. split_and!; [done|done|]. by left.
Qed.

Lemma after_inv (m : C unit) c :
  safe m c → conn_inv c → conn_inv (match m c with Some (_, c') => c' | None => c end).
Proof. intros Hs Hc. specialize (Hs Hc). unfold wp in Hs. by destruct (m c) as [[[] c']|]; [destruct Hs|]. Qed.

Lemma sending_connection_inv : conn_inv sending_connection.
Proof. destruct example_connection_inv. by split. Qed.

Lemma queued_connection_inv : conn_inv queued_connection.
Proof. exact (after_inv _ _ (safe_five_sends _) sending_connection_inv). Qed.

(** Of the five packets the initial window lets three out. *)
Lemma send_window_witness :
  ∃ c' ps, processReliableDataQueue queued_connection = Some (tt, c') ∧
    length ps = 3%nat ∧ length (SendQueue.queue (dataQueue (sender c'))) = 2%nat ∧ n_unacked c' = 3 ∧
    transmissions c' = transmissions queued_connection ++ on_the_wire queued_connection ps ∧
    cores c' = cores queued_connection ∪ waiting queued_connection ps.
Proof.
  destruct (send_window queued_connection queued_connection_inv) as (c'&ps&E&_&Hq&_&Hr&_).
  assert ((λ r, (length (SendQueue.queue (dataQueue (sender r.2))), n_unacked r.2)) <$>
    processReliableDataQueue queued_connection = Some (2%nat, 3)) as Hn by (vm_compute; reflexivity).
  rewrite E in Hn. injection Hn as Hl Hn. exists c', ps.
  apply (f_equal length) in Hq. rewrite length_app, Hl in Hq. change (length (SendQueue.queue _)) with 5%nat in Hq.
  destruct Hr as (Ht&Hco&_); [vm_compute; reflexivity|].
  split_and!; [exact E|lia|exact Hl|exact Hn|exact Ht|exact Hco].
Defined.
