(* ===== verification/Connection.v ===== *)
(** * The connection: [receiver/Receiver], [Handshake], [NetworkPath], [Connection]

    What happens to a packet that arrives for a connection, what the timers do, and what the
    user asks for. The reliable receive queue runs beside the connection it belongs to: its
    processor never touches the queue. *)

From S2P Require Import Prelude MemCopy Packet ReceiveQueue Types SendQueue Compression Float32 Rtt State Retrier Transmit Invariant Sender.

Section with_zlib.
Context `{!Zlib}.

(** ** Receiver *)

(** [Connection::receive(char *, int, Reliability)] *)
Definition receive_data (data : bytes) (r : Reliability) : C unit :=
  c ← mget;
  when (receiveHandler c) (emit (Received data r));;
  modify_statistics (st_onReceiveDataFrame (Z.of_nat (length data)) r).

Definition set_r_status (st : OpenStatus) (c : Connection) : Connection :=
  set_receiver (mkReceiver st (receiveQueue (receiver c)) (receiveBuffer (receiver c))) c.

Definition rc_close : C unit :=
  c ← mget;
  if decide (r_status (receiver c) = SHUT) then mret tt
  else
    when (canSend c) (sendReliably (set_type new_Packet CLOSE_READ) None);;
    modify (set_r_status SHUT).

Definition rc_fail : C unit :=
  modify (λ c, if decide (r_status (receiver c) = SHUT) then c else set_r_status SHUT c).

(** Run [processCompressed] on the receiver's buffer. *)
Definition on_receiveBuffer (m : M (bytes * Connection) unit) : C unit := λ c,
  match m (receiveBuffer (receiver c), c) with
  | Some (_, (b, c')) =>
    Some (tt, set_receiver (mkReceiver (r_status (receiver c')) (receiveQueue (receiver c')) b) c')
  | None => None
  end.

Definition processReceived (r : Reliability) (frame : Frame) : C unit :=
  let type := fh_type (f_header frame) in
  if type =? ACK_FRAME then
    if Z.of_nat (length (f_data frame)) <? 4 then ub
    else onAck (decode_Ack (f_data frame))
  else if type =? DATA then receive_data (f_data frame) r
  else if type =? DATA_COMPRESSED then
    on_receiveBuffer (processCompressed (λ data, receive_data data RELIABLE) (f_data frame))
  else if type =? CLOSE_WRITE then
    match r with RELIABLE => rc_close;; possiblyClose | UNRELIABLE => mret tt end
  else mret tt.

(** Run an operation of the reliable queue, with the connection as the processor's state. *)
Definition on_receiveQueue (m : M (ReceiveQueue * Connection) unit) : C unit := λ c,
  match m (receiveQueue (receiver c), c) with
  | Some (_, (rq, c')) =>
    Some (tt, set_receiver (mkReceiver (r_status (receiver c')) rq (receiveBuffer (receiver c'))) c')
  | None => None
  end.

(** The argument, the first packet id after the handshake, is not used. *)
Definition rc_open (packetID : Z) : C unit :=
  on_receiveQueue (processQueue (processReceived RELIABLE));;
  modify (λ c, if decide (r_status (receiver c) = UNINITIALIZED) then set_r_status OPENED c else c).

Definition requiresAck (typeID : Z) : bool :=
  (typeID =? DATA_RELIABLE) || (typeID =? PROBE) || (typeID =? CLOSE_READ).

Definition rc_onReceive (packet : Packet) : C unit :=
  c ← mget;
  if decide (r_status (receiver c) ≠ OPENED) then mret tt
  else
    let type := h_type (p_header packet) in
    when (requiresAck type) (s_ack (h_id (p_header packet)));;
    if type =? DATA_RELIABLE then on_receiveQueue (ReceiveQueue.onReceive (processReceived RELIABLE) packet)
    else if type =? DATA_UNRELIABLE then unreliable_onReceive (processReceived UNRELIABLE) packet
    else mret tt.

(** ** Handshake *)

Definition set_waitingFor (t : Z) (c : Connection) : Connection :=
  set_handshake (mkHandshake t (firstNonHandshakePacketID (handshake c))) c.

Definition initiate : C unit :=
  sendReliably (set_type new_Packet Packet.H0) None;;
  modify (set_waitingFor H1).

Definition onHandshakeComplete : C unit :=
  c ← mget;
  rc_open (firstNonHandshakePacketID (handshake c));;
  s_open.

(** The id at the end of the packet, 0 if there is none; and the packet without it. *)
Definition readRemoteID (packet : Packet) : Packet * Z :=
  match popData packet 2 with (p, Some d) => (p, le_decode d) | (p, None) => (p, 0) end.

Definition handlePacket (packet : Packet) : C Packet :=
  let received := h_type (p_header packet) in
  if received =? Packet.H0 then
    send (set_id (set_type new_Packet H1) (h_id (p_header packet))) None;;
    modify (λ c, if waitingFor (handshake c) =? Packet.H0 then set_waitingFor H2 c else c);;
    mret packet
  else if received =? H1 then
    c ← mget;
    when (waitingFor (handshake c) =? H1) (
      modify (set_waitingFor H3);;
      '(p, _) ← lift (pushData_T (set_type new_Packet H2) (le_encode 2 (localID c)));
      sendReliably p None);;
    mret packet
  else if received =? H2 then
    let '(packet, remoteID') := readRemoteID packet in
    c ← mget;
    '(ack, _) ← lift (pushData_T (set_id (set_type new_Packet H3) (h_id (p_header packet)))
                        (le_encode 2 (localID c)));
    send ack None;;
    c ← mget;
    when (waitingFor (handshake c) =? H2) (
      modify (λ c, set_handshake (mkHandshake HANDSHAKE_COMPLETE (u16 (h_id (p_header packet) + 1)))
                     (set_remoteID remoteID' c));;
      onHandshakeComplete);;
    mret packet
  else if received =? H3 then
    let '(packet, remoteID') := readRemoteID packet in
    c ← mget;
    when (waitingFor (handshake c) =? H3) (
      modify (λ c, set_waitingFor HANDSHAKE_COMPLETE (set_remoteID remoteID' c));;
      onHandshakeComplete);;
    mret packet
  else mret packet.

Definition hs_onReceive (packet : Packet) : C (Packet * PacketDiscard) :=
  if negb (isHandshake (h_type (p_header packet))) then mret (packet, Keep)
  else p ← handlePacket packet; mret (p, Keep).

(** ** NetworkPath *)

(** The seconds of the clock, a [uint64_t]. *)
Definition seconds (now : Z) : Z := wrap 64 (now `quot` 1000000000).

(** The challenge for one path: time and address (zero for the established path), and an empty
    signature. *)
Definition challenge_packet (time : Z) (address : option Address) : option Packet :=
  let basis := le_encode 8 time ++ default Address_empty address in
  '(p, _) ← pushSizedData (set_type new_Packet AUTHENTICATE_CHALLENGE) basis;
  '(p, _) ← pushSizedData p [];
  Some p.

Definition sendChallenge (address : Address) : C unit :=
  now ← gets clock;
  p1 ← lift (challenge_packet (seconds now) None);
  p2 ← lift (challenge_packet (seconds now) (Some address));
  sendReliablyMultipath [mkPacketPath p1 None; mkPacketPath p2 (Some address)] true.

Definition sendChallengeResponse (packet : Packet) : C unit :=
  let n := Z.to_nat (p_dataSize packet) in
  let ack := set_id (set_type new_Packet AUTHENTICATE_RESPONSE) (h_id (p_header packet)) in
  send (mkPacket (p_header ack) (take n (p_data packet) ++ drop n (p_data ack)) (p_dataSize packet)) None.

Definition verifyChallengeResponse (c : Connection) (packet : Packet) (path : Address) : Packet * bool :=
  match popSizedData packet with
  | (p, None) => (p, false)
  | (p, Some _) =>
    match popSizedData p with
    | (p, None) => (p, false)
    | (p, Some basis) =>
      (p, if negb (Z.of_nat (length basis) =? sizeof_Address + 8) then false
          else
            let sentTime := le_decode (take 8 basis) in
            let receivedTime := seconds (clock c) in
            let maximumAllowedTime := 60 in
            if maximumAllowedTime <? wrap 64 (receivedTime - sentTime) then false
            else
              let address := drop 8 basis in
              if Address_eqb address Address_empty then negb (Address_neqb path (remoteAddress c))
              else negb (Address_neqb address path))
    end
  end.

Definition onRemoteAddressChanged (a : Address) : C unit :=
  modify (set_remoteAddress a);; emit (AddressChanged a).

Definition np_onReceive (packet : Packet) (from : Address) : C (Packet * PacketDiscard) :=
  c ← mget;
  if h_type (p_header packet) =? AUTHENTICATE_CHALLENGE then
    sendChallengeResponse packet;; mret (packet, Keep)
  else if Address_neqb from (remoteAddress c) then
    if h_type (p_header packet) =? AUTHENTICATE_RESPONSE then
      let '(p, ok) := verifyChallengeResponse c packet from in
      if (ok : bool) then onRemoteAddressChanged from;; mret (p, Keep)
      else mret (p, Discard)
    else sendChallenge from;; mret (packet, Discard)
  else mret (packet, Keep).

(** ** Connection *)

Definition fail (event : mrudp_event_t) : C unit :=
  modify (λ c, set_closed event (closed c) c);;
  pr_close;;
  rc_fail;;
  s_fail;;
  possiblyClose.

Definition close : C unit := s_close;; rc_close;; possiblyClose.

Definition finish : C unit := emit Erased.

Definition openUser (o : option ConnectionOptions) (rh ch : bool) : C unit :=
  modify (λ c, match o with Some o => set_options (merge o (options c)) c | None => c end);;
  c ← mget;
  when (userDataDisposed c) (modify (set_user rh ch false)).

(** [status] is what [imp->open()] returns. *)
Definition open (status : Z) : C Z :=
  if mrudp_failed status then mret status
  else
    now ← gets clock;
    pr_on now;;
    mret MRUDP_OK.

Definition send_data (data : bytes) (r : Reliability) : C Z :=
  modify_statistics (st_onSendDataFrame (Z.of_nat (length data)) r);;
  s_send data r.

Definition receive (packet : Packet) (from : Address) : C unit :=
  '(packet, d) ← ho_onReceive packet;
  if decide (d = Discard) then mret tt
  else
    now ← gets clock;
    modify_statistics (st_onReceive packet);;
    '(packet, d) ← np_onReceive packet from;
    if decide (d = Discard) then mret tt
    else
      '(packet, d) ← hs_onReceive packet;
      if decide (d = Discard) then mret tt
      else
        pr_on now;;
        s_onReceive packet;;
        rc_onReceive packet.

(** ** Timers *)

(** [Probe::onTimeout] *)
Definition pr_onTimeout : C unit :=
  c ← mget;
  if decide (p_status (probe c) = CLOSED) then mret tt
  else
    let now := clock c in
    let nextProbe := nextProbeTime (probe c) in
    modify (λ c, let p := probe c in
      set_probe (mkProbe (p_status p) (nextProbeTime p) (probeInterval p) false) c);;
    if nextProbe <? now then
      pr_on now;;
      c ← mget;
      if decide (s_status (sender c) = OPENED) then sendReliably (set_type new_Packet PROBE) None
      else fail MRUDP_EVENT_TIMEOUT
    else registerTimeout nextProbe.

(** [Retrier::onRetryTimeout]; the [int16_t] maximum is converted to [size_t] for the
    comparison. *)
Definition onRetryTimeout : C unit :=
  now ← gets clock;
  next ← getNextRetry;
  match next with
  | None => mret tt
  | Some (i, retry) =>
    if retryAt retry <? now then
      o ← gets options;
      if size_t (maximum_retry_attempts o) <=? attempts retry then fail MRUDP_EVENT_TIMEOUT
      else
        set_retry i (mkRetry (paths retry) now (retryAt retry) (size_t (attempts retry + 1)) (priority_ retry));;
        mapM_ (λ p, resend (pp_packet p) (pp_address p)) (paths retry);;
        modify_sender (λ s, set_rtt (RTT_onAckFailure (rtt s)) s);;
        r ← gets (λ c, rtt (sender c));
        w ← lift (WindowSize_onSample r);
        modify_sender (set_windowSize w);;
        recalculateRetryTimeout
    else recalculateRetryTimeout
  end.

(** [mrudp_close_connection], after the handle is taken. *)
Definition user_close : C unit := close;; closeUser MRUDP_EVENT_CLOSED.
End with_zlib.

(** ** Safety *)

Section safety.
Context `{!Zlib}.

Lemma safe_receive_data data r c : safe (receive_data data r) c.
Proof.
  unfold receive_data. apply safe_mget. apply safe_bind; [|intros; apply safe_statistics].
  apply safe_when. intros Hh. unfold emit. step_fields.
  - by eexists.
  - rewrite n_closed_snoc. simpl. lia.
  - intros Hd. destruct (ci_disposed _ Hc Hd). congruence.
Qed.

Lemma safe_set_r_status st c :
  status_rank (r_status (receiver c)) ≤ status_rank st → safe (modify (set_r_status st)) c.
Proof. intros Hst. step_fields. Qed.

Lemma safe_rc_close c : safe rc_close c.
Proof.
  unfold rc_close. apply safe_mget. case_decide; [apply safe_ret|]. apply safe_bind.
  - apply safe_when. intros _. apply safe_sendReliably. apply set_header_wf, new_Packet_wf.
  - intros _ c1 _ _. apply safe_set_r_status. pose proof (status_rank_bound (r_status (receiver c1))).
    simpl. lia.
Qed.

Lemma safe_rc_fail c : safe rc_fail c.
Proof.
  unfold rc_fail. pose proof (status_rank_bound (r_status (receiver c))).
  apply safe_modify. intros Hc. case_decide; [done|]. by apply (safe_set_r_status SHUT c); [simpl; lia|].
Qed.

Lemma safe_processReceived r f c : frame_ok f → safe (processReceived r f) c.
Proof.
  intros [Ha Hd]. unfold processReceived. destruct (Z.eqb_spec (fh_type (f_header f)) ACK_FRAME) as [E|_].
  { specialize (Ha E). rewrite (proj2 (Z.ltb_ge _ _)) by lia. apply safe_onAck. }
  destruct (_ =? DATA); [apply safe_receive_data|].
  rewrite (proj2 (Z.eqb_neq _ _)) by done. destruct (_ =? CLOSE_WRITE); [|apply safe_ret].
  destruct r; [apply safe_ret|]. apply safe_bind; [apply safe_rc_close|]. intros _ c1 _ _.
  apply safe_possiblyClose.
Qed.

(** Running the queue is handing over frames, then storing the queue. *)
Lemma safe_on_receiveQueue op op_tr c :
  factors (processReceived RELIABLE) op op_tr →
  (all_frames frame_ok (receiveQueue (receiver c), []) →
   wp op_tr (λ _, all_frames frame_ok) (receiveQueue (receiver c), [])) →
  safe (on_receiveQueue op) c.
Proof.
  intros Hfac Htr Hc. specialize (Htr ltac:(split; [apply Hc|constructor])).
  specialize (Hfac (receiveQueue (receiver c)) c []). unfold wp in Htr.
  destruct (op_tr _) as [[[] [rq new]]|]; [|done]. destruct Htr as [Hq Hnew], Hfac as (new'&E&Eop).
  simpl in E, Hq, Hnew. subst new'. unfold wp, on_receiveQueue. rewrite Eop.
  assert (safe (mapM_ (processReceived RELIABLE) new) c) as Hs.
  { apply safe_mapM. intros f c' Hf _. apply safe_processReceived. by eapply Forall_elem_of. }
  specialize (Hs Hc). unfold wp in Hs. destruct (mapM_ _ new c) as [[[] c']|]; [|done].
  destruct Hs as [Hc' He']. split; [split; simpl; apply Hc' || done|].
  etrans; [done|]. split; simpl; try done; lia.
Qed.

Lemma safe_rc_open i c : safe (rc_open i) c.
Proof.
  unfold rc_open. apply safe_bind.
  - eapply safe_on_receiveQueue; [apply factors_processQueue|]. intros. by apply processQueue_kept.
  - intros _ c1 _ _. apply safe_modify. intros Hc. case_decide as E; [|done].
    apply (safe_set_r_status OPENED c1); [rewrite E; done|done].
Qed.

(** Packets whose frames the receiver can process: complete acknowledgements, no compressed
    frames and, on the unreliable path, nothing but whole frames. *)
Definition data_packet_ok (p : Packet) : Prop :=
  packet_wf p ∧
  (h_type (p_header p) = DATA_RELIABLE → Forall frame_ok (parse_frames (payload p))) ∧
  (h_type (p_header p) = DATA_UNRELIABLE →
   ∃ fs, payload p = encode_Frames fs ∧ Forall frame_wf fs ∧ Forall frame_ok fs).

Lemma safe_rc_onReceive p c : data_packet_ok p → safe (rc_onReceive p) c.
Proof.
  intros (Hp&Hr&Hu). unfold rc_onReceive. apply safe_mget. case_decide; [apply safe_ret|].
  apply safe_bind; [apply safe_when; intros _; apply safe_s_ack|]. intros _ c1 _ _.
  destruct (Z.eqb_spec (h_type (p_header p)) DATA_RELIABLE) as [E|_].
  { eapply safe_on_receiveQueue; [apply factors_onReceive|]. intros. apply onReceive_kept; auto. }
  destruct (Z.eqb_spec (h_type (p_header p)) DATA_UNRELIABLE) as [E|_]; [|apply safe_ret].
  destruct (Hu E) as (fs&Epay&Hwf&Hok). intros Hc.
  pose proof (unreliable_onReceive_encoded (processReceived UNRELIABLE) p fs c1 Hp Hwf Epay) as Eq.
  unfold wp. rewrite Eq. apply safe_mapM; [|done]. intros f c2 Hf _. apply safe_processReceived.
  by eapply Forall_elem_of.
Qed.

(** ** Handshake *)

(** What reading a packet leaves of it. *)
Definition popped (p p' : Packet) : Prop :=
  packet_wf p' ∧ p_header p' = p_header p ∧
  (h_type (p_header p) = DATA_RELIABLE ∨ h_type (p_header p) = DATA_UNRELIABLE → p' = p).

Lemma popped_data_ok p p' : data_packet_ok p → popped p p' → data_packet_ok p'.
Proof.
  intros (Hp&Hr&Hu) (Hp'&Hh&He). split_and!; [done|..]; rewrite Hh; intros Ht.
  - rewrite He by (by left). by apply Hr.
  - rewrite He by (by right). by apply Hu.
Qed.

Lemma popped_refl p : packet_wf p → popped p p.
Proof. by intros. Qed.

Lemma popped_trans p1 p2 p3 : popped p1 p2 → popped p2 p3 → popped p1 p3.
Proof.
  intros (?&Hh&He) (?&Hh'&He'). split_and!; [done|congruence|]. intros Ht.
  rewrite He' by (by rewrite Hh). by apply He.
Qed.

Lemma popData_popped p n :
  packet_wf p → 0 ≤ n → h_type (p_header p) ≠ DATA_RELIABLE → h_type (p_header p) ≠ DATA_UNRELIABLE →
  popped p (popData p n).1.
Proof.
  intros Hp Hn H1 H2. destruct (decide (n ≤ p_dataSize p)) as [Hle|Hgt].
  - destruct (popData_some p n Hp ltac:(lia)) as (p'&E&Hp'&_&Hh&_). rewrite E. split_and!; [done|done|].
    by intros [].
  - rewrite popData_none by lia. by apply popped_refl.
Qed.

Lemma popSizedData_popped p :
  packet_wf p → h_type (p_header p) ≠ DATA_RELIABLE → h_type (p_header p) ≠ DATA_UNRELIABLE →
  popped p (popSizedData p).1.
Proof.
  intros Hp H1 H2. unfold popSizedData. pose proof (popData_popped p 2 Hp ltac:(lia) H1 H2) as Hpop.
  destruct (popData p 2) as [p1 [d|]]; [|done]. simpl in Hpop.
  eapply popped_trans; [done|]. destruct Hpop as (?&Hh&_).
  apply popData_popped; [done|apply le_decode_range|congruence|congruence].
Qed.

Lemma safe_set_handshake f c : safe (modify (λ c, set_handshake (f c) c)) c.
Proof. step_fields. Qed.

Lemma safe_initiate c : safe initiate c.
Proof.
  unfold initiate. apply safe_bind; [apply safe_sendReliably, set_header_wf, new_Packet_wf|].
  intros _ c1 _ _. apply (safe_set_handshake (λ c, mkHandshake _ _)).
Qed.

Lemma safe_onHandshakeComplete c : safe onHandshakeComplete c.
Proof.
  unfold onHandshakeComplete. apply safe_mget. apply safe_bind; [apply safe_rc_open|].
  intros _ c1 _ _. apply safe_s_open.
Qed.

(** A control packet with an id pushed onto it. *)
Lemma control_packet t i z :
  ∃ p, pushData_T (set_id (set_type new_Packet t) i) (le_encode 2 z) = Some (p, true) ∧ packet_wf p.
Proof.
  destruct (pushData_T_defined (set_id (set_type new_Packet t) i) (le_encode 2 z)) as (p&?&?&_).
  - apply set_header_wf, set_header_wf, new_Packet_wf.
  - by vm_compute.
  - eauto.
Qed.

Lemma readRemoteID_popped p :
  packet_wf p → h_type (p_header p) ≠ DATA_RELIABLE → h_type (p_header p) ≠ DATA_UNRELIABLE →
  popped p (readRemoteID p).1.
Proof.
  intros Hp H1 H2. unfold readRemoteID. pose proof (popData_popped p 2 Hp ltac:(lia) H1 H2) as Hpop.
  by destruct (popData p 2) as [p1 [d|]].
Qed.

Lemma safe_complete f c :
  (∀ c, ∃ h i, f c = set_handshake h (set_remoteID i c)) → safe (modify f;; onHandshakeComplete) c.
Proof.
  intros Hf. apply safe_bind.
  - destruct (Hf c) as (h&i&E). apply safe_modify. intros Hc. rewrite E.
    split; [split; simpl; apply Hc || done|split; simpl; try done; lia].
  - intros _ c1 _ _. apply safe_onHandshakeComplete.
Qed.

Lemma safe_handlePacket p c : packet_wf p → safe_returns (handlePacket p) (popped p) c.
Proof.
  intros Hp. unfold handlePacket.
  destruct (Z.eqb_spec (h_type (p_header p)) Packet.H0) as [E|_].
  { apply safe_returns_bind; [apply safe_send, set_header_wf, set_header_wf, new_Packet_wf|].
    intros _ c1 _ _. apply safe_returns_bind; [|intros; by apply safe_returns_ret, popped_refl].
    apply safe_modify. intros Hc. destruct (_ =? _); [|done].
    by apply (safe_set_handshake (λ c, mkHandshake H2 _) c1). }
  destruct (Z.eqb_spec (h_type (p_header p)) H1) as [E|_].
  { intros Hc. apply wp_bind, wp_mget. revert Hc. fold (safe_returns (A := Packet)
      (when (waitingFor (handshake c) =? H1) (modify (set_waitingFor H3);;
        '(p, _) ← lift (pushData_T (set_type new_Packet H2) (le_encode 2 (localID c))); sendReliably p None);;
       mret p) (popped p) c).
    apply safe_returns_bind; [|intros; by apply safe_returns_ret, popped_refl].
    apply safe_when. intros _. apply safe_bind; [apply (safe_set_handshake (λ c, mkHandshake H3 _))|].
    intros _ c1 _ _. destruct (control_packet H2 0 (localID c)) as (q&Eq&Hq).
    eapply safe_lift; [exact Eq|]. by apply safe_sendReliably. }
  destruct (Z.eqb_spec (h_type (p_header p)) H2) as [E|_].
  { assert (popped p (readRemoteID p).1) as Hpop by (by apply readRemoteID_popped; rewrite ?E).
    destruct (readRemoteID p) as [p' i] eqn:Er. simpl in Hpop.
    destruct (control_packet H3 (h_id (p_header p')) (localID c)) as (q&Eq&Hq).
    intros Hc. apply wp_bind, wp_mget. apply wp_bind. rewrite Eq. apply (wp_lift _ (q, true)); [done|].
    revert Hc. match goal with |- _ → wp ?m ?Q c => change (safe_returns m (popped p) c) end.
    apply safe_returns_bind; [by apply safe_send|]. intros _ c1 _ _. intros Hc1. apply wp_bind, wp_mget.
    revert Hc1. match goal with |- _ → wp ?m ?Q c1 => change (safe_returns m (popped p) c1) end.
    apply safe_returns_bind; [|intros; by apply safe_returns_ret].
    apply safe_when. intros _. apply safe_complete. eauto. }
  destruct (Z.eqb_spec (h_type (p_header p)) H3) as [E|_]; [|by apply safe_returns_ret, popped_refl].
  assert (popped p (readRemoteID p).1) as Hpop by (by apply readRemoteID_popped; rewrite ?E).
  destruct (readRemoteID p) as [p' i] eqn:Er. simpl in Hpop.
  intros Hc. apply wp_bind, wp_mget. revert Hc.
  match goal with |- _ → wp ?m ?Q c => change (safe_returns m (popped p) c) end.
  apply safe_returns_bind; [|intros; by apply safe_returns_ret].
  apply safe_when. intros _. apply safe_complete. intros c0. unfold set_waitingFor. simpl. eauto.
Qed.

Lemma safe_hs_onReceive p c : packet_wf p → safe_returns (hs_onReceive p) (λ r, popped p r.1) c.
Proof.
  intros Hp. unfold hs_onReceive. destruct (negb _); [by apply safe_returns_ret, popped_refl|].
  intros Hc. apply wp_bind. eapply wp_mono; [by apply safe_handlePacket|]. intros p' c1 [? ?]. by wp_steps.
Qed.

(** ** NetworkPath *)

Lemma pushSizedData_defined p bs :
  packet_wf p → p_dataSize p + Z.of_nat (length bs) + 2 ≤ MAX_PACKET_SIZE →
  ∃ p', pushSizedData p bs = Some (p', true) ∧ packet_wf p' ∧ p_header p' = p_header p ∧
    payload p' = payload p ++ bs ++ le_encode 2 (u16 (Z.of_nat (length bs))) ∧
    p_dataSize p' = p_dataSize p + Z.of_nat (length bs) + 2.
Proof.
  intros Hp Hs. destruct (pushData_fits p bs Hp ltac:(lia)) as (p1&E1&Hp1&Hpay1&Hh1&Hs1).
  destruct (pushData_T_fits p1 (le_encode 2 (u16 (Z.of_nat (length bs)))) Hp1) as (p2&E2&Hp2&Hpay2&Hh2&Hs2).
  { rewrite le_encode_length, Hs1. lia. }
  exists p2. unfold pushSizedData. rewrite E1. simpl. rewrite le_encode_length in Hs2.
  split_and!; [done|done|congruence| |lia]. by rewrite Hpay2, Hpay1, app_assoc.
Qed.

Lemma challenge_packet_spec time a :
  Z.of_nat (length (default Address_empty a)) = sizeof_Address →
  ∃ p, challenge_packet time a = Some p ∧ packet_wf p ∧ h_type (p_header p) = AUTHENTICATE_CHALLENGE ∧
    payload p = (le_encode 8 time ++ default Address_empty a) ++ le_encode 2 36 ++ le_encode 2 0.
Proof.
  unfold sizeof_Address. intros Ha. unfold challenge_packet. set (basis := le_encode 8 time ++ _).
  assert (Z.of_nat (length basis) = 36) as Hb by (unfold basis; rewrite length_app, le_encode_length; lia).
  destruct (pushSizedData_defined (set_type new_Packet AUTHENTICATE_CHALLENGE) basis)
    as (p1&E1&Hp1&Hh1&Hpay1&Hs1); [apply set_header_wf, new_Packet_wf|simpl; size_lia|].
  destruct (pushSizedData_defined p1 []) as (p2&E2&Hp2&Hh2&Hpay2&Hs2); [done|simpl in *; size_lia|].
  exists p2. rewrite E1. simpl. rewrite E2. split_and!; [done|done|by rewrite Hh2, Hh1|].
  rewrite Hpay2, Hpay1, Hb. change (payload (set_type new_Packet _)) with (@nil byte).
  simpl. by rewrite <-!app_assoc.
Qed.

(** Packets of the established path, or an id that does not wait for an acknowledgement. *)
Definition challenge_ok (from : Address) (c : Connection) : Prop :=
  Z.of_nat (length from) = sizeof_Address ∧
  (from = remoteAddress c ∨ packetIDGenerator (sender c) ∉ unacked c).

Lemma safe_sendChallenge a c :
  Z.of_nat (length a) = sizeof_Address → packetIDGenerator (sender c) ∉ unacked c →
  safe (sendChallenge a) c.
Proof.
  intros Ha Hfresh. unfold sendChallenge. apply safe_gets.
  destruct (challenge_packet_spec (seconds (clock c)) None) as (p1&E1&Hp1&_); [done|].
  destruct (challenge_packet_spec (seconds (clock c)) (Some a)) as (p2&E2&Hp2&_); [done|].
  eapply safe_lift; [done|]. eapply safe_lift; [done|].
  apply safe_sendReliablyMultipath; [done|by repeat (constructor; try done)|].
  intros _. by apply not_elem_of_dom.
Qed.

Lemma safe_sendChallengeResponse p c : packet_wf p → safe (sendChallengeResponse p) c.
Proof.
  intros [Hl Hs]. apply safe_send. split; [|done].
  change (p_data (mkPacket ?h ?d ?n)) with d.
  rewrite length_app, length_take, length_drop.
  change (p_data (set_id _ _)) with (p_data new_Packet). rewrite (proj1 new_Packet_wf). size_lia.
Qed.

Lemma verifyChallengeResponse_popped c p path :
  packet_wf p → h_type (p_header p) ≠ DATA_RELIABLE → h_type (p_header p) ≠ DATA_UNRELIABLE →
  popped p (verifyChallengeResponse c p path).1.
Proof.
  intros Hp H1 H2. unfold verifyChallengeResponse.
  pose proof (popSizedData_popped p Hp H1 H2) as Hpop1.
  destruct (popSizedData p) as [p1 [sig|]]; [|done]. simpl in Hpop1. pose proof Hpop1 as (Hp1&Hh1&_).
  pose proof (popSizedData_popped p1 Hp1 ltac:(congruence) ltac:(congruence)) as Hpop2.
  destruct (popSizedData p1) as [p2 [basis|]]; simpl in *; by eapply popped_trans.
Qed.

Lemma Address_neqb_neq a b : Address_neqb a b = true → a ≠ b.
Proof. intros Hn ->. unfold Address_neqb in Hn. by rewrite memcmp_refl in Hn. Qed.

Lemma safe_np_onReceive p from c :
  packet_wf p → challenge_ok from c → safe_returns (np_onReceive p from) (λ r, popped p r.1) c.
Proof.
  intros Hp [Hlen Hfresh] Hc. unfold np_onReceive. apply wp_bind, wp_mget. revert Hc.
  match goal with |- _ → wp ?m ?Q c => change (safe_returns m (λ r, popped p r.1) c) end.
  destruct (Z.eqb_spec (h_type (p_header p)) AUTHENTICATE_CHALLENGE) as [E|_].
  { apply safe_returns_bind; [by apply safe_sendChallengeResponse|]. intros.
    by apply safe_returns_ret, popped_refl. }
  destruct (Address_neqb from (remoteAddress c)) eqn:Hne; [|by apply safe_returns_ret, popped_refl].
  apply Address_neqb_neq in Hne.
  destruct (Z.eqb_spec (h_type (p_header p)) AUTHENTICATE_RESPONSE) as [E|_].
  - pose proof (verifyChallengeResponse_popped c p from Hp ltac:(by rewrite E) ltac:(by rewrite E)) as Hpop.
    destruct (verifyChallengeResponse c p from) as [p' []]; [|by apply safe_returns_ret].
    apply safe_returns_bind; [|intros; by apply safe_returns_ret]. unfold onRemoteAddressChanged.
    apply safe_bind; [step_fields|]. intros _ c1 _ _. by apply safe_emit.
  - apply safe_returns_bind; [|intros; by apply safe_returns_ret, popped_refl].
    apply safe_sendChallenge; [done|]. by destruct Hfresh.
Qed.

(** ** The handlers *)

Lemma safe_fail event c : safe (fail event) c.
Proof.
  unfold fail. apply safe_bind; [step_fields|]. intros _ c1 _ _.
  apply safe_bind; [apply safe_pr_close|]. intros _ c2 _ _.
  apply safe_bind; [apply safe_rc_fail|]. intros _ c3 _ _.
  apply safe_bind; [apply safe_s_fail|]. intros _ c4 _ _. apply safe_possiblyClose.
Qed.

Lemma safe_close c : safe close c.
Proof.
  unfold close. apply safe_bind; [apply safe_s_close|]. intros _ c1 _ _.
  apply safe_bind; [apply safe_rc_close|]. intros _ c2 _ _. apply safe_possiblyClose.
Qed.

Lemma safe_user_close c : safe user_close c.
Proof.
  unfold user_close. apply safe_bind; [apply safe_close|]. intros _ c1 _ _. apply safe_closeUser.
Qed.

Lemma safe_send_data data r c : Z.of_nat (length data) < 2 ^ 31 → safe (send_data data r) c.
Proof.
  intros. unfold send_data. apply safe_bind; [apply safe_statistics|]. intros _ c1 _ _. by apply safe_s_send.
Qed.

Lemma safe_pr_onTimeout c : safe pr_onTimeout c.
Proof.
  unfold pr_onTimeout. apply safe_mget. case_decide as E; [apply safe_ret|].
  apply safe_bind; [by apply (safe_set_probe (λ c, mkProbe _ _ _ _))|]. intros _ c1 _ _.
  destruct (_ <? _); [|apply safe_registerTimeout]. apply safe_bind; [apply safe_pr_on|].
  intros _ c2 _ _. apply safe_mget. case_decide; [|apply safe_fail].
  apply safe_sendReliably, set_header_wf, new_Packet_wf.
Qed.

Lemma safe_onRetryTimeout c : safe onRetryTimeout c.
Proof.
  apply safe_inv. intros Hc. unfold onRetryTimeout. apply safe_gets, safe_getNextRetry.
  intros [[i x]|] Hx; [|apply safe_ret]. destruct (_ <? _); [|apply safe_recalculateRetryTimeout].
  apply safe_gets. destruct (_ <=? _); [apply safe_fail|].
  destruct (ci_window _ Hc i x Hx) as (_&Hp&_). apply safe_bind.
  { eapply safe_set_retry; [done..|]. simpl. by apply wrap_range. }
  intros _ c1 _ _. apply safe_bind.
  { apply safe_mapM. intros p c2 Hin _. apply safe_resend. by destruct (Forall_elem_of _ _ _ Hp Hin). }
  intros _ c2 _ _. apply safe_bind.
  { apply safe_sender; [done|done|]. intros Hc2. split_and!; try apply Hc2. apply calculate_ok. }
  intros _ c3 _ Hc3. apply safe_gets. destruct (WindowSize_onSample_ok _ (ci_rtt _ Hc3)) as (w&Ew&Hw).
  eapply safe_lift; [done|]. apply safe_bind; [|intros; apply safe_recalculateRetryTimeout].
  apply safe_sender; [done|done|]. intros Hc4. split_and!; try apply Hc4; apply Hw.
Qed.

(** The options an [H3] packet carries. *)
Definition h3_ok (p : Packet) : Prop :=
  ∀ d, h_type (p_header p) = H3 → (popData p sizeof_HandshakeOptionsData).2 = Some d →
    int32 (le_decode (take 4 d)) < 900000000.

Lemma swrap_range w z : 0 < w → - 2 ^ (w - 1) ≤ swrap w z < 2 ^ (w - 1).
Proof.
  intros Hw. unfold swrap. pose proof (Z.mod_pos_bound (z + 2 ^ (w - 1)) (2 ^ w) ltac:(lia)).
  assert (2 ^ w = 2 * 2 ^ (w - 1)); [|lia]. rewrite <-Z.pow_succ_r by lia. f_equal. lia.
Qed.

Lemma safe_ho_onReceive p c :
  packet_wf p → h3_ok p → safe_returns (ho_onReceive p) (λ r, popped p r.1) c.
Proof.
  intros Hp Hh3. unfold ho_onReceive.
  destruct (Z.eqb_spec (h_type (p_header p)) H3) as [E|_]; [|by apply safe_returns_ret, popped_refl].
  pose proof (popData_popped p sizeof_HandshakeOptionsData Hp ltac:(done) ltac:(by rewrite E) ltac:(by rewrite E)) as Hpop.
  specialize (Hh3). unfold h3_ok in Hh3. destruct (popData p _) as [p' [d|]]; [|by apply safe_returns_ret].
  specialize (Hh3 d E eq_refl). apply safe_returns_bind; [|intros; by apply safe_returns_ret].
  step_fields; try apply (ci_uncompressed _ Hc). split; simpl; [done|]. by apply (swrap_range 16).
Qed.

Definition addr_frame (c : Connection) := (remoteAddress c, packetIDGenerator (sender c), unacked c).

Lemma ho_onReceive_frame p : respects (same addr_frame) (ho_onReceive p).
Proof. unfold ho_onReceive. frame. Qed.

Lemma safe_receive p from c :
  data_packet_ok p → h3_ok p → challenge_ok from c → safe (receive p from) c.
Proof.
  intros Hp Hh3 Hch Hc. unfold receive. apply wp_bind.
  eapply wp_mono; [apply (wp_respects (same addr_frame));
    [apply ho_onReceive_frame|apply safe_ho_onReceive; [apply Hp|done|done]]|].
  intros [p1 d1] c1 [[[Hc1 He1] Hpop1] Hsame]. simpl in Hpop1.
  enough (safe (if decide (d1 = Discard) then mret tt
    else now ← gets clock;
      modify_statistics (st_onReceive p1);;
      '(packet, d) ← np_onReceive p1 from;
      if decide (d = Discard) then mret tt
      else
        '(packet, d) ← hs_onReceive packet;
        if decide (d = Discard) then mret tt
        else pr_on now;; s_onReceive packet;; rc_onReceive packet) c1) as Hs.
  { eapply wp_mono; [by apply Hs|]. intros [] c2 [? ?]. split; [done|by etrans]. }
  case_decide; [apply safe_ret|]. apply safe_gets. intros _. apply wp_bind, wp_modify.
  set (c2 := set_statistics _ c1).
  assert (conn_inv c2 ∧ evolves c1 c2) as [Hc2 He2] by (by apply (safe_statistics (st_onReceive p1) c1)).
  assert (challenge_ok from c2) as Hch2.
  { unfold same, addr_frame in Hsame. injection Hsame as Ea Eg Eu. unfold challenge_ok.
    change (unacked c2) with (unacked c1). change (remoteAddress c2) with (remoteAddress c1).
    change (packetIDGenerator (sender c2)) with (packetIDGenerator (sender c1)). by rewrite Ea, Eg, Eu. }
  enough (safe ('(packet, d) ← np_onReceive p1 from;
      if decide (d = Discard) then mret tt
      else
        '(packet, d) ← hs_onReceive packet;
        if decide (d = Discard) then mret tt
        else pr_on (clock c1);; s_onReceive packet;; rc_onReceive packet) c2) as Hs.
  { eapply wp_mono; [by apply Hs|]. intros [] c3 [? ?]. split; [done|by etrans]. }
  eapply safe_bind_returns; [apply safe_np_onReceive; [apply Hpop1|done]|].
  intros [p2 d2] c3 Hpop2 _ _. simpl in Hpop2. case_decide; [apply safe_ret|].
  eapply safe_bind_returns; [apply safe_hs_onReceive; apply Hpop2|].
  intros [p3 d3] c4 Hpop3 _ _. simpl in Hpop3. case_decide; [apply safe_ret|].
  apply safe_bind; [apply safe_pr_on|]. intros _ c5 _ _.
  apply safe_bind; [apply safe_s_onReceive|]. intros _ c6 _ _. apply safe_rc_onReceive.
  eapply popped_data_ok; [done|]. do 2 (eapply popped_trans; [done|]). done.
Qed.
End safety.
