(* ===== verification/Closing.v ===== *)
(** * How connections end and retransmit: [Connection::fail], [Retrier::onRetryTimeout]

    What the failure of a connection and the expiry of its retry timer do, on every branch. *)

From S2P Require Import Prelude MemCopy Packet ReceiveQueue Types SendQueue Compression Float32 Rtt State Retrier Transmit Invariant Sender Connection.

Section failing.
Context `{!Zlib}.

Lemma wp_on_queue_close r Q c :
  Q tt (upd_sender (set_dataQueue r
    (let q := queue_of r (sender c) in
     if decide (status q = CLOSED) then q
     else mkSendQueue CLOSED (frameIDGenerator q) [] (compressionBuffer q))) c) →
  wp (on_queue r SendQueue.close) Q c.
Proof. done. Qed.

Lemma wp_shut_sender Q c :
  Q tt (upd_sender (set_s_status SHUT) c) →
  wp (modify_sender (λ s, if decide (s_status s = SHUT) then s else set_s_status SHUT s)) Q c.
Proof.
  intros HQ. apply wp_modify. unfold upd_sender in *. case_decide as E; [|done].
  replace (sender c) with (set_s_status SHUT (sender c)) at 1; [done|].
  destruct (sender c). simpl in *. by subst.
Qed.

Lemma wp_rc_fail Q c : Q tt (set_r_status SHUT c) → wp rc_fail Q c.
Proof.
  intros HQ. apply wp_modify. case_decide as E; [|done]. unfold set_r_status, set_receiver in HQ.
  rewrite <-E in HQ. by destruct c as [? ? ? ? ? ? ? [] ? ? ? ? ? ? ? ? ?].
Qed.

(** What [fail] has done when it comes to [possiblyClose]. *)
Record shut_down (event : mrudp_event_t) (c c1 : Connection) : Prop := {
  sd_sender : s_status (sender c1) = SHUT;
  sd_receiver : r_status (receiver c1) = SHUT;
  sd_probe : p_status (probe c1) = CLOSED;
  sd_window : retrier_inv (retrier (sender c)) → window (retrier (sender c1)) = ∅;
  sd_queue : status (dataQueue (sender c)) = OPEN → SendQueue.queue (dataQueue (sender c1)) = [];
  sd_buffer : compressionBuffer (dataQueue (sender c1)) = compressionBuffer (dataQueue (sender c));
  sd_rest : (closed c1, closeReason c1, userDataDisposed c1, closeHandler c1, events c1, clock c1, rtt (sender c1)) =
            (closed c, event, userDataDisposed c, closeHandler c, events c, clock c, rtt (sender c));
}.

Lemma fail_wp event Q c :
  (∀ c1, shut_down event c c1 → wp possiblyClose Q c1) → wp (fail event) Q c.
Proof.
  intros HQ. unfold fail. apply wp_bind, wp_modify, wp_bind. unfold pr_close. apply wp_modify.
  apply wp_bind, wp_rc_fail, wp_bind. unfold s_fail. apply wp_bind, wp_shut_sender, wp_bind.
  unfold rt_close. apply wp_modify. apply wp_bind, wp_on_queue_close, wp_on_queue_close, HQ. split; cbn.
  - done.
  - done.
  - done.
  - intros [[E Hw]|[E _]]; rewrite E; by case_decide.
  - intros E. rewrite E. by case_decide.
  - by case_decide.
  - done.
Qed.

Lemma possiblyClose_shut interval c :
  s_status (sender c) = SHUT → r_status (receiver c) = SHUT → s_empty c = true → closed c = false →
  toDuration (fmul (rtt (sender c)) (f32_of_Z 3)) = Some interval →
  ∃ c', possiblyClose c = Some (tt, c') ∧ closed c' = true ∧ userDataDisposed c' = true ∧
    events c' = events c ++ (if negb (userDataDisposed c) && closeHandler c then [UserClosed (closeReason c)] else [])
      ++ [Scheduled FinishTimer (clock c + interval * 1000000)] ∧
    sender c' = sender c ∧ receiver c' = receiver c.
Proof.
  intros Hs Hr He Hc Hd.
  cut (wp possiblyClose (λ _ c', closed c' = true ∧ userDataDisposed c' = true ∧
    events c' = events c ++ (if negb (userDataDisposed c) && closeHandler c then [UserClosed (closeReason c)] else [])
      ++ [Scheduled FinishTimer (clock c + interval * 1000000)] ∧
    sender c' = sender c ∧ receiver c' = receiver c) c).
  { intros ([]&c'&E&?)%wp_some. by exists c'. }
  unfold possiblyClose. wp_steps. rewrite Hc, Hs, Hr, He, !bool_decide_true by done. cbn [andb].
  unfold close_event. wp_steps. rewrite Hc. wp_steps.
  unfold closeUser. wp_steps. cbn [userDataDisposed closeHandler set_closed].
  destruct (userDataDisposed c) eqn:Hu; [|unfold emit; destruct (closeHandler c)]; cbn [negb andb when];
    wp_steps; unfold finishWhenReady, emit; wp_steps; (eapply wp_lift; [exact Hd|]); wp_steps;
    cbn; split_and!; try done; by rewrite <-?app_assoc.
Qed.

(** A connection that fails with its queues open closes and tells its user. *)
Lemma fail_closes (c : Connection) (event : mrudp_event_t) :
  conn_inv c → closed c = false → status (dataQueue (sender c)) = OPEN →
  ∃ c' interval,
    fail event c = Some (tt, c') ∧ 0 ≤ interval ∧
    closed c' = true ∧ userDataDisposed c' = true ∧
    s_status (sender c') = SHUT ∧ r_status (receiver c') = SHUT ∧ window (retrier (sender c')) = ∅ ∧
    events c' = events c ++ (if negb (userDataDisposed c) && closeHandler c then [UserClosed event] else [])
      ++ [Scheduled FinishTimer (clock c + interval * 1000000)].
Proof.
  intros Hc Hcl Ho. destruct (toDuration_linger _ (ci_rtt _ Hc)) as (d&Hd&Hd0).
  cut (wp (fail event) (λ _ c', closed c' = true ∧ userDataDisposed c' = true ∧
    s_status (sender c') = SHUT ∧ r_status (receiver c') = SHUT ∧ window (retrier (sender c')) = ∅ ∧
    events c' = events c ++ (if negb (userDataDisposed c) && closeHandler c then [UserClosed event] else [])
      ++ [Scheduled FinishTimer (clock c + d * 1000000)]) c).
  { intros ([]&c'&E&?)%wp_some. exists c', d. split_and!; [done|lia|naive_solver..]. }
  apply fail_wp. intros c1 Hsd. injection (sd_rest _ _ _ Hsd) as Ecl Ere Eud Ech Eev Eck Ert.
  destruct (possiblyClose_shut d c1) as (c'&E&?&?&Hev&Hse&Hrc).
  - apply Hsd.
  - apply Hsd.
  - unfold s_empty, rt_empty, SendQueue.empty. pose proof (proj2 (ci_reliable _ Hc)) as Hb.
    rewrite (sd_window _ _ _ Hsd (ci_retrier _ Hc)), (sd_queue _ _ _ Hsd Ho), (sd_buffer _ _ _ Hsd), Hb. done.
  - congruence.
  - congruence.
  - unfold wp. rewrite E, Hse, Hrc. split_and!; [done|done|apply Hsd|apply Hsd|apply (sd_window _ _ _ Hsd), Hc|].
    by rewrite Hev, Eev, Eud, Ech, Ere, Eck.
Qed.
End failing.

(** ** Retransmitting *)

(** The form in which a connection puts a packet on the wire. *)
Definition wire_form (c : Connection) (p : Packet) : option Packet :=
  if remoteID c =? 0 then fst <$> pushData_T (set_connection p 0) (id c)
  else Some (set_connection p (remoteID c)).

(** The state a retransmission of packets does not touch. *)
Definition wire_frame (c : Connection) := (remoteID c, id c, cores c, rtt (sender c), clock c).

Section retransmitting.
Context `{!Zlib}.

Lemma resend_wire_frame p a : respects (same wire_frame) (resend p a).
Proof.
  unfold resend, send_, modify_statistics, pr_on, recalculateProbeTimeout, registerTimeout, emit. frame.
Qed.

Lemma resend_transmits p a c u c' :
  resend p a c = Some (u, c') →
  ∃ w, wire_form c p = Some w ∧ transmissions c' = transmissions c ++ [(w, a)].
Proof.
  unfold resend, send_. intros ([]&c3&(?&c0&[= <- <-]&(?&c1&Ee&(now&c2&[= <- <-]&Ep)%bind_some)%bind_some)%bind_some&[= <- <-])%bind_some.
  apply pr_on_quiet in Ep. unfold same in Ep.
  change (transmissions (set_statistics _ c3)) with (transmissions c3). rewrite Ep. unfold wire_form.
  change (h_connection _) with (remoteID c) in Ee.
  assert (∀ w, transmissions (add_event (Sent w a) c) = transmissions c ++ [(w, a)]) as Hadd.
  { intros w. unfold transmissions. simpl. by rewrite omap_app. }
  destruct (Z.eqb_spec (remoteID c) 0) as [E0|_].
  - rewrite E0 in Ee. apply bind_some in Ee as (?&?&[= <- <-]&Ee).
    apply bind_some in Ee as ([w b]&c0&El&[= <- <-]). unfold lift in El.
    destruct (pushData_T _ _) as [[w' b']|]; [|done]. simplify_eq/=. eauto.
  - injection Ee as <- <-. eauto.
Qed.

Lemma resend_wp p a c :
  conn_inv c → packet_wf p →
  wp (resend p a) (λ _ c', conn_inv c' ∧ wire_frame c' = wire_frame c ∧
    ∃ w, wire_form c p = Some w ∧ transmissions c' = transmissions c ++ [(w, a)]) c.
Proof.
  intros Hc Hp. pose proof (safe_resend p a c Hp Hc) as Hs. apply wp_some in Hs as ([]&c'&E&Hc'&_).
  unfold wp. rewrite E. split_and!; [done|exact (resend_wire_frame _ _ _ _ _ E)|by eapply resend_transmits].
Qed.

Definition resends (c : Connection) (l : MultiPacketPath) (ts : list (Packet * option Address)) : Prop :=
  Forall2 (λ path t, wire_form c (pp_packet path) = Some t.1 ∧ t.2 = pp_address path) l ts.

Lemma resend_all l c :
  conn_inv c → Forall (λ p, packet_wf (pp_packet p)) l →
  wp (mapM_ (λ p, resend (pp_packet p) (pp_address p)) l) (λ _ c',
    conn_inv c' ∧ wire_frame c' = wire_frame c ∧
    ∃ ts, resends c l ts ∧ transmissions c' = transmissions c ++ ts) c.
Proof.
  revert c. induction l as [|x l IH]; intros c Hc Hl; simpl.
  { wp_steps. split_and!; [done|done|]. exists []. rewrite app_nil_r. by split; [constructor|]. }
  apply Forall_cons_1 in Hl as [Hx Hl]. apply wp_bind. eapply wp_mono; [by apply resend_wp|].
  intros [] c1 (Hc1&Hf1&w&Hw&Ht1). eapply wp_mono; [by apply IH|].
  intros [] c2 (Hc2&Hf2&ts&Hts&Ht2). split_and!; [done|congruence|].
  exists ((w, pp_address x) :: ts). rewrite Ht2, Ht1, <-app_assoc. split; [|done].
  constructor; [done|]. unfold resends, wire_form in *. unfold wire_frame in Hf1.
  injection Hf1 as Hr Hi _ _ _. by rewrite Hr, Hi in Hts.
Qed.

(** What a retransmission of the retry [x], waiting under the id [i], leaves behind. *)
Definition retransmitted (i : Z) (x : Retry) (c c' : Connection) : Prop :=
  (∃ ts, resends c (paths x) ts ∧ transmissions c' = transmissions c ++ ts) ∧
  cores c' = <[i := (paths x, clock c, size_t (attempts x + 1), priority_ x)]> (cores c) ∧
  rtt (sender c') = RTT_onAckFailure (rtt (sender c)) ∧
  WindowSize_onSample (rtt (sender c')) = Some (windowSize (sender c')).

Lemma recalculateRetryTimeout_rtt :
  respects (same (λ c, (rtt (sender c), windowSize (sender c)))) recalculateRetryTimeout.
Proof. unfold recalculateRetryTimeout, getNextRetry, set_retry, modify_retrier, modify_sender, emit. frame. Qed.

Lemma recalculateRetryTimeout_wp c :
  conn_inv c → wp recalculateRetryTimeout (λ _ c', transmissions c' = transmissions c ∧ cores c' = cores c ∧
    rtt (sender c') = rtt (sender c) ∧ windowSize (sender c') = windowSize (sender c)) c.
Proof.
  intros Hc. pose proof (safe_recalculateRetryTimeout c Hc) as Hs.
  apply wp_some in Hs as ([]&c'&E&_). unfold wp. rewrite E.
  pose proof (recalculateRetryTimeout_rtt _ _ _ E) as Hr. unfold same in Hr.
  split_and!; [exact (recalculateRetryTimeout_quiet _ _ _ E)|exact (recalculateRetryTimeout_cores _ _ _ E)|congruence..].
Qed.

(** The packet whose turn it is. *)
Definition first_retry (r : Retrier) : option Z :=
  match set_begin (priority r) with Some i => Some i | None => set_begin (dom (window r)) end.

Lemma getNextRetry_first c i x :
  getNextRetry c = Some (Some (i, x), c) ↔ first_retry (retrier (sender c)) = Some i ∧ window (retrier (sender c)) !! i = Some x.
Proof.
  unfold getNextRetry, first_retry, mbind, M_bind, gets. simpl. case_bool_decide as E.
  { rewrite E. split; [done|]. intros [_ Hx]. by rewrite lookup_empty in Hx. }
  destruct (set_begin (priority _)) as [j|]; [|destruct (set_begin (dom _)) as [j|]; [|split; [done|by intros []]]].
  all: destruct (window (retrier (sender c)) !! j) as [y|] eqn:Ey; split;
    [by intros [= <- <-]|intros [[= ->] Hx]; rewrite Ey in Hx; by injection Hx as <-|done|intros [[= ->] Hx]; by rewrite Ey in Hx].
Qed.

(** The times the retry timer was armed for, in order. *)
Definition retry_alarm (e : Event) : option Z := match e with Scheduled RetryTimer t => Some t | _ => None end.
Definition retry_alarms (c : Connection) : list Z := omap retry_alarm (events c).

(** The timer is armed once more, for the packet whose turn it is: at its send time and the retry
    duration of the present round-trip time. *)
Definition rearmed (i : Z) (c c' : Connection) : Prop :=
  ∃ y d, getNextRetry c' = Some (Some (i, y), c') ∧
    toDuration (calculateRetryDuration (rtt (sender c'))) = Some d ∧
    retryAt y = sentAt y + d * 1000000 ∧
    retry_alarms c' = retry_alarms c ++ [retryAt y].

Lemma set_retry_next i x y c c' :
  getNextRetry c = Some (Some (i, x), c) → set_retry i y c = Some (tt, c') →
  getNextRetry c' = Some (Some (i, y), c').
Proof.
  intros [Hf Hx]%getNextRetry_first [= <-]. apply getNextRetry_first. simpl. rewrite lookup_insert_eq.
  split; [|done]. rewrite <-Hf. unfold first_retry. simpl. rewrite dom_insert_L.
  apply elem_of_dom_2 in Hx. by rewrite (subseteq_union_1_L {[i]}) by set_solver.
Qed.

Lemma recalculateRetryTimeout_rearmed i x c c' :
  getNextRetry c = Some (Some (i, x), c) → recalculateRetryTimeout c = Some (tt, c') → rearmed i c c'.
Proof.
  intros En E. unfold recalculateRetryTimeout in E.
  apply bind_some in E as (?&?&En'&E). rewrite En in En'. injection En' as <- <-.
  apply bind_some in E as (?&?&[= <- <-]&E). apply bind_some in E as (d&?&El&E). unfold lift in El.
  destruct (toDuration _) as [d'|] eqn:Ed in El; [|done]. injection El as -> <-.
  apply bind_some in E as ([]&c1&E1&[= <-]). pose proof (set_retry_next _ _ _ _ _ En E1) as Hn.
  injection E1 as <-. eexists _, d. split_and!; [by apply getNextRetry_first; apply getNextRetry_first in Hn|exact Ed|done|].
  unfold retry_alarms. simpl. by rewrite omap_app.
Qed.

Lemma retransmit_wp i x c :
  conn_inv c → window (retrier (sender c)) !! i = Some x →
  wp (set_retry i (mkRetry (paths x) (clock c) (retryAt x) (size_t (attempts x + 1)) (priority_ x));;
      mapM_ (λ p, resend (pp_packet p) (pp_address p)) (paths x);;
      modify_sender (λ s, set_rtt (RTT_onAckFailure (rtt s)) s);;
      r ← gets (λ c, rtt (sender c));
      w ← lift (WindowSize_onSample r);
      modify_sender (set_windowSize w);;
      recalculateRetryTimeout) (λ _ c', retransmitted i x c c') c.
Proof.
  intros Hc Hx. destruct (ci_window _ Hc i x Hx) as (_&Hp&_). set (y := mkRetry _ _ _ _ _).
  assert (safe (set_retry i y) c) as Hs by (eapply safe_set_retry; [done..|by apply wrap_range]).
  apply wp_bind, wp_modify. specialize (Hs Hc). unfold wp, set_retry, modify_retrier, modify_sender, modify in Hs.
  set (c1 := upd_sender _ c) in *. destruct Hs as [Hc1 _]. apply wp_bind.
  eapply wp_mono; [apply (resend_all (paths x) c1 Hc1); eapply Forall_impl; [|exact Hp]; naive_solver|].
  intros [] c2 (Hc2&Hf2&ts&Hts&Ht2). unfold wire_frame in Hf2. injection Hf2 as _ _ Hco Hrt _.
  apply wp_bind, wp_modify. set (c3 := upd_sender _ c2).
  assert (conn_inv c3) as Hc3.
  { split; try apply Hc2. apply calculate_ok. }
  wp_steps. destruct (WindowSize_onSample_ok _ (ci_rtt _ Hc3)) as (w&Ew&Hw). eapply wp_lift; [exact Ew|].
  apply wp_bind, wp_modify. set (c4 := upd_sender _ c3).
  assert (conn_inv c4) as Hc4 by (split; try apply Hc3; apply Hw).
  eapply wp_mono; [by apply recalculateRetryTimeout_wp|].
  intros [] c5 (Ht5&Hco5&Hrt5&Hw5). split_and!.
  - exists ts. split; [exact Hts|]. by rewrite Ht5.
  - rewrite Hco5. change (cores c4) with (cores c2). rewrite Hco. unfold cores. simpl. by rewrite fmap_insert.
  - rewrite Hrt5. simpl. by rewrite Hrt.
  - by rewrite Hrt5, Hw5.
Qed.

Lemma retransmit_rearmed i x t c c' :
  getNextRetry c = Some (Some (i, x), c) →
  (set_retry i (mkRetry (paths x) t (retryAt x) (size_t (attempts x + 1)) (priority_ x));;
   mapM_ (λ p, resend (pp_packet p) (pp_address p)) (paths x);;
   modify_sender (λ s, set_rtt (RTT_onAckFailure (rtt s)) s);;
   r ← gets (λ c, rtt (sender c));
   w ← lift (WindowSize_onSample r);
   modify_sender (set_windowSize w);;
   recalculateRetryTimeout) c = Some (tt, c') → rearmed i c c'.
Proof.
  intros En E. apply bind_some in E as ([]&c1&E1&E). pose proof (set_retry_next _ _ _ _ _ En E1) as En1.
  assert (retry_alarms c1 = retry_alarms c) as Ea by (by injection E1 as <-).
  apply bind_some in E as ([]&c2&E2&E).
  assert (same (λ c, (retrier (sender c), retry_alarms c)) c1 c2) as [= Er Ea2].
  { revert E2. apply (respects_mapM _). intros p.
    unfold resend, send_, modify_statistics, pr_on, recalculateProbeTimeout, registerTimeout, modify_sender, emit. frame.
    all: unfold same, retry_alarms; simpl; by rewrite ?omap_app, ?app_nil_r. }
  apply bind_some in E as ([]&c3&[= <-]&E). apply bind_some in E as (?&?&[= <- <-]&E).
  apply bind_some in E as (w&c4&Ew&E). unfold lift in Ew. destruct (WindowSize_onSample _); [|done]. injection Ew as -> <-.
  apply bind_some in E as ([]&c5&[= <-]&E). set (c4 := upd_sender _ _) in E.
  apply getNextRetry_first in En1. rewrite <-Er in En1. apply (getNextRetry_first c4) in En1.
  destruct (recalculateRetryTimeout_rearmed _ _ _ _ En1 E) as (y&d&?&?&?&Hy).
  exists y, d. split_and!; [done..|]. rewrite Hy. change (retry_alarms c4) with (retry_alarms c2). by rewrite Ea2, Ea.
Qed.
End retransmitting.

(** ** Claims *)

(** C15: a failing connection closes and tells its user. When a well-formed connection (which does
    not compress) that is not closed and whose reliable queue is still open fails, it ends with the
    sender and the receiver shut, no packet left to retry, and the connection closed; the user's
    close handler, if the user is still there and has one, is called exactly once, with the reason
    of the failure; and the erasure from the socket is scheduled. *)
Theorem fail_notifies `{!Zlib} (c : Connection) (event : mrudp_event_t) :
  conn_inv c → closed c = false → status (dataQueue (sender c)) = OPEN →
  ∃ c' interval,
    fail event c = Some (tt, c') ∧ 0 ≤ interval ∧
    closed c' = true ∧ userDataDisposed c' = true ∧
    s_status (sender c') = SHUT ∧ r_status (receiver c') = SHUT ∧ window (retrier (sender c')) = ∅ ∧
    events c' = events c ++ (if negb (userDataDisposed c) && closeHandler c then [UserClosed event] else [])
      ++ [Scheduled FinishTimer (clock c + interval * 1000000)].
Proof. apply fail_closes. Qed.

#[local] Existing Instance Zlib_stored.
#[local] Existing Instance ZlibLaws_stored.

(** The example's connection with a user that has both handlers. *)
Definition user_connection : Connection := set_user true true false example_connection.

Lemma user_connection_inv : conn_inv user_connection.
Proof. destruct example_connection_inv. by split. Qed.

Lemma fail_notifies_witness :
  ∃ c' interval,
    fail MRUDP_EVENT_TIMEOUT user_connection = Some (tt, c') ∧ 0 ≤ interval ∧
    closed c' = true ∧ userDataDisposed c' = true ∧
    s_status (sender c') = SHUT ∧ r_status (receiver c') = SHUT ∧ window (retrier (sender c')) = ∅ ∧
    events c' = [UserClosed MRUDP_EVENT_TIMEOUT;
                 Scheduled FinishTimer (clock user_connection + interval * 1000000)].
Proof. exact (fail_notifies user_connection MRUDP_EVENT_TIMEOUT user_connection_inv eq_refl eq_refl). Defined.

(** A connection that fails with compressed data waiting never closes. [SendQueue::close]
    empties the queue but not the compression buffer, so a queue closed with data in the buffer
    is never [empty] again, and [possiblyClose] never gets to closing the connection: nothing is
    reported to the user, nothing is scheduled, and asking again changes nothing. *)
Lemma fail_stuck_when_compressing `{!Zlib} (c : Connection) (event : mrudp_event_t) :
  compressionBuffer (dataQueue (sender c)) ≠ [] →
  ∃ c', fail event c = Some (tt, c') ∧
    s_status (sender c') = SHUT ∧ r_status (receiver c') = SHUT ∧
    closed c' = closed c ∧ events c' = events c ∧ possiblyClose c' = Some (tt, c').
Proof.
  intros Hb.
  cut (wp (fail event) (λ _ c', s_status (sender c') = SHUT ∧ r_status (receiver c') = SHUT ∧
    closed c' = closed c ∧ events c' = events c ∧ possiblyClose c' = Some (tt, c')) c).
  { intros ([]&c'&E&?)%wp_some. by exists c'. }
  apply fail_wp. intros c1 Hsd. pose proof (sd_rest _ _ _ Hsd) as Hrest. simplify_eq.
  assert (possiblyClose c1 = Some (tt, c1)) as E.
  { unfold possiblyClose, mbind, M_bind, mget. destruct (closed c1); [done|].
    assert (s_empty c1 = false) as ->; [|by rewrite andb_false_r].
    unfold s_empty, SendQueue.empty. rewrite (sd_buffer _ _ _ Hsd), (bool_decide_false _ Hb). by rewrite !andb_false_r. }
  unfold wp. rewrite E. split_and!; [apply Hsd|apply Hsd|congruence|congruence|done].
Qed.

(** A connection on which three bytes were sent in the compressed mode. *)
Definition compressing_connection : Connection :=
  upd_sender (set_dataQueue RELIABLE (mkSendQueue OPEN 0 []
    (le_encode 1 DATA ++ le_encode 4 3 ++ [Byte.x61; Byte.x62; Byte.x63]))) example_connection.

Lemma fail_stuck_when_compressing_witness :
  ∃ c', fail MRUDP_EVENT_TIMEOUT compressing_connection = Some (tt, c') ∧
    s_status (sender c') = SHUT ∧ r_status (receiver c') = SHUT ∧
    closed c' = closed compressing_connection ∧ events c' = events compressing_connection ∧
    possiblyClose c' = Some (tt, c').
Proof. apply fail_stuck_when_compressing. discriminate. Defined.

(** C13: the retransmission policy. In every well-formed state the expiry of the retry timer is
    handled to the end, and with [(i, x)] the next retry: if it is overdue and has used up its
    attempts the connection fails with a timeout; if it is overdue and has attempts left, exactly
    its packets go on the wire again, in their present wire form, its attempt is counted and its
    send time renewed, no other retry changes, the round-trip time is penalised and the window
    recomputed from it; if it is not overdue nothing is sent and no retry changes but for its
    alarm. In the last two cases the timer is armed exactly once more, for the same retry, at its
    send time and the retry duration computed from the round-trip time. *)
Theorem onRetryTimeout_policy `{!Zlib} (c : Connection) :
  conn_inv c →
  ∃ next c', getNextRetry c = Some (next, c) ∧ onRetryTimeout c = Some (tt, c') ∧
    match next with
    | None => window (retrier (sender c)) = ∅ ∧ c' = c
    | Some (i, x) =>
      window (retrier (sender c)) !! i = Some x ∧
      if retryAt x <? clock c then
        if size_t (maximum_retry_attempts (options c)) <=? attempts x
        then fail MRUDP_EVENT_TIMEOUT c = Some (tt, c')
        else retransmitted i x c c' ∧ rearmed i c c'
      else transmissions c' = transmissions c ∧ cores c' = cores c ∧ rearmed i c c'
    end.
Proof.
  intros Hc. pose proof (getNextRetry_wp c Hc) as Hn. apply wp_some in Hn as (next&c0&En&->&Hx).
  pose proof (safe_onRetryTimeout c Hc) as Hs. apply wp_some in Hs as ([]&c'&E&_).
  exists next, c'. split_and!; [done|done|].
  unfold onRetryTimeout in E. apply bind_some in E as (?&?&[= <- <-]&E).
  apply bind_some in E as (?&?&En'&E). rewrite En in En'. injection En' as <- <-.
  destruct next as [[i x]|]; [|by injection E as <-]. split; [done|].
  destruct (retryAt x <? clock c).
  - apply bind_some in E as (?&?&[= <- <-]&E). destruct (_ <=? _); [done|].
    split; [|exact (retransmit_rearmed _ _ _ _ _ En E)].
    pose proof (retransmit_wp i x c Hc Hx) as Hw. unfold wp in Hw. by rewrite E in Hw.
  - pose proof (recalculateRetryTimeout_wp c Hc) as Hw. unfold wp in Hw. rewrite E in Hw.
    destruct Hw as (?&?&_). split_and!; [done..|]. exact (recalculateRetryTimeout_rearmed _ _ _ _ En E).
Qed.

(** The client of the example after the first packet of its handshake. *)
Definition initiated_connection : Connection :=
  match initiate example_connection with Some (_, c) => c | None => example_connection end.

Lemma initiated_inv t : conn_inv (set_clock t initiated_connection).
Proof.
  pose proof (safe_initiate example_connection example_connection_inv) as H. unfold wp in H.
  unfold initiated_connection. destruct (initiate example_connection) as [[[] c]|]; [|done].
  destruct H as [H _]. by destruct H.
Qed.

(** Whether the packet 0 is next, has attempts left, and is overdue or not. *)
Definition waits_for_0 (overdue : bool) (c : Connection) : bool :=
  match getNextRetry c with
  | Some (Some (i, x), _) => (i =? 0) && Bool.eqb (retryAt x <? clock c) overdue &&
      (attempts x <? size_t (maximum_retry_attempts (options c)))
  | _ => false
  end.

Lemma waits_for_0_spec overdue c next :
  waits_for_0 overdue c = true → getNextRetry c = Some (next, c) →
  ∃ x, next = Some (0, x) ∧ (retryAt x <? clock c) = overdue ∧
    (size_t (maximum_retry_attempts (options c)) <=? attempts x) = false.
Proof.
  unfold waits_for_0. intros H En. rewrite En in H. destruct next as [[i x]|]; [|done].
  apply andb_true_iff in H as [[->%Z.eqb_eq ?%Bool.eqb_prop]%andb_true_iff ?%Z.ltb_lt].
  exists x. split_and!; [done..|]. by apply Z.leb_gt.
Qed.

(** At eleven seconds the packet is overdue and sent again; at one second the timer is only armed
    again. *)
Lemma onRetryTimeout_policy_witness :
  let late := set_clock 11000000000 initiated_connection in
  let early := set_clock 1000000000 initiated_connection in
  (∃ x c', onRetryTimeout late = Some (tt, c') ∧ retransmitted 0 x late c' ∧ rearmed 0 late c') ∧
  (∃ c', onRetryTimeout early = Some (tt, c') ∧ transmissions c' = transmissions early ∧ rearmed 0 early c').
Proof.
  split.
  - destruct (onRetryTimeout_policy _ (initiated_inv 11000000000)) as (next&c'&En&E&H).
    assert (waits_for_0 true (set_clock 11000000000 initiated_connection) = true) as Hw by (vm_compute; reflexivity).
    destruct (waits_for_0_spec _ _ _ Hw En) as (x&->&E1&E2).
    rewrite E1, E2 in H. exists x, c'. split; [exact E|]. exact (proj2 H).
  - destruct (onRetryTimeout_policy _ (initiated_inv 1000000000)) as (next&c'&En&E&H).
    assert (waits_for_0 false (set_clock 1000000000 initiated_connection) = true) as Hw by (vm_compute; reflexivity).
    destruct (waits_for_0_spec _ _ _ Hw En) as (x&->&E1&E2).
    rewrite E1 in H. destruct H as (_&Ht&_&Hr). exists c'. split; [exact E|]. split; [exact Ht|exact Hr].
Defined.

(** Run: ten seconds after the handshake began without an answer, its first packet has been sent
    twice and counts one attempt. *)
Example retransmission_run :
  match initiate example_connection with
  | Some (_, c) =>
    match onRetryTimeout (set_clock 11000000000 c) with
    | Some (_, c') => length (transmissions c') = 2%nat ∧
        (attempts <$> window (retrier (sender c')) !! 0) = Some 1
    | None => False
    end
  | None => False
  end.
Proof. by vm_compute. Qed.

Lemma s_send_code `{!Zlib} data r c code c' :
  s_send data r c = Some (code, c') →
  code = if decide (s_status (sender c) = SHUT) then ERROR_CONNECTION_CLOSED
         else if (MAX_PACKET_DATA_SIZE <? Z.of_nat (length data)) &&
                 negb (mode (coalesce_of r (options c)) =? MRUDP_COALESCE_STREAM) &&
                 negb (mode (coalesce_of r (options c)) =? MRUDP_COALESCE_STREAM_COMPRESSED)
              then ERROR_PACKET_SIZE_TOO_LARGE else OK.
Proof.
  unfold s_send. intros (?&?&[= <- <-]&E)%bind_some. case_decide; [by injection E|].
  destruct (_ && _); [by injection E|]. by apply bind_some in E as ([]&?&_&[= <- _]).
Qed.

(** The codes of a send. A send in a well-formed state ends with one of two codes: 0 if the
    data was queued, and 2 both when the connection is closed for sending and when the data does
    not fit a packet and is not split. The code [MRUDP_ERROR_CONNECTION_CLOSED] of the interface,
    3, is never returned. *)
Theorem send_codes `{!Zlib} (c : Connection) (data : bytes) (r : Reliability) :
  conn_inv c → Z.of_nat (length data) < 2 ^ 31 →
  ∃ code c', send_data data r c = Some (code, c') ∧ conn_inv c' ∧
    (s_status (sender c) = SHUT → code = MRUDP_ERROR_PACKET_SIZE_TOO_LARGE) ∧
    (s_status (sender c) ≠ SHUT → MAX_PACKET_DATA_SIZE < Z.of_nat (length data) →
     mode (coalesce_of r (options c)) ≠ MRUDP_COALESCE_STREAM →
     code = MRUDP_ERROR_PACKET_SIZE_TOO_LARGE) ∧
    (s_status (sender c) ≠ SHUT →
     Z.of_nat (length data) ≤ MAX_PACKET_DATA_SIZE ∨ mode (coalesce_of r (options c)) = MRUDP_COALESCE_STREAM →
     code = MRUDP_OK) ∧
    code ≠ MRUDP_ERROR_CONNECTION_CLOSED.
Proof.
  intros Hc Hl. pose proof (safe_send_data data r c Hl Hc) as Hs. apply wp_some in Hs as (code&c'&E&Hc'&_).
  exists code, c'. split; [done|]. split; [done|].
  unfold send_data in E. apply bind_some in E as ([]&c1&[= <-]&E). apply s_send_code in E. simpl in E.
  assert (mode (coalesce_of r (options c)) ≠ MRUDP_COALESCE_STREAM_COMPRESSED) as Hm
    by (destruct r; apply (ci_uncompressed _ Hc)).
  apply Z.eqb_neq in Hm. rewrite Hm, andb_true_r in E. subst code.
  destruct (Z.ltb_spec MAX_PACKET_DATA_SIZE (Z.of_nat (length data))),
    (Z.eqb_spec (mode (coalesce_of r (options c))) MRUDP_COALESCE_STREAM); case_decide; simpl;
    split_and!; try done; intros; lia || tauto.
Qed.

Lemma send_codes_witness :
  ∃ code c', send_data [Byte.x01] RELIABLE example_connection = Some (code, c') ∧ conn_inv c' ∧
    (s_status (sender example_connection) = SHUT → code = MRUDP_ERROR_PACKET_SIZE_TOO_LARGE) ∧
    (s_status (sender example_connection) ≠ SHUT → MAX_PACKET_DATA_SIZE < Z.of_nat (length [Byte.x01]) →
     mode (coalesce_of RELIABLE (options example_connection)) ≠ MRUDP_COALESCE_STREAM →
     code = MRUDP_ERROR_PACKET_SIZE_TOO_LARGE) ∧
    (s_status (sender example_connection) ≠ SHUT →
     Z.of_nat (length [Byte.x01]) ≤ MAX_PACKET_DATA_SIZE ∨
     mode (coalesce_of RELIABLE (options example_connection)) = MRUDP_COALESCE_STREAM →
     code = MRUDP_OK) ∧
    code ≠ MRUDP_ERROR_CONNECTION_CLOSED.
Proof. apply send_codes; [apply example_connection_inv|reflexivity]. Defined.
