(* ===== verification/Wire.v ===== *)
(** * What connections put on the wire

    [tx okp c c']: between the states [c] and [c'] the identity of the connection stays, every
    packet that was sent is the wire form of a packet allowed by [okp] or of one that was waiting
    for its acknowledgement, and the packets waiting now are allowed by [okp] or waited before.
    Every handler of a connection respects it, outside the handshake and the change of address
    with [okp] any predicate that holds of all packets but [H2] and [H3]. *)

From S2P Require Import Prelude MemCopy Packet ReceiveQueue Types SendQueue Compression Float32 Rtt State Retrier Transmit Invariant Sender Connection Closing.

Definition plain (p : Packet) : Prop := h_type (p_header p) ≠ H2 ∧ h_type (p_header p) ≠ H3.

(** A packet of a retry in the window. *)
Definition waiting (c : Connection) (p : Packet) : Prop :=
  ∃ i x path, window (retrier (sender c)) !! i = Some x ∧ path ∈ paths x ∧ pp_packet path = p.

(** Who the connection is. *)
Definition identity (c : Connection) := (id c, localID c, remoteID c, remoteAddress c, handshake c).

Record tx (okp : Packet → Prop) (c c' : Connection) : Prop := {
  tx_identity : identity c' = identity c;
  tx_waiting : ∀ p, waiting c' p → okp p ∨ waiting c p;
  tx_sent : ∃ ts, transmissions c' = transmissions c ++ ts ∧
    Forall (λ t, ∃ p, wire_form c p = Some t.1 ∧ (okp p ∨ waiting c p)) ts;
}.

#[export] Instance tx_preorder okp : PreOrder (tx okp).
Proof.
  split.
  - intros c. split; [done|by right|]. exists []. by rewrite app_nil_r.
  - intros c1 c2 c3 [I1 W1 (ts1&E1&F1)] [I2 W2 (ts2&E2&F2)]. split; [congruence| |].
    + intros p [?|?%W1]%W2; naive_solver.
    + exists (ts1 ++ ts2). rewrite E2, E1, app_assoc. split; [done|]. apply Forall_app. split; [done|].
      eapply Forall_impl; [|exact F2]. intros t (p&Hw&Hp). exists p. unfold identity in I1. simplify_eq.
      unfold wire_form in *. replace (remoteID c1) with (remoteID c2) by done.
      replace (id c1) with (id c2) by done. split; [done|]. naive_solver.
Qed.

(** A step that leaves identity, window and transmissions alone. *)
Definition outward (c : Connection) := (identity c, window (retrier (sender c)), transmissions c).

Lemma outward_tx okp c c' : outward c' = outward c → tx okp c c'.
Proof.
  intros E. pose proof (f_equal (λ x, x.1.1) E) as Ei. pose proof (f_equal (λ x, x.1.2) E) as Ew.
  pose proof (f_equal snd E) as Et. simpl in *. split; [done| |].
  - intros p. unfold waiting. rewrite Ew. by right.
  - exists []. rewrite Et, app_nil_r. done.
Qed.

Lemma transmissions_silent e c :
  transmission e = None → transmissions (add_event e c) = transmissions c.
Proof. intros E. unfold transmissions. simpl. rewrite omap_app. simpl. by rewrite E, app_nil_r. Qed.

(** ** Handlers of the receiver

    What handing frames over respects, the whole receiver respects, if it does not mind the
    receiver's own state. *)
Section receivers.
Context `{!Zlib} (R : relation Connection) `{!PreOrder R} (R_receiver : ∀ r c, R c (set_receiver r c)).

Lemma respects_subframes_loop (f : bytes → C unit) fuel rest :
  (∀ d, respects R (f d)) → respects R (processCompressedSubframes_loop f fuel rest).
Proof.
  intros Hf. revert rest. induction fuel as [|fuel IH]; intros rest; cbn [processCompressedSubframes_loop]; frame.
Qed.

Lemma processCompressed_respects (f : bytes → C unit) d b c u b' c' :
  (∀ d, respects R (f d)) → processCompressed f d (b, c) = Some (u, (b', c')) → R c c'.
Proof.
  intros Hf. assert (∀ bs b b' c u c', beside (processCompressedSubframes f bs) (b, c) =
    Some (u, (b', c')) → R c c') as Hsub.
  { intros bs b0 b0' c0 u0 c0'. unfold beside. destruct (processCompressedSubframes _ bs c0) as [[v c1]|] eqn:E; [|done].
    intros [= <- <- <-]. by refine (respects_subframes_loop _ _ _ _ _ _ _ E). }
  unfold processCompressed, mbind, M_bind, modify, gets. cbn [fst].
  destruct (_ <? 4); [by intros [= <- <- <-]|]. destruct (_ <? le_decode _); [by intros [= <- <- <-]|].
  destruct (_ !! 4%nat) as [w|]; [|done]. case_decide.
  - destruct (beside _ _) as [[v [b1 c1]]|] eqn:E; [|done]. intros [= <- <- <-]. by eapply Hsub.
  - destruct (_ <? 9); [done|].
    destruct (beside _ _) as [[v [b1 c1]]|] eqn:E; [|done]. intros [= <- <- <-]. by eapply Hsub.
Qed.

Lemma respects_on_receiveBuffer (f : bytes → C unit) d :
  (∀ d, respects R (f d)) → respects R (on_receiveBuffer (processCompressed f d)).
Proof.
  intros Hf c [] c'. unfold on_receiveBuffer.
  destruct (processCompressed _ d _) as [[u [b c1]]|] eqn:E; [|done]. intros [= <-].
  transitivity c1; [by eapply processCompressed_respects|apply R_receiver].
Qed.

Context (R_received : ∀ r f, respects R (processReceived r f)).

Lemma respects_on_receiveQueue op op_tr :
  factors (processReceived RELIABLE) op op_tr → respects R (on_receiveQueue op).
Proof.
  intros Hfac c [] c'. unfold on_receiveQueue. specialize (Hfac (receiveQueue (receiver c)) c []).
  destruct (op_tr _) as [[a [rq new]]|]; [|by rewrite Hfac]. destruct Hfac as (new'&_&->).
  destruct (mapM_ _ new' c) as [[[] c1]|] eqn:E; [|done]. intros [= <-].
  transitivity c1; [|apply R_receiver]. eapply (respects_mapM R); [|exact E]. apply R_received.
Qed.

Lemma respects_rc_open i : respects R (rc_open i).
Proof.
  unfold rc_open. apply (respects_bind _); [eapply respects_on_receiveQueue, factors_processQueue|].
  intros _. apply respects_modify. intros c. case_decide; [apply R_receiver|done].
Qed.

Lemma respects_unreliable_receive_loop fuel data from to :
  respects R (unreliable_onReceive_loop (processReceived UNRELIABLE) fuel data from to).
Proof.
  revert from. induction fuel as [|fuel IH]; intros from; cbn [unreliable_onReceive_loop]; frame.
Qed.

Lemma respects_rc_onReceive p : (∀ i, respects R (s_ack i)) → respects R (rc_onReceive p).
Proof.
  intros Hack. unfold rc_onReceive. frame.
  - eapply respects_on_receiveQueue, factors_onReceive.
  - apply respects_unreliable_receive_loop.
Qed.
End receivers.

Section respects.
Context `{!Zlib} (okp : Packet → Prop) (okp_plain : ∀ p, plain p → okp p).

Lemma tx_modify f : (∀ c, outward (f c) = outward c) → respects (tx okp) (modify f).
Proof. intros Hf. apply respects_modify. intros. by apply outward_tx. Qed.

Lemma tx_emit e : transmission e = None → respects (tx okp) (emit e).
Proof. intros He. apply tx_modify. intros c. unfold outward. by rewrite transmissions_silent. Qed.

Lemma tx_statistics f : respects (tx okp) (modify_statistics f).
Proof. by apply tx_modify. Qed.

Lemma tx_outward {A} (m : C A) : respects (same outward) m → respects (tx okp) m.
Proof. intros Hm c a c' E. by apply outward_tx, (Hm c a c'). Qed.

(** ** Retrier and probe *)

(** A window whose packets are those of the old one, some removed. *)
Lemma tx_retrier f :
  (∀ r i x, window (f r) !! i = Some x →
     ∃ j y, window r !! j = Some y ∧ paths y = paths x) →
  respects (tx okp) (modify_retrier f).
Proof.
  intros Hf. apply respects_modify. intros c. split; [done| |].
  - intros p (i&x&path&Hx&Hin&<-). right. destruct (Hf _ _ _ Hx) as (j&y&Hy&E).
    exists j, y, path. by rewrite E.
  - exists []. by rewrite app_nil_r.
Qed.

Lemma tx_rt_close : respects (tx okp) rt_close.
Proof.
  apply tx_retrier. intros r i x. case_decide; [eauto|]. cbn. intros Hx. by rewrite lookup_empty in Hx.
Qed.

Lemma tx_set_retry i y c c' :
  (∃ x, window (retrier (sender c)) !! i = Some x ∧ paths x = paths y) →
  set_retry i y c = Some (tt, c') → tx okp c c'.
Proof.
  intros (x&Hx&Hp) [= <-]. split; [done| |].
  - intros p (j&z&path&Hz&Hin&<-). right. simpl in Hz. apply lookup_insert_Some in Hz as [[<- <-]|[_ Hz]].
    + exists i, x, path. by rewrite Hp.
    + by exists j, z, path.
  - exists []. by rewrite app_nil_r.
Qed.

Lemma tx_recalculateRetryTimeout : respects (tx okp) recalculateRetryTimeout.
Proof.
  intros c [] c'. unfold recalculateRetryTimeout. intros (res&c0&E&E')%bind_some.
  apply getNextRetry_some in E as [-> Hres]. destruct res as [[i x]|]; [|by injection E' as <-].
  specialize (Hres i x eq_refl). apply bind_some in E' as (?&?&[= <- <-]&(d&c1&El&([]&c2&Es&Ee)%bind_some)%bind_some).
  assert (c1 = c) as -> by (unfold lift in El; destruct (toDuration _); by simplify_eq/=).
  etrans; [eapply tx_set_retry; [|exact Es]; eauto|]. eapply tx_emit; [|exact Ee]. done.
Qed.

Lemma tx_rt_insert ps now prio :
  Forall (λ p, okp (pp_packet p)) ps → respects (tx okp) (rt_insert ps now prio).
Proof.
  intros Hps c b c'. unfold rt_insert. intros (?&?&[= <- <-]&E)%bind_some.
  case_decide; [by injection E as <- <-|]. destruct ps as [|q ps]; [done|].
  apply bind_some in E as ([]&c1&[= <-]&([]&c2&E2&[= <- <-])%bind_some).
  etrans; [|eapply (respects_when (tx okp)); [apply tx_recalculateRetryTimeout|exact E2]].
  split; [done| |exists []; by rewrite app_nil_r].
  intros p (i&x&path&Hx&Hin&<-). simpl in Hx.
  destruct (window (retrier (sender c)) !! h_id (p_header (pp_packet q))); [right; by exists i, x, path|].
  apply lookup_insert_Some in Hx as [[<- <-]|[_ Hx]]; [|right; by exists i, x, path].
  left. by apply (Forall_elem_of _ _ _ Hps Hin).
Qed.

Lemma tx_rt_ack i now d : respects (tx okp) (rt_ack i now d).
Proof.
  intros c r c'. unfold rt_ack. intros (?&?&[= <- <-]&E)%bind_some.
  destruct (window _ !! i); [|by injection E as <- <-].
  apply bind_some in E as ([]&c1&E1&[= <- <-]). eapply tx_retrier; [|exact E1].
  intros rt j x Hx. simpl in Hx. apply lookup_delete_Some in Hx as [_ Hx]. eauto.
Qed.

Lemma tx_pr_on now : respects (tx okp) (pr_on now).
Proof.
  apply tx_outward. unfold pr_on, recalculateProbeTimeout, registerTimeout, emit. frame.
  all: unfold same, outward; by rewrite transmissions_silent.
Qed.
#[local] Hint Resolve tx_emit tx_statistics tx_rt_close tx_recalculateRetryTimeout tx_rt_ack tx_pr_on : frame.
#[local] Hint Extern 1 (transmission _ = None) => reflexivity : frame.

(** ** Sending *)

Lemma tx_sent_packet w p a c :
  okp p → wire_form c p = Some w → tx okp c (add_event (Sent w a) c).
Proof.
  intros Hp Hw. split; [done|by right|]. exists [(w, a)]. unfold transmissions. simpl.
  rewrite omap_app. split; [done|]. constructor; [|constructor]. exists p. eauto.
Qed.

Lemma tx_send_ p a : okp p → respects (tx okp) (send_ p a).
Proof.
  intros Hp c [] c'. unfold send_.
  intros (?&?&[= <- <-]&([]&c1&E1&(?&?&[= <- <-]&E2)%bind_some)%bind_some)%bind_some.
  etrans; [|eapply tx_pr_on; exact E2]. clear E2 c'. change (h_connection _) with (remoteID c) in E1.
  destruct (Z.eqb_spec (remoteID c) 0) as [E0|E0].
  - apply bind_some in E1 as (?&?&[= <- <-]&([w b]&c2&El&[= <-])%bind_some).
    unfold lift in El. destruct (pushData_T _ _) as [[w' b']|] eqn:Ew; [|done]. simplify_eq/=.
    eapply tx_sent_packet; [exact Hp|]. unfold wire_form. rewrite E0 in *. simpl. by rewrite Ew.
  - injection E1 as <-. eapply tx_sent_packet; [exact Hp|]. unfold wire_form.
    by destruct (Z.eqb_spec (remoteID c) 0).
Qed.

(** What [Handshake_Options::onSend] makes of a packet is allowed. *)
Definition sendable (p : Packet) : Prop := ∀ o p' d, ho_onSend o p = Some (p', d) → okp p'.

Lemma sendable_not_H3 p : h_type (p_header p) ≠ H3 → okp p → sendable p.
Proof.
  intros Ht Hp o p' d. unfold ho_onSend. destruct (Z.eqb_spec (h_type (p_header p)) H3); [done|].
  by intros [= <- <-].
Qed.

Lemma tx_send p a : sendable p → respects (tx okp) (send p a).
Proof.
  intros Hp. unfold send. apply (respects_bind _); [apply tx_statistics|]. intros _.
  intros c [] c'. intros (o&?&[= <- <-]&([p' d]&c1&El&E)%bind_some)%bind_some.
  unfold lift in El. destruct (ho_onSend _ _) as [[p1 d1]|] eqn:Eo; [|done]. simplify_eq/=.
  case_decide; [by injection E as <-|]. eapply tx_send_; [|exact E]. by eapply Hp.
Qed.

Lemma tx_send_plain p a : plain p → respects (tx okp) (send p a).
Proof. intros Hp. apply tx_send, sendable_not_H3; [apply Hp|by apply okp_plain]. Qed.

Lemma tx_sendReliablyMultipath ps prio :
  Forall (λ p, ∀ i, okp (set_id (pp_packet p) i) ∧ sendable (set_id (pp_packet p) i)) ps →
  respects (tx okp) (sendReliablyMultipath ps prio).
Proof.
  intros Hok. unfold sendReliablyMultipath. apply (respects_bind _); [apply (respects_gets _)|]. intros g.
  destruct (nextID g) as [i g']. apply (respects_bind _); [by apply tx_modify|]. intros _.
  apply (respects_bind _); [apply (respects_gets _)|]. intros now.
  set (l := _ <$> ps). assert (Forall (λ p, okp (pp_packet p) ∧ sendable (pp_packet p)) l) as Hl.
  { apply Forall_fmap. eapply Forall_impl; [|exact Hok]. intros p Hp. apply (Hp i). }
  apply (respects_bind _); [apply tx_rt_insert; eapply Forall_impl; [|exact Hl]; naive_solver|]. intros _.
  clearbody l. induction Hl as [|p l [_ Hp] _ IH]; [apply (respects_ret _)|].
  simpl. apply (respects_bind _); [by apply tx_send|intros _; exact IH].
Qed.

Lemma tx_sendReliably p a :
  (∀ i, okp (set_id p i) ∧ sendable (set_id p i)) → respects (tx okp) (sendReliably p a).
Proof. intros Hp. by apply tx_sendReliablyMultipath, Forall_singleton. Qed.

Lemma plain_sendable p i : plain p → okp (set_id p i) ∧ sendable (set_id p i).
Proof. intros [H2 H3]. split; [by apply okp_plain|]. apply sendable_not_H3; [done|by apply okp_plain]. Qed.

Lemma tx_sendReliably_plain p a : plain p → respects (tx okp) (sendReliably p a).
Proof. intros Hp. apply tx_sendReliably. intros i. by apply plain_sendable. Qed.
#[local] Hint Resolve tx_send_plain tx_sendReliably_plain : frame.

(** ** Sender *)

Lemma tx_sender f : (∀ s, retrier (f s) = retrier s) → respects (tx okp) (modify_sender f).
Proof. intros Hf. apply tx_modify. intros c. unfold outward. simpl. by rewrite Hf. Qed.

Lemma tx_on_queue {A} r (m : M SendQueue A) : respects (tx okp) (on_queue r m).
Proof.
  intros c a c'. unfold on_queue. destruct (m _) as [[a' q]|]; [|done]. intros [= <- <-].
  apply outward_tx. by destruct r.
Qed.

Lemma set_type_plain p t : t ≠ H2 → t ≠ H3 → plain (set_type p t).
Proof. done. Qed.
#[local] Hint Resolve tx_on_queue : frame.
#[local] Hint Extern 1 (respects (tx _) (modify_sender _)) => (apply tx_sender; intros []; simpl; by repeat case_decide) : frame.
#[local] Hint Extern 1 (plain (set_type _ _)) => (by apply set_type_plain) : frame.

Lemma tx_reliable_loop fuel : respects (tx okp) (processReliableDataQueue_loop fuel).
Proof. induction fuel as [|fuel IH]; cbn [processReliableDataQueue_loop]; unfold numUnacked; frame. Qed.

Lemma tx_unreliable_loop fuel : respects (tx okp) (processUnreliableDataQueue_loop fuel).
Proof. induction fuel as [|fuel IH]; cbn [processUnreliableDataQueue_loop]; frame. Qed.
#[local] Hint Resolve tx_reliable_loop tx_unreliable_loop : frame.

Lemma tx_processDataQueue r : respects (tx okp) (processDataQueue r).
Proof.
  destruct r; cbn [processDataQueue].
  - unfold processUnreliableDataQueue, queueDelayedAcks. frame.
  - unfold processReliableDataQueue. frame.
Qed.
#[local] Hint Resolve tx_processDataQueue : frame.

Lemma tx_scheduleDataQueueProcessing r b : respects (tx okp) (scheduleDataQueueProcessing r b).
Proof. unfold scheduleDataQueueProcessing. frame. Qed.
#[local] Hint Resolve tx_scheduleDataQueueProcessing : frame.

Lemma tx_processSchedule r : respects (tx okp) (processSchedule r).
Proof. unfold processSchedule. frame. Qed.

Lemma tx_s_enqueue t d r m : respects (tx okp) (s_enqueue t d r m).
Proof. unfold s_enqueue. frame. Qed.
Lemma tx_s_open : respects (tx okp) s_open.
Proof. unfold s_open. frame. Qed.
Lemma tx_s_fail : respects (tx okp) s_fail.
Proof. unfold s_fail. frame. Qed.
Lemma tx_s_ack i : respects (tx okp) (s_ack i).
Proof. unfold s_ack. frame. Qed.
#[local] Hint Resolve tx_processSchedule tx_s_enqueue tx_s_open tx_s_fail tx_s_ack : frame.
Lemma tx_s_send d r : respects (tx okp) (s_send d r).
Proof. unfold s_send. frame. Qed.
Lemma tx_s_close : respects (tx okp) s_close.
Proof. unfold s_close. frame. Qed.
#[local] Hint Resolve tx_s_send tx_s_close : frame.

(** ** Connection: closing and acknowledgements *)

Lemma tx_possiblyClose : respects (tx okp) possiblyClose.
Proof. unfold possiblyClose, close_event, closeUser, finishWhenReady. frame. all: by apply outward_tx. Qed.
#[local] Hint Resolve tx_possiblyClose : frame.

Lemma tx_close_event e : respects (tx okp) (close_event e).
Proof. unfold close_event, closeUser, finishWhenReady. frame. all: by apply outward_tx. Qed.
Lemma tx_closeUser e : respects (tx okp) (closeUser e).
Proof. unfold closeUser. frame. all: by apply outward_tx. Qed.
Lemma tx_onAck a : respects (tx okp) (onAck a).
Proof. unfold onAck. frame. Qed.
#[local] Hint Resolve tx_close_event tx_closeUser tx_onAck : frame.
Lemma tx_s_onReceive p : respects (tx okp) (s_onReceive p).
Proof. unfold s_onReceive, onAck_packet. frame. Qed.

(** ** Receiver *)

Lemma tx_receive_data d r : respects (tx okp) (receive_data d r).
Proof. unfold receive_data. frame. Qed.
Lemma tx_rc_close : respects (tx okp) rc_close.
Proof. unfold rc_close. frame. by apply outward_tx. Qed.
Lemma tx_rc_fail : respects (tx okp) rc_fail.
Proof. apply tx_modify. intros c. by case_decide. Qed.
#[local] Hint Resolve tx_s_onReceive tx_receive_data tx_rc_close tx_rc_fail : frame.

Lemma tx_set_receiver r c : tx okp c (set_receiver r c).
Proof. by apply outward_tx. Qed.
Lemma tx_processReceived r f : respects (tx okp) (processReceived r f).
Proof.
  unfold processReceived. frame. apply (respects_on_receiveBuffer _); [apply tx_set_receiver|]. intros; apply tx_receive_data.
Qed.
#[local] Hint Resolve tx_processReceived : frame.
Lemma tx_rc_open i : respects (tx okp) (rc_open i).
Proof. apply (respects_rc_open _); [apply tx_set_receiver|apply tx_processReceived]. Qed.
Lemma tx_rc_onReceive p : respects (tx okp) (rc_onReceive p).
Proof. apply (respects_rc_onReceive _); [apply tx_set_receiver|apply tx_processReceived|apply tx_s_ack]. Qed.
#[local] Hint Resolve tx_rc_open tx_rc_onReceive : frame.

(** ** The other handlers *)

Lemma tx_fail e : respects (tx okp) (fail e).
Proof. unfold fail, pr_close. frame. all: by apply outward_tx. Qed.
#[local] Hint Resolve tx_fail : frame.

Lemma tx_user_close : respects (tx okp) user_close.
Proof. unfold user_close, close. frame. Qed.
Lemma tx_send_data d r : respects (tx okp) (send_data d r).
Proof. unfold send_data. frame. Qed.
Lemma tx_openUser o rh ch : respects (tx okp) (openUser o rh ch).
Proof. unfold openUser. frame. all: apply outward_tx; by destruct o. Qed.
Lemma tx_pr_onTimeout : respects (tx okp) pr_onTimeout.
Proof. unfold pr_onTimeout, registerTimeout. frame. all: by apply outward_tx. Qed.
Lemma tx_onHandshakeComplete : respects (tx okp) onHandshakeComplete.
Proof. unfold onHandshakeComplete. frame. Qed.

(** Retransmitting sends packets that wait. *)
Lemma resend_keeps p a : respects (same (λ c, (identity c, window (retrier (sender c))))) (resend p a).
Proof.
  unfold resend, send_, modify_statistics, pr_on, recalculateProbeTimeout, registerTimeout, emit. frame.
Qed.

Lemma tx_resends l c c' :
  (∀ path, path ∈ l → waiting c (pp_packet path)) →
  mapM_ (λ p, resend (pp_packet p) (pp_address p)) l c = Some (tt, c') → tx okp c c'.
Proof.
  revert c. induction l as [|path l IH]; intros c Hl; simpl; [by intros [= <-]|].
  intros ([]&c1&E1&E2)%bind_some. pose proof (resend_keeps _ _ _ _ _ E1) as Hk.
  pose proof (f_equal fst Hk) as Hi. pose proof (f_equal snd Hk) as Hw. simpl in Hi, Hw.
  assert (∀ p, waiting c1 p ↔ waiting c p) as Hwait by (intros p; unfold waiting; by rewrite Hw).
  transitivity c1; [|apply IH; [|done]; intros q Hq; apply Hwait, Hl; by right].
  split; [done|intros p; rewrite Hwait; by right|].
  destruct (resend_transmits _ _ _ _ _ E1) as (w&Ew&Et). exists [(w, pp_address path)]. split; [done|].
  constructor; [|constructor]. exists (pp_packet path). split; [done|]. right. apply Hl. by left.
Qed.

Lemma tx_onRetryTimeout : respects (tx okp) onRetryTimeout.
Proof.
  intros c [] c'. unfold onRetryTimeout. intros (?&?&[= <- <-]&(next&c0&En&E)%bind_some)%bind_some.
  apply getNextRetry_some in En as [-> Hres]. destruct next as [[i x]|]; [|by injection E as <-].
  specialize (Hres i x eq_refl). destruct (_ <? _); [|by eapply tx_recalculateRetryTimeout].
  apply bind_some in E as (?&?&[= <- <-]&E). destruct (_ <=? _); [by eapply tx_fail|].
  apply bind_some in E as ([]&c1&E1&([]&c2&E2&E3)%bind_some).
  transitivity c1; [eapply tx_set_retry; [|exact E1]; eauto|]. transitivity c2.
  - eapply tx_resends; [|exact E2]. intros path Hp. injection E1 as <-.
    eexists i, _, path. split_and!; [apply lookup_insert_eq|done|done].
  - revert E3. clear. revert c2 c'. intros c c' E.
    enough (respects (tx okp) (modify_sender (λ s, set_rtt (RTT_onAckFailure (rtt s)) s);;
      r ← gets (λ c, rtt (sender c)); w ← lift (WindowSize_onSample r);
      modify_sender (set_windowSize w);; recalculateRetryTimeout)) as Hr by exact (Hr _ _ _ E).
    frame.
Qed.

(** ** Changing the address *)

Lemma tx_sendChallengeResponse p : respects (tx okp) (sendChallengeResponse p).
Proof. unfold sendChallengeResponse. by apply tx_send_plain. Qed.

Lemma challenge_packet_type time a p :
  challenge_packet time a = Some p → h_type (p_header p) = AUTHENTICATE_CHALLENGE.
Proof.
  unfold challenge_packet. set (basis := _ ++ _). clearbody basis.
  destruct (pushSizedData _ basis) as [[p1 b1]|] eqn:E1; simpl; [|done].
  destruct (pushSizedData p1 []) as [[p2 b2]|] eqn:E2; simpl; [|done]. intros [= <-].
  apply pushSizedData_header in E1, E2. by rewrite E2, E1.
Qed.

Lemma tx_sendChallenge a : respects (tx okp) (sendChallenge a).
Proof.
  unfold sendChallenge. intros c [] c'.
  intros (?&?&[= <- <-]&(p1&c1&E1&(p2&c2&E2&E)%bind_some)%bind_some)%bind_some.
  unfold lift in E1, E2.
  destruct (challenge_packet _ None) as [q1|] eqn:Eq1; [|done].
  destruct (challenge_packet _ (Some a)) as [q2|] eqn:Eq2; [|done]. simplify_eq/=.
  apply challenge_packet_type in Eq1, Eq2. eapply tx_sendReliablyMultipath; [|exact E].
  repeat constructor; apply okp_plain || apply plain_sendable; split; simpl; by rewrite ?Eq1, ?Eq2.
Qed.

(** Everything [NetworkPath::onReceive] does, apart from taking over a verified address. *)
Lemma np_onReceive_cases p from c p' d c' :
  np_onReceive p from c = Some ((p', d), c') →
  (tx okp c c' ∧ p' = p ∧
    (d = Keep → h_type (p_header p) = AUTHENTICATE_CHALLENGE ∨ Address_neqb from (remoteAddress c) = false)) ∨
  (h_type (p_header p) = AUTHENTICATE_RESPONSE ∧ p' = (verifyChallengeResponse c p from).1 ∧
   ((d = Discard ∧ c' = c) ∨
    (d = Keep ∧ (verifyChallengeResponse c p from).2 = true ∧
     c' = add_event (AddressChanged from) (set_remoteAddress from c)))).
Proof.
  unfold np_onReceive. intros (?&?&[= <- <-]&E)%bind_some.
  destruct (Z.eqb_spec (h_type (p_header p)) AUTHENTICATE_CHALLENGE) as [Et|_].
  { apply bind_some in E as ([]&c1&E1&[= <- <- <-]). left. split_and!; [by eapply tx_sendChallengeResponse|done|by left]. }
  destruct (Address_neqb from (remoteAddress c)); [|injection E as <- <- <-; left; by split_and!; [|done|right]].
  destruct (Z.eqb_spec (h_type (p_header p)) AUTHENTICATE_RESPONSE) as [Et|_].
  - right. split; [done|]. destruct (verifyChallengeResponse c p from) as [q []].
    + injection E as <- <- <-. split; [done|]. by right.
    + injection E as <- <- <-. split; [done|]. by left.
  - apply bind_some in E as ([]&c1&E1&[= <- <- <-]). left. by split_and!; [eapply tx_sendChallenge|done|].
Qed.
End respects.
