(* ===== verification/NetworkPath.v ===== *)
(** * Changing the network path: [NetworkPath]

    A connection follows its peer to a new address only after the address echoed a challenge.
    The operations are in [Connection.v]; here is what they guarantee. *)

From S2P Require Import Prelude MemCopy Packet ReceiveQueue Types SendQueue Compression Float32 Rtt State Retrier Transmit Invariant Sender Connection Closing Wire.

Section address.
Context `{!Zlib}.

(** Everything else leaves the address alone. *)
Definition any (p : Packet) : Prop := True.

Lemma tx_address {A} (m : C A) : respects (tx any) m → respects (same remoteAddress) m.
Proof.
  intros Hm c a c' E. pose proof (tx_identity _ _ _ (Hm c a c' E)) as Hi. unfold identity in Hi.
  unfold same. by simplify_eq.
Qed.

Lemma handlePacket_address p : respects (same remoteAddress) (handlePacket p).
Proof.
  assert (∀ q a, respects (same remoteAddress) (send q a)) as Hs by (intros; by apply tx_address, tx_send).
  assert (∀ q a, respects (same remoteAddress) (sendReliably q a)) as Hr
    by (intros; by apply tx_address, tx_sendReliably).
  assert (respects (same remoteAddress) onHandshakeComplete) as Hc by (by apply tx_address, tx_onHandshakeComplete).
  unfold handlePacket. frame. unfold same. by case_match.
Qed.

Lemma verifyChallengeResponse_reads c c1 p from :
  clock c1 = clock c → remoteAddress c1 = remoteAddress c →
  verifyChallengeResponse c1 p from = verifyChallengeResponse c p from.
Proof. unfold verifyChallengeResponse. by intros -> ->. Qed.

Lemma receive_address p from c c' :
  receive p from c = Some (tt, c') →
  remoteAddress c' = remoteAddress c ∨
  (remoteAddress c' = from ∧ h_type (p_header p) = AUTHENTICATE_RESPONSE ∧
   (verifyChallengeResponse c p from).2 = true).
Proof.
  unfold receive. intros ([p1 d1]&c1&E1&E)%bind_some.
  assert (remoteAddress c1 = remoteAddress c ∧ clock c1 = clock c ∧
    (h_type (p_header p) ≠ H3 → p1 = p) ∧ p_header p1 = p_header p) as (Ha1&Hk1&Hp1&Hh1).
  { unfold ho_onReceive in E1. destruct (Z.eqb_spec (h_type (p_header p)) H3) as [?|?].
    - pose proof (popData_header p sizeof_HandshakeOptionsData) as Hh.
      destruct (popData p _) as [q [bs|]]; injection E1 as <- <- <-; by split_and!.
    - injection E1 as <- <- <-. by split_and!. }
  case_decide; [injection E as <-; by left|].
  apply bind_some in E as (?&?&[= <- <-]&([]&c2&[= <-]&([p2 d2]&c3&E3&E)%bind_some)%bind_some).
  set (c2 := set_statistics _ c1) in *.
  assert (remoteAddress c' = remoteAddress c3) as ->.
  { case_decide; [by injection E as <-|]. revert E.
    enough (respects (same remoteAddress) (hs_onReceive p2 ≫= λ '(packet, d),
      if decide (d = Discard) then mret tt else pr_on (clock c1);; s_onReceive packet;; rc_onReceive packet))
      as Hr by apply Hr.
    pose proof (handlePacket_address p2). unfold hs_onReceive. frame.
    - by apply tx_address, tx_pr_on.
    - by apply tx_address, tx_s_onReceive.
    - by apply tx_address, tx_rc_onReceive. }
  destruct (np_onReceive_cases any ltac:(done) _ _ _ _ _ _ E3) as [(Htx&_)|(Ht&_&[[_ ->]|(_&Hv&->)])].
  - left. pose proof (tx_identity _ _ _ Htx) as Hi. unfold identity in Hi. simplify_eq. simpl in *. congruence.
  - left. done.
  - right. rewrite Hh1 in Ht. split_and!; [done|done|]. rewrite <-(Hp1 ltac:(by rewrite Ht)).
    rewrite <-Hv. f_equal. symmetry. by apply verifyChallengeResponse_reads.
Qed.
End address.

(** ** Echoed challenges *)

(** The address a challenge asks about: the established path when it names none. *)
Definition asked (c : Connection) (a : option Address) : Address :=
  match a with
  | Some a => if Address_eqb a Address_empty then remoteAddress c else a
  | None => remoteAddress c
  end.

Lemma Address_eqb_refl a : Address_eqb a a = true.
Proof. unfold Address_eqb. by rewrite memcmp_refl. Qed.

Lemma Address_eqb_sym a b : Address_eqb a b = Address_eqb b a.
Proof. unfold Address_eqb. rewrite (memcmp_antisym a b). by destruct (Z.eqb_spec (memcmp b a) 0), (Z.eqb_spec (- memcmp b a) 0); lia. Qed.

Lemma negb_Address_neqb a b : negb (Address_neqb a b) = Address_eqb a b.
Proof. unfold Address_neqb, Address_eqb. by rewrite negb_involutive. Qed.

(** A response with any signature: time and address decide. *)
Lemma verify_basis c p from time a (signature : bytes) :
  let basis := le_encode 8 time ++ default Address_empty a in
  packet_wf p → in_u 64 time → Z.of_nat (length (default Address_empty a)) = sizeof_Address →
  payload p = basis ++ le_encode 2 36 ++ signature ++ le_encode 2 (Z.of_nat (length signature)) →
  ∃ p1 p2, popSizedData p = (p1, Some signature) ∧ popSizedData p1 = (p2, Some basis) ∧
    verifyChallengeResponse c p from =
      (p2, (wrap 64 (seconds (clock c) - time) <=? 60) && Address_eqb from (asked c a)).
Proof.
  intros basis Hp Ht Ha Hpay. unfold sizeof_Address in Ha.
  assert (length basis = 36%nat) as Hb by (unfold basis; rewrite length_app, le_encode_length; lia).
  destruct (popSizedData_app p (basis ++ le_encode 2 36) signature) as (p1&E1&Hp1&Hpay1&_);
    [done|by rewrite Hpay, <-app_assoc|].
  destruct (popSizedData_app p1 [] basis) as (p2&E2&_); [done|by rewrite Hpay1, Hb|].
  exists p1, p2. split_and!; [done|done|]. unfold verifyChallengeResponse. rewrite E1, E2. f_equal.
  rewrite Hb. unfold sizeof_Address.
  assert (take 8 basis = le_encode 8 time ∧ drop 8 basis = default Address_empty a) as [-> ->].
  { unfold basis. split; [apply take_app_length'|apply drop_app_length']; by rewrite le_encode_length. }
  rewrite (le_decode_encode 8 time) by done. change (negb (Z.of_nat 36 =? 28 + 8)) with false. cbv iota.
  destruct (Z.ltb_spec 60 (wrap 64 (seconds (clock c) - time))), (Z.leb_spec (wrap 64 (seconds (clock c) - time)) 60);
    try lia; cbn [andb]. unfold asked. destruct a as [a|]; cbn [default Datatypes.id].
  - destruct (Address_eqb a Address_empty); rewrite negb_Address_neqb; [done|apply Address_eqb_sym].
  - rewrite Address_eqb_refl. apply negb_Address_neqb.
Qed.

Lemma verify_echo c p from time a q :
  packet_wf p → in_u 64 time → Z.of_nat (length (default Address_empty a)) = sizeof_Address →
  challenge_packet time a = Some q → payload p = payload q →
  (verifyChallengeResponse c p from).2 =
    (wrap 64 (seconds (clock c) - time) <=? 60) && Address_eqb from (asked c a).
Proof.
  intros Hp Ht Ha Hq Hpay. destruct (challenge_packet_spec time a Ha) as (q'&E&_&_&Epay).
  rewrite Hq in E. injection E as <-. rewrite Epay in Hpay.
  destruct (verify_basis c p from time a [] Hp Ht Ha) as (p1&p2&_&_&->); [by rewrite Hpay|done].
Qed.

(** ** Claims *)

(** C29: the address follows only an echoed challenge. In every well-formed state a packet is
    received to the end, and afterwards the peer's address is the old one, unless the packet is a
    response that [verifyChallengeResponse] accepts from exactly the new address. And of the
    responses that echo a challenge, those are accepted that arrive within 60 seconds of the
    challenge, from the address the challenge was sent to (the established address for the
    challenge sent on the established path), and no others. *)
Theorem address_follows_challenge `{!Zlib} (c : Connection) (p : Packet) (from : Address) :
  conn_inv c → data_packet_ok p → h3_ok p → challenge_ok from c →
  ∃ c', receive p from c = Some (tt, c') ∧
    (remoteAddress c' = remoteAddress c ∨
     (remoteAddress c' = from ∧ h_type (p_header p) = AUTHENTICATE_RESPONSE ∧
      (verifyChallengeResponse c p from).2 = true)) ∧
    (∀ time a q, in_u 64 time → Z.of_nat (length (default Address_empty a)) = sizeof_Address →
      challenge_packet time a = Some q → payload p = payload q →
      (verifyChallengeResponse c p from).2 =
        (wrap 64 (seconds (clock c) - time) <=? 60) && Address_eqb from (asked c a)).
Proof.
  intros Hc Hp Hh3 Hch. pose proof (safe_receive p from c Hp Hh3 Hch Hc) as Hs.
  apply wp_some in Hs as ([]&c'&E&_). exists c'. split_and!; [done|by apply receive_address|].
  intros. eapply verify_echo; [apply Hp|done..].
Qed.

(** The echo of a challenge, as the peer's [sendChallengeResponse] returns it. *)
Definition example_echo : Packet :=
  match challenge_packet 1 (Some (replicate 28 Byte.x02)) with
  | Some q => set_type q AUTHENTICATE_RESPONSE
  | None => new_Packet
  end.

#[local] Existing Instance Zlib_stored.
#[local] Existing Instance ZlibLaws_stored.

Lemma address_follows_challenge_witness :
  ∃ c', receive example_echo (replicate 28 Byte.x02) example_connection = Some (tt, c') ∧
    (remoteAddress c' = remoteAddress example_connection ∨
     (remoteAddress c' = replicate 28 Byte.x02 ∧ h_type (p_header example_echo) = AUTHENTICATE_RESPONSE ∧
      (verifyChallengeResponse example_connection example_echo (replicate 28 Byte.x02)).2 = true)) ∧
    (∀ time a q, in_u 64 time → Z.of_nat (length (default Address_empty a)) = sizeof_Address →
      challenge_packet time a = Some q → payload example_echo = payload q →
      (verifyChallengeResponse example_connection example_echo (replicate 28 Byte.x02)).2 =
        (wrap 64 (seconds (clock example_connection) - time) <=? 60) &&
        Address_eqb (replicate 28 Byte.x02) (asked example_connection a)).
Proof.
  apply address_follows_challenge.
  - apply example_connection_inv.
  - split; [split; [vm_compute; reflexivity|vm_compute; split; discriminate]|].
    split; intros E; vm_compute in E; discriminate.
  - intros d E. vm_compute in E. discriminate.
  - split; [vm_compute; reflexivity|]. right. vm_compute. intros E. inversion E.
Defined.

(** Run: the echo moves the connection to the new address. *)
Example address_change_run :
  match receive example_echo (replicate 28 Byte.x02) example_connection with
  | Some (_, c') => remoteAddress c' = replicate 28 Byte.x02
  | None => False
  end.
Proof. by vm_compute. Qed.
