(* ===== verification/Lifecycle.v ===== *)
(** * Connections as state machines

    A connection reacts to inputs: packets, timers, and calls of the user. [step] is one
    reaction at some later time of the clock; [reachable] are the states of a connection after a
    sequence of inputs from its construction. *)

From S2P Require Import Prelude MemCopy Packet ReceiveQueue Types Asio Datagram SendQueue Compression Float32 Rtt State Retrier Transmit Invariant Sender Connection.

Inductive Input :=
  | Arrives (p : Packet) (from : Address)  (* Socket::receive, once the connection is found *)
  | RetryTimeout | ProbeTimeout | FinishTimeout
  | QueueTimeout (r : Reliability)
  | OpenUser (o : option ConnectionOptions) (rh ch : bool)
  | Open                                   (* Connection::open, the native open succeeding *)
  | Initiate                               (* Handshake::initiate, by Socket::connect *)
  | UserSend (data : bytes) (r : Reliability)
  | UserClose                              (* mrudp_close_connection *)
  | NotAccepted.                           (* the accept handler refused *)

Definition is_OpenUser (i : Input) : bool := match i with OpenUser _ _ _ => true | _ => false end.

Section machine.
Context `{!Zlib}.

Definition handle (i : Input) : C unit :=
  match i with
  | Arrives p from => receive p from
  | RetryTimeout => onRetryTimeout
  | ProbeTimeout => pr_onTimeout
  | FinishTimeout => finish
  | QueueTimeout r => processSchedule r
  | OpenUser o rh ch => openUser o rh ch
  | Open => open MRUDP_OK;; mret tt
  | Initiate => initiate
  | UserSend data r => send_data data r;; mret tt
  | UserClose => user_close
  | NotAccepted => close_event MRUDP_EVENT_NOT_ACCEPTED
  end.

(** The inputs the theorems are about. Packets have headers as datagrams bring them. [data_packet_ok] and [h3_ok] exclude packets on which the
    source leaves the bounds of a packet or of an [int]; [challenge_ok] that a packet from a new
    address arrives while the next packet id still waits for its acknowledgement. *)
Definition valid (i : Input) (c : Connection) : Prop :=
  match i with
  | Arrives p from => Header_wf (p_header p) ∧ data_packet_ok p ∧ h3_ok p ∧ challenge_ok from c
  | OpenUser (Some o) _ _ => options_ok (merge o (options c)) ∧ uncompressed (merge o (options c))
  | UserSend data _ => Z.of_nat (length data) < 2 ^ 31
  | _ => True
  end.

Inductive step (c : Connection) (i : Input) (c' : Connection) : Prop :=
  | step_intro t : clock c ≤ t → valid i (set_clock t c) →
      handle i (set_clock t c) = Some (tt, c') → step c i c'.

(** Constructed for a peer, with options the service was started with. *)
Definition initial (c : Connection) : Prop :=
  ∃ i a l o t, c = Connection_init i a l o t ∧ length i = 16%nat ∧ options_ok o ∧ uncompressed o.

Inductive reachable : list Input → Connection → Prop :=
  | reachable_init c : initial c → reachable [] c
  | reachable_step ins c i c' : reachable ins c → step c i c' → reachable (ins ++ [i]) c'.

(** ** The invariant holds *)

Lemma initial_inv c : initial c → conn_inv c.
Proof.
  intros (i&a&l&o&t&->&Hi&Ho&Hu). by apply Connection_init_inv.
Qed.

Lemma set_clock_inv t c : conn_inv c → conn_inv (set_clock t c).
Proof. intros Hc. split; apply Hc. Qed.

Lemma openUser_wp o rh ch c :
  conn_inv c → valid (OpenUser o rh ch) c →
  wp (openUser o rh ch) (λ _ c', conn_inv c' ∧ events c' = events c ∧
    (userDataDisposed c' = false)) c.
Proof.
  intros Hc Hv. unfold openUser. apply wp_bind, wp_modify, wp_bind, wp_mget.
  set (c1 := match o with Some o => _ | None => _ end).
  assert (conn_inv c1 ∧ events c1 = events c ∧ userDataDisposed c1 = userDataDisposed c) as (Hc1&He1&Hd1).
  { unfold c1. destruct o as [o|]; [|done]. destruct Hv. split_and!; [|done|done].
    split; simpl; apply Hc || done. }
  destruct (userDataDisposed c1) eqn:Hd; simpl.
  - apply wp_modify. split_and!; [|done|done]. split; simpl; apply Hc1 || done.
  - apply wp_ret. split_and!; done.
Qed.

(** Every input but [OpenUser] is a safe handler. *)
Lemma handle_safe i c :
  valid i c → is_OpenUser i = false → safe (handle i) c.
Proof.
  intros Hv Hno. destruct i; cbn [handle valid] in *.
  - destruct Hv as (_&?&?&?). by apply safe_receive.
  - apply safe_onRetryTimeout.
  - apply safe_pr_onTimeout.
  - by apply safe_emit.
  - apply safe_processSchedule.
  - done.
  - apply safe_bind; [|intros; apply safe_ret]. unfold open. cbn [mrudp_failed].
    apply safe_gets. apply safe_bind; [apply safe_pr_on|]. intros; apply safe_ret.
  - apply safe_initiate.
  - apply safe_bind; [by apply safe_send_data|]. intros; apply safe_ret.
  - apply safe_user_close.
  - apply safe_close_event.
Qed.

Lemma handle_wp i c : conn_inv c → valid i c → wp (handle i) (λ _ c', conn_inv c') c.
Proof.
  intros Hc Hv. destruct (is_OpenUser i) eqn:Ei.
  - destruct i; try done. eapply wp_mono; [by apply openUser_wp|]. by intros [] c' (?&_).
  - eapply wp_mono; [by apply handle_safe|]. by intros [] c' [? _].
Qed.

Lemma reachable_inv ins c : reachable ins c → conn_inv c.
Proof.
  induction 1 as [c Hi|ins c i c' _ Hc [t _ Hv E]]; [by apply initial_inv|].
  pose proof (handle_wp i (set_clock t c) (set_clock_inv t c Hc) Hv) as Hw. unfold wp in Hw.
  by rewrite E in Hw.
Qed.

Definition opens (ins : list Input) : Z := Z.of_nat (length (List.filter is_OpenUser ins)).

Lemma opens_snoc ins i : opens (ins ++ [i]) = opens ins + Z.b2z (is_OpenUser i).
Proof. unfold opens. rewrite List.filter_app, length_app. simpl. destruct (is_OpenUser i); simpl; lia. Qed.

(** Every close notification is paid for by an [OpenUser]. *)
Lemma reachable_closed ins c :
  reachable ins c → n_closed (events c) + Z.b2z (negb (userDataDisposed c)) ≤ opens ins.
Proof.
  induction 1 as [c (i&a&l&o&t&->&_)|ins c i c' Hr IH [t _ Hv E]]; [done|].
  pose proof (set_clock_inv t c (reachable_inv _ _ Hr)) as Hc. rewrite opens_snoc.
  destruct (is_OpenUser i) eqn:Ei.
  - destruct i as [| | | | |o rh ch| | | | |]; try done.
    pose proof (openUser_wp o rh ch (set_clock t c) Hc Hv) as Hw. unfold wp in Hw.
    cbn [handle] in E. rewrite E in Hw. destruct Hw as (_&He&Hd). rewrite He, Hd. simpl.
    change (events (set_clock t c)) with (events c). destruct (userDataDisposed c); simpl in *; lia.
  - pose proof (handle_safe i (set_clock t c) Hv Ei Hc) as Hw. unfold wp in Hw. rewrite E in Hw.
    destruct Hw as [_ He]. pose proof (ev_user _ _ He) as Hu. simpl in *. lia.
Qed.
End machine.

(** ** Claims *)

(** C6: the connection state machine is defined and keeps its invariant. In every reachable
    state the invariant holds, and every further valid input is handled to the end: no access
    outside a buffer, no dereference of a missing retry, no undefined conversion, no endless
    loop. *)
Theorem connection_progress `{!Zlib} (ins : list Input) (c : Connection) (i : Input) (t : Z) :
  reachable ins c → clock c ≤ t → valid i (set_clock t c) →
  conn_inv c ∧ ∃ c', step c i c' ∧ reachable (ins ++ [i]) c'.
Proof.
  intros Hr Ht Hv. pose proof (reachable_inv _ _ Hr) as Hc. split; [done|].
  pose proof (handle_wp i (set_clock t c) (set_clock_inv t c Hc) Hv) as Hw.
  apply wp_some in Hw as ([]&c'&E&_). exists c'.
  assert (step c i c') by (by econstructor). split; [done|by econstructor].
Qed.

Lemma example_initial : initial example_connection.
Proof.
  do 5 eexists. split_and!; [done|done| |].
  - split; simpl; lia.
  - by vm_compute.
Qed.

#[local] Existing Instance Zlib_stored.
#[local] Existing Instance ZlibLaws_stored.

Lemma connection_progress_witness :
  conn_inv example_connection ∧
  ∃ c', step example_connection Initiate c' ∧ reachable ([] ++ [Initiate]) c'.
Proof.
  apply (connection_progress [] example_connection Initiate 1000000000).
  - apply reachable_init, example_initial.
  - vm_compute. discriminate.
  - exact I.
Defined.

(** C7: the user hears of the end once. For every history of a connection, the number of close
    notifications is at most the number of times the user opened it; from the moment the user's
    data is disposed, until it is opened again, neither another notification nor any received
    data reaches the user; and closing, sender and receiver states and the retrier never go
    back. *)
Theorem connection_close_once `{!Zlib} (ins : list Input) (c : Connection) :
  reachable ins c →
  n_closed (events c) ≤ opens ins ∧
  ∀ i c', step c i c' → is_OpenUser i = false →
    (userDataDisposed c = true →
     userDataDisposed c' = true ∧ n_closed (events c') = n_closed (events c) ∧
     n_received (events c') = n_received (events c)) ∧
    (closed c = true → closed c' = true) ∧
    status_rank (s_status (sender c)) ≤ status_rank (s_status (sender c')) ∧
    status_rank (r_status (receiver c)) ≤ status_rank (r_status (receiver c')) ∧
    (rt_status (retrier (sender c)) = CLOSED → rt_status (retrier (sender c')) = CLOSED) ∧
    events c `prefix_of` events c'.
Proof.
  intros Hr. split; [pose proof (reachable_closed _ _ Hr); destruct (userDataDisposed c); simpl in *; lia|].
  intros i c' [t _ Hv E] Hno.
  pose proof (handle_safe i (set_clock t c) Hv Hno (set_clock_inv t c (reachable_inv _ _ Hr))) as Hw.
  unfold wp in Hw. rewrite E in Hw. destruct Hw as [_ He]. destruct He as [H1 H2 H3 H4 H4' H5 H6 H7 H8 _ _].
  simpl in *. split_and!; try done. intros Hd. specialize (H6 Hd). split_and!; [done| |by apply H8].
  rewrite Hd, H6 in H7. simpl in H7. destruct H1 as [l Hl]. rewrite Hl in *.
  assert (n_closed (events c) ≤ n_closed (events c ++ l)); [|lia].
  unfold n_closed. rewrite List.filter_app, length_app. lia.
Qed.

Lemma connection_close_once_witness :
  n_closed (events example_connection) ≤ opens [] ∧
  ∀ i c', step example_connection i c' → is_OpenUser i = false →
    (userDataDisposed example_connection = true →
     userDataDisposed c' = true ∧ n_closed (events c') = n_closed (events example_connection) ∧
     n_received (events c') = n_received (events example_connection)) ∧
    (closed example_connection = true → closed c' = true) ∧
    status_rank (s_status (sender example_connection)) ≤ status_rank (s_status (sender c')) ∧
    status_rank (r_status (receiver example_connection)) ≤ status_rank (r_status (receiver c')) ∧
    (rt_status (retrier (sender example_connection)) = CLOSED → rt_status (retrier (sender c')) = CLOSED) ∧
    events example_connection `prefix_of` events c'.
Proof. apply connection_close_once. apply reachable_init, example_initial. Defined.
