(* ===== verification/GivingUp.v ===== *)
(** * A peer that has gone silent: how [Retrier::onRetryTimeout] gives up

    [Closing.v] says what one expiry of the retry timer does. Here the timer expires again and
    again and nothing arrives: the packet that is waited for is sent as often as the options allow,
    and then the connection closes and its user is told. *)

From S2P Require Import Prelude MemCopy Packet ReceiveQueue Types SendQueue Compression Float32 Rtt State Retrier Transmit Invariant Sender Connection Closing Wire NetworkPath Lifecycle.
#[local] Open Scope Z_scope.

Section silence.
Context `{!Zlib}.

(** What the user was told of the end. *)
Definition reason (e : Event) : option mrudp_event_t := match e with UserClosed r => Some r | _ => None end.
Definition reasons (c : Connection) : list mrudp_event_t := omap reason (events c).

(** What a retransmission leaves alone. *)
Definition left_alone (c : Connection) :=
  (options c, closed c, userDataDisposed c, closeHandler c, remoteID c, id c, dataQueue (sender c),
   priority (retrier (sender c)), reasons c).

(** The rest of a round, when a packet is overdue and may be sent again. *)
Definition again (i : Z) (x : Retry) (t : Z) : C unit :=
  set_retry i (mkRetry (paths x) t (retryAt x) (size_t (attempts x + 1)) (priority_ x));;
  mapM_ (λ p, resend (pp_packet p) (pp_address p)) (paths x);;
  modify_sender (λ s, set_rtt (RTT_onAckFailure (rtt s)) s);;
  r ← gets (λ c, rtt (sender c));
  w ← lift (WindowSize_onSample r);
  modify_sender (set_windowSize w);;
  recalculateRetryTimeout.

Lemma again_leaves i x t : respects (same left_alone) (again i x t).
Proof.
  unfold again, recalculateRetryTimeout, getNextRetry, resend, send_, modify_statistics, pr_on, recalculateProbeTimeout,
    registerTimeout, set_retry, modify_retrier, modify_sender, emit. frame.
  all: unfold same, left_alone, reasons; simpl; by rewrite ?omap_app, ?app_nil_r.
Qed.

(** Whose turn it is depends on which packets there are. *)
Lemma first_cores c c' :
  dom (cores c') = dom (cores c) → priority (retrier (sender c')) = priority (retrier (sender c)) →
  first_retry (retrier (sender c')) = first_retry (retrier (sender c)).
Proof. unfold first_retry, cores. intros Hd ->. by rewrite !dom_fmap_L in Hd; rewrite Hd. Qed.

Lemma core_lookup c i z :
  cores c !! i = Some z → ∃ x, window (retrier (sender c)) !! i = Some x ∧ core x = z.
Proof. unfold cores. rewrite lookup_fmap. destruct (window (retrier (sender c)) !! i) as [x|]; [|done]. intros [= <-]. by exists x. Qed.

Lemma recalculateRetryTimeout_timer i x c c' :
  getNextRetry c = Some (Some (i, x), c) → rtt_ok (rtt (sender c)) → recalculateRetryTimeout c = Some (tt, c') →
  ∃ d, 0 ≤ d < 2 ^ 17 ∧ events c' = events c ++ [Scheduled RetryTimer (sentAt x + d * 1000000)] ∧
    window (retrier (sender c')) !! i = Some (mkRetry (paths x) (sentAt x) (sentAt x + d * 1000000) (attempts x) (priority_ x)).
Proof.
  intros En Hr E. destruct (toDuration_retry _ Hr) as (d&Ed&Hd). exists d. split; [done|].
  unfold recalculateRetryTimeout in E. apply bind_some in E as (?&?&En'&E). rewrite En in En'. injection En' as <- <-.
  apply bind_some in E as (?&?&[= <- <-]&E). apply bind_some in E as (?&?&El&E). unfold lift in El. rewrite Ed in El. injection El as <- <-.
  apply bind_some in E as ([]&?&[= <-]&[= <-]). simpl. by rewrite lookup_insert_eq.
Qed.

Lemma again_timer i x t c c' :
  conn_inv c → window (retrier (sender c)) !! i = Some x → first_retry (retrier (sender c)) = Some i → clock c = t →
  0 ≤ attempts x + 1 < 2 ^ 64 → again i x t c = Some (tt, c') →
  ∃ y d, 0 ≤ d < 2 ^ 17 ∧ getNextRetry c' = Some (Some (i, y), c') ∧ y = mkRetry (paths x) t (t + d * 1000000) (attempts x + 1) (priority_ x) ∧
    last (events c') = Some (Scheduled RetryTimer (retryAt y)) ∧ ∃ ts, resends c (paths x) ts ∧ transmissions c' = transmissions c ++ ts.
Proof.
  intros Hc Hx Hf Et Ha E. pose proof (retransmit_wp i x c Hc Hx) as Hw. unfold wp in Hw. rewrite Et in Hw. fold (again i x t) in Hw.
  pose proof (again_leaves _ _ _ _ _ _ E) as Hl. injection Hl as _ _ _ _ _ _ _ Hpr _. rewrite E in Hw. destruct Hw as (Hts&Hco&Hr&_).
  unfold again in E. apply bind_some in E as ([]&c1&_&([]&c2&_&([]&c3&_&(r&?&[= <- <-]&(w&c3'&_&([]&c4&_&E5)%bind_some)%bind_some)%bind_some)%bind_some)%bind_some).
  pose proof (recalculateRetryTimeout_cores _ _ _ E5) as Eco. unfold same in Eco.
  pose proof (recalculateRetryTimeout_rtt _ _ _ E5) as Ert. unfold same in Ert. injection Ert as Ert _.
  assert (priority (retrier (sender c')) = priority (retrier (sender c4))) as Ep.
  { assert (respects (same (λ c, priority (retrier (sender c)))) recalculateRetryTimeout) as Hp
      by (unfold recalculateRetryTimeout, getNextRetry, set_retry, modify_retrier, modify_sender, emit; frame). exact (Hp _ _ _ E5). }
  assert (size_t (attempts x + 1) = attempts x + 1) as Es by (by apply wrap_small). rewrite Es, Et in Hco.
  assert (dom (cores c') = dom (cores c)) as Hd.
  { rewrite Hco, dom_insert_L. assert (i ∈ dom (cores c)); [|set_solver]. unfold cores. rewrite dom_fmap_L. by eapply elem_of_dom_2. }
  assert (first_retry (retrier (sender c')) = Some i) as Hf' by (by rewrite (first_cores c c')).
  assert (first_retry (retrier (sender c4)) = Some i) as Hf4 by (by rewrite <-(first_cores c4 c'); [|rewrite Eco|]).
  destruct (core_lookup c4 i (paths x, t, attempts x + 1, priority_ x)) as (z&Hz&Ez); [by rewrite <-Eco, Hco, lookup_insert_eq|].
  injection Ez as Ez1 Ez2 Ez3 Ez4.
  destruct (recalculateRetryTimeout_timer i z c4 c') as (d&Hd'&Ee&Hw); [by apply getNextRetry_first| |done|].
  { rewrite <-Ert, Hr. apply calculate_ok. }
  rewrite Ez1, Ez2, Ez3, Ez4 in *. eexists _, d. split_and!; [lia|lia|by apply getNextRetry_first|done| |done].
  by rewrite Ee, last_snoc.
Qed.

(** The packets of a retry as they go on the wire. *)
Definition wire_of (c : Connection) (p : PacketPath) : Packet * option Address :=
  (default (pp_packet p) (wire_form c (pp_packet p)), pp_address p).

Lemma resends_wire c l ts : resends c l ts → ts = wire_of c <$> l.
Proof. induction 1 as [|p [w a] l ts [Hw Ha] _ IH]; [done|]. simpl in *. rewrite IH. f_equal. unfold wire_of. by rewrite Hw, Ha. Qed.

(** One round: the packet is sent again and its timer set anew. *)
Record round (i : Z) (x : Retry) (t : Z) (c : Connection) (y : Retry) (c' : Connection) : Prop := {
  rd_done : onRetryTimeout (set_clock t c) = Some (tt, c');
  rd_inv : conn_inv c';
  rd_same : left_alone c' = left_alone c;
  rd_next : getNextRetry c' = Some (Some (i, y), c');
  rd_attempts : attempts y = attempts x + 1;
  rd_paths : paths y = paths x;
  rd_timer : t ≤ retryAt y < t + 2 ^ 17 * 1000000 ∧ last (events c') = Some (Scheduled RetryTimer (retryAt y));
  rd_sent : transmissions c' = transmissions c ++ (wire_of c <$> paths x);
}.

Lemma next_round c i x t :
  conn_inv c → getNextRetry c = Some (Some (i, x), c) → retryAt x < t → attempts x < maximum_retry_attempts (options c) →
  ∃ y c', round i x t c y c'.
Proof.
  intros Hc Hn Ht Ha. pose proof (proj1 (getNextRetry_first _ _ _) Hn) as [Hf Hx]. pose proof (set_clock_inv t c Hc) as Hct.
  destruct (ci_window _ Hc i x Hx) as (_&_&Ha0). pose proof (proj2 (ci_options _ Hc)) as Hm.
  pose proof (safe_onRetryTimeout _ Hct) as ([]&c'&E&Hc'&_)%wp_some.
  assert (again i x t (set_clock t c) = Some (tt, c')) as Ea.
  { revert E. unfold onRetryTimeout. intros (?&?&[= <- <-]&(n&c0&En&E)%bind_some)%bind_some.
    rewrite (proj2 (getNextRetry_first (set_clock t c) i x)) in En by done. injection En as <- <-. simpl in E.
    rewrite (proj2 (Z.ltb_lt _ _) Ht) in E. apply bind_some in E as (?&?&[= <- <-]&E). simpl in E.
    rewrite (proj2 (Z.leb_gt _ _)) in E; [done|]. rewrite wrap_small; [done|unfold in_u; lia]. }
  assert (0 ≤ attempts x + 1 < 2 ^ 64) as Hs by lia.
  destruct (again_timer i x t (set_clock t c) c' Hct Hx Hf eq_refl Hs Ea) as (y&d&Hd&Hny&->&Hl&ts&->%resends_wire&Hts).
  eexists _, c'. split; [done|done|exact (again_leaves _ _ _ _ _ _ Ea)|done|done|done|split; [cbn [retryAt]; lia|exact Hl]|done].
Qed.

(** ** Silence *)

(** The retry timer expires [n] times, each time at most [late] after the packet is overdue, and
    nothing else happens. *)
Inductive silence (late : Z) (c : Connection) : nat → Connection → Prop :=
  | silence_none : silence late c 0 c
  | silence_fires n c1 i x t c' :
      silence late c n c1 → getNextRetry c1 = Some (Some (i, x), c1) → retryAt x < t ≤ retryAt x + late →
      onRetryTimeout (set_clock t c1) = Some (tt, c') → silence late c (S n) c'.

(** After [n] rounds the connection still waits for the packet [x] under the id [i]. *)
Record waiting (late : Z) (c : Connection) (i : Z) (x : Retry) (n : nat) (c1 : Connection) (y : Retry) : Prop := {
  wa_inv : conn_inv c1;
  wa_same : left_alone c1 = left_alone c;
  wa_next : getNextRetry c1 = Some (Some (i, y), c1);
  wa_attempts : attempts y = attempts x + Z.of_nat n;
  wa_paths : paths y = paths x;
  wa_timer : retryAt y ≤ retryAt x + Z.of_nat n * (2 ^ 17 * 1000000 + late);
  wa_armed : n ≠ 0%nat → last (events c1) = Some (Scheduled RetryTimer (retryAt y));
  wa_sent : transmissions c1 = transmissions c ++ concat (replicate n (wire_of c <$> paths x));
}.

Lemma waiting_round late c i x n c1 y t z c' :
  waiting late c i x n c1 y → retryAt y < t ≤ retryAt y + late → round i y t c1 z c' → waiting late c i x (S n) c' z.
Proof.
  intros [Hc Hs Hn Ha Hp Ht _ Hsent] Hlate [_ Hc' Hs' Hn' Ha' Hp' [Ht' Hl] Hsent']. pose proof Hs as Hs0. injection Hs0 as _ _ _ _ Hr Hi _ _ _.
  split; try done; [congruence|lia|congruence|lia|].
  rewrite Hsent', Hsent, Hp, replicate_S_end, concat_app. simpl. rewrite app_nil_r, <-app_assoc. do 2 f_equal.
  unfold wire_of, wire_form. by rewrite Hr, Hi.
Qed.

Lemma silence_waiting late c i x n c1 :
  conn_inv c → getNextRetry c = Some (Some (i, x), c) → attempts x + Z.of_nat n ≤ maximum_retry_attempts (options c) →
  silence late c n c1 → ∃ y, waiting late c i x n c1 y.
Proof.
  intros Hc Hn Hm Hs. revert Hm. induction Hs as [|n c1 j z t c' _ IH Hz Ht E]; intros Hm.
  - exists x. split; try done; [lia|lia|]. simpl. by rewrite app_nil_r.
  - destruct IH as [y Hy]; [lia|]. pose proof (wa_next _ _ _ _ _ _ _ Hy) as Hny. rewrite Hny in Hz. injection Hz as <- <-.
    pose proof (wa_same _ _ _ _ _ _ _ Hy) as Ho. injection Ho as Ho _ _ _ _ _ _ _ _.
    destruct (next_round c1 i y t) as (w&c2&Hr); [apply Hy|done|lia|rewrite Ho, (wa_attempts _ _ _ _ _ _ _ Hy); lia|].
    assert (c2 = c') as -> by (pose proof (rd_done _ _ _ _ _ _ Hr); congruence). exists w. by eapply waiting_round.
Qed.

(** As long as there are attempts left the timer can go on expiring. *)
Lemma silence_goes_on late c i x n :
  0 < late → conn_inv c → getNextRetry c = Some (Some (i, x), c) → attempts x + Z.of_nat n ≤ maximum_retry_attempts (options c) →
  ∃ c1, silence late c n c1.
Proof.
  intros Hlate Hc Hn. induction n as [|n IH]; intros Hm; [by exists c; constructor|]. destruct IH as [c1 Hs]; [lia|].
  destruct (silence_waiting late c i x n c1) as [y Hy]; [done|done|lia|done|].
  pose proof (wa_same _ _ _ _ _ _ _ Hy) as Ho. injection Ho as Ho _ _ _ _ _ _ _ _.
  destruct (next_round c1 i y (retryAt y + 1)) as (z&c2&Hr);
    [apply Hy|apply Hy|lia|rewrite Ho, (wa_attempts _ _ _ _ _ _ _ Hy); lia|].
  exists c2. eapply silence_fires; [exact Hs|apply Hy| |apply Hr]. lia.
Qed.

(** The last expiry fails the connection. *)
Lemma last_round c i x t :
  getNextRetry c = Some (Some (i, x), c) → retryAt x < t → 0 ≤ maximum_retry_attempts (options c) < 2 ^ 15 →
  maximum_retry_attempts (options c) ≤ attempts x → onRetryTimeout (set_clock t c) = fail MRUDP_EVENT_TIMEOUT (set_clock t c).
Proof.
  intros Hn Ht Hm Ha. pose proof (proj1 (getNextRetry_first _ _ _) Hn) as [Hf Hx]. unfold onRetryTimeout.
  unfold mbind at 1, M_bind at 1, gets at 1. unfold mbind at 1, M_bind at 1.
  rewrite (proj2 (getNextRetry_first (set_clock t c) i x)) by done. simpl. rewrite (proj2 (Z.ltb_lt _ _) Ht).
  unfold mbind at 1, M_bind at 1, gets at 1. simpl. rewrite (proj2 (Z.leb_le _ _)); [done|]. rewrite wrap_small; [done|unfold in_u; lia].
Qed.

Lemma fail_clock event : respects (same clock) (fail event).
Proof.
  unfold fail, pr_close, rc_fail, s_fail, rt_close, on_queue, possiblyClose, close_event, closeUser, finishWhenReady,
    modify_retrier, modify_sender, emit. frame; [by case_decide|..].
  all: intros ? ? ?; destruct (SendQueue.close _) as [[? ?]|]; [by intros [= <- <-]|done].
Qed.

(** What is left when the last round is over. *)
Record given_up (c c' : Connection) : Prop := {
  gu_closed : closed c' = true;
  gu_disposed : userDataDisposed c' = true;
  gu_window : window (retrier (sender c')) = ∅;
  gu_told : reasons c' = reasons c ++ (if negb (userDataDisposed c) && closeHandler c then [MRUDP_EVENT_TIMEOUT] else []);
  gu_finish : ∃ t, last (events c') = Some (Scheduled FinishTimer t);
}.

Lemma failed_given_up c t c' :
  conn_inv c → closed c = false → status (dataQueue (sender c)) = OPEN → fail MRUDP_EVENT_TIMEOUT (set_clock t c) = Some (tt, c') →
  given_up c c' ∧ transmissions c' = transmissions c ∧ clock c' = t.
Proof.
  intros Hc Hcl Ho E. destruct (fail_closes (set_clock t c) MRUDP_EVENT_TIMEOUT (set_clock_inv t c Hc) Hcl Ho)
    as (c1&d&E1&_&H1&H2&_&_&H3&He). rewrite E in E1. injection E1 as <-. pose proof (fail_clock _ _ _ _ E) as Hk. unfold same in Hk.
  split_and!; [split; [done|done|done| |]| |done].
  - unfold reasons. rewrite He, !omap_app. simpl. rewrite app_nil_r. by destruct (_ && _).
  - exists (t + d * 1000000). by rewrite He, app_assoc, last_snoc.
  - unfold transmissions. rewrite He, !omap_app. simpl. rewrite app_nil_r. destruct (_ && _); simpl; by rewrite app_nil_r.
Qed.
End silence.

(** ** Claim *)

(** C5: a connection whose peer has gone silent gives up, in bounded time. Let [x] be the packet
    whose turn it is when nothing arrives any more. While the retry timer goes on expiring, each
    time at most [late] after the packet is overdue, the packet is sent again with every expiry, in the same wire
    form, nothing else is sent, and the timer is set anew, for at most 2^17 milliseconds later:
    exactly as often as the options have attempts left for the packet. The expiry after that
    fails the connection: it is closed with nothing left to retry, the user is told of a timeout,
    once, if it is there and has a handler, and the connection waits to be erased. *)
Theorem silent_peer_given_up `{!Zlib} (late : Z) (c : Connection) (i : Z) (x : Retry) :
  0 < late → conn_inv c → closed c = false → status (dataQueue (sender c)) = OPEN →
  getNextRetry c = Some (Some (i, x), c) → attempts x ≤ maximum_retry_attempts (options c) →
  let n := Z.to_nat (maximum_retry_attempts (options c) - attempts x) in
  let again k := concat (replicate k (wire_of c <$> paths x)) in
  let deadline k := retryAt x + Z.of_nat k * (2 ^ 17 * 1000000 + late) in
  (∀ k, (k ≤ S n)%nat → ∃ c1, silence late c k c1) ∧
  (∀ k c1, (k ≤ n)%nat → silence late c k c1 →
    closed c1 = false ∧ reasons c1 = reasons c ∧ transmissions c1 = transmissions c ++ again k ∧
    (k ≠ 0%nat → ∃ t, last (events c1) = Some (Scheduled RetryTimer t) ∧ t ≤ deadline k)) ∧
  (∀ c', silence late c (S n) c' →
    given_up c c' ∧ transmissions c' = transmissions c ++ again n ∧ clock c' ≤ deadline n + late).
Proof.
  intros Hlate Hc Hcl Ho Hn Hm n again deadline. pose proof (proj2 (ci_options _ Hc)) as HM.
  pose proof (proj1 (getNextRetry_first _ _ _) Hn) as [_ Hx]. destruct (ci_window _ Hc i x Hx) as (_&_&Ha0).
  assert (∀ k c1, (k ≤ n)%nat → silence late c k c1 → ∃ y, waiting late c i x k c1 y) as Hw.
  { intros k c1 Hk. apply silence_waiting; [done|done|]. unfold n in Hk. lia. }
  split_and!.
  - intros k Hk. destruct (decide (k ≤ n)%nat) as [Hle|Hgt].
    { apply (silence_goes_on late c i x); try done. unfold n in Hle. lia. }
    assert (k = S n) as -> by lia. destruct (silence_goes_on late c i x n) as [c1 Hs]; try done; [unfold n; lia|].
    destruct (Hw n c1 ltac:(lia) Hs) as [y Hy]. pose proof (safe_onRetryTimeout _ (set_clock_inv (retryAt y + 1) c1 (wa_inv _ _ _ _ _ _ _ Hy))) as ([]&c'&E&_)%wp_some.
    exists c'. eapply silence_fires; [exact Hs|apply Hy| |exact E]. lia.
  - intros k c1 Hk Hs. destruct (Hw k c1 Hk Hs) as [y Hy]. pose proof (wa_same _ _ _ _ _ _ _ Hy) as Hsame. injection Hsame as _ Ec _ _ _ _ _ _ Er.
    split_and!; [congruence|done|apply Hy|]. intros Hk0. exists (retryAt y). split; [by apply Hy|apply Hy].
  - intros c' Hs. inversion Hs as [|? c1 j z t ? Hs1 Hz Ht E]; subst. destruct (Hw n c1 ltac:(lia) Hs1) as [y Hy].
    rewrite (wa_next _ _ _ _ _ _ _ Hy) in Hz. injection Hz as <- <-.
    pose proof (wa_same _ _ _ _ _ _ _ Hy) as Hsame. injection Hsame as Eo Ec Eu Eh _ _ Eq _ Er.
    rewrite (last_round c1 i y) in E; [|apply Hy|lia|rewrite Eo; lia|rewrite Eo, (wa_attempts _ _ _ _ _ _ _ Hy); unfold n; lia].
    destruct (failed_given_up c1 t c') as (Hg&Hts&Hk); [apply Hy|congruence|by rewrite Eq|done|]. split_and!.
    + destruct Hg as [g1 g2 g3 g4 g5]. split; try done. by rewrite g4, Er, Eu, Eh.
    + rewrite Hts. apply Hy.
    + rewrite Hk. pose proof (wa_timer _ _ _ _ _ _ _ Hy). unfold deadline. lia.
Qed.

(** A connection that began the handshake and hears nothing. *)
Definition unanswered : Connection :=
  match (openUser None true true;; initiate) example_connection with Some (_, c) => c | None => example_connection end.
Definition unanswered_retry : Retry := default (mkRetry [] 0 0 0 false) (window (retrier (sender unanswered)) !! 0).

Lemma began_inv `{!Zlib} c : conn_inv c → wp (openUser None true true;; initiate) (λ _, conn_inv) c.
Proof.
  intros Hc. apply wp_bind. eapply wp_mono; [by apply (openUser_wp None true true)|].
  intros [] c' [Hc' _]. eapply wp_mono; [apply safe_initiate, Hc'|]. by intros [] c'' [? _].
Qed.

#[local] Existing Instance Zlib_stored.
#[local] Existing Instance ZlibLaws_stored.

Lemma unanswered_inv : conn_inv unanswered.
Proof.
  unfold unanswered. pose proof (began_inv _ example_connection_inv) as Hw. unfold wp in Hw.
  destruct ((openUser None true true;; initiate) example_connection) as [[[] c]|]; [exact Hw|destruct Hw].
Qed.

(** Six expiries: the packet goes out six times in all, and the user is told once. *)
Example unanswered_run :
  let lapse c := match onRetryTimeout (set_clock (clock c + 8000000000) c) with Some (_, c') => c' | None => c end in
  let c5 := Nat.iter 5 lapse unanswered in
  maximum_retry_attempts (options unanswered) = 5 ∧ length (transmissions c5) = 6%nat ∧ closed c5 = false ∧
  length (transmissions (lapse c5)) = 6%nat ∧ closed (lapse c5) = true ∧ reasons (lapse c5) = [MRUDP_EVENT_TIMEOUT].
Proof. by vm_compute. Qed.

Lemma silent_peer_given_up_witness :
  let c := unanswered in let x := unanswered_retry in let late := 1000000 in
  let n := Z.to_nat (maximum_retry_attempts (options c) - attempts x) in
  let again k := concat (replicate k (wire_of c <$> paths x)) in
  let deadline k := retryAt x + Z.of_nat k * (2 ^ 17 * 1000000 + late) in
  (∀ k, (k ≤ S n)%nat → ∃ c1, silence late c k c1) ∧
  (∀ k c1, (k ≤ n)%nat → silence late c k c1 →
    closed c1 = false ∧ reasons c1 = reasons c ∧ transmissions c1 = transmissions c ++ again k ∧
    (k ≠ 0%nat → ∃ t, last (events c1) = Some (Scheduled RetryTimer t) ∧ t ≤ deadline k)) ∧
  (∀ c', silence late c (S n) c' →
    given_up c c' ∧ transmissions c' = transmissions c ++ again n ∧ clock c' ≤ deadline n + late).
Proof.
  apply (silent_peer_given_up 1000000 unanswered 0 unanswered_retry);
    [reflexivity|exact unanswered_inv|vm_compute; reflexivity|vm_compute; reflexivity|vm_compute; reflexivity|vm_compute; discriminate].
Defined.
