(* ===== verification/Emission.v ===== *)
(** * What connections put on the wire is well formed

    Every packet a connection has ever sent has its size within its buffer and its header fields
    within their widths, so that it travels in a datagram unchanged: a header that is encoded is
    read back the same. Every handler keeps this, whatever packets arrive in datagrams. *)

From S2P Require Import Prelude MemCopy Packet ReceiveQueue Types Asio Datagram SendQueue Compression Float32 Rtt State Retrier Transmit Invariant Sender Connection Closing Wire Lifecycle.

(** ** Packets *)

Lemma new_Packet_ok : packet_ok new_Packet.
Proof. split; [apply new_Packet_wf|]. split_and!; split; reflexivity || discriminate. Qed.

Lemma set_type_ok p t : in_u 8 t → packet_ok p → packet_ok (set_type p t).
Proof. intros Ht [Hp (?&?&?&?)]. by split. Qed.
Lemma set_id_ok p i : in_u 16 i → packet_ok p → packet_ok (set_id p i).
Proof. intros Hi [Hp (?&?&?&?)]. by split. Qed.
Lemma set_connection_ok p c : in_u 16 c → packet_ok p → packet_ok (set_connection p c).
Proof. intros Hi [Hp (?&?&?&?)]. by split. Qed.

Lemma pushData_ok p bs p' b : packet_ok p → pushData p bs = Some (p', b) → packet_ok p'.
Proof. intros [Hp Hh] E. split; [by eapply pushData_wf|]. by rewrite (pushData_header _ _ _ _ E). Qed.
Lemma pushData_T_ok p bs p' b : packet_ok p → pushData_T p bs = Some (p', b) → packet_ok p'.
Proof. intros [Hp Hh] E. split; [by eapply pushData_T_wf|]. by rewrite (pushData_T_header _ _ _ _ E). Qed.
Lemma pushSizedData_ok p bs p' b : packet_ok p → pushSizedData p bs = Some (p', b) → packet_ok p'.
Proof.
  unfold pushSizedData. intros Hp. destruct (pushData p bs) as [[p1 b1]|] eqn:E; simpl; [|done].
  apply pushData_ok in E; [|done]. destruct b1; [by apply pushData_T_ok|by intros [= <- <-]].
Qed.
Lemma pushFrame_ok p h d p' b : packet_ok p → pushFrame p h d = Some (p', b) → packet_ok p'.
Proof.
  unfold pushFrame. intros Hp. destruct (pushData_T p _) as [[p1 b1]|] eqn:E; simpl; [|done].
  apply pushData_T_ok in E; [|done]. destruct b1; [|by intros [= <- <-]]. case_decide; [by apply pushData_ok|done].
Qed.

#[export] Hint Resolve new_Packet_ok set_type_ok set_id_ok set_connection_ok pushData_T_ok : wire.
#[export] Hint Extern 1 (in_u _ _) => (by vm_compute) : wire.

(** ** Send queues *)

Definition queue_wired (q : SendQueue) : Prop := Forall packet_ok (SendQueue.queue q).

(** An operation of a queue keeps its packets well formed. *)
Definition keeps_wired {A} (m : M SendQueue A) : Prop := ∀ q a q', m q = Some (a, q') → queue_wired q → queue_wired q'.

Lemma keeps_bind {A B} (m : M SendQueue A) (f : A → M SendQueue B) :
  keeps_wired m → (∀ a, keeps_wired (f a)) → keeps_wired (m ≫= f).
Proof. intros Hm Hf q b q' (a&q1&E1&E2)%bind_some Hq. eapply Hf; [exact E2|]. by eapply Hm. Qed.
Lemma keeps_pure {A} (m : M SendQueue A) : (∀ q a q', m q = Some (a, q') → SendQueue.queue q' = SendQueue.queue q) → keeps_wired m.
Proof. intros Hm q a q' E. unfold queue_wired. by rewrite (Hm _ _ _ E). Qed.
Lemma keeps_ret {A} (a : A) : keeps_wired (mret a).
Proof. apply keeps_pure. by intros ??? [= _ <-]. Qed.
Lemma keeps_modify f : (∀ q, queue_wired q → queue_wired (f q)) → keeps_wired (modify f).
Proof. intros Hf q [] q' [= <-]. apply Hf. Qed.
Lemma keeps_when (b : bool) m : keeps_wired m → keeps_wired (when b m).
Proof. destruct b; [done|]. intros _. apply keeps_ret. Qed.
Lemma keeps_mget : keeps_wired mget.
Proof. apply keeps_pure. by intros ??? [= _ <-]. Qed.
Lemma keeps_nextFrameID : keeps_wired nextFrameID.
Proof. apply keeps_pure. by intros ??? [= _ <-]. Qed.

Lemma keeps_push p : packet_ok p → keeps_wired (modify (λ q, SendQueue.set_queue (SendQueue.queue q ++ [p]) q)).
Proof. intros Hp. apply keeps_modify. intros q Hq. apply Forall_app. split; [done|by apply Forall_singleton]. Qed.

Lemma keeps_pushFrame_back h d : keeps_wired (pushFrame_back h d).
Proof.
  intros q [] q'. unfold pushFrame_back, queue_wired. destruct (last (SendQueue.queue q)) as [p|] eqn:El; [|done].
  destruct (pushFrame p h d) as [[p' b]|] eqn:E; simpl; [|done]. intros [= <-] Hq. simpl. unfold replace_back.
  apply Forall_app. split; [by apply Forall_take|]. apply Forall_singleton. eapply pushFrame_ok; [|exact E].
  apply (Forall_elem_of _ _ _ Hq). by apply last_Some_elem_of.
Qed.

Lemma keeps_stream_loop fuel t d o s : keeps_wired (coalesceStream_loop fuel t d o s).
Proof.
  revert o s. induction fuel as [|fuel IH]; intros o s; cbn [coalesceStream_loop]; [done|].
  destruct (0 <? s); [|apply keeps_ret]. apply keeps_bind; [apply keeps_mget|]. intros q.
  destruct (last _) as [p|]; [|done]. destruct (0 <? _).
  - destruct (o <? 0); [done|]. apply keeps_bind; [apply keeps_nextFrameID|]. intros i.
    apply keeps_bind; [apply keeps_pushFrame_back|]. intros _. apply IH.
  - apply keeps_bind; [apply keeps_push, new_Packet_ok|]. intros _. apply IH.
Qed.

Lemma keeps_coalesceStream t d : keeps_wired (coalesceStream t d).
Proof.
  unfold coalesceStream. apply keeps_bind; [apply keeps_mget|]. intros q.
  apply keeps_bind; [apply keeps_when, keeps_push, new_Packet_ok|]. intros _.
  apply keeps_bind; [apply keeps_stream_loop|]. intros _. apply keeps_ret.
Qed.

Section queues.
Context `{!Zlib}.

Lemma keeps_coalesce t d m : keeps_wired (coalesce t d m).
Proof.
  unfold coalesce. repeat (destruct (_ =? _)); try apply keeps_ret.
  - unfold coalescePacket. apply keeps_bind; [apply keeps_mget|]. intros q. destruct (last _); [|apply keeps_ret].
    destruct (_ <? _); [|apply keeps_ret]. apply keeps_bind; [apply keeps_nextFrameID|]. intros i.
    apply keeps_bind; [apply keeps_pushFrame_back|]. intros _. apply keeps_ret.
  - apply keeps_coalesceStream.
  - unfold coalesceStreamCompressed. apply keeps_bind; [by apply keeps_modify|]. intros _. apply keeps_ret.
Qed.

Lemma keeps_enqueue t d m : keeps_wired (SendQueue.enqueue t d m).
Proof.
  unfold SendQueue.enqueue. apply keeps_bind; [apply keeps_mget|]. intros q. case_decide; [apply keeps_ret|].
  apply keeps_bind; [apply keeps_coalesce|]. intros []; [apply keeps_ret|].
  apply keeps_bind; [apply keeps_nextFrameID|]. intros i q0 [] q' ([p b]&q1&El&E)%bind_some.
  unfold lift in El. destruct (pushFrame _ _ d) as [[p' b']|] eqn:Ep; [|done]. simplify_eq/=.
  eapply keeps_push; [|exact E]. eapply pushFrame_ok; [|exact Ep]. apply new_Packet_ok.
Qed.

Lemma dequeue_wired level q p q' :
  dequeue level q = Some (p, q') → queue_wired q → queue_wired q' ∧ ∀ x, p = Some x → packet_ok x.
Proof.
  unfold dequeue. intros (?&?&[= <- <-]&E)%bind_some Hq. case_decide; [injection E as <- <-; by split|].
  apply bind_some in E as ([]&q1&E1&(?&?&[= <- <-]&E)%bind_some).
  assert (queue_wired q1) as Hq1.
  { revert E1 Hq. apply keeps_when. unfold compress. apply keeps_bind; [apply keeps_mget|]. intros q2.
    apply keeps_bind; [apply keeps_coalesceStream|]. intros _. by apply keeps_modify. }
  unfold queue_wired in Hq1. destruct (SendQueue.queue q1) as [|y l] eqn:El.
  { injection E as <- <-. unfold queue_wired. rewrite El. by split. }
  apply bind_some in E as ([]&q2&[= <-]&[= <- <-]). apply Forall_cons_1 in Hq1 as [? ?]. split; [done|]. by intros x [= <-].
Qed.

(** ** Connections *)

Record wired (c : Connection) : Prop := {
  wd_remote : in_u 16 (remoteID c);
  wd_generator : in_u 16 (packetIDGenerator (sender c));
  wd_reliable : queue_wired (dataQueue (sender c));
  wd_unreliable : queue_wired (unreliableDataQueue (sender c));
  wd_waiting : ∀ p, waiting c p → packet_ok p;
  wd_sent : Forall (λ t, packet_ok t.1) (transmissions c);
}.

Definition wires : relation Connection := λ c c', wired c → wired c'.

#[export] Instance wires_preorder : PreOrder wires.
Proof. split; [intros c Hc; exact Hc|]. intros c1 c2 c3 H1 H2 ?. auto. Qed.

(** Everything [wired] depends on. *)
Definition emitted (c : Connection) :=
  (remoteID c, packetIDGenerator (sender c), dataQueue (sender c), unreliableDataQueue (sender c),
   window (retrier (sender c)), transmissions c).

Lemma emitted_wires c c' : emitted c' = emitted c → wires c c'.
Proof.
  unfold emitted. intros E [Hr Hg Hd Hu Hw Hs]. injection E as Er Eg Ed Eu Ew Et.
  split; rewrite ?Er, ?Eg, ?Ed, ?Eu, ?Et; try done. intros p. unfold waiting. rewrite Ew. apply Hw.
Qed.

Lemma wires_same {A} (m : C A) : respects (same emitted) m → respects wires m.
Proof. intros Hm c a c' E. by apply emitted_wires, (Hm c a c'). Qed.

(** A step whose result is described, then the rest for such results. *)
Lemma wires_bind {A B} (P : A → Prop) (m : C A) (f : A → C B) :
  (∀ c a c', m c = Some (a, c') → wired c → wired c' ∧ P a) → (∀ a, P a → respects wires (f a)) →
  respects wires (m ≫= f).
Proof. intros Hm Hf c b c' (a&c1&E1&E2)%bind_some Hc. destruct (Hm _ _ _ E1 Hc). by eapply Hf. Qed.

Lemma wires_modify f : (∀ c, emitted (f c) = emitted c) → respects wires (modify f).
Proof. intros Hf. apply respects_modify. intros. by apply emitted_wires. Qed.

Lemma wires_emit e : transmission e = None → respects wires (emit e).
Proof. intros He. apply wires_modify. intros c. unfold emitted. by rewrite transmissions_silent. Qed.

Lemma wires_statistics f : respects wires (modify_statistics f).
Proof. by apply wires_modify. Qed.

Lemma wires_sender f :
  (∀ s, retrier (f s) = retrier s ∧ dataQueue (f s) = dataQueue s ∧
        unreliableDataQueue (f s) = unreliableDataQueue s ∧ packetIDGenerator (f s) = packetIDGenerator s) →
  respects wires (modify_sender f).
Proof.
  intros Hf. apply wires_modify. intros c. unfold emitted. simpl. destruct (Hf (sender c)) as (->&->&->&->). done.
Qed.
#[local] Hint Resolve wires_emit wires_statistics : frame.
#[local] Hint Extern 1 (transmission _ = None) => reflexivity : frame.
#[local] Hint Extern 1 (respects wires (modify_sender _)) =>
  (apply wires_sender; intros []; simpl; by repeat case_decide) : frame.

(** *** Queues and retries *)

Lemma wires_on_queue {A} r (m : M SendQueue A) : keeps_wired m → respects wires (on_queue r m).
Proof.
  intros Hm c a c'. unfold on_queue. destruct (m _) as [[a' q]|] eqn:E; [|done]. intros [= <- <-] [Hr Hg Hd Hu Hw Hs].
  destruct r; split; simpl; try done; by eapply Hm.
Qed.

(** What [tx] says of a window holds of well-formed packets too. *)
Lemma wires_tx {A} (m : C A) :
  respects (tx packet_ok) m → respects (same (λ c, (packetIDGenerator (sender c), dataQueue (sender c), unreliableDataQueue (sender c)))) m →
  (∀ c a c', m c = Some (a, c') → transmissions c' = transmissions c) → respects wires m.
Proof.
  intros Ht Hq Hs c a c' E [Hr Hg Hd Hu Hw Hsent]. destruct (Ht _ _ _ E) as [Hi Hw' _]. specialize (Hq _ _ _ E).
  unfold same in Hq. injection Hq as Eg Ed Eu. unfold identity in Hi. injection Hi as _ _ Er _ _.
  split; rewrite ?Er, ?Eg, ?Ed, ?Eu, ?(Hs _ _ _ E); try done. intros p [?|?]%Hw'; auto.
Qed.

Lemma wires_recalculateRetryTimeout : respects wires recalculateRetryTimeout.
Proof.
  apply wires_tx; [apply tx_recalculateRetryTimeout| |intros c a c'; apply recalculateRetryTimeout_quiet].
  unfold recalculateRetryTimeout, getNextRetry, set_retry, modify_retrier, modify_sender, emit. frame.
Qed.
#[local] Hint Resolve wires_recalculateRetryTimeout : frame.

Lemma wires_rt_insert ps now prio : Forall (λ p, packet_ok (pp_packet p)) ps → respects wires (rt_insert ps now prio).
Proof.
  intros Hps c b c'. unfold rt_insert. intros (?&?&[= <- <-]&E)%bind_some.
  case_decide; [by injection E as <- <-|]. destruct ps as [|q ps]; [done|].
  apply bind_some in E as ([]&c1&[= <-]&([]&c2&E2&[= <- <-])%bind_some).
  etrans; [|eapply (respects_when wires); [apply wires_recalculateRetryTimeout|exact E2]].
  intros Hc. pose proof Hc as []. split; try done. intros p (i&x&path&Hx&Hin&<-). simpl in Hx.
  destruct (window (retrier (sender c)) !! h_id (p_header (pp_packet q))); [by apply Hc; exists i, x, path|].
  apply lookup_insert_Some in Hx as [[<- <-]|[_ Hx]]; [|by apply Hc; exists i, x, path].
  by apply (Forall_elem_of _ _ _ Hps Hin).
Qed.

Lemma wires_rt_ack i now d : respects wires (rt_ack i now d).
Proof.
  apply wires_tx; [apply tx_rt_ack| |].
  - unfold rt_ack, modify_retrier, modify_sender. frame.
  - intros c a c' (?&?&[= <- <-]&E)%bind_some. destruct (window _ !! i); [|by injection E as _ <-].
    by apply bind_some in E as ([]&c1&[= <-]&[= _ <-]).
Qed.

Lemma wires_rt_close : respects wires rt_close.
Proof. apply wires_tx; [apply tx_rt_close| |by intros c [] c' [= <-]]. unfold rt_close, modify_retrier, modify_sender. frame. Qed.

Lemma wires_pr_on now : respects wires (pr_on now).
Proof.
  apply wires_tx; [apply tx_pr_on| |intros c a c'; apply pr_on_quiet].
  unfold pr_on, recalculateProbeTimeout, registerTimeout, emit. frame.
Qed.
#[local] Hint Resolve wires_rt_ack wires_rt_close wires_pr_on : frame.

(** *** Sending *)

Lemma wires_sent w a c : packet_ok w → wires c (add_event (Sent w a) c).
Proof.
  intros Hw [Hr Hg Hd Hu Hwait Hs]. split; try done. unfold transmissions. simpl. rewrite omap_app.
  apply Forall_app. split; [done|]. by apply Forall_singleton.
Qed.

Lemma wires_send_ p a : packet_ok p → respects wires (send_ p a).
Proof.
  intros Hp. unfold send_. apply (wires_bind (in_u 16)).
  { intros c r c' [= <- <-] Hc. split; [done|apply Hc]. }
  intros r Hr. assert (packet_ok (set_connection p r)) as Hp' by (by apply set_connection_ok).
  apply (respects_bind _); [|intros _; frame]. destruct (_ =? 0); [|apply respects_modify; intros c; by apply wires_sent].
  apply (respects_bind _); [frame|]. intros i. apply (wires_bind (λ x, packet_ok x.1)).
  - intros c [w b] c' E Hc. unfold lift in E. destruct (pushData_T _ _) as [[w' b']|] eqn:Ew; [|done]. simplify_eq/=.
    split; [done|]. by eapply pushData_T_ok.
  - intros [w b] Hw. apply respects_modify. intros c. by apply wires_sent.
Qed.

Lemma wires_send p a : packet_ok p → respects wires (send p a).
Proof.
  intros Hp. unfold send. apply (respects_bind _); [frame|]. intros _. apply (respects_bind _); [frame|]. intros o.
  apply (wires_bind (λ x, packet_ok x.1)).
  - intros c [w b] c' E Hc. unfold lift, ho_onSend in E. destruct (_ =? H3); [|by simplify_eq/=].
    destruct (pushData_T p _) as [[w' b']|] eqn:Ew; [|done]. simplify_eq/=. split; [done|]. by eapply pushData_T_ok.
  - intros [w d] Hw. case_decide; [frame|by apply wires_send_].
Qed.

Lemma wires_resend p a : packet_ok p → respects wires (resend p a).
Proof. intros Hp. unfold resend. apply (respects_bind _); [by apply wires_send_|intros _; frame]. Qed.

Lemma wires_generator g : in_u 16 g → respects wires (modify_sender (set_packetIDGenerator g)).
Proof. intros Hg c [] c' [= <-] []. by split. Qed.

Lemma wires_sendReliablyMultipath ps prio :
  Forall (λ p, packet_ok (pp_packet p)) ps → respects wires (sendReliablyMultipath ps prio).
Proof.
  intros Hps. unfold sendReliablyMultipath. apply (wires_bind (in_u 16)).
  { intros c g c' [= <- <-] Hc. split; [done|apply Hc]. }
  intros i Hi. cbn [nextID]. apply (respects_bind _); [by apply wires_generator, wrap_range|]. intros _.
  apply (respects_bind _); [frame|]. intros now. set (l := _ <$> ps).
  assert (Forall (λ p, packet_ok (pp_packet p)) l) as Hl.
  { apply Forall_fmap. eapply Forall_impl; [|exact Hps]. intros p Hp. by apply set_id_ok. }
  apply (respects_bind _); [by apply wires_rt_insert|]. intros _. clearbody l.
  induction Hl as [|p l Hp _ IH]; [apply (respects_ret _)|]. simpl.
  apply (respects_bind _); [by apply wires_send|intros _; exact IH].
Qed.

Lemma wires_sendReliably p a : packet_ok p → respects wires (sendReliably p a).
Proof. intros Hp. by apply wires_sendReliablyMultipath, Forall_singleton. Qed.
#[local] Hint Resolve wires_send wires_sendReliably : frame.
#[local] Hint Extern 1 (packet_ok _) => (solve [eauto with wire]) : frame.

(** *** The sender *)

Lemma wires_enqueue r t d m : respects wires (on_queue r (SendQueue.enqueue t d m)).
Proof. apply wires_on_queue, keeps_enqueue. Qed.
Lemma wires_clear r : respects wires (on_queue r SendQueue.clear).
Proof. apply wires_on_queue, keeps_modify. intros q _. constructor. Qed.
Lemma wires_close r : respects wires (on_queue r SendQueue.close).
Proof. apply wires_on_queue, keeps_modify. intros q Hq. case_decide; [done|constructor]. Qed.
#[local] Hint Resolve wires_enqueue wires_clear wires_close : frame.

(** A packet taken out of a queue, then what is done with it. *)
Lemma wires_dequeue {B} r level (f : option Packet → C B) :
  respects wires (f None) → (∀ p, packet_ok p → respects wires (f (Some p))) →
  respects wires (on_queue r (dequeue level) ≫= f).
Proof.
  intros Hn Hs. apply (wires_bind (λ p, ∀ x, p = Some x → packet_ok x)).
  - intros c p c'. unfold on_queue. destruct (dequeue level _) as [[p' q]|] eqn:E; [|done].
    intros [= <- <-] [Hr Hg Hd Hu Hw Hst].
    destruct r; (eapply dequeue_wired in E as [??]; [|done]); (split; [by split|done]).
  - intros [p|] Hp; [|done]. apply Hs. by apply Hp.
Qed.

Lemma wires_reliable_loop fuel : respects wires (processReliableDataQueue_loop fuel).
Proof.
  induction fuel as [|fuel IH]; cbn [processReliableDataQueue_loop]; [apply (respects_ub _)|]. unfold numUnacked.
  do 2 (apply (respects_bind _); [frame|]; intros ?). destruct (_ <? _); [|frame].
  apply (respects_bind _); [frame|]. intros level. apply wires_dequeue; [frame|]. intros p Hp. frame.
Qed.

Lemma wires_unreliable_loop fuel : respects wires (processUnreliableDataQueue_loop fuel).
Proof.
  induction fuel as [|fuel IH]; cbn [processUnreliableDataQueue_loop]; [apply (respects_ub _)|].
  apply (respects_bind _); [frame|]. intros level. apply wires_dequeue; [frame|]. intros p Hp. frame.
Qed.
#[local] Hint Resolve wires_reliable_loop wires_unreliable_loop : frame.

Lemma wires_processDataQueue r : respects wires (processDataQueue r).
Proof.
  destruct r; cbn [processDataQueue].
  - unfold processUnreliableDataQueue, queueDelayedAcks. frame.
  - unfold processReliableDataQueue. frame.
Qed.
#[local] Hint Resolve wires_processDataQueue : frame.

Lemma wires_scheduleDataQueueProcessing r b : respects wires (scheduleDataQueueProcessing r b).
Proof. unfold scheduleDataQueueProcessing. frame. Qed.
#[local] Hint Resolve wires_scheduleDataQueueProcessing : frame.
Lemma wires_processSchedule r : respects wires (processSchedule r).
Proof. unfold processSchedule. frame. Qed.
Lemma wires_s_enqueue t d r m : respects wires (s_enqueue t d r m).
Proof. unfold s_enqueue. frame. Qed.
Lemma wires_s_open : respects wires s_open.
Proof. unfold s_open. frame. Qed.
Lemma wires_s_fail : respects wires s_fail.
Proof. unfold s_fail. frame. Qed.
Lemma wires_s_ack i : respects wires (s_ack i).
Proof. unfold s_ack. frame. Qed.
#[local] Hint Resolve wires_processSchedule wires_s_enqueue wires_s_open wires_s_fail wires_s_ack : frame.
Lemma wires_s_close : respects wires s_close.
Proof. unfold s_close. frame. Qed.
#[local] Hint Resolve wires_s_close : frame.

(** *** The connection *)

Lemma wires_possiblyClose : respects wires possiblyClose.
Proof. unfold possiblyClose, close_event, closeUser, finishWhenReady. frame. all: by apply emitted_wires. Qed.
Lemma wires_close_event e : respects wires (close_event e).
Proof. unfold close_event, closeUser, finishWhenReady. frame. all: by apply emitted_wires. Qed.
Lemma wires_closeUser e : respects wires (closeUser e).
Proof. unfold closeUser. frame. all: by apply emitted_wires. Qed.
#[local] Hint Resolve wires_possiblyClose wires_close_event wires_closeUser : frame.
Lemma wires_onAck a : respects wires (onAck a).
Proof. unfold onAck. frame. Qed.
#[local] Hint Resolve wires_onAck : frame.
Lemma wires_s_onReceive p : respects wires (s_onReceive p).
Proof. unfold s_onReceive, onAck_packet. frame. Qed.

Lemma wires_receive_data d r : respects wires (receive_data d r).
Proof. unfold receive_data. frame. Qed.
Lemma wires_rc_close : respects wires rc_close.
Proof. unfold rc_close. frame. by apply emitted_wires. Qed.
Lemma wires_rc_fail : respects wires rc_fail.
Proof. apply wires_modify. intros c. by case_decide. Qed.
#[local] Hint Resolve wires_s_onReceive wires_receive_data wires_rc_close wires_rc_fail : frame.

Lemma wires_set_receiver r c : wires c (set_receiver r c).
Proof. by apply emitted_wires. Qed.
Lemma wires_processReceived r f : respects wires (processReceived r f).
Proof.
  unfold processReceived. frame. apply (respects_on_receiveBuffer _); [apply wires_set_receiver|]. intros; apply wires_receive_data.
Qed.
Lemma wires_rc_open i : respects wires (rc_open i).
Proof. apply (respects_rc_open _); [apply wires_set_receiver|apply wires_processReceived]. Qed.
Lemma wires_rc_onReceive p : respects wires (rc_onReceive p).
Proof. apply (respects_rc_onReceive _); [apply wires_set_receiver|apply wires_processReceived|apply wires_s_ack]. Qed.
#[local] Hint Resolve wires_rc_open wires_rc_onReceive : frame.

Lemma wires_fail e : respects wires (fail e).
Proof. unfold fail, pr_close. frame. all: by apply emitted_wires. Qed.
#[local] Hint Resolve wires_fail : frame.
Lemma wires_user_close : respects wires user_close.
Proof. unfold user_close, Connection.close. frame. Qed.
Lemma wires_send_data d r : respects wires (send_data d r).
Proof. unfold send_data, s_send. frame. Qed.
Lemma wires_openUser o rh ch : respects wires (openUser o rh ch).
Proof. unfold openUser. frame. all: apply emitted_wires; by destruct o. Qed.
Lemma wires_pr_onTimeout : respects wires pr_onTimeout.
Proof. unfold pr_onTimeout, registerTimeout. frame. all: by apply emitted_wires. Qed.
Lemma wires_onHandshakeComplete : respects wires onHandshakeComplete.
Proof. unfold onHandshakeComplete. frame. Qed.
Lemma wires_initiate : respects wires initiate.
Proof. unfold initiate. frame. by apply emitted_wires. Qed.

(** Retransmissions are of packets that wait. *)
Lemma wires_set_retry i y c c' :
  (∃ x, window (retrier (sender c)) !! i = Some x ∧ paths x = paths y) → set_retry i y c = Some (tt, c') → wires c c'.
Proof.
  intros (x&Hx&Hp) [= <-] Hc. pose proof Hc as []. split; try done. intros p (j&z&path&Hz&Hin&<-). simpl in Hz. apply Hc.
  apply lookup_insert_Some in Hz as [[<- <-]|[_ Hz]]; [exists i, x, path; by rewrite Hp|by exists j, z, path].
Qed.

Lemma wires_resends l : Forall (λ p, packet_ok (pp_packet p)) l → respects wires (mapM_ (λ p, resend (pp_packet p) (pp_address p)) l).
Proof.
  induction 1 as [|p l Hp _ IH]; [apply (respects_ret _)|]. simpl.
  apply (respects_bind _); [by apply wires_resend|intros _; exact IH].
Qed.

Lemma wires_onRetryTimeout : respects wires onRetryTimeout.
Proof.
  intros c [] c'. unfold onRetryTimeout. intros (?&?&[= <- <-]&(next&c0&En&E)%bind_some)%bind_some.
  apply getNextRetry_some in En as [-> Hres]. destruct next as [[i x]|]; [|by injection E as <-].
  specialize (Hres i x eq_refl). destruct (_ <? _); [|by eapply wires_recalculateRetryTimeout].
  apply bind_some in E as (?&?&[= <- <-]&E). destruct (_ <=? _); [by eapply wires_fail|].
  apply bind_some in E as ([]&c1&E1&([]&c2&E2&E3)%bind_some). intros Hc.
  assert (wired c1) as Hc1 by (eapply wires_set_retry; [|exact E1|exact Hc]; by exists x).
  assert (wired c2) as Hc2.
  { eapply wires_resends; [|exact E2|done]. apply Forall_forall. intros path Hp%list_elem_of_In. apply Hc. by exists i, x, path. }
  assert (respects wires (modify_sender (λ s, set_rtt (RTT_onAckFailure (rtt s)) s);;
      r ← gets (λ c, rtt (sender c)); w ← lift (WindowSize_onSample r);
      modify_sender (set_windowSize w);; recalculateRetryTimeout)) as Hr by frame.
  by eapply Hr.
Qed.

(** *** Packets that arrive *)

Lemma readRemoteID_range p : in_u 16 (readRemoteID p).2.
Proof.
  unfold readRemoteID, popData. destruct (_ <? 2); [done|]. simpl. set (d := slice _ _ _).
  pose proof (le_decode_range d) as Hd. assert (length d ≤ 2)%nat as Hl by (unfold d, slice; rewrite length_take; lia).
  unfold in_u in *. split; [apply Hd|]. eapply Z.lt_le_trans; [apply Hd|]. apply Z.pow_le_mono_r; lia.
Qed.

Lemma challenge_packet_ok time a p : challenge_packet time a = Some p → packet_ok p.
Proof.
  unfold challenge_packet. set (basis := _ ++ _). clearbody basis.
  destruct (pushSizedData _ basis) as [[p1 b1]|] eqn:E1; simpl; [|done].
  destruct (pushSizedData p1 []) as [[p2 b2]|] eqn:E2; simpl; [|done]. intros [= <-].
  eapply pushSizedData_ok; [|exact E2]. eapply pushSizedData_ok; [|exact E1]. eauto with wire.
Qed.

Lemma wires_sendChallenge a : respects wires (sendChallenge a).
Proof.
  unfold sendChallenge. apply (respects_bind _); [frame|]. intros now.
  assert (∀ a' {B} (f : Packet → C B), (∀ p, packet_ok p → respects wires (f p)) →
    respects wires (lift (challenge_packet (seconds now) a') ≫= f)) as Hl.
  { intros a' B f Hf. apply (wires_bind packet_ok); [|done]. intros c p c'. unfold lift.
    destruct (challenge_packet _ _) as [q|] eqn:Eq; [|done]. intros [= <- <-] Hc. split; [done|]. by eapply challenge_packet_ok. }
  apply Hl. intros p1 H1. apply Hl. intros p2 H2. apply wires_sendReliablyMultipath. apply Forall_cons_2; [done|]. by apply Forall_singleton.
Qed.

Lemma wires_sendChallengeResponse p : packet_ok p → respects wires (sendChallengeResponse p).
Proof.
  intros [[Hl Hs] (_&_&_&Hi)]. unfold sendChallengeResponse. apply wires_send.
  pose proof new_Packet_ok as [[Hln _] (Hv&Hc&_&_)]. split.
  - split; [|done].
    change (length (take (Z.to_nat (p_dataSize p)) (p_data p) ++ drop (Z.to_nat (p_dataSize p)) (p_data new_Packet)) = Z.to_nat MAX_PACKET_SIZE).
    rewrite length_app, length_take, length_drop, Hl, Hln. lia.
  - split_and!; [done|done|by vm_compute|done].
Qed.

Lemma wires_np_onReceive p from : packet_ok p → respects wires (np_onReceive p from).
Proof.
  intros Hp. unfold np_onReceive. apply (respects_bind _); [frame|]. intros c.
  destruct (_ =? AUTHENTICATE_CHALLENGE); [apply (respects_bind _); [by apply wires_sendChallengeResponse|frame]|].
  destruct (Address_neqb _ _); [|frame]. destruct (_ =? AUTHENTICATE_RESPONSE).
  - destruct (verifyChallengeResponse c p from) as [q []]; [|frame]. unfold onRemoteAddressChanged. frame. by apply emitted_wires.
  - apply (respects_bind _); [apply wires_sendChallenge|frame].
Qed.

Lemma id_packet_ok t i l p b :
  in_u 8 t → in_u 16 i → pushData_T (set_id (set_type new_Packet t) i) (le_encode 2 l) = Some (p, b) → packet_ok p.
Proof. intros Ht Hi. apply pushData_T_ok, set_id_ok, set_type_ok; [done|done|apply new_Packet_ok]. Qed.

Lemma wires_complete f :
  (∀ c, ∃ h i, f c = set_handshake h (set_remoteID i c) ∧ in_u 16 i) → respects wires (modify f;; onHandshakeComplete).
Proof.
  intros Hf. apply (respects_bind _); [|intros _; apply wires_onHandshakeComplete]. apply respects_modify.
  intros c []. destruct (Hf c) as (h&i&->&Hi). by split.
Qed.

(** A packet built in place, then what is done with it. *)
Lemma wires_built {B} p bs (f : Packet * bool → C B) :
  packet_ok p → (∀ x, packet_ok x.1 → respects wires (f x)) → respects wires (lift (pushData_T p bs) ≫= f).
Proof.
  intros Hp Hf. apply (wires_bind (λ x, packet_ok x.1)); [|done]. intros c [q b] c'. unfold lift.
  destruct (pushData_T p bs) as [[q' b']|] eqn:E; [|done]. intros [= <- <- <-] Hc. split; [done|]. by eapply pushData_T_ok.
Qed.

Lemma wires_handlePacket p : in_u 16 (h_id (p_header p)) → respects wires (handlePacket p).
Proof.
  intros Hi. unfold handlePacket. destruct (_ =? Packet.H0).
  { apply (respects_bind _); [apply wires_send; eauto with wire|]. intros _. frame. apply emitted_wires. by case_match. }
  destruct (_ =? H1).
  { apply (respects_bind _); [frame|]. intros c. apply (respects_bind _); [|frame]. apply (respects_when _).
    apply (respects_bind _); [by apply wires_modify|]. intros _. apply wires_built; [eauto with wire|].
    intros [q b] Hq. by apply wires_sendReliably. }
  pose proof (readRemoteID_range p) as Hr. destruct (_ =? H2).
  { assert (in_u 16 (h_id (p_header (readRemoteID p).1))) as Hi'.
    { unfold readRemoteID. pose proof (popData_header p 2) as Hh. destruct (popData p 2) as [? [?|]]; simpl in *; by rewrite Hh. }
    destruct (readRemoteID p) as [p1 r]. apply (respects_bind _); [frame|]. intros c. apply wires_built; [eauto with wire|].
    intros [q b] Hq. apply (respects_bind _); [by apply wires_send|]. intros _. apply (respects_bind _); [frame|]. intros c'.
    apply (respects_bind _); [|frame]. apply (respects_when _), wires_complete. intros d. by do 2 eexists. }
  destruct (_ =? H3); [|frame]. destruct (readRemoteID p) as [p1 r]. apply (respects_bind _); [frame|]. intros c.
  apply (respects_bind _); [|frame]. apply (respects_when _), wires_complete. intros d. by do 2 eexists.
Qed.

(** The packets of the inputs are as datagrams bring them. *)
Definition in_datagram (i : Input) : Prop := match i with Arrives p _ => packet_ok p | _ => True end.

Lemma wires_receive p from : packet_ok p → respects wires (receive p from).
Proof.
  intros Hp. unfold receive. apply (wires_bind (λ x, packet_ok x.1)).
  { intros c [q d] c' E Hc. unfold ho_onReceive in E. destruct (_ =? H3); [|injection E as <- <- <-; by split].
    pose proof (popData_ok p sizeof_HandshakeOptionsData ltac:(done) Hp) as Hq.
    destruct (popData p _) as [q' [bs|]]; injection E as <- <- <-; (split; [|exact Hq]); [|done].
    by apply (emitted_wires c). }
  intros [p1 d1] Hp1. case_decide; [frame|]. do 2 (apply (respects_bind _); [frame|]; intros ?).
  intros c [] c' ([p2 d2]&c1&E1&E)%bind_some. pose proof (wires_np_onReceive p1 from Hp1 _ _ _ E1) as Hw1.
  transitivity c1; [done|]. case_decide; [by injection E as <-|].
  assert (in_u 16 (h_id (p_header p2))) as Hi.
  { destruct (np_onReceive_cases (λ _, True) (λ _ _, I) _ _ _ _ _ _ E1) as [(_&->&_)|(_&->&_)]; [apply Hp1|].
    unfold verifyChallengeResponse. pose proof (popSizedData_header p1) as Hh. destruct (popSizedData p1) as [q1 [x|]];
      simpl in Hh; [|simpl; rewrite Hh; apply Hp1]. pose proof (popSizedData_header q1) as Hh2.
    destruct (popSizedData q1) as [q2 [y|]]; simpl in *; rewrite Hh2, Hh; apply Hp1. }
  assert (respects wires ('(packet, d) ← hs_onReceive p2;
      if decide (d = Discard) then mret tt else pr_on a;; s_onReceive packet;; rc_onReceive packet)) as Hr; [|by eapply Hr].
  apply (respects_bind _); [|intros [q d]; frame]. unfold hs_onReceive. destruct (negb _); [frame|].
  apply (respects_bind _); [by apply wires_handlePacket|frame].
Qed.

Lemma wires_handle i : in_datagram i → respects wires (handle i).
Proof.
  intros Hi. destruct i; cbn [handle].
  - by apply wires_receive.
  - apply wires_onRetryTimeout.
  - apply wires_pr_onTimeout.
  - by apply wires_emit.
  - apply wires_processSchedule.
  - apply wires_openUser.
  - unfold Connection.open. frame.
  - apply wires_initiate.
  - apply (respects_bind _); [apply wires_send_data|frame].
  - apply wires_user_close.
  - apply wires_close_event.
Qed.

Lemma wired_clock t c : wired c → wired (set_clock t c).
Proof. by intros []. Qed.

Lemma initial_wired c : initial c → wired c.
Proof.
  intros (i&a&l&o&t&->&_). split; simpl; [done|done|constructor|constructor| |constructor]. intros p (j&x&path&Hx&_). simpl in Hx. by rewrite lookup_empty in Hx.
Qed.

Lemma handle_wired i t c c' : in_datagram i → handle i (set_clock t c) = Some (tt, c') → wired c → wired c'.
Proof. intros Hi E Hc. eapply wires_handle; [exact Hi|exact E|by apply wired_clock]. Qed.

Lemma valid_in_datagram i c : valid i c → in_datagram i.
Proof. destruct i; try done. by intros (?&[? _]&_). Qed.

Lemma reachable_wired ins c : reachable ins c → wired c.
Proof.
  induction 1 as [c Hc|ins c i c' _ IH [t _ Hv E]]; [by apply initial_wired|].
  eapply handle_wired; [by eapply valid_in_datagram|exact E|done].
Qed.
End queues.
