(* ===== verification/Moving.v ===== *)
(** * Where a connection is

    The address of a connection changes with the events that tell the native layer, and with
    nothing else: what the layer has been told is where the connection is. *)

From S2P Require Import Prelude MemCopy Packet ReceiveQueue Types Asio Datagram SendQueue Compression Float32 Rtt State Retrier Transmit Invariant Sender Connection Closing Wire Lifecycle.

(** The address after [es], of a connection that was at [a]. *)
Definition last_address (a : Address) (es : list Event) : Address :=
  foldl (λ a e, match e with AddressChanged b => b | _ => a end) a es.

Lemma last_address_app a es fs : last_address a (es ++ fs) = last_address (last_address a es) fs.
Proof. apply foldl_app. Qed.

Definition moves : relation Connection := λ c c',
  ∃ es, events c' = events c ++ es ∧ remoteAddress c' = last_address (remoteAddress c) es.

#[export] Instance moves_preorder : PreOrder moves.
Proof.
  split; [intros c; exists []; by rewrite app_nil_r|]. intros c1 c2 c3 (es&E&A) (fs&F&B). exists (es ++ fs).
  by rewrite F, E, B, A, last_address_app, app_assoc.
Qed.

Definition whereabouts (c : Connection) := (events c, remoteAddress c).

Lemma stays c c' : whereabouts c' = whereabouts c → moves c c'.
Proof. intros [= E A]. exists []. by rewrite app_nil_r. Qed.

Lemma moves_modify f : (∀ c, whereabouts (f c) = whereabouts c) → respects moves (modify f).
Proof. intros Hf. apply respects_modify. intros. by apply stays. Qed.

Definition is_move (e : Event) : bool := match e with AddressChanged _ => true | _ => false end.

Lemma moves_emit e : is_move e = false → respects moves (emit e).
Proof. intros He. apply respects_modify. intros c. exists [e]. by destruct e. Qed.

Section moving.
Context `{!Zlib}.
#[local] Hint Extern 1 (respects moves (emit _)) => (by apply moves_emit) : frame.
#[local] Hint Extern 1 (respects moves (modify _)) => (apply moves_modify; intros ?; by repeat case_match) : frame.
#[local] Hint Extern 1 (respects moves (modify_sender _)) => (by apply moves_modify) : frame.
#[local] Hint Extern 1 (respects moves (modify_retrier _)) => (by apply moves_modify) : frame.
#[local] Hint Extern 1 (respects moves (modify_statistics _)) => (by apply moves_modify) : frame.
#[local] Hint Extern 1 (respects moves (set_retry _ _)) => (by apply moves_modify) : frame.

Lemma moves_on_queue {A} r (m : M SendQueue A) : respects moves (on_queue r m).
Proof. intros c a c'. unfold on_queue. destruct (m _) as [[a' q]|]; [|done]. intros [= <- <-]. by apply stays. Qed.
#[local] Hint Resolve moves_on_queue : frame.

Lemma moves_recalculateRetryTimeout : respects moves recalculateRetryTimeout.
Proof. unfold recalculateRetryTimeout, getNextRetry. frame. Qed.
#[local] Hint Resolve moves_recalculateRetryTimeout : frame.
Lemma moves_rt_insert ps now prio : respects moves (rt_insert ps now prio).
Proof. unfold rt_insert. frame. Qed.
Lemma moves_rt_ack i now d : respects moves (rt_ack i now d).
Proof. unfold rt_ack. frame. Qed.
Lemma moves_pr_on now : respects moves (pr_on now).
Proof. unfold pr_on, recalculateProbeTimeout, registerTimeout. frame. Qed.
#[local] Hint Resolve moves_rt_insert moves_rt_ack moves_pr_on : frame.
Lemma moves_send_ p a : respects moves (send_ p a).
Proof. unfold send_. frame. Qed.
#[local] Hint Resolve moves_send_ : frame.
Lemma moves_send p a : respects moves (send p a).
Proof. unfold send. frame. Qed.
#[local] Hint Resolve moves_send : frame.
Lemma moves_sendReliablyMultipath ps prio : respects moves (sendReliablyMultipath ps prio).
Proof. unfold sendReliablyMultipath, nextID. frame. Qed.
#[local] Hint Resolve moves_sendReliablyMultipath : frame.
Lemma moves_sendReliably p a : respects moves (sendReliably p a).
Proof. apply moves_sendReliablyMultipath. Qed.
#[local] Hint Resolve moves_sendReliably : frame.

Lemma moves_processDataQueue r : respects moves (processDataQueue r).
Proof.
  assert (∀ fuel, respects moves (processReliableDataQueue_loop fuel)) as Hr.
  { induction fuel as [|fuel IH]; cbn [processReliableDataQueue_loop]; unfold numUnacked; frame. }
  assert (∀ fuel, respects moves (processUnreliableDataQueue_loop fuel)) as Hu.
  { induction fuel as [|fuel IH]; cbn [processUnreliableDataQueue_loop]; frame. }
  destruct r; cbn [processDataQueue]; unfold processUnreliableDataQueue, processReliableDataQueue, queueDelayedAcks; frame.
Qed.
#[local] Hint Resolve moves_processDataQueue : frame.
Lemma moves_schedule r b : respects moves (scheduleDataQueueProcessing r b).
Proof. unfold scheduleDataQueueProcessing. frame. Qed.
#[local] Hint Resolve moves_schedule : frame.
Lemma moves_processSchedule r : respects moves (processSchedule r).
Proof. unfold processSchedule. frame. Qed.
Lemma moves_s_enqueue t d r m : respects moves (s_enqueue t d r m).
Proof. unfold s_enqueue. frame. Qed.
Lemma moves_s_open : respects moves s_open.
Proof. unfold s_open. frame. Qed.
Lemma moves_s_fail : respects moves s_fail.
Proof. unfold s_fail, rt_close. frame. Qed.
Lemma moves_s_ack i : respects moves (s_ack i).
Proof. unfold s_ack. frame. Qed.
Lemma moves_closeUser e : respects moves (closeUser e).
Proof. unfold closeUser. frame. Qed.
#[local] Hint Resolve moves_processSchedule moves_s_enqueue moves_s_open moves_s_fail moves_s_ack moves_closeUser : frame.
Lemma moves_close_event e : respects moves (close_event e).
Proof. unfold close_event, finishWhenReady. frame. Qed.
#[local] Hint Resolve moves_close_event : frame.
Lemma moves_possiblyClose : respects moves possiblyClose.
Proof. unfold possiblyClose. frame. Qed.
#[local] Hint Resolve moves_possiblyClose : frame.
Lemma moves_onAck a : respects moves (onAck a).
Proof. unfold onAck. frame. Qed.
#[local] Hint Resolve moves_onAck : frame.
Lemma moves_s_onReceive p : respects moves (s_onReceive p).
Proof. unfold s_onReceive, onAck_packet. frame. Qed.
Lemma moves_receive_data d r : respects moves (receive_data d r).
Proof. unfold receive_data. frame. Qed.
Lemma moves_rc_close : respects moves rc_close.
Proof. unfold rc_close. frame. Qed.
#[local] Hint Resolve moves_s_onReceive moves_receive_data moves_rc_close : frame.
Lemma moves_set_receiver r c : moves c (set_receiver r c).
Proof. by apply stays. Qed.
Lemma moves_processReceived r f : respects moves (processReceived r f).
Proof.
  unfold processReceived. frame. apply (respects_on_receiveBuffer _); [apply moves_set_receiver|]. intros; apply moves_receive_data.
Qed.
Lemma moves_rc_open i : respects moves (rc_open i).
Proof. apply (respects_rc_open _); [apply moves_set_receiver|apply moves_processReceived]. Qed.
Lemma moves_rc_onReceive p : respects moves (rc_onReceive p).
Proof. apply (respects_rc_onReceive _); [apply moves_set_receiver|apply moves_processReceived|apply moves_s_ack]. Qed.
#[local] Hint Resolve moves_rc_open moves_rc_onReceive : frame.
Lemma moves_fail e : respects moves (fail e).
Proof. unfold fail, pr_close, rc_fail. frame. Qed.
#[local] Hint Resolve moves_fail : frame.
Lemma moves_onHandshakeComplete : respects moves onHandshakeComplete.
Proof. unfold onHandshakeComplete. frame. Qed.
#[local] Hint Resolve moves_onHandshakeComplete : frame.

Lemma moves_handlePacket p : respects moves (handlePacket p).
Proof. unfold handlePacket. frame. Qed.

Lemma moves_np_onReceive p from : respects moves (np_onReceive p from).
Proof.
  unfold np_onReceive, sendChallengeResponse, sendChallenge. frame. unfold onRemoteAddressChanged.
  intros c [] c' ([]&c1&[= <-]&[= <-])%bind_some. by exists [AddressChanged from].
Qed.
#[local] Hint Resolve moves_handlePacket moves_np_onReceive : frame.

Lemma moves_receive p from : respects moves (receive p from).
Proof. unfold receive, ho_onReceive, hs_onReceive. frame. Qed.

Lemma handle_moves i : respects moves (handle i).
Proof.
  destruct i; cbn [handle].
  - apply moves_receive.
  - unfold onRetryTimeout, getNextRetry, resend. frame.
  - unfold pr_onTimeout, registerTimeout. frame.
  - by apply moves_emit.
  - apply moves_processSchedule.
  - unfold openUser. frame.
  - unfold Connection.open. frame.
  - unfold initiate. frame.
  - unfold send_data, s_send. frame.
  - unfold user_close, Connection.close, s_close. frame.
  - apply moves_close_event.
Qed.
End moving.
