(* ===== verification/Socket.v ===== *)
(** * Sockets: [Socket]

    A socket finds the connection a packet belongs to, by the short id in its header or, while
    the handshake is not complete, by the long id at its end, and creates connections for first
    packets when the user listens. Connections are shared: [store] holds the objects, the two
    look-up maps hold references.

    The answers of the user's callbacks, of the native socket and of the random generator are
    parameters of the operations that ask for them. *)

From S2P Require Import Prelude MemCopy Packet ReceiveQueue Types Asio Datagram SendQueue Compression Float32 Rtt State Retrier Transmit Invariant Sender Connection NetworkPath.

Abbreviation Ref := nat.

Record Socket := mkSocket {
  shortConnectionIDs : gset Z;
  store : gmap Ref Connection;
  connections : gmap (list byte) Ref;    (* UnorderedMap<LongConnectionID, StrongPtr<Connection>> *)
  receiveConnections : gmap Z Ref;       (* UnorderedMap<ShortConnectionID, StrongPtr<Connection>> *)
  acceptHandler : bool;
  shouldAccept : bool;
  sk_closeHandler : bool;
  sk_disposed : bool;                    (* userDataDisposed *)
  sk_closed : Z;                         (* how often the close handler was called *)
  service_options : ConnectionOptions;
}.

Definition Socket_init (o : ConnectionOptions) : Socket :=
  mkSocket ∅ ∅ ∅ ∅ false false false true 0 o.

Section setters.
Implicit Types s : Socket.
Definition set_ids (i : gset Z) s : Socket :=
  mkSocket i (store s) (connections s) (receiveConnections s) (acceptHandler s) (shouldAccept s)
    (sk_closeHandler s) (sk_disposed s) (sk_closed s) (service_options s).
Definition set_store (st : gmap Ref Connection) s : Socket :=
  mkSocket (shortConnectionIDs s) st (connections s) (receiveConnections s) (acceptHandler s)
    (shouldAccept s) (sk_closeHandler s) (sk_disposed s) (sk_closed s) (service_options s).
Definition set_maps (l : gmap (list byte) Ref) (r : gmap Z Ref) s : Socket :=
  mkSocket (shortConnectionIDs s) (store s) l r (acceptHandler s) (shouldAccept s)
    (sk_closeHandler s) (sk_disposed s) (sk_closed s) (service_options s).
Definition set_handlers (a sa ch d : bool) (n : Z) s : Socket :=
  mkSocket (shortConnectionIDs s) (store s) (connections s) (receiveConnections s) a sa ch d n
    (service_options s).
End setters.

(** [strong<Connection>(...)]: a new object. *)
Definition new_connection (c : Connection) : M Socket Ref :=
  s ← mget;
  let r := fresh (dom (store s)) in
  modify (set_store (<[r := c]> (store s)));;
  mret r.

(** Call a method of a connection. *)
Definition on_connection {A} (r : Ref) (m : C A) : M Socket A := λ s,
  c ← store s !! r;
  '(a, c') ← m c;
  Some (a, set_store (<[r := c']> (store s)) s).

(** ** Short ids *)

Definition isFull (s : Socket) : bool := Z.of_nat (size (shortConnectionIDs s)) =? 2 ^ 16 - 1 - 1.

(** [id++] wraps around at 16 bits. *)
Fixpoint acquire_loop (fuel : nat) (i : Z) : M Socket Z :=
  match fuel with
  | O => ub
  | S fuel =>
    s ← mget;
    if (i =? 0) || bool_decide (i ∈ shortConnectionIDs s) then acquire_loop fuel (u16 (i + 1))
    else modify (λ s, set_ids ({[i]} ∪ shortConnectionIDs s) s);; mret i
  end.

(** The search comes back to where it started after 2^16 rounds. *)
Definition acquireShortConnectionID (random : Z) : M Socket Z :=
  acquire_loop (Z.to_nat (2 ^ 16)) random.

Definition releaseShortConnectionID (i : Z) : M Socket unit :=
  modify (λ s, set_ids (shortConnectionIDs s ∖ {[i]}) s).

(** ** The look-up maps *)

Definition insert (r : Ref) : M Socket unit := λ s,
  c ← store s !! r;
  Some (tt, set_maps (<[id c := r]> (connections s)) (<[localID c := r]> (receiveConnections s)) s).

Definition erase (r : Ref) : M Socket unit :=
  c ← (λ s, c ← store s !! r; Some (c, s));
  modify (λ s, set_maps (delete (id c) (connections s)) (delete (localID c) (receiveConnections s)) s);;
  releaseShortConnectionID (localID c).

Record LookUp := mkLookUp { shortID : Z; longID : list byte }.

(** The long id is popped from the packet. *)
Definition getLookUp (packet : Packet) : Packet * LookUp :=
  let short := h_connection (p_header packet) in
  if short =? 0 then
    match popData packet sizeof_LongConnectionID with
    | (p, Some d) => (p, mkLookUp short d)
    | (p, None) => (p, mkLookUp short NullLongConnectionID)
    end
  else (packet, mkLookUp short NullLongConnectionID).

Lemma getLookUp_header w : p_header (getLookUp w).1 = p_header w.
Proof.
  unfold getLookUp. destruct (_ =? 0); [|done]. pose proof (popData_header w sizeof_LongConnectionID) as Hh.
  by destruct (popData w _) as [p' [d|]].
Qed.

(** Looking up reads the header and the data. *)
Lemma getLookUp_equiv p q : packet_wf p → p ≡ q → (getLookUp p).1 ≡ (getLookUp q).1 ∧ (getLookUp p).2 = (getLookUp q).2.
Proof.
  intros Hp E. unfold getLookUp. pose proof E as (Eh&_). rewrite <-Eh. destruct (_ =? 0); [|by split].
  destruct (popData_equiv p q sizeof_LongConnectionID Hp ltac:(done) E) as [E1 E2].
  destruct (popData p _) as [p' d], (popData q _) as [q' d']. simpl in *. subst d'. by destruct d.
Qed.

Lemma getLookUp_wf p : packet_wf p → packet_wf (getLookUp p).1.
Proof.
  intros Hp. unfold getLookUp. destruct (_ =? 0); [|done].
  pose proof (popData_wf p sizeof_LongConnectionID ltac:(done) Hp) as Hq. by destruct (popData p _) as [p' [d|]].
Qed.

Lemma getLookUp_ok p : packet_ok p → packet_ok (getLookUp p).1.
Proof.
  intros Hp. unfold getLookUp. destruct (_ =? 0); [|done].
  pose proof (popData_ok p sizeof_LongConnectionID ltac:(done) Hp) as Hq. by destruct (popData p _) as [p' [d|]].
Qed.

Definition findConnection (l : LookUp) (s : Socket) : option Ref :=
  if negb (LongConnectionID_eqb (longID l) NullLongConnectionID) then connections s !! longID l
  else if negb (shortID l =? 0) then receiveConnections s !! shortID l
  else None.

Section operations.
Context `{!Zlib}.

(** What the outside answers while a connection is generated: [shouldAccept]'s code, the random
    short id, the code of the native open, the time, the accept handler's code and the
    [mrudp_accept] call it made, if any. *)
Record Answers := mkAnswers {
  an_shouldAccept : Address → Z;
  an_random : Z;
  an_open : Z;
  an_now : Z;
  an_accept : Z;
  an_openUser : option (option ConnectionOptions * bool * bool);
}.

Definition generateConnection (an : Answers) (l : LookUp) (packet : Packet) (from : Address) : M Socket (option Ref) :=
  s ← mget;
  if isFull s then mret None
  else if negb (h_type (p_header packet) =? Packet.H0) then mret None
  else if LongConnectionID_eqb (longID l) NullLongConnectionID then mret None
  else if negb (acceptHandler s) then mret None
  else if shouldAccept s && mrudp_failed (an_shouldAccept an from) then mret None
  else
    localID ← acquireShortConnectionID (an_random an);
    r ← new_connection (Connection_init (longID l) from localID (service_options s) (an_now an));
    insert r;;
    status ← on_connection r (open (an_open an));
    if mrudp_failed status then erase r;; mret None
    else
      match an_openUser an with
      | Some (o, rh, ch) => on_connection r (openUser o rh ch)
      | None => mret tt
      end;;
      if mrudp_failed (an_accept an) then
        on_connection r (close_event MRUDP_EVENT_NOT_ACCEPTED);; mret None
      else mret (Some r).

Definition findOrGenerateConnection (an : Answers) (l : LookUp) (packet : Packet) (from : Address) : M Socket (option Ref) :=
  s ← mget;
  match findConnection l s with
  | Some r => mret (Some r)
  | None => generateConnection an l packet from
  end.

Definition sk_receive (an : Answers) (packet : Packet) (from : Address) : M Socket unit :=
  let '(packet, l) := getLookUp packet in
  r ← findOrGenerateConnection an l packet from;
  match r with
  | Some r => on_connection r (modify (set_clock (an_now an));; receive packet from)
  | None => mret tt
  end.

(** ** The user's calls *)

Definition listen (sa a ch : bool) : M Socket unit :=
  s ← mget;
  when (sk_disposed s) (modify (set_handlers a sa ch false (sk_closed s))).

(** The short id is acquired without a check of [isFull]. *)
Definition connect (randomLong : list byte) (random : Z) (native_open : Z) (now : Z)
    (remote : Address) (o : option ConnectionOptions) (rh ch : bool) : M Socket (option Ref) :=
  s ← mget;
  localID ← acquireShortConnectionID random;
  r ← new_connection (Connection_init randomLong remote localID (service_options s) now);
  on_connection r (openUser o rh ch);;
  insert r;;
  status ← on_connection r (open native_open);
  if mrudp_failed status then erase r;; mret None
  else on_connection r initiate;; mret (Some r).

(** [shouldAccept] is left in place. *)
Definition sk_closeUser : M Socket unit :=
  s ← mget;
  if sk_disposed s then mret tt
  else modify (set_handlers false (shouldAccept s) false true
                 (if sk_closeHandler s then sk_closed s + 1 else sk_closed s)).

Definition sk_close : M Socket unit := sk_closeUser.

(** [Drop]: without [MRUDP_ENABLE_DROP] nothing is dropped. *)
Definition shouldDrop : bool := false.
End operations.

(** ** Acquiring short ids *)

Definition free_id (s : Socket) (i : Z) : Prop := 0 < i < 2 ^ 16 ∧ i ∉ shortConnectionIDs s.

Lemma acquire_loop_spec fuel i d s :
  in_u 16 i → 0 ≤ d < Z.of_nat fuel → free_id s (u16 (i + d)) →
  wp (acquire_loop fuel i) (λ j s', free_id s j ∧ s' = set_ids ({[j]} ∪ shortConnectionIDs s) s) s.
Proof.
  revert i d. induction fuel as [|fuel IH]; intros i d Hi Hd Hf; [lia|].
  cbn [acquire_loop]. wp_steps. destruct (_ || _) eqn:E.
  - assert (d ≠ 0) as Hd0.
    { intros ->. rewrite Z.add_0_r, wrap_small in Hf by done. destruct Hf as [? Hn].
      apply orb_true_iff in E as [E%Z.eqb_eq|E%bool_decide_eq_true]; [lia|done]. }
    apply (IH _ (d - 1)); [by apply wrap_range|lia|].
    rewrite wrap_wrap_add. by replace (i + 1 + (d - 1)) with (i + d) by lia.
  - wp_steps. apply orb_false_iff in E as [E1%Z.eqb_neq E2%bool_decide_eq_false].
    split; [|done]. unfold in_u in Hi. split; [lia|done].
Qed.

Lemma acquire_spec random j s :
  in_u 16 random → free_id s j →
  wp (acquireShortConnectionID random)
    (λ i s', free_id s i ∧ s' = set_ids ({[i]} ∪ shortConnectionIDs s) s) s.
Proof.
  intros Hr Hj. apply (acquire_loop_spec _ _ ((j - random) `mod` 2 ^ 16)); [done| |].
  - pose proof (Z.mod_pos_bound (j - random) (2 ^ 16)). lia.
  - unfold wrap. rewrite Zplus_mod_idemp_r. replace (random + (j - random)) with j by lia.
    by rewrite Z.mod_small by (destruct Hj; lia).
Qed.

Lemma acquire_loop_full fuel i s :
  in_u 16 i → (∀ j, 0 < j < 2 ^ 16 → j ∈ shortConnectionIDs s) → acquire_loop fuel i s = None.
Proof.
  intros Hi Hfull. revert i Hi. induction fuel as [|fuel IH]; intros i Hi; [done|].
  cbn [acquire_loop]. unfold mbind, M_bind, mget.
  assert ((i =? 0) || bool_decide (i ∈ shortConnectionIDs s) = true) as ->.
  { apply orb_true_iff. destruct (decide (i = 0)) as [->|]; [by left|right].
    apply bool_decide_eq_true, Hfull. unfold in_u in Hi. lia. }
  apply IH. by apply wrap_range.
Qed.

(** ** Invariant *)

Record sock_inv (s : Socket) : Prop := {
  ki_conn : ∀ r c, store s !! r = Some c → conn_inv c;
  ki_long : ∀ l r, connections s !! l = Some r → ∃ c, store s !! r = Some c ∧ id c = l;
  ki_short : ∀ i r, receiveConnections s !! i = Some r →
    i ∈ shortConnectionIDs s ∧ ∃ c, store s !! r = Some c ∧ localID c = i;
  ki_range : ∀ i, i ∈ shortConnectionIDs s → 0 < i < 2 ^ 16;
  ki_options : options_ok (service_options s) ∧ uncompressed (service_options s);
}.

Lemma Socket_init_inv o : options_ok o → uncompressed o → sock_inv (Socket_init o).
Proof. intros. split; simpl; try done; intros; by rewrite ?lookup_empty in *; set_solver. Qed.

(** A method that keeps a connection well-formed and its ids. *)
Lemma wp_on_connection {A} r c (m : C A) (Q : A → Socket → Prop) s :
  store s !! r = Some c →
  wp m (λ a c', Q a (set_store (<[r := c']> (store s)) s)) c → wp (on_connection r m) Q s.
Proof. intros Hr Hm. unfold wp, on_connection in *. rewrite Hr. simpl. by destruct (m c) as [[a c']|]. Qed.

Lemma store_inv r c c' s :
  sock_inv s → store s !! r = Some c → conn_inv c' → id c' = id c → localID c' = localID c →
  sock_inv (set_store (<[r := c']> (store s)) s).
Proof.
  intros [H1 H2 H3 H4 H5] Hr Hc' Hi Hl. split; simpl; [| | |done|done].
  - intros q x [[<- <-]|[_ Hx]]%lookup_insert_Some; [done|by eapply H1].
  - intros l q Hq. destruct (H2 l q Hq) as (x&Hx&<-). destruct (decide (q = r)) as [->|Hne].
    + exists c'. rewrite lookup_insert_eq. split; [done|congruence].
    + exists x. by rewrite lookup_insert_ne.
  - intros i q Hq. destruct (H3 i q Hq) as (?&x&Hx&<-). split; [done|]. destruct (decide (q = r)) as [->|Hne].
    + exists c'. rewrite lookup_insert_eq. split; [done|congruence].
    + exists x. by rewrite lookup_insert_ne.
Qed.

(** The connections that can be found. *)
Definition found_by_long (s : Socket) (l : list byte) : option Ref :=
  findConnection (mkLookUp 0 l) s.
Definition found_by_short (s : Socket) (i : Z) : option Ref :=
  findConnection (mkLookUp i NullLongConnectionID) s.

Lemma eqb_null l : length l = 16%nat → LongConnectionID_eqb l NullLongConnectionID = true → l = NullLongConnectionID.
Proof. intros Hl E%Z.eqb_eq. by apply memcmp_0. Qed.

Lemma found_by_long_eq s l :
  length l = 16%nat → l ≠ NullLongConnectionID → found_by_long s l = connections s !! l.
Proof.
  intros Hl Hn. unfold found_by_long, findConnection. simpl.
  destruct (LongConnectionID_eqb l NullLongConnectionID) eqn:E; [|done].
  by apply eqb_null in E.
Qed.

Lemma found_by_short_eq s i : i ≠ 0 → found_by_short s i = receiveConnections s !! i.
Proof.
  intros Hi. unfold found_by_short, findConnection. simpl. by rewrite (proj2 (Z.eqb_neq _ _)).
Qed.

(** A connection just created with a fresh short id and put into the maps. *)
Lemma create_inv s r c i l :
  sock_inv s → free_id s i → r ∉ dom (store s) → conn_inv c → id c = l → localID c = i →
  sock_inv (set_maps (<[l := r]> (connections s)) (<[i := r]> (receiveConnections s))
    (set_store (<[r := c]> (store s)) (set_ids ({[i]} ∪ shortConnectionIDs s) s))).
Proof.
  intros [H1 H2 H3 H4 H5] [Hi Hfree] Hr Hc Hid Hl. apply not_elem_of_dom in Hr.
  split; simpl; [| | | |done].
  - intros q x [[<- <-]|[_ Hx]]%lookup_insert_Some; [done|by eapply H1].
  - intros l' q [[<- <-]|[_ Hq]]%lookup_insert_Some; [exists c; by rewrite lookup_insert_eq|].
    destruct (H2 l' q Hq) as (x&Hx&<-). exists x. rewrite lookup_insert_ne; [done|congruence].
  - intros j q [[<- <-]|[_ Hq]]%lookup_insert_Some.
    + split; [set_solver|]. exists c. by rewrite lookup_insert_eq.
    + destruct (H3 j q Hq) as (?&x&Hx&<-). split; [set_solver|]. exists x.
      rewrite lookup_insert_ne; [done|congruence].
  - intros j. rewrite elem_of_union, elem_of_singleton. intros [->|?]; [done|by apply H4].
Qed.

Lemma erase_inv s r c :
  sock_inv s → store s !! r = Some c →
  wp (erase r) (λ _ s', sock_inv s' ∧
    connections s' = delete (id c) (connections s) ∧
    receiveConnections s' = delete (localID c) (receiveConnections s) ∧
    shortConnectionIDs s' = shortConnectionIDs s ∖ {[localID c]}) s.
Proof.
  intros [K1 K2 K3 K4 K5] Hr. unfold erase. apply wp_bind. unfold wp at 1. rewrite Hr. simpl.
  wp_steps. split_and!; try done. split; simpl; [done| | | |done].
  - intros l q [_ Hq]%lookup_delete_Some. by apply K2.
  - intros i q [Hi Hq]%lookup_delete_Some. destruct (K3 i q Hq). split; [set_solver|done].
  - intros i [? _]%elem_of_difference. by apply K4.
Qed.

Section creation.
Context `{!Zlib}.

(** Options a user may pass for this socket. *)
Definition user_options_ok (s : Socket) (o : option ConnectionOptions) : Prop :=
  match o with
  | Some o => options_ok (merge o (service_options s)) ∧ uncompressed (merge o (service_options s))
  | None => True
  end.

Lemma openUser_keeps o rh ch c :
  conn_inv c →
  match o with Some o => options_ok (merge o (options c)) ∧ uncompressed (merge o (options c)) | None => True end →
  wp (openUser o rh ch) (λ _ c', conn_inv c' ∧ id c' = id c ∧ localID c' = localID c) c.
Proof.
  intros Hc Hv. unfold openUser. apply wp_bind, wp_modify, wp_bind, wp_mget.
  set (c1 := match o with Some o => _ | None => _ end).
  assert (conn_inv c1 ∧ id c1 = id c ∧ localID c1 = localID c) as (Hc1&He1&Hd1).
  { unfold c1. destruct o as [o|]; [|done]. destruct Hv. split_and!; [|done|done].
    split; simpl; apply Hc || done. }
  destruct (userDataDisposed c1) eqn:Hd; simpl; [apply wp_modify|by apply wp_ret].
  split_and!; [|done|done]. split; simpl; apply Hc1 || done.
Qed.

Lemma safe_keeps {A} (m : C A) c :
  conn_inv c → safe m c → wp m (λ _ c', conn_inv c' ∧ id c' = id c ∧ localID c' = localID c) c.
Proof.
  intros Hc Hm. eapply wp_mono; [by apply Hm|]. intros a c' [? He]. destruct (ev_id _ _ He). done.
Qed.

Lemma safe_open status c : safe (open status) c.
Proof.
  unfold open. destruct (mrudp_failed status); [apply safe_ret|]. apply safe_gets.
  apply safe_bind; [apply safe_pr_on|]. intros; apply safe_ret.
Qed.

(** A new connection, opened by the user or not, put into the maps: the common part of [connect]
    and [generateConnection]. *)
Lemma insert_new r c0 c s i l :
  sock_inv s → free_id s i → r ∉ dom (store s) → conn_inv c → id c = l → localID c = i →
  let s1 := set_store (<[r := c]> (<[r := c0]> (store s))) (set_ids ({[i]} ∪ shortConnectionIDs s) s) in
  ∃ s2, insert r s1 = Some (tt, s2) ∧ sock_inv s2 ∧ store s2 !! r = Some c ∧
    connections s2 = <[l := r]> (connections s) ∧
    receiveConnections s2 = <[i := r]> (receiveConnections s) ∧
    shortConnectionIDs s2 = {[i]} ∪ shortConnectionIDs s.
Proof.
  intros Hs Hf Hr Hc Hid Hl s1.
  pose proof (create_inv s r c i l Hs Hf Hr Hc Hid Hl) as Hi.
  exists (set_maps (<[l := r]> (connections s)) (<[i := r]> (receiveConnections s)) s1).
  split_and!; [| | |done..].
  - unfold insert, s1. simpl. rewrite lookup_insert_eq. simpl. rewrite Hid, Hl. done.
  - unfold s1. by rewrite insert_insert_eq.
  - simpl. by rewrite lookup_insert_eq.
Qed.

Lemma wp_eq {St A} (m : M St A) (Q : A → St → Prop) a s s' : m s = Some (a, s') → Q a s' → wp m Q s.
Proof. unfold wp. by intros ->. Qed.

(** Running a method that keeps the ids. *)
Lemma wp_method {A} r c (m : C A) (Q : A → Socket → Prop) s :
  sock_inv s → store s !! r = Some c →
  wp m (λ _ c', conn_inv c' ∧ id c' = id c ∧ localID c' = localID c) c →
  (∀ a c' s', m c = Some (a, c') → sock_inv s' → store s' !! r = Some c' →
     id c' = id c → localID c' = localID c → connections s' = connections s →
     receiveConnections s' = receiveConnections s → shortConnectionIDs s' = shortConnectionIDs s →
     Q a s') →
  wp (on_connection r m) Q s.
Proof.
  intros Hs Hr Hm HQ. eapply wp_on_connection; [done|]. unfold wp in *.
  destruct (m c) as [[a c']|] eqn:E; [|done]. destruct Hm as (Hc'&Hi&Hl).
  apply (HQ a c'); [done|by apply (store_inv r c)| |done..]. simpl. apply lookup_insert_eq.
Qed.

(** [open] returns the code of the native open. *)
Lemma open_status native st c c' : open native c = Some (st, c') → st = native.
Proof.
  unfold open. destruct (mrudp_failed native) eqn:Ef; [by intros [= <- _]|].
  unfold mrudp_failed in Ef. apply negb_false_iff, Z.eqb_eq in Ef. subst native.
  unfold mbind, M_bind, gets. destruct (pr_on _ _) as [[[] ?]|]; [|done]. by intros [= <- _].
Qed.

Lemma connect_wp randomLong random j native_open now remote o rh ch s :
  sock_inv s → in_u 16 random → free_id s j → length randomLong = 16%nat →
  randomLong ≠ NullLongConnectionID → user_options_ok s o →
  wp (connect randomLong random native_open now remote o rh ch) (λ res s',
    sock_inv s' ∧
    match res with
    | Some r => native_open = MRUDP_OK ∧ ∃ c, store s' !! r = Some c ∧ id c = randomLong ∧
        free_id s (localID c) ∧ found_by_long s' randomLong = Some r ∧
        found_by_short s' (localID c) = Some r
    | None => native_open ≠ MRUDP_OK ∧ found_by_long s' randomLong = None ∧
        shortConnectionIDs s' = shortConnectionIDs s
    end) s.
Proof.
  intros Hs Hr Hj Hlen Hnull Ho. unfold connect. wp_steps.
  eapply wp_mono; [by eapply acquire_spec|]. intros i s1 [Hi ->]. wp_steps.
  unfold new_connection. wp_steps. set (s1 := set_ids _ s). set (r := fresh (dom (store s1))).
  set (c0 := Connection_init _ _ _ _ _).
  assert (conn_inv c0) as Hc0 by (apply Connection_init_inv; [done|apply Hs..]).
  assert (r ∉ dom (store s)) as Hfr by (apply (is_fresh (dom (store s1)))).
  apply (wp_on_connection r c0); [simpl; by rewrite lookup_insert_eq|].
  eapply wp_mono; [apply (openUser_keeps o rh ch c0 Hc0); by destruct o|].
  intros [] c1 (Hc1&Hid1&Hl1). simpl in Hid1, Hl1. apply wp_bind.
  destruct (insert_new r c0 c1 s i randomLong Hs Hi Hfr Hc1 Hid1 Hl1) as (s2&E2&Hs2&Hr2&El2&Er2&Ei2).
  eapply wp_eq; [exact E2|]. apply wp_bind.
  eapply (wp_method r c1); [done|done|by apply safe_keeps, safe_open|].
  intros st c3 s3 Eo Hs3 Hr3 Hid3 Hl3 El3 Er3 Ei3.
  rewrite (open_status _ _ _ _ Eo) in *.
  assert (i ≠ 0 ∧ i ∉ shortConnectionIDs s) as [Hi0 Hin] by (destruct Hi; split; [lia|done]).
  unfold mrudp_failed. destruct (Z.eqb_spec native_open MRUDP_OK) as [->|Hfail]; cbn [negb].
  - apply wp_bind. eapply (wp_method r c3); [done|done|by apply safe_keeps, safe_initiate; eapply ki_conn|].
    intros [] c4 s4 _ Hs4 Hr4 Hid4 Hl4 El4 Er4 Ei4. wp_steps. split; [done|]. split; [done|].
    exists c4. assert (localID c4 = i) as -> by congruence.
    rewrite found_by_long_eq, found_by_short_eq by done.
    rewrite El4, El3, El2, Er4, Er3, Er2, !lookup_insert_eq. split_and!; [done|congruence|done..].
  - apply wp_bind. eapply wp_mono; [by apply (erase_inv s3 r c3)|].
    intros [] s4 (Hs4&El4&Er4&Ei4). wp_steps. split; [done|]. split_and!; [done| |].
    + rewrite found_by_long_eq by done. rewrite El4. replace (id c3) with randomLong by congruence.
      apply lookup_delete_eq.
    + rewrite Ei4, Ei3, Ei2. replace (localID c3) with i by congruence. set_solver.
Qed.

(** ** Receiving *)

(** What the outside may answer while a connection is generated. *)
Definition answers_ok (s : Socket) (an : Answers) : Prop :=
  in_u 16 (an_random an) ∧ (∃ j, free_id s j) ∧
  match an_openUser an with Some (o, _, _) => user_options_ok s o | None => True end.

Lemma getLookUp_longID packet : packet_wf packet → length (longID (getLookUp packet).2) = 16%nat.
Proof.
  intros Hp. unfold getLookUp. destruct (_ =? 0); [|done]. unfold sizeof_LongConnectionID.
  destruct (decide (16 ≤ p_dataSize packet)) as [Hle|Hgt]; [|by rewrite popData_none by lia].
  destruct (popData_some packet 16 Hp ltac:(lia)) as (p'&E&_). rewrite E. simpl.
  rewrite length_drop, payload_length by done. destruct Hp. lia.
Qed.

Lemma open_address status : respects (same (λ c, (remoteAddress c, options c))) (open status).
Proof. unfold open, pr_on, recalculateProbeTimeout, registerTimeout, emit. frame. Qed.

Lemma openUser_address o rh ch : respects (same remoteAddress) (openUser o rh ch).
Proof. unfold openUser. frame. by destruct o. Qed.

(** The handler's call of [mrudp_accept], if it made one. *)
Lemma accepted r c an (Q : unit → Socket → Prop) s :
  sock_inv s → store s !! r = Some c →
  match an_openUser an with
  | Some (Some o, _, _) => options_ok (merge o (options c)) ∧ uncompressed (merge o (options c))
  | _ => True
  end →
  (∀ c' s', sock_inv s' → store s' !! r = Some c' → remoteAddress c' = remoteAddress c →
     id c' = id c → localID c' = localID c → connections s' = connections s →
     receiveConnections s' = receiveConnections s → Q tt s') →
  wp (match an_openUser an with Some (o, rh, ch) => on_connection r (openUser o rh ch) | None => mret tt end) Q s.
Proof.
  intros Hs Hr Hu HQ. destruct (an_openUser an) as [[[o rh] ch]|]; [|apply wp_ret; by eapply HQ].
  eapply (wp_method r c); [done|done|apply openUser_keeps; [by eapply ki_conn|by destruct o]|].
  intros [] c' s' E Hs' Hr' ?? ?? _. apply (HQ c' s' Hs' Hr'); [|done..]. pose proof (openUser_address _ _ _ _ _ _ E) as Ha. unfold same in Ha. congruence.
Qed.

(** The stranger may have a connection, the native open works and the user accepts. *)
Definition admitted (s : Socket) (an : Answers) (l : LookUp) (packet : Packet) (from : Address) : bool :=
  negb (isFull s) && (h_type (p_header packet) =? Packet.H0) &&
  negb (LongConnectionID_eqb (longID l) NullLongConnectionID) && acceptHandler s &&
  negb (shouldAccept s && mrudp_failed (an_shouldAccept an from)) &&
  negb (mrudp_failed (an_open an)) && negb (mrudp_failed (an_accept an)).

(** The stranger's connection: it has its address and is found under the long id it chose. *)
Definition is_generated (l : LookUp) (from : Address) (r : Ref) (s' : Socket) : Prop :=
  ∃ c, store s' !! r = Some c ∧ remoteAddress c = from ∧ id c = longID l ∧
    connections s' !! longID l = Some r ∧ receiveConnections s' !! localID c = Some r.

Definition generated (may : bool) (l : LookUp) (from : Address) (res : option Ref) (s' : Socket) : Prop :=
  sock_inv s' ∧ match res with Some r => may = true ∧ is_generated l from r s' | None => may = false end.

Lemma generateConnection_wp an l packet from s :
  sock_inv s → answers_ok s an → length (longID l) = 16%nat →
  wp (generateConnection an l packet from) (generated (admitted s an l packet from) l from) s.
Proof.
  intros Hs (Hr&[j Hj]&Hu) Hl. unfold generateConnection.
  unfold admitted.
  assert (∀ s' b, sock_inv s' → b = false → wp (mret None) (generated b l from) s') as Hnone by (intros; by apply wp_ret).
  apply wp_bind, wp_mget. destruct (isFull s); [by apply Hnone|]. destruct (h_type _ =? _); [|by apply Hnone].
  destruct (LongConnectionID_eqb _ _); [by apply Hnone|]. destruct (acceptHandler s); [|by apply Hnone].
  destruct (shouldAccept s && _); [by apply Hnone|]. cbn [negb andb]. apply wp_bind.
  eapply wp_mono; [by eapply acquire_spec|]. intros i s1 [Hi ->]. wp_steps.
  unfold new_connection. wp_steps. set (s1 := set_ids _ s). set (r := fresh (dom (store s1))).
  set (c0 := Connection_init _ _ _ _ _).
  assert (conn_inv c0) as Hc0 by (apply Connection_init_inv; [done|apply Hs..]).
  assert (r ∉ dom (store s)) as Hfr by (apply (is_fresh (dom (store s1)))).
  destruct (insert_new r c0 c0 s i (longID l) Hs Hi Hfr Hc0 eq_refl eq_refl) as (s2&E2&Hs2&Hr2&El2&Er2&Ei2).
  rewrite insert_insert_eq in E2. eapply wp_eq; [exact E2|]. apply wp_bind.
  eapply (wp_method r c0); [done|done|by apply safe_keeps, safe_open|].
  intros st c3 s3 Eo Hs3 Hr3 Hid3 Hl3 El3 Er3 Ei3.
  pose proof (open_address _ _ _ _ Eo) as Ha3. unfold same in Ha3. injection Ha3 as Ha3 Ho3.
  rewrite (open_status _ _ _ _ Eo) in *. destruct (mrudp_failed (an_open an)).
  { apply wp_bind. eapply wp_mono; [by apply (erase_inv s3 r c3)|]. intros [] s4 (Hs4&_). by apply Hnone. }
  apply wp_bind. apply (accepted r c3); [done|done| |].
  { destruct (an_openUser an) as [[[[o|] ?] ?]|]; [|done..]. unfold user_options_ok in Hu. by rewrite Ho3. }
  intros c4 s4 Hs4 Hr4 Ha4 Hid4 Hl4 El4 Er4. destruct (mrudp_failed _).
  - apply wp_bind. eapply (wp_method r c4); [done|done|by apply safe_keeps, safe_close_event; eapply ki_conn|].
    intros. by apply Hnone.
  - assert (remoteAddress c0 = from ∧ id c0 = longID l ∧ localID c0 = i) as (?&?&?) by done.
    apply wp_ret. split; [done|]. split; [done|]. exists c4. assert (localID c4 = i) as -> by congruence.
    rewrite El4, El3, El2, Er4, Er3, Er2, !lookup_insert_eq. split_and!; [done|congruence|congruence|done..].
Qed.

Lemma findConnection_stored l s r :
  sock_inv s → findConnection l s = Some r → ∃ c, store s !! r = Some c.
Proof.
  intros Hs. unfold findConnection. destruct (negb _); [|destruct (negb _); [|done]]; intros Hf.
  - destruct (ki_long _ Hs _ _ Hf) as (c&?&_). by exists c.
  - destruct (ki_short _ Hs _ _ Hf) as (_&c&?&_). by exists c.
Qed.

Lemma clock_receive_keeps now packet from c :
  conn_inv c → data_packet_ok packet → h3_ok packet → challenge_ok from c →
  wp (modify (set_clock now);; receive packet from)
    (λ _ c', conn_inv c' ∧ id c' = id c ∧ localID c' = localID c) c.
Proof.
  intros Hc Hp Hh3 Hch. apply wp_bind, wp_modify.
  assert (conn_inv (set_clock now c)) as Hc1 by (split; simpl; apply Hc).
  apply (safe_keeps (receive packet from) (set_clock now c) Hc1). by apply safe_receive.
Qed.

(** Only the connection a method runs on changes. *)
Definition only_changes (r : Ref) (s s' : Socket) : Prop :=
  connections s' = connections s ∧ receiveConnections s' = receiveConnections s ∧
  shortConnectionIDs s' = shortConnectionIDs s ∧ ∀ q, q ≠ r → store s' !! q = store s !! q.

Lemma sk_receive_wp an packet from s :
  let '(p, l) := getLookUp packet in
  sock_inv s → packet_wf packet → answers_ok s an → data_packet_ok p → h3_ok p →
  Z.of_nat (length from) = sizeof_Address →
  (∀ r c, findConnection l s = Some r → store s !! r = Some c → challenge_ok from c) →
  wp (sk_receive an packet from) (λ _ s', sock_inv s' ∧
    match findConnection l s with
    | Some r => only_changes r s s'
    | None => admitted s an l p from = true → ∃ r, is_generated l from r s'
    end) s.
Proof.
  unfold sk_receive. destruct (getLookUp packet) as [p l] eqn:El. intros Hs Hwf Han Hp Hh3 Hfrom Hch.
  pose proof (getLookUp_longID packet Hwf) as Hlen. rewrite El in Hlen. simpl in Hlen.
  apply wp_bind. unfold findOrGenerateConnection. apply wp_bind, wp_mget.
  destruct (findConnection l s) as [r|] eqn:Ef.
  - apply wp_ret. destruct (findConnection_stored _ _ _ Hs Ef) as [c Hr].
    apply (wp_on_connection r c); [done|].
    eapply wp_mono; [apply clock_receive_keeps; [by eapply ki_conn|done|done|by eapply Hch]|].
    intros [] c' (Hc'&?&?). split; [by eapply store_inv|]. split_and!; [done..|].
    intros q Hq. simpl. by rewrite lookup_insert_ne.
  - eapply wp_mono; [by apply generateConnection_wp|].
    intros [r|] s1 [Hs1 Hg]; [|apply wp_ret; by rewrite Hg]. destruct Hg as [Hm (c&Hr&Ha&Hid&Hc&Hrc)].
    eapply (wp_method r c); [done|done| |].
    { apply clock_receive_keeps; [by eapply ki_conn|done|done|]. split; [done|by left]. }
    intros [] c' s' E Hs' Hr' Hid' Hl' El' Er' _. split; [done|]. intros _. exists r, c'.
    rewrite El', Er', Hl'. split_and!; [done| |congruence|done..].
    destruct (receive_address _ _ _ _ E) as [Hra|(_&Ht&_)]; [by rewrite Hra|].
    unfold admitted in Hm. rewrite Ht in Hm. by rewrite andb_false_r in Hm.
Qed.
End creation.

(** ** Claims *)

(** C31: short connection ids. As long as some id is free, whatever the random starting point,
    the search ends with an id that is not 0, fits 16 bits and was not in use, and reserves it;
    but when all 65535 ids are in use, which [Socket::connect] does not check, the search goes
    round for ever: it does not end within any number of rounds. *)
Theorem acquireShortConnectionID_fresh (s : Socket) (random : Z) :
  in_u 16 random →
  ((∃ j, free_id s j) →
   ∃ i, acquireShortConnectionID random s = Some (i, set_ids ({[i]} ∪ shortConnectionIDs s) s) ∧
     0 < i < 2 ^ 16 ∧ i ∉ shortConnectionIDs s) ∧
  ((∀ j, 0 < j < 2 ^ 16 → j ∈ shortConnectionIDs s) → ∀ fuel, acquire_loop fuel random s = None).
Proof.
  intros Hr. split.
  - intros [j Hj]. pose proof (acquire_spec random j s Hr Hj) as Hw.
    apply wp_some in Hw as (i&s'&E&[??]&->). eauto.
  - intros Hf fuel. by apply acquire_loop_full.
Qed.

Lemma acquireShortConnectionID_fresh_witness :
  let s := set_ids {[ 65535 ]} (Socket_init getDefaultConnectionOptions) in
  ((∃ j, free_id s j) →
   ∃ i, acquireShortConnectionID 65535 s = Some (i, set_ids ({[i]} ∪ shortConnectionIDs s) s) ∧
     0 < i < 2 ^ 16 ∧ i ∉ shortConnectionIDs s) ∧
  ((∀ j, 0 < j < 2 ^ 16 → j ∈ shortConnectionIDs s) → ∀ fuel, acquire_loop fuel 65535 s = None).
Proof. intros s. apply acquireShortConnectionID_fresh. split; reflexivity || discriminate. Defined.

(** C30: connecting. For a well-formed socket with a free short id, [Socket::connect] is defined
    and keeps the socket well-formed. If the native open succeeds, the new connection is found
    under its long id and under its own, previously unused, short id; if it fails, nothing is
    left of the connection in the look-ups and its short id is free again. *)
Theorem connect_correct `{!Zlib} (s : Socket) randomLong random j native_open now remote o rh ch :
  sock_inv s → in_u 16 random → free_id s j → length randomLong = 16%nat →
  randomLong ≠ NullLongConnectionID → user_options_ok s o →
  ∃ res s', connect randomLong random native_open now remote o rh ch s = Some (res, s') ∧
    sock_inv s' ∧
    match res with
    | Some r => native_open = MRUDP_OK ∧ ∃ c, store s' !! r = Some c ∧ id c = randomLong ∧
        free_id s (localID c) ∧ found_by_long s' randomLong = Some r ∧
        found_by_short s' (localID c) = Some r
    | None => native_open ≠ MRUDP_OK ∧ found_by_long s' randomLong = None ∧
        shortConnectionIDs s' = shortConnectionIDs s
    end.
Proof.
  intros Hs Hr Hj Hl Hn Ho.
  pose proof (connect_wp randomLong random j native_open now remote o rh ch s Hs Hr Hj Hl Hn Ho) as Hw.
  apply wp_some in Hw as (res&s'&?&?&?). eauto.
Qed.

#[local] Existing Instance Zlib_stored.
#[local] Existing Instance ZlibLaws_stored.

Lemma connect_correct_witness :
  ∃ res s', connect (replicate 16 Byte.x09) 77 MRUDP_OK 5 (replicate 28 Byte.x01) None true true
      (Socket_init getDefaultConnectionOptions) = Some (res, s') ∧
    sock_inv s' ∧
    match res with
    | Some r => MRUDP_OK = MRUDP_OK ∧ ∃ c, store s' !! r = Some c ∧ id c = replicate 16 Byte.x09 ∧
        free_id (Socket_init getDefaultConnectionOptions) (localID c) ∧
        found_by_long s' (replicate 16 Byte.x09) = Some r ∧ found_by_short s' (localID c) = Some r
    | None => MRUDP_OK ≠ MRUDP_OK ∧ found_by_long s' (replicate 16 Byte.x09) = None ∧
        shortConnectionIDs s' = shortConnectionIDs (Socket_init getDefaultConnectionOptions)
    end.
Proof.
  apply (connect_correct (Socket_init getDefaultConnectionOptions) (replicate 16 Byte.x09) 77 1).
  - apply Socket_init_inv; [split; simpl; lia|split; discriminate].
  - split; reflexivity || discriminate.
  - split; [split; reflexivity|set_solver].
  - reflexivity.
  - discriminate.
  - exact I.
Defined.

(** Who gets a connection. A packet for a known connection never creates one. For any other
    packet the socket stays as it is, unless the packet is an [H0] with a non-zero long id, the
    user listens, [shouldAccept] (if set) agrees and the id space is not at its limit. *)
Lemma generateConnection_guard `{!Zlib} (s : Socket) (an : Answers) (l : LookUp) packet from :
  (∀ r, findConnection l s = Some r →
     findOrGenerateConnection an l packet from s = Some (Some r, s)) ∧
  (findConnection l s = None →
   isFull s = true ∨ h_type (p_header packet) ≠ Packet.H0 ∨
   longID l = NullLongConnectionID ∨ acceptHandler s = false ∨
   (shouldAccept s = true ∧ an_shouldAccept an from ≠ MRUDP_OK) →
   findOrGenerateConnection an l packet from s = Some (None, s)).
Proof.
  unfold findOrGenerateConnection, generateConnection. unfold mbind, M_bind, mget.
  split; [intros r ->; done|]. intros -> Hg.
  destruct (isFull s); [done|]. destruct (Z.eqb_spec (h_type (p_header packet)) Packet.H0); [|done].
  destruct (LongConnectionID_eqb _ _) eqn:E; [done|]. destruct (acceptHandler s); [|done].
  destruct Hg as [?|[?|[Hn|[?|[Hsa Hc]]]]]; [done|done| |done|].
  - rewrite Hn in E. done.
  - rewrite Hsa. unfold mrudp_failed. by rewrite (proj2 (Z.eqb_neq _ _)).
Qed.

(** C32: receiving. For a well-formed socket with a free short id, [Socket::receive] is defined
    for every packet whose frames the receiver can take and keeps the socket well-formed. A
    packet of a known connection changes that connection only, and neither the look-ups nor the
    ids in use. A first packet that is admitted, with a native open that works and a user who
    accepts, leaves a connection that has the sender's address and the long id it chose, and is
    found under that id and under its own short id. *)
Theorem socket_receive_correct `{!Zlib} (s : Socket) (an : Answers) packet from :
  let '(p, l) := getLookUp packet in
  sock_inv s → packet_wf packet → answers_ok s an → data_packet_ok p → h3_ok p →
  Z.of_nat (length from) = sizeof_Address →
  (∀ r c, findConnection l s = Some r → store s !! r = Some c → challenge_ok from c) →
  ∃ s', sk_receive an packet from s = Some (tt, s') ∧ sock_inv s' ∧
    match findConnection l s with
    | Some r => only_changes r s s'
    | None => admitted s an l p from = true → ∃ r, is_generated l from r s'
    end.
Proof.
  pose proof (sk_receive_wp an packet from s) as Hw. destruct (getLookUp packet) as [p l].
  intros Hs Hwf Han Hp Hh3 Hfrom Hch. specialize (Hw Hs Hwf Han Hp Hh3 Hfrom Hch).
  apply wp_some in Hw as ([]&s'&?&?&?). eauto.
Qed.

(** A listening socket with default options, and a first packet for it. *)
Definition example_listener : Socket := set_handlers true false true false 0 (Socket_init getDefaultConnectionOptions).
Definition example_answers : Answers := mkAnswers (λ _, MRUDP_OK) 77 MRUDP_OK 1000000000 MRUDP_OK (Some (None, true, true)).
Definition example_H0 : Packet :=
  match pushData (set_type new_Packet Packet.H0) (le_encode 2 5 ++ replicate 16 Byte.x09) with
  | Some (p, _) => p
  | None => new_Packet
  end.

Definition example_lookup : LookUp := mkLookUp 0 (replicate 16 Byte.x09).
Definition example_from : Address := replicate 28 Byte.x01.

Lemma example_lookup_eq :
  getLookUp example_H0 = (mkPacket (p_header example_H0) (p_data example_H0) 2, example_lookup) ∧
  findConnection example_lookup example_listener = None ∧
  p_header example_H0 = mkHeader MRUDP_VERSION 0 Packet.H0 0 ∧
  length (p_data example_H0) = 1500%nat ∧ p_dataSize example_H0 = 18.
Proof. split_and!; vm_compute; reflexivity. Qed.

Lemma example_listener_inv : sock_inv example_listener.
Proof.
  destruct (Socket_init_inv getDefaultConnectionOptions); [split; simpl; lia|split; discriminate|].
  by split.
Qed.

Lemma socket_receive_correct_witness :
  ∃ s', sk_receive example_answers example_H0 example_from example_listener = Some (tt, s') ∧ sock_inv s' ∧
    ∃ r, is_generated example_lookup example_from r s'.
Proof.
  pose proof (socket_receive_correct example_listener example_answers example_H0 example_from) as Hc.
  destruct example_lookup_eq as (El&Ef&Eh&Ed&Es). rewrite El in Hc. cbv beta iota in Hc. rewrite Ef in Hc.
  destruct Hc as (s'&?&?&Hg).
  - apply example_listener_inv.
  - unfold packet_wf. rewrite Ed, Es. done.
  - split; [unfold in_u; simpl; lia|]. split; [|exact I].
    exists 1. split; [lia|]. apply (not_elem_of_empty (C := gset Z)).
  - unfold data_packet_ok, packet_wf. cbn [p_header p_data p_dataSize]. rewrite Eh, Ed. done.
  - unfold h3_ok. cbn [p_header]. rewrite Eh. done.
  - reflexivity.
  - done.
  - exists s'. split; [done|]. split; [done|]. apply Hg. unfold admitted. cbn [p_header]. rewrite Eh.
    vm_compute. reflexivity.
Defined.
