(* ===== verification/Facilities.v ===== *)
(** * Facilities of [base/]: [RealRandom] and [SimpleInPlaceArray], and where the library uses them

    The generator of the numbers, [std::mt19937], is a parameter: a state and a function that
    yields the next number. [DropPercentage], which alone uses [nextReal], is not built: with
    [MRUDP_ENABLE_DROP] the call of [std::abs] on a [uint64_t] is ill-formed. *)

From S2P Require Import Prelude MemCopy Packet ReceiveQueue Types SendQueue Compression Rtt State Invariant Socket.
From stdpp Require Import list.
#[local] Open Scope Z_scope.

(** ** [RealRandom] *)

Section random.
Context {Engine : Type} (engine : Engine → Z * Engine).

(** [(char)engine()] *)
Definition char_of (v : Z) : byte := default Byte.x00 (Byte.of_N (Z.to_N (wrap 8 v))).

(** [next<T>()]: the [sizeof(T)] bytes of the result, one number for each. *)
Fixpoint next (sizeof_T : nat) (e : Engine) : bytes * Engine :=
  match sizeof_T with
  | O => ([], e)
  | S n => let '(v, e) := engine e in let '(bs, e) := next n e in (char_of v :: bs, e)
  end.

(** [next<T>()] for an unsigned integer of [n] bytes, and for [int]. *)
Definition next_unsigned (n : nat) (e : Engine) : Z * Engine :=
  let '(bs, e) := next n e in (le_decode bs, e).
Definition next_int (e : Engine) : Z * Engine :=
  let '(v, e) := next_unsigned 4 e in (swrap 32 v, e).

Definition in_int (z : Z) : Prop := - 2 ^ 31 ≤ z < 2 ^ 31.
#[export] Instance in_int_dec z : Decision (in_int z).
Proof. unfold in_int. apply _. Defined.

(** [nextInt<int>]: [None] when a signed operation overflows, or the divisor is 0; there is no
    absolute value of the least [int]. *)
Definition nextInt (l r : Z) (e : Engine) : option (Z * Engine) :=
  let d := r - l + 1 in
  if negb (bool_decide (in_int (r - l)) && bool_decide (in_int d)) then None
  else
    let '(x, e) := next_int e in
    if x =? - 2 ^ 31 then None
    else if d =? 0 then None
    else
      let v := Z.rem (Z.abs x) d + l in
      if bool_decide (in_int v) then Some (v, e) else None.

(** [Socket::generateLongConnectionID], and the short id that [acquireShortConnectionID] starts from. *)
Definition generateLongConnectionID (e : Engine) : LongConnectionID * Engine := next 16 e.

Definition acquireShortConnectionID_random (e : Engine) : M Socket Z :=
  acquireShortConnectionID (fst (next_unsigned 2 e)).

Lemma next_length n e : length (fst (next n e)) = n.
Proof.
  revert e. induction n as [|n IH]; intros e; [done|]. simpl. destruct (engine e) as [v e1].
  specialize (IH e1). destruct (next n e1). simpl in *. by f_equal.
Qed.

Lemma next_unsigned_range n e : in_u (8 * Z.of_nat n) (fst (next_unsigned n e)).
Proof.
  unfold next_unsigned. pose proof (next_length n e) as Hl. destruct (next n e) as [bs e']. simpl in *.
  rewrite <-Hl. apply le_decode_range.
Qed.

Lemma generateLongConnectionID_length e : length (fst (generateLongConnectionID e)) = 16%nat.
Proof. apply next_length. Qed.

(** Whatever the generator yields, a free short id is found. *)
Lemma acquire_random_fresh e s j :
  free_id s j →
  wp (acquireShortConnectionID_random e)
    (λ i s', free_id s i ∧ s' = set_ids ({[i]} ∪ shortConnectionIDs s) s) s.
Proof. intros Hj. apply (acquire_spec _ j); [apply (next_unsigned_range 2)|done]. Qed.

(** A range that fits an [int]: the result is in it, unless the number drawn is the least [int]. *)
Lemma nextInt_range l r e :
  in_int l → in_int r → l ≤ r → r - l + 1 < 2 ^ 31 →
  match nextInt l r e with
  | Some (v, e') => l ≤ v ≤ r ∧ e' = snd (next_int e)
  | None => fst (next_int e) = - 2 ^ 31
  end.
Proof.
  unfold nextInt. intros Hl Hr Hlr Hd. unfold in_int in Hl, Hr.
  rewrite !bool_decide_eq_true_2 by (unfold in_int; lia). simpl. destruct (next_int e) as [x e'].
  destruct (Z.eqb_spec x (- 2 ^ 31)) as [->|_]; [done|]. destruct (Z.eqb_spec (r - l + 1) 0); [lia|].
  assert (0 ≤ Z.rem (Z.abs x) (r - l + 1) < r - l + 1) as Hm by (apply Z.rem_bound_pos; lia).
  rewrite bool_decide_eq_true_2 by (unfold in_int; lia). split; [lia|done].
Qed.
End random.

(** ** [SimpleInPlaceArray<T, N>] *)

Section in_place.
Context {T : Type} (N : nat) (T_default : T).

Record SimpleInPlaceArray := mkInPlace { ip_size : nat; ip_array : list T }.

(** The constructor: more than [N] elements do not compile; the others are value-initialised. *)
Definition ip_init (list : list T) : option SimpleInPlaceArray :=
  if decide (length list ≤ N)%nat then Some (mkInPlace (length list) (list ++ replicate (N - length list) T_default))
  else None.

(** From [begin()] to [end()]. *)
Definition ip_range (a : SimpleInPlaceArray) : list T := take (ip_size a) (ip_array a).
Definition ip_front (a : SimpleInPlaceArray) : option T := ip_array a !! O.

(** [empty] asks the array of [N] elements, not [size_]. *)
Definition ip_empty (a : SimpleInPlaceArray) : bool := bool_decide (N = 0%nat).

(** Behind the end of the array the behaviour is undefined. *)
Definition ip_push_back (t : T) (a : SimpleInPlaceArray) : option SimpleInPlaceArray :=
  if decide (ip_size a < N)%nat then Some (mkInPlace (S (ip_size a)) (<[ip_size a := t]> (ip_array a))) else None.

Fixpoint ip_pushes (ts : list T) (a : SimpleInPlaceArray) : option SimpleInPlaceArray :=
  match ts with [] => Some a | t :: ts => a ← ip_push_back t a; ip_pushes ts a end.

Record ip_wf (a : SimpleInPlaceArray) (l : list T) : Prop := {
  iw_length : length (ip_array a) = N;
  iw_size : ip_size a = length l ∧ (length l ≤ N)%nat;
  iw_range : ip_range a = l;
}.

Lemma ip_init_wf l : (length l ≤ N)%nat → ∃ a, ip_init l = Some a ∧ ip_wf a l.
Proof.
  intros Hl. unfold ip_init. rewrite decide_True by done. eexists. split; [done|]. split; simpl.
  - rewrite length_app, length_replicate. lia.
  - done.
  - unfold ip_range. simpl. by rewrite take_app_length.
Qed.

Lemma ip_push_back_wf t a l :
  ip_wf a l → (length l < N)%nat → ∃ a', ip_push_back t a = Some a' ∧ ip_wf a' (l ++ [t]).
Proof.
  intros [Hn [Hs Hle] Hr] Hl. unfold ip_push_back. rewrite decide_True by lia. eexists. split; [done|].
  unfold ip_range in *. split; simpl; [by rewrite length_insert|rewrite length_app; simpl; lia|].
  unfold ip_range. simpl. rewrite <-Hr. rewrite (take_S_r _ _ t) by (apply list_lookup_insert_eq; lia).
  by rewrite take_insert_ge by lia.
Qed.

(** The array is the list of what was put into it, as long as it fits; the paths of a packet, at
    most two, do. *)
Lemma in_place_array_is_list init ts :
  (length (init ++ ts) ≤ N)%nat →
  ∃ a, (a ← ip_init init; ip_pushes ts a) = Some a ∧ ip_range a = init ++ ts ∧
    (init ++ ts ≠ [] → ip_front a = head (init ++ ts)).
Proof.
  intros Hl. rewrite length_app in Hl. destruct (ip_init_wf init) as (a&E&Ha); [lia|]. rewrite E. simpl. clear E.
  assert (∃ a', ip_pushes ts a = Some a' ∧ ip_wf a' (init ++ ts)) as (a'&E&[Hn Hs Hr]).
  { clear -Hl Ha. revert init a Ha Hl. induction ts as [|t ts IH]; intros init a Ha Hl; simpl in *.
    { exists a. by rewrite app_nil_r. }
    destruct (ip_push_back_wf t a init Ha) as (a1&->&H1); [lia|]. simpl.
    destruct (IH (init ++ [t]) a1 H1) as (a2&->&H2); [rewrite length_app; simpl; lia|]. exists a2. by rewrite <-app_assoc in H2. }
  exists a'. split; [done|]. split; [done|]. intros Hne. unfold ip_front. rewrite <-Hr. unfold ip_range.
  destruct (init ++ ts) as [|x l]; [done|]. destruct Hs as [-> _]. by destruct (ip_array a').
Qed.
End in_place.

(** [empty()] of the paths of a packet is false whatever they are. *)
Example in_place_empty : ip_empty (T:=Z) 2 (mkInPlace 0 [0; 0]) = false.
Proof. reflexivity. Qed.

(** [nextInt(1, 6)] when the generator's numbers end in the bytes of the least [int]. *)
Example nextInt_least :
  nextInt (λ e : list Z, (default 0 (head e), tail e)) 1 6 [0; 0; 0; 128] = None ∧
  fst <$> nextInt (λ e : list Z, (default 0 (head e), tail e)) 1 6 [7; 0; 0; 0] = Some 2.
Proof. split; reflexivity. Qed.
