(* ===== verification/Api.v ===== *)
(** * The C interface: [mrudp.cpp] and the handles

    A handle is a pointer to a heap cell that holds a [StrongPtr]. [toNative] reads the cell,
    [closeHandle] takes its content out and leaves a null pointer, [deleteHandle] frees it; to
    touch a freed cell is undefined. Every call of the interface resolves its handle first.

    The services behind the calls (clock, random numbers, the system's sockets) are arguments of
    the calls that use them; the native operations themselves are recorded in [natives]. *)

From S2P Require Import Prelude MemCopy Packet ReceiveQueue Types SendQueue Compression Float32 Rtt State Retrier Transmit Invariant Sender Connection Closing Lifecycle Socket.

(** ** Handles *)

Abbreviation SocketRef := positive.
Abbreviation ConnectionRef := (SocketRef * Ref)%type.   (* a connection keeps its socket alive *)

(** The null handle is [None]. *)
Abbreviation Handle := (option positive).

(** The heap cells behind the handles of one kind. *)
Abbreviation Cells X := (gmap positive (option X)).

(** The operations on handles are the same for connections, sockets and services. *)
Section handles.
Context {X : Type}.
Definition newHandle (x : X) (cells : Cells X) : Handle * Cells X :=
  let h := fresh (dom cells) in (Some h, <[h := Some x]> cells).

(** The outer [None] is a use of a freed cell. *)
Definition toNative (h : Handle) (cells : Cells X) : option (option X) :=
  match h with None => Some None | Some h => cells !! h end.

Definition closeHandle (h : Handle) (cells : Cells X) : option (option X * Cells X) :=
  match h with
  | None => Some (None, cells)
  | Some h => x ← cells !! h; Some (x, <[h := None]> cells)
  end.

Definition deleteHandle (h : Handle) (cells : Cells X) : option (Cells X) :=
  match h with
  | None => Some cells
  | Some h => _ ← cells !! h; Some (delete h cells)
  end.
End handles.

(** ** The world behind the interface *)

Inductive Native := NativeClose (s : SocketRef) | NativeRelocate (s : SocketRef) (a : Address).

Record World := mkWorld {
  sockets : gmap SocketRef Socket;
  socket_handles : Cells SocketRef;
  connection_handles : Cells ConnectionRef;
  service_handles : Cells ConnectionOptions;   (* a service: the options it was started with *)
  natives : list Native;
}.

Definition World_init : World := mkWorld ∅ ∅ ∅ ∅ [].

Definition set_sockets (x : gmap SocketRef Socket) (w : World) : World :=
  mkWorld x (socket_handles w) (connection_handles w) (service_handles w) (natives w).
Definition set_socket_handles (x : Cells SocketRef) (w : World) : World :=
  mkWorld (sockets w) x (connection_handles w) (service_handles w) (natives w).
Definition set_connection_handles (x : Cells ConnectionRef) (w : World) : World :=
  mkWorld (sockets w) (socket_handles w) x (service_handles w) (natives w).
Definition set_service_handles (x : Cells ConnectionOptions) (w : World) : World :=
  mkWorld (sockets w) (socket_handles w) (connection_handles w) x (natives w).
Definition native (n : Native) : M World unit :=
  modify (λ w, mkWorld (sockets w) (socket_handles w) (connection_handles w) (service_handles w) (natives w ++ [n])).

(** Call a method of a socket, or of a connection of it. *)
Definition on_socket {A} (s : SocketRef) (m : M Socket A) : M World A := λ w,
  k ← sockets w !! s;
  '(a, k') ← m k;
  Some (a, set_sockets (<[s := k']> (sockets w)) w).

Definition on_conn {A} (c : ConnectionRef) (m : C A) : M World A := on_socket c.1 (on_connection c.2 m).

(** The cell operations on the world's cells. *)
Definition new_socket_handle (s : SocketRef) : M World Handle := λ w,
  let '(h, cells) := newHandle s (socket_handles w) in Some (h, set_socket_handles cells w).
Definition new_connection_handle (c : ConnectionRef) : M World Handle := λ w,
  let '(h, cells) := newHandle c (connection_handles w) in Some (h, set_connection_handles cells w).
Definition new_service_handle (o : ConnectionOptions) : M World Handle := λ w,
  let '(h, cells) := newHandle o (service_handles w) in Some (h, set_service_handles cells w).

Definition the_socket (h : Handle) : M World (option SocketRef) := λ w,
  x ← toNative h (socket_handles w); Some (x, w).
Definition the_connection (h : Handle) : M World (option ConnectionRef) := λ w,
  x ← toNative h (connection_handles w); Some (x, w).
Definition the_service (h : Handle) : M World (option ConnectionOptions) := λ w,
  x ← toNative h (service_handles w); Some (x, w).

Definition close_socket_handle (h : Handle) : M World (option SocketRef) := λ w,
  '(x, cells) ← closeHandle h (socket_handles w); Some (x, set_socket_handles cells w).
Definition close_connection_handle (h : Handle) : M World (option ConnectionRef) := λ w,
  '(x, cells) ← closeHandle h (connection_handles w); Some (x, set_connection_handles cells w).
Definition close_service_handle (h : Handle) : M World (option ConnectionOptions) := λ w,
  '(x, cells) ← closeHandle h (service_handles w); Some (x, set_service_handles cells w).

Definition delete_socket_handle (h : Handle) : M World unit := λ w,
  cells ← deleteHandle h (socket_handles w); Some (tt, set_socket_handles cells w).
Definition delete_connection_handle (h : Handle) : M World unit := λ w,
  cells ← deleteHandle h (connection_handles w); Some (tt, set_connection_handles cells w).
Definition delete_service_handle (h : Handle) : M World unit := λ w,
  cells ← deleteHandle h (service_handles w); Some (tt, set_service_handles cells w).

(** Resolve a handle or return [e]. *)
Definition with_socket {A} (h : Handle) (e : A) (f : SocketRef → M World A) : M World A :=
  x ← the_socket h; match x with None => mret e | Some s => f s end.
Definition with_connection {A} (h : Handle) (e : A) (f : ConnectionRef → M World A) : M World A :=
  x ← the_connection h; match x with None => mret e | Some c => f c end.

Section interface.
Context `{!Zlib}.

(** ** Services and sockets *)

Definition mrudp_service_ex (o : ConnectionOptions) : M World Handle := new_service_handle o.
Definition mrudp_service : M World Handle := mrudp_service_ex getDefaultConnectionOptions.

(** The wait for the destruction of the service is not part of the model. *)
Definition mrudp_close_service (h : Handle) : M World unit :=
  x ← close_service_handle h;
  match x with
  | None => mret tt
  | Some _ => delete_service_handle h
  end.

(** A null service is dereferenced by the socket. *)
Definition mrudp_socket (service : Handle) (address : Address) : M World Handle :=
  x ← the_service service;
  match x with
  | None => ub
  | Some o =>
    w ← mget;
    let s := fresh (dom (sockets w)) in
    modify (set_sockets (<[s := Socket_init o]> (sockets w)));;
    new_socket_handle s
  end.

Definition mrudp_listen (h : Handle) (shouldAcceptCallback acceptCallback closeCallback : bool) : M World Z :=
  with_socket h MRUDP_ERROR_GENERAL_FAILURE (λ s,
    on_socket s (listen shouldAcceptCallback acceptCallback closeCallback);; mret MRUDP_OK).

Definition mrudp_socket_addr (h : Handle) (local : SocketRef → Address) : M World (Z * option Address) :=
  with_socket h (MRUDP_ERROR_GENERAL_FAILURE, None) (λ s, mret (MRUDP_OK, Some (local s))).

Definition mrudp_relocate_socket (h : Handle) (a : Address) : M World Z :=
  with_socket h MRUDP_ERROR_GENERAL_FAILURE (λ s, native (NativeRelocate s a);; mret MRUDP_OK).

Definition mrudp_close_socket_native (h : Handle) : M World Z :=
  with_socket h MRUDP_ERROR_GENERAL_FAILURE (λ s, native (NativeClose s);; mret MRUDP_OK).

Definition mrudp_close_socket (h : Handle) : M World Z :=
  x ← close_socket_handle h;
  match x with
  | None => mret MRUDP_ERROR_GENERAL_FAILURE
  | Some s => on_socket s sk_close;; delete_socket_handle h;; mret MRUDP_OK
  end.

(** ** Connections *)

(** The random ids, the code of the native open and the time are answers of the system. *)
Definition mrudp_connect_ex (h : Handle) (randomLong : bytes) (random native_open now : Z) (remote : Address)
    (o : option ConnectionOptions) (rh ch : bool) : M World Handle :=
  with_socket h None (λ s,
    c ← on_socket s (connect randomLong random native_open now remote o rh ch);
    match c with
    | None => mret None
    | Some r => new_connection_handle (s, r)
    end).

Definition mrudp_connect (h : Handle) (randomLong : bytes) (random native_open now : Z) (remote : Address)
    (rh ch : bool) : M World Handle :=
  mrudp_connect_ex h randomLong random native_open now remote None rh ch.

Definition mrudp_accept_ex (h : Handle) (o : option ConnectionOptions) (rh ch : bool) : M World Z :=
  with_connection h MRUDP_ERROR_GENERAL_FAILURE (λ c, on_conn c (openUser o rh ch);; mret MRUDP_OK).

Definition mrudp_accept (h : Handle) (rh ch : bool) : M World Z := mrudp_accept_ex h None rh ch.

Definition mrudp_close_connection (h : Handle) : M World Z :=
  x ← close_connection_handle h;
  match x with
  | None => mret MRUDP_ERROR_GENERAL_FAILURE
  | Some c =>
    on_conn c (Connection.close;; closeUser MRUDP_EVENT_CLOSED);;
    delete_connection_handle h;;
    mret MRUDP_OK
  end.

Definition mrudp_close_connection_socket_native (h : Handle) : M World Z :=
  with_connection h MRUDP_ERROR_GENERAL_FAILURE (λ c,
    mrudp_close_connection h;; native (NativeClose c.1);; mret MRUDP_OK).

Definition mrudp_connection_remote_addr (h : Handle) : M World (Z * option Address) :=
  with_connection h (MRUDP_ERROR_GENERAL_FAILURE, None) (λ c,
    a ← on_conn c (gets remoteAddress); mret (MRUDP_OK, Some a)).

Definition mrudp_connection_statistics (h : Handle) : M World (Z * option Statistics) :=
  with_connection h (MRUDP_ERROR_GENERAL_FAILURE, None) (λ c,
    s ← on_conn c (gets statistics); mret (MRUDP_OK, Some s)).

(** [packets_awaiting_ack] *)
Definition mrudp_connection_state (h : Handle) : M World (Z * option Z) :=
  with_connection h (MRUDP_ERROR_GENERAL_FAILURE, None) (λ c,
    n ← on_conn c numUnacked; mret (MRUDP_OK, Some (u32 n))).

Definition mrudp_connection_options (h : Handle) : M World (Z * option ConnectionOptions) :=
  with_connection h (MRUDP_ERROR_GENERAL_FAILURE, None) (λ c,
    o ← on_conn c (gets options); mret (MRUDP_OK, Some o)).

Definition mrudp_connection_options_set (h : Handle) (o : ConnectionOptions) : M World Z :=
  with_connection h MRUDP_ERROR_GENERAL_FAILURE (λ c, on_conn c (modify (set_options o));; mret MRUDP_OK).

(** [data]: the [size] bytes at the pointer; a negative size is not part of the model. *)
Definition mrudp_send (h : Handle) (now : Z) (data : bytes) (reliable : Z) : M World Z :=
  with_connection h MRUDP_ERROR_GENERAL_FAILURE (λ c,
    on_conn c (modify (set_clock now);; send_data data (if reliable =? 0 then UNRELIABLE else RELIABLE))).
End interface.

(** ** Well-formed worlds *)

Record world_inv (w : World) : Prop := {
  wi_sockets : ∀ s k, sockets w !! s = Some k → sock_inv k;
  wi_connections : ∀ h s r, connection_handles w !! h = Some (Some (s, r)) →
    ∃ k c, sockets w !! s = Some k ∧ store k !! r = Some c;
  wi_handles : ∀ h s, socket_handles w !! h = Some (Some s) → is_Some (sockets w !! s);
}.

Section closing.
Context `{!Zlib}.

Lemma on_conn_run {A} s r k c (m : C A) a c' w :
  sockets w !! s = Some k → store k !! r = Some c → m c = Some (a, c') →
  on_conn (s, r) m w = Some (a, set_sockets (<[s := set_store (<[r := c']> (store k)) k]> (sockets w)) w).
Proof.
  intros Hs Hr Hm. unfold on_conn, on_socket, on_connection. simpl. rewrite Hs. simpl. rewrite Hr. simpl.
  by rewrite Hm.
Qed.

(** Updating a connection of a socket, and freeing a handle. *)
Lemma world_inv_update s k k' h w :
  world_inv w → sockets w !! s = Some k → sock_inv k' → dom (store k) ⊆ dom (store k') →
  world_inv (mkWorld (<[s := k']> (sockets w)) (socket_handles w) (delete h (connection_handles w))
               (service_handles w) (natives w)).
Proof.
  intros [H1 H2 H3] Hs Hk' Hdom. split; simpl.
  - intros t x [[<- <-]|[_ Hx]]%lookup_insert_Some; [done|by eapply H1].
  - intros g t r [_ Hg]%lookup_delete_Some. destruct (H2 _ _ _ Hg) as (x&c&Hx&Hc).
    destruct (decide (t = s)) as [->|Hne]; [|exists x, c; by rewrite lookup_insert_ne].
    rewrite Hs in Hx. injection Hx as <-. rewrite lookup_insert_eq. exists k'.
    assert (r ∈ dom (store k')) as [c' Hc']%elem_of_dom by (apply Hdom, elem_of_dom; eauto). eauto.
  - intros g t Hg. apply lookup_insert_is_Some'. right. by eapply H3.
Qed.

Lemma shut_stays c c' : evolves c c' → s_status (sender c) = SHUT → s_status (sender c') = SHUT.
Proof. intros He E. pose proof (ev_sender _ _ He) as Hr. rewrite E in Hr. by destruct (s_status (sender c')). Qed.

Lemma receiver_shut_stays c c' : evolves c c' → r_status (receiver c) = SHUT → r_status (receiver c') = SHUT.
Proof. intros He E. pose proof (ev_receiver _ _ He) as Hr. rewrite E in Hr. by destruct (r_status (receiver c')). Qed.

Lemma s_close_shuts c c' : s_close c = Some (tt, c') → s_status (sender c') = SHUT.
Proof.
  unfold s_close. intros (?&?&[= <- <-]&E)%bind_some. case_decide; [by injection E as <-|].
  by apply bind_some in E as ([]&c1&_&[= <-]).
Qed.

Lemma rc_close_shuts c c' : rc_close c = Some (tt, c') → r_status (receiver c') = SHUT.
Proof.
  unfold rc_close. intros (?&?&[= <- <-]&E)%bind_some. case_decide; [by injection E as <-|].
  by apply bind_some in E as ([]&c1&_&[= <-]).
Qed.

Lemma closeUser_disposes e c c' : closeUser e c = Some (tt, c') → userDataDisposed c' = true.
Proof.
  unfold closeUser. intros (?&?&[= <- <-]&E)%bind_some. destruct (userDataDisposed c) eqn:Hd; [by injection E as <-|].
  apply bind_some in E as ([]&c1&[= <-]&E). unfold when in E. by destruct (closeHandler c); injection E as <-.
Qed.

(** What closing by the user does to a connection. *)
Lemma user_close_wp c :
  conn_inv c →
  wp (Connection.close;; closeUser MRUDP_EVENT_CLOSED) (λ _ c', conn_inv c' ∧ evolves c c' ∧
    s_status (sender c') = SHUT ∧ r_status (receiver c') = SHUT ∧ userDataDisposed c' = true) c.
Proof.
  intros Hc. pose proof (safe_user_close c Hc) as Hs. apply wp_some in Hs as ([]&c'&E&Hc'&He).
  unfold wp. fold user_close. rewrite E. unfold user_close in E.
  apply bind_some in E as ([]&c1&Ec&Eu). apply bind_some in Ec as ([]&c2&Es&([]&c3&Er&Ep)%bind_some).
  assert (conn_inv c2) as Hc2.
  { pose proof (safe_s_close c Hc) as H2. unfold wp in H2. rewrite Es in H2. by destruct H2. }
  pose proof (safe_rc_close c2 Hc2) as H3. unfold wp in H3. rewrite Er in H3. destruct H3 as [Hc3 He3].
  pose proof (safe_possiblyClose c3 Hc3) as H1. unfold wp in H1. rewrite Ep in H1. destruct H1 as [Hc1 He1].
  pose proof (safe_closeUser MRUDP_EVENT_CLOSED c1 Hc1) as H4. unfold wp in H4. rewrite Eu in H4. destruct H4 as [_ He4].
  split_and!; [done|done| | |by eapply closeUser_disposes].
  - do 3 (eapply shut_stays; [eassumption|]). by eapply s_close_shuts.
  - do 2 (eapply receiver_shut_stays; [eassumption|]). by eapply rc_close_shuts.
Qed.
End closing.

(** ** Claims *)

(** C36: closing a connection through its handle. For a live handle of a well-formed world the
    call succeeds and keeps the world well-formed; the connection ends with sender and receiver
    closed and its user gone, told of the end at most once by the call; the handle, and no other,
    is freed: every later use of it, a second close included, is a use of freed memory, while closing a
    null handle is answered with an error and changes nothing. *)
Theorem close_connection_handle_once `{!Zlib} (w : World) h s r k c :
  world_inv w → connection_handles w !! h = Some (Some (s, r)) →
  sockets w !! s = Some k → store k !! r = Some c →
  (∃ w' k' c', mrudp_close_connection (Some h) w = Some (MRUDP_OK, w') ∧ world_inv w' ∧
    sockets w' !! s = Some k' ∧ store k' !! r = Some c' ∧
    s_status (sender c') = SHUT ∧ r_status (receiver c') = SHUT ∧ userDataDisposed c' = true ∧
    n_closed (events c') ≤ n_closed (events c) + 1 ∧
    connection_handles w' = delete h (connection_handles w) ∧
    mrudp_close_connection (Some h) w' = None ∧
    ∀ now data reliable, mrudp_send (Some h) now data reliable w' = None) ∧
  mrudp_close_connection None w = Some (MRUDP_ERROR_GENERAL_FAILURE, w).
Proof.
  intros Hw Hh Hs Hr. split; [|by destruct w].
  assert (sock_inv k) as Hk by (by eapply wi_sockets). assert (conn_inv c) as Hc by (by eapply ki_conn).
  pose proof (user_close_wp c Hc) as Hu. apply wp_some in Hu as ([]&c'&E&Hc'&He&Hss&Hrs&Hd).
  set (k' := set_store (<[r := c']> (store k)) k).
  set (w' := mkWorld (<[s := k']> (sockets w)) (socket_handles w) (delete h (connection_handles w))
               (service_handles w) (natives w)).
  assert (0 ≤ n_closed (events c') ≤ n_closed (events c) + 1) as Hn.
  { pose proof (ev_user _ _ He) as Hu. unfold n_closed in *. destruct (userDataDisposed c), (userDataDisposed c'); simpl in Hu; lia. }
  exists w', k', c'. split_and!; [| |apply lookup_insert_eq|apply lookup_insert_eq|done..|lia|done| |].
  - unfold mrudp_close_connection, close_connection_handle, closeHandle. unfold mbind at 1, M_bind at 1.
    rewrite Hh. cbn [mbind option_bind]. unfold mbind at 1, M_bind at 1.
    rewrite (on_conn_run s r k c _ tt c'); [|done..].
    unfold mbind, M_bind, delete_connection_handle, deleteHandle. simpl. rewrite lookup_insert_eq. simpl.
    unfold w', k'. by rewrite delete_insert_eq.
  - apply (world_inv_update s k); [done|done| |simpl; set_solver].
    destruct (ev_id _ _ He). by apply (store_inv r c).
  - unfold mrudp_close_connection, close_connection_handle, closeHandle, mbind, M_bind. simpl.
    by rewrite lookup_delete_eq.
  - intros. unfold mrudp_send, with_connection, the_connection, toNative, mbind, M_bind. simpl.
    by rewrite lookup_delete_eq.
Qed.

(** A world with one socket, one connection and a handle to it. *)
Definition example_socket : Socket :=
  set_store {[ 1%nat := example_connection ]} (Socket_init getDefaultConnectionOptions).
Definition example_world : World :=
  mkWorld {[ 1%positive := example_socket ]} ∅ {[ 7%positive := Some (1%positive, 1%nat) ]} ∅ [].

Lemma example_world_inv : world_inv example_world.
Proof.
  split; simpl.
  - intros s k [<- <-]%lookup_singleton_Some. split; simpl.
    + intros r c [<- <-]%lookup_singleton_Some. apply example_connection_inv.
    + intros l r E. by rewrite lookup_empty in E.
    + intros i r E. by rewrite lookup_empty in E.
    + set_solver.
    + split; [split; simpl; lia|split; discriminate].
  - intros h s r [<- [= <- <-]]%lookup_singleton_Some. exists example_socket, example_connection. done.
  - intros h s E. by rewrite lookup_empty in E.
Qed.

#[local] Existing Instance Zlib_stored.
#[local] Existing Instance ZlibLaws_stored.

Lemma close_connection_handle_once_witness :
  (∃ w' k' c', mrudp_close_connection (Some 7%positive) example_world = Some (MRUDP_OK, w') ∧ world_inv w' ∧
    sockets w' !! 1%positive = Some k' ∧ store k' !! 1%nat = Some c' ∧
    s_status (sender c') = SHUT ∧ r_status (receiver c') = SHUT ∧ userDataDisposed c' = true ∧
    n_closed (events c') ≤ n_closed (events example_connection) + 1 ∧
    connection_handles w' = delete 7%positive (connection_handles example_world) ∧
    mrudp_close_connection (Some 7%positive) w' = None ∧
    ∀ now data reliable, mrudp_send (Some 7%positive) now data reliable w' = None) ∧
  mrudp_close_connection None example_world = Some (MRUDP_ERROR_GENERAL_FAILURE, example_world).
Proof.
  apply (close_connection_handle_once example_world 7 1 1 example_socket example_connection).
  - apply example_world_inv.
  - reflexivity.
  - reflexivity.
  - reflexivity.
Defined.

(** Run: a service, a socket, a connection, a send, a close. *)
Example interface_run :
  match (service ← mrudp_service;
         socket ← mrudp_socket service (replicate 28 Byte.x01);
         connection ← mrudp_connect socket (replicate 16 Byte.x05) 1 MRUDP_OK 1000000000 (replicate 28 Byte.x02) true true;
         sent ← mrudp_send connection 1000000000 [Byte.x61] 1;
         state ← mrudp_connection_state connection;
         closed ← mrudp_close_connection connection;
         mret (sent, state, closed)) World_init with
  | Some (res, _) => res = (MRUDP_OK, (MRUDP_OK, Some 1), MRUDP_OK)
  | None => False
  end.
Proof. by vm_compute. Qed.
