(* ===== verification/SocketLife.v ===== *)
(** * The life of a socket and its connections

    [Lifecycle.v] is about one connection that packets, timers and calls of the user reach one at a
    time, and [Socket.v] about the operations of a socket one by one. Here the socket is a state
    machine: packets from the network, calls of the user, and the timers of its connections. Its
    connections then live the lives of [Lifecycle.v], so that what is proved there holds for every
    connection of a program. *)

From S2P Require Import Prelude MemCopy Packet ReceiveQueue Types Asio Datagram SendQueue Compression Float32 Rtt State Retrier Transmit Invariant Sender Connection Closing Wire NetworkPath Lifecycle Socket.
#[local] Open Scope Z_scope.

(** The search for an id has fuel for 2^16 rounds: it is not to be computed. *)
#[local] Strategy 1000 [acquireShortConnectionID acquire_loop connect sk_receive].

Inductive SockInput :=
  | FromNetwork (an : Answers) (packet : Packet) (from : Address)
  | UserConnect (randomLong : list byte) (random native_open : Z) (remote : Address)
      (o : option ConnectionOptions) (rh ch : bool)
  | UserListen (sa a ch : bool)
  | UserCloseSocket
  | Concerns (r : Ref) (i : Input).   (* a timer of a connection, or a call of its user *)

(** What does not come from the network or from [connect]. *)
Definition of_connection (i : Input) : bool :=
  match i with Arrives _ _ | Open | Initiate | NotAccepted => false | _ => true end.

Section machine.
Context `{!Zlib}.

(** At the time [t]. [Connection::finish] erases the connection from its socket. *)
Definition sk_handle (t : Z) (i : SockInput) : M Socket unit :=
  match i with
  | FromNetwork an packet from => sk_receive an packet from
  | UserConnect randomLong random native_open remote o rh ch =>
    connect randomLong random native_open t remote o rh ch;; mret tt
  | UserListen sa a ch => listen sa a ch
  | UserCloseSocket => sk_close
  | Concerns r i =>
    on_connection r (modify (set_clock t);; handle i);;
    match i with FinishTimeout => erase r | _ => mret tt end
  end.

(** The inputs the theorems are about: those of [Lifecycle.valid], and a short id left for a new
    connection. *)
Definition sk_valid (t : Z) (i : SockInput) (s : Socket) : Prop :=
  match i with
  | FromNetwork an packet from =>
    let '(p, l) := getLookUp packet in
    an_now an = t ∧ packet_ok packet ∧ answers_ok s an ∧ data_packet_ok p ∧ h3_ok p ∧
    Z.of_nat (length from) = sizeof_Address ∧
    ∀ r c, findConnection l s = Some r → store s !! r = Some c → challenge_ok from c
  | UserConnect randomLong random _ _ o _ _ =>
    in_u 16 random ∧ (∃ j, free_id s j) ∧ length randomLong = 16%nat ∧ randomLong ≠ NullLongConnectionID ∧
    user_options_ok s o
  | Concerns r i => of_connection i = true ∧ ∃ c, store s !! r = Some c ∧ valid i (set_clock t c)
  | _ => True
  end.

Inductive sk_reachable : Z → Socket → Prop :=
  | sk_reachable_init t o : options_ok o → uncompressed o → sk_reachable t (Socket_init o)
  | sk_reachable_step t t' s i s' :
      sk_reachable t s → t ≤ t' → sk_valid t' i s → sk_handle t' i s = Some (tt, s') → sk_reachable t' s'.

(** ** The connections of a socket *)

(** Each has lived so far as [Lifecycle.v] says. *)
Definition members (t : Z) (s : Socket) : Prop :=
  ∀ r c, store s !! r = Some c → clock c ≤ t ∧ ∃ ins, reachable ins c.

Lemma members_mono t t' s : members t s → t ≤ t' → members t' s.
Proof. intros Hm Ht r c Hc. destruct (Hm r c Hc). split; [lia|done]. Qed.

Lemma members_store t s s' : store s' = store s → members t s → members t s'.
Proof. intros E Hm r c. rewrite E. apply Hm. Qed.

Lemma set_clock_self c : set_clock (clock c) c = c.
Proof. by destruct c. Qed.

(** Handling an input does not change the clock. *)
Lemma handle_clock i c c' : conn_inv c → valid i c → handle i c = Some (tt, c') → clock c' = clock c.
Proof.
  intros Hc Hv E. destruct (is_OpenUser i) eqn:Ei.
  - destruct i; try done. cbn [handle] in E. unfold openUser in E.
    apply bind_some in E as ([]&c1&[= <-]&(?&?&[= <- <-]&E)%bind_some). unfold when in E.
    case_match; injection E as <-; by destruct o.
  - pose proof (handle_safe i c Hv Ei Hc) as Hw. unfold wp in Hw. rewrite E in Hw. apply Hw.
Qed.

(** A method of a connection that is the handler of an input. *)
Lemma method_reaches {A} (m : C A) i ins r c t a s s' :
  reachable ins c → clock c ≤ t → store s !! r = Some c → valid i (set_clock t c) →
  (∀ a c', m c = Some (a, c') → handle i (set_clock t c) = Some (tt, c')) →
  on_connection r m s = Some (a, s') →
  ∃ c', s' = set_store (<[r := c']> (store s)) s ∧ reachable (ins ++ [i]) c' ∧ clock c' = t ∧ m c = Some (a, c').
Proof.
  intros Hins Ht Hr Hv Hi E. unfold on_connection in E. rewrite Hr in E. simpl in E.
  destruct (m c) as [[a' c']|] eqn:Em; [|done]. simpl in E. injection E as <- <-. specialize (Hi a' c' eq_refl).
  exists c'. split_and!; [done| | |done].
  - eapply reachable_step; [exact Hins|]. exact (step_intro _ _ _ t Ht Hv Hi).
  - apply (handle_clock i) in Hi; [done|by apply set_clock_inv, (reachable_inv ins)|done].
Qed.

Lemma members_method {A} (m : C A) i r c t a s s' :
  members t s → store s !! r = Some c → valid i (set_clock t c) →
  (∀ a c', m c = Some (a, c') → handle i (set_clock t c) = Some (tt, c')) →
  on_connection r m s = Some (a, s') →
  members t s' ∧ ∃ c', store s' !! r = Some c' ∧ clock c' = t ∧ m c = Some (a, c').
Proof.
  intros Hm Hr Hv Hi E. destruct (Hm r c Hr) as [Ht (ins&Hins)].
  destruct (method_reaches m i ins r c t a s s' Hins Ht Hr Hv Hi E) as (c'&->&Hr'&Hc'&Em).
  split; [|exists c'; split_and!; [simpl; apply lookup_insert_eq|done|done]].
  intros q x. simpl. intros [[<- <-]|[_ Hq]]%lookup_insert_Some; [|by apply (Hm q)]. split; [lia|by eauto].
Qed.

Lemma acquire_loop_store fuel i j s s' :
  acquire_loop fuel i s = Some (j, s') → store s' = store s ∧ service_options s' = service_options s.
Proof.
  revert i. induction fuel as [|fuel IH]; intros i; [done|]. cbn [acquire_loop]. unfold mbind, M_bind, mget, modify.
  destruct (_ || _); [apply IH|by intros [= _ <-]].
Qed.

Lemma acquire_store random j s s' :
  acquireShortConnectionID random s = Some (j, s') → store s' = store s ∧ service_options s' = service_options s.
Proof. unfold acquireShortConnectionID. apply acquire_loop_store. Qed.

Lemma insert_store r s s' : insert r s = Some (tt, s') → store s' = store s.
Proof. unfold insert. destruct (store s !! r); [|done]. by intros [= <-]. Qed.

Lemma erase_store r s s' : erase r s = Some (tt, s') → store s' = store s.
Proof.
  unfold erase, releaseShortConnectionID, mbind, M_bind, modify. destruct (store s !! r); [|done]. simpl. by intros [= <-].
Qed.

(** Opening succeeds as the input [Open], or does nothing. *)
Lemma open_input status a c c' :
  open status c = Some (a, c') → a = status ∧ (mrudp_failed status = true ∧ c' = c ∨ handle Open c = Some (tt, c')).
Proof.
  intros E. split; [by eapply open_status|]. cbn [handle]. destruct (mrudp_failed status) eqn:Ef.
  { unfold open in E. rewrite Ef in E. injection E as _ <-. by left. }
  right. assert (status = MRUDP_OK) as ->.
  { unfold mrudp_failed in Ef. by apply negb_false_iff, Z.eqb_eq in Ef. }
  unfold mbind, M_bind. by rewrite E.
Qed.

(** ** The birth of a connection *)

(** Nothing changes but the connection [r]. *)
Definition only_at (r : Ref) (s s' : Socket) : Prop := ∀ q, q ≠ r → store s' !! q = store s !! q.

#[export] Instance only_at_preorder r : PreOrder (only_at r).
Proof. split; [done|]. intros s1 s2 s3 H1 H2 q Hq. by rewrite H2, H1. Qed.

Lemma store_only r s s' : store s' = store s → only_at r s s'.
Proof. by intros E q _; rewrite E. Qed.

Lemma method_only {A} r (m : C A) a s s' : on_connection r m s = Some (a, s') → only_at r s s'.
Proof.
  unfold on_connection. destruct (store s !! r); [|done]. simpl. destruct (m c) as [[? ?]|]; [|done]. simpl.
  intros [= _ <-] q Hq. simpl. by rewrite lookup_insert_ne.
Qed.

(** What happens to a connection before its socket is done with making it. *)
Definition birth (i : Input) : Prop := match i with OpenUser _ _ _ | Open | Initiate | NotAccepted => True | _ => False end.

(** [r] is made at the time [t], in the course of an operation that began in [s] and is valid if [P]. *)
Record infant (P : Prop) (t : Z) (r : Ref) (s s' : Socket) (c : Connection) : Prop := {
  in_fresh : store s !! r = None;
  in_stored : store s' !! r = Some c;
  in_clock : P → clock c = t;
  in_only : only_at r s s';
  in_life : P → ∃ ins, reachable ins c ∧ Forall birth ins;
}.

Lemma infant_new (P : Prop) t c r s s1 s' :
  (P → initial c) → clock c = t → store s1 = store s → new_connection c s1 = Some (r, s') → infant P t r s s' c.
Proof.
  intros Hi Ht Es. unfold new_connection, mbind, M_bind, mget, modify. rewrite Es. intros [= <- <-]. split; simpl.
  - apply not_elem_of_dom, is_fresh.
  - apply lookup_insert_eq.
  - done.
  - intros q Hq. simpl. by rewrite lookup_insert_ne.
  - intros HP. exists []. split; [by apply reachable_init, Hi|constructor].
Qed.

Lemma infant_store P t r s s1 s2 c : store s2 = store s1 → infant P t r s s1 c → infant P t r s s2 c.
Proof. intros E [H1 H2 H3 H4 H5]. split; [done|congruence|done| |done]. etrans; [exact H4|by apply store_only]. Qed.

Lemma infant_method {A} (m : C A) i P t r s s1 s2 c a :
  infant P t r s s1 c → birth i → (P → valid i c) →
  (∀ a c', m c = Some (a, c') → handle i c = Some (tt, c')) →
  on_connection r m s1 = Some (a, s2) → ∃ c', infant P t r s s2 c' ∧ m c = Some (a, c').
Proof.
  intros [H1 H2 H3 H4 H5] Hb Hv Hi E. pose proof E as E'. unfold on_connection in E'. rewrite H2 in E'. simpl in E'.
  destruct (m c) as [[a' c']|] eqn:Em; [|done]. simpl in E'. injection E' as -> _. exists c'. split; [|done].
  assert (P → ∃ ins, reachable ins c' ∧ clock c' = t ∧ Forall birth ins) as Hl.
  { intros HP. destruct (H5 HP) as (ins&Hins&Hf). specialize (H3 HP).
    destruct (method_reaches m i ins r c t a s1 s2) as (c2&_&Hr2&Hc2&Em2); [done|lia|done|rewrite <-H3, set_clock_self; by apply Hv| |done|].
    - intros b x Ex. rewrite <-H3, set_clock_self. by eapply Hi; rewrite <-Ex.
    - assert (c2 = c') as -> by congruence. exists (ins ++ [i]). split_and!; [done|done|]. apply Forall_app. by rewrite Forall_singleton. }
  split; [done| |by intros HP; destruct (Hl HP) as (?&?&?&?)| |by intros HP; destruct (Hl HP) as (?&?&?&?); eauto].
  - unfold on_connection in E. rewrite H2 in E. simpl in E. rewrite Em in E. injection E as <-. simpl. apply lookup_insert_eq.
  - etrans; [exact H4|by eapply method_only].
Qed.

Lemma infant_open status P t r s s1 s2 c a :
  infant P t r s s1 c → on_connection r (open status) s1 = Some (a, s2) →
  a = status ∧ ∃ c', infant P t r s s2 c' ∧ open status c = Some (a, c').
Proof.
  intros Hc E. pose proof E as E'. unfold on_connection in E'. rewrite (in_stored _ _ _ _ _ _ Hc) in E'. simpl in E'.
  destruct (open status c) as [[a' c']|] eqn:Eo; [|done]. simpl in E'. injection E' as -> E'.
  destruct (open_input _ _ _ _ Eo) as [-> [[_ ->]|Hh]]; (split; [done|]).
  - exists c. split; [|done]. eapply infant_store; [|exact Hc]. subst s2. simpl. apply insert_id, (in_stored _ _ _ _ _ _ Hc).
  - apply (infant_method _ Open P t r s s1 s2 c) in E as (c2&?&?); [|done|done|done|].
    + exists c2. split; [done|congruence].
    + intros a2 c2 E2. congruence.
Qed.

Lemma connect_born randomLong random native_open t remote o rh ch a s s' :
  connect randomLong random native_open t remote o rh ch s = Some (a, s') →
  ∃ r c, infant (sock_inv s ∧ length randomLong = 16%nat ∧ user_options_ok s o) t r s s' c ∧ (∀ q, a = Some q → q = r).
Proof.
  set (P := sock_inv s ∧ _). pose proof (acquire_store random) as Ha. unfold connect. revert Ha.
  generalize (acquireShortConnectionID random). intros acquire Ha E.
  apply bind_some in E as (?&?&[= <- <-]&(i&s1&[Es1 _]%Ha&(r&s2&E2&E)%bind_some)%bind_some). exists r.
  apply (infant_new P t _ r s) in E2; [|by intros (Hs&Hl&_); do 5 eexists; split_and!; [done|done|apply Hs..]|done|done].
  apply bind_some in E as ([]&s3&E3&([]&s4&E4%insert_store&(st&s5&E5&E)%bind_some)%bind_some).
  apply (infant_method _ (OpenUser o rh ch) P t r s s2 s3 _ _ E2) in E3 as (c3&H3&_); [|done| |by intros []].
  2: { intros (_&_&Ho). by destruct o. }
  apply (infant_store _ _ _ _ _ s4) in H3; [|done]. apply (infant_open _ _ _ _ _ _ _ _ _ H3) in E5 as (->&c5&H5&_).
  destruct (mrudp_failed native_open).
  - apply bind_some in E as ([]&s6&E6%erase_store&[= <- <-]). exists c5. split; [by eapply infant_store|done].
  - apply bind_some in E as ([]&s6&E6&[= <- <-]).
    apply (infant_method _ Initiate P t r s s5 s6 _ _ H5) in E6 as (c6&H6&_); [|done|done|by intros []].
    exists c6. split; [done|]. by intros q [= <-].
Qed.

Lemma generateConnection_born an l packet from a s s' :
  generateConnection an l packet from s = Some (a, s') →
  (a = None ∧ s' = s) ∨
  h_type (p_header packet) = Packet.H0 ∧
  ∃ r c, infant (sock_inv s ∧ length (longID l) = 16%nat ∧
           match an_openUser an with Some (o, _, _) => user_options_ok s o | None => True end) (an_now an) r s s' c ∧
    (∀ q, a = Some q → q = r).
Proof.
  set (P := sock_inv s ∧ _). set (t := an_now an). pose proof (acquire_store (an_random an)) as Hacq.
  unfold generateConnection. revert Hacq. generalize (acquireShortConnectionID (an_random an)). intros acquire Hacq E.
  apply bind_some in E as (?&?&[= <- <-]&E). destruct (isFull s); [injection E as <- <-; by left|].
  destruct (Z.eqb_spec (h_type (p_header packet)) Packet.H0); cbn [negb] in E; [|injection E as <- <-; by left].
  destruct (LongConnectionID_eqb _ _); [injection E as <- <-; by left|]. destruct (negb _); [injection E as <- <-; by left|].
  destruct (shouldAccept s && _); [injection E as <- <-; by left|]. right. split; [done|].
  apply bind_some in E as (i&s1&[Es1 _]%Hacq&(r&s2&E2&([]&s3&E3%insert_store&(st&s4&E4&E)%bind_some)%bind_some)%bind_some). exists r.
  apply (infant_new P t _ r s) in E2; [|by intros (Hs&Hl&_); do 5 eexists; split_and!; [done|done|apply Hs..]|done|done].
  apply (infant_store _ _ _ _ _ s3) in E2; [|done]. apply (infant_open _ _ _ _ _ _ _ _ _ E2) in E4 as (->&c4&H4&Eopen).
  pose proof (open_address _ _ _ _ Eopen) as Ha. unfold same in Ha. injection Ha as _ Eo.
  destruct (mrudp_failed (an_open an)).
  { apply bind_some in E as ([]&s5&E5%erase_store&[= <- <-]). exists c4. split; [by eapply infant_store|done]. }
  apply bind_some in E as ([]&s5&E5&E).
  assert (∃ c5, infant P t r s s5 c5) as (c5&H5).
  { destruct (an_openUser an) as [[[o rh] ch]|]; [|injection E5 as <-; by eauto].
    apply (infant_method _ (OpenUser o rh ch) P t r s s4 s5 _ _ H4) in E5 as (c5&?&_); [by eauto|done| |by intros []].
    intros (_&_&Ho). destruct o as [o|]; [|done]. cbn [valid]. by rewrite Eo. }
  destruct (mrudp_failed (an_accept an)).
  - apply bind_some in E as ([]&s6&E6&[= <- <-]).
    apply (infant_method _ NotAccepted P t r s s5 s6 _ _ H5) in E6 as (c6&?&_); [by exists c6|done|done|by intros []].
  - injection E as <- <-. exists c5. split; [done|]. by intros q [= <-].
Qed.

(** A new connection is a member. *)
Lemma infant_members (P : Prop) t r s s' c : P → members t s → infant P t r s s' c → members t s'.
Proof.
  intros HP Hm [H1 H2 H3 H4 H5] q x Hq. destruct (decide (q = r)) as [->|Hne].
  - assert (x = c) as -> by congruence. destruct (H5 HP) as (ins&?&_). specialize (H3 HP). split; [lia|by eauto].
  - apply (Hm q). by rewrite <-(H4 q Hne).
Qed.

Lemma receive_members an packet from s s' :
  sock_inv s → members (an_now an) s → sk_valid (an_now an) (FromNetwork an packet from) s →
  sk_receive an packet from s = Some (tt, s') → members (an_now an) s'.
Proof.
  intros Hs Hm Hv E. unfold sk_receive in E. cbn [sk_valid] in Hv.
  pose proof (getLookUp_longID packet) as Hl. pose proof (getLookUp_header packet) as Hh. destruct (getLookUp packet) as [p l].
  destruct Hv as (_&[Hwf Hhp]&(Hrnd&Hfree&Hu)&Hp&Hh3&Hfrom&Hch). specialize (Hl Hwf). simpl in Hl, Hh. rewrite <-Hh in Hhp.
  apply bind_some in E as (r&s1&E1&E). unfold findOrGenerateConnection in E1. apply bind_some in E1 as (?&?&[= <- <-]&E1).
  assert (∀ r c, members (an_now an) s1 → store s1 !! r = Some c → challenge_ok from c →
    on_connection r (modify (set_clock (an_now an));; receive p from) s1 = Some (tt, s') → members (an_now an) s') as Hrcv.
  { intros q c Hm1 Hq Hc Eq. apply (members_method _ (Arrives p from) q c (an_now an)) in Eq as [? _]; [done|done|done|by split_and!|by intros []]. }
  destruct (findConnection l s) as [q|] eqn:Ef.
  - injection E1 as <- <-. destruct (findConnection_stored _ _ _ Hs Ef) as [c Hc]. apply (Hrcv q c); [done|done|by eapply Hch|done].
  - assert (members (an_now an) s1) as Hm1.
    { destruct (generateConnection_born _ _ _ _ _ _ _ E1) as [[_ ->]|(_&q&c&Hc&_)]; [done|].
      exact (infant_members _ _ _ _ _ _ (conj Hs (conj Hl Hu)) Hm Hc). }
    pose proof (generateConnection_wp an l p from s Hs (conj Hrnd (conj Hfree Hu)) Hl) as Hw. unfold wp in Hw. rewrite E1 in Hw.
    destruct r as [q|]; [|by injection E as <-]. destruct Hw as [_ [_ (c&Hc&Ha&_)]].
    apply (Hrcv q c Hm1 Hc); [split; [done|by left]|done].
Qed.

Lemma method_inv r c (m : C unit) s :
  sock_inv s → store s !! r = Some c →
  wp m (λ _ c', conn_inv c' ∧ id c' = id c ∧ localID c' = localID c) c →
  wp (on_connection r m) (λ _ s', sock_inv s' ∧ ∃ c', store s' !! r = Some c') s.
Proof. intros Hs Hr Hm. eapply (wp_method r c); [done|done|done|]. intros; eauto. Qed.

Lemma handle_keeps i c : conn_inv c → valid i c → wp (handle i) (λ _ c', conn_inv c' ∧ id c' = id c ∧ localID c' = localID c) c.
Proof.
  intros Hc Hv. destruct (is_OpenUser i) eqn:Ei.
  - destruct i; try done. apply openUser_keeps; [done|by destruct o].
  - apply safe_keeps; [done|]. by apply handle_safe.
Qed.

(** Every input is handled, and the socket stays well-formed. *)
Lemma sk_handle_wp t i s : sock_inv s → sk_valid t i s → wp (sk_handle t i) (λ _ s', sock_inv s') s.
Proof.
  intros Hs Hv. destruct i as [an packet from|randomLong random native_open remote o rh ch|sa a ch| |r i]; cbn [sk_handle].
  - pose proof (sk_receive_wp an packet from s) as Hw. cbn [sk_valid] in Hv. destruct (getLookUp packet) as [p l].
    destruct Hv as (_&[Hwf _]&Han&Hp&Hh3&Hf&Hch). eapply wp_mono; [by apply Hw|]. by intros [] s' [? _].
  - destruct Hv as (Hr&[j Hj]&Hl&Hn&Ho). apply wp_bind. eapply wp_mono; [by eapply connect_wp|].
    intros res s' [? _]. by apply wp_ret.
  - unfold listen. apply wp_bind, wp_mget. apply wp_when; [intros _|done]. apply wp_modify. by destruct Hs.
  - unfold sk_close, sk_closeUser. wp_steps. destruct (sk_disposed s); [by apply wp_ret|apply wp_modify]. by destruct Hs.
  - destruct Hv as [_ (c&Hr&Hv)]. apply wp_bind. eapply wp_mono; [apply (method_inv r c); [done|done|]|].
    { apply wp_bind, wp_modify. eapply wp_mono; [apply handle_keeps; [|done]|done]. apply set_clock_inv. by eapply ki_conn. }
    intros [] s' [Hs' [c' Hc']]. destruct i; try by apply wp_ret.
    eapply wp_mono; [by apply (erase_inv s' r c')|]. by intros [] s2 [? _].
Qed.

Lemma sk_handle_members t i s s' :
  sock_inv s → members t s → sk_valid t i s → sk_handle t i s = Some (tt, s') → members t s'.
Proof.
  intros Hs Hm Hv E. destruct i as [an packet from|randomLong random native_open remote o rh ch|sa a ch| |r i]; cbn [sk_handle] in E.
  - assert (an_now an = t) as <- by (cbn [sk_valid] in Hv; destruct (getLookUp packet); apply Hv).
    by eapply receive_members.
  - destruct Hv as (_&_&Hl&_&Ho). apply bind_some in E as (res&s1&(q&c&Hc&_)%connect_born&[= <-]).
    exact (infant_members _ _ _ _ _ _ (conj Hs (conj Hl Ho)) Hm Hc).
  - unfold listen, when in E. apply bind_some in E as (?&?&[= <- <-]&E). case_match; injection E as <-; by eapply members_store.
  - unfold sk_close, sk_closeUser in E. apply bind_some in E as (?&?&[= <- <-]&E).
    case_match; injection E as <-; by eapply members_store.
  - destruct Hv as [_ (c&Hr&Hv)]. apply bind_some in E as ([]&s1&E1&E).
    apply (members_method _ i r c t) in E1 as [Hm1 _]; [|done|done|done|by intros []].
    destruct i; try (by injection E as <-). apply erase_store in E. by eapply members_store.
Qed.

Lemma sk_reachable_ok t s : sk_reachable t s → sock_inv s ∧ members t s.
Proof.
  induction 1 as [t o Ho Hu|t t' s i s' _ [Hs Hm] Ht Hv E].
  - split; [by apply Socket_init_inv|]. intros r c Hc. simpl in Hc. by rewrite lookup_empty in Hc.
  - pose proof (members_mono _ _ _ Hm Ht) as Hm'. split; [|by eapply sk_handle_members].
    pose proof (sk_handle_wp t' i s Hs Hv) as Hw. unfold wp in Hw. by rewrite E in Hw.
Qed.

(** ** Connections do not touch each other *)

(** The connection an input is for. *)
Definition target (i : SockInput) (s : Socket) : option Ref :=
  match i with
  | FromNetwork _ packet _ => findConnection (getLookUp packet).2 s
  | Concerns r _ => Some r
  | _ => None
  end.

(** The connections of [s] but for [r] are in [s'] as they were. *)
Definition spares (r : option Ref) (s s' : Socket) : Prop :=
  ∀ q c, store s !! q = Some c → r ≠ Some q → store s' !! q = Some c.

Lemma only_spares r s s' : only_at r s s' → spares (Some r) s s'.
Proof. intros Ho q c Hq Hr. rewrite Ho; [done|congruence]. Qed.

Lemma fresh_spares r s s' : store s !! r = None → only_at r s s' → spares None s s'.
Proof. intros Hr Ho q c Hq _. rewrite Ho; [done|]. intros ->. congruence. Qed.

Lemma store_spares r s s' : store s' = store s → spares r s s'.
Proof. intros E q c Hq _. by rewrite E. Qed.

Lemma sk_handle_spares t i s s' : sk_handle t i s = Some (tt, s') → spares (target i s) s s'.
Proof.
  intros E. destruct i as [an packet from|randomLong random native_open remote o rh ch|sa a ch| |r i]; cbn [sk_handle target] in *.
  - unfold sk_receive in E. destruct (getLookUp packet) as [p l]. simpl. apply bind_some in E as (r&s1&E1&E).
    unfold findOrGenerateConnection in E1. apply bind_some in E1 as (?&?&[= <- <-]&E1).
    destruct (findConnection l s) as [q|]; [injection E1 as <- <-; by eapply only_spares, method_only|].
    apply generateConnection_born in E1 as [[-> ->]|(_&q&c&[Hq _ _ Ho _]&Hr)]; [by injection E as <-; apply store_spares|].
    apply (fresh_spares q); [done|]. etrans; [exact Ho|].
    destruct r as [r|]; [|by injection E as <-]. rewrite <-(Hr r eq_refl). by eapply method_only.
  - apply bind_some in E as (res&s1&(r&c&[Hr _ _ Ho _]&_)%connect_born&[= <-]). by apply (fresh_spares r).
  - unfold listen, when in E. apply bind_some in E as (?&?&[= <- <-]&E). case_match; injection E as <-; by apply store_spares.
  - unfold sk_close, sk_closeUser in E. apply bind_some in E as (?&?&[= <- <-]&E).
    case_match; injection E as <-; by apply store_spares.
  - apply bind_some in E as ([]&s1&E1%method_only&E). apply only_spares. etrans; [exact E1|]. apply store_only.
    destruct i; try (by injection E as <-). by apply erase_store in E.
Qed.
End machine.

(** ** Claim *)

(** C9: a socket is a family of connections. In every state a socket can get into, from its
    construction on, by packets from the network, calls of its user, and timers and calls of its
    connections, it is well-formed; each of its connections is in a state that [Lifecycle.v]
    reaches, so that the theorems about connections hold for it; and every further valid input is
    handled to the end, without undefined behaviour and without touching any connection but the
    one it is for. *)
Theorem socket_lives `{!Zlib} (t : Z) (s : Socket) :
  sk_reachable t s →
  sock_inv s ∧
  (∀ r c, store s !! r = Some c → ∃ ins, reachable ins c) ∧
  (∀ t' i, t ≤ t' → sk_valid t' i s →
     ∃ s', sk_handle t' i s = Some (tt, s') ∧ sk_reachable t' s' ∧ spares (target i s) s s').
Proof.
  intros Hr. destruct (sk_reachable_ok t s Hr) as [Hs Hm]. split; [done|]. split; [by intros r c []%Hm|].
  intros t' i Ht Hv. pose proof (sk_handle_wp t' i s Hs Hv) as Hw. apply wp_some in Hw as ([]&s'&E&_).
  exists s'. split; [done|]. split; [exact (sk_reachable_step t t' s i s' Hr Ht Hv E)|by eapply sk_handle_spares].
Qed.

(** A new socket that connects. *)
Definition example_connect : SockInput :=
  UserConnect (replicate 16 Byte.x09) 77 MRUDP_OK (replicate 28 Byte.x01) None true true.

#[local] Existing Instance Zlib_stored.
#[local] Existing Instance ZlibLaws_stored.

Lemma socket_lives_witness :
  ∃ s', sk_handle 5 example_connect (Socket_init getDefaultConnectionOptions) = Some (tt, s') ∧
    sk_reachable 5 s' ∧ spares None (Socket_init getDefaultConnectionOptions) s'.
Proof.
  refine (proj2 (proj2 (socket_lives 0 (Socket_init getDefaultConnectionOptions) _)) 5 example_connect _ _).
  - apply sk_reachable_init; [split; simpl; lia|split; discriminate].
  - lia.
  - split; [split; reflexivity || discriminate|]. split; [exists 5; split; [lia|set_solver]|].
    split; [reflexivity|]. split; [discriminate|exact I].
Defined.
