(* ===== verification/Agreement.v ===== *)
(** * The handshake between two endpoints

    Two connections, at the two ends of a network that may lose, repeat, delay and reorder
    packets, but not make them up: what arrives at one end is a packet the other end sent, as a
    datagram, received in whatever buffer and read the way [Socket::receive] reads it. *)

From S2P Require Import Prelude MemCopy Packet ReceiveQueue Types Asio Datagram SendQueue Compression Float32 Rtt State Retrier Transmit Invariant Sender Connection Closing Wire NetworkPath Lifecycle Emission Socket.

(** ** Packets that announce a local id *)

(** The packets an endpoint with local id [l] may have waiting: [H2] and [H3] carry the id. *)
Definition announces (l : Z) (p : Packet) : Prop :=
  plain p ∨
  (h_type (p_header p) = H2 ∧ packet_wf p ∧ payload p = le_encode 2 l) ∨
  (h_type (p_header p) = H3 ∧ packet_wf p ∧ ∃ o, length o = 6%nat ∧ payload p = le_encode 2 l ++ o).

Lemma announces_plain l p : plain p → announces l p.
Proof. by left. Qed.

(** What the handshake reads from a packet: the options are popped from an [H3] first. *)
Definition announced (p : Packet) : Z :=
  if h_type (p_header p) =? H3 then (readRemoteID (popData p sizeof_HandshakeOptionsData).1).2
  else (readRemoteID p).2.

Lemma readRemoteID_payload p l :
  in_u 16 l → packet_wf p → payload p = le_encode 2 l → (readRemoteID p).2 = l.
Proof.
  intros Hl Hp Hpay. destruct (popData_app p [] _ Hp Hpay) as (p'&E&_). rewrite le_encode_length in E.
  unfold readRemoteID. change (Z.of_nat 2) with 2 in E. rewrite E. by apply (le_decode_encode 2).
Qed.

Lemma announced_id l p : in_u 16 l → announces l p → ¬ plain p → announced p = l.
Proof.
  intros Hl [?|[(Ht&Hp&Hpay)|(Ht&Hp&o&Ho&Hpay)]] Hn; [done| |]; unfold announced; rewrite Ht; simpl.
  - by apply readRemoteID_payload.
  - destruct (popData_app p _ o Hp Hpay) as (p'&E&Hp'&Hpay'&_). rewrite Ho in E.
    change (Z.of_nat 6) with sizeof_HandshakeOptionsData in E. rewrite E. by apply readRemoteID_payload.
Qed.

(** [announces] depends on the type and the payload. *)
Lemma announces_eq l p q :
  h_type (p_header q) = h_type (p_header p) → (packet_wf p → packet_wf q ∧ payload q = payload p) →
  announces l p → announces l q.
Proof.
  unfold announces, plain. intros -> Hq [?|[(Ht&[Hp Epay]%Hq&?)|(Ht&[Hp Epay]%Hq&?)]]; [by left| |].
  - right. left. by rewrite Epay.
  - right. right. by rewrite Epay.
Qed.

Lemma announces_header l p h :
  h_type h = h_type (p_header p) → announces l p → announces l (set_header p h).
Proof. intros Hh. apply announces_eq; [done|]. intros Hp. split; [by apply set_header_wf|done]. Qed.

Lemma announces_small l p : announces l p → plain p ∨ packet_wf p ∧ p_dataSize p ≤ 8.
Proof.
  intros [?|[(_&Hp&E)|(_&Hp&o&Ho&E)]]; [by left| |]; right; (split; [done|]);
    apply (f_equal length) in E; rewrite ?length_app, le_encode_length in E;
    pose proof (payload_length p Hp); pose proof (proj2 Hp); lia.
Qed.

(** Sending and looking up are inverse to each other. *)
Lemma announces_wire l c p w :
  length (id c) = 16%nat → wire_form c p = Some w → announces l p → announces l (getLookUp w).1.
Proof.
  intros Hid. unfold wire_form. destruct (Z.eqb_spec (remoteID c) 0) as [E0|E0].
  - destruct (pushData_T _ _) as [[w' b]|] eqn:E; [|done]. intros [= <-] Ha.
    pose proof (pushData_T_header _ _ _ _ E) as Hh.
    pose proof (announces_small l p Ha) as [Hpl|[Hp Hsz]].
    { left. unfold plain in *. rewrite getLookUp_header, Hh. done. }
    destruct (pushData_T_fits (set_connection p 0) (id c)) as (w2&E2&Hw2&Hpay2&_); [done|rewrite Hid; simpl; unfold MAX_PACKET_SIZE; lia|].
    rewrite E in E2. injection E2 as <- _.
    destruct (popData_app w' _ _ Hw2 Hpay2) as (q&Eq&Hq&Hpayq&Hhq). rewrite Hid in Eq.
    unfold getLookUp. rewrite Hh. simpl. change (Z.of_nat 16) with sizeof_LongConnectionID in Eq. rewrite Eq. simpl.
    eapply announces_eq; [|intros _; split; [done|exact Hpayq]|exact Ha]. by rewrite Hhq, Hh.
  - intros [= <-]. unfold getLookUp. simpl. rewrite (proj2 (Z.eqb_neq _ _) E0). by apply announces_header.
Qed.

(** A packet on the wire carries the short id of the peer, 0 while that is not known. *)
Lemma wire_connection c p w : wire_form c p = Some w → h_connection (p_header w) = remoteID c.
Proof.
  unfold wire_form. destruct (Z.eqb_spec (remoteID c) 0) as [->|_]; [|by intros [= <-]].
  destruct (pushData_T _ _) as [[w' b]|] eqn:E; [|done]. intros [= <-]. by rewrite (pushData_T_header _ _ _ _ E).
Qed.

(** ** One endpoint *)

(** An endpoint with the local id [l], whose peer has the local id [m]. *)
Record endpoint (l m : Z) (c : Connection) : Prop := {
  ep_local : localID c = l;
  ep_id : length (id c) = 16%nat;
  ep_remote : remoteID c = 0 ∨ remoteID c = m;
  ep_waiting : ∀ p, waiting c p → announces l p;
  ep_sent : Forall (λ t, announces l (getLookUp t.1).1) (transmissions c);
  ep_wired : Forall (λ t, h_connection (p_header t.1) = 0 ∨ h_connection (p_header t.1) = m) (transmissions c);
}.

Lemma tx_endpoint l m c c' : tx (announces l) c c' → endpoint l m c → endpoint l m c'.
Proof.
  intros [Hi Hw (ts&Et&Ht)] [Hl Hid Hrem Hwait Hsent Hwired]. unfold identity in Hi. simplify_eq.
  split; [congruence|congruence|congruence| | |].
  - intros p [?|?]%Hw; auto.
  - rewrite Et. apply Forall_app. split; [done|]. eapply Forall_impl; [|exact Ht].
    intros t (p&Hp&Hok). eapply announces_wire; [done|done|]. naive_solver.
  - rewrite Et. apply Forall_app. split; [done|]. eapply Forall_impl; [|exact Ht].
    intros t (p&Hp&_). by rewrite (wire_connection _ _ _ Hp).
Qed.

(** Learning who the peer is, changing the handshake's state, or the clock. *)
Lemma endpoint_same l m c c' :
  localID c' = localID c → id c' = id c → window (retrier (sender c')) = window (retrier (sender c)) →
  transmissions c' = transmissions c → remoteID c' = remoteID c ∨ remoteID c' = m → endpoint l m c → endpoint l m c'.
Proof.
  intros El Ei Ew Et Er [? ? Hr Hw ??]. split; [congruence|congruence| | |congruence|congruence].
  - destruct Er as [->|?]; [done|by right].
  - intros p. unfold waiting. rewrite Ew. apply Hw.
Qed.

(** The peer is unchanged and the handshake not newly complete. *)
Definition kept (c c' : Connection) : Prop :=
  remoteID c' = remoteID c ∧
  (waitingFor (handshake c') = HANDSHAKE_COMPLETE → waitingFor (handshake c) = HANDSHAKE_COMPLETE).

#[export] Instance kept_preorder : PreOrder kept.
Proof. split; [done|]. intros c1 c2 c3 [? ?] [? ?]. split; [congruence|auto]. Qed.

Lemma tx_kept okp c c' : tx okp c c' → kept c c'.
Proof. intros [Hi _ _]. unfold identity in Hi. simplify_eq. split; congruence. Qed.

Section handlers.
Context `{!Zlib} (l m : Z).

(** The control packets of the handshake. *)
Lemma id_packet t i p b :
  pushData_T (set_id (set_type new_Packet t) i) (le_encode 2 l) = Some (p, b) →
  packet_wf p ∧ payload p = le_encode 2 l ∧ h_type (p_header p) = t ∧ p_dataSize p = 2.
Proof.
  intros E. destruct (pushData_T_fits (set_id (set_type new_Packet t) i) (le_encode 2 l)) as (q&E'&Hq&Hpay&Hh&Hs).
  - apply set_header_wf, set_header_wf, new_Packet_wf.
  - by rewrite le_encode_length.
  - rewrite E in E'. injection E' as <- _. rewrite le_encode_length in Hs. split_and!; [done|by rewrite Hpay|by rewrite Hh|done].
Qed.

Lemma H3_sendable i p b :
  pushData_T (set_id (set_type new_Packet H3) i) (le_encode 2 l) = Some (p, b) → sendable (announces l) p.
Proof.
  intros (Hp&Hpay&Ht&Hs)%id_packet o p' d. unfold ho_onSend. rewrite Ht, Z.eqb_refl.
  set (bs := encode_HandshakeOptionsData _ _).
  destruct (pushData_T_fits p bs Hp) as (q&E&Hq&Hpayq&Hh&_).
  { rewrite Hs. by vm_compute. }
  rewrite E. simpl. intros [= <- <-]. right. right. rewrite Hh, Ht, Hpayq, Hpay. split_and!; [done|done|].
  exists bs. by split; [vm_compute|].
Qed.

Lemma H2_sendable p b i :
  pushData_T (set_type new_Packet H2) (le_encode 2 l) = Some (p, b) →
  announces l (set_id p i) ∧ sendable (announces l) (set_id p i).
Proof.
  intros (Hp&Hpay&Ht&Hs)%(id_packet H2 (h_id (p_header new_Packet))).
  assert (announces l (set_id p i)) as Ha by (right; left; by rewrite <-Hpay).
  split; [done|]. apply sendable_not_H3; [simpl; by rewrite Ht|done].
Qed.

Lemma complete_endpoint f c c' :
  (∀ c, ∃ h i, f c = set_handshake h (set_remoteID i c)) →
  remoteID (f c) = m → (modify f;; onHandshakeComplete) c = Some (tt, c') → endpoint l m c →
  endpoint l m c' ∧ remoteID c' = remoteID (f c).
Proof.
  intros Hf Hfm ([]&c1&[= <-]&E)%bind_some Hc.
  pose proof (tx_onHandshakeComplete (announces l) (announces_plain l) _ _ _ E) as Htx.
  destruct (tx_kept _ _ _ Htx) as [-> _]. split; [|done]. eapply tx_endpoint; [exact Htx|].
  apply (endpoint_same l m c); [..|done]; [by destruct (Hf c) as (h&i&->)..|by right].
Qed.

Lemma handlePacket_endpoint p c p' c' :
  handlePacket p c = Some (p', c') → (¬ plain p → (readRemoteID p).2 = m) → endpoint l m c →
  endpoint l m c' ∧ (kept c c' ∨ (¬ plain p ∧ remoteID c' = (readRemoteID p).2)).
Proof.
  intros E Hm Hc. unfold handlePacket in E.
  destruct (Z.eqb_spec (h_type (p_header p)) Packet.H0) as [Et|_].
  { apply bind_some in E as ([]&c1&E1&([]&c2&[= <-]&[= <- <-])%bind_some).
    apply (tx_send_plain (announces l) (announces_plain l)) in E1; [|done].
    pose proof (tx_endpoint _ _ _ _ E1 Hc) as Hc1. apply tx_kept in E1. split.
    - case_match; [by apply (endpoint_same l m c1); auto|done].
    - left. etrans; [exact E1|]. case_match; [by split|done]. }
  destruct (Z.eqb_spec (h_type (p_header p)) H1) as [Et|_].
  { apply bind_some in E as (?&?&[= <- <-]&([]&c1&E1&[= <- <-])%bind_some). unfold when in E1.
    destruct (Z.eqb_spec (waitingFor (handshake c)) H1) as [Ew|_]; [|injection E1 as <-; split; [done|by left]].
    apply bind_some in E1 as ([]&c2&[= <-]&([q b]&c3&El&E1)%bind_some). unfold lift in El.
    destruct (pushData_T _ _) as [[q' b']|] eqn:Eq; [|done]. simplify_eq/=.
    rewrite (ep_local _ _ _ Hc) in Eq. apply (tx_sendReliably (announces l)) in E1; [|intros; by eapply H2_sendable].
    split; [eapply tx_endpoint; [exact E1|by apply (endpoint_same l m c); auto]|]. left.
    transitivity (set_waitingFor H3 c); [by split|by eapply tx_kept]. }
  destruct (Z.eqb_spec (h_type (p_header p)) H2) as [Et|_].
  { assert (p_header (readRemoteID p).1 = p_header p) as Hh.
    { unfold readRemoteID. pose proof (popData_header p 2) as Hh. by destruct (popData p 2) as [? [?|]]. }
    destruct (readRemoteID p) as [p1 r] eqn:Er. simpl in Hh.
    apply bind_some in E as (?&?&[= <- <-]&([q b]&c1&El&([]&c2&Es&E)%bind_some)%bind_some). unfold lift in El.
    destruct (pushData_T _ _) as [[q' b']|] eqn:Eq; [|done]. simplify_eq/=.
    rewrite (ep_local _ _ _ Hc) in Eq. apply (tx_send (announces l)) in Es; [|by eapply H3_sendable].
    pose proof (tx_endpoint _ _ _ _ Es Hc) as Hc2.
    apply bind_some in E as (?&?&[= <- <-]&([]&c3&E3&[= <- <-])%bind_some). unfold when in E3.
    destruct (_ =? H2); [|injection E3 as <-; split; [done|left; by eapply tx_kept]].
    apply complete_endpoint in E3 as [? Hr]; [|by eauto|by apply Hm; intros [Hp _]; rewrite Et in Hp|done]. split; [done|]. right.
    split; [intros [Hp _]; by rewrite Et in Hp|exact Hr]. }
  destruct (Z.eqb_spec (h_type (p_header p)) H3) as [Et|_]; [|injection E as <- <-; split; [done|by left]].
  destruct (readRemoteID p) as [p1 r] eqn:Er.
  apply bind_some in E as (?&?&[= <- <-]&([]&c1&E1&[= <- <-])%bind_some). unfold when in E1.
  destruct (_ =? H3); [|injection E1 as <-; split; [done|by left]].
  apply complete_endpoint in E1 as [? Hr]; [|intros; by do 2 eexists|by apply Hm; intros [_ Hp]; rewrite Et in Hp|done]. split; [done|]. right.
  split; [intros [_ Hp]; by rewrite Et in Hp|exact Hr].
Qed.

Lemma verifyChallengeResponse_header c p from : p_header (verifyChallengeResponse c p from).1 = p_header p.
Proof.
  unfold verifyChallengeResponse. pose proof (popSizedData_header p) as Hh.
  destruct (popSizedData p) as [p1 [d|]]; [|done]. simpl in Hh. pose proof (popSizedData_header p1) as Hh1.
  destruct (popSizedData p1) as [p2 [d2|]]; simpl in *; congruence.
Qed.

(** What one reaction of an endpoint to the packet [p] can do. *)
Definition reacts (p : Packet) (c c' : Connection) : Prop :=
  (¬ plain p → announced p = m) → endpoint l m c →
  endpoint l m c' ∧ (kept c c' ∨ (¬ plain p ∧ remoteID c' = announced p)).

Lemma reacts_then_tx p c c1 c' : reacts p c c1 → tx (announces l) c1 c' → reacts p c c'.
Proof.
  intros Hr Htx Hm Hc. destruct (Hr Hm Hc) as [Hc1 Hk]. split; [by eapply tx_endpoint|].
  destruct (tx_kept _ _ _ Htx) as [Er Ew]. destruct Hk as [[? ?]|[? ?]].
  - left. split; [congruence|auto].
  - right. split; [done|congruence].
Qed.

Lemma tx_reacts p c c' : tx (announces l) c c' → reacts p c c'.
Proof. intros Htx _ Hc. split; [by eapply tx_endpoint|left; by eapply tx_kept]. Qed.

Lemma ho_onReceive_reads p c p1 d c1 :
  ho_onReceive p c = Some ((p1, d), c1) →
  tx (announces l) c c1 ∧ p_header p1 = p_header p ∧ (readRemoteID p1).2 = announced p.
Proof.
  unfold ho_onReceive, announced. destruct (Z.eqb_spec (h_type (p_header p)) H3) as [Et|_].
  - pose proof (popData_header p sizeof_HandshakeOptionsData) as Hh.
    destruct (popData p _) as [q [bs|]]; intros [= <- <- <-]; (split_and!; [by apply outward_tx|done|done]).
  - by intros [= <- <- <-].
Qed.

Lemma receive_reacts p from c c' : receive p from c = Some (tt, c') → reacts p c c'.
Proof.
  unfold receive. intros ([p1 d1]&c1&E1&E)%bind_some.
  apply ho_onReceive_reads in E1 as (Htx1&Hh1&Hr1).
  case_decide; [injection E as <-; by apply tx_reacts|].
  apply bind_some in E as (now&?&[= <- <-]&([]&c2&[= <-]&([p2 d2]&c3&E3&E)%bind_some)%bind_some).
  set (c2 := set_statistics _ c1) in *.
  assert (tx (announces l) c c2) as Htx2 by (transitivity c1; [done|by apply outward_tx]).
  pose proof (np_onReceive_cases (announces l) (announces_plain l) _ _ _ _ _ _ E3) as Hnp.
  assert (∀ c4 c5 q, (pr_on (clock c1);; s_onReceive q;; rc_onReceive q) c4 = Some (tt, c5) → tx (announces l) c4 c5) as Hrest.
  { intros c4 c5 q ([]&c6&Ep&([]&c7&Es&Er)%bind_some)%bind_some.
    etrans; [by eapply tx_pr_on|]. etrans; [eapply (tx_s_onReceive _ (announces_plain l)); exact Es|].
    eapply (tx_rc_onReceive _ (announces_plain l)); exact Er. }
  assert (endpoint l m c → endpoint l m c3 ∧ kept c c3) as Hc3.
  { intros Hc. pose proof (tx_endpoint _ _ _ _ Htx2 Hc) as Hc2. pose proof (tx_kept _ _ _ Htx2) as Hk2.
    destruct Hnp as [(Htx&_)|(_&_&[[_ ->]|(_&_&->)])]; [| |].
    - split; [by eapply tx_endpoint|]. etrans; [done|by eapply tx_kept].
    - done.
    - split; [|etrans; [done|by split]]. eapply endpoint_same; [..|exact Hc2]; try done; [by rewrite transmissions_silent|by left]. }
  case_decide; [injection E as <-; intros _ Hc; destruct (Hc3 Hc); split; [done|by left]|].
  apply bind_some in E as ([p3 d3]&c4&E4&E). unfold hs_onReceive in E4.
  destruct (isHandshake (h_type (p_header p2))) eqn:Ehs; cbn [negb] in E4; cycle 1.
  { injection E4 as <- <- <-. destruct (decide (Keep = Discard)); [done|]. apply Hrest in E.
    eapply reacts_then_tx; [|exact E]. intros _ Hc. destruct (Hc3 Hc). split; [done|by left]. }
  apply bind_some in E4 as (p4&c5&E5&[= <- <- <-]). destruct (decide (Keep = Discard)); [done|].
  apply Hrest in E. eapply reacts_then_tx; [|exact E]. intros Hm Hc. destruct (Hc3 Hc) as [Hc3' Hk3].
  destruct Hnp as [(_&->&_)|(Ht&->&_)]; cycle 1.
  { by rewrite verifyChallengeResponse_header, Ht in Ehs. }
  destruct (handlePacket_endpoint _ _ _ _ E5) as [Hc5 Hk]; [|done|].
  { unfold plain in *. rewrite Hh1, Hr1. exact Hm. } split; [done|]. destruct Hk as [Hk|[Hp Hr]].
  - left. by etrans.
  - right. unfold plain in *. rewrite Hh1 in Hp. split; [done|]. congruence.
Qed.

(** Every input. *)
Lemma handle_reacts i c c' :
  handle i c = Some (tt, c') →
  match i with
  | Arrives p _ => reacts p c c'
  | _ => endpoint l m c → endpoint l m c' ∧ kept c c'
  end.
Proof.
  assert (∀ f, respects (tx (announces l)) f → f c = Some (tt, c') → endpoint l m c → endpoint l m c' ∧ kept c c') as Htx.
  { intros f Hf E Hc. pose proof (Hf c tt c' E) as Ht. split; [by eapply tx_endpoint|by eapply tx_kept]. }
  destruct i; cbn [handle].
  - apply receive_reacts.
  - apply Htx, tx_onRetryTimeout.
  - apply Htx, tx_pr_onTimeout; apply announces_plain.
  - by apply Htx, tx_emit.
  - apply Htx, tx_processSchedule; apply announces_plain.
  - apply Htx, tx_openUser.
  - apply Htx. unfold open. frame. apply tx_pr_on.
  - unfold initiate. intros ([]&c1&E1&[= <-])%bind_some Hc.
    apply (tx_sendReliably_plain (announces l) (announces_plain l)) in E1; [|done].
    pose proof (tx_endpoint _ _ _ _ E1 Hc) as Hc1. split; [by apply (endpoint_same l m c1); auto|].
    transitivity c1; [by eapply tx_kept|by split].
  - apply Htx. apply (respects_bind _); [apply tx_send_data, announces_plain|]. intros; apply (respects_ret _).
  - apply Htx, tx_user_close; apply announces_plain.
  - apply Htx, tx_close_event.
Qed.
End handlers.

(** ** Two endpoints *)

Record Network := mkNetwork { alice : Connection; bob : Connection }.

(** What the network may hand to an endpoint whose peer is [peer]. *)
Definition deliverable (peer : Connection) (i : Input) : Prop :=
  match i with
  | Arrives p _ => ∃ t q, t ∈ transmissions peer ∧ travels t.1 q ∧ p = (getLookUp q).1
  | _ => True
  end.

Lemma deliverable_datagram peer i : deliverable peer i → in_datagram i.
Proof. destruct i; try done. intros (t&q&_&Hq%travels_ok&->). by apply getLookUp_ok. Qed.

(** What arrives is what was sent. *)
Lemma deliverable_sent peer p from :
  wired peer → deliverable peer (Arrives p from) → ∃ t, t ∈ transmissions peer ∧ p ≡ (getLookUp t.1).1.
Proof.
  intros Hw (t&q&Ht&Hq&->). exists t. split; [done|].
  pose proof (travels_same _ _ (Forall_elem_of _ _ _ (wd_sent _ Hw) Ht) Hq) as E.
  apply getLookUp_equiv; [|done]. by destruct (travels_ok _ _ Hq).
Qed.

Lemma announces_equiv l p q : p ≡ q → announces l p → announces l q.
Proof. intros E. apply announces_eq; [by rewrite E|]. intros Hp. by rewrite <-E. Qed.

Section network.
Context `{!Zlib}.

Inductive net_step : Network → Network → Prop :=
  | alice_acts i t a a' b : deliverable b i → handle i (set_clock t a) = Some (tt, a') →
      net_step (mkNetwork a b) (mkNetwork a' b)
  | bob_acts i t a b b' : deliverable a i → handle i (set_clock t b) = Some (tt, b') →
      net_step (mkNetwork a b) (mkNetwork a b').

(** Both connections newly constructed, with local ids as [acquireShortConnectionID] gives them. *)
Definition net_initial (n : Network) : Prop :=
  initial (alice n) ∧ initial (bob n) ∧ 0 < localID (alice n) < 2 ^ 16 ∧ 0 < localID (bob n) < 2 ^ 16.

Inductive net_reachable : Network → Prop :=
  | net_reachable_init n : net_initial n → net_reachable n
  | net_reachable_step n n' : net_reachable n → net_step n n' → net_reachable n'.

(** [c] knows nothing of its peer yet, or the peer's id. *)
Definition knows (c : Connection) (peer_id : Z) : Prop :=
  (remoteID c = 0 ∧ waitingFor (handshake c) ≠ HANDSHAKE_COMPLETE) ∨ remoteID c = peer_id.

Lemma reaction i t l m c c' peer :
  in_u 16 m → endpoint l m c → endpoint m l peer → wired peer → knows c m → deliverable peer i →
  handle i (set_clock t c) = Some (tt, c') → endpoint l m c' ∧ knows c' m.
Proof.
  intros Hm Hc Hpeer Hw Hk Hd E. apply (handle_reacts l m) in E.
  assert (endpoint l m (set_clock t c)) as Hct by (by apply (endpoint_same l m c); auto).
  assert (∀ c', kept (set_clock t c) c' → knows c' m) as Hkept.
  { intros c2 [Er Ew]. simpl in *. destruct Hk as [[? ?]|?]; [left; split; [congruence|tauto]|right; congruence]. }
  destruct i as [p from| | | | | | | | | |]; try (destruct (E Hct); auto; done).
  assert (¬ plain p → announced p = m) as Ha.
  { destruct (deliverable_sent _ _ _ Hw Hd) as (tr&Ht&Ep). apply announced_id; [done|].
    eapply announces_equiv; [by symmetry|]. exact (Forall_elem_of _ _ _ (ep_sent _ _ _ Hpeer) Ht). }
  destruct (E Ha Hct) as [? [?|[Hp Hr]]]; [by auto|]. split; [done|]. right. by rewrite Hr, Ha.
Qed.

Lemma initial_endpoint m c : initial c → endpoint (localID c) m c ∧ remoteID c = 0 ∧ waitingFor (handshake c) = Packet.H0.
Proof.
  intros (i&a&l&o&t&->&Hi&_). split_and!; [|done|done]. split; simpl; [done|done|by left| |constructor|constructor].
  intros p (j&x&path&Hx&_). simpl in Hx. by rewrite lookup_empty in Hx.
Qed.

Record net_inv (la lb : Z) (n : Network) : Prop := {
  ni_alice : endpoint la lb (alice n);
  ni_bob : endpoint lb la (bob n);
  ni_knows_bob : knows (alice n) lb;
  ni_knows_alice : knows (bob n) la;
  ni_la : 0 < la < 2 ^ 16;
  ni_lb : 0 < lb < 2 ^ 16;
  ni_wired_alice : wired (alice n);
  ni_wired_bob : wired (bob n);
}.

Lemma net_reachable_inv n : net_reachable n → net_inv (localID (alice n)) (localID (bob n)) n.
Proof.
  induction 1 as [n (Ha&Hb&Hla&Hlb)|n n' _ IH Hs].
  - destruct (initial_endpoint (localID (bob n)) _ Ha) as (?&?&Ewa), (initial_endpoint (localID (alice n)) _ Hb) as (?&?&Ewb).
    split; try done; [left|left|by apply initial_wired..]; (split; [done|]); rewrite ?Ewa, ?Ewb; done.
  - destruct IH as [Ha Hb Hka Hkb Hla Hlb Hwa Hwb].
    assert (in_u 16 (localID (bob n)) ∧ in_u 16 (localID (alice n))) as [Hub Hua] by (unfold in_u; lia).
    destruct Hs as [i t a a' b Hd E|i t a b b' Hd E]; simpl in *.
    + destruct (reaction i t _ _ a a' b Hub Ha Hb Hwb Hka Hd E) as [Ha' Hk'].
      rewrite (ep_local _ _ _ Ha'). split; try done. eapply handle_wired; [by eapply deliverable_datagram|exact E|done].
    + destruct (reaction i t _ _ b b' a Hua Hb Ha Hwa Hkb Hd E) as [Hb' Hk'].
      rewrite (ep_local _ _ _ Hb'). split; try done. eapply handle_wired; [by eapply deliverable_datagram|exact E|done].
Qed.
End network.

(** ** Claim *)

(** C3: the two ends agree. Over a network that loses, repeats, delays and reorders packets at
    will, and whatever the users and the timers of both ends do, at any time each end has either
    not completed the handshake and knows no peer, or holds exactly the short id under which the
    other end's socket finds its connection. In particular an end that has completed the
    handshake addresses its packets to the right connection. *)
Theorem handshake_agreement `{!Zlib} (n : Network) :
  net_reachable n →
  (remoteID (alice n) = 0 ∨ remoteID (alice n) = localID (bob n)) ∧
  (remoteID (bob n) = 0 ∨ remoteID (bob n) = localID (alice n)) ∧
  (waitingFor (handshake (alice n)) = HANDSHAKE_COMPLETE → remoteID (alice n) = localID (bob n)) ∧
  (waitingFor (handshake (bob n)) = HANDSHAKE_COMPLETE → remoteID (bob n) = localID (alice n)).
Proof.
  intros [_ _ Ha Hb _ _ _ _]%net_reachable_inv. unfold knows in *. split_and!; tauto.
Qed.

(** A run of the whole handshake, each packet delivered once: the client initiates, and the
    packets go back and forth until both ends are complete. *)
Definition server_connection : Connection :=
  Connection_init (replicate 16 Byte.x07) (replicate 28 Byte.x02) 9 getDefaultConnectionOptions 1000000000.

#[local] Existing Instance Zlib_stored.
#[local] Existing Instance ZlibLaws_stored.

Definition react (i : Input) (c : Connection) : Connection :=
  match handle i (set_clock 1000000000 c) with Some (_, c') => c' | None => c end.
Definition last_arrival (peer : Connection) (from : Address) : Input :=
  match t ← last (transmissions peer); datagram t.1 with
  | Some d => if (receive_into new_Packet d).2 then Arrives (getLookUp (receive_into new_Packet d).1).1 from else Open
  | None => Open
  end.

Definition alice1 : Connection := react Initiate example_connection.                                (* H0 *)
Definition bob1 : Connection := react (last_arrival alice1 (replicate 28 Byte.x02)) server_connection. (* H1 *)
Definition alice2 : Connection := react (last_arrival bob1 (replicate 28 Byte.x01)) alice1.         (* H2 *)
Definition bob2 : Connection := react (last_arrival alice2 (replicate 28 Byte.x02)) bob1.           (* H3 *)
Definition alice3 : Connection := react (last_arrival bob2 (replicate 28 Byte.x01)) alice2.

Example handshake_run :
  (remoteID alice3, waitingFor (handshake alice3), s_status (sender alice3), r_status (receiver alice3)) =
    (9, HANDSHAKE_COMPLETE, OPENED, OPENED) ∧
  (remoteID bob2, waitingFor (handshake bob2), s_status (sender bob2), r_status (receiver bob2)) =
    (5, HANDSHAKE_COMPLETE, OPENED, OPENED) ∧
  unacked alice3 = ∅.
Proof. by vm_compute. Qed.

Lemma react_handle i c :
  (if handle i (set_clock 1000000000 c) then true else false) = true →
  handle i (set_clock 1000000000 c) = Some (tt, react i c).
Proof. unfold react. by destruct (handle i _) as [[[] c']|]. Qed.

Lemma last_arrival_deliverable peer from : deliverable peer (last_arrival peer from).
Proof.
  unfold last_arrival. destruct (last (transmissions peer)) as [t|] eqn:E; [|done]. cbn [mbind option_bind].
  destruct (datagram t.1) as [d|] eqn:Ed; [|done]. destruct (receive_into new_Packet d) as [q []] eqn:Eq; [|done].
  exists t, q. split_and!; [by apply last_Some_elem_of| |done]. exists d, new_Packet. split_and!; [done|apply new_Packet_wf|done].
Qed.

Lemma server_initial : initial server_connection.
Proof. do 5 eexists. split_and!; [done|done|split; simpl; lia|by vm_compute]. Qed.

Lemma handshake_agreement_witness :
  let n := mkNetwork alice3 bob2 in
  (remoteID (alice n) = 0 ∨ remoteID (alice n) = localID (bob n)) ∧
  (remoteID (bob n) = 0 ∨ remoteID (bob n) = localID (alice n)) ∧
  (waitingFor (handshake (alice n)) = HANDSHAKE_COMPLETE → remoteID (alice n) = localID (bob n)) ∧
  (waitingFor (handshake (bob n)) = HANDSHAKE_COMPLETE → remoteID (bob n) = localID (alice n)).
Proof.
  intros n. apply handshake_agreement.
  apply (net_reachable_step (mkNetwork alice2 bob2)); [|eapply (alice_acts _ 1000000000);
    [apply last_arrival_deliverable|apply react_handle; vm_compute; reflexivity]].
  apply (net_reachable_step (mkNetwork alice2 bob1)); [|eapply (bob_acts _ 1000000000);
    [apply last_arrival_deliverable|apply react_handle; vm_compute; reflexivity]].
  apply (net_reachable_step (mkNetwork alice1 bob1)); [|eapply (alice_acts _ 1000000000);
    [apply last_arrival_deliverable|apply react_handle; vm_compute; reflexivity]].
  apply (net_reachable_step (mkNetwork alice1 server_connection)); [|eapply (bob_acts _ 1000000000);
    [apply last_arrival_deliverable|apply react_handle; vm_compute; reflexivity]].
  apply (net_reachable_step (mkNetwork example_connection server_connection)); [|eapply (alice_acts Initiate 1000000000);
    [exact I|apply react_handle; vm_compute; reflexivity]].
  apply net_reachable_init. split; [apply example_initial|]. split; [apply server_initial|].
  split; split; reflexivity.
Defined.
