(* ===== verification/Speaking.v ===== *)
(** * The speaking side of a connection

    Every data packet a connection has ever put on the wire, first transmissions and
    retransmissions alike, holds frames of the stream its user sent: [speaking] relates a
    connection to the packets taken out of its reliable queue and the frames that still wait, and
    every handler keeps it, adding to the stream exactly the data its user's sends had accepted. *)

From S2P Require Import Prelude MemCopy Packet ReceiveQueue Types SendQueue Compression Protocol Float32 Rtt State Retrier Transmit Invariant Sender Connection Closing Wire NetworkPath Lifecycle Socket Agreement.

(** ** Data packets *)

(** The frames of a stream: data, and the close of the stream, which carries none. *)
Definition stream_frame (f : Frame) : Prop :=
  fh_type (f_header f) = DATA ∨ (fh_type (f_header f) = CLOSE_WRITE ∧ f_data f = []).

(** A packet of a speaker whose stream was taken out in the packets [gss]: its reliable data are
    the frames of one of these packets. *)
Record genuine (gss : list (list Frame)) (p : Packet) : Prop := {
  gn_reliable : h_type (p_header p) = DATA_RELIABLE → ∃ gs, gs ∈ gss ∧ packet_frames p gs;
  gn_unreliable : h_type (p_header p) = DATA_UNRELIABLE → ∃ gs, packet_frames p gs ∧ Forall frame_ok gs;
}.

Definition control (t : Z) : Prop := t ≠ DATA_RELIABLE ∧ t ≠ DATA_UNRELIABLE.

Lemma genuine_control gss p : control (h_type (p_header p)) → genuine gss p.
Proof. by intros [? ?]. Qed.

Lemma genuine_mono gss more p : genuine gss p → genuine (gss ++ more) p.
Proof.
  intros [Hr ?]. split; [|done]. intros Ht. destruct (Hr Ht) as (gs&?&?). exists gs.
  split; [|done]. apply elem_of_app. by left.
Qed.

Lemma packet_frames_eq p q gs :
  packet_wf q → payload q = payload p → p_dataSize q = p_dataSize p → packet_frames p gs → packet_frames q gs.
Proof. intros Hq Ep Es (_&?&?&?). split_and!; congruence || done. Qed.

(** Putting a packet on the wire and looking it up at the other end keeps it. *)
Lemma packet_frames_wire c p w gs :
  length (id c) = 16%nat → wire_form c p = Some w → packet_frames p gs → packet_frames (getLookUp w).1 gs.
Proof.
  intros Hid Hw Hp. pose proof Hp as (Hwf&Hs&_). revert Hw. unfold wire_form.
  destruct (Z.eqb_spec (remoteID c) 0) as [E0|E0].
  - destruct (pushData_T _ _) as [[w' b]|] eqn:E; [|done]. intros [= <-].
    destruct (pushData_T_fits (set_connection p 0) (id c)) as (w2&E2&Hw2&Hpay2&_&Hs2);
      [by apply set_header_wf|rewrite Hid; simpl; size_lia|].
    rewrite E in E2. injection E2 as <- _. pose proof (pushData_T_header _ _ _ _ E) as Hh.
    destruct (popData_app w' _ _ Hw2 Hpay2) as (q&Eq&Hq&Hpayq&Hhq). rewrite Hid in Eq.
    unfold getLookUp. rewrite Hh. simpl. change (Z.of_nat 16) with sizeof_LongConnectionID in Eq. rewrite Eq. simpl.
    apply (packet_frames_eq p); [done|exact Hpayq| |exact Hp].
    pose proof (payload_length q Hq) as Hl. pose proof (payload_length p Hwf) as Hl'.
    assert (payload q = payload p) as Epay by exact Hpayq. rewrite Epay in Hl. pose proof (proj2 Hq). pose proof (proj2 Hwf). lia.
  - intros [= <-]. unfold getLookUp. simpl. by rewrite (proj2 (Z.eqb_neq _ _) E0).
Qed.

Lemma genuine_wire c gss p w :
  length (id c) = 16%nat → wire_form c p = Some w → genuine gss p → genuine gss (getLookUp w).1.
Proof.
  intros Hid Hw [Hr Hu]. assert (h_type (p_header (getLookUp w).1) = h_type (p_header p)) as Ht.
  { rewrite getLookUp_header. revert Hw. unfold wire_form. destruct (_ =? 0); [|by intros [= <-]].
    destruct (pushData_T _ _) as [[w' b]|] eqn:E; [|done]. intros [= <-]. by rewrite (pushData_T_header _ _ _ _ E). }
  split; rewrite Ht.
  - intros (gs&?&?)%Hr. exists gs. split; [done|]. by eapply packet_frames_wire.
  - intros (gs&?&?)%Hu. exists gs. split; [|done]. by eapply packet_frames_wire.
Qed.

(** ** The speaking side *)

(** The queue of unreliable frames: nothing compressed. *)
Definition unreliable_queue_ok (q : SendQueue) : Prop :=
  (∃ base fs, sq_rep q base fs ∧ Forall frame_ok fs) ∧ compressionBuffer q = [].

(** [c] has taken the packets [gss] out of its reliable queue, and [rest] waits in it. A closed
    queue takes nothing in and gives nothing out. *)
Record speaking (gss : list (list Frame)) (rest : list Frame) (c : Connection) : Prop := {
  sp_uncompressed : uncompressed (options c);
  sp_id : length (id c) = 16%nat;
  sp_buffer : compressionBuffer (dataQueue (sender c)) = [];
  sp_shut : status (dataQueue (sender c)) = CLOSED → s_status (sender c) = SHUT;
  sp_queue : status (dataQueue (sender c)) = OPEN → sq_rep (dataQueue (sender c)) (length (concat gss)) rest;
  sp_numbered : numbered 0 (concat gss ++ rest);
  sp_frames : Forall stream_frame (concat gss ++ rest);
  sp_unreliable : unreliable_queue_ok (unreliableDataQueue (sender c));
  sp_waiting : ∀ p, waiting c p → genuine gss p;
  sp_sent : Forall (λ t, genuine gss (getLookUp t.1).1) (transmissions c);
}.

(** From [c] to [c'] the speaker said [d]: new frames that carry [d] joined the stream, and some
    frames may have moved from the queue into packets. *)
Definition says (d : bytes) (c c' : Connection) : Prop :=
  ∀ gss rest, speaking gss rest c →
    ∃ more rest' fresh, speaking (gss ++ more) rest' c' ∧
      concat (gss ++ more) ++ rest' = concat gss ++ rest ++ fresh ∧ frames_data fresh = d.

Lemma says_trans d1 d2 c1 c2 c3 : says d1 c1 c2 → says d2 c2 c3 → says (d1 ++ d2) c1 c3.
Proof.
  intros H1 H2 gss rest Hc. destruct (H1 _ _ Hc) as (m1&r1&f1&Hc1&E1&<-).
  destruct (H2 _ _ Hc1) as (m2&r2&f2&Hc2&E2&<-). exists (m1 ++ m2), r2, (f1 ++ f2).
  rewrite app_assoc, frames_data_app. split_and!; [done| |done].
  rewrite E2, (app_assoc _ r1), E1. by rewrite <-!app_assoc.
Qed.

Definition silent : relation Connection := says [].

#[export] Instance silent_preorder : PreOrder silent.
Proof.
  split; [|intros c1 c2 c3; apply says_trans]. intros c gss rest Hc. exists [], rest, [].
  by rewrite !app_nil_r.
Qed.

(** The state [tx] says nothing about. *)
Definition queues (c : Connection) :=
  (coalesce_reliable (options c), coalesce_unreliable (options c),
   dataQueue (sender c), unreliableDataQueue (sender c), s_status (sender c)).

Lemma tx_speaking gss rest c c' :
  tx (genuine gss) c c' → queues c' = queues c → speaking gss rest c → speaking gss rest c'.
Proof.
  intros [Hi Hw (ts&Et&Ht)] Hq [Hu Hid Hb Hsh Hs Hn Hf Hun Hwait Hsent]. unfold identity, queues in *.
  injection Hi as Ei _ _ _ _. injection Hq as Er Eu Ed Eun Ess. split; rewrite ?Ed, ?Eun, ?Ei, ?Ess; try done.
  - unfold uncompressed in *. by rewrite Er, Eu.
  - intros p [?|?]%Hw; auto.
  - rewrite Et. apply Forall_app. split; [done|]. eapply Forall_impl; [|exact Ht].
    intros t (p&Hp&Hok). eapply genuine_wire; [exact Hid|exact Hp|]. naive_solver.
Qed.

(** Everything [speaking] depends on. *)
Definition spoken (c : Connection) := (id c, window (retrier (sender c)), transmissions c, queues c).

Lemma spoken_silent c c' : spoken c' = spoken c → silent c c'.
Proof.
  unfold spoken, queues. intros E gss rest [Hu Hid Hb Hsh Hs Hn Hf Hun Hwait Hsent].
  injection E as Ei Ew Et Er Eu Ed Eun Ess. exists [], rest, []. rewrite !app_nil_r. split; [|done].
  split; rewrite ?Ed, ?Eun, ?Ei, ?Et, ?Ess; try done.
  - unfold uncompressed in *. by rewrite Er, Eu.
  - intros p. unfold waiting. rewrite Ew. apply Hwait.
Qed.

Lemma silent_tx {A} (m : C A) :
  (∀ gss, respects (tx (genuine gss)) m) → respects (same queues) m → respects silent m.
Proof.
  intros Ht Hq c a c' E gss rest Hc. exists [], rest, []. rewrite !app_nil_r. split; [|done].
  eapply tx_speaking; [by eapply Ht|by eapply Hq|done].
Qed.

Lemma tx_frame_queues {A} (m : C A) : respects (same tx_frame) m → respects (same queues) m.
Proof.
  intros Hm c a c' E%Hm. unfold same, tx_frame, queues in *. simplify_eq.
  by repeat match goal with H : _ (_ c') = _ (_ c) |- _ => rewrite H | H : options c' = _ |- _ => rewrite H end.
Qed.

Section speakers.
Context `{!Zlib}.

Lemma silent_modify f : (∀ c, spoken (f c) = spoken c) → respects silent (modify f).
Proof. intros Hf. apply respects_modify. intros. by apply spoken_silent. Qed.

Lemma silent_emit e : transmission e = None → respects silent (emit e).
Proof. intros He. apply silent_modify. intros c. unfold spoken. by rewrite transmissions_silent. Qed.

Lemma silent_statistics f : respects silent (modify_statistics f).
Proof. by apply silent_modify. Qed.

Lemma silent_sender f :
  (∀ s, retrier (f s) = retrier s ∧ dataQueue (f s) = dataQueue s ∧
        unreliableDataQueue (f s) = unreliableDataQueue s ∧ s_status (f s) = s_status s) →
  respects silent (modify_sender f).
Proof.
  intros Hf. apply silent_modify. intros c. unfold spoken, queues. simpl.
  destruct (Hf (sender c)) as (->&->&->&->). done.
Qed.

(** *** Retries and control packets *)

Lemma silent_rt_close : respects silent rt_close.
Proof. apply silent_tx; [intros; apply tx_rt_close|]. unfold rt_close, modify_retrier, modify_sender. frame. Qed.
Lemma silent_recalculateRetryTimeout : respects silent recalculateRetryTimeout.
Proof. apply silent_tx; [intros; apply tx_recalculateRetryTimeout|apply tx_frame_queues; frame]. Qed.
Lemma silent_rt_ack i now d : respects silent (rt_ack i now d).
Proof. apply silent_tx; [intros; apply tx_rt_ack|]. unfold rt_ack, modify_retrier, modify_sender. frame. Qed.
Lemma silent_pr_on now : respects silent (pr_on now).
Proof. apply silent_tx; [intros; apply tx_pr_on|apply tx_frame_queues; frame]. Qed.

Lemma control_sendable gss p : control (h_type (p_header p)) → sendable (genuine gss) p.
Proof.
  intros Hp o p' d. unfold ho_onSend. destruct (_ =? H3).
  - destruct (pushData_T _ _) as [[w b]|] eqn:E; [|done]. intros [= <- _]. apply genuine_control.
    by rewrite (pushData_T_header _ _ _ _ E).
  - intros [= <- _]. by apply genuine_control.
Qed.

Lemma silent_send p a : control (h_type (p_header p)) → respects silent (send p a).
Proof. intros Hp. apply silent_tx; [intros; by apply tx_send, control_sendable|apply tx_frame_queues; frame]. Qed.

Lemma silent_sendReliablyMultipath ps prio :
  Forall (λ p, control (h_type (p_header (pp_packet p)))) ps → respects silent (sendReliablyMultipath ps prio).
Proof.
  intros Hps. apply silent_tx; [intros gss; apply tx_sendReliablyMultipath|apply tx_frame_queues, sendReliablyMultipath_frame].
  eapply Forall_impl; [|exact Hps]. intros p Hp i. split; [by apply genuine_control|by apply control_sendable].
Qed.

Lemma silent_sendReliably p a : control (h_type (p_header p)) → respects silent (sendReliably p a).
Proof. intros Hp. by apply silent_sendReliablyMultipath, Forall_singleton. Qed.
#[local] Hint Resolve silent_emit silent_statistics silent_rt_close silent_recalculateRetryTimeout silent_rt_ack
  silent_pr_on silent_send silent_sendReliably : frame.
#[local] Hint Extern 1 (transmission _ = None) => reflexivity : frame.
#[local] Hint Extern 1 (control _) => (by split) : frame.
#[local] Hint Extern 1 (respects silent (modify_sender _)) =>
  (apply silent_sender; intros []; simpl; by repeat case_decide) : frame.

(** *** The queues *)

Lemma queue_kept r q c : queue_of r (sender c) = q → spoken (upd_sender (set_dataQueue r q) c) = spoken c.
Proof. intros <-. by destruct r. Qed.

Lemma frames_data_nil fs : frames_data fs = [] → Forall (λ f, f_data f = []) fs.
Proof.
  induction fs as [|f fs IH]; [constructor|]. unfold frames_data. simpl.
  intros [? ?]%app_eq_nil. constructor; [done|]. by apply IH.
Qed.

(** The frames of one send join the stream. *)
Lemma says_enqueue t d m c c' :
  on_queue RELIABLE (SendQueue.enqueue t d m) c = Some (tt, c') →
  (uncompressed (options c) → enqueue_ok t d m) → t = DATA ∨ t = CLOSE_WRITE ∧ d = [] →
  says (if decide (status (dataQueue (sender c)) = OPEN) then d else []) c c'.
Proof.
  intros E Hok Ht gss rest Hc. specialize (Hok (sp_uncompressed _ _ _ Hc)).
  unfold on_queue in E. cbn [queue_of] in E. case_decide as Hst; cycle 1.
  { rewrite enqueue_closed in E by (by destruct (status (dataQueue (sender c)))). injection E as <-.
    by apply (spoken_silent c); [apply queue_kept|]. }
  pose proof (sp_queue _ _ _ Hc Hst) as Hq.
  pose proof (enqueue_ok_spec t d m _ _ _ Hq Hst Hok) as He.
  apply wp_some in He as ([]&q'&Eq&new&Hq'&[Es Eb]&Hd&Hty&_). rewrite Eq in E. injection E as <-.
  exists [], (rest ++ new), new. rewrite !app_nil_r. split_and!; [|done|done].
  destruct Hc as [Hu Hid Hb Hsh Hs Hn Hf Hun Hwait Hsent]. split; simpl; try done.
  - congruence.
  - by rewrite Es.
  - rewrite app_assoc. apply numbered_app. split; [done|].
    destruct Hq' as (_&_&_&Hn'&_). apply numbered_app in Hn' as [_ Hn']. by rewrite length_app.
  - rewrite app_assoc. apply Forall_app. split; [done|].
    destruct Ht as [->|[-> ->]]; [eapply Forall_impl; [|exact Hty]; by left|].
    apply frames_data_nil in Hd. eapply Forall_impl; [|exact (List.Forall_and Hty Hd)]. by right.
Qed.

(** The sender's status goes forward only, and closing the queue comes with shutting the sender. *)
Lemma silent_status f :
  (∀ s, retrier (f s) = retrier s ∧ dataQueue (f s) = dataQueue s ∧
        unreliableDataQueue (f s) = unreliableDataQueue s ∧ (s_status s = SHUT → s_status (f s) = SHUT)) →
  respects silent (modify_sender f).
Proof.
  intros Hf c [] c' [= <-] gss rest Hc. exists [], rest, []. rewrite !app_nil_r. split; [|done].
  destruct (Hf (sender c)) as (Er&Ed&Eu&Es), Hc as [Hu Hid Hb Hsh Hs Hn Hfr Hun Hwait Hsent].
  split; simpl; rewrite ?Ed, ?Eu; auto. intros p. unfold waiting. simpl. rewrite Er. apply Hwait.
Qed.

Lemma silent_close_queue c c' :
  s_status (sender c) = SHUT → on_queue RELIABLE SendQueue.close c = Some (tt, c') → silent c c'.
Proof.
  intros Hst [= <-] gss rest Hc. exists [], rest, []. rewrite !app_nil_r. split; [|done].
  destruct Hc as [Hu Hid Hb Hsh Hs Hn Hf Hun Hwait Hsent]. split; simpl; try done; by case_decide.
Qed.

(** A queue of unreliable frames, however it is used. *)
Lemma silent_unreliable {A} (m : M SendQueue A) :
  (∀ q, unreliable_queue_ok q → wp m (λ _, unreliable_queue_ok) q) → respects silent (on_queue UNRELIABLE m).
Proof.
  intros Hm c a c' E gss rest Hc. pose proof (Hm _ (sp_unreliable _ _ _ Hc)) as Hw.
  unfold wp, on_queue in *. cbn [queue_of] in E. destruct (m _) as [[a' q]|]; [|done]. injection E as <- <-.
  exists [], rest, []. rewrite !app_nil_r. split; [|done].
  destruct Hc as [Hu Hid Hb Hsh Hs Hn Hf Hun Hwait Hsent]. by split.
Qed.

Lemma unreliable_enqueue t d m q :
  unreliable_queue_ok q → enqueue_ok t d m →
  (t = DATA ∨ t = ACK_FRAME ∧ (4 ≤ length d)%nat ∧ m = MRUDP_COALESCE_PACKET) →
  wp (SendQueue.enqueue t d m) (λ _, unreliable_queue_ok) q.
Proof.
  intros [(base&fs&Hq&Hf) Hb] Hok Ht. destruct (status q) eqn:Hst; cycle 1.
  { unfold wp. rewrite enqueue_closed by done. split; [by exists base, fs|done]. }
  eapply wp_mono; [by eapply enqueue_ok_spec|]. intros [] q' (new&Hq'&[_ Eb]&Hd&Hty&Hone).
  split; [|congruence]. exists base, (fs ++ new). split; [done|]. apply Forall_app. split; [done|].
  destruct Ht as [->|(->&Hlen&->)].
  - eapply Forall_impl; [|exact Hty]. intros f Hf'. simpl in Hf'. by split; rewrite Hf'.
  - destruct Hone as (g&->); [done|]. apply Forall_cons_1 in Hty as [Hty _]. apply Forall_singleton.
    simpl in Hty. split; [|by rewrite Hty]. intros _. unfold frames_data in Hd. simpl in Hd. rewrite app_nil_r in Hd. by rewrite Hd.
Qed.

Lemma unreliable_empty st q :
  unreliable_queue_ok q → unreliable_queue_ok (mkSendQueue st (frameIDGenerator q) [] []).
Proof.
  intros [(base&fs&Hq&_) Hb]. destruct (sq_ok_empty q st) as [(base'&fs'&Hq') ?]; [by split; [exists base, fs|]|].
  split; [|done]. exists base', fs'. split; [done|]. by rewrite (sq_rep_empty _ _ _ Hq').
Qed.

Lemma silent_clear : respects silent (on_queue UNRELIABLE SendQueue.clear).
Proof. apply silent_unreliable. intros q Hq. apply wp_modify. exact (unreliable_empty (status q) q Hq). Qed.
Lemma silent_close_unreliable : respects silent (on_queue UNRELIABLE SendQueue.close).
Proof.
  apply silent_unreliable. intros q Hq. apply wp_modify. case_decide; [done|].
  rewrite (proj2 Hq). by apply unreliable_empty.
Qed.

Lemma silent_enqueue_ack i d : 
  respects silent (on_queue UNRELIABLE (SendQueue.enqueue ACK_FRAME (encode_Ack (mkAck i (u16 d))) MRUDP_COALESCE_PACKET)).
Proof.
  apply silent_unreliable. intros q Hq. apply unreliable_enqueue; [done| |].
  - split_and!; [done|done|]. left. unfold encode_Ack. rewrite length_app, !le_encode_length. by vm_compute.
  - right. split_and!; [done| |done]. unfold encode_Ack. rewrite length_app, !le_encode_length. simpl. lia.
Qed.

(** A queue after its first packet is taken out. *)
Lemma sq_rep_tail q base fs p l :
  sq_rep q base fs → SendQueue.queue q = p :: l →
  ∃ gs rest, fs = gs ++ rest ∧ packet_frames p gs ∧ sq_rep (set_queue l q) (base + length gs) rest.
Proof.
  intros (fss&Hf&->&Hn&Hg) Eq. rewrite Eq in Hf.
  apply Forall2_cons_inv_l in Hf as (gs&fss'&Hp&Hf&->). exists gs, (concat fss').
  split_and!; [done|done|]. simpl in Hn, Hg. apply numbered_app in Hn as [_ Hn]. exists fss'.
  split_and!; [done|done|done|]. simpl. rewrite Hg, length_app. f_equal. lia.
Qed.

Lemma packet_frames_header p h gs : packet_frames p gs → packet_frames (set_header p h) gs.
Proof. intros Hp. apply (packet_frames_eq p); try done. apply set_header_wf, Hp. Qed.

Lemma silent_reliable_loop fuel : respects silent (processReliableDataQueue_loop fuel).
Proof.
  induction fuel as [|fuel IH]; cbn [processReliableDataQueue_loop]; [apply (respects_ub _)|].
  unfold numUnacked. apply (respects_bind _); [frame|]. intros n. apply (respects_bind _); [frame|]. intros w.
  destruct (n <? w); [|frame]. apply (respects_bind _); [frame|]. intros level.
  intros c [] c' (r&c1&E1&E2)%bind_some gss rest Hc. unfold on_queue in E1. cbn [queue_of] in E1.
  rewrite dequeue_uncompressed in E1 by apply Hc.
  assert (∀ c1, spoken c1 = spoken c → (mret tt : C unit) c1 = Some (tt, c') → ∃ more rest' fresh,
    speaking (gss ++ more) rest' c' ∧ concat (gss ++ more) ++ rest' = concat gss ++ rest ++ fresh ∧
    frames_data fresh = []) as Hstop.
  { intros c2 Es [= <-]. by apply (spoken_silent c). }
  case_decide as Hst; [injection E1 as <- <-; by apply (Hstop _ (queue_kept RELIABLE _ _ eq_refl))|].
  destruct (SendQueue.queue (dataQueue (sender c))) as [|p l] eqn:Eq;
    [injection E1 as <- <-; by apply (Hstop _ (queue_kept RELIABLE _ _ eq_refl))|]. injection E1 as <- <-.
  apply bind_some in E2 as ([]&c2&E2&E3). pose proof Hc as [Hu Hid Hb Hsh Hs Hn Hf Hun Hwait Hsent].
  destruct (sq_rep_tail _ _ _ _ _ (Hs ltac:(by destruct (status _))) Eq) as (gs&rest'&->&Hp&Hq).
  set (c1 := upd_sender _ c) in *.
  assert (speaking (gss ++ [gs]) rest' c1) as Hc1.
  { split; simpl; rewrite ?concat_app; simpl; rewrite ?app_nil_r, <-?app_assoc; try done.
    - intros _. by rewrite length_app.
    - intros q Hq'. by apply genuine_mono, Hwait.
    - eapply Forall_impl; [|exact Hsent]. intros; by apply genuine_mono. }
  assert (speaking (gss ++ [gs]) rest' c2) as Hc2.
  { eapply tx_speaking; [|by eapply tx_frame_queues, E2; apply sendReliably_frame|exact Hc1].
    eapply tx_sendReliably; [|exact E2]. intros i.
    assert (genuine (gss ++ [gs]) (set_id (set_type p DATA_RELIABLE) i)) as Hg.
    { split; [|done]. intros _. exists gs. split; [apply elem_of_app; right; by left|].
      by do 2 apply packet_frames_header. }
    split; [done|]. by apply sendable_not_H3. }
  destruct (IH _ _ _ E3 _ _ Hc2) as (more&rest2&fresh&Hc'&E&Hd).
  exists ([gs] ++ more), rest2, fresh. rewrite app_assoc. split_and!; [done| |done].
  rewrite E, concat_app. simpl. by rewrite app_nil_r, <-!app_assoc.
Qed.

Lemma silent_unreliable_loop fuel : respects silent (processUnreliableDataQueue_loop fuel).
Proof.
  induction fuel as [|fuel IH]; cbn [processUnreliableDataQueue_loop]; [apply (respects_ub _)|].
  apply (respects_bind _); [frame|]. intros level.
  intros c [] c' (r&c1&E1&E2)%bind_some gss rest Hc. unfold on_queue in E1. cbn [queue_of] in E1.
  rewrite dequeue_uncompressed in E1 by apply (sp_unreliable _ _ _ Hc).
  case_decide as Hst.
  { injection E1 as <- <-. injection E2 as <-. by apply (spoken_silent c); [apply (queue_kept UNRELIABLE)|]. }
  destruct (SendQueue.queue (unreliableDataQueue (sender c))) as [|p l] eqn:Eq; injection E1 as <- <-.
  { injection E2 as <-. by apply (spoken_silent c); [apply (queue_kept UNRELIABLE)|]. }
  apply bind_some in E2 as ([]&c2&E2&E3). pose proof Hc as [Hu Hid Hb Hsh Hs Hn Hf [(base&fs&Hq&Hfs) Hub] Hwait Hsent].
  destruct (sq_rep_tail _ _ _ _ _ Hq Eq) as (gs&rest'&->&Hp&Hq'). apply Forall_app in Hfs as [Hgs Hfs].
  set (c1 := upd_sender _ c) in *.
  assert (speaking gss rest c1) as Hc1.
  { split; simpl; try done. split; [|done]. by exists (base + length gs)%nat, rest'. }
  assert (speaking gss rest c2) as Hc2.
  { eapply tx_speaking; [|by eapply tx_frame_queues, E2; apply send_frame|exact Hc1].
    eapply tx_send; [|exact E2]. apply sendable_not_H3; [done|]. split; [done|]. intros _.
    exists gs. split; [by apply packet_frames_header|done]. }
  by apply (IH _ _ _ E3).
Qed.
#[local] Hint Resolve silent_close_unreliable silent_clear silent_enqueue_ack
  silent_reliable_loop silent_unreliable_loop : frame.

Lemma silent_processDataQueue r : respects silent (processDataQueue r).
Proof.
  destruct r; cbn [processDataQueue].
  - unfold processUnreliableDataQueue, queueDelayedAcks. frame.
  - unfold processReliableDataQueue. frame.
Qed.
#[local] Hint Resolve silent_processDataQueue : frame.
Lemma silent_scheduleDataQueueProcessing r b : respects silent (scheduleDataQueueProcessing r b).
Proof. unfold scheduleDataQueueProcessing. frame. Qed.
#[local] Hint Resolve silent_scheduleDataQueueProcessing : frame.
Lemma silent_processSchedule r : respects silent (processSchedule r).
Proof. unfold processSchedule. frame. Qed.

Lemma close_write_ok : enqueue_ok CLOSE_WRITE [] MRUDP_COALESCE_PACKET.
Proof. split_and!; [done|done|by left]. Qed.

Lemma silent_s_close : respects silent s_close.
Proof.
  unfold s_close. apply (respects_bind _); [frame|]. intros c0. case_decide; [frame|].
  apply (respects_bind _); [|intros _; by apply silent_status]. unfold s_enqueue.
  apply (respects_bind _); [|intros _; frame]. intros c [] c' E. apply says_enqueue in E; [|intros _; apply close_write_ok|by right]. by case_decide.
Qed.

Lemma silent_s_open : respects silent s_open.
Proof.
  unfold s_open. apply (respects_bind _); [|intros _; frame]. apply silent_status. intros s.
  case_decide as E; [|done]. simpl. split_and!; [done..|]. by rewrite E.
Qed.
Lemma silent_s_fail : respects silent s_fail.
Proof.
  unfold s_fail. set (shut := λ s : Sender, _). intros c [] c' ([]&c1&E1&([]&c2&E2&([]&c3&E3&E4)%bind_some)%bind_some)%bind_some.
  assert (∀ s, s_status (shut s) = SHUT) as Hshut by (intros s; unfold shut; by case_decide).
  transitivity c1; [eapply silent_status; [|exact E1]; intros s; split_and!; [unfold shut; by case_decide..|by intros]|].
  transitivity c2; [by eapply silent_rt_close|]. transitivity c3; [|by eapply silent_close_unreliable].
  eapply silent_close_queue; [|exact E3]. injection E1 as <-. injection E2 as <-. simpl. apply Hshut.
Qed.
Lemma silent_s_ack i : respects silent (s_ack i).
Proof. unfold s_ack. frame. Qed.
#[local] Hint Resolve silent_processSchedule silent_s_close silent_s_open silent_s_fail silent_s_ack : frame.

(** *** The connection *)

#[local] Hint Extern 2 (silent _ _) => (by apply spoken_silent) : frame.
Lemma silent_closeUser e : respects silent (closeUser e).
Proof. unfold closeUser. frame. Qed.
#[local] Hint Resolve silent_closeUser : frame.
Lemma silent_close_event e : respects silent (close_event e).
Proof. unfold close_event, finishWhenReady. frame. Qed.
#[local] Hint Resolve silent_close_event : frame.
Lemma silent_possiblyClose : respects silent possiblyClose.
Proof. unfold possiblyClose. frame. Qed.
#[local] Hint Resolve silent_possiblyClose : frame.
Lemma silent_onAck a : respects silent (onAck a).
Proof. unfold onAck. frame. Qed.
#[local] Hint Resolve silent_onAck : frame.
Lemma silent_s_onReceive p : respects silent (s_onReceive p).
Proof. unfold s_onReceive, onAck_packet. frame. Qed.
Lemma silent_receive_data d r : respects silent (receive_data d r).
Proof. unfold receive_data. frame. Qed.
Lemma silent_rc_close : respects silent rc_close.
Proof. unfold rc_close. frame. Qed.
Lemma silent_rc_fail : respects silent rc_fail.
Proof. unfold rc_fail. apply silent_modify. intros c. by case_decide. Qed.
#[local] Hint Resolve silent_s_onReceive silent_receive_data silent_rc_close silent_rc_fail : frame.
Lemma silent_fail e : respects silent (fail e).
Proof. unfold fail, pr_close. frame. Qed.
#[local] Hint Resolve silent_fail : frame.

Lemma silent_set_receiver r c : silent c (set_receiver r c).
Proof. by apply spoken_silent. Qed.
Lemma silent_processReceived r f : respects silent (processReceived r f).
Proof.
  unfold processReceived. frame. apply (respects_on_receiveBuffer _); [apply silent_set_receiver|].
  intros; apply silent_receive_data.
Qed.
Lemma silent_rc_open i : respects silent (rc_open i).
Proof. apply (respects_rc_open _); [apply silent_set_receiver|apply silent_processReceived]. Qed.
Lemma silent_rc_onReceive p : respects silent (rc_onReceive p).
Proof. apply (respects_rc_onReceive _); [apply silent_set_receiver|apply silent_processReceived|apply silent_s_ack]. Qed.
#[local] Hint Resolve silent_rc_open silent_rc_onReceive : frame.

Lemma silent_user_close : respects silent user_close.
Proof. unfold user_close, close. frame. Qed.
Lemma silent_pr_onTimeout : respects silent pr_onTimeout.
Proof. unfold pr_onTimeout, registerTimeout. frame. Qed.
Lemma silent_onHandshakeComplete : respects silent onHandshakeComplete.
Proof. unfold onHandshakeComplete. frame. Qed.
#[local] Hint Resolve silent_onHandshakeComplete : frame.

Lemma silent_resends l c c' :
  (∀ path, path ∈ l → waiting c (pp_packet path)) →
  mapM_ (λ p, resend (pp_packet p) (pp_address p)) l c = Some (tt, c') → silent c c'.
Proof.
  intros Hl E gss rest Hc. exists [], rest, []. rewrite !app_nil_r. split; [|done].
  eapply tx_speaking; [by eapply tx_resends| |done].
  revert E. apply tx_frame_queues. apply (respects_mapM _). intros. apply resend_frame.
Qed.

Lemma silent_set_retry i y c c' :
  (∃ x, window (retrier (sender c)) !! i = Some x ∧ paths x = paths y) →
  set_retry i y c = Some (tt, c') → silent c c'.
Proof.
  intros Hx E gss rest Hc. exists [], rest, []. rewrite !app_nil_r. split; [|done].
  eapply tx_speaking; [by eapply tx_set_retry| |done]. by injection E as <-.
Qed.

Lemma silent_onRetryTimeout : respects silent onRetryTimeout.
Proof.
  intros c [] c'. unfold onRetryTimeout. intros (?&?&[= <- <-]&(next&c0&En&E)%bind_some)%bind_some.
  apply getNextRetry_some in En as [-> Hres]. destruct next as [[i x]|]; [|by injection E as <-].
  specialize (Hres i x eq_refl). destruct (_ <? _); [|by eapply silent_recalculateRetryTimeout].
  apply bind_some in E as (?&?&[= <- <-]&E). destruct (_ <=? _); [by eapply silent_fail|].
  apply bind_some in E as ([]&c1&E1&([]&c2&E2&E3)%bind_some).
  transitivity c1; [eapply silent_set_retry; [|exact E1]; eauto|]. transitivity c2.
  - eapply silent_resends; [|exact E2]. intros path Hp. injection E1 as <-.
    eexists i, _, path. split_and!; [apply lookup_insert_eq|done|done].
  - enough (respects silent (modify_sender (λ s, set_rtt (RTT_onAckFailure (rtt s)) s);;
      r ← gets (λ c, rtt (sender c)); w ← lift (WindowSize_onSample r);
      modify_sender (set_windowSize w);; recalculateRetryTimeout)) as Hr by exact (Hr _ _ _ E3).
    frame.
Qed.

(** *** Packets that arrive *)

Lemma silent_ho_onReceive p : respects silent (ho_onReceive p).
Proof. unfold ho_onReceive. frame. Qed.

Lemma silent_handlePacket p : respects silent (handlePacket p).
Proof.
  assert (∀ t i d (c : Connection) q b c', control t → lift (pushData_T (set_id (set_type new_Packet t) i) d) c = Some ((q, b), c') →
    c' = c ∧ control (h_type (p_header q))) as Hpush.
  { intros t i d c q b c' Ht. unfold lift. destruct (pushData_T _ _) as [[w b']|] eqn:E; [|done].
    intros [= <- _ <-]. split; [done|]. by rewrite (pushData_T_header _ _ _ _ E). }
  unfold handlePacket. destruct (_ =? Packet.H0); [frame; case_match; frame|].
  destruct (_ =? H1).
  { apply (respects_bind _); [frame|]. intros c0. apply (respects_bind _); [|frame]. apply (respects_when _).
    apply (respects_bind _); [frame|]. intros _ c [] c' ([q b]&c1&E1&E2)%bind_some.
    apply (Hpush H2 (h_id (p_header new_Packet))) in E1 as [-> Hq]; [|done]. by eapply silent_sendReliably. }
  destruct (_ =? H2).
  { destruct (readRemoteID p) as [p' r]. apply (respects_bind _); [frame|]. intros c0 c q c' ([w b]&c1&E1&E2)%bind_some.
    apply Hpush in E1 as [-> Hq]; [|done]. enough (respects silent (send w None;; c ← mget;
      when (waitingFor (handshake c) =? H2) (
        modify (λ c, set_handshake (mkHandshake HANDSHAKE_COMPLETE (u16 (h_id (p_header p') + 1))) (set_remoteID r c));;
        onHandshakeComplete);; mret p')) as Hr by exact (Hr _ _ _ E2).
    frame. }
  destruct (_ =? H3); [|frame]. destruct (readRemoteID p) as [p' r]. frame.
Qed.

Lemma silent_sendChallenge a : respects silent (sendChallenge a).
Proof.
  unfold sendChallenge. intros c [] c'.
  intros (?&?&[= <- <-]&(p1&c1&E1&(p2&c2&E2&E)%bind_some)%bind_some)%bind_some.
  unfold lift in E1, E2.
  destruct (challenge_packet _ None) as [q1|] eqn:Eq1; [|done].
  destruct (challenge_packet _ (Some a)) as [q2|] eqn:Eq2; [|done]. simplify_eq/=.
  apply challenge_packet_type in Eq1, Eq2. eapply silent_sendReliablyMultipath; [|exact E].
  repeat constructor; simpl; by rewrite ?Eq1, ?Eq2.
Qed.

Lemma silent_np_onReceive p from : respects silent (np_onReceive p from).
Proof.
  unfold np_onReceive, sendChallengeResponse, onRemoteAddressChanged. pose proof silent_sendChallenge.
  apply (respects_bind _); [frame|]. intros c0. destruct (_ =? _); [frame|]. destruct (Address_neqb _ _); [|frame].
  destruct (_ =? _); [|frame]. destruct (verifyChallengeResponse _ _ _) as [q []]; frame.
Qed.

Lemma silent_receive p from : respects silent (receive p from).
Proof.
  unfold receive, hs_onReceive.
  pose proof silent_ho_onReceive. pose proof silent_np_onReceive. pose proof silent_handlePacket. frame.
Qed.

(** *** All inputs *)

(** What a user may ask for: options without compression, and data whose size is an [int]. *)
Definition well_used (i : Input) (c : Connection) : Prop :=
  match i with
  | OpenUser (Some o) _ _ => uncompressed (merge o (options c))
  | UserSend data _ => Z.of_nat (length data) < 2 ^ 31
  | _ => True
  end.

(** The data an input adds to the reliable stream: what [send] accepts. *)
Definition accepted (i : Input) (c : Connection) : bytes :=
  match i with
  | UserSend data RELIABLE =>
    match send_data data RELIABLE c with Some (code, _) => if code =? OK then data else [] | None => [] end
  | _ => []
  end.

Lemma data_ok m d :
  m ≠ MRUDP_COALESCE_STREAM_COMPRESSED → Z.of_nat (length d) < 2 ^ 31 →
  (MAX_PACKET_DATA_SIZE <? Z.of_nat (length d)) && negb (m =? MRUDP_COALESCE_STREAM) &&
    negb (m =? MRUDP_COALESCE_STREAM_COMPRESSED) = false → enqueue_ok DATA d m.
Proof.
  intros Hm Hd Hs. split_and!; [done|done|]. destruct (Z.ltb_spec MAX_PACKET_DATA_SIZE (Z.of_nat (length d))); [|by left].
  right. split; [|done]. rewrite (proj2 (Z.eqb_neq _ _) Hm) in Hs. simpl in Hs. rewrite andb_true_r in Hs.
  by apply negb_false_iff, Z.eqb_eq in Hs.
Qed.

Lemma says_send_data d r c code c' :
  send_data d r c = Some (code, c') → Z.of_nat (length d) < 2 ^ 31 →
  says (match r with RELIABLE => if code =? OK then d else [] | UNRELIABLE => [] end) c c'.
Proof.
  unfold send_data. intros ([]&c1&[= <-]&E)%bind_some Hd. set (c1 := set_statistics _ c) in *.
  enough (says (match r with RELIABLE => if code =? OK then d else [] | UNRELIABLE => [] end) c1 c') as Hs.
  { rewrite <-(app_nil_l (match r with RELIABLE => _ | UNRELIABLE => _ end)). eapply says_trans; [|exact Hs]. by apply (spoken_silent c c1). }
  unfold s_send in E. apply bind_some in E as (?&?&[= <- <-]&E).
  case_decide as Hsh; [injection E as <- <-; by destruct r; apply (reflexivity (R := silent))|].
  destruct (_ && _) eqn:Eb; [injection E as <- <-; by destruct r; apply (reflexivity (R := silent))|].
  apply bind_some in E as ([]&c2&E&[= <- <-]). unfold s_enqueue in E. apply bind_some in E as ([]&c3&E1&E2).
  assert (silent c3 c2) as H2.
  { enough (respects silent (c ← mget; when (isReadyToSend c) (scheduleDataQueueProcessing r false))) as Hr by exact (Hr _ _ _ E2).
    frame. }
  destruct r; cbn [Z.eqb OK].
  - eapply (says_trans [] []); [|exact H2]. intros gss rest Hc. eapply silent_unreliable; [|exact E1|exact Hc]. intros q Hq.
    apply unreliable_enqueue; [done| |by left]. apply data_ok; [apply Hc|done|done].
  - rewrite <-(app_nil_r d). eapply says_trans; [|exact H2]. intros gss rest Hc.
    pose proof (sp_shut _ _ _ Hc) as Hshut. revert gss rest Hc.
    apply says_enqueue in E1; [|intros Hu; apply data_ok; [apply Hu|done|done]|by left].
    rewrite decide_True in E1; [done|]. destruct (status _) eqn:Est; [done|]. by specialize (Hshut eq_refl).
Qed.

(** Every input adds to the stream exactly the data it accepts. *)
Lemma handle_says i c c' : handle i c = Some (tt, c') → well_used i c → says (accepted i c) c c'.
Proof.
  assert (∀ m, respects silent m → m c = Some (tt, c') → silent c c') as Hm by (intros m Hm; apply Hm).
  intros E Hu. destruct i; cbn [handle accepted] in *.
  - by eapply Hm, E; apply silent_receive.
  - by eapply Hm, E; apply silent_onRetryTimeout.
  - by eapply Hm, E; apply silent_pr_onTimeout.
  - by eapply Hm, E; apply silent_emit.
  - by eapply Hm, E; apply silent_processSchedule.
  - unfold openUser in E. apply bind_some in E as ([]&c1&[= <-]&E). set (c1 := match o with Some _ => _ | None => _ end) in *.
    apply (says_trans [] [] _ c1); cycle 1.
    { enough (respects silent (c ← mget; when (userDataDisposed c) (modify (set_user rh ch false)))) as Hr by exact (Hr _ _ _ E).
      frame. }
    intros gss rest Hc. exists [], rest, []. rewrite !app_nil_r. split; [|done]. unfold c1.
    destruct o; [|done]. destruct Hc. by split.
  - eapply Hm, E. unfold open. frame.
  - eapply Hm, E. unfold initiate. frame.
  - apply bind_some in E as (code&c1&E&[= <-]). pose proof (says_send_data _ _ _ _ _ E Hu) as Hs. by destruct r; [|rewrite E].
  - by eapply Hm, E; apply silent_user_close.
  - by eapply Hm, E; apply silent_close_event.
Qed.
End speakers.
