(* ===== verification/Hearing.v ===== *)
(** * The hearing side of a connection

    What a connection hands to its user of the peer's reliable stream: [hearing] relates a
    connection to the data packets that have reached its receive queue, and every handler keeps
    it. Other packets, timers and calls hand over nothing. *)

From S2P Require Import Prelude MemCopy Packet ReceiveQueue Types SendQueue Compression Protocol Float32 Rtt State Retrier Transmit Invariant Sender Connection Closing Wire NetworkPath Lifecycle Socket Agreement Speaking.

(** ** The queue between packets *)

(** The frame expected next is not waiting: it would have been handed over. *)
Definition settled (rq : ReceiveQueue) : Prop := ReceiveQueue.queue rq !! expectedID rq = None.

Lemma processQueue_loop_settled fuel st :
  match processQueue_loop tracer fuel st with Some (_, (rq, _)) => settled rq | None => True end.
Proof.
  revert st. induction fuel as [|fuel IH]; intros [rq log]; [done|]. cbn [processQueue_loop].
  unfold processNext, mbind, M_bind, gets. cbn [fst].
  destruct (ReceiveQueue.queue rq !! expectedID rq) as [f|] eqn:E; [|done]. cbn. apply IH.
Qed.

Lemma onReceive_frame_settled f rq log :
  settled rq → match onReceive_frame tracer f (rq, log) with Some (_, (rq', _)) => settled rq' | None => True end.
Proof.
  intros Hs. unfold onReceive_frame, mbind, M_bind, gets. cbn [fst].
  destruct (Z.eqb_spec (fh_id (f_header f)) (expectedID rq)) as [E|E].
  - cbn. apply processQueue_loop_settled.
  - destruct (id_greater_than _ _); [|done]. unfold ReceiveQueue.enqueue, modify.
    destruct (ReceiveQueue.queue rq !! fh_id (f_header f)); [done|]. unfold settled in *. simpl.
    by rewrite lookup_insert_ne.
Qed.

Lemma onReceive_settled p rq log rq' log' :
  settled rq → onReceive tracer p (rq, log) = Some (tt, (rq', log')) → settled rq'.
Proof.
  rewrite onReceive_parse. revert rq log. induction (parse_frames (payload p)) as [|f fs IH]; intros rq log Hs; simpl.
  { by intros [= <- _]. }
  unfold mbind, M_bind. pose proof (onReceive_frame_settled f rq log Hs) as Hf.
  destruct (onReceive_frame tracer f (rq, log)) as [[[] [rq1 log1]]|]; [|done]. by apply IH.
Qed.

Lemma processQueue_settled rq log : settled rq → processQueue tracer (rq, log) = Some (tt, (rq, log)).
Proof.
  intros Hs. unfold processQueue, mbind, M_bind, gets. cbn [fst]. cbn [processQueue_loop].
  unfold processNext, mbind, M_bind, gets. cbn [fst]. by rewrite Hs.
Qed.

(** ** Handlers that hand over nothing *)

(** The reliable data handed to the user. *)
Definition delivered (c : Connection) : list bytes :=
  omap (λ e, match e with Received d RELIABLE => Some d | _ => None end) (events c).

Definition unheard (e : Event) : Prop := match e with Received _ RELIABLE => False | _ => True end.

Lemma delivered_unheard e c : unheard e → delivered (add_event e c) = delivered c.
Proof.
  intros He. unfold delivered. simpl. rewrite omap_app. simpl.
  destruct e as [| |? []| | |]; simpl; by rewrite ?app_nil_r.
Qed.

(** From [c] to [c'] nothing is handed over, and a handler that is gone stays so. *)
Definition deaf (c c' : Connection) : Prop :=
  settled (receiveQueue (receiver c)) →
    receiveQueue (receiver c') = receiveQueue (receiver c) ∧ delivered c' = delivered c ∧
    (receiveHandler c' = true → receiveHandler c = true).

#[export] Instance deaf_preorder : PreOrder deaf.
Proof.
  split; [done|]. intros c1 c2 c3 H1 H2 Hs. destruct (H1 Hs) as (Eq&Ed&Hh).
  rewrite <-Eq in Hs. destruct (H2 Hs) as (?&?&?). split_and!; [congruence|congruence|auto].
Qed.

(** What [deaf] depends on. *)
Definition ears (c : Connection) := (receiveQueue (receiver c), receiveHandler c, events c).

Lemma ears_deaf c c' : ears c' = ears c → deaf c c'.
Proof. unfold ears. intros [= Eq Eh Ee] _. unfold delivered. by rewrite Eq, Eh, Ee. Qed.

Section listeners.
Context `{!Zlib}.

Lemma deaf_emit e : unheard e → respects deaf (emit e).
Proof. intros He. apply respects_modify. intros c Hs. by rewrite delivered_unheard. Qed.

#[local] Hint Resolve deaf_emit : frame.
#[local] Hint Extern 1 (unheard _) => exact I : frame.
#[local] Hint Extern 2 (deaf _ _) => (by apply ears_deaf) : frame.
#[local] Hint Extern 1 (respects deaf (modify_sender _)) => (apply respects_modify; intros ?; by apply ears_deaf) : frame.
#[local] Hint Extern 1 (respects deaf (modify_retrier _)) => (apply respects_modify; intros ?; by apply ears_deaf) : frame.
#[local] Hint Extern 1 (respects deaf (modify_statistics _)) => (apply respects_modify; intros ?; by apply ears_deaf) : frame.

Lemma deaf_on_queue {A} r (m : M SendQueue A) : respects deaf (on_queue r m).
Proof.
  intros c a c'. unfold on_queue. destruct (m _) as [[a' q]|]; [|done]. intros [= <- <-]. by apply ears_deaf.
Qed.
#[local] Hint Resolve deaf_on_queue : frame.

Lemma deaf_pr_on now : respects deaf (pr_on now).
Proof. unfold pr_on, recalculateProbeTimeout, registerTimeout. frame. Qed.
Lemma deaf_getNextRetry : respects deaf getNextRetry.
Proof. unfold getNextRetry. frame. Qed.
#[local] Hint Resolve deaf_pr_on deaf_getNextRetry : frame.
Lemma deaf_recalculateRetryTimeout : respects deaf recalculateRetryTimeout.
Proof. unfold recalculateRetryTimeout, set_retry. frame. Qed.
Lemma deaf_send_ p a : respects deaf (send_ p a).
Proof. unfold send_. frame. Qed.
#[local] Hint Resolve deaf_recalculateRetryTimeout deaf_send_ : frame.
Lemma deaf_send p a : respects deaf (send p a).
Proof. unfold send. frame. Qed.
Lemma deaf_resend p a : respects deaf (resend p a).
Proof. unfold resend. frame. Qed.
#[local] Hint Resolve deaf_send deaf_resend : frame.
Lemma deaf_sendReliablyMultipath ps prio : respects deaf (sendReliablyMultipath ps prio).
Proof. unfold sendReliablyMultipath, rt_insert. frame. Qed.
#[local] Hint Resolve deaf_sendReliablyMultipath : frame.
Lemma deaf_sendReliably p a : respects deaf (sendReliably p a).
Proof. unfold sendReliably. frame. Qed.
#[local] Hint Resolve deaf_sendReliably : frame.

Lemma deaf_reliable_loop fuel : respects deaf (processReliableDataQueue_loop fuel).
Proof. induction fuel as [|fuel IH]; cbn [processReliableDataQueue_loop]; unfold numUnacked; frame. Qed.
Lemma deaf_unreliable_loop fuel : respects deaf (processUnreliableDataQueue_loop fuel).
Proof. induction fuel as [|fuel IH]; cbn [processUnreliableDataQueue_loop]; frame. Qed.
#[local] Hint Resolve deaf_reliable_loop deaf_unreliable_loop : frame.
Lemma deaf_processDataQueue r : respects deaf (processDataQueue r).
Proof.
  destruct r; cbn [processDataQueue].
  - unfold processUnreliableDataQueue, queueDelayedAcks. frame.
  - unfold processReliableDataQueue. frame.
Qed.
#[local] Hint Resolve deaf_processDataQueue : frame.
Lemma deaf_scheduleDataQueueProcessing r b : respects deaf (scheduleDataQueueProcessing r b).
Proof. unfold scheduleDataQueueProcessing. frame. Qed.
#[local] Hint Resolve deaf_scheduleDataQueueProcessing : frame.
Lemma deaf_processSchedule r : respects deaf (processSchedule r).
Proof. unfold processSchedule. frame. Qed.
Lemma deaf_s_enqueue t d r m : respects deaf (s_enqueue t d r m).
Proof. unfold s_enqueue. frame. Qed.
Lemma deaf_s_open : respects deaf s_open.
Proof. unfold s_open. frame. Qed.
Lemma deaf_s_fail : respects deaf s_fail.
Proof. unfold s_fail, rt_close. frame. Qed.
Lemma deaf_s_ack i : respects deaf (s_ack i).
Proof. unfold s_ack. frame. Qed.
#[local] Hint Resolve deaf_processSchedule deaf_s_enqueue deaf_s_open deaf_s_fail deaf_s_ack : frame.
Lemma deaf_s_close : respects deaf s_close.
Proof. unfold s_close. frame. Qed.
Lemma deaf_closeUser e : respects deaf (closeUser e).
Proof. unfold closeUser. frame. Qed.
#[local] Hint Resolve deaf_s_close deaf_closeUser : frame.
Lemma deaf_close_event e : respects deaf (close_event e).
Proof. unfold close_event, finishWhenReady. frame. Qed.
#[local] Hint Resolve deaf_close_event : frame.
Lemma deaf_possiblyClose : respects deaf possiblyClose.
Proof. unfold possiblyClose. frame. Qed.
#[local] Hint Resolve deaf_possiblyClose : frame.
Lemma deaf_onAck a : respects deaf (onAck a).
Proof. unfold onAck, rt_ack. frame. Qed.
#[local] Hint Resolve deaf_onAck : frame.
Lemma deaf_s_onReceive p : respects deaf (s_onReceive p).
Proof. unfold s_onReceive, onAck_packet. frame. Qed.
Lemma deaf_rc_close : respects deaf rc_close.
Proof. unfold rc_close. frame. Qed.
Lemma deaf_rc_fail : respects deaf rc_fail.
Proof. unfold rc_fail. apply respects_modify. intros c. case_decide; [done|by apply ears_deaf]. Qed.
#[local] Hint Resolve deaf_s_onReceive deaf_rc_close deaf_rc_fail : frame.
Lemma deaf_fail e : respects deaf (fail e).
Proof. unfold fail, pr_close. frame. Qed.
#[local] Hint Resolve deaf_fail : frame.
Lemma deaf_user_close : respects deaf user_close.
Proof. unfold user_close, close. frame. Qed.
Lemma deaf_send_data d r : respects deaf (send_data d r).
Proof. unfold send_data, s_send. frame. Qed.
Lemma deaf_pr_onTimeout : respects deaf pr_onTimeout.
Proof. unfold pr_onTimeout, registerTimeout. frame. Qed.
Lemma deaf_onRetryTimeout : respects deaf onRetryTimeout.
Proof. unfold onRetryTimeout, set_retry. frame. Qed.
#[local] Hint Resolve deaf_user_close deaf_send_data deaf_pr_onTimeout deaf_onRetryTimeout : frame.

(** Opening the receiver processes a queue in which nothing is due. *)
Lemma deaf_rc_open i : respects deaf (rc_open i).
Proof.
  unfold rc_open. apply (respects_bind _); [|intros _; apply respects_modify; intros c; case_decide; [by apply ears_deaf|done]].
  intros c [] c' E Hs. revert E. unfold on_receiveQueue.
  pose proof (factors_processQueue (processReceived RELIABLE) (receiveQueue (receiver c)) c []) as Hf.
  rewrite (processQueue_settled _ _ Hs) in Hf. destruct Hf as (new&Enew&->).
  destruct new; [|done]. simpl. intros [= <-]. done.
Qed.
#[local] Hint Resolve deaf_rc_open : frame.
Lemma deaf_onHandshakeComplete : respects deaf onHandshakeComplete.
Proof. unfold onHandshakeComplete. frame. Qed.
#[local] Hint Resolve deaf_onHandshakeComplete : frame.
Lemma deaf_handlePacket p : respects deaf (handlePacket p).
Proof. unfold handlePacket. frame. case_match; frame. Qed.
Lemma deaf_ho_onReceive p : respects deaf (ho_onReceive p).
Proof. unfold ho_onReceive. frame. Qed.
Lemma deaf_np_onReceive p from : respects deaf (np_onReceive p from).
Proof. unfold np_onReceive, sendChallengeResponse, sendChallenge, onRemoteAddressChanged. frame. Qed.
#[local] Hint Resolve deaf_handlePacket deaf_ho_onReceive deaf_np_onReceive : frame.

(** Unreliable data, and the peer's acknowledgements. *)
Lemma deaf_processReceived f : frame_ok f → respects deaf (processReceived UNRELIABLE f).
Proof.
  intros [_ Hc]. unfold processReceived, receive_data. rewrite (proj2 (Z.eqb_neq _ _) Hc). frame.
Qed.

Lemma deaf_frames fs : Forall frame_ok fs → respects deaf (mapM_ (processReceived UNRELIABLE) fs).
Proof.
  induction 1 as [|f fs Hf _ IH]; [apply (respects_ret _)|]. simpl.
  apply (respects_bind _); [by apply deaf_processReceived|done].
Qed.

(** A packet that is not reliable data, of a speaker that does not compress. *)
Lemma deaf_rc_onReceive gss p :
  genuine gss p → h_type (p_header p) ≠ DATA_RELIABLE → respects deaf (rc_onReceive p).
Proof.
  intros Hg Ht. unfold rc_onReceive. apply (respects_bind _); [frame|]. intros c0.
  case_decide; [frame|]. apply (respects_bind _); [frame|]. intros _. rewrite (proj2 (Z.eqb_neq _ _) Ht).
  destruct (Z.eqb_spec (h_type (p_header p)) DATA_UNRELIABLE) as [Eu|_]; [|frame].
  destruct (gn_unreliable _ _ Hg Eu) as (gs&(Hwf&_&Hpay&Hgs)&Hok). intros c a c'.
  rewrite (unreliable_onReceive_encoded _ p gs) by done. by apply deaf_frames.
Qed.

(** ** Reliable data *)

(** Handing over the frames of a stream, until a close takes the handler away. *)
Lemma frames_delivered new c c' :
  Forall stream_frame new → settled (receiveQueue (receiver c)) →
  mapM_ (processReceived RELIABLE) new c = Some (tt, c') →
  ∃ k, (k ≤ length new)%nat ∧ concat (delivered c') = concat (delivered c) ++ frames_data (take k new) ∧
    (receiveHandler c' = true → receiveHandler c = true ∧ k = length new) ∧
    (receiveHandler c = false → k = 0%nat).
Proof.
  intros Hnew. revert c. induction Hnew as [|f new Hf _ IH]; intros c Hs; simpl.
  { intros [= <-]. exists 0%nat. by rewrite app_nil_r. }
  intros ([]&c1&E1&E2)%bind_some.
  assert (receiveQueue (receiver c1) = receiveQueue (receiver c) ∧
    (receiveHandler c1 = true → receiveHandler c = true) ∧
    concat (delivered c1) = concat (delivered c) ++ (if receiveHandler c then f_data f else [])) as (Eq1&Hh1&Ed1).
  { unfold processReceived in E1. destruct Hf as [Ht|[Ht Hd]]; rewrite Ht in E1; cbn in E1.
    - unfold receive_data in E1. apply bind_some in E1 as (?&?&[= <- <-]&([]&c2&E1&[= <-])%bind_some).
      destruct (receiveHandler c) eqn:Eh; injection E1 as <-; simpl; rewrite ?Eh; [|by rewrite app_nil_r].
      split_and!; [done|done|]. unfold delivered. simpl. rewrite omap_app, concat_app. simpl. by rewrite app_nil_r.
    - assert (deaf c c1) as Hdeaf.
      { enough (respects deaf (rc_close;; possiblyClose)) as Hr by exact (Hr _ _ _ E1). frame. }
      destruct (Hdeaf Hs) as (?&->&?). rewrite Hd. split_and!; [done|done|]. destruct (receiveHandler c); by rewrite app_nil_r. }
  rewrite <-Eq1 in Hs. destruct (IH c1 Hs E2) as (k&Hk&Ed&Hh&Hz). unfold frames_data in *. simpl.
  destruct (receiveHandler c) eqn:Eh.
  - exists (S k). simpl. split_and!; [lia| |intros [? ->]%Hh; done|done].
    rewrite Ed, Ed1, <-app_assoc. done.
  - assert (receiveHandler c1 = false) as Eh1 by (destruct (receiveHandler c1); [by specialize (Hh1 eq_refl)|done]).
    exists 0%nat. rewrite (Hz Eh1), app_nil_r in Ed. rewrite app_nil_r in *. split_and!; [lia|congruence| |done].
    intros [? _]%Hh. congruence.
Qed.

(** [c] has heard the packets [heard], and handed over a part of the frames these completed: all
    of them if its user still listens. *)
Definition hearing (heard : list Packet) (c : Connection) : Prop :=
  ∃ log m, mapM_ (onReceive tracer) heard (ReceiveQueue_init, []) = Some (tt, (receiveQueue (receiver c), log)) ∧
    concat (delivered c) = frames_data (take m log) ∧ (m ≤ length log)%nat ∧
    (receiveHandler c = true → m = length log) ∧
    settled (receiveQueue (receiver c)) ∧ all_frames stream_frame (receiveQueue (receiver c), log).

Lemma hearing_settled heard c : hearing heard c → settled (receiveQueue (receiver c)).
Proof. by intros (?&?&_&_&_&_&?&_). Qed.

Lemma hearing_deaf heard c c' : deaf c c' → hearing heard c → hearing heard c'.
Proof.
  intros Hd Hh. destruct (Hd (hearing_settled _ _ Hh)) as (Eq&Ed&Hr). destruct Hh as (log&m&?&?&?&?&?&?).
  exists log, m. rewrite Eq, Ed. split_and!; try done. auto.
Qed.

Lemma hearing_packet heard p c c' :
  hearing heard c → Forall stream_frame (parse_frames (payload p)) →
  on_receiveQueue (onReceive (processReceived RELIABLE) p) c = Some (tt, c') → hearing (heard ++ [p]) c'.
Proof.
  intros (log&m&Et&Ed&Hm&Hall&Hs&Hf) Hp. unfold on_receiveQueue.
  pose proof (factors_onReceive (processReceived RELIABLE) p (receiveQueue (receiver c)) c log) as Hfac.
  pose proof (onReceive_kept stream_frame p _ Hp Hf) as Hkept.
  destruct (onReceive tracer p (receiveQueue (receiver c), log)) as [[[] [rq log']]|] eqn:Er; [|by rewrite Hfac].
  destruct Hfac as (new&->&->). destruct (mapM_ _ new c) as [[[] c1]|] eqn:E; [|done]. intros [= <-].
  unfold wp in Hkept. rewrite Er in Hkept.
  pose proof (proj2 Hkept) as Hlog. apply Forall_app in Hlog as [_ Hnew].
  destruct (frames_delivered new c c1 Hnew Hs E) as (k&Hk&Ek&Hh&Hz).
  exists (log ++ new), (if receiveHandler c then length log + k else m)%nat. simpl.
  split_and!; [|etrans; [exact Ek|rewrite Ed]|rewrite length_app; destruct (receiveHandler c); lia| | |done].
  - rewrite mapM_app, Et. simpl. unfold mbind, M_bind. by rewrite Er.
  - destruct (receiveHandler c) eqn:Eh.
    + rewrite (Hall eq_refl), firstn_all, take_app_add', frames_data_app; done.
    + rewrite (Hz eq_refl), app_nil_r, take_app_le by lia. done.
  - intros [E1 ->]%Hh. rewrite E1, length_app. done.
  - by eapply onReceive_settled.
Qed.

(** ** Packets that arrive *)

(** The packet gets as far as the reliable queue. *)
Definition reaches (p : Packet) (from : Address) (c : Connection) : bool :=
  (h_type (p_header p) =? DATA_RELIABLE) && bool_decide (r_status (receiver c) = OPENED) &&
  negb (Address_neqb from (remoteAddress c)).

Lemma receive_reliable p from c c' :
  h_type (p_header p) = DATA_RELIABLE → receive p from c = Some (tt, c') →
  ∃ c1, deaf c c1 ∧ if reaches p from c then on_receiveQueue (onReceive (processReceived RELIABLE) p) c1 = Some (tt, c')
                    else c' = c1.
Proof.
  intros Ht. unfold receive, reaches. rewrite Ht. intros ([p1 d1]&c1&E1&E)%bind_some.
  unfold ho_onReceive in E1. rewrite Ht in E1. cbn in E1. injection E1 as <- <- <-. cbn in E.
  apply bind_some in E as (now&?&[= <- <-]&([]&c2&[= <-]&([p2 d2]&c3&E3&E)%bind_some)%bind_some).
  set (c2 := set_statistics _ c) in *.
  assert (deaf c c2) as H2 by by apply ears_deaf.
  assert (deaf c c3) as H3 by (etrans; [exact H2|by eapply deaf_np_onReceive]).
  unfold np_onReceive in E3. rewrite Ht in E3. cbn in E3.
  apply bind_some in E3 as (?&?&[= <- <-]&E3). change (remoteAddress c2) with (remoteAddress c) in E3.
  destruct (Address_neqb from (remoteAddress c)).
  { apply bind_some in E3 as ([]&c4&_&[= <- <- <-]). cbn in E. injection E as <-. exists c4.
    by rewrite andb_false_r. }
  injection E3 as <- <- <-. cbn in E. apply bind_some in E as ([p3 d3]&c4&E4&E). unfold hs_onReceive in E4.
  rewrite Ht in E4. change (isHandshake DATA_RELIABLE) with false in E4. injection E4 as <- <- <-. cbn in E.
  apply bind_some in E as ([]&c4&E4&([]&c5&E5&E)%bind_some). unfold s_onReceive in E5. rewrite Ht in E5.
  change (isAck DATA_RELIABLE) with false in E5. cbn in E5. injection E5 as <-.
  assert (deaf c c4) as H4 by (etrans; [exact H2|by eapply deaf_pr_on]).
  assert (receiver c4 = receiver c) as Er.
  { apply pr_on_frame in E4. unfold same, tx_frame in E4. injection E4. by intros. }
  unfold rc_onReceive in E. apply bind_some in E as (?&?&[= <- <-]&E). rewrite Er in E. case_decide as Hst.
  { injection E as <-. exists c4. rewrite bool_decide_eq_false_2 by done. done. }
  rewrite bool_decide_eq_true_2 by (destruct (r_status (receiver c)); naive_solver). cbn.
  rewrite Ht in E. cbn in E. apply bind_some in E as ([]&c6&E6&E). exists c6. split; [|done].
  etrans; [exact H4|by eapply deaf_s_ack].
Qed.

(** A packet as the parts of the connection pass it on. *)
Definition passed_on (p q : Packet) : Prop :=
  p_header q = p_header p ∧ (h_type (p_header p) = DATA_UNRELIABLE → q = p).

Lemma passed_on_genuine gss p q :
  passed_on p q → h_type (p_header p) ≠ DATA_RELIABLE → genuine gss p → genuine gss q.
Proof.
  intros [Hh Hu] Ht Hg. destruct (decide (h_type (p_header p) = DATA_UNRELIABLE)) as [E|E]; [by rewrite (Hu E)|].
  apply genuine_control. by rewrite Hh.
Qed.

Lemma ho_onReceive_passed p c q d c' : ho_onReceive p c = Some ((q, d), c') → passed_on p q.
Proof.
  unfold ho_onReceive, passed_on. destruct (Z.eqb_spec (h_type (p_header p)) H3) as [Et|_]; [|by intros [= <- _ _]].
  pose proof (popData_header p sizeof_HandshakeOptionsData) as Hh. rewrite Et.
  destruct (popData p _) as [w [bs|]]; intros [= <- _ _]; done.
Qed.

Lemma np_onReceive_passed p from c q d c' : np_onReceive p from c = Some ((q, d), c') → passed_on p q.
Proof.
  intros [(_&->&_)|(Ht&->&_)]%(np_onReceive_cases (λ _, True)); [done| |by intros].
  split; [apply verifyChallengeResponse_header|by rewrite Ht].
Qed.

Lemma hs_onReceive_passed p c q d c' : hs_onReceive p c = Some ((q, d), c') → passed_on p q.
Proof.
  unfold hs_onReceive. destruct (isHandshake (h_type (p_header p))) eqn:Eh; cbn [negb]; [|by intros [= <- _ _]].
  intros (w&c1&E&[= <- _ _])%bind_some. split; [|intros Et; by rewrite Et in Eh].
  assert (p_header (readRemoteID p).1 = p_header p) as Hh.
  { unfold readRemoteID. pose proof (popData_header p 2) as Hh. by destruct (popData p 2) as [? [?|]]. }
  unfold handlePacket in E. destruct (_ =? Packet.H0).
  { by apply bind_some in E as ([]&?&_&([]&?&_&[= <- _])%bind_some). }
  destruct (_ =? H1). { by apply bind_some in E as (?&?&_&([]&?&_&[= <- _])%bind_some). }
  destruct (readRemoteID p) as [p' r]. destruct (_ =? H2).
  { apply bind_some in E as (?&?&_&([w' b]&?&_&([]&?&_&E)%bind_some)%bind_some).
    by apply bind_some in E as (?&?&_&([]&?&_&[= <- _])%bind_some). }
  destruct (_ =? H3); [|by injection E as <- _]. by apply bind_some in E as (?&?&_&([]&?&_&[= <- _])%bind_some).
Qed.

Lemma passed_on_trans p q r : passed_on p q → passed_on q r → passed_on p r.
Proof. intros [Hh Hu] [Hh' Hu']. split; [congruence|]. intros Et. rewrite Hu', Hu; [done|done|by rewrite Hh]. Qed.

Lemma receive_other gss p from c c' :
  genuine gss p → h_type (p_header p) ≠ DATA_RELIABLE → receive p from c = Some (tt, c') → deaf c c'.
Proof.
  intros Hg Ht. unfold receive. intros ([p1 d1]&c1&E1&E)%bind_some.
  transitivity c1; [by eapply deaf_ho_onReceive|]. apply ho_onReceive_passed in E1. case_decide; [by injection E as <-|].
  apply bind_some in E as (now&?&[= <- <-]&([]&c2&[= <-]&([p2 d2]&c3&E3&E)%bind_some)%bind_some).
  set (c2 := set_statistics _ c1) in *. transitivity c2; [by apply ears_deaf|].
  transitivity c3; [by eapply deaf_np_onReceive|]. apply np_onReceive_passed in E3. case_decide; [by injection E as <-|].
  apply bind_some in E as ([p3 d3]&c4&E4&E).
  transitivity c4.
  { unfold hs_onReceive in E4. destruct (negb _); [by injection E4 as <- <- <-|].
    apply bind_some in E4 as (w&c5&E4&[= <- <- <-]). by eapply deaf_handlePacket. }
  apply hs_onReceive_passed in E4. case_decide; [by injection E as <-|].
  assert (passed_on p p3) as Hp by (eapply passed_on_trans; [exact E1|by eapply passed_on_trans]).
  apply bind_some in E as ([]&c5&E5&([]&c6&E6&E)%bind_some). transitivity c5; [by eapply deaf_pr_on|].
  transitivity c6; [by eapply deaf_s_onReceive|]. eapply deaf_rc_onReceive; [|by rewrite (proj1 Hp)|exact E].
  by eapply passed_on_genuine.
Qed.

(** ** All inputs *)

(** The packets an input adds to what is heard. *)
Definition overheard (i : Input) (c : Connection) : list Packet :=
  match i with Arrives p from => if reaches p from c then [p] else [] | _ => [] end.

(** What arrives is the peer's. *)
Definition from_speaker (gss : list (list Frame)) (i : Input) : Prop :=
  match i with Arrives p _ => genuine gss p | _ => True end.

Lemma genuine_frames gss p :
  Forall stream_frame (concat gss) → genuine gss p → h_type (p_header p) = DATA_RELIABLE →
  Forall stream_frame (parse_frames (payload p)).
Proof.
  intros Hf [Hr _] Ht. destruct (Hr Ht) as (gs&Hgs&_&_&->&Hwf). rewrite parse_encode_Frames by done.
  apply list_elem_of_split in Hgs as (l1&l2&->). rewrite concat_app in Hf. apply Forall_app in Hf as [_ Hf].
  simpl in Hf. by apply Forall_app in Hf as [? _].
Qed.

Lemma hearing_openUser o rh ch c c' : openUser o rh ch c = Some (tt, c') → hearing [] c → hearing [] c'.
Proof.
  unfold openUser. intros ([]&c1&[= <-]&(?&?&[= <- <-]&E)%bind_some)%bind_some (log&m&[= Eq <-]&Ed&Hm&Hh&Hs&Hf).
  set (c1 := match o with Some _ => _ | None => _ end) in *.
  assert (receiver c1 = receiver c ∧ events c1 = events c) as [Er Ee] by (unfold c1; by destruct o).
  assert (receiver c' = receiver c ∧ events c' = events c) as [Er' Ee'].
  { rewrite <-Er, <-Ee. destruct (userDataDisposed c1); by injection E as <-. }
  exists [], 0%nat. unfold delivered in *. rewrite Er', Ee', Ed, !take_nil, <-Eq. split_and!; [done..|].
  split; [|constructor]. intros i f Hi. apply (proj1 Hf i f). by rewrite <-Eq.
Qed.

(** Every input is heard, if it is the peer's and the user listens from the start. *)
Lemma handle_hears gss i heard c c' :
  handle i c = Some (tt, c') → hearing heard c → Forall stream_frame (concat gss) → from_speaker gss i →
  (is_OpenUser i = true → heard = []) → hearing (heard ++ overheard i c) c'.
Proof.
  intros E Hc Hf Hi Ho.
  assert (∀ m, respects deaf m → m c = Some (tt, c') → hearing (heard ++ []) c') as Hm.
  { intros m Hm Em. rewrite app_nil_r. eapply hearing_deaf; [by eapply Hm|done]. }
  destruct i; cbn [handle overheard] in *; try (eapply Hm, E; frame; done).
  - destruct (decide (h_type (p_header p) = DATA_RELIABLE)) as [Ht|Ht]; cycle 1.
    { unfold reaches. rewrite (proj2 (Z.eqb_neq _ _) Ht). cbn. rewrite app_nil_r.
      eapply hearing_deaf; [|done]. by eapply receive_other. }
    destruct (receive_reliable _ _ _ _ Ht E) as (c1&Hd&E1). pose proof (hearing_deaf _ _ _ Hd Hc) as Hc1.
    destruct (reaches p from c); [|subst c'; by rewrite app_nil_r].
    eapply hearing_packet; [done|by eapply genuine_frames|done].
  - rewrite (Ho eq_refl) in *. by eapply hearing_openUser.
  - eapply Hm, E. unfold open. frame.
  - eapply Hm, E. unfold initiate. frame.
Qed.
End listeners.
