(* ===== verification/Stream.v ===== *)
(** * The reliable stream between two connections

    Two whole connections over the network of [Agreement.v], which loses, repeats, delays and
    reorders packets, carried in datagrams, with users and timers that do what they like: the user at one end gets a
    prefix of what the user at the other end sent. *)

From S2P Require Import Prelude MemCopy Packet ReceiveQueue Types Asio Datagram SendQueue Compression Protocol Float32 Rtt State Retrier Transmit Invariant Sender Connection Closing Wire NetworkPath Lifecycle Emission Socket Agreement Speaking Hearing.

(** ** Conversations *)

Section conversations.
Context `{!Zlib}.

(** [said] is what the sends of the user at [alice] had accepted, [heard] the data packets that
    reached the receive queue of [bob]. The handlers of [bob]'s user are set before data arrives. *)
Inductive conversation : bytes → list Packet → Network → Prop :=
  | conversation_init n : net_initial n → conversation [] [] n
  | conversation_alice said heard a b i t a' :
      conversation said heard (mkNetwork a b) → deliverable b i → well_used i (set_clock t a) →
      handle i (set_clock t a) = Some (tt, a') →
      conversation (said ++ accepted i (set_clock t a)) heard (mkNetwork a' b)
  | conversation_bob said heard a b i t b' :
      conversation said heard (mkNetwork a b) → deliverable a i →
      (is_OpenUser i = true → heard = []) → handle i (set_clock t b) = Some (tt, b') →
      conversation said (heard ++ overheard i (set_clock t b)) (mkNetwork a b').

Lemma initial_speaking c : initial c → speaking [] [] c.
Proof.
  intros (i&a&l&o&t&->&Hi&_&Hu). split; simpl; try done.
  - intros _. apply sq_rep_init.
  - split; [|done]. exists 0%nat, []. split; [apply sq_rep_init|constructor].
  - intros p (j&x&path&Hx&_). simpl in Hx. by rewrite lookup_empty in Hx.
Qed.

Lemma initial_hearing c : initial c → hearing [] c.
Proof.
  intros (i&a&l&o&t&->&_). exists [], 0%nat. by split_and!.
Qed.

(** The clock is neither said nor heard. *)
Lemma set_clock_speaking gss rest t c : speaking gss rest c → speaking gss rest (set_clock t c).
Proof. by intros []. Qed.
Lemma set_clock_hearing heard t c : hearing heard c → hearing heard (set_clock t c).
Proof. done. Qed.

(** The packets [heard] are blocks of the stream [gss]. *)
Definition from_stream (gss : list (list Frame)) (p : Packet) : Prop :=
  ∃ gs, gs ∈ gss ∧ packet_frames p gs.

Record understood (said : bytes) (heard : list Packet) (n : Network)
    (gss : list (list Frame)) (rest : list Frame) : Prop := {
  un_speaking : speaking gss rest (alice n);
  un_said : frames_data (concat gss ++ rest) = said;
  un_hearing : hearing heard (bob n);
  un_heard : Forall (from_stream gss) heard;
  un_wired : wired (alice n);
}.

Lemma genuine_equiv gss p q : p ≡ q → genuine gss p → genuine gss q.
Proof.
  intros E [Hr Hu]. assert (∀ gs, packet_frames p gs → packet_frames q gs) as Hf.
  { intros gs Hp. pose proof E as (_&Es&_). apply (packet_frames_eq p); [|by rewrite E|done|done]. rewrite <-E. apply Hp. }
  split; rewrite <-E; [intros (gs&?&?)%Hr|intros (gs&?&?)%Hu]; exists gs; split; auto.
Qed.

Lemma deliverable_genuine gss rest a i : wired a → speaking gss rest a → deliverable a i → from_speaker gss i.
Proof.
  intros Hw Ha Hd. destruct i; try done. destruct (deliverable_sent _ _ _ Hw Hd) as (t&Ht&Ep).
  eapply genuine_equiv; [by symmetry|]. exact (Forall_elem_of _ _ _ (sp_sent _ _ _ Ha) Ht).
Qed.

Lemma overheard_stream gss i c : from_speaker gss i → Forall (from_stream gss) (overheard i c).
Proof.
  destruct i; try constructor. intros Hp. cbn [overheard]. destruct (reaches p from c) eqn:E; [|constructor].
  apply Forall_singleton, (gn_reliable _ _ Hp). unfold reaches in E.
  by apply andb_true_iff in E as [[E%Z.eqb_eq _]%andb_true_iff _].
Qed.

Lemma conversation_understood said heard n :
  conversation said heard n → ∃ gss rest, understood said heard n gss rest.
Proof.
  induction 1 as [n (Ha&Hb&_)|said heard a b i t a' _ IH Hd Hu E|said heard a b i t b' _ IH Hd Ho E].
  - exists [], []. split; [by apply initial_speaking|done|by apply initial_hearing|constructor|by apply initial_wired].
  - destruct IH as (gss&rest&[Ha Hs Hb Hh Hw]). simpl in *.
    destruct (handle_says _ _ _ E Hu gss rest (set_clock_speaking _ _ t _ Ha)) as (more&rest'&fresh&Ha'&Ef&Hd').
    exists (gss ++ more), rest'. split; simpl; [done| |done| |by eapply handle_wired; [eapply deliverable_datagram|exact E|]].
    + by rewrite Ef, app_assoc, frames_data_app, Hs, Hd'.
    + eapply Forall_impl; [|exact Hh]. intros p (gs&?&?). exists gs. split; [|done]. apply elem_of_app. by left.
  - destruct IH as (gss&rest&[Ha Hs Hb Hh Hw]). simpl in *. pose proof (deliverable_genuine _ _ _ _ Hw Ha Hd) as Hg.
    exists gss, rest. split; simpl; [done|done| | |done].
    + apply (handle_hears gss i heard (set_clock t b)); [done|by apply set_clock_hearing| |done|done].
      pose proof (sp_frames _ _ _ Ha) as Hf. by apply Forall_app in Hf as [? _].
    + apply Forall_app. split; [done|]. by apply overheard_stream.
Qed.

(** [order] says which packet of the stream each packet heard is. *)
Definition heard_in_order (gss : list (list Frame)) (heard : list Packet) (order : list nat) : Prop :=
  Forall2 (λ p i, ∃ gs, gss !! i = Some gs ∧ payload p = encode_Frames gs ∧ Forall frame_wf gs) heard order.

Lemma heard_carries gss rest heard order :
  heard_in_order gss heard order → Forall2 (carries (concat gss ++ rest)) heard (frame_numbers gss <$> order).
Proof.
  induction 1 as [|p i heard order (gs&?&?&?) _ IH]; [constructor|]. constructor; [by eapply block_carries|done].
Qed.

(** What was heard of a stream in which no frame arrived too early or too late. *)
Lemma hearing_prefix gss rest heard order c :
  numbered 0 (concat gss ++ rest) → hearing heard c → heard_in_order gss heard order →
  timely ∅ (concat (frame_numbers gss <$> order)) →
  ∃ n m, (m ≤ n)%nat ∧ concat (delivered c) = frames_data (take m (concat gss ++ rest)) ∧
    first_missing (list_to_set (concat (frame_numbers gss <$> order))) n ∧
    (receiveHandler c = true → m = n ∨ (length (concat gss ++ rest) ≤ m)%nat).
Proof.
  intros Hn (log&m&Et&Ed&Hm&Hh&_) Ho Ht. set (sent := concat gss ++ rest) in *.
  pose proof (onReceive_packets_spec sent Hn heard _ _ _ _ _ (rq_inv_init sent) (heard_carries gss rest _ _ Ho) Ht) as Hr.
  unfold wp in Hr. rewrite Et in Hr. destruct Hr as (n&Hinv). rewrite union_empty_r_L in Hinv.
  pose proof (rq_inv_first_missing _ _ _ _ _ Hinv) as Hfm. destruct Hinv as (_&_&->).
  rewrite length_take in Hm. exists n, m. rewrite take_take in Ed. split_and!; [lia| |done|].
  - rewrite Ed. f_equal. f_equal. lia.
  - intros ->%Hh. rewrite length_take. lia.
Qed.

(** A stream of fewer than 2^15 frames is never out of the window. *)
Lemma timely_small N arrived ks :
  Z.of_nat N < 2 ^ 15 → (∀ k, k ∈ arrived → (k < N)%nat) → (∀ k, k ∈ ks → (k < N)%nat) → timely arrived ks.
Proof.
  intros HN. revert arrived. induction ks as [|k ks IH]; intros arrived Ha Hk; [done|]. simpl. split.
  - intros n [Hn _]. pose proof (Hk k ltac:(by left)) as Hkn. unfold in_window.
    assert (n ≤ N)%nat; [|lia]. destruct (decide (n ≤ N)%nat) as [?|?]; [done|].
    specialize (Ha N (Hn N ltac:(lia))). lia.
  - apply IH; [|intros j Hj; apply Hk; by right]. intros j [->%elem_of_singleton|Hj]%elem_of_union; [|by apply Ha].
    apply Hk. by left.
Qed.

Lemma timely_short gss order :
  Z.of_nat (length (concat gss)) < 2 ^ 15 → timely ∅ (concat (frame_numbers gss <$> order)).
Proof.
  intros HN. apply (timely_small (length (concat gss))); [done|set_solver|].
  intros k (l&Hl&Hk)%list_elem_of_In%in_concat. revert Hl Hk. rewrite <-!list_elem_of_In.
  intros (i&->&_)%list_elem_of_fmap. apply frame_numbers_bound.
Qed.

Lemma from_stream_order gss heard :
  Forall (from_stream gss) heard → ∃ order, heard_in_order gss heard order.
Proof.
  induction 1 as [|p heard (gs&Hgs&_&_&Hpay&Hwf) _ (order&IH)]; [by exists []; constructor|].
  apply list_elem_of_lookup in Hgs as (i&Hi). exists (i :: order). constructor; [by exists gs|done].
Qed.

(** What the two ends of a conversation have of the stream. *)
Definition streamed (said : bytes) (heard : list Packet) (n : Network) : Prop :=
  ∃ gss rest,
    frames_data (concat gss ++ rest) = said ∧
    (status (dataQueue (sender (alice n))) = OPEN →
     sq_rep (dataQueue (sender (alice n))) (length (concat gss)) rest) ∧
    (∃ order, heard_in_order gss heard order) ∧
    ∀ order, heard_in_order gss heard order →
      timely ∅ (concat (frame_numbers gss <$> order)) ∨ Z.of_nat (length (concat gss)) < 2 ^ 15 →
      concat (delivered (bob n)) `prefix_of` said ∧
      ((∀ i, (i < length gss)%nat → i ∈ order) → rest = [] → receiveHandler (bob n) = true →
       concat (delivered (bob n)) = said).

Lemma conversation_stream said heard n : conversation said heard n → streamed said heard n.
Proof.
  intros (gss&rest&[Ha <- Hb Hh _])%conversation_understood. exists gss, rest.
  split_and!; [done|apply Ha|by apply from_stream_order|]. intros order Ho Ht.
  assert (timely ∅ (concat (frame_numbers gss <$> order))) as Ht' by (destruct Ht; [done|by apply timely_short]).
  destruct (hearing_prefix _ _ _ _ _ (sp_numbered _ _ _ Ha) Hb Ho Ht') as (k&m&Hm&->&Hfm&Hl). split.
  - exists (frames_data (drop m (concat gss ++ rest))). by rewrite <-frames_data_app, take_drop.
  - intros Hall -> Hh'. rewrite app_nil_r in *. f_equal. apply take_ge.
    rewrite (first_missing_all _ _ (length (concat gss)) Hfm) in Hl by (intros; by apply all_numbers).
    destruct (Hl Hh'); lia.
Qed.
End conversations.

(** ** Claim *)

(** C2: the reliable byte stream, between whole connections. Two endpoints run the complete
    protocol over a network that loses, repeats, delays and reorders packets; their users send,
    open and close as they like (without compression), timers fire at any time. The bytes for
    which [send] returned [OK] at one end are, in order, the data of one sequence of frames, of
    which the first have been taken out of the sending queue in packets [gss] and [rest] still
    waits in it; every data packet that reached the other end's receive queue, first transmission or
    retransmission, is one of these packets. If no frame arrived 2^15 or more frames away from the one expected then (in particular if fewer
    than 2^15 frames have been sent) the bytes handed to the user at the other end are a prefix
    of the bytes sent; and all of them, once every packet has arrived, nothing waits and the user
    still listens. *)
Theorem connection_stream `{!Zlib} (said : bytes) (heard : list Packet) (n : Network) :
  conversation said heard n →
  ∃ gss rest,
    frames_data (concat gss ++ rest) = said ∧
    (status (dataQueue (sender (alice n))) = OPEN →
     sq_rep (dataQueue (sender (alice n))) (length (concat gss)) rest) ∧
    (∃ order, heard_in_order gss heard order) ∧
    ∀ order, heard_in_order gss heard order →
      timely ∅ (concat (frame_numbers gss <$> order)) ∨ Z.of_nat (length (concat gss)) < 2 ^ 15 →
      concat (delivered (bob n)) `prefix_of` said ∧
      ((∀ i, (i < length gss)%nat → i ∈ order) → rest = [] → receiveHandler (bob n) = true →
       concat (delivered (bob n)) = said).
Proof. apply conversation_stream. Qed.

(** *** A conversation: the handshake, one send, and its delivery *)

Definition hello : bytes := [Byte.x68; Byte.x65; Byte.x6c; Byte.x6c; Byte.x6f].
Definition to_server : Address := replicate 28 Byte.x02.
Definition to_client : Address := replicate 28 Byte.x01.

Definition listener0 : Connection := react (OpenUser None true true) server_connection.
Definition listener1 : Connection := react (last_arrival alice1 to_server) listener0.
Definition speaker2 : Connection := react (last_arrival listener1 to_client) alice1.
Definition listener2 : Connection := react (last_arrival speaker2 to_server) listener1.
Definition speaker3 : Connection := react (last_arrival listener2 to_client) speaker2.
Definition speaker4 : Connection := react (UserSend hello RELIABLE) speaker3.
Definition speaker5 : Connection := react (QueueTimeout RELIABLE) speaker4.
Definition listener3 : Connection := react (last_arrival speaker5 to_server) listener2.

(** The listener's user gets the five bytes, once, even if the packet arrives twice. *)
Example hello_heard :
  delivered listener3 = [hello] ∧
  delivered (react (last_arrival speaker5 to_server) listener3) = [hello] ∧
  receiveHandler listener3 = true.
Proof. by vm_compute. Qed.

#[local] Existing Instance Zlib_stored.
#[local] Existing Instance ZlibLaws_stored.

Lemma speaker_acts said said' heard a b i :
  conversation said heard (mkNetwork a b) → deliverable b i → well_used i (set_clock 1000000000 a) →
  (if handle i (set_clock 1000000000 a) then true else false) = true →
  said ++ accepted i (set_clock 1000000000 a) = said' →
  conversation said' heard (mkNetwork (react i a) b).
Proof. intros Hc Hd Hu E%react_handle <-. by eapply conversation_alice. Qed.

Lemma listener_acts said heard heard' a b i :
  conversation said heard (mkNetwork a b) → deliverable a i → (is_OpenUser i = true → heard = []) →
  (if handle i (set_clock 1000000000 b) then true else false) = true →
  heard ++ overheard i (set_clock 1000000000 b) = heard' →
  conversation said heard' (mkNetwork a (react i b)).
Proof. intros Hc Hd Ho E%react_handle <-. by eapply conversation_bob. Qed.

(** The packet that carries the send. *)
Definition hello_packet : Packet :=
  match last_arrival speaker5 to_server with Arrives p _ => p | _ => new_Packet end.

Lemma hello_conversation : conversation hello [hello_packet] (mkNetwork speaker5 listener3).
Proof.
  eapply (listener_acts _ [] _ _ _ (last_arrival speaker5 to_server));
    [|apply last_arrival_deliverable|vm_compute; discriminate|vm_compute; reflexivity|vm_compute; reflexivity].
  eapply (speaker_acts hello _ _ _ _ (QueueTimeout RELIABLE)); [|exact I|exact I|vm_compute; reflexivity|vm_compute; reflexivity].
  eapply (speaker_acts [] _ _ _ _ (UserSend hello RELIABLE)); [|exact I|vm_compute; reflexivity|vm_compute; reflexivity|vm_compute; reflexivity].
  eapply (speaker_acts [] _ _ _ _ (last_arrival listener2 to_client));
    [|apply last_arrival_deliverable|vm_compute; exact I|vm_compute; reflexivity|vm_compute; reflexivity].
  eapply (listener_acts _ [] _ _ _ (last_arrival speaker2 to_server));
    [|apply last_arrival_deliverable|vm_compute; discriminate|vm_compute; reflexivity|vm_compute; reflexivity].
  eapply (speaker_acts [] _ _ _ _ (last_arrival listener1 to_client));
    [|apply last_arrival_deliverable|vm_compute; exact I|vm_compute; reflexivity|vm_compute; reflexivity].
  eapply (listener_acts _ [] _ _ _ (last_arrival alice1 to_server));
    [|apply last_arrival_deliverable|vm_compute; discriminate|vm_compute; reflexivity|vm_compute; reflexivity].
  eapply (speaker_acts [] _ _ _ _ Initiate); [|exact I|exact I|vm_compute; reflexivity|vm_compute; reflexivity].
  eapply (listener_acts _ [] _ _ _ (OpenUser None true true)); [|exact I|done|vm_compute; reflexivity|vm_compute; reflexivity].
  apply conversation_init. split; [apply example_initial|]. split; [apply server_initial|]. split; split; reflexivity.
Qed.

Lemma connection_stream_witness :
  let n := mkNetwork speaker5 listener3 in
  ∃ gss rest,
    frames_data (concat gss ++ rest) = hello ∧
    (status (dataQueue (sender (alice n))) = OPEN →
     sq_rep (dataQueue (sender (alice n))) (length (concat gss)) rest) ∧
    (∃ order, heard_in_order gss [hello_packet] order) ∧
    ∀ order, heard_in_order gss [hello_packet] order →
      timely ∅ (concat (frame_numbers gss <$> order)) ∨ Z.of_nat (length (concat gss)) < 2 ^ 15 →
      concat (delivered (bob n)) `prefix_of` hello ∧
      ((∀ i, (i < length gss)%nat → i ∈ order) → rest = [] → receiveHandler (bob n) = true →
       concat (delivered (bob n)) = hello).
Proof. intros n. apply (connection_stream hello [hello_packet] n). exact hello_conversation. Defined.
