(* ===== verification/SocketStream.v ===== *)
(** * The reliable stream between two sockets

    [Agreement.v] and [Stream.v] are about two connections and an abstract network between them.
    Here the connections are where the program has them, among others in the sockets at both ends:
    what a socket does to one of its connections is a step of that network, and what a connection
    puts on the wire, in a datagram, is handed by the other socket to its peer. *)

From S2P Require Import Prelude MemCopy Packet ReceiveQueue Types Asio Datagram SendQueue Compression Protocol Float32 Rtt State Retrier Transmit Invariant Sender Connection Closing Wire NetworkPath Lifecycle Emission Socket SocketLife Agreement Speaking Hearing Stream.
#[local] Open Scope Z_scope.
#[local] Strategy 1000 [acquireShortConnectionID acquire_loop connect sk_receive].

Section sockets.
Context `{!Zlib}.

(** What an input is for the connection it is for. *)
Definition input_of (i : SockInput) : option Input :=
  match i with
  | FromNetwork _ packet from => Some (Arrives (getLookUp packet).1 from)
  | Concerns _ i => Some i
  | _ => None
  end.

(** The time a socket learns from the clock of its service. *)
Definition timed (t : Z) (i : SockInput) : Prop := match i with FromNetwork an _ _ => an_now an = t | _ => True end.

Lemma method_handles r c (m : C unit) i t s s' :
  store s !! r = Some c → (∀ c', m c = Some (tt, c') → handle i (set_clock t c) = Some (tt, c')) →
  on_connection r m s = Some (tt, s') →
  ∃ c', handle i (set_clock t c) = Some (tt, c') ∧ s' = set_store (<[r := c']> (store s)) s.
Proof.
  intros Hr Hm E. unfold on_connection in E. rewrite Hr in E. simpl in E.
  destruct (m c) as [[[] c']|] eqn:Em; [|done]. simpl in E. injection E as <-. exists c'. split; [by apply Hm|done].
Qed.

(** A packet for a connection that is found. *)
Lemma sk_receive_found an packet from r c s s' :
  findConnection (getLookUp packet).2 s = Some r → store s !! r = Some c → sk_receive an packet from s = Some (tt, s') →
  ∃ c', handle (Arrives (getLookUp packet).1 from) (set_clock (an_now an) c) = Some (tt, c') ∧
    s' = set_store (<[r := c']> (store s)) s.
Proof.
  unfold sk_receive. destruct (getLookUp packet) as [p l]. cbn [fst snd]. intros Hf Hr (q&s1&E1&E)%bind_some.
  unfold findOrGenerateConnection in E1. apply bind_some in E1 as (?&?&[= <- <-]&E1). rewrite Hf in E1.
  injection E1 as <- <-. by apply (method_handles r c _ (Arrives p from) (an_now an)) in E.
Qed.

(** What a socket does to the connection an input is for. *)
Lemma sk_handle_target t i r c s s' :
  timed t i → target i s = Some r → store s !! r = Some c → sk_handle t i s = Some (tt, s') →
  ∃ j c', input_of i = Some j ∧ handle j (set_clock t c) = Some (tt, c') ∧ store s' !! r = Some c'.
Proof.
  intros Ht Hr Hc E. destruct i as [an packet from|randomLong random native_open remote o rh ch|sa a ch| |q i]; try done.
  - cbn [timed] in Ht. subst t. cbn [target sk_handle] in *. destruct (sk_receive_found _ _ _ _ _ _ _ Hr Hc E) as (c'&Ec&->).
    eexists _, c'. split_and!; [done|done|]. simpl. apply lookup_insert_eq.
  - injection Hr as ->. cbn [sk_handle] in E. apply bind_some in E as ([]&s1&E1&E).
    apply (method_handles r c _ i t) in E1 as (c'&Ec&->); [|done|done].
    eexists i, c'. split_and!; [done|done|]. transitivity (store (set_store (<[r:=c']> (store s)) s) !! r); [|simpl; apply lookup_insert_eq].
    destruct i; try (by injection E as <-). by apply erase_store in E as ->.
Qed.

(** ** Routing *)

(** A packet that travelled finds the peer of the connection that sent it. *)
Lemma wire_finds (n : Network) (s : Socket) (r : Ref) (w q : Packet) a :
  net_reachable n → (w, a) ∈ transmissions (alice n) → travels w q →
  (h_connection (p_header w) = 0 → longID (getLookUp w).2 = id (bob n)) →
  found_by_short s (localID (bob n)) = Some r → found_by_long s (id (bob n)) = Some r →
  findConnection (getLookUp q).2 s = Some r.
Proof.
  intros Hn Hw Hq Hlong Hs Hl. destruct (net_reachable_inv n Hn) as [Ha _ _ _ _ Hlb Hwired _].
  assert ((getLookUp q).2 = (getLookUp w).2) as ->.
  { apply getLookUp_equiv; [by destruct (travels_ok _ _ Hq)|]. by eapply travels_same; [exact (Forall_elem_of _ _ _ (wd_sent _ Hwired) Hw)|]. }
  pose proof (Forall_elem_of _ _ _ (ep_wired _ _ _ Ha) Hw) as Hid. cbn [fst] in Hid.
  unfold found_by_short, found_by_long in *. destruct (Z.eqb_spec (h_connection (p_header w)) 0) as [E|E].
  - rewrite <-Hl. f_equal. rewrite <-(Hlong E). unfold getLookUp. rewrite E. simpl.
    by destruct (popData w sizeof_LongConnectionID) as [? [?|]].
  - destruct Hid as [?|Hid]; [done|]. rewrite <-Hs, <-Hid. f_equal. unfold getLookUp. by rewrite (proj2 (Z.eqb_neq _ _) E).
Qed.

(** ** The beginning of a conversation *)

Lemma step_localID c i c' ins : reachable ins c → step c i c' → localID c' = localID c.
Proof.
  intros Hr [t _ Hv E]. pose proof (handle_keeps i (set_clock t c) (set_clock_inv t c (reachable_inv _ _ Hr)) Hv) as Hw.
  unfold wp in Hw. rewrite E in Hw. apply Hw.
Qed.

Lemma valid_used i c : valid i c → well_used i c.
Proof. destruct i as [| | | | |[o|]| | |d| |]; simpl; try done. by intros [_ ?]. Qed.

(** *** Both directions *)

(** What one end has said and heard: the data its user's sends had accepted, and the data packets
    that reached its receive queue. *)
Record Voice := mkVoice { said_by : bytes; heard_by : list Packet }.
Definition mute : Voice := mkVoice [] [].

Definition speaks (i : Input) (c : Connection) (v : Voice) : Voice :=
  mkVoice (said_by v ++ accepted i c) (heard_by v ++ overheard i c).

(** How the user of a connection uses it: see [conversation]. *)
Definition proper (v : Voice) (i : Input) (c : Connection) : Prop :=
  well_used i c ∧ (is_OpenUser i = true → heard_by v = []).

(** Two ends that converse in both directions. *)
Definition dialogue (va vb : Voice) (a b : Connection) : Prop :=
  conversation (said_by va) (heard_by vb) (mkNetwork a b) ∧ conversation (said_by vb) (heard_by va) (mkNetwork b a).

Lemma dialogue_swap va vb a b : dialogue va vb a b → dialogue vb va b a.
Proof. intros []. by split. Qed.

Lemma dialogue_init a b :
  initial a → initial b → 0 < localID a < 2 ^ 16 → 0 < localID b < 2 ^ 16 → dialogue mute mute a b.
Proof. intros. by split; apply conversation_init. Qed.

Lemma dialogue_step va vb a b i t a' :
  dialogue va vb a b → deliverable b i → proper va i (set_clock t a) → handle i (set_clock t a) = Some (tt, a') →
  dialogue (speaks i (set_clock t a) va) vb a' b.
Proof. intros [Hab Hba] Hd [Hu Ho] E. split; simpl; [by apply conversation_alice|by apply conversation_bob]. Qed.

(** A connection whose peer has not said anything, whoever that will be. *)
Definition alone (va : Voice) (a : Connection) : Prop :=
  ∀ b, initial b → 0 < localID b < 2 ^ 16 → dialogue va mute a b.

(** What begins the life of a connection is neither said nor heard. *)
Lemma birth_speaks i c v : birth i → valid i c → heard_by v = [] → speaks i c v = v ∧ proper v i c ∧ ∀ peer, deliverable peer i.
Proof. intros Hi Hv Hh%eq_sym. destruct v as [? ?]. cbn in Hh. subst. unfold speaks, proper. pose proof (valid_used _ _ Hv). destruct i; try done; by rewrite !app_nil_r. Qed.

Lemma born_alone ins a : reachable ins a → Forall birth ins → 0 < localID a < 2 ^ 16 → alone mute a.
Proof.
  induction 1 as [a Ha|ins a i a' Hr IH Hs]; intros Hf Hl b Hb Hlb.
  - by apply dialogue_init.
  - apply Forall_app in Hf as [Hf Hi]. rewrite Forall_singleton in Hi.
    rewrite (step_localID _ _ _ _ Hr Hs) in Hl. destruct Hs as [t _ Hv E].
    destruct (birth_speaks i (set_clock t a) mute Hi Hv eq_refl) as (Es&Hu&Hd).
    pose proof (dialogue_step mute mute a b i t a' (IH Hf Hl b Hb Hlb) (Hd b) Hu E) as Hc. by rewrite Es in Hc.
Qed.

Lemma born_hears va a ins b :
  alone va a → reachable ins b → Forall birth ins → 0 < localID b < 2 ^ 16 → dialogue va mute a b.
Proof.
  intros Ha. induction 1 as [b Hb|ins b i b' Hr IH Hs]; intros Hf Hl.
  - by apply Ha.
  - apply Forall_app in Hf as [Hf Hi]. rewrite Forall_singleton in Hi.
    rewrite (step_localID _ _ _ _ Hr Hs) in Hl. destruct Hs as [t _ Hv E].
    destruct (birth_speaks i (set_clock t b) mute Hi Hv eq_refl) as (Es&Hu&Hd).
    pose proof (dialogue_step mute va b a i t b' (dialogue_swap _ _ _ _ (IH Hf Hl)) (Hd a) Hu E) as Hc. rewrite Es in Hc. by apply dialogue_swap.
Qed.

(** The connection that [connect] returns. *)
Lemma connect_alone t randomLong random native_open remote o rh ch r s s' :
  sock_inv s → sk_valid t (UserConnect randomLong random native_open remote o rh ch) s →
  connect randomLong random native_open t remote o rh ch s = Some (Some r, s') →
  ∃ a, store s' !! r = Some a ∧ alone mute a.
Proof.
  intros Hs (Hr&[j Hj]&Hl&Hn&Ho) E.
  pose proof (connect_wp randomLong random j native_open t remote o rh ch s Hs Hr Hj Hl Hn Ho) as Hw.
  unfold wp in Hw. rewrite E in Hw. destruct Hw as (_&_&a&Ha&_&[Hla _]&_).
  destruct (connect_born _ _ _ _ _ _ _ _ _ _ _ E) as (q&c&Hc&Hq). rewrite <-(Hq r eq_refl) in Hc.
  assert (c = a) as -> by (pose proof (in_stored _ _ _ _ _ _ Hc); congruence).
  destruct (in_life _ _ _ _ _ _ Hc) as (ins&Hins&Hf); [by split_and!|]. exists a. split; [done|by eapply born_alone].
Qed.

(** The connection a socket makes for a packet of [a]. *)
Lemma accept_hears t an w from w0 d va a r b s s' :
  sock_inv s → sk_valid t (FromNetwork an w from) s → findConnection (getLookUp w).2 s = None →
  sk_receive an w from s = Some (tt, s') → store s !! r = None → store s' !! r = Some b → 0 < localID b < 2 ^ 16 →
  (w0, d) ∈ transmissions a → travels w0 w → alone va a → dialogue va mute a b.
Proof.
  intros Hs Hv Hf E Hnew Hb Hlb Hw Htr Ha. pose proof (getLookUp_longID w) as Hl. unfold sk_receive in E. cbn [sk_valid] in Hv.
  assert (deliverable a (Arrives (getLookUp w).1 from)) as Hd by (by exists (w0, d), w).
  pose proof (getLookUp_header w) as Hh. destruct (getLookUp w) as [p l]. cbn [fst snd] in *. destruct Hv as (Ht&[Hwf Hhp]&Han&Hp&Hh3&Hfrom&_). rewrite <-Hh in Hhp.
  specialize (Hl Hwf). pose proof Han as (_&_&Hu).
  apply bind_some in E as (q&s1&E1&E). unfold findOrGenerateConnection in E1. apply bind_some in E1 as (?&?&[= <- <-]&E1).
  rewrite Hf in E1. pose proof (generateConnection_wp an l p from s Hs Han Hl) as Hg. unfold wp in Hg. rewrite E1 in Hg.
  apply generateConnection_born in E1 as [[-> ->]|(Hty&x&c&Hc&Hq)]; [injection E as <-; congruence|].
  destruct (in_life _ _ _ _ _ _ Hc) as (ins&Hins&Hbirth); [by split_and!|].
  pose proof (in_stored _ _ _ _ _ _ Hc) as Hcs.
  assert (x = r) as ->.
  { destruct (decide (x = r)) as [|Hne]; [done|]. exfalso. assert (only_at x s s') as Ho.
    - etrans; [apply (in_only _ _ _ _ _ _ Hc)|]. destruct q as [q|]; [|by injection E as <-].
      rewrite <-(Hq q eq_refl). by eapply method_only.
    - rewrite (Ho r) in Hb by done. congruence. }
  destruct q as [q|]; cycle 1.
  { injection E as <-. assert (c = b) as -> by congruence. by eapply born_hears. }
  rewrite (Hq q eq_refl) in E. apply (method_handles r c _ (Arrives p from) (an_now an)) in E as (b'&Eh&->); [|done|done].
  simpl in Hb. rewrite lookup_insert_eq in Hb. injection Hb as ->.
  assert (speaks (Arrives p from) (set_clock (an_now an) c) mute = mute) as Es.
  { unfold speaks. cbn [overheard accepted]. unfold reaches. by rewrite Hty. }
  enough (dialogue va mute a c) as Hac.
  { pose proof (dialogue_step mute va c a _ (an_now an) b (dialogue_swap _ _ _ _ Hac) Hd (conj I (λ _, eq_refl)) Eh) as Hc'.
    rewrite Es in Hc'. by apply dialogue_swap. }
  eapply born_hears; [done|done|done|].
  destruct Hg as (_&_&c1&Hc1&Hra&_). rewrite (Hq q eq_refl), Hcs in Hc1. injection Hc1 as <-.
  rewrite <-(step_localID c (Arrives p from) b ins Hins); [done|]. apply (step_intro _ _ _ (an_now an)); [| |done].
  - rewrite (in_clock _ _ _ _ _ _ Hc); [lia|by split_and!].
  - split; [done|]. split; [done|]. split; [done|]. split; [done|by left].
Qed.

(** ** Conversations of sockets *)

(** Of the datagrams, only those of packets of [peer] find the connection; of the rest of its inputs, those that
    timers and users make. *)
Definition sent_by (peer : option Connection) (i : SockInput) : Prop :=
  match i with
  | FromNetwork _ packet _ => ∃ c w a, peer = Some c ∧ (w, a) ∈ transmissions c ∧ travels w packet
  | Concerns _ j => of_connection j = true
  | _ => True
  end.

Lemma sent_deliverable peer i j : sent_by (Some peer) i → input_of i = Some j → deliverable peer j.
Proof.
  destruct i as [an packet from| | | |r i]; intros Hs [= <-]; cbn [deliverable]; [|by destruct i].
  destruct Hs as (c&w&a&[= <-]&Ha&Hq). by exists (w, a), packet.
Qed.

Lemma unsent_deliverable i j peer : sent_by None i → input_of i = Some j → deliverable peer j.
Proof. destruct i as [an packet from| | | |r i]; intros Hs [= <-]; [by destruct Hs as (?&?&?&?&?)|by destruct i]. Qed.

(** What the connection [r] has said and heard after an input. *)
Definition part (t : Z) (i : SockInput) (r : Ref) (c : Connection) (s : Socket) (v : Voice) : Voice :=
  if decide (target i s = Some r) then
    match input_of i with Some j => speaks j (set_clock t c) v | None => v end
  else v.

(** The user of the connection [r] uses it as [conversation] asks for. *)
Definition used (v : Voice) (t : Z) (i : SockInput) (r : Ref) (c : Connection) (s : Socket) : Prop :=
  target i s = Some r → ∀ j, input_of i = Some j → proper v j (set_clock t c).

Definition stored (r : option Ref) (s : Socket) : option Connection := r ← r; store s !! r.

(** Two sockets: in one the user connects, which makes the connection [ra]; the other makes the
    connection [rb] for a packet from it; before, after and in between both do whatever they like
    with these and their other connections. *)
Inductive talk (ra : Ref) : Voice → Voice → option Ref → Socket → Socket → Prop :=
  | talk_connects t randomLong random native_open remote o rh ch sa sa' sb :
      sock_inv sa → sk_valid t (UserConnect randomLong random native_open remote o rh ch) sa →
      connect randomLong random native_open t remote o rh ch sa = Some (Some ra, sa') →
      talk ra mute mute None sa' sb
  | talk_accepts va sa sb a rb b t an w from sb' :
      talk ra va mute None sa sb → store sa !! ra = Some a → sock_inv sb →
      sk_valid t (FromNetwork an w from) sb → sent_by (Some a) (FromNetwork an w from) →
      target (FromNetwork an w from) sb = None → sk_handle t (FromNetwork an w from) sb = Some (tt, sb') →
      store sb !! rb = None → store sb' !! rb = Some b → found_by_short sb' (localID b) = Some rb →
      talk ra va mute (Some rb) sa sb'
  | talk_left va vb rb sa sb a t i sa' :
      talk ra va vb rb sa sb → store sa !! ra = Some a → timed t i →
      (target i sa = Some ra → sent_by (stored rb sb) i) → used va t i ra a sa →
      sk_handle t i sa = Some (tt, sa') → talk ra (part t i ra a sa va) vb rb sa' sb
  | talk_right va vb rb sa sb b t i sb' :
      talk ra va vb (Some rb) sa sb → store sb !! rb = Some b → timed t i →
      (target i sb = Some rb → sent_by (store sa !! ra) i) → used vb t i rb b sb →
      sk_handle t i sb = Some (tt, sb') → talk ra va (part t i rb b sb vb) (Some rb) sa sb'
  | talk_waits va vb sa sb t i sb' :
      talk ra va vb None sa sb → sk_handle t i sb = Some (tt, sb') → talk ra va vb None sa sb'.

(** One step of a socket is a step of its connection, or nothing to it. *)
Lemma sk_handle_part t i r c s s' v :
  timed t i → store s !! r = Some c → sk_handle t i s = Some (tt, s') →
  (store s' !! r = Some c ∧ part t i r c s v = v) ∨
  (∃ j c', target i s = Some r ∧ input_of i = Some j ∧ handle j (set_clock t c) = Some (tt, c') ∧
     store s' !! r = Some c' ∧ part t i r c s v = speaks j (set_clock t c) v).
Proof.
  intros Ht Hc E. unfold part. destruct (decide (target i s = Some r)) as [Hr|Hr].
  - right. destruct (sk_handle_target t i r c s s' Ht Hr Hc E) as (j&c'&Ej&Eh&Hc'). exists j, c'. by rewrite Ej.
  - left. split; [|done]. by eapply sk_handle_spares.
Qed.

(** The two connections converse; as long as there is no second, the first is alone. *)
Definition converse (ra : Ref) (va vb : Voice) (rb : option Ref) (sa sb : Socket) : Prop :=
  ∃ a, store sa !! ra = Some a ∧
    match rb with
    | Some rb => ∃ b, store sb !! rb = Some b ∧ dialogue va vb a b
    | None => vb = mute ∧ alone va a
    end.

Lemma talk_left_converse ra va vb rb sa sb a t i sa' :
  converse ra va vb rb sa sb → store sa !! ra = Some a → timed t i →
  (target i sa = Some ra → sent_by (stored rb sb) i) → used va t i ra a sa →
  sk_handle t i sa = Some (tt, sa') → converse ra (part t i ra a sa va) vb rb sa' sb.
Proof.
  intros (a0&Ea&IH) Ha Ht Hs Hu E. rewrite Ha in Ea. injection Ea as <-.
  destruct (sk_handle_part t i ra a sa sa' va Ht Ha E) as [[Ha' ->]|(j&a'&Hr&Ej&Eh&Ha'&->)]; [by exists a|].
  exists a'. split; [done|]. specialize (Hs Hr). specialize (Hu Hr j Ej). destruct rb as [rb|].
  - destruct IH as (b&Hb&IH). exists b. split; [done|]. simpl in Hs. rewrite Hb in Hs.
    apply dialogue_step; [done|by eapply sent_deliverable|done|done].
  - destruct IH as [-> IH]. split; [done|]. intros b Hb Hl.
    apply dialogue_step; [by apply IH|by eapply unsent_deliverable|done|done].
Qed.

Lemma talk_right_converse ra va vb rb sa sb b t i sb' :
  converse ra va vb (Some rb) sa sb → store sb !! rb = Some b → timed t i →
  (target i sb = Some rb → sent_by (store sa !! ra) i) → used vb t i rb b sb →
  sk_handle t i sb = Some (tt, sb') → converse ra va (part t i rb b sb vb) (Some rb) sa sb'.
Proof.
  intros (a&Ha&b0&Eb&IH) Hb Ht Hs Hu E. rewrite Hb in Eb. injection Eb as <-. exists a. split; [done|].
  destruct (sk_handle_part t i rb b sb sb' vb Ht Hb E) as [[Hb' ->]|(j&b'&Hr&Ej&Eh&Hb'&->)]; [by exists b|].
  exists b'. split; [done|]. rewrite Ha in Hs. specialize (Hs Hr).
  apply dialogue_swap, dialogue_step; [by apply dialogue_swap|by eapply sent_deliverable|by apply (Hu Hr)|done].
Qed.

Lemma talk_converse ra va vb rb sa sb : talk ra va vb rb sa sb → converse ra va vb rb sa sb.
Proof.
  induction 1 as [t randomLong random native_open remote o rh ch sa sa' sb Hs Hv E
    |va sa sb a rb b t an w from sb' _ (a0&Ea&_&Hal) Ha Hs Hv (c&w0&d&[= <-]&Hw&Hq) Hf E Hnew Hb Hfound| | |].
  - destruct (connect_alone _ _ _ _ _ _ _ _ _ _ _ Hs Hv E) as (a&Ha&Hal). exists a. by split_and!.
  - rewrite Ha in Ea. injection Ea as <-. exists a. split; [done|]. exists b. split; [done|].
    assert (sock_inv sb') as Hs' by (pose proof (sk_handle_wp _ _ _ Hs Hv) as Hw'; unfold wp in Hw'; by rewrite E in Hw').
    assert (0 < localID b < 2 ^ 16) as Hl.
    { assert (localID b ≠ 0) as Hl0 by (intros Hl0; rewrite Hl0 in Hfound; done).
      rewrite found_by_short_eq in Hfound by done. destruct (ki_short _ Hs' _ _ Hfound) as [Hin _]. by apply (ki_range _ Hs'). }
    cbn [sk_handle target] in *. eapply accept_hears; [exact Hs|exact Hv|done|exact E|done|done|done|exact Hw|done|done].
  - by eapply talk_left_converse.
  - by eapply talk_right_converse.
  - done.
Qed.

Lemma conversation_net said heard n : conversation said heard n → net_reachable n.
Proof.
  induction 1 as [n Hn|said heard a b i t a' _ IH Hd Hu E|said heard a b i t b' _ IH Hd Ho E].
  - by apply net_reachable_init.
  - eapply net_reachable_step; [exact IH|by econstructor].
  - eapply net_reachable_step; [exact IH|by econstructor].
Qed.

(** What [a] sends finds its peer [b], the connection [r] of [s]. *)
Definition finds (a b : Connection) (s : Socket) (r : Ref) : Prop :=
  ∀ w d q, (w, d) ∈ transmissions a → travels w q →
    (h_connection (p_header w) = 0 → longID (getLookUp w).2 = id b) →
    found_by_short s (localID b) = Some r → found_by_long s (id b) = Some r →
    findConnection (getLookUp q).2 s = Some r.

Lemma conversation_finds said heard a b s r : conversation said heard (mkNetwork a b) → finds a b s r.
Proof.
  intros Hc w d q Hw Hq Hl Hs Hlong. by eapply (wire_finds (mkNetwork a b)); [eapply conversation_net| | | | |].
Qed.
End sockets.

(** ** Claim *)

(** The reliable byte streams between two sockets. In one socket the user connects, the other
    makes a connection for a first packet from it; both sockets have any other connections, timers
    and users, and the network loses, repeats, delays and reorders packets. Packets travel as
    datagrams, received in whatever buffer. As long as nobody else
    sends packets that carry the ids of the two connections, they are two connections as in the
    claim about conversations, in both directions at once: the bytes handed to the user at either
    end are a prefix of the bytes accepted from the user at the other, and all of them once everything has
    arrived. And while a socket knows its connection, each packet of the peer finds it:
    by the short id, or by the long id while that is what it carries. *)
Lemma socket_stream `{!Zlib} (ra rb : Ref) (va vb : Voice) (sa sb : Socket) :
  talk ra va vb (Some rb) sa sb →
  ∃ a b, store sa !! ra = Some a ∧ store sb !! rb = Some b ∧
    streamed (said_by va) (heard_by vb) (mkNetwork a b) ∧ streamed (said_by vb) (heard_by va) (mkNetwork b a) ∧
    finds a b sb rb ∧ finds b a sa ra.
Proof.
  intros (a&Ha&b&Hb&Hab&Hba)%talk_converse. exists a, b.
  split_and!; [done|done|by apply conversation_stream|by apply conversation_stream|by eapply conversation_finds..].
Qed.

(** A socket connects to one that listens. *)
Definition connecting : Socket :=
  match connect (replicate 16 Byte.x09) 77 MRUDP_OK 5 (replicate 28 Byte.x01) None true true (Socket_init getDefaultConnectionOptions) with
  | Some (_, s) => s
  | None => Socket_init getDefaultConnectionOptions
  end.
Definition connecting_a : Connection := default example_connection (store connecting !! 0%nat).
Definition first_sent : Packet := default new_Packet (fst <$> head (transmissions connecting_a)).
Definition first_packet : Packet := (receive_into new_Packet (default [] (datagram first_sent))).1.
#[local] Existing Instance Zlib_stored.
#[local] Existing Instance ZlibLaws_stored.

Definition accepting : Socket :=
  match sk_receive example_answers first_packet example_from example_listener with
  | Some (_, s) => s
  | None => example_listener
  end.
Definition accepting_b : Connection := default example_connection (store accepting !! 0%nat).

Lemma connecting_eq :
  connect (replicate 16 Byte.x09) 77 MRUDP_OK 5 (replicate 28 Byte.x01) None true true
    (Socket_init getDefaultConnectionOptions) = Some (Some 0%nat, connecting) ∧
  store connecting !! 0%nat = Some connecting_a ∧ transmissions connecting_a = [(first_sent, None)].
Proof. split_and!; vm_compute; reflexivity. Qed.

Lemma accepting_eq :
  sk_receive example_answers first_packet example_from example_listener = Some (tt, accepting) ∧
  store accepting !! 0%nat = Some accepting_b ∧ found_by_short accepting (localID accepting_b) = Some 0%nat ∧
  findConnection (getLookUp first_packet).2 example_listener = None.
Proof. split_and!; vm_compute; reflexivity. Qed.

Lemma first_packet_travels : travels first_sent first_packet.
Proof.
  exists (default [] (datagram first_sent)), new_Packet. split_and!; [vm_compute; reflexivity|apply new_Packet_wf|].
  unfold first_packet. assert ((receive_into new_Packet (default [] (datagram first_sent))).2 = true) as E by (vm_compute; reflexivity).
  revert E. generalize (receive_into new_Packet (default [] (datagram first_sent))). intros [q b] E. simpl in E. by rewrite E.
Qed.

(** The first packet of a connection is one a socket can handle. *)
Lemma first_packet_valid :
  sk_valid 1000000000 (FromNetwork example_answers first_packet example_from) example_listener.
Proof.
  assert (length (p_data first_packet) = 1500%nat ∧ p_dataSize first_packet = 16 ∧
    h_type (p_header (getLookUp first_packet).1) = Packet.H0 ∧ length (p_data (getLookUp first_packet).1) = 1500%nat ∧
    p_dataSize (getLookUp first_packet).1 = 0) as (El&Es&Et&El1&Es1) by (vm_compute; by split_and!).
  pose proof (proj2 (proj2 (proj2 accepting_eq))) as Ef. pose proof (travels_ok _ _ first_packet_travels) as Hok.
  revert El Es Et El1 Es1 Ef Hok. generalize first_packet. intros w El Es.
  cbn [sk_valid]. destruct (getLookUp w) as [p l]. cbn [fst snd]. intros Et El1 Es1 Ef Hok.
  split; [done|]. split; [done|]. split_and!; [| | |done|by rewrite Ef].
  - split; [unfold in_u; simpl; lia|]. split; [|exact I]. exists 1. split; [lia|]. apply (not_elem_of_empty (C := gset Z)).
  - unfold data_packet_ok, packet_wf. by rewrite El1, Es1, Et.
  - unfold h3_ok. by rewrite Et.
Qed.

Lemma connecting_talk : talk 0 mute mute (Some 0%nat) connecting accepting.
Proof.
  destruct connecting_eq as (E&Ha&Ht), accepting_eq as (E2&Hb&Hfound&Hf). pose proof first_packet_valid as Hv.
  pose proof first_packet_travels as Hq.
  revert E Ha Ht E2 Hb Hfound Hf Hv Hq. generalize connecting connecting_a first_packet first_sent accepting accepting_b.
  intros sa a w w0 sb b E Ha Ht E2 Hb Hfound Hf Hv Hq.
  apply (talk_accepts 0 mute sa example_listener a 0 b 1000000000 example_answers w example_from);
    [|done|apply example_listener_inv|done| |done|done|done|done|done].
  - eapply talk_connects; [| |exact E].
    + apply Socket_init_inv; [split; simpl; lia|split; discriminate].
    + split; [split; reflexivity || discriminate|]. split; [exists 5; split; [lia|apply (not_elem_of_empty (C := gset Z))]|].
      split; [reflexivity|]. split; [discriminate|exact I].
  - exists a, w0, None. split_and!; [done| |done]. rewrite Ht. by left.
Qed.

Lemma socket_stream_witness :
  ∃ a b, store connecting !! 0%nat = Some a ∧ store accepting !! 0%nat = Some b ∧
    streamed [] [] (mkNetwork a b) ∧ streamed [] [] (mkNetwork b a) ∧ finds a b accepting 0 ∧ finds b a connecting 0.
Proof. apply (socket_stream 0 0 mute mute connecting accepting). exact connecting_talk. Defined.
