(* ===== verification/Host.v ===== *)
(** * A socket on its native layer

    [Socket.v] leaves open what becomes of the packets a connection sends and where arriving ones
    come from, [NativeLayer.v] who calls it. Here both are put together, as [Socket] and
    [imp::SocketImp] are in the program: what a connection does to the outside is done to the layer
    below, the native open of a new connection answers the socket above, and datagrams the system
    delivers go up to [Socket::receive].

    The events of a handler are carried out when the handler is done. The layer below answers none
    of them but the native open, which is asked before. *)

From S2P Require Import Prelude MemCopy Packet ReceiveQueue Types Asio Datagram Traffic Overlapped NativeLayer SendQueue Compression Float32 Rtt State Retrier Transmit Invariant Sender Connection Closing Wire NetworkPath Lifecycle Emission Moving Socket SocketLife.
#[local] Open Scope Z_scope.
#[local] Strategy 1000 [acquireShortConnectionID acquire_loop connect sk_receive].

Record Host {os : Os} := mkHost { above : Socket; below : SocketImp }.

Section host.
Context `{!Zlib} {os : Os}.

Definition at_above {A} (m : M Socket A) : M Host A := λ h,
  '(a, s) ← m (above h); Some (a, mkHost _ s (below h)).
Definition at_below {A} (m : M SocketImp A) : M Host A := λ h,
  '(a, w) ← m (below h); Some (a, mkHost _ (above h) w).

(** ** What a connection does to the outside *)

(** [Socket::send]; the result of the native send is not looked at. *)
Definition Socket_send (r : Ref) (p : Packet) (to : option Address) : M Host unit :=
  if shouldDrop then mret tt
  else at_below (SocketImp_send p r to);; mret tt.

(** Timers and callbacks of the user are not the layer's. *)
Definition perform (r : Ref) (e : Event) : M Host unit :=
  match e with
  | Sent p to => Socket_send r p to
  | AddressChanged a => at_below (Asio.onRemoteAddressChanged r a)
  | _ => mret tt
  end.

(** What the connections have done between [s] and [s']. *)
Definition events_of (s : Socket) (r : Ref) : list Event := default [] (events <$> store s !! r).

Definition news (s s' : Socket) : list (Ref * Event) :=
  x ← map_to_list (store s'); pair x.1 <$> drop (length (events_of s x.1)) (events x.2).

(** An operation of the socket, and what it has the layer do. *)
Definition run (m : M Socket unit) : M Host unit :=
  s ← gets above;
  at_above m;;
  s' ← gets above;
  mapM_ (λ x, perform x.1 x.2) (news s s').

(** ** The socket and its connections *)

(** [Socket::open]: when the address cannot be had the exception goes through. *)
Definition Socket_open (addr : Address) : M Host Outcome :=
  o ← at_below (acquireAddress addr);
  match o with
  | Threw => mret Threw
  | Returned => at_below SocketImp_open;; mret Returned
  end.

(** [Socket::~Socket]; giving up [imp] destroys it. *)
Definition Socket_destroy : M Host unit :=
  at_below SocketImp_close;;
  at_below SocketImp_destroy;;
  run sk_closeUser.

Definition Socket_getLocalAddress : M Host Address := at_below getLocalAddress.

(** [Connection::open]: the native part of a new connection. *)
Definition native_part (r : Ref) (remote : Address) : M Host Z :=
  at_below (new_ConnectionImp r remote;; ConnectionImp_open r).

(** [mrudp_connect_ex] *)
Definition host_connect (t : Z) (randomLong : list byte) (random : Z) (remote : Address)
    (o : option ConnectionOptions) (rh ch : bool) : M Host unit :=
  s ← gets above;
  status ← native_part (fresh (dom (store s))) remote;
  run (connect randomLong random status t remote o rh ch;; mret tt).

(** The guards of [generateConnection]: whether it comes to open a connection. *)
Definition generates (an : Answers) (l : LookUp) (p : Packet) (from : Address) (s : Socket) : bool :=
  bool_decide (findConnection l s = None) && negb (isFull s) && (h_type (p_header p) =? Packet.H0) &&
  negb (LongConnectionID_eqb (longID l) NullLongConnectionID) && acceptHandler s &&
  negb (shouldAccept s && mrudp_failed (an_shouldAccept an from)).

Definition with_open (status : Z) (an : Answers) : Answers :=
  mkAnswers (an_shouldAccept an) (an_random an) status (an_now an) (an_accept an) (an_openUser an).

(** [Socket::receive]; what the native open answers is no answer of [an]. *)
Definition host_receive (an : Answers) (packet : Packet) (from : Address) : M Host unit :=
  s ← gets above;
  let '(p, l) := getLookUp packet in
  status ← (if generates an l p from s then native_part (fresh (dom (store s))) from else mret MRUDP_OK);
  run (sk_receive (with_open status an) packet from).

(** The completion of the [i]-th receive: [on_received] with the socket above. The next receive uses the
    packet again, from which [Socket::receive] has popped the long id; what a connection pops from it
    besides only lowers its size, which receiving sets anew. *)
Definition host_received (an : Answers) (i : nat) (result : option (Endpoint * bytes)) : M Host unit :=
  x ← at_below (w ← mget; lift (receiving w !! i));
  at_below (modify (λ w, set_receiving (delete i (receiving w)) w));;
  p ← match result with
      | None => mret (rv_packet x)
      | Some (from, d) =>
        let '(p, ok) := receive_into (rv_packet x) d in
        when ok (at_below (handleReceiveFrom (toAddr from) p);; host_receive an p (toAddr from));;
        mret (if ok then (getLookUp p).1 else p)
      end;
  at_below (w ← mget;
    match lock_native (Some (rv_socket x)) w with
    | Some n => doReceive n p
    | None => mret tt
    end).

(** [Connection::~Connection]: the native part goes. *)
Definition Connection_destroy (r : Ref) : M Host unit := at_below (delete_ConnectionImp r).

(** ** Inputs *)

Inductive HostInput :=
  | SocketOpens (addr : Address)
  | SocketDies
  | Connects (randomLong : list byte) (random : Z) (remote : Address) (o : option ConnectionOptions) (rh ch : bool)
  | Listens (sa a ch : bool)
  | ClosesSocket
  | ClosesNative                             (* mrudp_close_socket_native *)
  | Relocates (addr : Address) (order : list Ref)
  | About (r : Ref) (i : Input)              (* a timer of a connection, or a call of its user *)
  | ConnectionDies (r : Ref)                 (* Connection::~Connection *)
  | SendDone (i : nat)
  | ReceiveDone (an : Answers) (i : nat) (result : option (Endpoint * bytes)).

Definition host_handle (t : Z) (i : HostInput) : M Host unit :=
  match i with
  | SocketOpens addr => Socket_open addr;; mret tt
  | SocketDies => Socket_destroy
  | Connects randomLong random remote o rh ch => host_connect t randomLong random remote o rh ch
  | Listens sa a ch => run (listen sa a ch)
  | ClosesSocket => run sk_close
  | ClosesNative => at_below SocketImp_close
  | Relocates addr order => at_below (relocate addr order);; mret tt
  | About r i => run (sk_handle t (Concerns r i))
  | ConnectionDies r => Connection_destroy r
  | SendDone i => at_below (on_sent i)
  | ReceiveDone an i result => host_received an i result
  end.

(** [r] can be found in the socket. *)
Definition listed (s : Socket) (r : Ref) : Prop :=
  (∃ l, connections s !! l = Some r) ∨ (∃ i, receiveConnections s !! i = Some r).

(** The inputs the theorems are about: those of [sk_valid] on connections that still are, and
    completions of operations under way. The headers and sizes of packets are what
    [receive_into] makes them. *)
Definition host_valid (t : Z) (i : HostInput) (h : Host) : Prop :=
  match i with
  | Connects randomLong random remote o rh ch => sk_valid t (UserConnect randomLong random MRUDP_OK remote o rh ch) (above h)
  | Relocates _ order => Forall (listed (above h)) order
  | About r i => sk_valid t (Concerns r i) (above h) ∧ is_Some (imps (below h) !! r)
  | ConnectionDies r => is_Some (imps (below h) !! r) ∧ ¬ listed (above h) r
  | SendDone i => is_Some (sending (below h) !! i)
  | ReceiveDone an i result =>
    ∃ x, receiving (below h) !! i = Some x ∧ an_now an = t ∧ answers_ok (above h) an ∧
    ∀ e d p, result = Some (e, d) → endpoint_wf e ∧
      (receive_into (rv_packet x) d = (p, true) → data_packet_ok (getLookUp p).1 ∧ h3_ok (getLookUp p).1 ∧
       ∀ r c, findConnection (getLookUp p).2 (above h) = Some r → store (above h) !! r = Some c → challenge_ok (toAddr e) c)
  | _ => True
  end.

Lemma findConnection_listed l s r : findConnection l s = Some r → listed s r.
Proof. unfold findConnection. destruct (negb _); [by left; eexists|]. destruct (negb _); [by right; eexists|done]. Qed.

Definition Host_init (o : ConnectionOptions) (os_state : OsState) (opts : OptionsImp) : Host :=
  mkHost _ (Socket_init o) (SocketImp_init os_state opts).

Inductive host_reachable : Z → Host → Prop :=
  | host_reachable_init t o os_state opts : options_ok o → uncompressed o → host_reachable t (Host_init o os_state opts)
  | host_reachable_step t t' i h h' :
      host_reachable t h → t ≤ t' → host_valid t' i h → host_handle t' i h = Some (tt, h') → host_reachable t' h'.

(** ** Carrying out events *)

Lemma wp_below {A} (m : M SocketImp A) (Q : A → Host → Prop) h :
  wp m (λ a w, Q a (mkHost _ (above h) w)) (below h) → wp (at_below m) Q h.
Proof. unfold wp, at_below. by destruct (m (below h)) as [[a w]|]. Qed.
Lemma wp_above {A} (m : M Socket A) (Q : A → Host → Prop) h :
  wp m (λ a s, Q a (mkHost _ s (below h))) (above h) → wp (at_above m) Q h.
Proof. unfold wp, at_above. by destruct (m (above h)) as [[a s]|]. Qed.

Lemma wp_above_kept {A} (Q : A → Host → Prop) (m : M SocketImp A) h :
  wp (at_below m) Q h → wp (at_below m) (λ a h', Q a h' ∧ above h' = above h) h.
Proof. unfold wp, at_below. by destruct (m (below h)) as [[a w]|]. Qed.

(** What a computation that is defined does. *)
Lemma wp_always {A} (m : M SocketImp A) (R : SocketImp → Prop) Q w :
  (∀ a w', m w = Some (a, w') → R w') → wp m Q w → wp m (λ a w', Q a w' ∧ R w') w.
Proof. unfold wp. destruct (m w) as [[a w']|]; [|done]. intros HR HQ. split; [done|by eapply HR]. Qed.

(** A layer after [es], where the connection [r] was at [a]. *)
Record layer_after (P : Asio.Send → Prop) (r : Ref) (a : Address) (es : list Event) (w w' : SocketImp) : Prop := {
  la_inv : native_inv none w';
  la_addresses : addresses w' = <[r := last_address a es]> (addresses w);
  la_carried : carried P w → carried P w';
}.

Definition event_wf (e : Event) : Prop := match e with Sent p _ => packet_wf p | _ => True end.

Lemma perform_wp P r a e h :
  native_inv none (below h) → addresses (below h) !! r = Some a → event_wf e →
  (∀ p to, e = Sent p to → P (Asio.mkSend (default a to) p)) →
  wp (perform r e) (λ _ h', above h' = above h ∧ layer_after P r a [e] (below h) (below h')) h.
Proof.
  intros Hi Ha Hwf HP. assert (last_address a [e] = a → layer_after P r a [e] (below h) (below h)) as Hsame by (intros E; split; [done|by rewrite E, insert_id|done]).
  assert (∃ i, imps (below h) !! r = Some i ∧ Asio.remoteAddress i = a) as (i&Hr&Hra).
  { unfold addresses in Ha. rewrite lookup_fmap in Ha. destruct (imps (below h) !! r) as [i|]; [|done]. exists i. by injection Ha. }
  destruct e; cbn [perform]; try (apply wp_ret; split; [done|by apply Hsame]).
  - unfold Socket_send, shouldDrop. apply wp_bind, wp_below. eapply wp_mono; [apply (wp_always _ (conveys P (below h)))|].
    + intros b w'. apply conveys_SocketImp_send. intros j Hj. rewrite Hr in Hj. injection Hj as <-. rewrite Hra. by apply HP.
    + by eapply SocketImp_send_wp.
    + intros b w' [Hi' [Hc He]]. apply wp_ret. split; [done|]. split; [done|simpl; by rewrite He, insert_id|done].
  - apply wp_below. eapply wp_mono; [apply (wp_always _ (λ w', (carried P (below h) → carried P w') ∧ addresses w' = <[r := a0]> (addresses (below h))))|].
    + intros b w'. apply told.
    + by eapply address_changed_wp.
    + intros [] w' (Hi'&Hc&He). by split.
Qed.

Lemma perform_all_wp P r a es h :
  native_inv none (below h) → addresses (below h) !! r = Some a → Forall event_wf es →
  (∀ es1 p to es2, es = es1 ++ Sent p to :: es2 → P (Asio.mkSend (default (last_address a es1) to) p)) →
  wp (mapM_ (λ x, perform x.1 x.2) (pair r <$> es)) (λ _ h', above h' = above h ∧ layer_after P r a es (below h) (below h')) h.
Proof.
  revert h a. induction es as [|e es IH]; intros h a Hi Ha Hwf HP; simpl.
  { apply wp_ret. split; [done|]. split; [done|simpl; by rewrite insert_id|done]. }
  apply Forall_cons_1 in Hwf as [He Hwf]. apply wp_bind.
  eapply wp_mono; [apply (perform_wp P r a e); [done|done|done|intros p to ->; by apply (HP [] p to es)]|].
  intros [] h1 (Ea1&[Hi1 He1 Hc1]). eapply wp_mono; [apply (IH h1 (last_address a [e])); [done| |done|]|].
  - rewrite He1. apply lookup_insert_eq.
  - intros es1 p to es2 ->. exact (HP (e :: es1) p to es2 eq_refl).
  - intros [] h2 (Ea2&[Hi2 He2 Hc2]). split; [congruence|]. split; [done| |auto]. rewrite He2, He1, insert_insert_eq. done.
Qed.

(** *** News *)

Lemma bind_singled {A B} (f : A → list B) (x : A) (l : list A) :
  NoDup l → x ∈ l → (∀ y, y ∈ l → y ≠ x → f y = []) → l ≫= f = f x.
Proof.
  induction l as [|y l IH]; intros Hn Hx Hf; [by apply elem_of_nil in Hx|]. inversion_clear Hn as [|? ? Hy Hn2]; rename Hn2 into Hn. rewrite bind_cons.
  apply elem_of_cons in Hx as [->|Hx].
  - assert (l ≫= f = []) as ->; [|by rewrite app_nil_r].
    assert (∀ z, z ∈ l → f z = []) as Hl by (intros z Hz; apply Hf; [by right|congruence]).
    clear -Hl. induction l as [|z l IH]; [done|]. rewrite bind_cons, Hl by (by left). apply IH. intros. apply Hl. by right.
  - rewrite Hf; [|by left|congruence]. apply IH; [done|done|]. intros z Hz. apply Hf. by right.
Qed.

Lemma news_only r c' s s' :
  only_at r s s' → store s' !! r = Some c' → news s s' = pair r <$> drop (length (events_of s r)) (events c').
Proof.
  intros Ho Hr. unfold news. rewrite (bind_singled _ (r, c')); [done|apply NoDup_map_to_list|by apply elem_of_map_to_list|].
  intros [q c] Hq%elem_of_map_to_list Hne. simpl. assert (q ≠ r) as Hqr by (intros ->; congruence).
  rewrite (Ho q Hqr) in Hq. unfold events_of. rewrite Hq. simpl. by rewrite drop_all.
Qed.

Lemma news_none s s' : store s' = store s → news s s' = [].
Proof.
  intros E. unfold news. rewrite E. assert (∀ x, x ∈ map_to_list (store s) → store s !! x.1 = Some x.2) as Hl.
  { intros [q c] ?. by apply elem_of_map_to_list. }
  induction (map_to_list (store s)) as [|x l IH]; [done|]. rewrite bind_cons, IH by (intros; apply Hl; by right).
  unfold events_of. rewrite (Hl x) by (by left). simpl. by rewrite drop_all.
Qed.

(** *** What an operation of the socket does to one connection *)

(** Of [s], only the connection [r] is touched: it had done [before] and was at [a]. *)
Record touched (r : Ref) (before : list Event) (a : Address) (s s' : Socket) : Prop := {
  to_only : only_at r s s';
  to_moved : ∃ c' es, store s' !! r = Some c' ∧ events c' = before ++ es ∧ State.remoteAddress c' = last_address a es;
  to_listed : ∀ q, listed s' q → listed s q ∨ q = r;
}.

Lemma touched_self r c s : store s !! r = Some c → touched r (events c) (State.remoteAddress c) s s.
Proof. intros Hr. split; [done|exists c, []; by rewrite app_nil_r|by left]. Qed.

Lemma touched_maps r b a s s1 s2 :
  touched r b a s s1 → store s2 = store s1 → (∀ q, listed s2 q → listed s1 q ∨ q = r) → touched r b a s s2.
Proof.
  intros [Ho Hm Hl] E Hl2. split; [etrans; [exact Ho|by apply store_only]|by rewrite E|].
  intros q [?|?]%Hl2; [by apply Hl|by right].
Qed.

Lemma touched_method {A} r b a (m : C A) x s s1 s2 :
  touched r b a s s1 → respects moves m → on_connection r m s1 = Some (x, s2) → touched r b a s s2.
Proof.
  intros [Ho (c&es&Hr&Ee&Ea) Hl] Hm E. pose proof (method_only _ _ _ _ _ E) as Ho2. unfold on_connection in E. rewrite Hr in E. simpl in E.
  destruct (m c) as [[y c']|] eqn:Em; [|done]. simpl in E. injection E as _ <-. destruct (Hm _ _ _ Em) as (fs&Ef&Ef2).
  split; [by etrans| |exact Hl]. exists c', (es ++ fs). simpl. rewrite lookup_insert_eq. split_and!; [done|by rewrite Ef, Ee, app_assoc|].
  by rewrite Ef2, Ea, last_address_app.
Qed.

Lemma insert_listed r s s' : insert r s = Some (tt, s') → store s' = store s ∧ ∀ q, listed s' q → listed s q ∨ q = r.
Proof.
  unfold insert. destruct (store s !! r) as [c|]; [|done]. intros [= <-]. split; [done|].
  intros q [(l&Hl)|(i&Hi)]; simpl in *.
  - apply lookup_insert_Some in Hl as [[_ <-]|[_ Hl]]; [by right|left; left; eauto].
  - apply lookup_insert_Some in Hi as [[_ <-]|[_ Hi]]; [by right|left; right; eauto].
Qed.

Lemma erase_listed r s s' : erase r s = Some (tt, s') → store s' = store s ∧ ∀ q, listed s' q → listed s q.
Proof.
  unfold erase, releaseShortConnectionID, mbind, M_bind, modify. destruct (store s !! r) as [c|]; [|done]. simpl. intros [= <-].
  split; [done|]. intros q. unfold listed. simpl. intros [(l&[_ Hl]%lookup_delete_Some)|(i&[_ Hi]%lookup_delete_Some)]; [left|right]; eauto.
Qed.

Lemma acquire_listed random j s s' :
  acquireShortConnectionID random s = Some (j, s') → store s' = store s ∧ service_options s' = service_options s ∧ ∀ q, listed s' q → listed s q.
Proof.
  unfold acquireShortConnectionID. generalize (Z.to_nat (2 ^ 16)). intros fuel. revert random.
  induction fuel as [|fuel IH]; intros i; [done|]. cbn [acquire_loop]. unfold mbind, M_bind, mget, modify.
  destruct (_ || _); [apply IH|by intros [= _ <-]].
Qed.

Lemma new_touched random i s s1 c r s2 :
  acquireShortConnectionID random s = Some (i, s1) → events c = [] → new_connection c s1 = Some (r, s2) →
  r = fresh (dom (store s)) ∧ touched r [] (State.remoteAddress c) s s2.
Proof.
  intros (Es&_&Hl)%acquire_listed Ec. unfold new_connection, mbind, M_bind, mget, modify. rewrite Es. intros [= <- <-].
  split; [done|]. split.
  - intros q Hq. simpl. by rewrite lookup_insert_ne by done.
  - exists c, []. simpl. rewrite lookup_insert_eq. by split_and!.
  - intros q Hq. left. by apply Hl.
Qed.

Lemma open_moves status : respects moves (Connection.open status).
Proof.
  intros c a c' E. destruct (open_input _ _ _ _ E) as [_ [[_ ->]|Eh]]; [done|]. by eapply handle_moves.
Qed.

Lemma connect_touched randomLong random native_open t remote o rh ch a s s' :
  connect randomLong random native_open t remote o rh ch s = Some (a, s') →
  touched (fresh (dom (store s))) [] remote s s'.
Proof.
  unfold connect. intros (?&?&[= <- <-]&(i&s1&E1&(r&s2&E2&E)%bind_some)%bind_some)%bind_some.
  eapply new_touched in E2 as [Er H2]; [|exact E1|done]. cbn [State.remoteAddress Connection_init] in H2. clear E1. rewrite <-Er. clear Er.
  apply bind_some in E as ([]&s3&E3&([]&s4&[E4 L4]%insert_listed&(st&s5&E5&E)%bind_some)%bind_some).
  eapply touched_method in E3; [|exact H2|apply (handle_moves (OpenUser o rh ch))].
  apply (touched_maps _ _ _ _ _ s4) in E3; [|done|done]. eapply touched_method in E5; [|exact E3|apply open_moves].
  destruct (mrudp_failed st).
  - apply bind_some in E as ([]&s6&[E6 L6]%erase_listed&[= _ <-]). eapply touched_maps; [exact E5|done|]. intros q ?. left. by apply L6.
  - apply bind_some in E as ([]&s6&E6&[= _ <-]). eapply touched_method; [exact E5|apply (handle_moves Initiate)|exact E6].
Qed.

Lemma generate_touched an l p from a s s' :
  findConnection l s = None → generateConnection an l p from s = Some (a, s') →
  if generates an l p from s then touched (fresh (dom (store s))) [] from s s' ∧ (∀ q, a = Some q → q = fresh (dom (store s)))
  else a = None ∧ s' = s.
Proof.
  intros Hf. unfold generateConnection, generates. rewrite bool_decide_true by done. intros (?&?&[= <- <-]&E)%bind_some.
  destruct (isFull s); [injection E as <- <-; by split|]. destruct (_ =? Packet.H0); [|injection E as <- <-; by split].
  cbn [negb andb] in *. destruct (LongConnectionID_eqb _ _); [injection E as <- <-; by split|]. cbn [negb andb] in *.
  destruct (acceptHandler s); [|injection E as <- <-; by split]. cbn [negb andb] in *.
  destruct (shouldAccept s && _); [injection E as <- <-; by split|]. cbn [negb].
  apply bind_some in E as (i&s1&E1&(r&s2&E2&([]&s3&[E3 L3]%insert_listed&(st&s4&E4&E)%bind_some)%bind_some)%bind_some).
  eapply new_touched in E2 as [Er H2]; [|exact E1|done]. cbn [State.remoteAddress Connection_init] in H2. clear E1. rewrite <-Er. clear Er.
  apply (touched_maps _ _ _ _ _ s3) in H2; [|done|done]. eapply touched_method in E4; [|exact H2|apply open_moves].
  destruct (mrudp_failed st).
  { apply bind_some in E as ([]&s5&[E5 L5]%erase_listed&[= <- <-]). split; [|done]. eapply touched_maps; [exact E4|done|]. intros q ?. left. by apply L5. }
  apply bind_some in E as ([]&s5&E5&E). assert (touched r [] from s s5) as H5.
  { destruct (an_openUser an) as [[[o rh] ch]|]; [|by injection E5 as <-].
    eapply touched_method; [exact E4|apply (handle_moves (OpenUser o rh ch))|exact E5]. }
  destruct (mrudp_failed (an_accept an)).
  - apply bind_some in E as ([]&s6&E6&[= <- <-]). split; [|done]. eapply touched_method; [exact H5|apply (handle_moves NotAccepted)|exact E6].
  - injection E as <- <-. split; [done|]. by intros q [= <-].
Qed.

Lemma clock_moves {A} t (m : C A) : respects moves m → respects moves (modify (set_clock t);; m).
Proof. intros Hm. apply (respects_bind _); [by apply moves_modify|done]. Qed.

Lemma sk_receive_touched an packet from s s' :
  sk_receive an packet from s = Some (tt, s') →
  match findConnection (getLookUp packet).2 s with
  | Some r => ∀ c, store s !! r = Some c → touched r (events c) (State.remoteAddress c) s s'
  | None => if generates an (getLookUp packet).2 (getLookUp packet).1 from s then touched (fresh (dom (store s))) [] from s s' else s' = s
  end.
Proof.
  unfold sk_receive. destruct (getLookUp packet) as [p l]. cbn [fst snd]. intros (a&s1&E1&E)%bind_some.
  unfold findOrGenerateConnection in E1. apply bind_some in E1 as (?&?&[= <- <-]&E1).
  assert (respects moves (modify (set_clock (an_now an));; receive p from)) as Hm by apply clock_moves, moves_receive.
  destruct (findConnection l s) as [r|] eqn:Ef.
  - injection E1 as <- <-. intros c Hc. eapply touched_method; [by apply touched_self|exact Hm|exact E].
  - apply generate_touched in E1; [|done]. destruct (generates an l p from s).
    + destruct E1 as [H1 Hq]. destruct a as [r|]; [|by injection E as <-]. rewrite (Hq r eq_refl) in E. by eapply touched_method.
    + destruct E1 as [-> ->]. by injection E as <-.
Qed.

Lemma concerns_touched t r i c s s' :
  store s !! r = Some c → sk_handle t (Concerns r i) s = Some (tt, s') → touched r (events c) (State.remoteAddress c) s s'.
Proof.
  intros Hc ([]&s1&E1&E)%bind_some. eapply touched_method in E1; [|by apply touched_self|apply clock_moves, handle_moves].
  destruct i; try (by injection E as <-). apply erase_listed in E as [E L]. eapply touched_maps; [exact E1|done|]. intros q ?. left. by apply L.
Qed.

(** ** The invariant of hosts *)

(** [t] is a send of a connection: it put the packet on the wire, for the given address or else
    for the address it was at then; [born r] is where the connection [r] began. *)
Definition origin (born : Ref → Address) (s : Socket) (t : Asio.Send) : Prop :=
  ∃ r c es1 es2 to, store s !! r = Some c ∧ events c = es1 ++ Sent (packet t) to :: es2 ∧
    address t = default (last_address (born r) es1) to.

(** The socket is in a state that [SocketLife.v] reaches. *)
Definition lives (t : Z) (s : Socket) : Prop := ∃ t0, t0 ≤ t ∧ sk_reachable t0 s.

Record host_inv (born : Ref → Address) (t : Z) (h : Host) : Prop := {
  hi_life : lives t (above h);
  hi_native : native_inv none (below h);
  hi_born : ∀ r c, store (above h) !! r = Some c → State.remoteAddress c = last_address (born r) (events c);
  hi_addresses : ∀ r a, addresses (below h) !! r = Some a → ∃ c, store (above h) !! r = Some c ∧ State.remoteAddress c = a;
  hi_listed : ∀ r, listed (above h) r → is_Some (addresses (below h) !! r);
  hi_carried : carried (origin born (above h)) (below h);
}.

Lemma lives_ok t s : lives t s → sock_inv s ∧ members t s.
Proof. intros (t0&Ht&[Hs Hm]%sk_reachable_ok). split; [done|by eapply members_mono]. Qed.

Lemma hi_sock born t h : host_inv born t h → sock_inv (above h).
Proof. intros [Hl _ _ _ _ _]. by eapply lives_ok. Qed.

(** A step of the socket in its place. *)
Lemma lives_step t i s s' : lives t s → sk_valid t i s → sk_handle t i s = Some (tt, s') → lives t s'.
Proof. intros (t0&Ht&Hr) Hv E. exists t. split; [done|]. by eapply sk_reachable_step. Qed.

Lemma event_wf_reachable ins c : reachable ins c → Forall event_wf (events c).
Proof.
  intros Hw%reachable_wired. pose proof (wd_sent _ Hw) as Hs. unfold transmissions in Hs. apply Forall_forall.
  intros e He%list_elem_of_In. destruct e as [p to| | | | |]; try done. cbn [event_wf].
  assert ((p, to) ∈ omap transmission (events c)) as Hin by (apply list_elem_of_omap; by exists (Sent p to)).
  apply (Forall_elem_of _ _ _ Hs Hin).
Qed.

(** The origins of what was sent before are still there. *)
Lemma origin_mono born r b a s s' t :
  touched r b a s s' → b = events_of s r → origin born s t → origin born s' t.
Proof.
  intros [Ho (c'&es&Hr&Ee&_) _] -> (q&c&es1&es2&to&Hq&Eq&Ha). destruct (decide (q = r)) as [->|Hne].
  - exists r, c', es1, (es2 ++ es), to. split_and!; [done| |done]. rewrite Ee. unfold events_of. rewrite Hq. simpl. rewrite Eq. by rewrite <-app_assoc.
  - exists q, c, es1, es2, to. by rewrite (Ho q Hne).
Qed.

(** The invariant but for the connection [r], whose native part is there, at [a]. *)
Record host_but (born : Ref → Address) (r : Ref) (a : Address) (h : Host) : Prop := {
  hb_native : native_inv none (below h);
  hb_here : addresses (below h) !! r = Some a;
  hb_born : ∀ q c, store (above h) !! q = Some c → State.remoteAddress c = last_address (born q) (events c);
  hb_addresses : ∀ q x, q ≠ r → addresses (below h) !! q = Some x → ∃ c, store (above h) !! q = Some c ∧ State.remoteAddress c = x;
  hb_listed : ∀ q, listed (above h) q → is_Some (addresses (below h) !! q);
  hb_carried : carried (origin born (above h)) (below h);
}.

Lemma inv_but born t r c h :
  host_inv born t h → store (above h) !! r = Some c → is_Some (imps (below h) !! r) → host_but born r (State.remoteAddress c) h.
Proof.
  intros [Hs Hn Hb Ha Hl Hc] Hr [i Hi]. split; try done; [|intros q x _; apply Ha].
  assert (addresses (below h) !! r = Some (Asio.remoteAddress i)) as E by (unfold addresses; by rewrite lookup_fmap, Hi).
  destruct (Ha _ _ E) as (c'&Hc'&E'). rewrite E. congruence.
Qed.

(** What the layer carries after an operation that touched [r]. *)
Lemma new_origin born r b a s s' c' es :
  touched r b a s s' → store s' !! r = Some c' → events c' = b ++ es → a = last_address (born r) b →
  ∀ es1 p to es2, es = es1 ++ Sent p to :: es2 → origin born s' (Asio.mkSend (default (last_address a es1) to) p).
Proof.
  intros _ Hr Ee -> es1 p to es2 ->. exists r, c', (b ++ es1), es2, to. simpl. split_and!; [done|by rewrite Ee, app_assoc|].
  by rewrite last_address_app.
Qed.

Lemma run_wp born t m r a h s' :
  host_but born r a h → a = last_address (born r) (events_of (above h) r) → m (above h) = Some (tt, s') →
  touched r (events_of (above h) r) a (above h) s' → lives t s' → wp (run m) (λ _, host_inv born t) h.
Proof.
  intros [Hn Hh Hb Ha Hl Hc] Ea E Ht Hlive. pose proof Ht as [Ho (c'&es&Hr&Ee&Er) Hls]. destruct (lives_ok _ _ Hlive) as [_ Hm].
  unfold run. apply wp_bind, wp_gets, wp_bind, wp_above. unfold wp at 1. rewrite E. apply wp_bind, wp_gets. cbn [above].
  rewrite (news_only r c' _ _ Ho Hr), Ee, drop_app_length. destruct (Hm r c' Hr) as [_ (ins&Hins)].
  pose proof (event_wf_reachable ins c' Hins) as Hwf. rewrite Ee in Hwf. apply Forall_app in Hwf as [_ Hwf].
  eapply wp_mono; [apply (perform_all_wp (origin born s') r a es); [done|done|done|by eapply new_origin]|].
  intros [] h' (Eab&[Hn' He' Hc']). cbn [above below] in *. split; rewrite ?Eab; try done.
  - intros q c Hq. destruct (decide (q = r)) as [->|Hne].
    + assert (c = c') as -> by congruence. by rewrite Ee, last_address_app, Er, <-Ea.
    + apply Hb. by rewrite <-(Ho q Hne).
  - intros q x. rewrite He'. intros [[<- <-]|[Hne Hx]]%lookup_insert_Some; [by exists c'|].
    destruct (Ha q x) as (c&Hq&?); [done|done|]. exists c. by rewrite (Ho q) by done.
  - intros q Hq. rewrite He'. apply lookup_insert_is_Some'. destruct (Hls q Hq) as [?| ->]; [right; by apply Hl|by left].
  - apply Hc'. eapply carried_impl; [|exact Hc]. intros x. by eapply origin_mono.
Qed.

(** An operation that leaves the connections alone. *)
Lemma run_still_wp born t m h s' :
  host_inv born t h → m (above h) = Some (tt, s') → store s' = store (above h) → (∀ q, listed s' q → listed (above h) q) →
  lives t s' → wp (run m) (λ _, host_inv born t) h.
Proof.
  intros [_ Hn Hb Ha Hl Hc] E Es Hls Hs'. unfold run. apply wp_bind, wp_gets, wp_bind, wp_above. unfold wp at 1. rewrite E.
  apply wp_bind, wp_gets. cbn [above]. rewrite (news_none _ _ Es). apply wp_ret.
  split; cbn [above below]; rewrite ?Es; try done; [intros q ?; by apply Hl, Hls|].
  eapply carried_impl; [|exact Hc]. intros x (q&c&es1&es2&to&Hq&?). exists q, c, es1, es2, to. by rewrite Es.
Qed.

(** An operation of the layer that leaves the connections where they are. *)
Lemma below_wp {A} born t (m : M SocketImp A) h :
  host_inv born t h → always (conveys (origin born (above h))) m → wp m (λ _, native_inv none) (below h) →
  wp (at_below m) (λ _, host_inv born t) h.
Proof.
  intros [Hs Hn Hb Ha Hl Hc] Hcv Hw. apply wp_below.
  eapply wp_mono; [apply (wp_always _ (conveys (origin born (above h)) (below h))); [intros a w'; apply Hcv|exact Hw]|].
  intros a w' [Hi [Hc' He]]. split; cbn [above below]; rewrite ?He; try done. by apply Hc'.
Qed.

(** ** Every input keeps the invariant *)

Definition born_at (born : Ref → Address) (r : Ref) (a : Address) : Ref → Address := λ q, if decide (q = r) then a else born q.

Lemma origin_born born r a s t : store s !! r = None → origin born s t → origin (born_at born r a) s t.
Proof.
  intros Hr (q&c&es1&es2&to&Hq&Eq&Ha). exists q, c, es1, es2, to. split_and!; [done|done|]. unfold born_at.
  rewrite decide_False by congruence. done.
Qed.

Lemma native_part_wp born t r remote h :
  host_inv born t h → store (above h) !! r = None →
  wp (native_part r remote) (λ _ h1, above h1 = above h ∧ host_but (born_at born r remote) r remote h1) h.
Proof.
  intros [Hs Hn Hb Ha Hl Hc] Hr. assert (addresses (below h) !! r = None) as Hnone.
  { destruct (addresses (below h) !! r) as [x|] eqn:E; [|done]. destruct (Ha _ _ E) as (?&?&_). congruence. }
  unfold native_part. apply wp_below.
  eapply wp_mono; [apply (wp_always _ (λ w', (carried (origin born (above h)) (below h) → carried (origin born (above h)) w') ∧
    addresses w' = <[r := remote]> (addresses (below h)))); [intros a w'; apply made_known|]|].
  { unfold new_ConnectionImp, put_imp. apply wp_bind, wp_modify.
    apply (ConnectionImp_open_wp r (mkConnectionImp remote None)); [|apply lookup_insert_eq|done]. apply new_imp_inv; [done|].
    unfold addresses in Hnone. rewrite lookup_fmap in Hnone. by destruct (imps (below h) !! r). }
  intros status w' (Hi&Hc'&He). split; [done|]. split; cbn [above below]; rewrite ?He; [done|apply lookup_insert_eq| | | |].
  - intros q c Hq. unfold born_at. rewrite decide_False by congruence. by apply Hb.
  - intros q x Hq. rewrite lookup_insert_ne by done. apply Ha.
  - intros q Hq. apply lookup_insert_is_Some'. right. by apply Hl.
  - eapply carried_impl; [|apply Hc', Hc]. intros x. by apply origin_born.
Qed.

Lemma fresh_unstored (s : Socket) : store s !! fresh (dom (store s)) = None.
Proof. apply not_elem_of_dom, is_fresh. Qed.

(** A new connection, its native part opened first. *)
Lemma run_new_wp born t i remote h h1 :
  let r := fresh (dom (store (above h))) in
  host_inv born t h → above h1 = above h → host_but (born_at born r remote) r remote h1 → sk_valid t i (above h) →
  (∀ s', sk_handle t i (above h) = Some (tt, s') → touched r [] remote (above h) s') →
  wp (run (sk_handle t i)) (λ _ h', ∃ born, host_inv born t h') h1.
Proof.
  intros r Hh E1 Hb Hv Ht. pose proof (sk_handle_wp t i _ (hi_sock _ _ _ Hh) Hv) as Hw. apply wp_some in Hw as ([]&s'&E&Hs').
  assert (events_of (above h) r = []) as Eev by (unfold events_of, r; by rewrite fresh_unstored).
  eapply wp_mono; [apply (run_wp (born_at born r remote) t _ r remote h1 s'); rewrite ?E1, ?Eev|by intros [] h2 ?; eexists].
  - done.
  - simpl. unfold born_at. by rewrite decide_True.
  - done.
  - by apply Ht.
  - eapply lives_step; [apply Hh|exact Hv|exact E].
Qed.

Lemma host_connect_wp born t randomLong random remote o rh ch h :
  host_inv born t h → host_valid t (Connects randomLong random remote o rh ch) h →
  wp (host_connect t randomLong random remote o rh ch) (λ _ h', ∃ born, host_inv born t h') h.
Proof.
  intros Hh Hv. unfold host_connect. apply wp_bind, wp_gets, wp_bind.
  eapply wp_mono; [apply (native_part_wp born t); [done|apply fresh_unstored]|]. intros status h1 [E1 Hb].
  apply (run_new_wp born t (UserConnect randomLong random status remote o rh ch) remote h); [done|done|done|exact Hv|].
  intros s' (x&s1&E&[= <-])%bind_some. by eapply connect_touched.
Qed.

Lemma generates_open status an l p from s : generates (with_open status an) l p from s = generates an l p from s.
Proof. done. Qed.

Lemma host_receive_wp born t an packet from h :
  host_inv born t h → sk_valid t (FromNetwork an packet from) (above h) →
  wp (host_receive an packet from) (λ _ h', ∃ born, host_inv born t h') h.
Proof.
  intros Hh Hv. unfold host_receive. apply wp_bind, wp_gets. destruct (getLookUp packet) as [p l] eqn:El.
  assert (∀ status, sk_valid t (FromNetwork (with_open status an) packet from) (above h)) as Hv'.
  { intros status. revert Hv. cbn [sk_valid]. by destruct (getLookUp packet). }
  assert (∀ status s', sk_receive (with_open status an) packet from (above h) = Some (tt, s') →
    match findConnection l (above h) with
    | Some r => ∀ c, store (above h) !! r = Some c → touched r (events c) (State.remoteAddress c) (above h) s'
    | None => if generates an l p from (above h) then touched (fresh (dom (store (above h)))) [] from (above h) s' else s' = above h
    end) as Ht.
  { intros status s' E%sk_receive_touched. rewrite El in E. exact E. }
  destruct (generates an l p from (above h)) eqn:Eg.
  - apply wp_bind. eapply wp_mono; [apply (native_part_wp born t); [done|apply fresh_unstored]|]. intros status h1 [E1 Hb].
    apply (run_new_wp born t (FromNetwork (with_open status an) packet from) from h); [done|done|done|apply Hv'|].
    intros s' E%Ht. unfold generates in Eg. destruct (findConnection l (above h)); [by rewrite bool_decide_false in Eg|done].
  - apply wp_bind, wp_ret. specialize (Ht MRUDP_OK). specialize (Hv' MRUDP_OK).
    pose proof (sk_handle_wp _ _ _ (hi_sock _ _ _ Hh) Hv') as Hw. apply wp_some in Hw as ([]&s'&E&Hs').
    specialize (Ht s' E). destruct (findConnection l (above h)) as [r|] eqn:Ef.
    + destruct (findConnection_stored _ _ _ (hi_sock _ _ _ Hh) Ef) as [c Hr]. specialize (Ht c Hr).
      assert (events_of (above h) r = events c) as Eev by (unfold events_of; by rewrite Hr).
      eapply wp_mono; [apply (run_wp born t _ r (State.remoteAddress c) h s'); rewrite ?Eev|by intros [] h2 ?; eexists].
      * eapply inv_but; [done|done|]. apply (findConnection_listed l) in Ef. apply (hi_listed _ _ _ Hh) in Ef.
        unfold addresses in Ef. by rewrite lookup_fmap, fmap_is_Some in Ef.
      * by apply (hi_born _ _ _ Hh).
      * exact E.
      * done.
      * eapply lives_step; [apply Hh|exact Hv'|exact E].
    + subst s'. eapply wp_mono; [by eapply run_still_wp; [exact Hh|exact E|done|done|apply Hh]|by intros [] h2 ?; eexists].
Qed.

(** ** Completions and the rest *)

Definition has_inv (t : Z) (h : Host) : Prop := ∃ born, host_inv born t h.

Lemma has_below_wp {A} t (m : M SocketImp A) h :
  has_inv t h → (∀ P, always (conveys P) m) → wp m (λ _, native_inv none) (below h) → wp (at_below m) (λ _, has_inv t) h.
Proof. intros [born Hh] Hc Hw. eapply wp_mono; [by apply (below_wp born t)|]. intros a h' ?. by exists born. Qed.

Lemma lock_doReceive_wp x p w :
  native_inv none w → packet_wf p →
  wp (w ← mget; match lock_native (Some (rv_socket x)) w with Some n => doReceive n p | None => mret tt end) (λ _, native_inv none) w.
Proof.
  intros Hi Hp. apply wp_bind, wp_mget. destruct (lock_native (Some (rv_socket x)) w) as [n|] eqn:El; [|by apply wp_ret].
  eapply wp_mono; [apply (doReceive_wp none); [done| |done]|by intros [] w' [? _]].
  unfold lock_native in El. simpl in El. case_decide; [|done]. by injection El as <-.
Qed.

(** A datagram that is long enough goes up. *)
Lemma handed_up_wp t an x e d p h :
  has_inv t h → packet_wf (rv_packet x) → endpoint_wf e → receive_into (rv_packet x) d = (p, true) → an_now an = t → answers_ok (above h) an →
  data_packet_ok (getLookUp p).1 → h3_ok (getLookUp p).1 →
  (∀ r c, findConnection (getLookUp p).2 (above h) = Some r → store (above h) !! r = Some c → challenge_ok (toAddr e) c) →
  wp (at_below (handleReceiveFrom (toAddr e) p);; host_receive an p (toAddr e)) (λ _, has_inv t) h.
Proof.
  intros Hh Hx He Ed Hnow Han Hd Hh3 Hch. pose proof (receive_into_ok _ _ _ Hx Ed) as Hp. apply wp_bind.
  eapply wp_mono; [apply (wp_above_kept (λ _, has_inv t))|].
  { apply has_below_wp; [done|intros P; by apply conveys_modify|]. apply wp_modify. destruct Hh as [born Hh].
    apply inv_received; [apply Hh|apply Hp|by apply toAddr_length]. }
  intros [] h1 [[born Hh1] E1]. apply (host_receive_wp born t); [done|]. rewrite E1. cbn [sk_valid].
  destruct (getLookUp p) as [q l]. split_and!; try done; [apply Hp..|]. by rewrite toAddr_length.
Qed.

Lemma host_received_wp t an i result h :
  has_inv t h → host_valid t (ReceiveDone an i result) h → wp (host_received an i result) (λ _, has_inv t) h.
Proof.
  intros Hh (x&Hx&Hnow&Han&Hres). unfold host_received. apply wp_bind, wp_below, wp_bind, wp_mget. eapply wp_lift; [done|].
  assert (packet_wf (rv_packet x)) as Hwx.
  { destruct Hh as [born Hh]. apply (ni_receiving _ _ (hi_native _ _ _ Hh)). by eapply list_elem_of_lookup_2. }
  apply wp_bind. eapply wp_mono; [apply (wp_above_kept (λ _, has_inv t))|].
  { apply has_below_wp; [destruct h; exact Hh|intros P; by apply conveys_modify|]. apply wp_modify. destruct Hh as [born Hh].
    apply inv_receiving; [apply Hh|]. intros y Hy. apply (ni_receiving _ _ (hi_native _ _ _ Hh)). eapply elem_of_submseteq; [exact Hy|apply submseteq_delete]. }
  intros [] h1 [Hh1 E1]. cbn [above] in E1. apply wp_bind, (wp_mono _ (λ p h', packet_wf p ∧ has_inv t h')).
  - destruct result as [[e d]|]; [|by apply wp_ret]. pose proof (receive_into_wf (rv_packet x) d Hwx) as Hwp.
    destruct (receive_into (rv_packet x) d) as [p ok] eqn:Ed. destruct (Hres e d p eq_refl) as [He Hok]. apply wp_bind, wp_when; [|intros ->; by apply wp_ret].
    intros ->. destruct (Hok Ed) as (?&?&?). eapply wp_mono; [apply (handed_up_wp t an x e d p); rewrite ?E1; done|].
    intros [] h2 Hh2. apply wp_ret. split; [by apply getLookUp_wf|done].
  - intros p h2 [Hp Hh2]. apply has_below_wp; [done| |].
    + intros P. apply (always_bind _); [apply (always_mget _)|]. intros w. destruct (lock_native _ w); [apply conveys_doReceive|apply (always_ret _)].
    + destruct Hh2 as [born Hh2]. apply lock_doReceive_wp; [apply Hh2|done].
Qed.

Lemma acquire_inv_wp addr w : native_inv none w → wp (acquireAddress addr) (λ _, native_inv none) w.
Proof.
  intros Hi. pose proof Hi as [(s&Hs&_) _ _ _ _ _ _ _ _ _ _]. eapply wp_mono; [by apply acquireAddress_wp|].
  intros r w' (h&o&e&->). by apply inv_acquired.
Qed.
Lemma open_inv_wp w : native_inv none w → wp SocketImp_open (λ _, native_inv none) w.
Proof. intros Hi. eapply wp_mono; [by apply SocketImp_open_wp|]. by intros [] w' [? _]. Qed.
Lemma close_inv_wp w : native_inv none w → wp SocketImp_close (λ _, native_inv none) w.
Proof. intros Hi. eapply wp_mono; [by apply SocketImp_close_wp|]. by intros [] w' [? _]. Qed.
Lemma destroy_inv_wp w : native_inv none w → wp SocketImp_destroy (λ _, native_inv none) w.
Proof. intros Hi. apply wp_bind. eapply wp_mono; [by apply close_inv_wp|]. intros [] w' Hi'. apply wp_bind, wp_mget. by apply wp_ret. Qed.

(** Calls of the user that concern no connection. *)
Lemma user_call_wp t i h :
  has_inv t h → (∃ sa a ch, i = UserListen sa a ch) ∨ i = UserCloseSocket → wp (run (sk_handle t i)) (λ _, has_inv t) h.
Proof.
  intros [born Hh] Hi. assert (sk_valid t i (above h)) as Hv by (by destruct Hi as [(?&?&?&->)| ->]).
  pose proof (sk_handle_wp t i _ (hi_sock _ _ _ Hh) Hv) as Hw. apply wp_some in Hw as ([]&s'&E&Hs').
  assert (store s' = store (above h) ∧ ∀ q, listed s' q → listed (above h) q) as [Es Hl].
  { destruct Hi as [(sa&a&ch&->)| ->]; revert E; cbn [sk_handle]; [unfold listen|unfold sk_close, sk_closeUser];
      intros (?&?&[= <- <-]&E)%bind_some; [unfold when in E|]; by case_match; injection E as <-. }
  eapply wp_mono; [eapply (run_still_wp born t); [done|exact E|done|done|by eapply lives_step; [apply Hh|exact Hv|exact E]]|]. intros [] h' ?. by exists born.
Qed.

Lemma dies_wp t r h : has_inv t h → host_valid t (ConnectionDies r) h → wp (Connection_destroy r) (λ _, has_inv t) h.
Proof.
  intros [born [Hs Hn Hb Ha Hl Hc]] [[i Hi] Hnl]. apply wp_below.
  eapply wp_mono; [apply (wp_always _ (λ w', (carried (origin born (above h)) (below h) → carried (origin born (above h)) w') ∧
    addresses w' = delete r (addresses (below h)))); [intros a w'; apply forgotten|by eapply delete_imp_wp]|].
  intros [] w' (Hi'&Hc'&He). exists born. split; cbn [above below]; rewrite ?He; try done; [| |by apply Hc'].
  - intros q x [_ Hq]%lookup_delete_Some. by apply Ha.
  - intros q Hq. rewrite lookup_delete_ne; [by apply Hl|]. by intros ->.
Qed.

Lemma host_handle_wp t i h : has_inv t h → host_valid t i h → wp (host_handle t i) (λ _, has_inv t) h.
Proof.
  intros Hh Hv. pose proof Hh as [born Hi]. pose proof (hi_native _ _ _ Hi) as Hn.
  destruct i as [addr| |randomLong random remote o rh ch|sa a ch| | |addr order|r i|r|i|an i result]; cbn [host_handle].
  - unfold Socket_open. apply wp_bind, wp_bind.
    eapply wp_mono; [apply has_below_wp; [done|intros; apply conveys_acquireAddress|by apply acquire_inv_wp]|].
    intros [] h1 Hh1; [apply wp_bind|by apply wp_ret]. destruct Hh1 as [born1 Hi1].
    eapply wp_mono; [apply has_below_wp; [by exists born1|intros; apply conveys_SocketImp_open|by apply open_inv_wp, (hi_native _ _ _ Hi1)]|]. done.
  - unfold Socket_destroy. apply wp_bind.
    eapply wp_mono; [apply has_below_wp; [done|intros; apply conveys_SocketImp_close|by apply close_inv_wp]|].
    intros [] h1 [born1 Hi1]. apply wp_bind.
    eapply wp_mono; [apply has_below_wp; [by exists born1|intros; apply conveys_SocketImp_destroy|by apply destroy_inv_wp, (hi_native _ _ _ Hi1)]|].
    intros [] h2 Hh2. apply (user_call_wp t UserCloseSocket); [done|by right].
  - by eapply host_connect_wp.
  - apply (user_call_wp t (UserListen sa a ch)); [done|left; eauto].
  - apply (user_call_wp t UserCloseSocket); [done|by right].
  - apply has_below_wp; [done|intros; apply conveys_SocketImp_close|by apply close_inv_wp].
  - apply wp_bind. eapply wp_mono; [apply has_below_wp; [done|intros; apply conveys_relocate|]|done].
    apply relocate_wp; [done|]. eapply Forall_impl; [|exact Hv]. intros r Hr%(hi_listed _ _ _ Hi).
    unfold addresses in Hr. by rewrite lookup_fmap, fmap_is_Some in Hr.
  - destruct Hv as [Hv Himp]. pose proof Hv as [_ (c&Hr&_)].
    pose proof (sk_handle_wp _ _ _ (hi_sock _ _ _ Hi) Hv) as Hw. apply wp_some in Hw as ([]&s'&E&Hs').
    pose proof (concerns_touched t r i c _ s' Hr E) as Ht.
    assert (events_of (above h) r = events c) as Eev by (unfold events_of; by rewrite Hr).
    eapply wp_mono; [apply (run_wp born t _ r (State.remoteAddress c) h s'); rewrite ?Eev|by intros [] h2 ?; exists born].
    + by eapply inv_but.
    + by apply (hi_born _ _ _ Hi).
    + exact E.
    + done.
    + eapply lives_step; [apply Hi|exact Hv|exact E].
  - by apply dies_wp.
  - apply has_below_wp; [done|intros; apply conveys_on_sent|by apply on_sent_wp].
  - by apply host_received_wp.
Qed.

Lemma has_inv_mono t t' h : has_inv t h → t ≤ t' → has_inv t' h.
Proof. intros [born []] Ht. exists born. split; try done. destruct hi_life0 as (t0&?&?). exists t0. split; [lia|done]. Qed.

Lemma host_init_inv t o os_state opts : options_ok o → uncompressed o → has_inv t (Host_init o os_state opts).
Proof.
  intros Ho Hu. exists (λ _, []). split; simpl.
  - exists t. split; [done|by apply sk_reachable_init].
  - apply SocketImp_init_inv.
  - intros r c Hc. by rewrite lookup_empty in Hc.
  - intros r a Ha. unfold addresses in Ha. simpl in Ha. rewrite fmap_empty in Ha. by rewrite lookup_empty in Ha.
  - intros r [(l&Hl)|(i&Hi)]; simpl in *; by rewrite lookup_empty in *.
  - apply carried_init.
Qed.

Lemma host_reachable_has_inv t h : host_reachable t h → has_inv t h.
Proof.
  induction 1 as [t o os_state opts Ho Hu|t t' i h h' _ IH Ht Hv E]; [by apply host_init_inv|].
  pose proof (host_handle_wp t' i h (has_inv_mono _ _ _ IH Ht) Hv) as Hw. unfold wp in Hw. by rewrite E in Hw.
Qed.
End host.

(** ** Claim *)

(** C4: a socket on its native layer. Whatever the users, the timers and the system do, in any
    order, within [host_valid]: every further valid input is handled to the end, nothing above or
    below is undefined, and the socket is in a state that the socket alone can reach, so that the
    theorems about sockets and connections hold in a program. Not valid are datagrams whose
    unreliable payload is not whole frames, incomplete acknowledgement frames and compressed frames,
    an [H3] packet that asks for a probe delay of 900,000 seconds or more, packets from a new address
    while the next packet id still waits for its acknowledgement, options that compress, a new
    connection when no short id is left, and events of connections that are gone. Every datagram given to the system holds a packet one of the
    connections put on the wire, byte for byte, and is received as that packet into whatever
    buffer; it went to the address the connection named or else to where the connection was at
    that moment, as its beginning and its answered challenges have it. And the layer knows where
    each connection is: a socket of its own is connected to that address. *)
Theorem host_sound `{!Zlib} {os : Os} (t : Z) (h : Host) :
  host_reachable t h →
  (∀ t' i, t ≤ t' → host_valid t' i h → ∃ h', host_handle t' i h = Some (tt, h') ∧ host_reachable t' h') ∧
  (∃ t0, t0 ≤ t ∧ sk_reachable t0 (above h)) ∧
  (∃ born : Ref → Address,
    (∀ r c, store (above h) !! r = Some c → State.remoteAddress c = last_address (born r) (events c)) ∧
    ∀ x e d, (x, e, d) ∈ Asio.sent (below h) →
      ∃ r c es1 es2 to, store (above h) !! r = Some c ∧ events c = es1 ++ Sent (packet x) to :: es2 ∧
        e = toEndpoint (default (last_address (born r) es1) to) ∧ datagram (packet x) = Some d ∧
        ∀ buf, packet_wf buf → ∃ q, receive_into buf d = (q, true) ∧ q ≡ packet x) ∧
  (∀ r i, imps (below h) !! r = Some i → ∃ c, store (above h) !! r = Some c ∧ Asio.remoteAddress i = State.remoteAddress c ∧
    ∀ n, overlappedSocket i = Some n → ∃ s, natives (below h) !! n = Some s ∧ remoteEndpoint s = toEndpoint (State.remoteAddress c)).
Proof.
  intros Hr. pose proof (host_reachable_has_inv t h Hr) as Hh. pose proof Hh as [born [Hl Hn Hb Ha _ [_ Hs]]]. split_and!.
  - intros t' i Ht Hv. pose proof (host_handle_wp t' i h (has_inv_mono _ _ _ Hh Ht) Hv) as ([]&h'&E&_)%wp_some.
    exists h'. split; [done|]. by eapply host_reachable_step.
  - exact Hl.
  - exists born. split; [done|]. intros x e d Hx. destruct (Hs _ _ _ Hx) as (r&c&es1&es2&to&Hc&Ee&Ea).
    destruct (ni_sent _ _ Hn _ _ _ Hx) as [-> Ed]. exists r, c, es1, es2, to. rewrite <-Ea. split_and!; [done|done|done|done|].
    intros buf Hbuf. destruct (lives_ok _ _ Hl) as [_ Hm]. destruct (Hm r c Hc) as [_ (ins&Hw%reachable_wired)].
    assert (packet_ok (packet x)) as Hp.
    { refine (Forall_elem_of _ _ (packet x, to) (wd_sent _ Hw) _). unfold transmissions. apply list_elem_of_omap.
      exists (Sent (packet x) to). split; [|done]. rewrite Ee. apply elem_of_app. right. by left. }
    destruct (travels_total (packet x) buf Hp Hbuf) as (d'&q&Ed'&Eq&Htr). assert (d' = d) as -> by congruence.
    exists q. split; [done|by apply travels_same].
  - intros r i Hi. destruct (Ha r (Asio.remoteAddress i)) as (c&Hc&Ec); [unfold addresses; by rewrite lookup_fmap, Hi|].
    exists c. split_and!; [done|done|]. intros n Hn'. destruct (ni_imps _ _ Hn r i n Hi Hn') as (Hne&s&Hs'&Hk). exists s. split; [done|].
    destruct (ni_overlapped _ _ Hn n s Hs' Hne) as (_&_&_&->&_). by rewrite Hk, Ec.
Qed.

(** A host that opens its socket and connects. *)
Definition host_after {os : Os} `{!Zlib} (t : Z) (i : HostInput) (h : Host) : Host :=
  match host_handle t i h with Some (_, h') => h' | None => h end.

#[local] Existing Instance Zlib_stored.
#[local] Existing Instance ZlibLaws_stored.

Definition example_host_open : Host :=
  host_after 5 (SocketOpens example_local) (Host_init (os := Os_example) getDefaultConnectionOptions tt example_options).
Definition example_connects : HostInput := Connects (replicate 16 Byte.x09) 77 example_remote None true true.
Definition example_host : Host := host_after 5 example_connects example_host_open.

(** The first packet of the handshake has left for the peer. *)
Example example_host_sent :
  (λ x, (x.1.2, h_type (p_header (packet x.1.1)))) <$> Asio.sent (below example_host) =
    [(toEndpoint example_remote, Packet.H0)] ∧
  (Asio.remoteAddress <$> imps (below example_host) !! 0%nat) = Some example_remote.
Proof. split; vm_compute; reflexivity. Qed.

Lemma host_after_reachable {os : Os} `{!Zlib} t t' i h :
  host_reachable t h → t ≤ t' → host_valid t' i h → host_reachable t' (host_after t' i h).
Proof.
  intros Hr Ht Hv. pose proof (host_handle_wp t' i h (has_inv_mono _ _ _ (host_reachable_has_inv _ _ Hr) Ht) Hv) as ([]&h'&E&_)%wp_some.
  unfold host_after. rewrite E. by eapply host_reachable_step.
Qed.

Lemma example_open_reachable : host_reachable 5 example_host_open.
Proof.
  apply (host_after_reachable 5); [|lia|exact I]. apply host_reachable_init; [split; simpl; lia|split; discriminate].
Qed.

Lemma example_connects_valid : host_valid 5 example_connects example_host_open.
Proof.
  assert (above example_host_open = Socket_init getDefaultConnectionOptions) as E by (vm_compute; reflexivity).
  cbn [host_valid example_connects]. rewrite E.
  split; [split; reflexivity || discriminate|]. split; [exists 5; split; [lia|apply (not_elem_of_empty (C := gset Z))]|].
  split; [reflexivity|]. split; [discriminate|exact I].
Qed.

Lemma example_host_reachable : host_reachable 5 example_host.
Proof. apply (host_after_reachable 5); [exact example_open_reachable|lia|exact example_connects_valid]. Qed.

Lemma host_sound_witness :
  let h := example_host in
  (∀ t' i, 5 ≤ t' → host_valid t' i h → ∃ h', host_handle t' i h = Some (tt, h') ∧ host_reachable t' h') ∧
  (∃ t0, t0 ≤ 5 ∧ sk_reachable t0 (above h)) ∧
  (∃ born : Ref → Address,
    (∀ r c, store (above h) !! r = Some c → State.remoteAddress c = last_address (born r) (events c)) ∧
    ∀ x e d, (x, e, d) ∈ Asio.sent (below h) →
      ∃ r c es1 es2 to, store (above h) !! r = Some c ∧ events c = es1 ++ Sent (packet x) to :: es2 ∧
        e = toEndpoint (default (last_address (born r) es1) to) ∧ datagram (packet x) = Some d ∧
        ∀ buf, packet_wf buf → ∃ q, receive_into buf d = (q, true) ∧ q ≡ packet x) ∧
  (∀ r i, imps (below h) !! r = Some i → ∃ c, store (above h) !! r = Some c ∧ Asio.remoteAddress i = State.remoteAddress c ∧
    ∀ n, overlappedSocket i = Some n → ∃ s, natives (below h) !! n = Some s ∧ remoteEndpoint s = toEndpoint (State.remoteAddress c)).
Proof. intros h. apply (host_sound 5 h). exact example_host_reachable. Defined.
