(* ===== verification/HostStream.v ===== *)
(** * The reliable stream between two hosts

    Two programs, each a socket on its native layer, and a network that carries the datagrams one
    system was given to the other: loses, repeats, delays and reorders them. What one user sends
    the other user gets, through every layer of the library. *)

From S2P Require Import Prelude MemCopy Packet ReceiveQueue Types Asio Datagram Traffic Overlapped NativeLayer SendQueue Compression Protocol Float32 Rtt State Retrier Transmit Invariant Sender Connection Closing Wire NetworkPath Lifecycle Emission Moving Socket SocketLife Agreement Speaking Hearing Stream SocketStream Host.
#[local] Open Scope Z_scope.
#[local] Strategy 1000 [acquireShortConnectionID acquire_loop connect sk_receive].

Section hosts.
Context `{!Zlib} {os : Os}.

(** ** A host is a socket *)

(** What an input of the host is for its socket, the answer of the native open aside. *)
Definition socket_input (i : HostInput) (h : Host) : option SockInput :=
  match i with
  | Connects randomLong random remote o rh ch => Some (UserConnect randomLong random MRUDP_OK remote o rh ch)
  | Listens sa a ch => Some (UserListen sa a ch)
  | ClosesSocket | SocketDies => Some UserCloseSocket
  | About r i => Some (Concerns r i)
  | ReceiveDone an k (Some (e, d)) =>
    x ← receiving (below h) !! k;
    match receive_into (rv_packet x) d with
    | (p, true) => Some (FromNetwork an p (toAddr e))
    | (_, false) => None
    end
  | _ => None
  end.

Definition with_status (status : Z) (j : SockInput) : SockInput :=
  match j with
  | FromNetwork an p from => FromNetwork (with_open status an) p from
  | UserConnect randomLong random _ remote o rh ch => UserConnect randomLong random status remote o rh ch
  | j => j
  end.

Lemma below_above {A} (m : M SocketImp A) a h h' : at_below m h = Some (a, h') → above h' = above h.
Proof. unfold at_below. destruct (m (below h)) as [[x w]|]; [|done]. by intros [= _ <-]. Qed.

Lemma perform_above r e h h' : perform r e h = Some (tt, h') → above h' = above h.
Proof.
  destruct e; cbn [perform]; try (by intros [= <-]).
  - unfold Socket_send, shouldDrop. intros (a&h1&E%below_above&[= <-])%bind_some. done.
  - apply below_above.
Qed.

Lemma run_above m h h' : run m h = Some (tt, h') → m (above h) = Some (tt, above h').
Proof.
  unfold run. intros (?&?&[= <- <-]&([]&h1&E1&(?&?&[= <- <-]&E)%bind_some)%bind_some)%bind_some.
  unfold at_above in E1. destruct (m (above h)) as [[[] s]|]; [|done]. injection E1 as <-. cbn [above] in E. do 2 f_equal.
  set (l := news _ _) in E. clearbody l. set (h1 := mkHost _ s (below h)) in E. change s with (above h1). clearbody h1. revert h1 E.
  induction l as [|x l IH]; intros h1; simpl; [by intros [= <-]|]. intros ([]&h2&E%perform_above&E2)%bind_some.
  by rewrite <-E, (IH h2 E2).
Qed.

Lemma host_receive_above an packet from h h' :
  host_receive an packet from h = Some (tt, h') → ∃ status, sk_receive (with_open status an) packet from (above h) = Some (tt, above h').
Proof.
  unfold host_receive. intros (?&?&[= <- <-]&E)%bind_some. destruct (getLookUp packet) as [p l]. apply bind_some in E as (status&h1&E1&E%run_above).
  exists status. destruct (generates _ _ _ _ _); [|by injection E1 as <- <-]. apply below_above in E1. by rewrite <-E1.
Qed.

Lemma host_received_above t an k result h h' :
  host_received an k result h = Some (tt, h') →
  match socket_input (ReceiveDone an k result) h with
  | Some j => ∃ status, sk_handle t (with_status status j) (above h) = Some (tt, above h')
  | None => above h' = above h
  end.
Proof.
  unfold host_received, socket_input. intros (x&h1&E1&([]&h2&E2&(p&h3&E3&E4%below_above)%bind_some)%bind_some)%bind_some.
  assert (receiving (below h) !! k = Some x) as Hx.
  { unfold at_below, mbind, M_bind, mget, lift in E1. destruct (receiving (below h) !! k); [|done]. simpl in E1. by injection E1 as ->. }
  apply below_above in E1, E2. assert (above h2 = above h) as E by congruence. clear E1 E2.
  destruct result as [[e d]|]; [|injection E3 as _ <-; congruence]. rewrite Hx. cbn [mbind option_bind].
  destruct (receive_into (rv_packet x) d) as [q ok]. apply bind_some in E3 as ([]&h4&E3&[= <- <-]). destruct ok; [|injection E3 as <-; congruence].
  apply bind_some in E3 as ([]&h5&E5%below_above&[status E6]%host_receive_above). exists status. cbn [sk_handle with_status].
  rewrite E4, <-E, <-E5. done.
Qed.

Lemma host_step_socket t i h h' :
  host_handle t i h = Some (tt, h') →
  match socket_input i h with
  | Some j => ∃ status, sk_handle t (with_status status j) (above h) = Some (tt, above h')
  | None => above h' = above h
  end.
Proof.
  destruct i as [addr| |randomLong random remote o rh ch|sa a ch| | |addr order|r i|r|i|an i result]; cbn [host_handle].
  - unfold Socket_open. intros (?&h1&(b&h2&E2%below_above&E)%bind_some&[= <-])%bind_some.
    destruct b; [|injection E as _ <-; done]. apply bind_some in E as ([]&h3&E3%below_above&[= _ <-]). simpl. congruence.
  - unfold Socket_destroy. intros ([]&h1&E1%below_above&([]&h2&E2%below_above&E%run_above)%bind_some)%bind_some. exists MRUDP_OK. cbn. by rewrite <-E1, <-E2.
  - unfold host_connect. intros (?&?&[= <- <-]&(status&h1&E1%below_above&E%run_above)%bind_some)%bind_some. exists status.
    cbn [with_status sk_handle]. by rewrite <-E1.
  - intros E%run_above. by exists MRUDP_OK.
  - intros E%run_above. by exists MRUDP_OK.
  - apply below_above.
  - intros (b&h1&E1%below_above&[= <-])%bind_some. done.
  - intros E%run_above. by exists MRUDP_OK.
  - apply below_above.
  - apply below_above.
  - apply host_received_above.
Qed.

(** ** Two hosts *)

(** The system under [h] was given [d] for a packet of the connection [c]. *)
Definition given (h : Host) (c : Connection) (d : bytes) : Prop :=
  ∃ x e to, (x, e, d) ∈ Asio.sent (below h) ∧ (packet x, to) ∈ transmissions c.

(** Of the datagrams only those of the connection [c] of [h] reach the connection; of the rest of
    its inputs, those that timers and users make. *)
Definition fed_by (peer : option (Host * Connection)) (i : HostInput) : Prop :=
  match i with
  | ReceiveDone _ _ (Some (_, d)) => ∃ h c, peer = Some (h, c) ∧ given h c d
  | About _ j => of_connection j = true
  | _ => True
  end.

(** What an input is to the connection [r], in the terms of [SocketStream.v]. *)
Definition for_socket (P : SockInput → Prop) (i : HostInput) (h : Host) : Prop :=
  ∀ j, socket_input i h = Some j → P j.
Definition host_part (t : Z) (i : HostInput) (r : Ref) (c : Connection) (h : Host) (v : Voice) : Voice :=
  match socket_input i h with Some j => part t j r c (above h) v | None => v end.

Definition peer_of (r : option Ref) (h : Host) : option (Host * Connection) :=
  c ← stored r (above h); Some (h, c).

(** Two hosts: on one the user connects, which makes the connection [ra]; the other makes the
    connection [rb] for a datagram of it; before, after and in between both hosts do whatever they
    like, at their own times. *)
Inductive host_talk (ra : Ref) : Voice → Voice → option Ref → Z → Host → Z → Host → Prop :=
  | host_talk_connects t0 t randomLong random remote o rh ch ha ha' tb hb :
      host_reachable t0 ha → t0 ≤ t → host_reachable tb hb → host_valid t (Connects randomLong random remote o rh ch) ha →
      host_handle t (Connects randomLong random remote o rh ch) ha = Some (tt, ha') →
      found_by_long (above ha') randomLong = Some ra → host_talk ra mute mute None t ha' tb hb
  | host_talk_accepts va ta ha tb hb a rb b t an k e d hb' :
      host_talk ra va mute None ta ha tb hb → store (above ha) !! ra = Some a → tb ≤ t →
      host_valid t (ReceiveDone an k (Some (e, d))) hb → given ha a d →
      host_handle t (ReceiveDone an k (Some (e, d))) hb = Some (tt, hb') →
      store (above hb) !! rb = None → store (above hb') !! rb = Some b → found_by_short (above hb') (localID b) = Some rb →
      host_talk ra va mute (Some rb) ta ha t hb'
  | host_talk_left va vb rb ta ha tb hb a t i ha' :
      host_talk ra va vb rb ta ha tb hb → store (above ha) !! ra = Some a → ta ≤ t → host_valid t i ha →
      for_socket (λ j, target j (above ha) = Some ra → fed_by (peer_of rb hb) i) i ha →
      for_socket (λ j, used va t j ra a (above ha)) i ha →
      host_handle t i ha = Some (tt, ha') → host_talk ra (host_part t i ra a ha va) vb rb t ha' tb hb
  | host_talk_right va vb rb ta ha tb hb b t i hb' :
      host_talk ra va vb (Some rb) ta ha tb hb → store (above hb) !! rb = Some b → tb ≤ t → host_valid t i hb →
      for_socket (λ j, target j (above hb) = Some rb → fed_by (peer_of (Some ra) ha) i) i hb →
      for_socket (λ j, used vb t j rb b (above hb)) i hb →
      host_handle t i hb = Some (tt, hb') → host_talk ra va (host_part t i rb b hb vb) (Some rb) ta ha t hb'
  | host_talk_waits va vb ta ha tb hb t i hb' :
      host_talk ra va vb None ta ha tb hb → tb ≤ t → host_valid t i hb → host_handle t i hb = Some (tt, hb') →
      host_talk ra va vb None ta ha t hb'.

Lemma host_talk_reachable ra va vb rb ta ha tb hb :
  host_talk ra va vb rb ta ha tb hb → host_reachable ta ha ∧ host_reachable tb hb.
Proof.
  induction 1 as [t0 t randomLong random remote o rh ch ha ha' tb hb Ha Ht Hb Hv E
    |va ta ha tb hb a rb b t an k e d hb' _ [IHa IHb] _ Ht Hv _ E
    |va vb rb ta ha tb hb a t i ha' _ [IHa IHb] _ Ht Hv _ _ E
    |va vb rb ta ha tb hb b t i hb' _ [IHa IHb] _ Ht Hv _ _ E
    |va vb ta ha tb hb t i hb' _ [IHa IHb] Ht Hv E]; split; try done.
  - by apply (host_reachable_step t0 t _ ha _ Ha Ht Hv E).
  - by apply (host_reachable_step tb t _ hb _ IHb Ht Hv E).
  - by apply (host_reachable_step ta t _ ha _ IHa Ht Hv E).
  - by apply (host_reachable_step tb t _ hb _ IHb Ht Hv E).
  - by apply (host_reachable_step tb t _ hb _ IHb Ht Hv E).
Qed.

(** ** Hosts that talk have sockets that talk *)

Lemma target_status status j s : target (with_status status j) s = target j s.
Proof. by destruct j. Qed.
Lemma input_status status j : input_of (with_status status j) = input_of j.
Proof. by destruct j. Qed.
Lemma part_status t status j r c s v : part t (with_status status j) r c s v = part t j r c s v.
Proof. unfold part. by rewrite target_status, input_status. Qed.
Lemma used_status v t status j r c s : used v t j r c s → used v t (with_status status j) r c s.
Proof. unfold used. by rewrite target_status, input_status. Qed.

(** A datagram of [c] that is received is a packet of [c]. *)
Lemma given_sent t h c d buf p an from :
  host_reachable t h → given h c d → packet_wf buf → receive_into buf d = (p, true) → sent_by (Some c) (FromNetwork an p from).
Proof.
  intros Hr (x&e&to&Hx&Ht) Hb Ep. destruct (host_reachable_has_inv t h Hr) as [born Hi].
  destruct (ni_sent _ _ (hi_native _ _ _ Hi) _ _ _ Hx) as [_ Ed]. exists c, (packet x), to. split_and!; [done|done|]. by exists d, buf.
Qed.

(** What goes up to the socket. *)
Lemma received_input an k e d h j :
  socket_input (ReceiveDone an k (Some (e, d))) h = Some j →
  ∃ x p, receiving (below h) !! k = Some x ∧ receive_into (rv_packet x) d = (p, true) ∧ j = FromNetwork an p (toAddr e).
Proof.
  cbn [socket_input]. destruct (receiving (below h) !! k) as [x|]; [|done]. cbn [mbind option_bind].
  destruct (receive_into (rv_packet x) d) as [p []] eqn:Ep; [|done]. intros [= <-]. by exists x, p.
Qed.

Lemma receiving_wf t h k x : host_reachable t h → receiving (below h) !! k = Some x → packet_wf (rv_packet x).
Proof.
  intros Hh Hx. destruct (host_reachable_has_inv t h Hh) as [born Hi].
  apply (ni_receiving _ _ (hi_native _ _ _ Hi)). by eapply list_elem_of_lookup_2.
Qed.

Lemma fed_sent ta ha th h r i j status :
  host_reachable ta ha → host_reachable th h → fed_by (peer_of r ha) i → socket_input i h = Some j →
  sent_by (stored r (above ha)) (with_status status j).
Proof.
  intros Ha Hh Hf Ej. destruct i as [addr| |randomLong random remote o rh ch|sa a ch| | |addr order|q i|q|i|an k [[e d]|]];
    try (by injection Ej as <-); try done.
  apply received_input in Ej as (x&p&Hx&Ep&->). destruct Hf as (h0&c&Ep0&Hg). unfold peer_of in Ep0.
  destruct (stored r (above ha)) as [c0|]; [|done]. injection Ep0 as <- <-.
  by eapply given_sent; [exact Ha|exact Hg|eapply receiving_wf; [exact Hh|exact Hx]|].
Qed.

(** What a host hands to its socket the socket can handle. *)
Lemma input_valid t0 t i h j status :
  host_reachable t0 h → host_valid t i h → socket_input i h = Some j → sk_valid t (with_status status j) (above h).
Proof.
  intros Hr Hv Ej. destruct i as [addr| |randomLong random remote o rh ch|sa a ch| | |addr order|q i|q|i|an k [[e d]|]];
    try (by injection Ej as <-); try done; [injection Ej as <-; apply Hv|].
  apply received_input in Ej as (x&p&Hx&Ep&->). destruct Hv as (y&Hy&Ht&Han&Hres). rewrite Hx in Hy. injection Hy as <-.
  destruct (Hres e d p eq_refl) as [He Hok]. destruct (Hok Ep) as (?&?&?).
  pose proof (receive_into_ok _ _ _ (receiving_wf _ _ _ _ Hr Hx) Ep) as Hp. cbn [with_status sk_valid].
  destruct (getLookUp p) as [q l]. split_and!; try done; [apply Hp..|]. by rewrite toAddr_length.
Qed.

Lemma valid_timed t j s : sk_valid t j s → timed t j.
Proof. destruct j as [an packet from| | | |]; try done. cbn [sk_valid timed]. destruct (getLookUp packet). by intros []. Qed.

(** A packet for a connection that is known makes no other. *)
Lemma accept_unknown t an p from r s s' :
  sock_inv s → sk_handle t (FromNetwork an p from) s = Some (tt, s') → store s !! r = None → is_Some (store s' !! r) →
  target (FromNetwork an p from) s = None.
Proof.
  intros Hs E Hr [c Hc]. cbn [target sk_handle] in *. destruct (findConnection (getLookUp p).2 s) as [q|] eqn:Ef; [|done]. exfalso.
  destruct (store s !! q) as [d|] eqn:Hq.
  - destruct (sk_receive_found _ _ _ _ _ _ _ Ef Hq E) as (d'&_&->). simpl in Hc.
    apply lookup_insert_Some in Hc as [[-> _]|[_ Hc]]; congruence.
  - destruct (findConnection_stored _ _ _ Hs Ef) as [? ?]. congruence.
Qed.

Lemma host_sock_inv t h : host_reachable t h → sock_inv (above h).
Proof. intros [born Hi]%host_reachable_has_inv. by eapply hi_sock. Qed.

(** What a host does is a step of its socket, or nothing to it. *)
Lemma host_step_cases t0 t i h h' r c v :
  host_reachable t0 h → host_valid t i h → host_handle t i h = Some (tt, h') →
  (above h' = above h ∧ host_part t i r c h v = v) ∨
  (∃ j status, socket_input i h = Some j ∧ timed t (with_status status j) ∧
     sk_handle t (with_status status j) (above h) = Some (tt, above h') ∧
     host_part t i r c h v = part t (with_status status j) r c (above h) v).
Proof.
  intros Hr Hv E%host_step_socket. unfold host_part. destruct (socket_input i h) as [j|] eqn:Ej; [right|by left].
  destruct E as [status E]. exists j, status. rewrite part_status. split_and!; [done| |done|done].
  by eapply valid_timed, input_valid.
Qed.

Lemma host_connects t0 t randomLong random remote o rh ch h h' r sb :
  host_reachable t0 h → host_valid t (Connects randomLong random remote o rh ch) h →
  host_handle t (Connects randomLong random remote o rh ch) h = Some (tt, h') →
  found_by_long (above h') randomLong = Some r → talk r mute mute None (above h') sb.
Proof.
  intros Hr Hv E Hf. pose proof (host_sock_inv _ _ Hr) as Hs. destruct (host_step_socket _ _ _ _ E) as [status E'].
  cbn [with_status sk_handle] in E'. apply bind_some in E' as (res&s'&E'&[= ->]). cbn [host_valid] in Hv.
  pose proof Hv as (Hra&[k Hk]&Hl&Hn&Ho).
  pose proof (connect_wp randomLong random k status t remote o rh ch _ Hs Hra Hk Hl Hn Ho) as Hw. unfold wp in Hw. rewrite E' in Hw.
  destruct res as [q|]; [destruct Hw as (_&_&c&_&_&_&Hq&_)|destruct Hw as (_&_&Hq&_)]; rewrite Hf in Hq; [injection Hq as <-|done].
  by apply (talk_connects r t randomLong random status remote o rh ch (above h) (above h') sb Hs Hv E').
Qed.

Lemma host_accepts ra va ta ha tb hb a rb b t an k e d hb' :
  talk ra va mute None (above ha) (above hb) → host_reachable ta ha → host_reachable tb hb →
  store (above ha) !! ra = Some a → host_valid t (ReceiveDone an k (Some (e, d))) hb → given ha a d →
  host_handle t (ReceiveDone an k (Some (e, d))) hb = Some (tt, hb') →
  store (above hb) !! rb = None → store (above hb') !! rb = Some b → found_by_short (above hb') (localID b) = Some rb →
  talk ra va mute (Some rb) (above ha) (above hb').
Proof.
  intros Htalk Ha Hb Hra Hv Hg E%host_step_socket Hnew Hrb Hf. pose proof (host_sock_inv _ _ Hb) as Hs.
  destruct (socket_input _ hb) as [j|] eqn:Ej; [|congruence]. destruct E as [status E].
  pose proof (input_valid tb t _ hb j status Hb Hv Ej) as Hj. apply received_input in Ej as (x&p&Hx&Ep&->). cbn [with_status] in *.
  eapply (talk_accepts ra va (above ha) (above hb) a rb b t); [done|done|done|exact Hj| | |exact E|done|done|done].
  - by eapply given_sent; [exact Ha|exact Hg|eapply receiving_wf; [exact Hb|exact Hx]|].
  - by eapply accept_unknown.
Qed.

Lemma host_talk_talk ra va vb rb ta ha tb hb :
  host_talk ra va vb rb ta ha tb hb → talk ra va vb rb (above ha) (above hb).
Proof.
  induction 1 as [t0 t randomLong random remote o rh ch ha ha' tb hb Ha Ht Hb Hv E Hf
    |va ta ha tb hb a rb b t an k e d hb' Hh IH Hra Ht Hv Hg E Hnew Hrb Hf
    |va vb rb ta ha tb hb a t i ha' Hh IH Hra Ht Hv Hfed Hu E
    |va vb rb ta ha tb hb b t i hb' Hh IH Hrb Ht Hv Hfed Hu E
    |va vb ta ha tb hb t i hb' Hh IH Ht Hv E]; try apply host_talk_reachable in Hh as [Hra' Hrb'].
  - by eapply (host_connects t0 t); [exact Ha|exact Hv|exact E|].
  - by eapply host_accepts; [|exact Hra'|exact Hrb'| |exact Hv| |exact E| | |].
  - destruct (host_step_cases ta t i ha ha' ra a va Hra' Hv E) as [[-> ->]|(j&status&Ej&Htm&Es&->)]; [done|].
    eapply talk_left; [done|done|done| |by apply used_status, Hu|done]. rewrite target_status. intros Htg.
    by eapply fed_sent; [exact Hrb'|exact Hra'|by eapply Hfed|].
  - destruct (host_step_cases tb t i hb hb' rb b vb Hrb' Hv E) as [[-> ->]|(j&status&Ej&Htm&Es&->)]; [done|].
    eapply talk_right; [done|done|done| |by apply used_status, Hu|done]. rewrite target_status. intros Htg.
    by eapply (fed_sent ta ha tb hb (Some ra)); [exact Hra'|exact Hrb'|by eapply Hfed|].
  - apply host_step_socket in E. destruct (socket_input i hb) as [j|]; [destruct E as [status E]; by eapply talk_waits|by rewrite E].
Qed.

(** What the host [h] sends for [a] finds its peer [b], the connection [r] of [s]. *)
Definition host_finds (h : Host) (a b : Connection) (s : Socket) (r : Ref) : Prop :=
  ∀ x e d to buf, (x, e, d) ∈ Asio.sent (below h) → (packet x, to) ∈ transmissions a → packet_wf buf →
    ∃ q, receive_into buf d = (q, true) ∧ q ≡ packet x ∧
      ((h_connection (p_header q) = 0 → longID (getLookUp q).2 = id b) →
       found_by_short s (localID b) = Some r → found_by_long s (id b) = Some r →
       findConnection (getLookUp q).2 s = Some r).

Lemma conversation_host_finds said heard t h a b s r :
  host_reachable t h → conversation said heard (mkNetwork a b) → host_finds h a b s r.
Proof.
  intros Hr Hc x e d to buf Hx Hw Hbuf. destruct (host_reachable_has_inv _ _ Hr) as [born Hi].
  destruct (ni_sent _ _ (hi_native _ _ _ Hi) _ _ _ Hx) as [_ Ed]. pose proof (conversation_net _ _ _ Hc) as Hn.
  pose proof (Forall_elem_of _ _ _ (wd_sent _ (ni_wired_alice _ _ _ (net_reachable_inv _ Hn))) Hw) as Hp. cbn [fst] in Hp.
  destruct (travels_total (packet x) buf Hp Hbuf) as (d'&q&Ed'&Eq&Hq). assert (d' = d) as -> by congruence.
  pose proof (travels_same _ _ Hp Hq) as Es. exists q. split_and!; [done|done|]. intros Hl Hs Hlong.
  destruct (getLookUp_equiv q (packet x)) as [_ El]; [by destruct (travels_ok _ _ Hq)|done|].
  eapply (conversation_finds said heard a b); [exact Hc|exact Hw|exact Hq| |exact Hs|exact Hlong].
  rewrite <-El. by destruct Es as [<- _].
Qed.
End hosts.

(** ** Claim *)

(** C1: the reliable byte streams between two programs. Each is a socket with its connections on its
    native layer. On one the user connects; the other makes a connection for a datagram that the
    first host has sent for it; the hosts open and close sockets, relocate, have any other
    connections, timers and users, each at times of its own. The network gets what the systems
    are given, and loses, repeats, delays and reorders it; what else it delivers does not find the
    two connections. Then in both directions at once the bytes handed to the user at one end are a
    prefix of the bytes accepted from the user at the other, and all of them once everything has
    arrived; this as long as packets arrive within half the frame-id space of what is expected, or
    fewer than 2^15 frames were sent ([streamed]). Each datagram of either connection, in whatever buffer it is received, is the packet
    that was sent and finds the peer as long as that is known to its socket by the id the packet
    carries. *)
Theorem host_stream `{!Zlib} {os : Os} (ra rb : Ref) (va vb : Voice) (ta tb : Z) (ha hb : Host) :
  host_talk ra va vb (Some rb) ta ha tb hb →
  ∃ a b, store (above ha) !! ra = Some a ∧ store (above hb) !! rb = Some b ∧
    streamed (said_by va) (heard_by vb) (mkNetwork a b) ∧ streamed (said_by vb) (heard_by va) (mkNetwork b a) ∧
    host_finds ha a b (above hb) rb ∧ host_finds hb b a (above ha) ra.
Proof.
  intros Ht. pose proof (host_talk_reachable _ _ _ _ _ _ _ _ Ht) as [Hra Hrb].
  apply host_talk_talk, talk_converse in Ht as (a&Ha&b&Hb&Hab&Hba). exists a, b.
  split_and!; [done|done|by apply conversation_stream|by apply conversation_stream|by eapply conversation_host_finds..].
Qed.

#[local] Existing Instance Zlib_stored.
#[local] Existing Instance ZlibLaws_stored.

(** The datagram of [example_host] reaches a host that listens. *)
Definition example_server : Host :=
  host_after 6 (Listens false true true)
    (host_after 6 (SocketOpens example_local) (Host_init (os := Os_example) getDefaultConnectionOptions tt example_options)).
Definition example_given : bytes := default [] (snd <$> head (Asio.sent (below example_host))).
Definition example_arrival : HostInput :=
  ReceiveDone (mkAnswers (λ _, MRUDP_OK) 77 MRUDP_OK 9 MRUDP_OK (Some (None, true, true))) 0 (Some (toEndpoint example_remote, example_given)).
Definition example_accepted : Host := host_after 9 example_arrival example_server.
Definition example_a : Connection := default example_connection (store (above example_host) !! 0%nat).
Definition example_b : Connection := default example_connection (store (above example_accepted) !! 0%nat).
Definition example_arrived : Packet :=
  (receive_into (default new_Packet (rv_packet <$> receiving (below example_server) !! 0%nat)) example_given).1.

Lemma example_host_steps :
  host_handle 5 example_connects example_host_open = Some (tt, example_host) ∧
  found_by_long (above example_host) (replicate 16 Byte.x09) = Some 0%nat ∧
  store (above example_host) !! 0%nat = Some example_a ∧
  host_handle 9 example_arrival example_server = Some (tt, example_accepted) ∧
  store (above example_server) !! 0%nat = None ∧ store (above example_accepted) !! 0%nat = Some example_b ∧
  found_by_short (above example_accepted) (localID example_b) = Some 0%nat.
Proof. split_and!; vm_compute; reflexivity. Qed.

Lemma example_given_sent : given example_host example_a example_given.
Proof.
  assert (∃ x e to, Asio.sent (below example_host) = [(x, e, example_given)] ∧ transmissions example_a = [(packet x, to)]) as (x&e&to&Ex&Et)
    by (eexists _, _, _; split; vm_compute; reflexivity).
  exists x, e, to. rewrite Ex, Et. split; by left.
Qed.

Lemma example_server_reachable : host_reachable 6 example_server.
Proof.
  apply (host_after_reachable 6); [apply (host_after_reachable 6); [|lia|exact I]|lia|exact I].
  apply host_reachable_init; [split; simpl; lia|split; discriminate].
Qed.

(** A first packet for a socket without connections. *)
Lemma first_arrival_valid {os : Os} t an k e d x p h :
  receiving (below h) !! k = Some x → receive_into (rv_packet x) d = (p, true) → shortConnectionIDs (above h) = ∅ →
  endpoint_wf e → h_type (p_header (getLookUp p).1) = Packet.H0 → length (p_data (getLookUp p).1) = 1500%nat → p_dataSize (getLookUp p).1 = 0 →
  findConnection (getLookUp p).2 (above h) = None → an_now an = t → in_u 16 (an_random an) →
  match an_openUser an with Some (o, _, _) => user_options_ok (above h) o | None => True end →
  host_valid t (ReceiveDone an k (Some (e, d))) h.
Proof.
  intros Hx Ex Ei He Et El Es Ef Hn Hr Hu. exists x. split; [done|]. split; [done|]. split; [split; [done|split; [|done]]|].
  - exists 1. split; [lia|]. rewrite Ei. apply (not_elem_of_empty (C := gset Z)).
  - intros e' d' p' [= <- <-]. split; [done|]. rewrite Ex. intros [= <-]. rewrite Ef. split_and!; [| |done].
    + unfold data_packet_ok, packet_wf. by rewrite El, Es, Et.
    + unfold h3_ok. by rewrite Et.
Qed.

Lemma example_arrival_valid : host_valid 9 example_arrival example_server.
Proof.
  assert (∃ x, receiving (below example_server) !! 0%nat = Some x ∧ receive_into (rv_packet x) example_given = (example_arrived, true)) as (x&Hx&Ex)
    by (eexists; split; vm_compute; reflexivity).
  apply (first_arrival_valid _ _ _ _ _ x example_arrived); [exact Hx|exact Ex|vm_compute; reflexivity| |vm_compute; reflexivity..| |exact I].
  - vm_compute. by split_and!.
  - by split.
Qed.

Lemma example_host_talk : host_talk 0 mute mute (Some 0%nat) 5 example_host 9 example_accepted.
Proof.
  destruct example_host_steps as (E1&Hf&Ha&E2&Hn&Hb&Hs). pose proof example_server_reachable as Hr. pose proof example_given_sent as Hg.
  pose proof example_arrival_valid as Hv.
  eapply (host_talk_accepts 0 mute 5 example_host 6 example_server example_a 0 example_b 9); [|exact Ha|lia|exact Hv|exact Hg|exact E2|exact Hn|exact Hb|exact Hs].
  eapply (host_talk_connects 0 5 5); [exact example_open_reachable|lia|exact Hr|exact example_connects_valid|exact E1|exact Hf].
Qed.

(** *** One send, through all layers *)

Definition answers_at (t : Z) : Answers := mkAnswers (λ _, MRUDP_OK) 77 MRUDP_OK t MRUDP_OK None.

#[local] Existing Instance Os_example.

(** The last datagram [from] gave to its system arrives at [to]. *)
Definition carry (t : Z) (e : Endpoint) (from to : Host) : Host :=
  match last (Asio.sent (below from)) with
  | Some (_, _, d) => host_after t (ReceiveDone (answers_at t) 0 (Some (e, d))) to
  | None => to
  end.

Definition client2 : Host := carry 10 (toEndpoint example_remote) example_accepted example_host.
Definition server2 : Host := carry 11 (toEndpoint example_remote) client2 example_accepted.
Definition client3 : Host := carry 12 (toEndpoint example_remote) server2 client2.
Definition client4 : Host := host_after 20 (About 0 (QueueTimeout RELIABLE)) (host_after 13 (About 0 (UserSend hello RELIABLE)) client3).
Definition server3 : Host := carry 21 (toEndpoint example_remote) client4 server2.

(** The handshake and the data as the systems saw them, and the data as the user got it: also when
    the datagram arrives twice. *)
Example hello_through_hosts :
  (λ x, h_type (p_header (packet x.1.1))) <$> Asio.sent (below client4) = [Packet.H0; Packet.H2; Packet.DATA_RELIABLE] ∧
  (λ x, h_type (p_header (packet x.1.1))) <$> Asio.sent (below server3) = [Packet.H1; Packet.H3] ∧
  delivered <$> store (above server3) !! 0%nat = Some [hello] ∧
  delivered <$> store (above (carry 22 (toEndpoint example_remote) client4 server3)) !! 0%nat = Some [hello].
Proof. split_and!; vm_compute; reflexivity. Qed.

(** *** It is a conversation *)

#[local] Instance Header_eq_dec : EqDecision Header.
Proof. solve_decision. Defined.
#[local] Instance Packet_eq_dec : EqDecision Packet.
Proof. solve_decision. Defined.

(** The checks of [host_valid], for a packet that finds the connection [r] and comes from its peer. *)
Definition frame_okb (f : Frame) : bool :=
  negb ((fh_type (f_header f) =? ACK_FRAME) && bool_decide (length (f_data f) < 4)%nat) && negb (fh_type (f_header f) =? DATA_COMPRESSED).
Definition packet_okb (p : Packet) : bool :=
  bool_decide (packet_wf p) && negb (h_type (p_header p) =? DATA_UNRELIABLE) &&
  (negb (h_type (p_header p) =? DATA_RELIABLE) || forallb frame_okb (parse_frames (payload p))) &&
  (negb (h_type (p_header p) =? Packet.H3) ||
   match (popData p sizeof_HandshakeOptionsData).2 with Some d => int32 (le_decode (take 4 d)) <? 900000000 | None => true end).

Lemma frame_okb_ok f : frame_okb f = true → frame_ok f.
Proof.
  unfold frame_okb. intros [Ha Hc]%andb_true_iff. split; [intros E|].
  - rewrite E, Z.eqb_refl in Ha. simpl in Ha. apply negb_true_iff, bool_decide_eq_false in Ha. lia.
  - intros E. by rewrite E, Z.eqb_refl in Hc.
Qed.

Lemma packet_okb_ok p : packet_okb p = true → data_packet_ok p ∧ h3_ok p.
Proof.
  unfold packet_okb. intros [[[Hw%bool_decide_eq_true Hu]%andb_true_iff Hr]%andb_true_iff H3]%andb_true_iff. split; [split_and!|].
  - done.
  - intros E. rewrite E, Z.eqb_refl in Hr. simpl in Hr. apply Forall_forall. intros f Hf.
    apply frame_okb_ok. by eapply forallb_forall in Hr.
  - intros E. by rewrite E, Z.eqb_refl in Hu.
  - intros d E Ed. rewrite E, Z.eqb_refl, Ed in H3. by apply Z.ltb_lt.
Qed.

(** The packet of [d], when it is one for the connection [c], which is [r], and comes from its peer. *)
Definition arriving {os : Os} (e : Endpoint) (d : bytes) (r : Ref) (c : Connection) (h : Host) : option Packet :=
  x ← receiving (below h) !! 0%nat;
  let '(p, ok) := receive_into (rv_packet x) d in
  let '(q, l) := getLookUp p in
  if ok && packet_okb q && bool_decide (findConnection l (above h) = Some r) && bool_decide (toAddr e = State.remoteAddress c) &&
     bool_decide (1 ∉ shortConnectionIDs (above h))
  then Some q else None.

Lemma arriving_ok `{!Zlib} {os : Os} t e d r c q h v peer hp :
  arriving e d r c h = Some q → endpoint_wf e → store (above h) !! r = Some c → given hp peer d →
  let i := ReceiveDone (answers_at t) 0 (Some (e, d)) in
  host_valid t i h ∧ for_socket (λ j, target j (above h) = Some r → fed_by (Some (hp, peer)) i) i h ∧
  for_socket (λ j, used v t j r c (above h)) i h ∧
  host_part t i r c h v = speaks (Arrives q (toAddr e)) (set_clock t c) v.
Proof.
  unfold arriving. destruct (receiving (below h) !! 0%nat) as [x|] eqn:Hx; [|done]. cbn [mbind option_bind].
  destruct (receive_into (rv_packet x) d) as [p ok] eqn:Ep. destruct (getLookUp p) as [q' l] eqn:El.
  destruct (ok && _ && _ && _ && _) eqn:Eb; [|done]. intros [= ->] He Hc Hg. set (i := ReceiveDone _ _ _).
  apply andb_true_iff in Eb as [Eb Hid]. apply andb_true_iff in Eb as [Eb Ha]. apply andb_true_iff in Eb as [Eb Hf].
  apply andb_true_iff in Eb as [-> [Hd H3]%packet_okb_ok]. rewrite bool_decide_eq_true in Hid, Ha, Hf.
  assert (socket_input i h = Some (FromNetwork (answers_at t) p (toAddr e))) as Ej
    by (cbn [i socket_input]; rewrite Hx; cbn [mbind option_bind]; by rewrite Ep).
  split_and!.
  - exists x. split; [done|]. split; [done|]. split; [split; [by split|split; [by exists 1|exact I]]|].
    intros e' d' p' [= <- <-]. split; [done|]. rewrite Ep. intros [= <-]. rewrite El. split_and!; [done|done|].
    intros r' c' Hr' Hc'. cbn [snd] in Hr'. rewrite Hf in Hr'. injection Hr' as <-. rewrite Hc in Hc'. injection Hc' as <-.
    split; [by rewrite toAddr_length|by left].
  - intros j _ _. by exists hp, peer.
  - intros j Hj. rewrite Ej in Hj. injection Hj as <-. intros _ j [= <-]. by split.
  - unfold host_part. rewrite Ej. unfold part. rewrite decide_True by (cbn [target]; by rewrite El). cbn [input_of]. by rewrite El.
Qed.

(** Timers and calls of the user. *)
Lemma about_ok `{!Zlib} {os : Os} t j r c h v peer :
  of_connection j = true → is_OpenUser j = false → valid j (set_clock t c) → store (above h) !! r = Some c → is_Some (imps (below h) !! r) →
  let i := About r j in
  host_valid t i h ∧ for_socket (λ k, target k (above h) = Some r → fed_by peer i) i h ∧
  for_socket (λ k, used v t k r c (above h)) i h ∧ host_part t i r c h v = speaks j (set_clock t c) v.
Proof.
  intros Hj Hu Hv Hc Hi i. split_and!.
  - split; [|done]. split; [done|]. by exists c.
  - intros k _ _. exact Hj.
  - intros k [= <-] _ j' [= <-]. split; [by apply valid_used|]. by rewrite Hu.
  - unfold host_part, part. cbn [socket_input i target input_of]. by rewrite decide_True.
Qed.

(** The last datagram of [h] is one of its connection [c]. *)
Definition last_given {os : Os} (h : Host) (c : Connection) : option bytes :=
  '(x, _, d) ← last (Asio.sent (below h));
  '(w, _) ← last (transmissions c);
  if decide (packet x = w) then Some d else None.

Lemma last_given_ok {os : Os} h c d : last_given h c = Some d → given h c d.
Proof.
  unfold last_given. destruct (last (Asio.sent (below h))) as [[[x e] d']|] eqn:Ex; [|done]. cbn [mbind option_bind].
  destruct (last (transmissions c)) as [[w to]|] eqn:Ew; [|done]. cbn [mbind option_bind]. case_decide as E; [|done]. intros [= ->].
  exists x, e, to. apply last_Some_elem_of in Ex, Ew. subst w. by split.
Qed.

Lemma host_after_handles `{!Zlib} {os : Os} t0 t i h :
  host_reachable t0 h → t0 ≤ t → host_valid t i h → host_handle t i h = Some (tt, host_after t i h).
Proof.
  intros Hr Ht Hv. pose proof (host_handle_wp t i h (has_inv_mono _ _ _ (host_reachable_has_inv _ _ Hr) Ht) Hv) as ([]&h'&E&_)%wp_some.
  unfold host_after. by rewrite E.
Qed.

Lemma carry_eq t e from to c d :
  last_given from c = Some d → carry t e from to = host_after t (ReceiveDone (answers_at t) 0 (Some (e, d))) to.
Proof.
  unfold last_given, carry. destruct (last (Asio.sent (below from))) as [[[x ?] d']|]; [|done]. cbn [mbind option_bind].
  destruct (last (transmissions c)) as [[w ?]|]; [|done]. cbn [mbind option_bind]. case_decide; [|done]. by intros [= ->].
Qed.

Lemma carry_right ra va vb rb ta ha tb hb a b t e d q :
  host_talk ra va vb (Some rb) ta ha tb hb → store (above ha) !! ra = Some a → store (above hb) !! rb = Some b →
  last_given ha a = Some d → arriving e d rb b hb = Some q → endpoint_wf e → tb ≤ t →
  host_talk ra va (speaks (Arrives q (toAddr e)) (set_clock t b) vb) (Some rb) ta ha t (carry t e ha hb).
Proof.
  intros Ht Ha Hb Hd Hq He Htb. rewrite (carry_eq _ _ _ _ _ _ Hd).
  destruct (arriving_ok t e d rb b q hb vb a ha Hq He Hb (last_given_ok _ _ _ Hd)) as (Hv&Hf&Hu&<-).
  destruct (host_talk_reachable _ _ _ _ _ _ _ _ Ht) as [_ Hr].
  eapply host_talk_right; [done|done|done|done| |done|by eapply host_after_handles].
  unfold peer_of, stored. cbn [mbind option_bind]. rewrite Ha. exact Hf.
Qed.

Lemma carry_left ra va vb rb ta ha tb hb a b t e d q :
  host_talk ra va vb (Some rb) ta ha tb hb → store (above ha) !! ra = Some a → store (above hb) !! rb = Some b →
  last_given hb b = Some d → arriving e d ra a ha = Some q → endpoint_wf e → ta ≤ t →
  host_talk ra (speaks (Arrives q (toAddr e)) (set_clock t a) va) vb (Some rb) t (carry t e hb ha) tb hb.
Proof.
  intros Ht Ha Hb Hd Hq He Hta. rewrite (carry_eq _ _ _ _ _ _ Hd).
  destruct (arriving_ok t e d ra a q ha va b hb Hq He Ha (last_given_ok _ _ _ Hd)) as (Hv&Hf&Hu&<-).
  destruct (host_talk_reachable _ _ _ _ _ _ _ _ Ht) as [Hr _].
  eapply host_talk_left; [done|done|done|done| |done|by eapply host_after_handles].
  unfold peer_of, stored. cbn [mbind option_bind]. rewrite Hb. exact Hf.
Qed.

Lemma about_left `{!Zlib} {os : Os} ra va vb rb ta ha tb hb a t j :
  host_talk ra va vb rb ta ha tb hb → store (above ha) !! ra = Some a → is_Some (imps (below ha) !! ra) → ta ≤ t →
  of_connection j = true → is_OpenUser j = false → valid j (set_clock t a) →
  host_talk ra (speaks j (set_clock t a) va) vb rb t (host_after t (About ra j) ha) tb hb.
Proof.
  intros Ht Ha Hi Hta Hj Ho Hv. destruct (about_ok t j ra a ha va (peer_of rb hb) Hj Ho Hv Ha Hi) as (Hva&Hf&Hu&<-).
  destruct (host_talk_reachable _ _ _ _ _ _ _ _ Ht) as [Hr _].
  eapply host_talk_left; [done|done|done|done|done|done|by eapply host_after_handles].
Qed.

(** What each host knows of its connection, and the packets on their way. *)
Definition conn0 (h : Host (os := Os_example)) : Connection := default example_connection (store (above h) !! 0%nat).
Definition next_datagram (h : Host (os := Os_example)) : bytes := default [] (last_given h (conn0 h)).
Definition next_packet (from to : Host (os := Os_example)) : Packet :=
  default new_Packet (arriving (toEndpoint example_remote) (next_datagram from) 0 (conn0 to) to).

(** What [carry_left], [carry_right] and [about_left] ask for. *)
Definition carried_over (from to : Host (os := Os_example)) : Prop :=
  store (above from) !! 0%nat = Some (conn0 from) ∧ store (above to) !! 0%nat = Some (conn0 to) ∧
  last_given from (conn0 from) = Some (next_datagram from) ∧
  arriving (toEndpoint example_remote) (next_datagram from) 0 (conn0 to) to = Some (next_packet from to).

Definition client_sends : Host := host_after 13 (About 0 (UserSend hello RELIABLE)) client3.
Definition hello_data : Packet := next_packet client4 server2.

Lemma hello_carried :
  carried_over example_accepted example_host ∧ carried_over client2 example_accepted ∧ carried_over server2 client2 ∧ carried_over client4 server2.
Proof. unfold carried_over. split_and!; vm_compute; reflexivity. Qed.

Lemma hello_asked :
  store (above client3) !! 0%nat = Some (conn0 client3) ∧ is_Some (imps (below client3) !! 0%nat) ∧
  store (above client_sends) !! 0%nat = Some (conn0 client_sends) ∧ is_Some (imps (below client_sends) !! 0%nat).
Proof. split_and!; [vm_compute; reflexivity|eexists; vm_compute; reflexivity|vm_compute; reflexivity|eexists; vm_compute; reflexivity]. Qed.

(** Only the send is said, and only its packet is heard. *)
Lemma hello_spoken :
  speaks (Arrives (next_packet example_accepted example_host) (toAddr (toEndpoint example_remote))) (set_clock 10 (conn0 example_host)) mute = mute ∧
  speaks (Arrives (next_packet client2 example_accepted) (toAddr (toEndpoint example_remote))) (set_clock 11 (conn0 example_accepted)) mute = mute ∧
  speaks (Arrives (next_packet server2 client2) (toAddr (toEndpoint example_remote))) (set_clock 12 (conn0 client2)) mute = mute ∧
  speaks (UserSend hello RELIABLE) (set_clock 13 (conn0 client3)) mute = mkVoice hello [] ∧
  speaks (QueueTimeout RELIABLE) (set_clock 20 (conn0 client_sends)) (mkVoice hello []) = mkVoice hello [] ∧
  speaks (Arrives hello_data (toAddr (toEndpoint example_remote))) (set_clock 21 (conn0 server2)) mute = mkVoice [] [hello_data].
Proof. split_and!; vm_compute; reflexivity. Qed.

Lemma example_remote_wf : endpoint_wf (toEndpoint example_remote).
Proof. vm_compute. by split_and!. Qed.

Lemma handshake_talk : host_talk 0 mute mute (Some 0%nat) 12 client3 11 server2.
Proof.
  destruct hello_carried as ((Hb0&Ha0&Hd1&Hq1)&(Ha1&Hb1&Hd2&Hq2)&(Hb2&Ha2&Hd3&Hq3)&_).
  destruct hello_spoken as (E1&E2&E3&_). pose proof example_host_talk as Ht. pose proof example_remote_wf as Hw.
  pose proof (carry_left _ _ _ _ _ _ _ _ _ _ 10 _ _ _ Ht Ha0 Hb0 Hd1 Hq1 Hw ltac:(lia)) as Ht1. rewrite E1 in Ht1. fold client2 in Ht1.
  pose proof (carry_right _ _ _ _ _ _ _ _ _ _ 11 _ _ _ Ht1 Ha1 Hb1 Hd2 Hq2 Hw ltac:(lia)) as Ht2. rewrite E2 in Ht2. fold server2 in Ht2.
  pose proof (carry_left _ _ _ _ _ _ _ _ _ _ 12 _ _ _ Ht2 Ha2 Hb2 Hd3 Hq3 Hw ltac:(lia)) as Ht3. by rewrite E3 in Ht3.
Qed.

Lemma hello_talk : host_talk 0 (mkVoice hello []) (mkVoice [] [hello_data]) (Some 0%nat) 20 client4 21 server3.
Proof.
  destruct hello_carried as (_&_&_&(Ha&Hb&Hd&Hq)), hello_asked as (H1&I1&H2&I2), hello_spoken as (_&_&_&E4&E5&E6).
  pose proof handshake_talk as Ht. pose proof example_remote_wf as Hw.
  pose proof (about_left _ _ _ _ _ _ _ _ _ 13 (UserSend hello RELIABLE) Ht H1 I1 ltac:(lia) eq_refl eq_refl eq_refl) as Ht4.
  rewrite E4 in Ht4. fold client_sends in Ht4.
  pose proof (about_left _ _ _ _ _ _ _ _ _ 20 (QueueTimeout RELIABLE) Ht4 H2 I2 ltac:(lia) eq_refl eq_refl I) as Ht5.
  rewrite E5 in Ht5. change (host_after 20 _ client_sends) with client4 in Ht5.
  pose proof (carry_right _ _ _ _ _ _ _ _ _ _ 21 _ _ _ Ht5 Ha Hb Hd Hq Hw ltac:(lia)) as Ht6. fold hello_data in Ht6. by rewrite E6 in Ht6.
Qed.

Lemma host_stream_witness :
  ∃ a b, store (above client4) !! 0%nat = Some a ∧ store (above server3) !! 0%nat = Some b ∧
    streamed hello [hello_data] (mkNetwork a b) ∧ streamed [] [] (mkNetwork b a) ∧
    host_finds client4 a b (above server3) 0 ∧ host_finds server3 b a (above client4) 0.
Proof. apply (host_stream 0 0 (mkVoice hello []) (mkVoice [] [hello_data]) 20 21 client4 server3). exact hello_talk. Defined.
