(* ===== verification/Crypto.v ===== *)
(** * Encryption: [Crypto], [imp/Crypto.h], [imp/CryptoOpenSSL.cpp]

    What builds with [MRUDP_ENABLE_CRYPTO] add: a connection exchanges public RSA keys in its first
    two handshake packets and AES session keys in the other two, and encrypts every packet with the
    best key it has of the other side.

    OpenSSL is the class [OpenSSL]; a call that fails has the result [None], and the calls that set
    up a context are part of the call they set it up for. Random numbers come from a state [Rng]
    that the computations pass on. [None] of a computation is undefined behaviour, as everywhere. *)

From S2P Require Import Prelude MemCopy Packet ReceiveQueue Types SendQueue State Connection.

(** ** OpenSSL *)

Class OpenSSL := {
  Rng : Type;
  PKEY : Type;
  RAND_bytes : Z → Rng → option bytes * Rng;
  EVP_PKEY_keygen : Z → Rng → option PKEY * Rng;
  i2d_PublicKey : PKEY → option bytes;
  d2i_PublicKey : bytes → option PKEY;
  (** with OAEP padding *)
  EVP_PKEY_encrypt : PKEY → bytes → Rng → option bytes * Rng;
  EVP_PKEY_decrypt : PKEY → bytes → option bytes;
  (** AES-256-CBC: what the update writes, and what the final call writes behind it *)
  aes_encrypt : bytes → bytes → bytes → option (bytes * option bytes);
  aes_decrypt : bytes → bytes → bytes → option (bytes * option bytes);
  sha256 : bytes → option bytes;
}.

(** ** Keys *)

Section crypto.
Context `{!OpenSSL}.

Definition DefaultRSAKeySize : Z := 1024.
Definition DefaultAESKeySize : Z := 256.
Definition AESKey_ByteSize : Z := DefaultAESKeySize / 8.
Definition AESIV_ByteSize : Z := DefaultAESKeySize / 8.
Definition SHAKey_ByteSize : Z := 256 / 8.

(** [RSAKey::I]; the key's pointer to it is null before it is constructed. *)
Record RSAKey_I := mkRSAKey_I { pkey : option PKEY; key_bytes : bytes }.
Abbreviation RSAKey := (option RSAKey_I).

Definition generate (size : Z) : M Rng (option bytes) := λ r, Some (RAND_bytes size r).

(** [construct_(RSAKeyDefault &, Vector<u8> &&)] *)
Definition construct_public (data : bytes) : RSAKey * bool :=
  let k := d2i_PublicKey data in (Some (mkRSAKey_I k data), bool_decide (is_Some k)).

(** [construct_(SecureRandom &, RSAKeyDefault &, RSAKeyDefault &)]: the private and the public key *)
Definition construct_pair : M Rng (RSAKey * RSAKey * bool) := λ r,
  let '(k, r) := EVP_PKEY_keygen DefaultRSAKeySize r in
  let private_ := Some (mkRSAKey_I k []) in
  Some (match k with
        | None => (private_, None, false)
        | Some k =>
          match i2d_PublicKey k with
          | None => (private_, None, false)
          | Some v => let '(public_, ok) := construct_public v in (private_, public_, ok)
          end
        end, r).

(** The result of the construction is not looked at. *)
Definition generateRSAPrivatePublicKeyPair : M Rng (RSAKey * RSAKey) :=
  '(private_, public_, _) ← construct_pair; mret (private_, public_).

(** [strong<AESKey>()] is zero until random bytes are written to it. *)
Definition generateAESKey : M Rng bytes :=
  d ← generate AESKey_ByteSize; mret (default (replicate (Z.to_nat AESKey_ByteSize) Byte.x00) d).
Definition generateSHAKey : M Rng bytes :=
  d ← generate SHAKey_ByteSize; mret (default (replicate (Z.to_nat SHAKey_ByteSize) Byte.x00) d).

(** [RSAKey::encrypt] and [decrypt] of an AES key. *)
Definition rsa_encrypt_key (rsa : RSAKey) (key : bytes) : M Rng (option bytes) :=
  match rsa with
  | None => ub
  | Some i => match pkey i with
              | None => mret None
              | Some k => λ r, Some (EVP_PKEY_encrypt k key r)
              end
  end.

Definition rsa_decrypt_key (rsa : RSAKey) (data : bytes) : option (option bytes) :=
  i ← rsa;
  Some (k ← pkey i;
        d ← EVP_PKEY_decrypt k data;
        if Z.of_nat (length d) =? AESKey_ByteSize then Some d else None).

(** [pushData] and [popData] of a public key. *)
Definition push_RSAPublicKey (p : Packet) (k : RSAKey) : option (Packet * bool) :=
  i ← k; pushSizedData p (key_bytes i).

Definition pop_RSAPublicKey (p : Packet) : Packet * option RSAKey :=
  match popSizedData p with
  | (p, None) => (p, None)
  | (p, Some data) => let '(k, ok) := construct_public data in (p, if (ok : bool) then Some k else None)
  end.

(** ** Packets *)

(** The padding is computed from two random bytes and then not used. A divisor of zero is
    undefined. *)
Definition calculatePadding (packet : Packet) (maxPadTo_ : Z) : M Rng Z :=
  let maxPadTo := size_t (maxPadTo_ - 2) in
  d ← generate 2;
  let n := size_t (maxPadTo - p_dataSize packet) in
  if n =? 0 then ub else mret (u16 (le_decode (default [Byte.x00; Byte.x00] d) `mod` n)).

Definition pushPadding (packet : Packet) (padding : Z) : Packet * bool := (packet, true).
Definition popPadding (packet : Packet) : Packet * bool := (packet, true).

(** [memcpy(data, packet.data, packet.dataSize)] *)
Definition copy_out (p : Packet) : option bytes :=
  if decide (p_dataSize p ≤ Z.of_nat (length (p_data p))) then Some (payload p) else None.

(** What an update and a final call write to the packet from its beginning on. *)
Definition write_cipher (p : Packet) (c : option (bytes * option bytes)) : option (Packet * bool) :=
  match c with
  | None => Some (p, false)
  | Some (u, f) =>
    d ← write_data (p_data p) 0 u;
    let p := mkPacket (p_header p) d (u16 (Z.of_nat (length u))) in
    match f with
    | None => Some (p, false)
    | Some f =>
      d ← write_data (p_data p) (p_dataSize p) f;
      Some (mkPacket (p_header p) d (u16 (p_dataSize p + Z.of_nat (length f))), true)
    end
  end.

(** [encrypt_(AESKeyDefault &, ...)] *)
Definition encrypt_AES (key : bytes) (packet : Packet) (maxPadTo : Z) : M Rng (Packet * bool) :=
  iv ← generate AESIV_ByteSize;
  match iv with
  | None => mret (packet, false)
  | Some iv =>
    '(packet, _) ← lift (pushData_T packet (le_encode 2 (h_id (p_header packet))));
    '(packet, _) ← lift (pushData_T packet (le_encode 1 (h_type (p_header packet))));
    let packet := set_type (set_id packet 0) ENCRYPTED_VIA_AES in
    padding ← calculatePadding packet maxPadTo;
    let '(packet, _) := pushPadding packet padding in
    data ← lift (copy_out packet);
    '(packet, ok) ← lift (write_cipher packet (aes_encrypt key iv data));
    if (ok : bool) then lift (pushData_T packet iv) else mret (packet, false)
  end.

Definition decrypt_AES (key : bytes) (packet : Packet) : option (Packet * bool) :=
  match popData packet AESIV_ByteSize with
  | (packet, None) => Some (packet, false)
  | (packet, Some iv) =>
    data ← copy_out packet;
    '(packet, ok) ← write_cipher packet (aes_decrypt key iv data);
    if (ok : bool) then
      let '(packet, ok) := popPadding packet in
      if (ok : bool) then
        match popData packet 1 with
        | (packet, None) => Some (packet, false)
        | (packet, Some t) =>
          let packet := set_type packet (le_decode t) in
          match popData packet 2 with
          | (packet, None) => Some (packet, false)
          | (packet, Some i) => Some (set_id packet (le_decode i), true)
          end
        end
      else Some (packet, false)
    else Some (packet, false)
  end.

(** [encrypt_(RSAKeyDefault &, Packet &, ...)]: a fresh AES key, itself encrypted, behind the data *)
Definition encrypt_RSA (rsa : RSAKey) (packet : Packet) (maxPadTo : Z) : M Rng (Packet * bool) :=
  aesKey ← generate AESKey_ByteSize;
  match aesKey with
  | None => mret (packet, false)
  | Some aesKey =>
    encryptedAESKey ← rsa_encrypt_key rsa aesKey;
    match encryptedAESKey with
    | None => mret (packet, false)
    | Some e =>
      '(packet, ok) ← encrypt_AES aesKey packet (size_t (maxPadTo - pushSize_Vector e));
      if (ok : bool) then
        '(packet, ok) ← lift (pushSizedData packet e);
        if (ok : bool) then mret (set_type packet ENCRYPTED_VIA_PUBLIC_KEY, true) else mret (packet, false)
      else mret (packet, false)
    end
  end.

Definition decrypt_RSA (rsa : RSAKey) (packet : Packet) : option (Packet * bool) :=
  match popSizedData packet with
  | (packet, None) => Some (packet, false)
  | (packet, Some e) =>
    aesKey ← rsa_decrypt_key rsa e;
    match aesKey with
    | None => Some (packet, false)
    | Some aesKey => decrypt_AES aesKey (set_type packet ENCRYPTED_VIA_AES)
    end
  end.

(** ** Hosts and connections *)

Record HostCrypto := mkHostCrypto { privateKey : RSAKey; publicKey : RSAKey }.

Definition HostCrypto_init : M Rng HostCrypto :=
  '(private_, public_) ← generateRSAPrivatePublicKeyPair; mret (mkHostCrypto private_ public_).

Record ConnectionCrypto := mkConnectionCrypto {
  host : HostCrypto;
  remotePublicKey : option RSAKey;
  localSessionKey : bytes;
  remoteSessionKey : option bytes;
}.

Definition ConnectionCrypto_init (h : HostCrypto) : M Rng ConnectionCrypto :=
  k ← generateAESKey; mret (mkConnectionCrypto h None k None).

Definition cc_canSend (c : ConnectionCrypto) : bool := bool_decide (is_Some (remoteSessionKey c)).

(** The first key that arrives is kept. *)
Definition learn_public (k : RSAKey) (c : ConnectionCrypto) : ConnectionCrypto :=
  mkConnectionCrypto (host c) (Some (default k (remotePublicKey c))) (localSessionKey c) (remoteSessionKey c).
Definition learn_session (k : bytes) (c : ConnectionCrypto) : ConnectionCrypto :=
  mkConnectionCrypto (host c) (remotePublicKey c) (localSessionKey c) (Some (default k (remoteSessionKey c))).

(** [ConnectionCrypto::onReceive]: decryption, then the key a handshake packet carries. *)
Definition cc_decrypt (c : ConnectionCrypto) (packet : Packet) : option (Packet * bool) :=
  let type := h_type (p_header packet) in
  if type =? ENCRYPTED_VIA_PUBLIC_KEY then decrypt_RSA (privateKey (host c)) packet
  else if type =? ENCRYPTED_VIA_AES then decrypt_AES (localSessionKey c) packet
  else Some (packet, true).

Definition cc_learn (c : ConnectionCrypto) (packet : Packet) : ConnectionCrypto * Packet * PacketDiscard :=
  let type := h_type (p_header packet) in
  if (type =? H0) || (type =? H1) then
    match pop_RSAPublicKey packet with
    | (packet, None) => (c, packet, Discard)
    | (packet, Some k) => (learn_public k c, packet, Keep)
    end
  else if (type =? H2) || (type =? H3) then
    match popData packet AESKey_ByteSize with
    | (packet, None) => (c, packet, Discard)
    | (packet, Some k) => (learn_session k c, packet, Keep)
    end
  else (c, packet, Keep).

Definition cc_onReceive (c : ConnectionCrypto) (packet : Packet) : option (ConnectionCrypto * Packet * PacketDiscard) :=
  '(packet, ok) ← cc_decrypt c packet;
  Some (if (ok : bool) then cc_learn c packet else (c, packet, Discard)).

(** [ConnectionCrypto::onSend]: the key the handshake packet is to carry, then encryption. *)
Definition cc_attach (c : ConnectionCrypto) (packet : Packet) : option (Packet * bool) :=
  let type := h_type (p_header packet) in
  if (type =? H0) || (type =? H1) then push_RSAPublicKey packet (publicKey (host c))
  else if (type =? H2) || (type =? H3) then pushData_T packet (localSessionKey c)
  else Some (packet, true).

Definition cc_encrypt (c : ConnectionCrypto) (packet : Packet) : M Rng (Packet * bool) :=
  match remoteSessionKey c, remotePublicKey c with
  | Some k, _ => encrypt_AES k packet MAX_PACKET_POST_CRYPTO_SIZE
  | None, Some k => encrypt_RSA k packet MAX_PACKET_POST_CRYPTO_SIZE
  | None, None => mret (packet, true)
  end.

Definition cc_onSend (c : ConnectionCrypto) (packet : Packet) : M Rng (Packet * PacketDiscard) :=
  '(packet, ok) ← lift (cc_attach c packet);
  if (ok : bool) then
    '(packet, ok) ← cc_encrypt c packet;
    mret (packet, if (ok : bool) then Keep else Discard)
  else mret (packet, Discard).

(** ** Signatures *)

(** [sign_] and [verify_]. The digest is written to the caller's buffer before its size is compared;
    the inner [None] is the result [false]. *)
Definition sign_ (key data : bytes) (signatureSize : Z) : option (option bytes) :=
  match sha256 data with
  | None => Some None
  | Some d =>
    if signatureSize <? Z.of_nat (length d) then None
    else Some (if Z.of_nat (length d) =? signatureSize then Some d else None)
  end.

Definition verify_ (key data compare : bytes) : option bool :=
  match sha256 data with
  | None => Some false
  | Some d =>
    if SHAKey_ByteSize <? Z.of_nat (length d) then None
    else Some ((Z.of_nat (length d) =? Z.of_nat (length compare)) && bool_decide (d = compare))
  end.

(** [NetworkPath::sendChallenge] and [verifyChallengeResponse], as such builds have them: the
    challenge for one path, and the check of its echo. *)
Definition challenge_packet_signed (signer : bytes) (time : Z) (address : option Address) : option (Packet * bool) :=
  let basis := le_encode 8 time ++ default Address_empty address in
  '(p, _) ← pushSizedData (set_type new_Packet AUTHENTICATE_CHALLENGE) basis;
  signature ← sign_ signer basis SHAKey_ByteSize;
  match signature with
  | None => Some (p, false)
  | Some signature => '(p, _) ← pushSizedData p signature; Some (p, true)
  end.

Definition verifyChallengeResponse_signed (signer : bytes) (c : Connection) (packet : Packet) (path : Address) :
    option (Packet * bool) :=
  let '(p, ok) := verifyChallengeResponse c packet path in
  if (ok : bool) then
    match popSizedData packet with
    | (p1, Some signature) =>
      match popSizedData p1 with
      | (_, Some basis) => v ← verify_ signer basis signature; Some (p, v)
      | (_, None) => Some (p, false)
      end
    | (_, None) => Some (p, false)
    end
  else Some (p, false).
End crypto.

(** ** What the library relies on *)

(** Documented behaviour of the calls: sizes, and that decryption undoes encryption. *)
Class OpenSSLLaws `{!OpenSSL} := {
  RAND_bytes_length n r d r' : 0 ≤ n → RAND_bytes n r = (Some d, r') → Z.of_nat (length d) = n;
  (** an update writes less than a block more than it reads; with its padding the whole is the
      next multiple of a block *)
  aes_update_length k iv d u f : aes_encrypt k iv d = Some (u, f) → (length u ≤ length d + 15)%nat;
  aes_encrypt_length k iv d u f : aes_encrypt k iv d = Some (u, Some f) →
    (length u + length f = (length d `div` 16 + 1) * 16)%nat;
  aes_decrypt_encrypt k iv d u f : aes_encrypt k iv d = Some (u, Some f) →
    ∃ u' f', aes_decrypt k iv (u ++ f) = Some (u', Some f') ∧ u' ++ f' = d;
  (** decryption writes at most a block more than it reads *)
  aes_decrypt_length k iv d u f : aes_decrypt k iv d = Some (u, f) →
    (length u + length (default [] f) ≤ length d + 16)%nat;
  (** the public key read back from its encoding belongs to the private key; the ciphertext has the
      size of the modulus *)
  rsa_pair r k r' b pk : EVP_PKEY_keygen DefaultRSAKeySize r = (Some k, r') → i2d_PublicKey k = Some b →
    d2i_PublicKey b = Some pk → (length b ≤ 162)%nat ∧
    ∀ m s c s', EVP_PKEY_encrypt pk m s = (Some c, s') → length c = 128%nat ∧ EVP_PKEY_decrypt k c = Some m;
  sha256_length d h : sha256 d = Some h → Z.of_nat (length h) = SHAKey_ByteSize;
}.

Section packets.
Context {ssl : OpenSSL} {ssl_laws : OpenSSLLaws}.
Implicit Types p q : Packet.

Lemma write_data_eq (d : bytes) o bs :
  0 ≤ o → o + Z.of_nat (length bs) ≤ Z.of_nat (length d) →
  write_data d o bs = Some (take (Z.to_nat o) d ++ bs ++ drop (Z.to_nat o + length bs) d).
Proof.
  intros Ho Hl. unfold write_data. rewrite decide_True by lia.
  rewrite mem_copy_eq, memcpy_inside by (rewrite ?length_drop; lia). simpl. by rewrite (take_ge bs), drop_drop by lia.
Qed.

Lemma write_cipher_spec p u f :
  packet_wf p → Z.of_nat (length u + length f) ≤ MAX_PACKET_SIZE →
  ∃ q, write_cipher p (Some (u, Some f)) = Some (q, true) ∧ packet_wf q ∧ payload q = u ++ f ∧ p_header q = p_header p.
Proof.
  intros [Hl _] Hn. unfold MAX_PACKET_SIZE in *. unfold write_cipher.
  rewrite write_data_eq by lia. cbn [mbind option_bind p_data p_dataSize p_header].
  rewrite (wrap_small 16 (Z.of_nat (length u))) by (unfold in_u; lia).
  change (Z.to_nat 0) with 0%nat. rewrite take_0, app_nil_l, Nat.add_0_l.
  rewrite write_data_eq by (rewrite ?length_app, ?length_drop; lia). cbn [mbind option_bind].
  rewrite wrap_small by (unfold in_u; lia). eexists. split; [done|].
  rewrite Nat2Z.id, take_app_length. split_and!; [|unfold payload; simpl|done].
  - split; [|simpl; unfold MAX_PACKET_SIZE; lia]. simpl. unfold MAX_PACKET_SIZE.
    rewrite !length_app, length_drop, length_app, length_drop. lia.
  - rewrite app_assoc, take_app_length'; [done|]. rewrite length_app. lia.
Qed.

(** Whatever was written, the packet stays well-formed. *)
Lemma write_cipher_wf p c :
  packet_wf p → (∀ u f, c = Some (u, f) → Z.of_nat (length u + length (default [] f)) ≤ MAX_PACKET_SIZE) →
  ∃ q ok, write_cipher p c = Some (q, ok) ∧ packet_wf q.
Proof.
  intros Hp Hc. destruct c as [[u [f|]]|]; [| |by exists p, false].
  - destruct (write_cipher_spec p u f Hp) as (q&E&Hq&_); [exact (Hc u (Some f) eq_refl)|]. by exists q, true.
  - specialize (Hc u None eq_refl). cbn [default length] in Hc. destruct Hp as [Hl _]. unfold MAX_PACKET_SIZE in *.
    unfold write_cipher. rewrite write_data_eq by (simpl in *; lia). eexists _, _. split; [done|].
    split; simpl in *; [rewrite !length_app, length_drop; unfold MAX_PACKET_SIZE; lia|].
    rewrite wrap_small by (unfold in_u; lia). unfold MAX_PACKET_SIZE. lia.
Qed.

Lemma copy_out_eq p : packet_wf p → copy_out p = Some (payload p).
Proof. intros [Hl Hs]. unfold copy_out, MAX_PACKET_SIZE in *. by rewrite decide_True by lia. Qed.

Lemma set_header_payload p h : payload (set_header p h) = payload p.
Proof. done. Qed.

(** ** Sessions keys *)

(** [p'] carries [d] with the header fields [i] and [t], under the AES key [key]. *)
Definition sealed (key : bytes) (d : bytes) (i t : Z) p' : Prop :=
  packet_wf p' ∧ ∃ iv u f, payload p' = (u ++ f) ++ iv ∧ Z.of_nat (length iv) = AESIV_ByteSize ∧
    aes_encrypt key iv (d ++ le_encode 2 i ++ le_encode 1 t) = Some (u, Some f).

(** The overhead: id, type, a block of padding at most, and the vector. *)
Definition AES_overhead : Z := 51.

Definition header_wf (h : Header) : Prop := in_u 8 (h_type h) ∧ in_u 16 (h_id h).

Lemma calculatePadding_wp p maxPadTo (Q : Z → Rng → Prop) r :
  size_t (size_t (maxPadTo - 2) - p_dataSize p) ≠ 0 → (∀ n r', Q n r') → wp (calculatePadding p maxPadTo) Q r.
Proof.
  intros Hn HQ. unfold calculatePadding. apply wp_bind. unfold wp at 1, generate. destruct (RAND_bytes 2 r) as [d r1].
  rewrite (proj2 (Z.eqb_neq _ _)) by done. apply wp_ret, HQ.
Qed.

(** Calls of OpenSSL that fail: for the 32 random bytes of a key or a vector, to encrypt under an AES
    key, and to encrypt an AES key under a public key. *)
Definition RAND_fails : Prop := ∃ s s', RAND_bytes 32 s = (None, s').
Definition AES_fails (key : bytes) : Prop :=
  ∃ iv d, Z.of_nat (length iv) = 32 ∧ ∀ u f, aes_encrypt key iv d ≠ Some (u, Some f).
Definition RSA_fails (rsa : option RSAKey_I) : Prop :=
  ∃ i k m s s', rsa = Some i ∧ pkey i = Some k ∧ Z.of_nat (length m) = 32 ∧ EVP_PKEY_encrypt k m s = (None, s').
Definition encryption_fails (rsa : option RSAKey_I) : Prop :=
  RAND_fails ∨ RSA_fails rsa ∨ ∃ key, Z.of_nat (length key) = 32 ∧ AES_fails key.

Lemma encrypt_AES_wp key p maxPadTo r :
  packet_wf p → p_dataSize p + AES_overhead ≤ MAX_PACKET_SIZE → size_t (size_t (maxPadTo - 2) - (p_dataSize p + 3)) ≠ 0 →
  wp (encrypt_AES key p maxPadTo) (λ '(p', ok) _, packet_wf p' ∧ (ok = false → RAND_fails ∨ AES_fails key) ∧ (ok = true →
    p_dataSize p' ≤ p_dataSize p + AES_overhead ∧ h_type (p_header p') = ENCRYPTED_VIA_AES ∧ h_id (p_header p') = 0 ∧
    h_connection (p_header p') = h_connection (p_header p) ∧ h_version (p_header p') = h_version (p_header p) ∧
    sealed key (payload p) (h_id (p_header p)) (h_type (p_header p)) p')) r.
Proof.
  unfold AES_overhead, MAX_PACKET_SIZE. intros Hp Hs Hpad. unfold encrypt_AES. apply wp_bind. unfold wp at 1, generate.
  destruct (RAND_bytes AESIV_ByteSize r) as [[iv|] r1] eqn:Eiv; [|apply wp_ret; split_and!; [done| |done]; left; by eexists _, _].
  apply RAND_bytes_length in Eiv; [|done]. change AESIV_ByteSize with 32 in Eiv.
  destruct (pushData_T_fits p (le_encode 2 (h_id (p_header p))) Hp) as (p1&E1&Hp1&P1&H1&S1);
    [rewrite le_encode_length; unfold MAX_PACKET_SIZE; lia|].
  rewrite le_encode_length in S1. apply wp_bind. eapply wp_lift; [exact E1|]. cbv beta iota.
  destruct (pushData_T_fits p1 (le_encode 1 (h_type (p_header p1))) Hp1) as (p2&E2&Hp2&P2&H2&S2);
    [rewrite le_encode_length; unfold MAX_PACKET_SIZE; lia|].
  rewrite le_encode_length in S2. apply wp_bind. eapply wp_lift; [exact E2|]. cbv beta iota zeta.
  set (p3 := set_type _ _). assert (packet_wf p3) as Hp3 by done.
  apply wp_bind, calculatePadding_wp.
  { change (p_dataSize p3) with (p_dataSize p2). by replace (p_dataSize p2) with (p_dataSize p + 3) by lia. }
  intros padding r2. cbn [pushPadding]. apply wp_bind. eapply wp_lift; [by apply copy_out_eq|].
  change (payload p3) with (payload p2). rewrite P2, P1, H1, <-app_assoc. set (d := payload p ++ _).
  assert (Z.of_nat (length d) = p_dataSize p + 3) as Hd.
  { unfold d. rewrite !length_app, !le_encode_length, payload_length by done. destruct Hp. lia. }
  destruct (aes_encrypt key iv d) as [[u [f|]]|] eqn:Ea.
  - pose proof (aes_encrypt_length _ _ _ _ _ Ea) as Hlen.
    pose proof (Nat.div_mod_eq (length d) 16) as Hdm. pose proof (Nat.mod_upper_bound (length d) 16 ltac:(lia)).
    destruct (write_cipher_spec p3 u f Hp3) as (p4&E4&Hp4&P4&H4); [unfold MAX_PACKET_SIZE; lia|].
    apply wp_bind. eapply wp_lift; [exact E4|]. cbv beta iota.
    pose proof (payload_length p4 Hp4) as Hl4. rewrite P4, length_app in Hl4. pose proof (proj2 Hp4) as Hs4.
    destruct (pushData_T_fits p4 iv Hp4) as (p5&E5&Hp5&P5&H5&S5); [unfold MAX_PACKET_SIZE; lia|].
    eapply wp_lift; [exact E5|]. split_and!; [done|done|]. intros _. rewrite H5, H4. split_and!; [lia|done|done| | |].
    + simpl. by rewrite H2, H1.
    + simpl. by rewrite H2, H1.
    + split; [done|]. exists iv, u, f. rewrite P5, P4. done.
  - pose proof (aes_update_length _ _ _ _ _ Ea) as Hlen.
    destruct (write_cipher_wf p3 (Some (u, None)) Hp3) as (p4&ok&E4&Hp4).
    { intros ?? [= <- <-]. unfold MAX_PACKET_SIZE. simpl. lia. }
    assert (ok = false) as -> by (unfold write_cipher in E4; destruct (write_data _ _ _); [by injection E4|done]).
    apply wp_bind. eapply wp_lift; [exact E4|]. apply wp_ret. split_and!; [done| |done].
    intros _. right. exists iv, d. split; [done|]. intros u' f'. by rewrite Ea.
  - apply wp_bind. eapply wp_lift; [done|]. apply wp_ret. split_and!; [done| |done].
    intros _. right. exists iv, d. split; [done|]. intros u' f'. by rewrite Ea.
Qed.

Lemma decrypt_AES_sealed key d i t p' :
  sealed key d i t p' → in_u 16 i → in_u 8 t →
  ∃ q, decrypt_AES key p' = Some (q, true) ∧ packet_wf q ∧ payload q = d ∧
    p_header q = mkHeader (h_version (p_header p')) (h_connection (p_header p')) t i.
Proof.
  intros (Hp'&iv&u&f&Hpay&Hiv&Ea) Hi Ht. unfold decrypt_AES.
  destruct (popData_app p' (u ++ f) iv Hp' Hpay) as (p1&E1&Hp1&P1&H1). rewrite Hiv in E1. rewrite E1.
  rewrite copy_out_eq, P1 by done. cbn [mbind option_bind].
  destruct (aes_decrypt_encrypt _ _ _ _ _ Ea) as (u'&f'&->&Ed).
  assert (length (u ++ f) ≤ 1500)%nat as Hl.
  { rewrite <-P1, payload_length by done. destruct Hp1. unfold MAX_PACKET_SIZE in *. lia. }
  pose proof (aes_encrypt_length _ _ _ _ _ Ea) as Hlen. rewrite length_app in Hl.
  pose proof (Nat.div_mod_eq (length (d ++ le_encode 2 i ++ le_encode 1 t)) 16).
  pose proof (Nat.mod_upper_bound (length (d ++ le_encode 2 i ++ le_encode 1 t)) 16 ltac:(lia)).
  destruct (write_cipher_spec p1 u' f' Hp1) as (p2&E2&Hp2&P2&H2).
  { rewrite <-length_app, Ed. unfold MAX_PACKET_SIZE. lia. }
  rewrite E2. cbn [mbind option_bind popPadding]. rewrite Ed, app_assoc in P2.
  destruct (popData_app p2 _ _ Hp2 P2) as (p3&E3&Hp3&P3&H3). rewrite le_encode_length in E3.
  change (Z.of_nat 1) with 1 in E3. rewrite E3. rewrite le_decode_encode by done.
  assert (packet_wf (set_type p3 t)) as Hp3' by done.
  destruct (popData_app (set_type p3 t) _ _ Hp3' P3) as (p4&E4&Hp4&P4&H4). rewrite le_encode_length in E4.
  change (Z.of_nat 2) with 2 in E4. rewrite E4. rewrite le_decode_encode by done.
  eexists. split_and!; [done|done|done|]. simpl. rewrite H4. simpl. by rewrite H3, H2, H1.
Qed.
End packets.
