(* ===== verification/Session.v ===== *)
(** * Encrypted sessions

    Two connections with encryption and a network that loses, repeats and reorders packets between
    them: the keys they learn are each other's, and what one sends the other can open. The
    signatures of challenges, and packets that are not encrypted, are not protected. *)

From S2P Require Import Prelude MemCopy Packet ReceiveQueue Types SendQueue State Invariant Connection NetworkPath Crypto.

Section session.
Context {ssl : OpenSSL} {ssl_laws : OpenSSLLaws}.
Implicit Types (p q : Packet) (a b c : ConnectionCrypto).

(** ** RSA *)

(** A private key and the public key that goes with it. *)
Definition key_pair (private_ public_ : option RSAKey_I) : Prop :=
  ∃ k x pk d, private_ = Some (mkRSAKey_I (Some k) x) ∧ public_ = Some (mkRSAKey_I (Some pk) d) ∧
    d2i_PublicKey d = Some pk ∧ (length d ≤ 162)%nat ∧
    ∀ m s e s', EVP_PKEY_encrypt pk m s = (Some e, s') → length e = 128%nat ∧ EVP_PKEY_decrypt k e = Some m.

(** What the construction of a pair yields when it succeeds. *)
Lemma construct_pair_ok r private_ public_ r' :
  construct_pair r = Some ((private_, public_, true), r') → key_pair private_ public_.
Proof.
  unfold construct_pair. destruct (EVP_PKEY_keygen DefaultRSAKeySize r) as [[k|] r1] eqn:Ek; [|done].
  destruct (i2d_PublicKey k) as [d|] eqn:Ed; [|done]. unfold construct_public. intros E. injection E as <- <- Hok _.
  apply bool_decide_eq_true in Hok as [pk Hpk]. destruct (rsa_pair _ _ _ _ _ Ek Ed Hpk) as [Hl Hdec].
  exists k, [], pk, d. by rewrite Hpk.
Qed.

Definition RSA_overhead : Z := AES_overhead + 130.

(** [p'] is a packet the owner of the private key can open as [p]. *)
Definition rsa_opens (private_ : option RSAKey_I) p p' : Prop :=
  ∃ q, decrypt_RSA private_ p' = Some (q, true) ∧ packet_wf q ∧ payload q = payload p ∧ p_header q = p_header p.

Lemma encrypt_RSA_wp private_ public_ p r :
  key_pair private_ public_ → packet_wf p → header_wf (p_header p) → p_dataSize p + 200 ≤ MAX_PACKET_SIZE →
  wp (encrypt_RSA public_ p MAX_PACKET_POST_CRYPTO_SIZE) (λ '(p', ok) _, packet_wf p' ∧ (ok = false → encryption_fails public_) ∧ (ok = true →
    p_dataSize p' ≤ p_dataSize p + RSA_overhead ∧ h_type (p_header p') = ENCRYPTED_VIA_PUBLIC_KEY ∧
    rsa_opens private_ p p')) r.
Proof.
  unfold RSA_overhead, AES_overhead, MAX_PACKET_SIZE. intros (k&x&pk&d&->&->&_&_&Hdec) Hp Hh Hs.
  unfold encrypt_RSA. apply wp_bind. unfold wp at 1, generate.
  destruct (RAND_bytes AESKey_ByteSize r) as [[aes|] r1] eqn:Ea; [|apply wp_ret; split_and!; [done| |done]; left; by eexists _, _].
  apply RAND_bytes_length in Ea; [|done]. apply wp_bind. unfold wp at 1, rsa_encrypt_key. cbn [pkey].
  destruct (EVP_PKEY_encrypt pk aes r1) as [[e|] r2] eqn:Ee;
    [|apply wp_ret; split_and!; [done| |done]; right; left; by eexists _, pk, aes, _, _]. destruct (Hdec _ _ _ _ Ee) as [He Hde].
  apply wp_bind. eapply wp_mono.
  { apply encrypt_AES_wp; [done|unfold AES_overhead, MAX_PACKET_SIZE; lia|].
    unfold pushSize_Vector, MAX_PACKET_POST_CRYPTO_SIZE, MAX_PACKET_SIZE, MAX_ROUTE_SIZE. rewrite He. destruct Hp.
    change (size_t (size_t (1500 - 0 - (Z.of_nat 128 + 2)) - 2)) with 1368. rewrite wrap_small; unfold in_u; lia. }
  intros [p1 ok1] r3 (Hp1&Hno1&Hok1). destruct ok1; cycle 1.
  { apply wp_ret. split_and!; [done| |done]. intros _. destruct (Hno1 eq_refl) as [?|?]; [by left|right; right]. by exists aes. }
  destruct (Hok1 eq_refl) as (Hs1&Ht1&_&Hc1&Hv1&Hseal). unfold AES_overhead in Hs1. apply wp_bind. unfold pushSizedData.
  destruct (pushData_fits p1 e Hp1) as (p2&E2&Hp2&P2&H2&S2); [unfold MAX_PACKET_SIZE; lia|].
  destruct (pushData_T_fits p2 (le_encode 2 (u16 (Z.of_nat (length e)))) Hp2) as (p3&E3&Hp3&P3&H3&S3);
    [rewrite le_encode_length; unfold MAX_PACKET_SIZE; lia|].
  rewrite le_encode_length in S3. rewrite E2. cbn [mbind option_bind]. eapply wp_lift; [exact E3|]. cbv beta iota.
  apply wp_ret. split_and!; [done|done|]. intros _. split_and!; [simpl; lia|done|].
  rewrite P2, wrap_small, <-app_assoc in P3 by (unfold in_u; lia).
  set (p4 := set_type p3 ENCRYPTED_VIA_PUBLIC_KEY). assert (packet_wf p4) as Hp4 by done.
  destruct (popSizedData_app p4 _ _ Hp4 P3) as (p5&E5&Hp5&P5&H5). unfold rsa_opens, decrypt_RSA. rewrite E5.
  unfold rsa_decrypt_key. cbn [mbind option_bind pkey]. rewrite Hde. cbn [mbind option_bind].
  rewrite (proj2 (Z.eqb_eq _ _)) by done. destruct Hh as [Hty Hid].
  destruct (decrypt_AES_sealed aes (payload p) (h_id (p_header p)) (h_type (p_header p)) (set_type p5 ENCRYPTED_VIA_AES))
    as (q&E&Hq&Pq&Hhq); [|done|done|].
  { destruct Hseal as (_&iv&u&f&Hpay&Hiv&Henc). split; [done|]. exists iv, u, f. rewrite <-Hpay, <-P5. done. }
  exists q. split_and!; [done|done|done|]. rewrite Hhq. simpl. rewrite H5. simpl. rewrite H3, H2, Hv1, Hc1.
  by destruct (p_header p).
Qed.
(** ** Connections *)

(** A connection whose host has a working key pair. *)
Definition cc_ok c : Prop :=
  key_pair (privateKey (host c)) (publicKey (host c)) ∧ Z.of_nat (length (localSessionKey c)) = AESKey_ByteSize.

(** The keys [a] has learnt are those of [b]. *)
Definition knows a b : Prop :=
  (∀ k, remoteSessionKey a = Some k → k = localSessionKey b) ∧
  (∀ k, remotePublicKey a = Some k → k = publicKey (host b)).

(** What the receiver of a packet of [a] learns. *)
Definition learned a p b : ConnectionCrypto :=
  let type := h_type (p_header p) in
  if (type =? H0) || (type =? H1) then learn_public (publicKey (host a)) b
  else if (type =? H2) || (type =? H3) then learn_session (localSessionKey a) b
  else b.

(** The packets of the library: handshake packets are short, others leave room for encryption,
    and data is sent in a session only. *)
Definition sendable a p : Prop :=
  packet_wf p ∧ header_wf (p_header p) ∧
  h_type (p_header p) ≠ ENCRYPTED_VIA_AES ∧ h_type (p_header p) ≠ ENCRYPTED_VIA_PUBLIC_KEY ∧
  p_dataSize p ≤ if bool_decide (is_Some (remoteSessionKey a)) && negb (isHandshake (h_type (p_header p)))
                 then MAX_PACKET_POST_FRAME_SIZE else 1000.

Definition delivers_as q p : Prop := p_header q = p_header p ∧ payload q = payload p.

(** The packet with its key, and the receiver's view of it. *)
Lemma attach_learn a b p :
  cc_ok a → sendable a p →
  ∃ p1, cc_attach a p = Some (p1, true) ∧ packet_wf p1 ∧ p_header p1 = p_header p ∧
    p_dataSize p ≤ p_dataSize p1 ≤ Z.max (p_dataSize p) 1200 ∧
    ∀ q, packet_wf q → delivers_as q p1 →
      ∃ q', cc_learn b q = (learned a p b, q', Keep) ∧ packet_wf q' ∧ delivers_as q' p.
Proof.
  intros [(k&x&pk&d&_&Hpub&Hd2i&Hld&_) Hk] (Hp&_&_&_&Hs). unfold cc_attach, cc_learn, learned, delivers_as.
  set (t := h_type (p_header p)) in *. pose proof (proj2 Hp) as Hs'. unfold MAX_PACKET_SIZE in Hs'.
  destruct (decide (t = H0 ∨ t = H1)) as [H01|H01].
  - assert ((t =? H0) || (t =? H1) = true) as E01 by (destruct H01 as [-> | ->]; done). rewrite E01, Hpub.
    assert (p_dataSize p ≤ 1000) as Hle by (unfold isHandshake in Hs; destruct H01 as [E|E]; rewrite E, andb_false_r in Hs; exact Hs).
    unfold push_RSAPublicKey, pushSizedData. cbn [mbind option_bind key_bytes].
    destruct (pushData_fits p d Hp) as (p2&E2&Hp2&P2&H2'&S2); [unfold MAX_PACKET_SIZE; lia|].
    destruct (pushData_T_fits p2 (le_encode 2 (u16 (Z.of_nat (length d)))) Hp2) as (p3&E3&Hp3&P3&H3'&S3);
      [rewrite le_encode_length; unfold MAX_PACKET_SIZE; lia|].
    rewrite le_encode_length in S3. rewrite E2. cbn [mbind option_bind]. rewrite E3.
    exists p3. split_and!; [done|done|congruence|lia|lia|]. intros q Hq [Hqh Hqp].
    rewrite Hqh, H3', H2'. fold t. rewrite E01. rewrite P3, P2, wrap_small, <-app_assoc in Hqp by (unfold in_u; lia).
    destruct (popSizedData_app q _ _ Hq Hqp) as (q'&Eq&Hq'&Pq'&Hqh'). unfold pop_RSAPublicKey. rewrite Eq.
    unfold construct_public. rewrite Hd2i, bool_decide_true by (by eexists). exists q'. split_and!; [done|done| |done]. congruence.
  - assert ((t =? H0) || (t =? H1) = false) as E01.
    { apply orb_false_iff. split; apply Z.eqb_neq; naive_solver. }
    rewrite E01. destruct (decide (t = H2 ∨ t = H3)) as [H23|H23].
    + assert ((t =? H2) || (t =? H3) = true) as E23 by (destruct H23 as [-> | ->]; done). rewrite E23.
      assert (p_dataSize p ≤ 1000) as Hle by (unfold isHandshake in Hs; destruct H23 as [E|E]; rewrite E, andb_false_r in Hs; exact Hs).
      change AESKey_ByteSize with 32 in *.
      destruct (pushData_T_fits p (localSessionKey a) Hp) as (p2&E2&Hp2&P2&H2'&S2); [unfold MAX_PACKET_SIZE; lia|].
      exists p2. rewrite Hk in S2. split_and!; [done|done|done|lia|lia|]. intros q Hq [Hqh Hqp].
      rewrite Hqh, H2'. fold t. rewrite E01, E23, P2 in *.
      destruct (popData_app q _ _ Hq Hqp) as (q'&Eq&Hq'&Pq'&Hqh'). rewrite Hk in Eq. rewrite Eq.
      exists q'. split_and!; [done|done| |done]. congruence.
    + assert ((t =? H2) || (t =? H3) = false) as E23.
      { apply orb_false_iff. split; apply Z.eqb_neq; naive_solver. }
      rewrite E23. exists p. split_and!; [done|done|done|lia|lia|]. intros q Hq [Hqh Hqp].
      rewrite Hqh. fold t. rewrite E01, E23. by exists q.
Qed.

(** A packet on its way that [b], whatever it has learnt, opens as a packet of [a]. *)
Definition in_flight a b p p' : Prop :=
  p_dataSize p' ≤ MAX_PACKET_POST_CRYPTO_SIZE ∧
  ∀ b', host b' = host b → localSessionKey b' = localSessionKey b →
    ∃ q, cc_onReceive b' p' = Some (learned a p b', q, Keep) ∧ packet_wf q ∧ delivers_as q p.

(** Sending: the packet goes out readable for the other side, or not at all because OpenSSL failed. *)
Lemma onSend_wp a b p r :
  cc_ok a → cc_ok b → knows a b → sendable a p →
  wp (cc_onSend a p) (λ '(p', d) _, (d = Discard → encryption_fails (publicKey (host b))) ∧ (d = Keep → in_flight a b p p')) r.
Proof.
  intros Ha Hb [Hks Hkp] Hsend. pose proof Hsend as (Hp&Hh&HtA&HtP&Hs).
  assert (∀ c, ∃ p1, cc_attach a p = Some (p1, true) ∧ packet_wf p1 ∧ p_header p1 = p_header p ∧
    p_dataSize p ≤ p_dataSize p1 ≤ Z.max (p_dataSize p) 1200 ∧ ∀ q, packet_wf q → delivers_as q p1 →
      ∃ q', cc_learn c q = (learned a p c, q', Keep) ∧ packet_wf q' ∧ delivers_as q' p) as Hal
    by (intros c; by apply attach_learn).
  destruct (Hal b) as (p1&E1&Hp1&Hh1&Hs1&_).
  assert (∀ c q, packet_wf q → delivers_as q p1 → ∃ q', cc_learn c q = (learned a p c, q', Keep) ∧ packet_wf q' ∧ delivers_as q' p) as Hl.
  { intros c. destruct (Hal c) as (p1'&E1'&_&_&_&Hlearn). by assert (p1' = p1) as -> by congruence. }
  unfold cc_onSend. apply wp_bind. eapply wp_lift; [exact E1|]. cbv beta iota. apply wp_bind. unfold cc_encrypt.
  assert (p_dataSize p1 ≤ 1436) as Hs1'.
  { unfold MAX_PACKET_POST_FRAME_SIZE, MAX_PACKET_POST_CRYPTO_SIZE, MAX_PACKET_SIZE, MAX_ROUTE_SIZE, MAX_CRYPTO_SIZE in Hs.
    destruct (_ && _) in Hs; lia. }
  pose proof (proj2 Hp1) as Hs1''. unfold MAX_PACKET_SIZE in Hs1''.
  destruct (remoteSessionKey a) as [k|] eqn:Ek.
  - eapply wp_mono; [apply encrypt_AES_wp; [done|unfold AES_overhead, MAX_PACKET_SIZE; lia|]|].
    { change (size_t (MAX_PACKET_POST_CRYPTO_SIZE - 2)) with 1498. rewrite wrap_small; unfold in_u; lia. }
    intros [p2 []] r1 (Hp2&Hno&Hok); cycle 1.
    { apply wp_ret. split; [|done]. intros _. destruct (Hno eq_refl) as [?|?]; [by left|right; right]. exists k. split; [|done].
      rewrite (Hks k eq_refl). apply Hb. }
    destruct (Hok eq_refl) as (Hs2&Ht2&_&Hc2&Hv2&Hseal). apply wp_ret. split; [done|]. intros _.
    split; [apply Hp2|]. intros b' Hb' Hk'. unfold cc_onReceive, cc_decrypt. rewrite Ht2. cbn [Z.eqb].
    change (ENCRYPTED_VIA_AES =? ENCRYPTED_VIA_PUBLIC_KEY) with false. rewrite Z.eqb_refl. cbv iota.
    rewrite Hh1 in *. destruct Hh as [Hty Hid]. rewrite Hk', <-(Hks k eq_refl).
    destruct (decrypt_AES_sealed k _ _ _ p2 Hseal Hid Hty) as (q&Eq&Hq&Pq&Hhq). rewrite Eq. cbn [mbind option_bind].
    destruct (Hl b' q Hq) as (q'&El&?&?).
    { split; [|done]. rewrite Hhq, Hv2, Hc2, Hh1. by destruct (p_header p). }
    exists q'. by rewrite El.
  - rewrite andb_false_l in Hs. simpl in Hs. destruct (remotePublicKey a) as [k|] eqn:Epk.
    + rewrite (Hkp k eq_refl). eapply wp_mono; [apply (encrypt_RSA_wp (privateKey (host b)));
        [apply Hb|done|by rewrite Hh1|unfold MAX_PACKET_SIZE; lia]|].
      intros [p2 []] r1 (Hp2&Hno&Hok); [|apply wp_ret; split; [by intros _; apply Hno|done]].
      destruct (Hok eq_refl) as (Hs2&Ht2&q&Eq&Hq&Pq&Hhq). apply wp_ret. split; [done|]. intros _.
      split; [apply Hp2|]. intros b' Hb' Hk'. unfold cc_onReceive, cc_decrypt. rewrite Ht2, Z.eqb_refl, Hb', Eq.
      cbn [mbind option_bind]. destruct (Hl b' q Hq) as (q'&El&?&?); [done|]. exists q'. by rewrite El.
    + apply wp_ret, wp_ret. split; [done|]. intros _. split; [apply Hp1|]. intros b' _ _. unfold cc_onReceive, cc_decrypt.
      rewrite Hh1, !(proj2 (Z.eqb_neq _ _)) by done. cbn [mbind option_bind].
      destruct (Hl b' p1 Hp1) as (q'&El&?&?); [done|]. exists q'. by rewrite El.
Qed.
(** ** Two connections and a network *)

(** Both sides, the packets ever sent to each (as they were meant and as they went out) and the
    random numbers. The network delivers any of them, any number of times, in any order. *)
Record Session := mkSession {
  alice : ConnectionCrypto;
  bob : ConnectionCrypto;
  to_alice : list (Packet * Packet);
  to_bob : list (Packet * Packet);
  rng : Rng;
}.

Inductive session_step : Session → Session → Prop :=
  | alice_sends a b ta tb r p p' d r' :
      sendable a p → cc_onSend a p r = Some ((p', d), r') →
      session_step (mkSession a b ta tb r) (mkSession a b ta (if decide (d = Keep) then tb ++ [(p, p')] else tb) r')
  | bob_sends a b ta tb r p p' d r' :
      sendable b p → cc_onSend b p r = Some ((p', d), r') →
      session_step (mkSession a b ta tb r) (mkSession a b (if decide (d = Keep) then ta ++ [(p, p')] else ta) tb r')
  | bob_receives a b ta tb r p p' b' q d :
      (p, p') ∈ tb → cc_onReceive b p' = Some (b', q, d) →
      session_step (mkSession a b ta tb r) (mkSession a b' ta tb r)
  | alice_receives a b ta tb r p p' a' q d :
      (p, p') ∈ ta → cc_onReceive a p' = Some (a', q, d) →
      session_step (mkSession a b ta tb r) (mkSession a' b ta tb r).

(** Connections of hosts with key pairs, nothing learnt and nothing sent. *)
Definition session_start (s : Session) : Prop :=
  cc_ok (alice s) ∧ cc_ok (bob s) ∧ to_alice s = [] ∧ to_bob s = [] ∧
  remotePublicKey (alice s) = None ∧ remoteSessionKey (alice s) = None ∧
  remotePublicKey (bob s) = None ∧ remoteSessionKey (bob s) = None.

Record session_inv (s : Session) : Prop := {
  si_alice : cc_ok (alice s);
  si_bob : cc_ok (bob s);
  si_knows_bob : knows (alice s) (bob s);
  si_knows_alice : knows (bob s) (alice s);
  si_to_bob : ∀ p p', (p, p') ∈ to_bob s → in_flight (alice s) (bob s) p p';
  si_to_alice : ∀ p p', (p, p') ∈ to_alice s → in_flight (bob s) (alice s) p p';
}.

(** Learning changes neither the host nor the own key. *)
Definition same_self c c' : Prop := host c' = host c ∧ localSessionKey c' = localSessionKey c.

Lemma learned_self a p b : same_self b (learned a p b).
Proof. unfold learned, same_self. by repeat case_match. Qed.

Lemma learned_knows a p b : knows b a → knows (learned a p b) a.
Proof.
  intros [Hs Hp]. unfold learned. repeat case_match; split; simpl; try done.
  - intros k [= <-]. destruct (remotePublicKey b) as [k|]; [by apply Hp|done].
  - intros k [= <-]. destruct (remoteSessionKey b) as [k|]; [by apply Hs|done].
Qed.

Lemma self_knows a b b' : same_self b b' → knows a b → knows a b'.
Proof. intros [Hh Hl] [Hs Hp]. unfold knows. by rewrite Hh, Hl. Qed.

Lemma self_ok c c' : same_self c c' → cc_ok c → cc_ok c'.
Proof. intros [Hh Hl]. unfold cc_ok. by rewrite Hh, Hl. Qed.

Lemma self_learned a a' p b : same_self a a' → learned a' p b = learned a p b.
Proof. intros [Hh Hl]. unfold learned. by rewrite Hh, Hl. Qed.

Lemma self_in_flight a a' b b' p p' : same_self a a' → same_self b b' → in_flight a b p p' → in_flight a' b' p p'.
Proof.
  intros Ha [Hh Hl] [Hs Hf]. split; [done|]. intros c. rewrite Hh, Hl, (self_learned a a') by done. apply Hf.
Qed.

(** The two steps of one side, for the invariant seen from the receiver. *)
Lemma send_keeps a b tb p p' d r r' :
  cc_ok a → cc_ok b → knows a b → sendable a p → cc_onSend a p r = Some ((p', d), r') →
  (∀ x x', (x, x') ∈ tb → in_flight a b x x') →
  ∀ x x', (x, x') ∈ (if decide (d = Keep) then tb ++ [(p, p')] else tb) → in_flight a b x x'.
Proof.
  intros Ha Hb Hk Hp E Htb x x' Hx. pose proof (onSend_wp a b p r Ha Hb Hk Hp) as Hwp. unfold wp in Hwp. rewrite E in Hwp.
  destruct Hwp as [_ Hwp]. case_decide; [|by apply Htb]. apply elem_of_app in Hx as [Hx|[= -> ->]%list_elem_of_singleton]; [by apply Htb|by apply Hwp].
Qed.

Lemma session_step_inv s s' : session_inv s → session_step s s' → session_inv s'.
Proof.
  intros [Ha Hb Hkb Hka Htb Hta] Hs.
  destruct Hs as [a b ta tb r p p' d r' Hp E|a b ta tb r p p' d r' Hp E|a b ta tb r p p' b' q d Hin E|a b ta tb r p p' a' q d Hin E];
    simpl in *.
  - split; simpl; try done. by eapply send_keeps.
  - split; simpl; try done. by eapply send_keeps.
  - destruct (Htb p p' Hin) as [_ Hf]. destruct (Hf b eq_refl eq_refl) as (q'&E'&_). rewrite E' in E. injection E as <- _ _.
    pose proof (learned_self a p b) as Hself. split; simpl; try done.
    + by eapply self_ok.
    + by eapply self_knows.
    + by apply learned_knows.
    + intros x x' Hx. eapply self_in_flight; [done|done|by apply Htb].
    + intros x x' Hx. eapply self_in_flight; [done|done|by apply Hta].
  - destruct (Hta p p' Hin) as [_ Hf]. destruct (Hf a eq_refl eq_refl) as (q'&E'&_). rewrite E' in E. injection E as <- _ _.
    pose proof (learned_self b p a) as Hself. split; simpl; try done.
    + by eapply self_ok.
    + by apply learned_knows.
    + by eapply self_knows.
    + intros x x' Hx. eapply self_in_flight; [done|done|by apply Htb].
    + intros x x' Hx. eapply self_in_flight; [done|done|by apply Hta].
Qed.

Lemma session_start_inv s : session_start s → session_inv s.
Proof.
  destruct s as [a b ta tb r]. intros (Ha&Hb&E5&E6&E1&E2&E3&E4). simpl in *. subst ta tb. split; simpl; try done.
  - split; intros k; congruence.
  - split; intros k; congruence.
  - intros p p' H. by apply elem_of_nil in H.
  - intros p p' H. by apply elem_of_nil in H.
Qed.

Lemma session_reachable s s' : session_start s → rtc session_step s s' → session_inv s'.
Proof.
  intros Hs%session_start_inv Hr. induction Hr as [|s1 s2 s3 Hstep _ IH]; [done|]. by apply IH, (session_step_inv s1).
Qed.

(** ** The handshake packets *)

(** Send a packet and deliver it; [None] when the sender discards it. *)
Definition exchange (from to : ConnectionCrypto) (type : Z) : M Rng (option ConnectionCrypto) :=
  '(p, d) ← cc_onSend from (set_type new_Packet type);
  if decide (d = Keep) then
    '(to', _, _) ← lift (cc_onReceive to p);
    mret (Some to')
  else mret None.

Lemma handshake_sendable a t : t ∈ [H0; H1; H2; H3] → sendable a (set_type new_Packet t).
Proof.
  intros Ht. split; [apply set_header_wf, new_Packet_wf|]. unfold set_type, set_header. simpl. split_and!.
  - split; simpl; [|done]. repeat (apply elem_of_cons in Ht as [->|Ht]; [done|]). by apply elem_of_nil in Ht.
  - repeat (apply elem_of_cons in Ht as [->|Ht]; [done|]). by apply elem_of_nil in Ht.
  - repeat (apply elem_of_cons in Ht as [->|Ht]; [done|]). by apply elem_of_nil in Ht.
  - unfold MAX_PACKET_POST_FRAME_SIZE, MAX_PACKET_POST_CRYPTO_SIZE, MAX_PACKET_SIZE, MAX_ROUTE_SIZE, MAX_CRYPTO_SIZE.
    destruct (_ && _); lia.
Qed.

Lemma exchange_wp a b t Q r :
  cc_ok a → cc_ok b → knows a b → t ∈ [H0; H1; H2; H3] →
  (∀ r', encryption_fails (publicKey (host b)) → Q None r') → (∀ r', Q (Some (learned a (set_type new_Packet t) b)) r') →
  wp (exchange a b t) Q r.
Proof.
  intros Ha Hb Hk Ht HN HS. unfold exchange. apply wp_bind.
  eapply wp_mono; [by apply (onSend_wp a b); [..|apply handshake_sendable]|]. intros [p' d] r' [Hno Hd]. case_decide as Hkeep.
  - destruct (Hd Hkeep) as [_ Hf]. destruct (Hf b eq_refl eq_refl) as (q&E&_). apply wp_bind.
    eapply wp_lift; [exact E|]. apply wp_ret, HS.
  - apply wp_ret, HN, Hno. by destruct d.
Qed.
End session.

(** The exchange of the keys, packet by packet; [None] when a packet is discarded by its sender. *)
Definition handshake {ssl : OpenSSL} (a b : ConnectionCrypto) : M Rng (option (ConnectionCrypto * ConnectionCrypto)) :=
  b ← exchange a b H0;
  match b with
  | None => mret None
  | Some b =>
    a ← exchange b a H1;
    match a with
    | None => mret None
    | Some a =>
      b ← exchange a b H2;
      match b with
      | None => mret None
      | Some b =>
        a ← exchange b a H3;
        match a with None => mret None | Some a => mret (Some (a, b)) end
      end
    end
  end.

(** ** Claims *)

(** C21: sessions agree on their keys. Two connections of hosts with key pairs send packets in any
    order over a network that loses, repeats and reorders them. Then a session key one side holds
    is the other side's own; every packet that went out, in the clear, under the public key or
    under the session key, is still kept by its receiver and restored, header and data; and sending
    a packet is defined at any time. *)
Theorem session_agreement {ssl : OpenSSL} {ssl_laws : OpenSSLLaws} (s0 s : Session) :
  session_start s0 → rtc session_step s0 s →
  (∀ k, remoteSessionKey (alice s) = Some k → k = localSessionKey (bob s)) ∧
  (∀ k, remoteSessionKey (bob s) = Some k → k = localSessionKey (alice s)) ∧
  (∀ p p', (p, p') ∈ to_bob s → ∃ b q, cc_onReceive (bob s) p' = Some (b, q, Keep) ∧ delivers_as q p) ∧
  (∀ p p', (p, p') ∈ to_alice s → ∃ a q, cc_onReceive (alice s) p' = Some (a, q, Keep) ∧ delivers_as q p) ∧
  (∀ p r, sendable (alice s) p → is_Some (cc_onSend (alice s) p r)) ∧
  (∀ p r, sendable (bob s) p → is_Some (cc_onSend (bob s) p r)).
Proof.
  intros H0 Hr. destruct (session_reachable s0 s H0 Hr) as [Ha Hb Hkb Hka Htb Hta]. split_and!; [apply Hkb|apply Hka|..].
  - intros p p' Hin. destruct (Htb p p' Hin) as [_ Hf]. destruct (Hf (bob s) eq_refl eq_refl) as (q&?&_&?). eauto.
  - intros p p' Hin. destruct (Hta p p' Hin) as [_ Hf]. destruct (Hf (alice s) eq_refl eq_refl) as (q&?&_&?). eauto.
  - intros p r Hp. pose proof (onSend_wp (alice s) (bob s) p r Ha Hb Hkb Hp) as Hwp.
    apply wp_some in Hwp as (?&?&E&_). by eexists.
  - intros p r Hp. pose proof (onSend_wp (bob s) (alice s) p r Hb Ha Hka Hp) as Hwp.
    apply wp_some in Hwp as (?&?&E&_). by eexists.
Qed.

(** C22: the exchange of keys gets through. Two connections of hosts with key pairs, which know
    nothing of each other, send the four handshake packets in turn. Unless a call of OpenSSL fails
    (for random bytes, to encrypt a session key under one of the two public keys, or to encrypt
    under an AES key), no sender discards its packet, both connections come out with the session key
    of the other, and both can send. *)
Theorem handshake_establishes_session {ssl : OpenSSL} {ssl_laws : OpenSSLLaws} (a b : ConnectionCrypto) (r : Rng) :
  cc_ok a → cc_ok b → remotePublicKey a = None → remoteSessionKey a = None →
  remotePublicKey b = None → remoteSessionKey b = None →
  ∃ res r', handshake a b r = Some (res, r') ∧
    match res with
    | None => encryption_fails (publicKey (host a)) ∨ encryption_fails (publicKey (host b))
    | Some (a', b') => remoteSessionKey a' = Some (localSessionKey b) ∧ remoteSessionKey b' = Some (localSessionKey a) ∧
        cc_canSend a' = true ∧ cc_canSend b' = true
    end.
Proof.
  intros Ha Hb E1 E2 E3 E4. apply wp_some. unfold handshake.
  assert (knows a b) as Hab by (split; intros k; congruence). assert (knows b a) as Hba by (split; intros k; congruence).
  apply wp_bind, exchange_wp; [done|done|done|set_solver|intros; apply wp_ret; by auto|]. intros r1. set (b1 := learned a _ b).
  assert (cc_ok b1) as Hb1 by (by eapply self_ok; [apply learned_self|]). assert (knows b1 a) as Hb1a by (by apply learned_knows).
  assert (knows a b1) as Hab1 by (by eapply self_knows; [apply learned_self|]).
  apply wp_bind, exchange_wp; [done|done|done|set_solver|intros; apply wp_ret; by auto|]. intros r2. set (a2 := learned b1 _ a).
  assert (cc_ok a2) as Ha2 by (by eapply self_ok; [apply learned_self|]). assert (knows a2 b1) as Ha2b by (by apply learned_knows).
  assert (knows b1 a2) as Hb1a2 by (by eapply self_knows; [apply learned_self|]).
  apply wp_bind, exchange_wp; [done|done|done|set_solver|intros; apply wp_ret; by auto|]. intros r3. set (b3 := learned a2 _ b1).
  assert (cc_ok b3) as Hb3 by (by eapply self_ok; [apply learned_self|]). assert (knows b3 a2) as Hb3a by (by apply learned_knows).
  apply wp_bind, exchange_wp; [done|done|done|set_solver|intros; apply wp_ret; by auto|]. intros r4. apply wp_ret.
  unfold b3, a2, b1, learned, cc_canSend. simpl. rewrite E2, E4. done.
Qed.

(** C23: encrypting a packet and back. Encrypting a packet of at most [MAX_PACKET_POST_FRAME_SIZE]
    bytes never leaves its buffer and is refused only when OpenSSL fails to give the random vector
    or to encrypt; otherwise the packet grows by at most [MAX_CRYPTO_SIZE], shows neither its type
    nor its id (the type says that it is encrypted, the id is 0), and decryption with the same key
    gives a packet that equals the original. *)
Theorem aes_packet_roundtrip {ssl : OpenSSL} {ssl_laws : OpenSSLLaws} (key : bytes) (p : Packet) (r : Rng) :
  packet_wf p → header_wf (p_header p) → p_dataSize p ≤ MAX_PACKET_POST_FRAME_SIZE →
  ∃ p' ok r', encrypt_AES key p MAX_PACKET_POST_CRYPTO_SIZE r = Some ((p', ok), r') ∧ packet_wf p' ∧
    (ok = false → RAND_fails ∨ AES_fails key) ∧
    (ok = true → p_dataSize p' ≤ p_dataSize p + MAX_CRYPTO_SIZE ∧
      h_type (p_header p') = ENCRYPTED_VIA_AES ∧ h_id (p_header p') = 0 ∧
      ∃ q, decrypt_AES key p' = Some (q, true) ∧ packet_eqb q p = true).
Proof.
  unfold MAX_PACKET_POST_FRAME_SIZE, MAX_PACKET_POST_CRYPTO_SIZE, MAX_PACKET_SIZE, MAX_ROUTE_SIZE, MAX_CRYPTO_SIZE.
  intros Hp [Hty Hid] Hs. pose proof (proj2 Hp) as Hs'.
  pose proof (encrypt_AES_wp key p (1500 - 0) r Hp) as Hwp. unfold AES_overhead, MAX_PACKET_SIZE in Hwp.
  destruct (proj1 (wp_some _ _ _) (Hwp ltac:(lia)
    ltac:(change (size_t (1500 - 0 - 2)) with 1498; rewrite wrap_small; unfold in_u; lia))) as ([p' ok]&r'&E&Hp'&Hno&Hok).
  exists p', ok, r'. split_and!; [done|done|done|]. intros Ht. destruct (Hok Ht) as (Hs1&Ht1&Hi1&Hc1&Hv1&Hseal).
  split_and!; [lia|done|done|]. destruct (decrypt_AES_sealed key _ _ _ p' Hseal Hid Hty) as (q&Eq&Hq&Pq&Hhq).
  exists q. split; [done|]. unfold packet_eqb. pose proof (payload_length q Hq) as Hlq. pose proof (payload_length p Hp) as Hlp.
  rewrite Pq in Hlq. destruct Hq as [_ Hsq].
  rewrite (proj2 (Z.eqb_eq _ _)) by lia. rewrite Hhq, Pq, Hv1, Hc1. apply bool_decide_eq_true. by destruct (p_header p).
Qed.

(** What encryption does not protect. A packet that is not encrypted passes an encrypted
    connection as it is; and the signature of a challenge does not depend on the signer's key: a
    response made up by anybody, naming its own address and the present time and carrying the hash
    of both, passes decryption and is verified, so that the connection moves to that address. *)
Lemma forged_response_accepted {ssl : OpenSSL} {ssl_laws : OpenSSLLaws} (signer : bytes) (cc : ConnectionCrypto)
    (c : Connection) (p : Packet) (from signature : bytes) :
  let basis := le_encode 8 (seconds (clock c)) ++ from in
  packet_wf p → h_type (p_header p) = AUTHENTICATE_RESPONSE → Z.of_nat (length from) = sizeof_Address →
  from ≠ Address_empty → sha256 basis = Some signature →
  payload p = basis ++ le_encode 2 36 ++ signature ++ le_encode 2 (Z.of_nat (length signature)) →
  cc_onReceive cc p = Some (cc, p, Keep) ∧
  ∃ q, verifyChallengeResponse_signed signer c p from = Some (q, true).
Proof.
  intros basis Hp Ht Hf Hne Hsha Hpay. split.
  - assert (cc_decrypt cc p = Some (p, true)) as E by (unfold cc_decrypt; by rewrite Ht).
    unfold cc_onReceive. rewrite E. cbn [mbind option_bind]. unfold cc_learn. by rewrite Ht.
  - destruct (verify_basis c p from (seconds (clock c)) (Some from) signature Hp) as (p1&p2&E1&E2&E); [|done|done|].
    { by apply wrap_range. }
    exists p2. unfold verifyChallengeResponse_signed. rewrite E, E1, E2. rewrite Z.sub_diag. change (wrap 64 0 <=? 60) with true.
    assert (asked c (Some from) = from) as ->.
    { unfold asked. destruct (Address_eqb from Address_empty) eqn:Ee; [|done]. exfalso. apply Hne.
      unfold Address_eqb in Ee. apply Z.eqb_eq in Ee. apply memcmp_0; [|done]. unfold sizeof_Address in Hf.
      change (length Address_empty) with 28%nat. lia. }
    rewrite Address_eqb_refl. cbn [andb]. unfold verify_. change (sha256 _) with (sha256 basis). rewrite Hsha.
    pose proof (sha256_length _ _ Hsha) as Hl. rewrite (proj2 (Z.ltb_ge _ _)) by lia. cbn [mbind option_bind].
    by rewrite Z.eqb_refl, bool_decide_true.
Qed.

(** ** A stand-in for OpenSSL *)

(** Random bytes that count; a cipher that only pads; keys that are all alike; a hash that cuts. *)
Definition pad_length (d : bytes) : nat := 16 - length d mod 16.
#[global] Arguments pad_length : simpl never.

Lemma pad_length_range d : (1 ≤ pad_length d ≤ 16)%nat ∧ (length d + pad_length d = (length d `div` 16 + 1) * 16)%nat.
Proof.
  unfold pad_length. pose proof (Nat.div_mod_eq (length d) 16).
  pose proof (Nat.mod_upper_bound (length d) 16 ltac:(lia)). lia.
Qed.

#[local] Instance OpenSSL_example : OpenSSL := {|
  Rng := nat;
  PKEY := unit;
  RAND_bytes n r := (Some (le_encode (Z.to_nat n) (Z.of_nat r)), S r);
  EVP_PKEY_keygen _ r := (Some tt, r);
  i2d_PublicKey _ := Some (replicate 140 Byte.x30);
  d2i_PublicKey _ := Some tt;
  EVP_PKEY_encrypt _ m r := (if decide (length m = 32%nat) then Some (m ++ replicate 96 Byte.x00) else None, r);
  EVP_PKEY_decrypt _ e := Some (take 32 e);
  aes_encrypt _ _ d := Some (d, Some (replicate (pad_length d) (byte.of_Z (Z.of_nat (pad_length d)))));
  aes_decrypt _ _ d := (λ x, (take (length d - Z.to_nat (byte.unsigned x)) d, Some [])) <$> last d;
  sha256 d := Some (le_encode 32 (le_decode d));
|}.

#[local] Program Instance OpenSSLLaws_example : OpenSSLLaws.
Next Obligation. intros n r d r' Hn [= <- _]. rewrite le_encode_length. lia. Qed.
Next Obligation. intros k iv d u f [= <- _]. lia. Qed.
Next Obligation.
  intros k iv d u f [= <- <-]. rewrite length_replicate. apply pad_length_range.
Qed.
Next Obligation.
  intros k iv d u f [= <- <-]. destruct (pad_length_range d) as [Hn _].
  destruct (pad_length d) as [|m]; [lia|]. cbn [aes_decrypt OpenSSL_example].
  rewrite replicate_S_end, app_assoc, last_snoc. cbn [fmap option_fmap option_map].
  eexists _, _. split; [done|]. rewrite app_nil_r, byte.unsigned_of_Z. unfold byte.wrap. rewrite Z.mod_small by lia.
  rewrite Nat2Z.id, <-app_assoc, <-replicate_S_end, length_app, length_replicate.
  replace (length d + S m - S m)%nat with (length d) by lia. apply take_app_length.
Qed.
Next Obligation. intros k iv d u f E. simpl in E. destruct (last d); [|done]. injection E as <- <-. simpl. rewrite length_take. lia. Qed.
Next Obligation.
  intros r k r' b pk _ [= <-] _. split; [simpl; lia|]. intros m s c s' E. simpl in E.
  case_decide as Hm; [|done]. injection E as <- _. split; [rewrite length_app; simpl; lia|].
  simpl. by rewrite take_app_length'.
Qed.
Next Obligation. intros d h [= <-]. by rewrite le_encode_length. Qed.

Definition example_host : HostCrypto :=
  mkHostCrypto (Some (mkRSAKey_I (Some tt) [])) (Some (mkRSAKey_I (Some tt) (replicate 140 Byte.x30))).
Definition example_cc (n : Z) : ConnectionCrypto := mkConnectionCrypto example_host None (le_encode 32 n) None.

Lemma example_cc_ok n : cc_ok (example_cc n).
Proof.
  split; [|exact (f_equal Z.of_nat (le_encode_length 32 n))]. 
  exact (construct_pair_ok (ssl := OpenSSL_example) 0%nat _ _ 0%nat eq_refl).
Qed.

Definition example_session : Session := mkSession (example_cc 1) (example_cc 2) [] [] 0%nat.

(** The first packet, sent and received. *)
Definition example_first : Packet := set_type new_Packet H0.
Definition example_sent : Packet := match cc_attach (example_cc 1) example_first with Some (p, _) => p | None => example_first end.
Definition example_session2 : Session :=
  mkSession (example_cc 1) (learned (example_cc 1) example_first (example_cc 2)) [] [(example_first, example_sent)] 0%nat.

Lemma example_sends : cc_onSend (example_cc 1) example_first 0%nat = Some ((example_sent, Keep), 0%nat).
Proof. by vm_compute. Qed.

Lemma example_session_reachable : rtc session_step example_session example_session2.
Proof.
  assert (sendable (example_cc 1) example_first) as Hs by (apply handshake_sendable; by left).
  eapply rtc_l; [exact (alice_sends _ (example_cc 2) [] [] _ _ _ _ _ Hs example_sends)|].
  assert (knows (example_cc 1) (example_cc 2)) as Hk by (split; intros k [=]).
  pose proof (onSend_wp _ _ _ 0%nat (example_cc_ok 1) (example_cc_ok 2) Hk Hs) as Hf.
  unfold wp in Hf. rewrite example_sends in Hf. destruct (proj2 Hf eq_refl) as [_ Hb].
  destruct (Hb (example_cc 2) eq_refl eq_refl) as (q&E&_).
  eapply rtc_l; [|reflexivity]. eapply bob_receives; [|exact E]. by left.
Qed.

Lemma session_agreement_witness :
  (∀ k, remoteSessionKey (alice example_session2) = Some k → k = localSessionKey (bob example_session2)) ∧
  (∀ k, remoteSessionKey (bob example_session2) = Some k → k = localSessionKey (alice example_session2)) ∧
  (∀ p p', (p, p') ∈ to_bob example_session2 → ∃ b q, cc_onReceive (bob example_session2) p' = Some (b, q, Keep) ∧ delivers_as q p) ∧
  (∀ p p', (p, p') ∈ to_alice example_session2 → ∃ a q, cc_onReceive (alice example_session2) p' = Some (a, q, Keep) ∧ delivers_as q p) ∧
  (∀ p r, sendable (alice example_session2) p → is_Some (cc_onSend (alice example_session2) p r)) ∧
  (∀ p r, sendable (bob example_session2) p → is_Some (cc_onSend (bob example_session2) p r)).
Proof.
  apply (session_agreement example_session).
  - repeat split; apply example_cc_ok.
  - apply example_session_reachable.
Defined.

(** All four packets get through. *)
Lemma handshake_establishes_session_witness :
  ∃ a' b' r', handshake (example_cc 1) (example_cc 2) 0%nat = Some (Some (a', b'), r') ∧
    remoteSessionKey a' = Some (le_encode 32 2) ∧ remoteSessionKey b' = Some (le_encode 32 1) ∧
    cc_canSend a' = true ∧ cc_canSend b' = true.
Proof.
  destruct (handshake_establishes_session (example_cc 1) (example_cc 2) 0%nat) as (res&r'&E&H);
    [apply example_cc_ok|apply example_cc_ok|reflexivity|reflexivity|reflexivity|reflexivity|].
  assert ((λ x, bool_decide (is_Some x.1)) <$> handshake (example_cc 1) (example_cc 2) 0%nat = Some true) as Eok
    by (vm_compute; reflexivity).
  rewrite E in Eok. destruct res as [[a' b']|]; [|discriminate Eok]. exists a', b', r'. split; [exact E|exact H].
Defined.

Lemma aes_packet_roundtrip_witness :
  let p := set_id (set_type new_Packet DATA_RELIABLE) 7 in
  ∃ p' r', encrypt_AES (le_encode 32 5) p MAX_PACKET_POST_CRYPTO_SIZE 0%nat = Some ((p', true), r') ∧ packet_wf p' ∧
    p_dataSize p' ≤ p_dataSize p + MAX_CRYPTO_SIZE ∧
    h_type (p_header p') = ENCRYPTED_VIA_AES ∧ h_id (p_header p') = 0 ∧
    ∃ q, decrypt_AES (le_encode 32 5) p' = Some (q, true) ∧ packet_eqb q p = true.
Proof.
  intros p. destruct (aes_packet_roundtrip (ssl := OpenSSL_example) (le_encode 32 5) p 0%nat) as (p'&ok&r'&E&Hp'&_&Hok).
  - apply set_header_wf, new_Packet_wf.
  - split; split; reflexivity || discriminate.
  - discriminate.
  - assert ((λ x, x.1.2) <$> encrypt_AES (le_encode 32 5) p MAX_PACKET_POST_CRYPTO_SIZE 0%nat = Some true) as Eok
      by (vm_compute; reflexivity).
    rewrite E in Eok. injection Eok as ->. exists p', r'. split_and!; [exact E|exact Hp'|apply Hok; reflexivity..].
Defined.

(** A response made up for the address 7, 7, ... *)
Definition example_basis : bytes := le_encode 8 (seconds (clock example_connection)) ++ replicate 28 Byte.x07.
Definition example_signature : bytes := le_encode 32 (le_decode example_basis).
Definition example_forged : Packet :=
  let d := example_basis ++ le_encode 2 36 ++ example_signature ++ le_encode 2 32 in
  mkPacket (mkHeader MRUDP_VERSION 1 AUTHENTICATE_RESPONSE 0) (d ++ drop (length d) (p_data new_Packet)) 72.

Lemma forged_response_accepted_witness :
  cc_onReceive (example_cc 1) example_forged = Some (example_cc 1, example_forged, Keep) ∧
  ∃ q, verifyChallengeResponse_signed (le_encode 32 9) example_connection example_forged (replicate 28 Byte.x07) = Some (q, true).
Proof.
  apply (forged_response_accepted (le_encode 32 9) (example_cc 1) example_connection example_forged (replicate 28 Byte.x07) example_signature).
  - split; [vm_compute; reflexivity|split; discriminate].
  - reflexivity.
  - reflexivity.
  - discriminate.
  - reflexivity.
  - vm_compute. reflexivity.
Defined.
