(* ===== verification/AddressText.v ===== *)
(** * Addresses as text: [mrudp_str_to_addr], [mrudp_addr_to_str], [mrudp_resolve]

    Strings are their bytes, without the final zero. The functions of the standard library the
    source uses are written out; [inet_pton] and [inet_ntop] of the system are the class [Inet],
    as is the resolver. *)

From S2P Require Import Prelude MemCopy Packet ReceiveQueue Types Asio Datagram.
From stdpp Require Import list.
#[local] Open Scope Z_scope.

(** ** Characters and strings *)

Definition colon : byte := Byte.x3a.
Definition bracket : byte := Byte.x5b.
Definition dot : byte := Byte.x2e.

Definition char_code (b : byte) : Z := Z.of_N (Byte.to_N b).
Definition isdigit (b : byte) : bool := (48 <=? char_code b) && (char_code b <=? 57).
Definition isspace (b : byte) : bool := (char_code b =? 32) || ((9 <=? char_code b) && (char_code b <=? 13)).

(** [std::string::npos] *)
Definition npos : Z := 2 ^ 64 - 1.

Fixpoint find_from (pos : Z) (c : byte) (s : bytes) : Z :=
  match s with
  | [] => npos
  | b :: s => if decide (b = c) then pos else find_from (pos + 1) c s
  end.
Definition find (c : byte) (s : bytes) : Z := find_from 0 c s.

(** The last position, [acc] if there is none. *)
Fixpoint rfind_from (pos : Z) (c : byte) (s : bytes) (acc : Z) : Z :=
  match s with
  | [] => acc
  | b :: s => rfind_from (pos + 1) c s (if decide (b = c) then pos else acc)
  end.
Definition rfind (c : byte) (s : bytes) : Z := rfind_from 0 c s npos.

(** Positions past the end throw; no caller passes one. *)
Definition substr (s : bytes) (pos count : Z) : bytes :=
  take (Z.to_nat (Z.min count (Z.of_nat (length s)))) (drop (Z.to_nat pos) s).

(** [atoi] and [atoll]: spaces, a sign, digits; a value out of range is undefined. *)
Fixpoint digits_value (acc : Z) (s : bytes) : Z :=
  match s with
  | b :: s => if isdigit b then digits_value (10 * acc + (char_code b - 48)) s else acc
  | [] => acc
  end.
Fixpoint skip_spaces (s : bytes) : bytes :=
  match s with b :: s' => if isspace b then skip_spaces s' else s | [] => [] end.
Definition ato (bits : Z) (s : bytes) : option Z :=
  let v := match skip_spaces s with
           | b :: s' => if char_code b =? 45 then - digits_value 0 s'
                        else if char_code b =? 43 then digits_value 0 s' else digits_value 0 (b :: s')
           | [] => 0
           end in
  if (- 2 ^ (bits - 1) <=? v) && (v <? 2 ^ (bits - 1)) then Some v else None.
Definition atoi : bytes → option Z := ato 32.
Definition atoll : bytes → option Z := ato 64.

(** [ostream << int], for numbers that are not negative. *)
Definition digit (z : Z) : byte := default Byte.x00 (Byte.of_N (Z.to_N (48 + z))).
Fixpoint decimal_loop (fuel : nat) (z : Z) : bytes :=
  match fuel with
  | O => []
  | S fuel => (if z <? 10 then [] else decimal_loop fuel (z `div` 10)) ++ [digit (z `mod` 10)]
  end.
(** A port has at most five digits. *)
Definition decimal (z : Z) : bytes := decimal_loop 5 z.

(** ** The system *)

Class Inet := {
  (** The address a text stands for; for a text that is none the output is left alone. *)
  inet_pton : Z → bytes → option bytes;
  (** The text of an address, without its final zero. *)
  inet_ntop : Z → bytes → bytes;
  (** [async_resolve]: the endpoints of a host and a service, none on an error. *)
  async_resolve : bytes → bytes → list Endpoint;
}.

(** What the documentation of the two says. *)
Class InetLaws `{!Inet} := {
  pton_ntop4 : ∀ a, length a = 4%nat → inet_pton AF_INET (inet_ntop AF_INET a) = Some a;
  pton_ntop6 : ∀ a, length a = 16%nat → inet_pton AF_INET6 (inet_ntop AF_INET6 a) = Some a;
  (** Dotted decimal: digits and dots, within [INET_ADDRSTRLEN]. *)
  ntop4_text : ∀ a, length a = 4%nat →
    Forall (λ b, isdigit b = true ∨ b = dot) (inet_ntop AF_INET a) ∧ (length (inet_ntop AF_INET a) < 16)%nat;
  (** Hexadecimal groups between colons. *)
  ntop6_text : ∀ a, length a = 16%nat → colon ∈ inet_ntop AF_INET6 a;
  (** Brackets are not part of an address. *)
  pton6_bracket : ∀ s, bracket ∈ s → inet_pton AF_INET6 s = None;
}.

Section text.
Context `{!Inet}.

(** ** Operations *)

(** Where the string is split: at the last colon. Without a colon both parts are the whole
    string, [npos + 1] being 0. *)
Definition split_port (id : bytes) : bytes * bytes :=
  let c := rfind colon id in
  (substr id 0 c, substr id (size_t (c + 1)) npos).

Definition INET_ADDRSTRLEN : nat := 16.

(** Any result of [inet_pton] is accepted; [None] is undefined behaviour. *)
Definition mrudp_str_to_addr (str : bytes) : option (Z * Address) :=
  let '(ip, port) := split_port str in
  p ← atoi port;
  if negb (find colon ip =? npos) || negb (find bracket ip =? npos) then
    Some (MRUDP_OK, le_encode 2 AF_INET6 ++ htons (u16 p) ++ replicate 4 Byte.x00 ++
                    default (replicate 16 Byte.x00) (inet_pton AF_INET6 ip) ++ replicate 4 Byte.x00)
  else
    Some (MRUDP_OK, le_encode 2 AF_INET ++ htons (u16 p) ++
                    default (replicate 4 Byte.x00) (inet_pton AF_INET ip) ++ replicate 20 Byte.x00).

(** What [inet_ntop] writes to a buffer of [INET_ADDRSTRLEN] bytes: nothing for a text that does
    not fit, or for another family. *)
Definition ntop_buffer (family : Z) (a : bytes) : option bytes :=
  if (family =? AF_INET) || (family =? AF_INET6) then
    let str := inet_ntop family a in
    if (length str <? INET_ADDRSTRLEN)%nat then Some str else None
  else None.

(** The buffer is read even if nothing was written to it, which is undefined. The result is the
    code and what is written to [out]. *)
Definition mrudp_addr_to_str (addr : Address) (outSize : Z) : option (Z * option bytes) :=
  let family := le_decode (slice 0 2 addr) in
  str ← ntop_buffer family (if family =? AF_INET then slice 4 4 addr else slice 8 16 addr);
  let s := str ++ [colon] ++ decimal (ntohs (slice 2 2 addr)) in
  if outSize <=? Z.of_nat (length s) then Some (MRUDP_ERROR_GENERAL_FAILURE, None)
  else Some (MRUDP_OK, Some s).

(** [toString]: the buffer is returned whatever the call says. *)
Definition toString (addr : Address) : option bytes :=
  '(_, out) ← mrudp_addr_to_str addr 128; out.

(** [ServiceImp::resolve]: what its handler passes on. *)
Definition ServiceImp_resolve (host port : bytes) : list Address := toAddr <$> async_resolve host port.

(** The code, and the addresses the callback gets. *)
Definition mrudp_resolve (service : option ServiceImp) (address : bytes) : Z * list Address :=
  match service with
  | None => (MRUDP_ERROR_GENERAL_FAILURE, [])
  | Some _ => let '(ip, port) := split_port address in (MRUDP_OK, ServiceImp_resolve ip port)
  end.
End text.

(** ** Strings *)

Lemma find_from_absent pos c s : c ∉ s → find_from pos c s = npos.
Proof.
  revert pos. induction s as [|b s IH]; intros pos Hs; [done|]. simpl. apply not_elem_of_cons in Hs as [? ?].
  rewrite decide_False by done. by apply IH.
Qed.

Lemma find_from_present pos c s : c ∈ s → pos ≤ find_from pos c s < pos + Z.of_nat (length s).
Proof.
  revert pos. induction s as [|b s IH]; intros pos Hs; [by apply not_elem_of_nil in Hs|]. simpl.
  destruct (decide (b = c)); [lia|]. apply elem_of_cons in Hs as [?|Hs]; [done|]. specialize (IH (pos + 1) Hs). lia.
Qed.

Lemma find_npos c s : Z.of_nat (length s) < npos → (find c s =? npos) = bool_decide (c ∉ s).
Proof.
  intros Hs. unfold find. destruct (decide (c ∈ s)) as [Hc|Hc].
  - rewrite bool_decide_eq_false_2 by tauto. apply Z.eqb_neq. pose proof (find_from_present 0 c s Hc). lia.
  - rewrite bool_decide_eq_true_2, find_from_absent by done. apply Z.eqb_refl.
Qed.

Lemma rfind_from_absent pos c s acc : c ∉ s → rfind_from pos c s acc = acc.
Proof.
  revert pos. induction s as [|b s IH]; intros pos Hs; [done|]. simpl. apply not_elem_of_cons in Hs as [? ?].
  rewrite decide_False by done. by apply IH.
Qed.

Lemma rfind_last c s1 s2 : c ∉ s2 → rfind c (s1 ++ [c] ++ s2) = Z.of_nat (length s1).
Proof.
  intros Hs. unfold rfind. enough (∀ pos acc, rfind_from pos c (s1 ++ [c] ++ s2) acc = pos + Z.of_nat (length s1)) as H by apply H.
  induction s1 as [|b s1 IH]; intros pos acc; simpl.
  - rewrite decide_True by done. rewrite rfind_from_absent by done. lia.
  - rewrite IH. lia.
Qed.

Lemma substr_all s n : Z.of_nat (length s) ≤ n → substr s 0 n = s.
Proof. intros Hn. unfold substr. simpl. rewrite drop_0, Z.min_r, Nat2Z.id by done. by rewrite take_ge. Qed.

(** Texts that end in a port. *)
Lemma split_port_join ip port :
  colon ∉ port → Z.of_nat (length ip + 1 + length port) < npos → split_port (ip ++ [colon] ++ port) = (ip, port).
Proof.
  intros Hp Hl. unfold split_port. rewrite rfind_last by done. unfold substr. rewrite !length_app. simpl length.
  unfold npos in *. f_equal.
  - rewrite Z.min_l by lia. simpl. by rewrite drop_0, Nat2Z.id, take_app_length.
  - rewrite Z.min_r by lia. rewrite wrap_small by (unfold in_u; lia).
    replace (Z.to_nat (Z.of_nat (length ip) + 1)) with (length (ip ++ [colon])) by (rewrite length_app; simpl; lia).
    rewrite app_assoc, drop_app_length. apply take_ge. lia.
Qed.

(** And texts without one. *)
Lemma split_port_none s : colon ∉ s → Z.of_nat (length s) < npos → split_port s = (s, s).
Proof.
  intros Hs Hl. unfold split_port, rfind. rewrite rfind_from_absent by done.
  change (size_t (npos + 1)) with 0. by rewrite substr_all by lia.
Qed.

(** ** Numbers *)

Lemma digit_code z : 0 ≤ z < 10 → char_code (digit z) = 48 + z.
Proof.
  intros Hz. assert (z = 0 ∨ z = 1 ∨ z = 2 ∨ z = 3 ∨ z = 4 ∨ z = 5 ∨ z = 6 ∨ z = 7 ∨ z = 8 ∨ z = 9) as H by lia.
  by destruct_or! H; subst z.
Qed.

Lemma isdigit_digit z : 0 ≤ z < 10 → isdigit (digit z) = true.
Proof. intros Hz. unfold isdigit. rewrite digit_code by done. apply andb_true_iff. split; apply Z.leb_le; lia. Qed.

Lemma isdigit_not_colon b : isdigit b = true → b ≠ colon ∧ b ≠ bracket.
Proof. intros Hb. split; intros ->; by vm_compute in Hb. Qed.

Lemma decimal_loop_digits fuel z : 0 ≤ z → Forall (λ b, isdigit b = true) (decimal_loop fuel z).
Proof.
  revert z. induction fuel as [|fuel IH]; intros z Hz; [constructor|]. cbn [decimal_loop]. apply Forall_app. split.
  - destruct (z <? 10); [constructor|]. apply IH. by apply Z.div_pos.
  - apply Forall_singleton, isdigit_digit. by apply Z.mod_pos_bound.
Qed.

Lemma digits_value_app acc s b :
  Forall (λ b, isdigit b = true) s → isdigit b = true →
  digits_value acc (s ++ [b]) = 10 * digits_value acc s + (char_code b - 48).
Proof.
  intros Hs Hb. revert acc. induction Hs as [|x s Hx _ IH]; intros acc; simpl; [by rewrite Hb|]. by rewrite Hx, IH.
Qed.

Lemma digits_value_decimal fuel z : 0 ≤ z < 10 ^ Z.of_nat fuel → digits_value 0 (decimal_loop fuel z) = z.
Proof.
  revert z. induction fuel as [|fuel IH]; intros z Hz; [simpl in *; lia|]. cbn [decimal_loop].
  pose proof (Z.mod_pos_bound z 10 ltac:(lia)) as Hm. pose proof (Z.div_mod z 10 ltac:(lia)) as Hd.
  assert (0 ≤ z `div` 10) by (apply Z.div_pos; lia).
  rewrite digits_value_app; [|destruct (z <? 10); [constructor|by apply decimal_loop_digits]|by apply isdigit_digit].
  rewrite digit_code by done. destruct (Z.ltb_spec z 10) as [Hlt|Hge].
  - simpl. rewrite Z.mod_small by lia. lia.
  - rewrite IH; [lia|]. rewrite Nat2Z.inj_succ, Z.pow_succ_r in Hz by lia. lia.
Qed.

Lemma decimal_loop_length fuel z : (length (decimal_loop fuel z) ≤ fuel)%nat.
Proof.
  revert z. induction fuel as [|fuel IH]; intros z; [done|]. cbn [decimal_loop]. rewrite length_app. simpl.
  destruct (z <? 10); simpl; [lia|]. specialize (IH (z `div` 10)). lia.
Qed.

Lemma skip_spaces_digits s : Forall (λ b, isdigit b = true) s → skip_spaces s = s.
Proof.
  destruct 1 as [|b s Hb _]; [done|]. simpl. unfold isdigit in Hb. apply andb_true_iff in Hb as [H1%Z.leb_le H2%Z.leb_le].
  unfold isspace. rewrite (proj2 (Z.eqb_neq _ _)), (proj2 (Z.leb_gt (char_code b) 13)) by lia. by rewrite andb_false_r.
Qed.

Lemma ato_decimal bits fuel z :
  0 ≤ z < 2 ^ (bits - 1) → z < 10 ^ Z.of_nat fuel → ato bits (decimal_loop fuel z) = Some z.
Proof.
  intros Hz Hf. pose proof (decimal_loop_digits fuel z ltac:(lia)) as Hd.
  pose proof (digits_value_decimal fuel z ltac:(lia)) as Hv. unfold ato. rewrite skip_spaces_digits by done.
  assert ((- 2 ^ (bits - 1) <=? z) && (z <? 2 ^ (bits - 1)) = true) as Hr.
  { apply andb_true_iff. split; [apply Z.leb_le|apply Z.ltb_lt]; lia. }
  destruct Hd as [|b s Hb Hd]; [simpl in Hv; subst z; by rewrite Hr|]. pose proof Hb as [H1%Z.leb_le H2%Z.leb_le]%andb_true_iff.
  rewrite !(proj2 (Z.eqb_neq _ _)) by lia. by rewrite Hv, Hr.
Qed.

Lemma atoi_decimal z : in_u 16 z → atoi (decimal z) = Some z.
Proof. intros [? ?]. apply ato_decimal; lia. Qed.

Lemma no_char (c : byte) (s : bytes) : c ∉ s ↔ Forall (λ b, b ≠ c) s.
Proof.
  induction s as [|b s IH]; [split; [constructor|by intros _ ?%not_elem_of_nil]|].
  rewrite not_elem_of_cons, Forall_cons, IH. naive_solver.
Qed.

Lemma decimal_no_colon z : 0 ≤ z → colon ∉ decimal z.
Proof.
  intros Hz. apply no_char. eapply Forall_impl; [apply decimal_loop_digits; exact Hz|]. intros b Hb. by apply isdigit_not_colon.
Qed.

(** ** Claim *)

Section claims.
Context `{!Inet, !InetLaws}.

Definition endpoint_ip (e : Endpoint) : bytes :=
  match e with V4 a _ => inet_ntop AF_INET a | V6 a _ _ => inet_ntop AF_INET6 a end.
Definition endpoint_port (e : Endpoint) : Z := match e with V4 _ p => p | V6 _ _ p => p end.
Definition endpoint_text (e : Endpoint) : bytes := endpoint_ip e ++ [colon] ++ decimal (endpoint_port e).

Lemma endpoint_port_range e : endpoint_wf e → in_u 16 (endpoint_port e).
Proof. by destruct e; intros [_ ?]. Qed.

(** The fields of an address. *)
Lemma addr_to_str_endpoint e n :
  endpoint_wf e → mrudp_addr_to_str (toAddr e) n =
    (str ← (if (length (endpoint_ip e) <? INET_ADDRSTRLEN)%nat then Some (endpoint_ip e) else None);
     let s := str ++ [colon] ++ decimal (endpoint_port e) in
     if n <=? Z.of_nat (length s) then Some (MRUDP_ERROR_GENERAL_FAILURE, None) else Some (MRUDP_OK, Some s)).
Proof.
  intros He. pose proof (toEndpoint_toAddr e He) as Ht. unfold mrudp_addr_to_str, ntop_buffer, toEndpoint, toAddr in *.
  destruct e as [a p|a sc p]; (rewrite slice_first in Ht |- * by apply le_encode_length).
  - change (le_decode (le_encode 2 AF_INET)) with AF_INET in *. rewrite Z.eqb_refl in *.
    set (x := slice 4 4 _) in *. set (y := slice 2 2 _) in *. clearbody x y. by injection Ht as -> ->.
  - change (le_decode (le_encode 2 AF_INET6)) with AF_INET6 in *. change (AF_INET6 =? AF_INET) with false in *.
    set (x := slice 8 16 _) in *. set (y := slice 2 2 _) in *. clearbody x y. by injection Ht as -> ->.
Qed.

Lemma str_to_addr_join ip port p :
  colon ∉ port → Z.of_nat (length ip + 1 + length port) < npos → atoi port = Some p →
  mrudp_str_to_addr (ip ++ [colon] ++ port) = Some (MRUDP_OK,
    if decide (colon ∈ ip ∨ bracket ∈ ip)
    then toAddr (V6 (default (replicate 16 Byte.x00) (inet_pton AF_INET6 ip)) 0 (u16 p))
    else toAddr (V4 (default (replicate 4 Byte.x00) (inet_pton AF_INET ip)) (u16 p))).
Proof.
  intros Hc Hl Hp. unfold mrudp_str_to_addr. rewrite split_port_join by done. simpl. rewrite Hp. simpl.
  rewrite !find_npos by lia. destruct (decide (colon ∈ ip ∨ bracket ∈ ip)) as [Hin|Hin].
  - assert (negb (bool_decide (colon ∉ ip)) || negb (bool_decide (bracket ∉ ip)) = true) as ->; [|done].
    apply orb_true_iff. rewrite !negb_true_iff, !bool_decide_eq_false. tauto.
  - rewrite !bool_decide_eq_true_2 by tauto. done.
Qed.

Lemma str_to_addr_endpoint e :
  endpoint_wf e → (length (endpoint_ip e) < INET_ADDRSTRLEN)%nat →
  mrudp_str_to_addr (endpoint_text e) = Some (MRUDP_OK, toAddr e).
Proof.
  intros He Hl. pose proof (endpoint_port_range e He) as Hp. unfold endpoint_text.
  pose proof (decimal_loop_length 5 (endpoint_port e)) as Hd. fold (decimal (endpoint_port e)) in Hd.
  rewrite (str_to_addr_join _ _ (endpoint_port e)).
  - rewrite wrap_small by done. destruct e as [a p|a sc p]; simpl in *; destruct He as [Ha _].
    + rewrite decide_False; [by rewrite pton_ntop4|]. destruct (ntop4_text a Ha) as [Ht _].
      assert (∀ c, isdigit c = false → c ≠ dot → c ∉ inet_ntop AF_INET a) as Hno.
      { intros c Hc Hcd. apply no_char. eapply Forall_impl; [exact Ht|]. intros b Hb ->. destruct Hb; congruence. }
      intros [Hin|Hin]; revert Hin; by apply Hno.
    + rewrite decide_True by (left; by apply ntop6_text). by rewrite pton_ntop6.
  - apply decimal_no_colon. by destruct Hp.
  - unfold INET_ADDRSTRLEN, npos in *. lia.
  - by apply atoi_decimal.
Qed.
End claims.

(** C28: addresses and their text. The text of an endpoint of version 4, and of one of version 6
    whose address has at most fifteen characters, is the address, a colon and the port: writing
    it succeeds exactly if it fits with its final zero, and reading it gives the endpoint's
    address back. A longer address of version 6 is outside what [mrudp_addr_to_str] defines: its
    buffer has room for version 4 only. And an address in brackets, the usual way to write one of
    version 6 with a port, is taken for the unspecified address, with the result [MRUDP_OK]. *)
Theorem address_text_roundtrip `{!Inet, !InetLaws} (e : Endpoint) (outSize : Z) (ip port : bytes) (p : Z) :
  endpoint_wf e →
  colon ∉ port → atoi port = Some p → Z.of_nat (length ip + 1 + length port) < 2 ^ 64 - 1 →
  (match e with V4 _ _ => (length (endpoint_ip e) < 16)%nat | V6 _ _ _ => True end) ∧
  ((length (endpoint_ip e) < 16)%nat →
    mrudp_addr_to_str (toAddr e) outSize =
      (if decide (Z.of_nat (length (endpoint_text e)) < outSize) then Some (MRUDP_OK, Some (endpoint_text e))
       else Some (MRUDP_ERROR_GENERAL_FAILURE, None)) ∧
    mrudp_str_to_addr (endpoint_text e) = Some (MRUDP_OK, toAddr e)) ∧
  ((16 ≤ length (endpoint_ip e))%nat → mrudp_addr_to_str (toAddr e) outSize = None) ∧
  (bracket ∈ ip → mrudp_str_to_addr (ip ++ [colon] ++ port) = Some (MRUDP_OK, toAddr (V6 (replicate 16 Byte.x00) 0 (u16 p)))).
Proof.
  intros He Hc Hp Hl. rewrite addr_to_str_endpoint by done. split_and!.
  - destruct e as [a q|]; [|done]. by apply ntop4_text, He.
  - intros Hlen. rewrite (proj2 (Nat.ltb_lt _ _)) by exact Hlen. simpl. split; [|by apply str_to_addr_endpoint].
    fold (endpoint_text e). change (endpoint_ip e ++ colon :: decimal (endpoint_port e)) with (endpoint_text e).
    case_decide; [by rewrite (proj2 (Z.leb_gt _ _))|by rewrite (proj2 (Z.leb_le _ _)) by lia].
  - intros Hlen. by rewrite (proj2 (Nat.ltb_ge _ _)).
  - intros Hb. rewrite (str_to_addr_join _ _ p) by done. rewrite decide_True by tauto. by rewrite pton6_bracket.
Qed.

(** *** A system *)

(** Texts of fixed width: three digits for a byte of version 4, four hexadecimal digits for a
    group of version 6; the loopback address has its short form. *)
Definition text3 (b : byte) : bytes :=
  let z := char_code b in [digit (z `div` 100); digit (z `div` 10 `mod` 10); digit (z `mod` 10)].
Definition value3 (s : bytes) : byte := default Byte.x00 (Byte.of_N (Z.to_N (digits_value 0 s))).

Definition hex_digit (z : Z) : byte := default Byte.x00 (Byte.of_N (Z.to_N (if z <? 10 then 48 + z else 87 + z))).
Definition hex_value (b : byte) : Z := if isdigit b then char_code b - 48 else char_code b - 87.
Definition hex2 (b : byte) : bytes := [hex_digit (char_code b `div` 16); hex_digit (char_code b `mod` 16)].
Definition unhex (b c : byte) : byte := default Byte.x00 (Byte.of_N (Z.to_N (16 * hex_value b + hex_value c))).

Fixpoint groups_text (a : bytes) : bytes :=
  match a with
  | [x; y] => hex2 x ++ hex2 y
  | x :: y :: a => hex2 x ++ hex2 y ++ [colon] ++ groups_text a
  | _ => []
  end.
Fixpoint groups_value (s : bytes) : bytes :=
  match s with
  | [b1; b2; b3; b4] => [unhex b1 b2; unhex b3 b4]
  | b1 :: b2 :: b3 :: b4 :: _ :: s => unhex b1 b2 :: unhex b3 b4 :: groups_value s
  | _ => []
  end.

Definition loopback6 : bytes := replicate 15 Byte.x00 ++ [Byte.x01].
Definition loopback6_text : bytes := [colon; colon; Byte.x31].

#[local] Instance Inet_fixed : Inet := {|
  inet_ntop family a :=
    if family =? AF_INET
    then match a with [x; y; z; w] => text3 x ++ [dot] ++ text3 y ++ [dot] ++ text3 z ++ [dot] ++ text3 w | _ => [] end
    else if decide (a = loopback6) then loopback6_text else groups_text a;
  inet_pton family s :=
    if family =? AF_INET then Some [value3 (slice 0 3 s); value3 (slice 4 3 s); value3 (slice 8 3 s); value3 (slice 12 3 s)]
    else if bool_decide (bracket ∈ s) then None
    else if decide (s = loopback6_text) then Some loopback6 else Some (groups_value s);
  async_resolve host port := [V4 [Byte.x7f; Byte.x00; Byte.x00; Byte.x01] 80];
|}.

Lemma value3_text3 b : value3 (text3 b) = b.
Proof. by destruct b. Qed.
Lemma text3_digits b : Forall (λ b, isdigit b = true ∨ b = dot) (text3 b).
Proof. destruct b; repeat constructor. Qed.
Lemma unhex_hex2 b : unhex (hex_digit (char_code b `div` 16)) (hex_digit (char_code b `mod` 16)) = b.
Proof. by destruct b. Qed.
Lemma hex2_no_bracket b : bracket ∉ hex2 b.
Proof. destruct b; apply (bool_decide_unpack _); by vm_compute. Qed.

Lemma groups_text_no_bracket a : bracket ∉ groups_text a.
Proof.
  assert (∀ n a, (length a ≤ n)%nat → bracket ∉ groups_text a) as H; [|by apply (H (length a))].
  clear a. induction n as [|n IH]; intros a Hl.
  { destruct a; [apply not_elem_of_nil|simpl in Hl; lia]. }
  destruct a as [|x [|y [|z a]]]; [apply not_elem_of_nil|apply not_elem_of_nil| |].
  - cbn [groups_text]. rewrite elem_of_app. intros [Hin|Hin]; by apply hex2_no_bracket in Hin.
  - change (groups_text (x :: y :: z :: a)) with (hex2 x ++ hex2 y ++ [colon] ++ groups_text (z :: a)).
    rewrite !elem_of_app. intros [Hin|[Hin|[Hin|Hin]]]; [by apply hex2_no_bracket in Hin..| |].
    + by apply list_elem_of_singleton in Hin.
    + apply (IH (z :: a)); [simpl in *; lia|done].
Qed.

#[local] Instance InetLaws_fixed : InetLaws.
Proof.
  split.
  - intros [|x [|y [|z [|w [|]]]]] Ha; try done. cbn [inet_ntop inet_pton Inet_fixed]. rewrite Z.eqb_refl.
    set (s := _ ++ _). replace (slice 0 3 s) with (text3 x) by done. replace (slice 4 3 s) with (text3 y) by done.
    replace (slice 8 3 s) with (text3 z) by done. replace (slice 12 3 s) with (text3 w) by done. by rewrite !value3_text3.
  - intros a Ha. cbn [inet_ntop inet_pton Inet_fixed]. change (AF_INET6 =? AF_INET) with false. cbv iota.
    destruct (decide (a = loopback6)) as [->|Hne]; [done|]. rewrite bool_decide_eq_false_2 by apply groups_text_no_bracket.
    do 16 (destruct a as [|? a]; [done|]). destruct a; [|done]. rewrite decide_False by done.
    f_equal. simpl. by rewrite !unhex_hex2.
  - intros [|x [|y [|z [|w [|]]]]] Ha; try done. cbn [inet_ntop Inet_fixed]. rewrite Z.eqb_refl. split; [|simpl; lia].
    pose proof text3_digits. repeat (apply Forall_app; split); (apply Forall_singleton; by right) || done.
  - intros a Ha. cbn [inet_ntop Inet_fixed]. change (AF_INET6 =? AF_INET) with false. cbv iota.
    case_decide; [left|]. do 16 (destruct a as [|? a]; [done|]). simpl. do 4 right. left.
  - intros s Hs. cbn [inet_pton Inet_fixed]. change (AF_INET6 =? AF_INET) with false. cbv iota.
    by rewrite bool_decide_eq_true_2.
Qed.

Definition localhost : Endpoint := V4 [Byte.x7f; Byte.x00; Byte.x00; Byte.x01] 8080.
Definition bracketed : bytes := [bracket; colon; colon; Byte.x31; Byte.x5d].
Definition port80 : bytes := [Byte.x38; Byte.x30].

(** An address without a port: the port is read from the address itself. *)
Example str_to_addr_no_port :
  mrudp_str_to_addr (endpoint_ip localhost) = Some (MRUDP_OK, toAddr (V4 [Byte.x7f; Byte.x00; Byte.x00; Byte.x01] 127)).
Proof. vm_compute. reflexivity. Qed.

Lemma address_text_roundtrip_witness :
  (length (endpoint_ip localhost) < 16)%nat ∧
  ((length (endpoint_ip localhost) < 16)%nat →
    mrudp_addr_to_str (toAddr localhost) 128 =
      (if decide (Z.of_nat (length (endpoint_text localhost)) < 128) then Some (MRUDP_OK, Some (endpoint_text localhost))
       else Some (MRUDP_ERROR_GENERAL_FAILURE, None)) ∧
    mrudp_str_to_addr (endpoint_text localhost) = Some (MRUDP_OK, toAddr localhost)) ∧
  ((16 ≤ length (endpoint_ip localhost))%nat → mrudp_addr_to_str (toAddr localhost) 128 = None) ∧
  (bracket ∈ bracketed → mrudp_str_to_addr (bracketed ++ [colon] ++ port80) =
     Some (MRUDP_OK, toAddr (V6 (replicate 16 Byte.x00) 0 (u16 80)))).
Proof.
  apply (address_text_roundtrip localhost 128 bracketed port80 80).
  - split; [reflexivity|split; reflexivity || discriminate].
  - apply (bool_decide_unpack _). vm_compute. exact I.
  - vm_compute. reflexivity.
  - vm_compute. reflexivity.
Defined.
