(* ===== verification/NativeQueue.v ===== *)
(** * The queue of a native socket

    Threads push packets to the queue of a native socket and completions take them off; each access
    to the queue is a critical section of its own, and the decision to send is made between them.
    The steps below are those critical sections; [going] counts the threads between deciding to
    send and doing so. *)

From S2P Require Import Prelude MemCopy Packet ReceiveQueue Types Asio.

Record NativeQueue := mkNativeQueue {
  native : SocketNative;
  going : nat;              (* threads about to call doSend *)
  in_flight : list Send;    (* sends the system has not completed *)
  pushed : list Send;       (* all packets given to sendViaQueue, in order *)
  handed : list Send;       (* all packets given to the system, in order *)
}.

Inductive queue_step : NativeQueue → NativeQueue → Prop :=
  (** [sendViaQueue]: [push_back] and the test of its result *)
  | step_push s k l ps hs t s' size :
      push_back t s = (s', size) →
      queue_step (mkNativeQueue s k l ps hs)
        (mkNativeQueue s' (if (size =? 1)%nat then S k else k) l (ps ++ [t]) hs)
  (** [doSend]: [front] and [SocketNative::send] *)
  | step_send s k l ps hs t :
      front s = Some t →
      queue_step (mkNativeQueue s (S k) l ps hs)
        (if is_open (handle s) then mkNativeQueue s k (l ++ [t]) ps (hs ++ [t]) else mkNativeQueue s k l ps hs)
  (** the completion of a send: [pop_front] and the test of its result *)
  | step_complete s k l1 t l2 ps hs s' size :
      pop_front s = Some (s', size) →
      queue_step (mkNativeQueue s k (l1 ++ t :: l2) ps hs)
        (mkNativeQueue s' (if (0 <? size)%nat then S k else k) (l1 ++ l2) ps hs)
  (** the handle is closed or opened under its lock *)
  | step_handle s k l ps hs h :
      queue_step (mkNativeQueue s k l ps hs) (mkNativeQueue (set_handle h s) k l ps hs).

(** A new socket. *)
Definition queue_start (h : Handle) : NativeQueue := mkNativeQueue (set_handle h SocketNative_init) 0 [] [] [].

(** At most one thread or operation is at work on the queue; what it works on is its front. *)
Record queue_inv (q : NativeQueue) : Prop := {
  qi_pushed : ∃ done, pushed q = done ++ queue (native q) ∧ handed q = done ++ in_flight q;
  qi_one : (going q + length (in_flight q) ≤ 1)%nat;
  qi_front : going q ≠ 0%nat ∨ in_flight q ≠ [] → queue (native q) ≠ [];
  qi_flight : ∀ t, t ∈ in_flight q → front (native q) = Some t;
}.

Lemma queue_start_inv h : queue_inv (queue_start h).
Proof. split; simpl; [by exists []|lia|naive_solver|]. intros t H. by apply elem_of_nil in H. Qed.

Lemma queue_step_inv q q' : queue_inv q → queue_step q q' → queue_inv q'.
Proof.
  intros [(d&Hp&Hh) H1 Hf Hl] Hs. destruct Hs as [s k l ps hs t s' size E|s k l ps hs t E|s k l1 t l2 ps hs s' size E|s k l ps hs h]; simpl in *.
  - injection E as <- <-. destruct (queue s) as [|x r] eqn:Eq; simpl.
    + assert (k = 0%nat ∧ l = []) as [-> ->].
      { destruct k, l; try done; exfalso; apply Hf; try done; by ((left; lia) || right). }
      split; simpl; rewrite ?Eq; [|lia|done|set_solver]. exists d. by rewrite Hp, Hh, app_nil_r.
    + split; simpl; rewrite ?Eq; [|done|done|].
      * exists d. by rewrite Hp, <-app_assoc.
      * intros u Hu. specialize (Hl u Hu). unfold front in *. rewrite Eq in Hl. done.
  - assert (l = []) as -> by (destruct l; [done|simpl in H1; lia]). assert (k = 0%nat) as -> by (simpl in H1; lia).
    destruct (is_open (handle s)); split; simpl; try done.
    + exists d. split; [done|]. by rewrite Hh, app_nil_r.
    + intros _. apply Hf. by left.
    + by intros u ->%list_elem_of_singleton.
    + by exists d.
    + lia.
    + naive_solver.
  - assert (l1 = [] ∧ l2 = [] ∧ k = 0%nat) as (->&->&->).
    { rewrite length_app in H1. simpl in H1. destruct l1, l2; simpl in *; split_and!; try done; lia. }
    unfold pop_front in E. assert (front s = Some t) as Ht by (apply Hl; by left). unfold front in Ht.
    destruct (queue s) as [|x r] eqn:Eq; [done|]. injection E as <- <-. injection Ht as ->. simpl.
    split; simpl; [|destruct r; simpl; lia| |set_solver].
    + exists (d ++ [t]). rewrite <-app_assoc. by rewrite app_nil_r.
    + intros [Hg|Hg]; [|done]. by destruct r.
  - split; simpl; [by exists d|done|done|done].
Qed.

Lemma queue_reachable_inv h q : rtc queue_step (queue_start h) q → queue_inv q.
Proof.
  intros Hr. pose proof (queue_start_inv h) as Hi. revert Hi. induction Hr as [|q1 q2 q3 Hs _ IH]; [done|].
  intros Hi. by apply IH, (queue_step_inv q1).
Qed.

(** A queue whose handle is open, in states in which it always was. *)
Inductive open_step : NativeQueue → NativeQueue → Prop :=
  | open_step_intro q q' : queue_step q q' → is_open (handle (native q')) = true → open_step q q'.

(** Somebody is at work as long as there is work. *)
Definition awake (q : NativeQueue) : Prop := queue (native q) ≠ [] → going q ≠ 0%nat ∨ in_flight q ≠ [].

Lemma open_step_awake q q' : queue_inv q → is_open (handle (native q)) = true → awake q → open_step q q' → awake q'.
Proof.
  intros [_ H1 Hf Hl] Ho Ha Hos. inversion Hos as [? ? Hs Ho']. subst. destruct Hs as [s k l ps hs t s' size E|s k l ps hs t E|s k l1 t l2 ps hs s' size E|s k l ps hs h];
    unfold awake in *; simpl in *.
  - injection E as <- <-. simpl. intros _. destruct (queue s) as [|x r] eqn:Eq; simpl; [by left|]. by apply Ha.
  - rewrite Ho. simpl. intros _. right. by destruct l.
  - unfold pop_front in E. destruct (queue s) as [|x r] eqn:Eq; [done|]. injection E as <- <-. simpl. intros Hr. left. by destruct r.
  - done.
Qed.

Lemma open_reachable q0 q :
  (queue_inv q0 ∧ is_open (handle (native q0)) = true ∧ awake q0) → rtc open_step q0 q →
  queue_inv q ∧ is_open (handle (native q)) = true ∧ awake q.
Proof.
  intros Hi Hr. induction Hr as [|q1 q2 q3 Hs _ IH]; [done|]. apply IH. destruct Hi as (Hi&Ho&Ha).
  pose proof (open_step_awake q1 q2 Hi Ho Ha Hs). destruct Hs as [q1 q2 Hs Ho2]. by split_and!; [apply (queue_step_inv q1)|..].
Qed.

(** A queue that stands still: packets wait and nobody is at work. *)
Definition stuck (q : NativeQueue) : Prop := queue (native q) ≠ [] ∧ going q = 0%nat ∧ in_flight q = [].

Lemma stuck_step q q' : stuck q → queue_step q q' → stuck q' ∧ handed q' = handed q.
Proof.
  intros (Hq&Hg&Hl) Hs. destruct Hs as [s k l ps hs t s' size E|s k l ps hs t E|s k l1 t l2 ps hs s' size E|s k l ps hs h]; simpl in *; try done.
  - injection E as <- <-. unfold stuck. simpl. destruct (queue s) as [|x r] eqn:Eq; [done|]. by rewrite Hg.
  - by destruct l1.
Qed.

Lemma stuck_steps q q' : stuck q → rtc queue_step q q' → handed q' = handed q.
Proof.
  intros Hq Hr. induction Hr as [|q1 q2 q3 Hs _ IH]; [done|]. destruct (stuck_step q1 q2 Hq Hs) as [Hq2 <-]. by apply IH.
Qed.

(** ** Claims *)

(** C25: the queue of a native socket is a queue. Whatever threads push and whenever sends complete
    and the handle is closed and opened, the packets given to the system are those pushed, in
    order, each once; at most one send is under way, of the front of the queue, which is there when
    [doSend] looks for it. While the handle stays open no packet is left behind: when nobody is at
    work everything pushed has been handed over. *)
Theorem native_queue_fifo (h : Handle) (q : NativeQueue) :
  (rtc queue_step (queue_start h) q →
    handed q `prefix_of` pushed q ∧ (length (in_flight q) ≤ 1)%nat ∧
    (∀ t, t ∈ in_flight q → front (native q) = Some t) ∧
    (going q ≠ 0%nat → is_Some (front (native q))) ∧ (in_flight q ≠ [] → is_Some (pop_front (native q)))) ∧
  (is_open h = true → rtc open_step (queue_start h) q →
    going q = 0%nat → in_flight q = [] → handed q = pushed q).
Proof.
  split.
  - intros [(d&Hp&Hh) H1 Hf Hl]%queue_reachable_inv. split_and!; [|lia|done| |].
    + rewrite Hp, Hh. apply prefix_app. destruct (in_flight q) as [|t l]; [apply prefix_nil|].
      simpl in H1. destruct l; [|simpl in H1; lia]. assert (front (native q) = Some t) as Ht by (apply Hl; by left).
      unfold front in Ht. destruct (queue (native q)) as [|x r]; [done|]. injection Ht as ->. by exists r.
    + intros Hg. unfold front. destruct (queue (native q)); [|by eexists]. by destruct Hf; [left|].
    + intros Hg. unfold pop_front. destruct (queue (native q)); [|by eexists]. by destruct Hf; [right|].
  - intros Ho Hr. assert (queue_inv q ∧ is_open (handle (native q)) = true ∧ awake q) as ([(d&Hp&Hh) _ _ _]&_&Ha).
    { apply (open_reachable (queue_start h)); [|done]. split_and!; [apply queue_start_inv|done|]. intros Hn. by destruct Hn. }
    intros Hg Hl. rewrite Hp, Hh, Hl, app_nil_r. unfold awake in Ha. destruct (queue (native q)); [by rewrite app_nil_r|].
    exfalso. destruct Ha as [Hx|Hx]; done.
Qed.

(** A packet sent while the handle is closed blocks the queue for good. [SocketNative::send]
    returns without a completion, so the packet stays in front; later packets find a queue that is
    not empty and nobody sends them, also after the handle was opened again by [relocate]. *)
Lemma closed_send_blocks_queue (q q1 q2 q3 : NativeQueue) (t : Send) :
  queue (native q) = [] → going q = 0%nat → in_flight q = [] → handle (native q) = Closed →
  q1 = mkNativeQueue (push_back t (native q)).1 1 [] (pushed q ++ [t]) (handed q) →
  queue_step q1 q2 → going q2 = 0%nat → rtc queue_step q2 q3 →
  queue_step q q1 ∧ handed q3 = handed q.
Proof.
  intros Hq Hg Hl Hc -> Hs Hg2 Hr. destruct q as [s k l ps hs]. simpl in *. subst k l. split.
  - pose proof (step_push s 0 [] ps hs t _ _ eq_refl) as Hp. by rewrite Hq in *.
  - assert (stuck q2 ∧ handed q2 = hs) as [Hst <-]; [|by apply stuck_steps].
    inversion Hs as [? ? ? ? ? ? ? ? E|? ? ? ? ? ? E|? ? ? ? ? ? ? ? ? E Ha Hb|]; subst; simpl in *.
    + destruct (_ =? 1)%nat; done.
    + rewrite Hc. simpl. split; [|done]. split; simpl; [by rewrite Hq|done].
    + by destruct l1.
    + done.
Qed.

(** ** Two packets through an open socket, and a packet for a closed one *)

Definition example_send (port : Z) : Send := mkSend (toAddr (V4 [Byte.x7f; Byte.x00; Byte.x00; Byte.x01] port)) new_Packet.
Definition example_bound : Handle := Bound (V4 (replicate 4 Byte.x00) 7000).
Definition example_native (h : Handle) (q : list Send) : SocketNative := set_queue q (set_handle h SocketNative_init).

Lemma example_open_run :
  rtc open_step (queue_start example_bound)
    (mkNativeQueue (example_native example_bound []) 0 [] [example_send 1; example_send 2] [example_send 1; example_send 2]).
Proof.
  eapply rtc_l; [apply open_step_intro; [apply (step_push _ _ _ _ _ (example_send 1)); reflexivity|reflexivity]|].
  eapply rtc_l; [apply open_step_intro; [apply (step_send _ 0); reflexivity|reflexivity]|].
  eapply rtc_l; [apply open_step_intro; [apply (step_push _ _ _ _ _ (example_send 2)); reflexivity|reflexivity]|].
  eapply rtc_l; [apply open_step_intro; [apply (step_complete _ _ []); reflexivity|reflexivity]|].
  eapply rtc_l; [apply open_step_intro; [apply (step_send _ 0); reflexivity|reflexivity]|].
  eapply rtc_l; [apply open_step_intro; [apply (step_complete _ _ []); reflexivity|reflexivity]|].
  reflexivity.
Qed.

Lemma native_queue_fifo_witness :
  let q := mkNativeQueue (example_native example_bound []) 0 [] [example_send 1; example_send 2] [example_send 1; example_send 2] in
  handed q = pushed q.
Proof. exact (proj2 (native_queue_fifo example_bound _) eq_refl example_open_run eq_refl eq_refl). Defined.

(** The packet is pushed while the handle is closed, the handle is opened, another is pushed. *)
Lemma closed_send_blocks_queue_witness :
  queue_step (queue_start Closed) (mkNativeQueue (example_native Closed [example_send 1]) 1 [] [example_send 1] []) ∧
  handed (mkNativeQueue (example_native example_bound [example_send 1; example_send 2]) 0 [] [example_send 1; example_send 2] []) = [].
Proof.
  apply (closed_send_blocks_queue (queue_start Closed) _
    (mkNativeQueue (example_native Closed [example_send 1]) 0 [] [example_send 1] []) _ (example_send 1)).
  1-5: reflexivity.
  - apply (step_send (example_native Closed [example_send 1]) 0 [] [example_send 1] [] (example_send 1)). reflexivity.
  - reflexivity.
  - eapply rtc_l; [apply (step_handle _ _ _ _ _ example_bound)|].
    eapply rtc_l; [apply (step_push _ _ _ _ _ (example_send 2)); reflexivity|]. reflexivity.
Defined.
