(* ===== verification/ServiceLife.v ===== *)
(** * The life of a service: [Service], and the wait of [mrudp_close_service]

    A service is shared: its handle and every socket made with it hold a strong pointer, and so
    does the thread that is closing it. Whoever gives up the last pointer runs the destructor.
    [mrudp_close_service] may wait for that: it leaves a pointer to a [Close] on its own stack in
    the service, and the destructor sets the value there. *)

From S2P Require Import Prelude MemCopy Packet ReceiveQueue Types Asio.
From stdpp Require Import gmap.
#[local] Open Scope Z_scope.

(** Where the call of [mrudp_close_service] is. *)
Inductive Closer := NotCalled | Releasing | Waiting | Returned.
#[export] Instance Closer_eq_dec : EqDecision Closer.
Proof. solve_decision. Defined.

(** [Service::Close], on the stack of the call. *)
Record Close := mkClose { value : bool }.

Record Service := mkService {
  scheduler : bool;              (* the scheduler is there and open *)
  imp : option ServiceImp;
  close : bool;                  (* points to the [Close] of the call *)
}.

Record Life := mkLife {
  service : option Service;      (* [None] once destroyed *)
  ended : option ServiceImp;     (* the [ServiceImp] as the destructor left it *)
  handle : bool;                 (* the handle's cell holds a pointer *)
  sockets : gset nat;            (* the sockets, each with a pointer *)
  closer : Closer;
  waits : bool;                  (* waitForFinish *)
  close_ : Close;
}.

Abbreviation L := (M Life).

(** ** Operations *)

Section operations.
Context (defaults : OptionsImp) (hardware_concurrency : Z).

Definition Service_new (options : option OptionsImp) : Service :=
  mkService true (Some (ServiceImp_init defaults options)) false.

(** [Service::open]; the system numbers the threads from [first]. *)
Definition Service_open (first : nat) (s : Service) : option Service :=
  i ← imp s; i' ← ServiceImp_start hardware_concurrency first i;
  Some (mkService (scheduler s) (Some i') (close s)).

Definition mrudp_service_ex (options : option OptionsImp) (first : nat) : option Life :=
  s ← Service_open first (Service_new options);
  Some (mkLife (Some s) None true ∅ NotCalled false (mkClose false)).

(** [Service::~Service], on the thread [self]. The [Close] is gone when its call has returned. *)
Definition Service_destroy (self : nat) : L unit := λ l,
  match service l with
  | None => None
  | Some s =>
    i ← imp s;
    if close s && bool_decide (closer l = Returned) then None
    else Some (tt, mkLife None (Some (ServiceImp_stop self i)) (handle l) (sockets l) (closer l) (waits l)
                     (if close s then mkClose true else close_ l))
  end.

(** The pointers to the service. *)
Definition owned (l : Life) : bool :=
  handle l || negb (bool_decide (sockets l = ∅)) || bool_decide (closer l = Releasing).

(** Giving up a pointer: the last one destroys the service. *)
Definition release (self : nat) : L unit :=
  l ← mget; if owned l then mret tt else Service_destroy self.

(** [mrudp_close_service] up to [service = nullptr]: the pointer is taken out of the handle. *)
Definition close_begin (waitForFinish : bool) : L unit := λ l,
  match service l with
  | Some s =>
    if handle l && bool_decide (closer l = NotCalled) then
      Some (tt, mkLife (Some (mkService (scheduler s) (imp s) (waitForFinish || close s))) (ended l) false (sockets l)
                  Releasing waitForFinish (close_ l))
    else None
  | None => None
  end.

(** [service = nullptr], [deleteHandle], and as far as the wait. *)
Definition close_release (self : nat) : L unit :=
  l ← mget;
  if bool_decide (closer l = Releasing) then
    modify (λ l, mkLife (service l) (ended l) (handle l) (sockets l) (if waits l then Waiting else Returned) (waits l) (close_ l));;
    release self
  else ub.

(** The end of the wait. *)
Definition close_wake : L unit :=
  l ← mget;
  if bool_decide (closer l = Waiting) && value (close_ l) then
    modify (λ l, mkLife (service l) (ended l) (handle l) (sockets l) Returned (waits l) (close_ l))
  else ub.

(** [mrudp_socket] and [~Socket]. *)
Definition socket_new (s : nat) : L unit :=
  l ← mget;
  if handle l && negb (bool_decide (s ∈ sockets l)) then
    modify (λ l, mkLife (service l) (ended l) (handle l) ({[s]} ∪ sockets l) (closer l) (waits l) (close_ l))
  else ub.
Definition socket_destroy (s self : nat) : L unit :=
  l ← mget;
  if bool_decide (s ∈ sockets l) then
    modify (λ l, mkLife (service l) (ended l) (handle l) (sockets l ∖ {[s]}) (closer l) (waits l) (close_ l));;
    release self
  else ub.

(** ** Steps *)

Inductive Act := CloseBegin (wait : bool) | CloseRelease (self : nat) | CloseWake | SocketNew (s : nat) | SocketDestroy (s self : nat).

Definition act (a : Act) : L unit :=
  match a with
  | CloseBegin w => close_begin w
  | CloseRelease self => close_release self
  | CloseWake => close_wake
  | SocketNew s => socket_new s
  | SocketDestroy s self => socket_destroy s self
  end.

(** The acts that can happen in a state. *)
Definition enabled (a : Act) (l : Life) : Prop :=
  match a with
  | CloseBegin _ => handle l = true
  | CloseRelease _ => closer l = Releasing
  | CloseWake => closer l = Waiting ∧ value (close_ l) = true
  | SocketNew s => handle l = true ∧ s ∉ sockets l
  | SocketDestroy s _ => s ∈ sockets l
  end.

Inductive life_reachable : Life → Prop :=
  | life_init o first l : mrudp_service_ex o first = Some l → life_reachable l
  | life_step l a l' : life_reachable l → enabled a l → act a l = Some (tt, l') → life_reachable l'.

(** ** The invariant *)

(** Every thread that [start] made was joined or, when it is the one that stops, detached. *)
Definition at_rest (i : ServiceImp) : Prop :=
  working i = false ∧ io_stopped i = true ∧ Forall (λ r, ∀ n, r ≠ Joinable n) (runners i).

Definition at_work (i : ServiceImp) : Prop := working i = true.

Lemma ServiceImp_stop_at_rest self i : at_work i → at_rest (ServiceImp_stop self i).
Proof.
  unfold at_work, at_rest, ServiceImp_stop. intros ->. split_and!; [done..|]. simpl. apply Forall_fmap, Forall_true.
  intros [n| |]; simpl; [case_decide|..]; done.
Qed.

(** What holds whether or not the service is still there. *)
Record closing_inv (l : Life) : Prop := {
  ci_handle : handle l = true ↔ closer l = NotCalled;
  ci_imp : ∀ s, service l = Some s → ∃ i, imp s = Some i ∧ at_work i;
  ci_close : ∀ s, service l = Some s → close s = (waits l && negb (bool_decide (closer l = NotCalled)));
  ci_returned : closer l = Returned → waits l = true → service l = None;
  ci_waiting : closer l = Waiting → waits l = true;
  ci_value : value (close_ l) = true ↔ service l = None ∧ waits l = true;
}.

Record life_inv (l : Life) : Prop := {
  li_closing : closing_inv l;
  li_owned : is_Some (service l) ↔ owned l = true;
  li_ended : service l = None → ∃ i, ended l = Some i ∧ at_rest i;
}.

Lemma alive l : life_inv l → owned l = true → ∃ s, service l = Some s ∧ value (close_ l) = false.
Proof.
  intros [[_ _ _ _ _ Hv] Ho _] [s Hs]%Ho. exists s. split; [done|].
  destruct (value (close_ l)); [|done]. destruct (proj1 Hv eq_refl) as [? _]. congruence.
Qed.

Lemma release_inv self l :
  closing_inv l → is_Some (service l) → ∃ l', release self l = Some (tt, l') ∧ life_inv l'.
Proof.
  intros Hci [s Hs]. unfold release, mbind, M_bind, mget. destruct (owned l) eqn:Eo.
  { exists l. split; [done|]. split; [done| |congruence]. rewrite Eo. split; [done|by eauto]. }
  destruct Hci as [Hh Hi Hc Hr Hw Hv]. destruct (Hi s Hs) as (i&Ei&Hwk). specialize (Hc s Hs).
  unfold Service_destroy. rewrite Hs, Ei. simpl.
  assert (handle l = false) as Eh by (unfold owned in Eo; by destruct (handle l)).
  assert (closer l ≠ NotCalled) as En by (intros E; apply Hh in E; congruence).
  rewrite bool_decide_eq_false_2, andb_true_r in Hc by done.
  assert (close s && bool_decide (closer l = Returned) = false) as ->.
  { rewrite Hc. apply andb_false_iff. destruct (waits l) eqn:Ew; [right|by left]. apply bool_decide_eq_false.
    intros E. specialize (Hr E eq_refl). congruence. }
  eexists. split; [done|]. split; [split; simpl; try done| |]; simpl.
  - rewrite Hc. destruct (waits l); simpl; [done|]. rewrite Hv. naive_solver.
  - split; [by intros [? ?]|]. unfold owned in *. simpl. by rewrite Eo.
  - intros _. eexists. split; [done|]. by apply ServiceImp_stop_at_rest.
Qed.

Lemma close_begin_inv w l :
  life_inv l → handle l = true → ∃ l', close_begin w l = Some (tt, l') ∧ life_inv l'.
Proof.
  intros Hl He. destruct (alive l Hl) as (s&Hs&Ev); [unfold owned; by rewrite He|].
  destruct Hl as [[Hh Hi Hc Hr Hw Hv] Ho Hd]. assert (closer l = NotCalled) as En by (by apply Hh).
  specialize (Hc s Hs). rewrite bool_decide_eq_true_2, andb_false_r in Hc by done.
  unfold close_begin. rewrite Hs, He, bool_decide_eq_true_2 by done. eexists. split; [done|].
  split; [split; simpl; try done| |done]; simpl.
  - intros s' [= <-]. simpl. by apply Hi.
  - intros s' [= <-]. simpl. by rewrite Hc, orb_false_r, andb_true_r.
  - rewrite Ev. naive_solver.
  - unfold owned. simpl. rewrite orb_true_r. split; [done|by eauto].
Qed.

Lemma close_release_inv self l :
  life_inv l → closer l = Releasing → ∃ l', close_release self l = Some (tt, l') ∧ life_inv l'.
Proof.
  intros Hl He. destruct (alive l Hl) as (s&Hs&Ev).
  { unfold owned. rewrite (bool_decide_eq_true_2 (closer l = Releasing)) by done. apply orb_true_r. }
  destruct Hl as [[Hh Hi Hc Hr Hw Hv] Ho Hd].
  unfold close_release, mbind, M_bind, mget. rewrite bool_decide_eq_true_2 by done. unfold modify. cbn [fst snd].
  apply release_inv; [|by eauto]. split; simpl; try done.
  - rewrite Hh, He. by destruct (waits l).
  - intros s' Hs'. rewrite (Hc s' Hs'), He. by destruct (waits l).
  - by destruct (waits l).
  - by destruct (waits l).
Qed.

Lemma close_wake_inv l :
  life_inv l → closer l = Waiting → value (close_ l) = true → ∃ l', close_wake l = Some (tt, l') ∧ life_inv l'.
Proof.
  intros [[Hh Hi Hc Hr Hw Hv] Ho Hd] He Ev. destruct (proj1 Hv Ev) as [Hs Hwt].
  unfold close_wake, mbind, M_bind, mget. rewrite bool_decide_eq_true_2, Ev by done. unfold modify.
  eexists. split; [done|]. split; [split; simpl; try done| |done]; simpl.
  - by rewrite Hh, He.
  - intros s Hs'. congruence.
  - rewrite Ho. unfold owned. simpl. rewrite He. by rewrite (bool_decide_eq_false_2 (Waiting = Releasing)) by done.
Qed.

Lemma socket_new_inv s l :
  life_inv l → handle l = true → s ∉ sockets l → ∃ l', socket_new s l = Some (tt, l') ∧ life_inv l'.
Proof.
  intros Hl He Hs'. destruct (alive l Hl) as (x&Hx&Ev); [unfold owned; by rewrite He|].
  destruct Hl as [Hci Ho Hd]. unfold socket_new, mbind, M_bind, mget. rewrite He, bool_decide_eq_false_2 by done. simpl.
  unfold modify. eexists. split; [done|]. split; [by destruct Hci; split| |done]. simpl.
  unfold owned. simpl. rewrite He. split; [done|by eauto].
Qed.

Lemma socket_destroy_inv s self l :
  life_inv l → s ∈ sockets l → ∃ l', socket_destroy s self l = Some (tt, l') ∧ life_inv l'.
Proof.
  intros Hl He. destruct (alive l Hl) as (x&Hx&Ev).
  { unfold owned. rewrite (bool_decide_eq_false_2 (sockets l = ∅)) by set_solver. by destruct (handle l). }
  destruct Hl as [Hci Ho Hd]. unfold socket_destroy, mbind, M_bind, mget. rewrite bool_decide_eq_true_2 by done.
  unfold modify. apply release_inv; [by destruct Hci; split|by eauto].
Qed.

Lemma life_inv_step a l : life_inv l → enabled a l → ∃ l', act a l = Some (tt, l') ∧ life_inv l'.
Proof.
  intros Hl He. destruct a as [w|self| |s|s self]; simpl in He; cbn [act].
  - by apply close_begin_inv.
  - by apply close_release_inv.
  - destruct He. by apply close_wake_inv.
  - destruct He. by apply socket_new_inv.
  - by apply socket_destroy_inv.
Qed.

Lemma life_reachable_inv l : life_reachable l → life_inv l.
Proof.
  induction 1 as [o first l E|l a l' _ IH He E].
  - unfold mrudp_service_ex, Service_open, ServiceImp_start in E. simpl in E.
    case_match; [|done]. simplify_eq/=. split; [split; simpl; try done|done|done].
    + intros s [= <-]. by eexists.
    + by intros s [= <-].
    + simpl. naive_solver.
  - destruct (life_inv_step a l IH He) as (l1&E1&H1). congruence.
Qed.

(** The sockets destroyed one after another, by the thread [self]. *)
Fixpoint destroy_all (self : nat) (ss : list nat) : L unit :=
  match ss with
  | [] => mret tt
  | s :: ss => socket_destroy s self;; destroy_all self ss
  end.

(** A call that waits is waiting, or has returned, from [close_release] on. *)
Definition released (l : Life) : Prop := closer l = Waiting ∨ closer l = Returned.

Lemma release_frame self l l' :
  release self l = Some (tt, l') → closer l' = closer l ∧ sockets l' = sockets l.
Proof.
  unfold release, Service_destroy, mbind, M_bind, mget. case_match; [by intros [= <-]|].
  case_match; [|done]. simpl. destruct (imp s); [|done]. simpl. case_match; [done|]. by intros [= <-].
Qed.

Lemma destroy_all_ok self ss l :
  life_inv l → released l → NoDup ss → list_to_set ss = sockets l →
  ∃ l', destroy_all self ss l = Some (tt, l') ∧ life_inv l' ∧ closer l' = closer l ∧ sockets l' = ∅.
Proof.
  revert l. induction ss as [|s ss IH]; intros l Hl Hr Hnd Hss; simpl in *.
  { exists l. by rewrite <-Hss. }
  apply NoDup_cons in Hnd as [Hns Hnd]. destruct (socket_destroy_inv s self l Hl) as (l1&E1&H1); [set_solver|].
  unfold mbind, M_bind. rewrite E1. unfold socket_destroy, mbind, M_bind, mget, modify in E1.
  rewrite bool_decide_eq_true_2 in E1 by set_solver. apply release_frame in E1 as [Ec Es]. simpl in *.
  destruct (IH l1 H1) as (l2&E2&H2&Ec2&Es2); [unfold released; by rewrite Ec|done| |].
  { rewrite Es, <-Hss. apply set_eq. intros x. rewrite elem_of_difference, elem_of_union, elem_of_singleton, elem_of_list_to_set.
    split; [|naive_solver]. intros Hx. split; [by right|]. by intros ->. }
  exists l2. by rewrite Ec2, Ec.
Qed.
End operations.

(** C37: the service is there exactly as long as somebody holds a pointer to it; everything that can
    happen is defined (the destructor never writes to the [Close] of a call that has returned); a
    call of [mrudp_close_service] that waits returns only when the service is destroyed, its
    [io_service] stopped and its threads joined (the thread that destroys it, if one of them,
    detached); and such a call does return, once the sockets left are destroyed. *)
Theorem service_close_waits defaults hardware_concurrency self l :
  life_reachable defaults hardware_concurrency l →
  (is_Some (service l) ↔ owned l = true) ∧
  (∀ a, enabled a l → ∃ l', act a l = Some (tt, l')) ∧
  (closer l = Returned → waits l = true → service l = None ∧ ∃ i, ended l = Some i ∧ at_rest i) ∧
  (closer l = Waiting →
   ∃ l1 l2, destroy_all self (elements (sockets l)) l = Some (tt, l1) ∧ service l1 = None ∧
            close_wake l1 = Some (tt, l2) ∧ closer l2 = Returned).
Proof.
  intros Hl%life_reachable_inv. pose proof Hl as [[Hh _ _ Hr Hw Hv] Ho Hd]. split_and!; [done| | |].
  - intros a He. destruct (life_inv_step a l Hl He) as (l'&E&_). eauto.
  - eauto.
  - intros Ec. destruct (destroy_all_ok self (elements (sockets l)) l Hl) as (l1&E1&H1&Ec1&Es1);
      [by left|apply NoDup_elements|apply list_to_set_elements_L|].
    assert (service l1 = None) as Hn.
    { apply eq_None_not_Some. rewrite (li_owned l1 H1). unfold owned. rewrite Es1, Ec1, Ec.
      destruct (handle l1) eqn:Eh; [|done]. apply (ci_handle l1 (li_closing l1 H1)) in Eh. congruence. }
    rewrite Ec in Ec1. assert (value (close_ l1) = true) as Ev.
    { apply (ci_value l1 (li_closing l1 H1)). split; [done|]. by apply (ci_waiting l1 (li_closing l1 H1)). }
    exists l1. unfold close_wake, mbind, M_bind, mget. rewrite Ec1, Ev. by eexists.
Qed.

(** A service with a socket, closed while the call waits for it. *)
Definition opened_life : Life :=
  default (mkLife None None false ∅ Returned false (mkClose false)) (mrudp_service_ex systemDefaultOptions 4 None 0).
Definition after (a : Act) (l : Life) : Life := from_option snd l (act a l).
Definition waiting_life : Life := after (CloseRelease 9) (after (CloseBegin true) (after (SocketNew 7) opened_life)).

Lemma service_close_waits_witness :
  closer waiting_life = Waiting ∧ owned waiting_life = true ∧
    ∃ l1 l2, destroy_all 9 (elements (sockets waiting_life)) waiting_life = Some (tt, l1) ∧ service l1 = None ∧
             close_wake l1 = Some (tt, l2) ∧ closer l2 = Returned.
Proof.
  split; [reflexivity|]. split; [reflexivity|].
  refine (proj2 (proj2 (proj2 (service_close_waits systemDefaultOptions 4 9 waiting_life _))) _); [|reflexivity].
  assert (∀ a l, life_reachable systemDefaultOptions 4 l → enabled a l → is_Some (act a l) →
    life_reachable systemDefaultOptions 4 (after a l)) as Hstep.
  { intros a l Hl He [[[] l'] E]. unfold after. rewrite E. exact (life_step _ _ l a l' Hl He E). }
  unfold waiting_life. repeat apply Hstep; try (vm_compute; by eauto).
  - apply (life_init _ _ None 0). reflexivity.
Defined.
