(* ===== verification/Proxy.v ===== *)
(** * The proxy: [Proxy.cpp], [mrudp_proxy.cpp]

    A pair of proxies tunnels connections: what clients send to one proxy is queued as messages in
    [out], flushed by the ticker as one payload over a reliable connection, the wire, reassembled
    in [in] at the other proxy and dispatched there to connections of its own.

    The proxy is a client of the C interface, which is the class [Mrudp] here: [ProxyApi.v] shows
    that the interface modelled in [Api.v] is an instance. Calls run on the library's state [W].
    Closing a connection runs the close callback inside the call, so [mrudp_close_connection] is
    given in its two halves, before and after the callback.

    The entries of [OrderedMap<ProxyID, ProxyConnection>] are nodes on a heap: callbacks hold
    pointers to them, and moving the map moves the nodes along. A node that is gone when its pointer
    is followed, and a handle that was freed, make the computation undefined. *)

From S2P Require Import Prelude MemCopy Containers Packet ReceiveQueue Types SendQueue.

(** ** Constants and structures *)

Definition ProxyID_SERVER : Z := 0xFF000000.
Definition ProxyID_CONNECTION : Z := u32 (Z.lnot ProxyID_SERVER).
Definition proxyProbeDelay : Z := 30.
Definition maxOutstandingMessages : Z := 16.

Module ProxyMode.
Inductive Enum := NONE | WIRE | CONNECTION.
End ProxyMode.

Module ProxyPacketMode.
Definition OPEN : Z := 0.
Definition CLOSE : Z := 1.
Definition RELIABLE : Z := 2.
Definition UNRELIABLE : Z := 3.
End ProxyPacketMode.

Record ProxyPacketHeader := mkProxyPacketHeader {
  pp_size : Z;   (* u16 *)
  pp_id : Z;     (* u32 *)
  pp_type : Z;   (* u8 *)
}.

Definition sizeof_ProxyPacketHeader : Z := 7.
Definition encode_ProxyPacketHeader (h : ProxyPacketHeader) : bytes :=
  le_encode 2 (pp_size h) ++ le_encode 4 (pp_id h) ++ le_encode 1 (pp_type h).
Definition decode_ProxyPacketHeader (bs : bytes) : ProxyPacketHeader :=
  mkProxyPacketHeader (le_decode (slice 0 2 bs)) (le_decode (slice 2 4 bs)) (le_decode (slice 6 1 bs)).

Record mrudp_proxy_options := mkProxyOptions {
  magic_wire : Z;                    (* u64 *)
  magic_connection : Z;              (* u64 *)
  tick_interval_ms : Z;              (* u16 *)
  maximum_wire_retry_attempts : Z;   (* u16 *)
  proxy_compression_level : Z;       (* u8 *)
}.

Definition options_default : mrudp_proxy_options := mkProxyOptions 42 13 250 16384 9.

Definition incrementProxyID (id : Z) : Z :=
  let server := Z.land id ProxyID_SERVER in
  Z.lor server (Z.land (u32 (id + 1)) ProxyID_CONNECTION).

(** ** Reading and writing *)

(** A read position: the memory from it on, and how much of it may be read. *)
Record DataIn := mkDataIn { in_data : bytes; in_remaining : Z }.

(** [None] data for the code -1; the outer [None] is a read outside the memory. *)
Definition read (i : DataIn) (size : Z) : option (option bytes * DataIn) :=
  if in_remaining i <? size then Some (None, i)
  else
    d ← mem_copy (replicate (Z.to_nat size) Byte.x00) (in_data i) (Z.to_nat size);
    Some (Some d, mkDataIn (drop (Z.to_nat size) (in_data i)) (in_remaining i - size)).

Definition skip (i : DataIn) (size : Z) : DataIn :=
  if in_remaining i <? size then i
  else mkDataIn (drop (Z.to_nat size) (in_data i)) (in_remaining i - size).

Record DataOut := mkDataOut { out_data : bytes; out_remaining : Z; out_size : Z }.

(** [write(DataOut &, const char *, size_t)], whose code no caller looks at. *)
Definition write_DataOut (o : DataOut) (data : bytes) : option DataOut :=
  let size := Z.of_nat (length data) in
  if size_t (out_remaining o) <? size then Some o
  else
    d ← memcpy_at (out_data o) (out_size o) data 0 size;
    Some (mkDataOut d (out_remaining o - size) (out_size o + size)).

(** [write(V &, const char *, size_t)] for a [SizedVector] *)
Definition write_SizedVector (q : SizedVector) (data : bytes) : option SizedVector :=
  let at_ := sv_size q in
  let q := sv_resize (size_t (sv_size q + Z.of_nat (length data))) q in
  v ← memcpy_at (sv_v q) at_ data 0 (Z.of_nat (length data));
  Some (mkSizedVector v (sv_size q)).

(** [write(V &, const mrudp_addr_t &)]: the character 4, the address and the port of a
    [sockaddr_in], as they lie in memory. *)
Definition sin_port (a : Address) : bytes := slice 2 2 a.
Definition sin_addr (a : Address) : bytes := slice 4 4 a.
Definition char_4 : byte := Byte.x34.
Definition write_addr (a : Address) : list bytes := [[char_4]; sin_addr a; sin_port a].

(** The first packet of a connection through a proxy, as [connect] writes it. *)
Definition connect_data (remote : Address) (connectionMagic : Z) : bytes :=
  le_encode 8 connectionMagic ++ concat (write_addr remote).

Definition write_all {Q} (write : Q → bytes → option Q) (q : Q) (l : list bytes) : option Q :=
  foldl (λ q d, q ← q; write q d) (Some q) l.

(** [read(V &, mrudp_addr_t &)]. The union is a local variable that is not initialised: the bytes
    the function does not assign keep what the stack held, [garbage]. *)
Definition read_addr (garbage : bytes) (i : DataIn) : option (option Address * DataIn) :=
  '(t, i) ← read i 1;
  match t with
  | Some [c] =>
    if decide (c = char_4) then
      '(a, i) ← read i 4;
      match a with
      | None => Some (None, i)
      | Some a =>
        '(p, i) ← read i 2;
        match p with
        | None => Some (None, i)
        | Some p => Some (Some (le_encode 2 AF_INET ++ p ++ a ++ drop 8 garbage), i)
        end
      end
    else Some (None, i)
  | _ => Some (None, i)
  end.

(** ** The interface the proxy uses *)

(** The null handle is [None]. *)
Abbreviation Handle := (option positive).
Abbreviation NodeRef := positive.

Class Mrudp (W : Type) := {
  (** the memory behind a connection handle is allocated *)
  is_live : W → positive → Prop;
  api_socket : Handle → Address → M W Handle;
  api_listen : Handle → M W Z;
  api_close_socket : Handle → M W Z;
  api_connect : Handle → Address → option ConnectionOptions → M W Handle;
  api_accept : Handle → option ConnectionOptions → M W Z;
  api_send : Handle → bytes → bool → M W Z;
  (** [mrudp_close_connection] up to the close callback, whether the callback runs, and the rest *)
  api_close_begin : Handle → M W (Z * bool);
  api_close_end : Handle → M W unit;
  api_state : Handle → M W (Z * option Z);
  api_options : Handle → M W (Z * option ConnectionOptions);
  api_options_set : Handle → ConnectionOptions → M W Z;
}.

(** ** State *)

Record ProxyConnection := mkProxyConnection {
  pc_id : Z;
  pc_mode : ProxyMode.Enum;
  pc_connection : Handle;
}.

Record Proxy := mkProxy {
  closed : bool;
  clientSocket : Handle;
  serverSocket : Handle;
  options : mrudp_proxy_options;
  wire : Handle;
  out : SizedVector;
  in_ : CircularBuffer;
  scratch0 : SizedVector;
  scratch1 : SizedVector;
  nextProxyID : Z;
  connections : gmap Z NodeRef;
}.

(** A message between proxies. *)
Inductive Message :=
  | MOpen (id : Z) (a : Address)
  | MClose (id : Z)
  | MData (id : Z) (reliable : bool) (data : bytes)
  | MOther (h : ProxyPacketHeader).

(** What the proxy does to the outside: data sent with the code it got, messages dispatched. *)
Inductive Event :=
  | Sent (h : Handle) (data : bytes) (reliable : bool) (code : Z)
  | Dispatched (m : Message).

(** The proxy, the heap of its connection entries, the user data of the library's connections, the
    library and the events so far. *)
Record World {W : Type} := mkWorld {
  proxy : Proxy;
  nodes : gmap NodeRef ProxyConnection;
  users : gmap positive NodeRef;
  lib : W;
  events : list Event;
}.
Arguments World : clear implicits.

Section setters.
Context {W : Type}.
Implicit Types w : World W.
Definition set_proxy (f : Proxy → Proxy) w : World W := mkWorld W (f (proxy w)) (nodes w) (users w) (lib w) (events w).
Definition set_nodes (x : gmap NodeRef ProxyConnection) w : World W := mkWorld W (proxy w) x (users w) (lib w) (events w).
Definition set_users (x : gmap positive NodeRef) w : World W := mkWorld W (proxy w) (nodes w) x (lib w) (events w).
Definition set_lib (x : W) w : World W := mkWorld W (proxy w) (nodes w) (users w) x (events w).
Definition emit (e : Event) : M (World W) unit :=
  modify (λ w, mkWorld W (proxy w) (nodes w) (users w) (lib w) (events w ++ [e])).
End setters.

Section proxy_setters.
Implicit Types p : Proxy.
Definition set_wire (x : Handle) p : Proxy :=
  mkProxy (closed p) (clientSocket p) (serverSocket p) (options p) x (out p) (in_ p) (scratch0 p) (scratch1 p) (nextProxyID p) (connections p).
Definition set_out (x : SizedVector) p : Proxy :=
  mkProxy (closed p) (clientSocket p) (serverSocket p) (options p) (wire p) x (in_ p) (scratch0 p) (scratch1 p) (nextProxyID p) (connections p).
Definition set_in (x : CircularBuffer) p : Proxy :=
  mkProxy (closed p) (clientSocket p) (serverSocket p) (options p) (wire p) (out p) x (scratch0 p) (scratch1 p) (nextProxyID p) (connections p).
Definition set_scratch0 (x : SizedVector) p : Proxy :=
  mkProxy (closed p) (clientSocket p) (serverSocket p) (options p) (wire p) (out p) (in_ p) x (scratch1 p) (nextProxyID p) (connections p).
Definition set_scratch1 (x : SizedVector) p : Proxy :=
  mkProxy (closed p) (clientSocket p) (serverSocket p) (options p) (wire p) (out p) (in_ p) (scratch0 p) x (nextProxyID p) (connections p).
Definition set_nextProxyID (x : Z) p : Proxy :=
  mkProxy (closed p) (clientSocket p) (serverSocket p) (options p) (wire p) (out p) (in_ p) (scratch0 p) (scratch1 p) x (connections p).
Definition set_connections (x : gmap Z NodeRef) p : Proxy :=
  mkProxy (closed p) (clientSocket p) (serverSocket p) (options p) (wire p) (out p) (in_ p) (scratch0 p) (scratch1 p) (nextProxyID p) x.
Definition set_closed (x : bool) p : Proxy :=
  mkProxy x (clientSocket p) (serverSocket p) (options p) (wire p) (out p) (in_ p) (scratch0 p) (scratch1 p) (nextProxyID p) (connections p).
End proxy_setters.

Section handlers.
Context {W : Type} `{!Mrudp W, !Zlib}.
(** what the platform's [memcpy] does on overlapping regions, and what the stack held *)
Context (memmoves : bool) (garbage : bytes).
Abbreviation P := (M (World W)).

(** ** Steps of the handlers *)

(** A call of the library. *)
Definition api {A} (m : M W A) : P A := λ w, '(a, x) ← m (lib w); Some (a, set_lib x w).

(** Following a pointer to an entry, and assigning to the entry. *)
Definition deref (n : NodeRef) : P ProxyConnection := λ w, c ← nodes w !! n; Some (c, w).
Definition assign (n : NodeRef) (c : ProxyConnection) : P unit := modify (λ w, set_nodes (<[n := c]> (nodes w)) w).
Definition set_connection (n : NodeRef) (h : Handle) : P unit :=
  c ← deref n; assign n (mkProxyConnection (pc_id c) (pc_mode c) h).
Definition set_mode (n : NodeRef) (m : ProxyMode.Enum) : P unit :=
  c ← deref n; assign n (mkProxyConnection (pc_id c) m (pc_connection c)).

(** [proxy->connections[id]]: a missing entry is created with a null connection. *)
Definition at_connections (id : Z) : P NodeRef := λ w,
  match connections (proxy w) !! id with
  | Some n => Some (n, w)
  | None =>
    let n := fresh (dom (nodes w)) in
    Some (n, set_proxy (λ p, set_connections (<[id := n]> (connections p)) p)
               (set_nodes (<[n := mkProxyConnection 0 ProxyMode.NONE None]> (nodes w)) w))
  end.

(** [mrudp_send] reads [size] bytes at [data], unless the handle is null. *)
Definition mrudp_send (h : Handle) (data : bytes) (size : Z) (reliable : bool) : P Z :=
  if decide (h ≠ None ∧ Z.of_nat (length data) < size) then ub
  else
    let d := take (Z.to_nat size) data in
    code ← api (api_send h d reliable);
    emit (Sent h d reliable code);;
    mret code.

(** [mrudp_connect_ex] with an entry as the user data of the connection. *)
Definition mrudp_connect_ex (s : Handle) (a : Address) (o : ConnectionOptions) (n : NodeRef) : P Handle :=
  h ← api (api_connect s a (Some o));
  match h with
  | Some h => modify (λ w, set_users (<[h := n]> (users w)) w)
  | None => mret tt
  end;;
  mret h.

Definition mrudp_accept_ex (h : Handle) (o : ConnectionOptions) (n : NodeRef) : P Z :=
  code ← api (api_accept h (Some o));
  match h with
  | Some h => when (code =? MRUDP_OK) (modify (λ w, set_users (<[h := n]> (users w)) w))
  | None => mret tt
  end;;
  mret code.

(** ** Queues *)

Definition proxy_send_queue (n : NodeRef) (mode : Z) (data : bytes) : P Z :=
  c ← deref n;
  let header := mkProxyPacketHeader (u16 (Z.of_nat (length data))) (pc_id c) mode in
  p ← gets proxy;
  q ← lift (write_SizedVector (out p) (encode_ProxyPacketHeader header));
  q ← lift (write_SizedVector q data);
  modify (set_proxy (set_out q));;
  mret MRUDP_OK.

Definition proxy_receive_queue (data : bytes) : P Z :=
  p ← gets proxy;
  b ← lift (cb_write memmoves (External data) (Z.of_nat (length data)) (in_ p));
  modify (set_proxy (set_in b));;
  mret MRUDP_OK.

(** ** Closing *)

(** [on_connection_close] of an entry of a proxy: the entry found under the id is freed. *)
Definition on_connection_close_entry (n : NodeRef) : P unit :=
  c ← deref n;
  p ← gets proxy;
  match connections p !! pc_id c with
  | None => mret tt
  | Some i =>
    modify (set_proxy (λ p, set_connections (delete (pc_id c) (connections p)) p));;
    modify (λ w, set_nodes (delete i (nodes w)) w)
  end.

Definition on_wire_close (n : NodeRef) : P Z := on_connection_close_entry n;; mret 0.

Definition on_proxy_close (n : NodeRef) : P Z :=
  proxy_send_queue n ProxyPacketMode.CLOSE [];;
  on_connection_close_entry n;;
  mret 0.

(** The close callback. It closes its connection, which runs no second callback. *)
Definition on_connection_close (close : Handle → P Z) (n : NodeRef) : P Z :=
  c ← deref n;
  close (pc_connection c);;
  set_connection n None;;
  c ← deref n;
  match pc_mode c with
  | ProxyMode.WIRE => on_wire_close n
  | ProxyMode.CONNECTION => on_proxy_close n
  | ProxyMode.NONE => mret (-1)
  end.

Fixpoint mrudp_close_connection_ (fuel : nat) (h : Handle) : P Z :=
  '(code, callback) ← api (api_close_begin h);
  (if (callback : bool) then
     match fuel, h with
     | S fuel, Some h =>
       w ← mget;
       n ← lift (users w !! h);
       on_connection_close (mrudp_close_connection_ fuel) n;;
       mret tt
     | _, _ => ub
     end
   else mret tt);;
  if code =? MRUDP_OK then api (api_close_end h);; mret code else mret code.

Definition mrudp_close_connection : Handle → P Z := mrudp_close_connection_ 1.

(** The callback as the library calls it. *)
Definition on_close_callback (n : NodeRef) : P Z := on_connection_close mrudp_close_connection n.

Definition initiate_connection_close (id : Z) : P unit :=
  p ← gets proxy;
  match connections p !! id with
  | None => mret tt
  | Some n =>
    c ← deref n;
    set_connection n None;;
    mrudp_close_connection (pc_connection c);;
    mret tt
  end.

(** ** Opening *)

Definition on_connection_open (mode : ProxyMode.Enum) (id : Z) (address : Address) : P NodeRef :=
  n ← at_connections id;
  c ← deref n;
  assign n (mkProxyConnection id mode (pc_connection c));;
  let d := mrudp_default_connection_options in
  let o := mkOptions
    (mkCoalesce MRUDP_COALESCE_PACKET 5 (compression_level (coalesce_reliable d)))
    (mkCoalesce MRUDP_COALESCE_NONE (delay_ms (coalesce_unreliable d)) (compression_level (coalesce_unreliable d)))
    proxyProbeDelay (Types.maximum_retry_attempts d) in
  p ← gets proxy;
  h ← mrudp_connect_ex (clientSocket p) address o n;
  set_connection n h;;
  mret n.

(** [on_socket_accept] and [on_wire_socket_accept], which differ in the retry attempts. *)
Definition accept_entry (attempts : Z) (connection : Handle) : P Z :=
  p ← gets proxy;
  let proxyID := nextProxyID p in
  modify (set_proxy (set_nextProxyID (incrementProxyID proxyID)));;
  n ← at_connections proxyID;
  assign n (mkProxyConnection proxyID ProxyMode.NONE connection);;
  let d := mrudp_default_connection_options in
  let o := mkOptions
    (mkCoalesce MRUDP_COALESCE_PACKET (delay_ms (coalesce_reliable d)) (compression_level (coalesce_reliable d)))
    (mkCoalesce MRUDP_COALESCE_NONE (delay_ms (coalesce_unreliable d)) (compression_level (coalesce_unreliable d)))
    proxyProbeDelay attempts in
  mrudp_accept_ex connection o n.

Definition on_socket_accept (connection : Handle) : P Z :=
  accept_entry (Types.maximum_retry_attempts mrudp_default_connection_options) connection.

(** [uint16_t] to [int16_t] *)
Definition on_wire_socket_accept (connection : Handle) : P Z :=
  p ← gets proxy;
  accept_entry (int16 (maximum_wire_retry_attempts (options p))) connection.

(** ** The wire *)

Fixpoint on_wire_packet_loop (fuel : nat) (i : DataIn) : P Z :=
  match fuel with
  | O => ub
  | S fuel =>
    if in_remaining i =? 0 then mret 0
    else
      '(h, i) ← lift (read i sizeof_ProxyPacketHeader);
      match h with
      | None => mret (-1)
      | Some h =>
        let header := decode_ProxyPacketHeader h in
        if pp_type header =? ProxyPacketMode.OPEN then
          '(a, i) ← lift (read_addr garbage i);
          match a with
          | None => mret (-1)
          | Some address =>
            emit (Dispatched (MOpen (pp_id header) address));;
            on_connection_open ProxyMode.CONNECTION (pp_id header) address;;
            on_wire_packet_loop fuel i
          end
        else if pp_type header =? ProxyPacketMode.CLOSE then
          emit (Dispatched (MClose (pp_id header)));;
          initiate_connection_close (pp_id header);;
          on_wire_packet_loop fuel i
        else if (pp_type header =? ProxyPacketMode.RELIABLE) || (pp_type header =? ProxyPacketMode.UNRELIABLE) then
          let reliable := pp_type header =? ProxyPacketMode.RELIABLE in
          emit (Dispatched (MData (pp_id header) reliable (take (Z.to_nat (pp_size header)) (in_data i))));;
          p ← gets proxy;
          match connections p !! pp_id header with
          | Some n =>
            c ← deref n;
            mrudp_send (pc_connection c) (in_data i) (pp_size header) reliable;;
            mret tt
          | None => mret tt
          end;;
          on_wire_packet_loop fuel (skip i (pp_size header))
        else
          emit (Dispatched (MOther header));;
          on_wire_packet_loop fuel i
      end
  end.

(** Every round reads a header. *)
Definition on_wire_packet (data : bytes) (size : Z) : P Z :=
  on_wire_packet_loop (S (Z.to_nat size)) (mkDataIn data size).

(** ** Packets of connections *)

Definition on_proxy_packet (n : NodeRef) (data : bytes) (is_reliable : bool) : P Z :=
  proxy_send_queue n (if is_reliable then ProxyPacketMode.RELIABLE else ProxyPacketMode.UNRELIABLE) data.

(** The first packet of a connection says what it is; [rest] is [on_connection_packet]. *)
Definition on_mode_packet (rest : NodeRef → bytes → bool → P Z) (n : NodeRef) (data : bytes) (is_reliable : bool) : P Z :=
  '(m, i) ← lift (read (mkDataIn data (Z.of_nat (length data))) 8);
  match m with
  | None => mret (-1)
  | Some m =>
    let magic := le_decode m in
    p ← gets proxy;
    if magic =? magic_wire (options p) then
      set_mode n ProxyMode.WIRE;;
      c ← deref n;
      modify (set_proxy (set_wire (pc_connection c)));;
      '(_, o) ← api (api_options (pc_connection c));
      match o with
      | None => ub
      | Some o =>
        let r := coalesce_reliable o in
        api (api_options_set (pc_connection c)
          (mkOptions (mkCoalesce MRUDP_COALESCE_STREAM (delay_ms r) (compression_level r))
             (coalesce_unreliable o) (probe_delay_ms o) (Types.maximum_retry_attempts o)))
      end;;
      rest n (in_data i) is_reliable
    else if magic =? magic_connection (options p) then
      '(a, i) ← lift (read_addr garbage i);
      match a with
      | None => mret (-1)
      | Some addr =>
        o ← lift (write_all write_DataOut (mkDataOut (replicate 256 Byte.x00) 256 0) (write_addr addr));
        code ← proxy_send_queue n ProxyPacketMode.OPEN (take (Z.to_nat (out_size o)) (out_data o));
        if mrudp_failed code then mret (-1)
        else
          set_mode n ProxyMode.CONNECTION;;
          rest n (in_data i) is_reliable
      end
    else mret (-1)
  end.

Fixpoint on_connection_packet_ (fuel : nat) (n : NodeRef) (data : bytes) (is_reliable : bool) : P Z :=
  match fuel with
  | O => ub
  | S fuel =>
    if decide (data = []) then mret 0
    else
      c ← deref n;
      match pc_mode c with
      | ProxyMode.NONE => on_mode_packet (on_connection_packet_ fuel) n data is_reliable
      | ProxyMode.WIRE => proxy_receive_queue data
      | ProxyMode.CONNECTION => on_proxy_packet n data is_reliable
      end
  end.

(** [on_mode_packet] sets the mode before it passes on the rest. *)
Definition on_connection_packet : NodeRef → bytes → bool → P Z := on_connection_packet_ 2.

(** ** The ticker *)

Definition sizeof_PayloadPacketSize : Z := 4.
Definition sizeof_WasCompressed : Z := 1.
Definition sizeof_UncompressedSize : Z := 4.

(** The first half of [proxy_tick]: everything queued goes out as one payload. *)
Definition tick_send : P unit :=
  p ← gets proxy;
  if sv_empty (out p) then mret tt
  else
    '(code, state) ← api (api_state (wire p));
    match state with
    | Some awaiting =>
      if mrudp_failed code then mret tt
      else if awaiting <? maxOutstandingMessages then
        let sourceLen := sv_size (out p) in
        let s := sv_resize (size_t (sizeof_PayloadPacketSize + sizeof_WasCompressed + sizeof_UncompressedSize + sourceLen))
                   (scratch0 p) in
        let source := take (Z.to_nat sourceLen) (sv_v (out p)) in
        let level := proxy_compression_level (options p) in
        '(v, payloadSize) ← lift (
          match (if 0 <? level then compress2 source sourceLen level else None) with
          | Some dest =>
            v ← memcpy_at (sv_v s) 9 dest 0 (Z.of_nat (length dest));
            v ← memcpy_at v 4 (le_encode 1 1) 0 1;
            v ← memcpy_at v 5 (le_encode 4 (u32 sourceLen)) 0 4;
            Some (v, u32 (sizeof_WasCompressed + sizeof_UncompressedSize + Z.of_nat (length dest)))
          | None =>
            v ← memcpy_at (sv_v s) 4 (le_encode 1 0) 0 1;
            v ← memcpy_at v 5 source 0 sourceLen;
            Some (v, u32 (sizeof_WasCompressed + sourceLen))
          end);
        v ← lift (memcpy_at v 0 (le_encode 4 payloadSize) 0 4);
        mrudp_send (wire p) v (int32 (sizeof_PayloadPacketSize + payloadSize)) true;;
        modify (set_proxy (λ p, set_out (sv_resize 0 (out p)) (set_scratch0 (mkSizedVector v (sv_size s)) p)))
      else mret tt
    | None => mret tt
    end.

(** [in.read(v.data(), size)] *)
Definition in_read (size : Z) : P bytes :=
  p ← gets proxy;
  '(d, b) ← lift (cb_read size (in_ p));
  modify (set_proxy (set_in b));;
  mret d.

Definition fill_scratch (v : SizedVector) (d : bytes) : P SizedVector :=
  x ← lift (memcpy_at (sv_v v) 0 d 0 (Z.of_nat (length d)));
  mret (mkSizedVector x (sv_size v)).

(** A payload that was not compressed, and one that was: the branches of [proxy_tick]. *)
Definition payload_plain (payloadSize : Z) : P Z :=
  modify (set_proxy (λ p, set_scratch0 (sv_resize payloadSize (scratch0 p)) p));;
  d ← in_read payloadSize;
  p ← gets proxy;
  s ← fill_scratch (scratch0 p) d;
  modify (set_proxy (set_scratch0 s));;
  on_wire_packet (sv_v s) (int32 payloadSize).

Definition payload_compressed (payloadSize : Z) : P Z :=
  u ← in_read sizeof_UncompressedSize;
  let uncompressedSize := le_decode u in
  let payloadSize := u32 (payloadSize - sizeof_UncompressedSize) in
  modify (set_proxy (λ p, set_scratch0 (sv_resize payloadSize (scratch0 p)) p));;
  d ← in_read payloadSize;
  p ← gets proxy;
  s ← fill_scratch (scratch0 p) d;
  t ← fill_scratch (sv_resize uncompressedSize (scratch1 p)) (uncompress d uncompressedSize);
  modify (set_proxy (λ p, set_scratch1 t (set_scratch0 s p)));;
  on_wire_packet (sv_v t) (int32 uncompressedSize).

(** The second half of [proxy_tick]: the payloads that have arrived in full. *)
Fixpoint tick_receive_loop (fuel : nat) : P unit :=
  match fuel with
  | O => ub
  | S fuel =>
    p ← gets proxy;
    if size_ (in_ p) <=? sizeof_PayloadPacketSize then mret tt
    else
      packetSize ← lift (cb_peek sizeof_PayloadPacketSize (in_ p));
      let packetSize := le_decode packetSize in
      if size_ (in_ p) <? packetSize + sizeof_PayloadPacketSize then mret tt
      else
        b ← lift (cb_skip sizeof_PayloadPacketSize (in_ p));
        modify (set_proxy (set_in b));;
        wasCompressed ← in_read 1;
        let payloadSize := u32 (packetSize - sizeof_WasCompressed) in
        (if le_decode wasCompressed =? 0 then payload_plain payloadSize else payload_compressed payloadSize);;
        tick_receive_loop fuel
  end.

(** Every round takes at least five bytes out of the buffer. *)
Definition tick_receive : P unit :=
  p ← gets proxy;
  tick_receive_loop (S (Z.to_nat (size_ (in_ p)))).

Definition proxy_tick : P unit :=
  p ← gets proxy;
  match wire p with
  | None => mret tt
  | Some _ => tick_send;; tick_receive
  end.

(** ** Opening and closing a proxy *)

Definition proxy_open (service : Handle) (from : Address) (on to : option Address) (o : mrudp_proxy_options) : P unit :=
  c ← api (api_socket service from);
  s ← match on with Some on => api (api_socket service on) | None => mret c end;
  modify (set_proxy (λ _, mkProxy false c s o None SizedVector_init CircularBuffer_init SizedVector_init
                            SizedVector_init ProxyID_SERVER ∅));;
  match to with
  | Some to =>
    let d := mrudp_default_connection_options in
    let co := mkOptions
      (mkCoalesce MRUDP_COALESCE_STREAM 0 (compression_level (coalesce_reliable d)))
      (mkCoalesce MRUDP_COALESCE_NONE (delay_ms (coalesce_unreliable d)) (compression_level (coalesce_unreliable d)))
      proxyProbeDelay (int16 (maximum_wire_retry_attempts o)) in
    modify (set_proxy (set_nextProxyID (incrementProxyID 0)));;
    n ← at_connections 0;
    c ← deref n;
    assign n (mkProxyConnection 0 ProxyMode.WIRE (pc_connection c));;
    h ← mrudp_connect_ex s to co n;
    modify (set_proxy (set_wire h));;
    mrudp_send h (le_encode 8 (magic_wire o)) 8 true;;
    mret tt
  | None => mret tt
  end;;
  api (api_listen c);;
  if decide (s = c) then mret tt else api (api_listen s);; mret tt.

(** The entries in the order of their ids, taken out of the proxy before they are closed. *)
Definition proxy_close : P unit :=
  modify (set_proxy (set_closed true));;
  p ← gets proxy;
  mrudp_close_connection (wire p);;
  modify (set_proxy (set_wire None));;
  (if decide (serverSocket p = clientSocket p) then mret tt
   else api (api_close_socket (serverSocket p));; mret tt);;
  api (api_close_socket (clientSocket p));;
  p ← gets proxy;
  modify (set_proxy (set_connections ∅));;
  mapM_ (λ n, c ← deref n; mrudp_close_connection (pc_connection c);; mret tt)
    (omap (λ id, connections p !! id) (merge_sort Z.le (elements (dom (connections p)))));;
  modify (λ w, set_nodes (foldr delete (nodes w) (map_to_list (connections p)).*2) w).

(** ** Connecting through a proxy *)

Definition proxy_connect (h : Handle) (remote : Address) (connectionMagic : Z) : P Z :=
  let data := connect_data remote connectionMagic in
  mrudp_send h data (Z.of_nat (length data)) true.

Definition mrudp_connect_ex_proxy (s : Handle) (remote : Address) (o : option ConnectionOptions)
    (proxy_address : Address) (magic : Z) : P Handle :=
  h ← api (api_connect s proxy_address o);
  match h with
  | None => mret None
  | Some _ =>
    code ← proxy_connect h remote magic;
    if mrudp_failed code then
      '(code, _) ← api (api_close_begin h);
      (if code =? MRUDP_OK then api (api_close_end h) else mret tt);;
      mret None
    else mret h
  end.

Definition mrudp_connect_proxy (s : Handle) (remote proxy_address : Address) (magic : Z) : P Handle :=
  mrudp_connect_ex_proxy s remote None proxy_address magic.
End handlers.

(** ** What the proxy relies on *)

Definition usable `{!Mrudp W} (w : W) (h : Handle) : Prop :=
  match h with Some h => is_live w h | None => True end.

(** The promises of the interface, for states [api_ok] of the library. [is_open]: the handle's
    memory still refers to a connection; [armed]: its close callback may yet run. The
    library runs no callback inside a call other than closing. *)
Class MrudpLaws (W : Type) `{!Mrudp W} := {
  api_ok : W → Prop;
  is_open : W → positive → Prop;
  armed : W → positive → Prop;
  (** the socket has room for so many connections *)
  can_connect : W → Handle → nat → Prop;
  open_live w h : is_open w h → is_live w h;
  room_law w s k k' : (k' ≤ k)%nat → can_connect w s k → can_connect w s k';
  send_law w h d r : api_ok w → usable w h → Z.of_nat (length d) < 2 ^ 31 →
    wp (api_send h d r) (λ _ w', api_ok w' ∧ (∀ g, is_live w' g ↔ is_live w g) ∧
      (∀ g, is_open w' g ↔ is_open w g) ∧ (∀ g, armed w' g → armed w g) ∧
      (∀ s k, can_connect w s k → can_connect w' s k)) w;
  state_law w h : api_ok w → usable w h →
    wp (api_state h) (λ '(code, n) w', (code = MRUDP_OK → is_Some n) ∧ api_ok w' ∧ (∀ g, is_live w' g ↔ is_live w g) ∧
      (∀ g, is_open w' g ↔ is_open w g) ∧ (∀ g, armed w' g → armed w g) ∧
      (∀ s k, can_connect w s k → can_connect w' s k)) w;
  (** closing: a null handle and one that is being closed are answered with an error *)
  close_begin_law w h : api_ok w → usable w h →
    wp (api_close_begin h) (λ '(code, callback) w', api_ok w' ∧ (∀ g, is_live w' g ↔ is_live w g) ∧
      (∀ g, is_open w' g ↔ is_open w g ∧ Some g ≠ h) ∧ (∀ g, armed w' g → armed w g ∧ Some g ≠ h) ∧
      (code = MRUDP_OK ↔ ∃ g, h = Some g ∧ is_open w g) ∧
      (callback = true → ∃ g, h = Some g ∧ is_open w g ∧ armed w g) ∧
      (∀ s k, can_connect w s k → can_connect w' s k)) w;
  close_end_law w h : api_ok w → is_live w h →
    wp (api_close_end (Some h)) (λ _ w', api_ok w' ∧ (∀ g, is_live w' g ↔ is_live w g ∧ g ≠ h) ∧
      (∀ g, is_open w' g ↔ is_open w g ∧ g ≠ h) ∧ (∀ g, armed w' g → armed w g) ∧
      (∀ s k, can_connect w s k → can_connect w' s k)) w;
  connect_law w s a o : api_ok w → can_connect w s 1 → Z.of_nat (length a) = sizeof_Address → options_keep o →
    wp (api_connect s a (Some o)) (λ r w', api_ok w' ∧ (∀ k, can_connect w s (S k) → can_connect w' s k) ∧
      match r with
      | None => (∀ g, is_live w' g ↔ is_live w g) ∧ (∀ g, is_open w' g ↔ is_open w g) ∧ (∀ g, armed w' g → armed w g)
      | Some h => ¬ is_live w h ∧ (∀ g, is_live w' g ↔ is_live w g ∨ g = h) ∧
          (∀ g, is_open w' g ↔ is_open w g ∨ g = h) ∧ (∀ g, armed w' g → armed w g ∨ g = h)
      end) w;
  (** a freed handle is freed memory *)
  dead_law w h : ¬ is_live w h →
    (∀ d r, api_send (Some h) d r w = None) ∧ api_state (Some h) w = None ∧ api_close_begin (Some h) w = None;
}.
