(* ===== verification/ProxyApi.v ===== *)
(** * The C interface is a library for the proxy

    [Proxy.v] and the theorems on the tunnel know the library as the class [Mrudp] with its laws.
    Here the interface of [Api.v], with the sockets and connections behind it, is shown to be an
    instance. The system's answers to the calls (random numbers, the time, the code of the native
    open) are functions of the state. *)

From S2P Require Import Prelude MemCopy Containers Packet ReceiveQueue Types SendQueue Compression Float32 Rtt State Retrier Transmit Invariant Sender Connection Closing Lifecycle Socket Api Proxy.

(** ** Connecting leaves other connections alone *)

(** Steps on the connection [r] of a socket. *)
Definition only (r : Ref) (s s' : Socket) : Prop :=
  (∀ q, q ≠ r → store s' !! q = store s !! q) ∧ shortConnectionIDs s' ⊆ shortConnectionIDs s ∧
  is_Some (store s' !! r).

Lemma only_trans r s1 s2 s3 : only r s1 s2 → only r s2 s3 → only r s1 s3.
Proof.
  intros (A1&A2&A3) (B1&B2&B3). split_and!; [|set_solver|done]. intros q Hq. by rewrite B1, A1.
Qed.

Lemma on_connection_only {A} r (m : C A) a s s' : on_connection r m s = Some (a, s') → only r s s'.
Proof.
  unfold on_connection. intros E. destruct (store s !! r) as [c|] eqn:Hr; [|done]. simpl in E.
  destruct (m c) as [[b c']|]; [|done]. injection E as _ <-.
  split_and!; simpl; [|done|by rewrite lookup_insert_eq]. intros q Hq. by rewrite lookup_insert_ne.
Qed.

Lemma insert_only r s s' : insert r s = Some (tt, s') → only r s s'.
Proof. unfold insert. destruct (store s !! r) eqn:Hr; [|done]. intros [= <-]. split_and!; simpl; done. Qed.

Lemma erase_only r s s' : erase r s = Some (tt, s') → only r s s'.
Proof.
  unfold erase, mbind, M_bind. intros E. destruct (store s !! r) as [c|] eqn:Hr; [|done].
  injection E as <-. split_and!; simpl; [done|set_solver|done].
Qed.

Section connect.
Context `{!Zlib}.

Lemma connect_only randomLong random j native_open now remote o rh ch res s s' :
  in_u 16 random → free_id s j → connect randomLong random native_open now remote o rh ch s = Some (res, s') →
  ∃ i r, store s !! r = None ∧ (∀ q, q ≠ r → store s' !! q = store s !! q) ∧
    shortConnectionIDs s' ⊆ {[i]} ∪ shortConnectionIDs s ∧ (res = Some r ∧ is_Some (store s' !! r) ∨ res = None).
Proof.
  intros Hr Hj. pose proof (acquire_spec random j s Hr Hj) as Hw. revert Hw. unfold connect.
  generalize (acquireShortConnectionID random). intros acquire Hw E. apply bind_some in E as (?&?&[= <- <-]&E).
  apply bind_some in E as (i&s1&E1&E). unfold wp in Hw.
  rewrite E1 in Hw. destruct Hw as [_ ->]. apply bind_some in E as (r&s2&E2&E).
  unfold new_connection in E2. injection E2 as <- <-. set (r := fresh _) in *. set (s2 := set_store _ _) in *.
  assert (store s !! r = None) as Hf by (apply not_elem_of_dom, (is_fresh (dom (store s)))).
  apply bind_some in E as ([]&s3&E3%on_connection_only&E). apply bind_some in E as ([]&s4&E4%insert_only&E).
  apply bind_some in E as (st&s5&E5%on_connection_only&E).
  assert (only r s2 s5) as H25 by (do 2 (eapply only_trans; [done|]); done).
  assert (∀ s6, only r s5 s6 → (∀ q, q ≠ r → store s6 !! q = store s !! q) ∧
    shortConnectionIDs s6 ⊆ {[i]} ∪ shortConnectionIDs s) as Hend.
  { intros s6 H56. destruct (only_trans _ _ _ _ H25 H56) as (H1&H2&_). split; [|done]. intros q Hq.
    rewrite H1 by done. simpl. by rewrite lookup_insert_ne. }
  exists i, r. split; [done|]. destruct (mrudp_failed st).
  - apply bind_some in E as ([]&s6&E6%erase_only&[= <- <-]). destruct (Hend s6 E6). auto.
  - apply bind_some in E as ([]&s6&E6%on_connection_only&[= <- <-]). destruct (Hend s6 E6).
    split_and!; [done..|]. left. split; [done|]. apply E6.
Qed.
End connect.

(** ** Room for connections *)

Lemma free_id_exists (s : Socket) :
  sock_inv s → Z.of_nat (size (shortConnectionIDs s)) < 2 ^ 16 - 1 → ∃ j, free_id s j.
Proof.
  intros Hs Hn. destruct (decide (Exists (λ j, j ∉ shortConnectionIDs s) (seqZ 1 (2 ^ 16 - 1)))) as [He|He].
  - apply list.Exists_exists in He as (j&Hj%elem_of_seqZ&?). exists j. split; [lia|done].
  - exfalso. apply not_Exists_Forall in He; [|intros ?; apply _].
    assert (list_to_set (seqZ 1 (2 ^ 16 - 1)) ⊆ shortConnectionIDs s) as Hsub.
    { intros j Hj%elem_of_list_to_set. rewrite list.Forall_forall in He. destruct (decide (j ∈ shortConnectionIDs s)); [done|].
      by destruct (He j Hj). }
    apply subseteq_size in Hsub. rewrite size_list_to_set, length_seqZ in Hsub by apply NoDup_seqZ. lia.
Qed.

(** ** The instance *)

(** What the system answers to the next call. *)
Class System := {
  sys_randomLong : Api.World → bytes;
  sys_random : Api.World → Z;
  sys_open : Api.World → Z;
  sys_now : Api.World → Z;
  sys_randomLong_ok w : length (sys_randomLong w) = 16%nat ∧ sys_randomLong w ≠ NullLongConnectionID;
  sys_random_ok w : in_u 16 (sys_random w);
}.

Section instance.
Context `{!Zlib, !System}.
Implicit Types w : Api.World.

(** The connection behind a reference, and how often its user was told of its end. *)
Definition conn_at (c : ConnectionRef) w : option State.Connection := k ← sockets w !! c.1; store k !! c.2.
Definition told (c : ConnectionRef) w : Z :=
  match conn_at c w with Some k => n_closed (State.events k) | None => 0 end.

(** [mrudp_close_connection] up to the end of [closeUser], which runs the callback, and what is
    left to do then. *)
Definition close_begin (h : Handle) : M Api.World (Z * bool) :=
  x ← close_connection_handle h;
  match x with
  | None => mret (MRUDP_ERROR_GENERAL_FAILURE, false)
  | Some c =>
    before ← gets (told c);
    on_conn c (Connection.close;; closeUser MRUDP_EVENT_CLOSED);;
    after ← gets (told c);
    mret (MRUDP_OK, before <? after)
  end.

#[export] Instance Mrudp_api : Mrudp Api.World := {|
  is_live w h := is_Some (connection_handles w !! h);
  api_socket := Api.mrudp_socket;
  api_listen h := Api.mrudp_listen h false true true;
  api_close_socket := Api.mrudp_close_socket;
  api_connect s a o := λ w,
    Api.mrudp_connect_ex s (sys_randomLong w) (sys_random w) (sys_open w) (sys_now w) a o true true w;
  api_accept h o := Api.mrudp_accept_ex h o true true;
  api_send h d r := λ w, Api.mrudp_send h (sys_now w) d (Z.b2z r) w;
  api_close_begin := close_begin;
  api_close_end := delete_connection_handle;
  api_state := Api.mrudp_connection_state;
  api_options := Api.mrudp_connection_options;
  api_options_set := Api.mrudp_connection_options_set;
|}.

(** The two halves are the whole, if the callback does nothing. *)
Lemma close_halves (h : Handle) w :
  (code ← close_begin h; if code.1 =? MRUDP_OK then delete_connection_handle h;; mret code.1 else mret code.1) w =
  Api.mrudp_close_connection h w.
Proof.
  unfold close_begin, Api.mrudp_close_connection, gets, mbind, M_bind.
  destruct (close_connection_handle h w) as [[[c|] w1]|]; [|done..]. by destruct (on_conn c _ w1) as [[]|].
Qed.

(** ** Calls on connections *)

(** The world after a change of one connection. *)
Definition upd (c : ConnectionRef) (k : State.Connection) w : Api.World :=
  match sockets w !! c.1 with
  | Some s => set_sockets (<[c.1 := set_store (<[c.2 := k]> (store s)) s]> (sockets w)) w
  | None => w
  end.

Definition room w (s : Handle) (n : nat) : Prop :=
  ∃ h r k, s = Some h ∧ socket_handles w !! h = Some (Some r) ∧ sockets w !! r = Some k ∧
    Z.of_nat (size (shortConnectionIDs k)) + Z.of_nat n < 2 ^ 16.

Lemma wp_on_conn {A} c k (m : C A) Q w :
  conn_at c w = Some k → wp m (λ a k', Q a (upd c k' w)) k → wp (on_conn c m) Q w.
Proof.
  unfold conn_at, upd, wp, on_conn, on_socket, on_connection. destruct (sockets w !! c.1) as [s|] eqn:Hs; [|done].
  simpl. intros ->. simpl. destruct (m k) as [[a k']|]; done.
Qed.

Lemma conn_at_upd c k k' d w :
  conn_at c w = Some k → conn_at d (upd c k' w) = if decide (d = c) then Some k' else conn_at d w.
Proof.
  unfold conn_at, upd. destruct (sockets w !! c.1) as [s|] eqn:Hs; [|done]. simpl. intros Hc.
  destruct c as [c1 c2], d as [d1 d2]. simpl in *. destruct (decide (d1 = c1)) as [->|Hne].
  - rewrite lookup_insert_eq. simpl. rewrite Hs. simpl. destruct (decide (d2 = c2)) as [->|Hne2].
    + by rewrite lookup_insert_eq, decide_True.
    + rewrite lookup_insert_ne by done. rewrite decide_False; [done|congruence].
  - rewrite lookup_insert_ne by done. rewrite decide_False; [done|congruence].
Qed.

Lemma upd_handles c k w :
  connection_handles (upd c k w) = connection_handles w ∧ socket_handles (upd c k w) = socket_handles w.
Proof. unfold upd. by destruct (sockets w !! c.1). Qed.

Lemma upd_inv c k k' w :
  world_inv w → conn_at c w = Some k → conn_inv k' → State.id k' = State.id k → localID k' = localID k →
  world_inv (upd c k' w).
Proof.
  intros Hw Hc Hk Hi Hl. destruct (upd_handles c k' w) as [E1 E2]. split.
  - unfold upd, conn_at in *. destruct (sockets w !! c.1) as [s|] eqn:Hs; [|done]. simpl in *.
    intros t x [[<- <-]|[_ Hx]]%lookup_insert_Some; [|by eapply wi_sockets].
    apply (store_inv c.2 k); [by eapply wi_sockets|done..].
  - rewrite E1. intros h s r Hh. destruct (wi_connections _ Hw h s r Hh) as (x&y&Hx&Hy).
    assert (is_Some (conn_at (s, r) (upd c k' w))) as [z Hz].
    { rewrite (conn_at_upd c k) by done. case_decide; [by eexists|]. exists y. unfold conn_at. simpl. by rewrite Hx. }
    unfold conn_at in Hz. simpl in Hz. destruct (sockets (upd c k' w) !! s) as [t|]; [|done]. by exists t, z.
  - rewrite E2. intros h s Hh. destruct (wi_handles _ Hw h s Hh) as [x Hx]. unfold upd.
    destruct (sockets w !! c.1); [|by exists x]. apply lookup_insert_is_Some'. right. by exists x.
Qed.

Lemma upd_room c k w s n : room w s n → room (upd c k w) s n.
Proof.
  intros (h&r&x&->&Hh&Hx&Hn). destruct (upd_handles c k w) as [_ E]. unfold upd in *.
  destruct (sockets w !! c.1) as [y|] eqn:Hy; [|by exists h, r, x]. destruct (decide (r = c.1)) as [->|Hne].
  - exists h, c.1, (set_store (<[c.2 := k]> (store y)) y). rewrite Hy in Hx. injection Hx as ->.
    split_and!; [done..| |done]. apply lookup_insert_eq.
  - exists h, r, x. split_and!; [done..| |done]. simpl. by rewrite lookup_insert_ne.
Qed.

Definition open_handle w (h : positive) : Prop := ∃ c, connection_handles w !! h = Some (Some c).
Definition armed_handle w (h : positive) : Prop :=
  ∃ c k, connection_handles w !! h = Some (Some c) ∧ conn_at c w = Some k ∧ userDataDisposed k = false.

(** What a call on one connection keeps. *)
Record calls w w' : Prop := {
  ca_inv : world_inv w';
  ca_live : ∀ g, is_live w' g ↔ is_live w g;
  ca_open : ∀ g, open_handle w' g ↔ open_handle w g;
  ca_armed : ∀ g, armed_handle w' g → armed_handle w g;
  ca_room : ∀ s k, room w s k → room w' s k;
}.

Lemma calls_refl w : world_inv w → calls w w.
Proof. by split. Qed.

Lemma upd_calls c k k' w :
  world_inv w → conn_at c w = Some k → conn_inv k' → State.id k' = State.id k → localID k' = localID k →
  (userDataDisposed k = true → userDataDisposed k' = true) → calls w (upd c k' w).
Proof.
  intros Hw Hc Hk' Hi Hl Hdis. destruct (upd_handles c k' w) as [E1 E2]. split.
  - by apply (upd_inv c k).
  - intros g. simpl. by rewrite E1.
  - intros g. unfold open_handle. by rewrite E1.
  - intros g (d&x&Hd&Hx&Hu). rewrite E1 in Hd. rewrite (conn_at_upd c k) in Hx by done. case_decide as Hdc.
    + injection Hx as <-. subst d. exists c, k. split_and!; [done..|]. apply not_true_iff_false. intros Ht%Hdis. congruence.
    + by exists d, x.
  - intros s n. apply upd_room.
Qed.

Lemma wp_with_connection {A} h (e : A) f Q w :
  world_inv w → usable w h → Q e w →
  (∀ g c k, h = Some g → connection_handles w !! g = Some (Some c) → conn_at c w = Some k → conn_inv k → wp (f c) Q w) →
  wp (with_connection h e f) Q w.
Proof.
  intros Hw Hu He Hf. unfold with_connection, the_connection, toNative. apply wp_bind. unfold wp at 1.
  destruct h as [h|]; [|by apply wp_ret]. destruct Hu as [[[s r]|] E]; simpl; rewrite E; simpl; [|by apply wp_ret].
  destruct (wi_connections _ Hw h s r E) as (k&x&Hk&Hx). apply (Hf h (s, r) x); [done|done| |].
  - unfold conn_at. simpl. by rewrite Hk.
  - by eapply ki_conn; [eapply wi_sockets|].
Qed.
(** ** The laws *)

Lemma send_calls h d r w :
  world_inv w → usable w h → Z.of_nat (length d) < 2 ^ 31 → wp (api_send h d r) (λ _ w', calls w w') w.
Proof.
  intros Hw Hu Hd. unfold api_send, Mrudp_api, Api.mrudp_send.
  change (wp (with_connection h MRUDP_ERROR_GENERAL_FAILURE (λ c, on_conn c (modify (set_clock (sys_now w));;
    send_data d (if Z.b2z r =? 0 then UNRELIABLE else RELIABLE)))) (λ _ w', calls w w') w).
  apply wp_with_connection; [done|done|by apply calls_refl|]. intros g c k -> Hg Hc Hk.
  apply (wp_on_conn c k); [done|]. apply wp_bind, wp_modify.
  eapply wp_mono; [apply safe_send_data; [done|by apply set_clock_inv]|]. intros a k' [Hk' He].
  destruct (ev_id _ _ He). by apply (upd_calls c k); [..|apply (ev_disposed _ _ He)].
Qed.

Lemma state_calls h w :
  world_inv w → usable w h →
  wp (api_state h) (λ '(code, n) w', (code = MRUDP_OK → is_Some n) ∧ calls w w') w.
Proof.
  intros Hw Hu. apply wp_with_connection; [done|done|split; [done|by apply calls_refl]|].
  intros g c k -> Hg Hc Hk. apply wp_bind, (wp_on_conn c k); [done|]. unfold numUnacked. apply wp_gets, wp_ret.
  split; [by eexists|]. by apply (upd_calls c k).
Qed.

(** The cell of the handle is emptied. *)
Definition emptied (h : positive) w : Api.World := set_connection_handles (<[h := None]> (connection_handles w)) w.

Lemma emptied_inv h w : world_inv w → world_inv (emptied h w).
Proof.
  intros [H1 H2 H3]. split; [done| |done]. intros g s r Hg. simpl in Hg. apply lookup_insert_Some in Hg as [[_ ?]|[_ Hg]]; [done|]. exact (H2 g s r Hg).
Qed.

Lemma close_begin_wp h w :
  world_inv w → usable w h →
  wp (close_begin h) (λ '(code, callback) w', world_inv w' ∧ (∀ g, is_live w' g ↔ is_live w g) ∧
    (∀ g, open_handle w' g ↔ open_handle w g ∧ Some g ≠ h) ∧ (∀ g, armed_handle w' g → armed_handle w g ∧ Some g ≠ h) ∧
    (code = MRUDP_OK ↔ ∃ g, h = Some g ∧ open_handle w g) ∧
    (callback = true → ∃ g, h = Some g ∧ open_handle w g ∧ armed_handle w g) ∧
    (∀ s k, room w s k → room w' s k)) w.
Proof.
  intros Hw Hu. unfold close_begin, close_connection_handle, closeHandle. apply wp_bind. unfold wp at 1.
  destruct h as [h|]; cycle 1.
  { simpl. replace (set_connection_handles (connection_handles w) w) with w by (by destruct w). apply wp_ret.
    split_and!; try done; try naive_solver. }
  destruct Hu as [[c|] E]; simpl; rewrite E; simpl; fold (emptied h w); set (w1 := emptied h w);
    pose proof (emptied_inv h w Hw : world_inv w1) as Hw1;
    (assert (∀ g, is_live w1 g ↔ is_live w g) as Hl1
      by (intros g; simpl; rewrite lookup_insert_is_Some; destruct (decide (h = g)) as [<-|]; [rewrite E|]; naive_solver));
    (assert (∀ g, open_handle w1 g ↔ open_handle w g ∧ Some g ≠ Some h) as Ho1
      by (intros g; unfold open_handle; simpl; destruct (decide (h = g)) as [<-|];
          [rewrite lookup_insert_eq|rewrite lookup_insert_ne by done]; naive_solver));
    (assert (∀ g, armed_handle w1 g → armed_handle w g ∧ Some g ≠ Some h) as Ha1
      by (intros g (d&x&Hd&Hx); simpl in Hd; apply lookup_insert_Some in Hd as [[_ ?]|[Hne Hd]]; [done|];
          split; [by exists d, x|congruence])).
  - destruct c as [s r]. destruct (wi_connections _ Hw h s r E) as (sk&k&Hsk&Hk).
    assert (conn_at (s, r) w1 = Some k) as Hc by (unfold conn_at; simpl; by rewrite Hsk).
    assert (conn_inv k) as Hik by (eapply ki_conn; [by eapply wi_sockets|done]).
    wp_steps. apply (wp_on_conn _ k); [done|]. eapply wp_mono; [by apply user_close_wp|].
    intros [] k' (Hik'&He&_&_&Hdis). wp_steps. destruct (ev_id _ _ He).
    destruct (upd_calls (s, r) k k' w1) as [C1 C2 C3 C4 C5]; [done..|]. split_and!; [done|..].
    + intros g. exact (iff_trans (C2 g) (Hl1 g)).
    + intros g. exact (iff_trans (C3 g) (Ho1 g)).
    + intros g Hg. by apply Ha1, C4.
    + split; [|done]. intros _. exists h. split; [done|by eexists].
    + intros Ht%Z.ltb_lt. exists h. split_and!; [done|by eexists|]. exists (s, r), k. split_and!; [done|exact Hc|].
      unfold told in Ht. rewrite (conn_at_upd (s, r) k), decide_True, Hc in Ht by done.
      pose proof (ev_user _ _ He) as Hev. rewrite Hdis in Hev. destruct (userDataDisposed k); [simpl in Hev; lia|done].
    + intros t n Ht. by apply C5.
  - wp_steps. split_and!; try done. split; [done|]. intros (g&[= <-]&d&Hd). congruence.
Qed.

Lemma close_end_wp h w :
  world_inv w → is_live w h →
  wp (delete_connection_handle (Some h)) (λ _ w', world_inv w' ∧ (∀ g, is_live w' g ↔ is_live w g ∧ g ≠ h) ∧
    (∀ g, open_handle w' g ↔ open_handle w g ∧ g ≠ h) ∧ (∀ g, armed_handle w' g → armed_handle w g) ∧
    (∀ s k, room w s k → room w' s k)) w.
Proof.
  intros Hw [x Hx]. unfold wp, delete_connection_handle, deleteHandle. simpl in *. rewrite Hx. simpl. split_and!.
  - destruct Hw as [H1 H2 H3]. split; [done| |done]. intros g s r Hg. simpl in Hg. apply lookup_delete_Some in Hg as [_ Hg]. exact (H2 g s r Hg).
  - intros g. rewrite lookup_delete_is_Some. naive_solver.
  - intros g. unfold open_handle. simpl. setoid_rewrite lookup_delete_Some. naive_solver.
  - intros g (d&y&Hd&Hy). simpl in Hd. apply lookup_delete_Some in Hd as [_ Hd]. by exists d, y.
  - done.
Qed.
(** A socket that gained at most one connection and one short id. *)
Record grown (r : SocketRef) k k' w w' : Prop := {
  gr_world : w' = set_sockets (<[r := k']> (sockets w)) w;
  gr_socket : sockets w !! r = Some k;
  gr_inv : sock_inv k';
  gr_store : ∀ q c, store k !! q = Some c → store k' !! q = Some c;
  gr_ids : (size (shortConnectionIDs k') ≤ S (size (shortConnectionIDs k)))%nat;
}.

Lemma grown_conn_at r k k' w w' c x : grown r k k' w w' → conn_at c w = Some x → conn_at c w' = Some x.
Proof.
  intros [-> Hr _ Hs _]. unfold conn_at. destruct c as [s q]. simpl. destruct (decide (s = r)) as [->|Hne].
  - rewrite Hr, lookup_insert_eq. simpl. apply Hs.
  - by rewrite lookup_insert_ne.
Qed.

Lemma handle_conn_at h c w : world_inv w → connection_handles w !! h = Some (Some c) → is_Some (conn_at c w).
Proof.
  intros Hw Hh. destruct c as [s r]. destruct (wi_connections _ Hw h s r Hh) as (k&x&Hk&Hx). exists x.
  unfold conn_at. simpl. by rewrite Hk.
Qed.

Lemma grown_inv r k k' w w' : world_inv w → grown r k k' w w' → world_inv w'.
Proof.
  intros Hw Hg. pose proof Hg as [-> Hr Hk' Hs Hi]. split; simpl.
  - intros s x [[<- <-]|[_ Hx]]%lookup_insert_Some; [done|by eapply wi_sockets].
  - intros h s q Hh. destruct (handle_conn_at h (s, q) w Hw Hh) as [x Hx].
    apply (grown_conn_at r k k' w _ _ _ Hg) in Hx. unfold conn_at in Hx. simpl in Hx.
    destruct (<[r := k']> (sockets w) !! s) as [y|]; [|done]. by exists y, x.
  - intros h s Hh. apply lookup_insert_is_Some'. right. by eapply wi_handles.
Qed.

(** The armed handles are the old ones. *)
Lemma grown_armed r k k' w w' g : world_inv w → grown r k k' w w' → armed_handle w' g → armed_handle w g.
Proof.
  intros Hw Hg (c&x&Hc&Hx&Hd). assert (connection_handles w !! g = Some (Some c)) as Hc' by (by destruct Hg as [-> _ _ _ _]).
  destruct (handle_conn_at g c w Hw Hc') as [y Hy]. pose proof (grown_conn_at r k k' w w' c y Hg Hy) as Hy'.
  exists c, y. split_and!; [done..|congruence].
Qed.

Lemma grown_room r k k' w w' h n :
  grown r k k' w w' → socket_handles w !! h = Some (Some r) → room w (Some h) (S n) → room w' (Some h) n.
Proof.
  intros [-> Hr Hk' Hs Hi] Hh (h'&r'&x&[= <-]&Hh'&Hx&Hn). rewrite Hh in Hh'. injection Hh' as <-.
  rewrite Hr in Hx. injection Hx as <-. exists h, r, k'. simpl. rewrite lookup_insert_eq. split_and!; [done..|lia].
Qed.

(** A handle for a new connection. *)
Lemma new_handle_wp c x w Q :
  world_inv w → conn_at c w = Some x →
  (∀ h w', world_inv w' → ¬ is_live w h → (∀ g, is_live w' g ↔ is_live w g ∨ g = h) →
     (∀ g, open_handle w' g ↔ open_handle w g ∨ g = h) → (∀ g, armed_handle w' g → armed_handle w g ∨ g = h) →
     (∀ s k, room w s k → room w' s k) → Q (Some h) w') →
  wp (new_connection_handle c) Q w.
Proof.
  intros Hw Hc HQ. unfold wp, new_connection_handle, newHandle. set (h := fresh _).
  assert (connection_handles w !! h = None) as Hh by (apply not_elem_of_dom, is_fresh).
  apply HQ; simpl.
  - destruct Hw as [H1 H2 H3]. split; [done| |done]. intros g s r Hg. simpl in Hg.
    apply lookup_insert_Some in Hg as [[_ [= ->]]|[_ Hg]]; [|exact (H2 g s r Hg)].
    unfold conn_at in Hc. simpl in *. destruct (sockets w !! s) as [k|]; [|done]. by exists k, x.
  - by rewrite Hh; intros [].
  - intros g. rewrite lookup_insert_is_Some'. naive_solver.
  - intros g. unfold open_handle. simpl. setoid_rewrite lookup_insert_Some. destruct (decide (h = g)) as [<-|]; [|naive_solver].
    rewrite Hh. naive_solver.
  - intros g (d&y&Hd&Hy). simpl in Hd. apply lookup_insert_Some in Hd as [[<- _]|[_ Hd]]; [by right|left; by exists d, y].
  - done.
Qed.

Lemma connect_grows h r k a o w :
  world_inv w → socket_handles w !! h = Some (Some r) → sockets w !! r = Some k →
  Z.of_nat (size (shortConnectionIDs k)) < 2 ^ 16 - 1 → options_keep o →
  ∃ res k' w', on_socket r (connect (sys_randomLong w) (sys_random w) (sys_open w) (sys_now w) a (Some o) true true) w =
      Some (res, w') ∧ grown r k k' w w' ∧ match res with Some q => is_Some (conn_at (r, q) w') | None => True end.
Proof.
  intros Hw Hh Hr Hn Ho. pose proof (wi_sockets _ Hw r k Hr) as Hk. destruct (free_id_exists k Hk Hn) as [j Hj].
  destruct (sys_randomLong_ok w) as [Hl Hnull]. pose proof (sys_random_ok w) as Hrnd. destruct (ki_options _ Hk) as [Ho1 Ho2].
  pose proof (connect_wp _ _ j (sys_open w) (sys_now w) a (Some o) true true k Hk Hrnd Hj Hl Hnull (Ho _ Ho1 Ho2)) as Hwp.
  apply wp_some in Hwp as (res&k'&E&Hk'&_). destruct (connect_only _ _ j _ _ _ _ _ _ _ _ _ Hrnd Hj E) as (i&q&Hq&Hs&Hi&Hres).
  exists res, k', (set_sockets (<[r := k']> (sockets w)) w). revert E. generalize (connect (sys_randomLong w)
    (sys_random w) (sys_open w) (sys_now w) a (Some o) true true). intros m E. split_and!.
  - unfold on_socket. rewrite Hr. cbn [mbind option_bind]. by rewrite E.
  - split; [done|done|done| |].
    + intros p c Hp. rewrite Hs; [done|congruence].
    + apply subseteq_size in Hi. pose proof (size_union_alt {[i]} (shortConnectionIDs k)) as Hsz.
      pose proof (subseteq_size (shortConnectionIDs k ∖ {[i]}) (shortConnectionIDs k) ltac:(set_solver)).
      rewrite size_singleton in Hsz. lia.
  - destruct Hres as [(->&c&Hc)| ->]; [|done]. exists c. unfold conn_at. simpl. by rewrite lookup_insert_eq.
Qed.

Lemma connect_api_wp s a o w :
  world_inv w → room w s 1 → options_keep o →
  wp (api_connect s a (Some o)) (λ r w', world_inv w' ∧ (∀ k, room w s (S k) → room w' s k) ∧
    match r with
    | None => (∀ g, is_live w' g ↔ is_live w g) ∧ (∀ g, open_handle w' g ↔ open_handle w g) ∧
        (∀ g, armed_handle w' g → armed_handle w g)
    | Some h => ¬ is_live w h ∧ (∀ g, is_live w' g ↔ is_live w g ∨ g = h) ∧
        (∀ g, open_handle w' g ↔ open_handle w g ∨ g = h) ∧ (∀ g, armed_handle w' g → armed_handle w g ∨ g = h)
    end) w.
Proof.
  intros Hw (h&r&k&->&Hh&Hr&Hn) Ho. destruct (connect_grows h r k a o w Hw Hh Hr ltac:(lia) Ho) as (res&k'&w1&E&Hg&Hres).
  pose proof (grown_inv _ _ _ _ _ Hw Hg) as Hw1. pose proof Hg as [E1 _ _ _ _].
  assert (connection_handles w1 = connection_handles w) as Ec by (by rewrite E1).
  unfold wp at 1. cbn [api_connect Mrudp_api]. unfold Api.mrudp_connect_ex.
  match goal with |- match with_socket ?x ?y ?f w with _ => _ end => change (wp (with_socket x y f) (λ r w', world_inv w' ∧
    (∀ k, room w (Some h) (S k) → room w' (Some h) k) ∧
    match r with
    | None => (∀ g, is_live w' g ↔ is_live w g) ∧ (∀ g, open_handle w' g ↔ open_handle w g) ∧
        (∀ g, armed_handle w' g → armed_handle w g)
    | Some h => ¬ is_live w h ∧ (∀ g, is_live w' g ↔ is_live w g ∨ g = h) ∧
        (∀ g, open_handle w' g ↔ open_handle w g ∨ g = h) ∧ (∀ g, armed_handle w' g → armed_handle w g ∨ g = h)
    end) w) end.
  unfold with_socket, the_socket, toNative. apply wp_bind. unfold wp at 1. rewrite Hh. simpl. apply wp_bind.
  unfold wp at 1. rewrite E. destruct res as [q|]; [destruct Hres as [x Hx]; eapply new_handle_wp; [done|exact Hx|]|apply wp_ret].
  - intros g w2 Hw2 Hg1 Hl2 Ho2 Ha2 Hr2. simpl in *. rewrite Ec in Hg1. setoid_rewrite Ec in Hl2. split_and!; [done| |done|done| |].
    + intros n Hn'. apply Hr2. by eapply grown_room.
    + intros p. rewrite Ho2. unfold open_handle. by rewrite Ec.
    + intros p [Hp| ->]%Ha2; [left|by right]. by eapply grown_armed.
  - split_and!; [done| | | |].
    + intros n. by eapply grown_room.
    + intros g. simpl. by rewrite Ec.
    + intros g. unfold open_handle. by rewrite Ec.
    + intros g. by eapply grown_armed.
Qed.

Lemma dead_handle h w :
  ¬ is_live w h →
  (∀ d r, api_send (Some h) d r w = None) ∧ api_state (Some h) w = None ∧ api_close_begin (Some h) w = None.
Proof.
  intros Hh. simpl in Hh. apply eq_None_not_Some in Hh. simpl.
  unfold Api.mrudp_send, mrudp_connection_state, with_connection, the_connection, close_begin, close_connection_handle,
    mbind, M_bind. simpl. by rewrite Hh.
Qed.

#[export] Program Instance MrudpLaws_api : MrudpLaws Api.World := {|
  api_ok := world_inv;
  is_open := open_handle;
  armed := armed_handle;
  can_connect := room;
|}.
Next Obligation. intros w h [c Hc]. by exists (Some c). Qed.
Next Obligation. intros w s k k' Hk (h&r&x&->&?&?&?). exists h, r, x. split_and!; [done..|lia]. Qed.
Next Obligation. intros w h d r Hw Hu Hd. eapply wp_mono; [by apply send_calls|]. by intros ? w' []. Qed.
Next Obligation. intros w h Hw Hu. eapply wp_mono; [by apply state_calls|]. by intros [code n] w' [? []]. Qed.
Next Obligation. intros w h Hw Hu. by apply close_begin_wp. Qed.
Next Obligation. intros w h Hw Hl. by apply close_end_wp. Qed.
Next Obligation. intros w s a o Hw Hr _ Ho. by apply connect_api_wp. Qed.
Next Obligation. intros w h Hh. by apply dead_handle. Qed.
End instance.
