(* ===== verification/ProxyWire.v ===== *)
(** * The proxy's wire: messages, their dispatch and the invariant of a proxy

    Messages as they lie on the wire and what dispatching them does; the invariant that makes every
    dispatch defined: entries and handles belong together, and no handle in use was freed. *)

From S2P Require Import Prelude MemCopy Containers Packet ReceiveQueue Types SendQueue Proxy.

(** ** Messages on the wire *)

Definition message_mode (m : Message) : Z :=
  match m with
  | MOpen _ _ => ProxyPacketMode.OPEN
  | MClose _ => ProxyPacketMode.CLOSE
  | MData _ r _ => if r then ProxyPacketMode.RELIABLE else ProxyPacketMode.UNRELIABLE
  | MOther h => pp_type h
  end.
Definition message_id (m : Message) : Z :=
  match m with MOpen i _ | MClose i | MData i _ _ => i | MOther h => pp_id h end.
Definition message_data (m : Message) : bytes :=
  match m with MOpen _ a => concat (write_addr a) | MData _ _ d => d | _ => [] end.
Definition encode_message (m : Message) : bytes :=
  encode_ProxyPacketHeader
    (mkProxyPacketHeader (u16 (Z.of_nat (length (message_data m)))) (message_id m) (message_mode m)) ++ message_data m.

(** The messages the proxies queue: ids and sizes within their fields. *)
Definition message_wf (m : Message) : Prop :=
  in_u 32 (message_id m) ∧ in_u 16 (Z.of_nat (length (message_data m))) ∧
  match m with MOpen _ a => Z.of_nat (length a) = sizeof_Address | MOther _ => False | _ => True end.

Section dispatch.
Context {W : Type} `{!Mrudp W, !Zlib}.
Context (memmoves : bool) (garbage : bytes).

(** A message as the receiving proxy sees it: an address keeps its family, address and port. *)
Definition seen_addr (a : Address) : Address := le_encode 2 AF_INET ++ sin_port a ++ sin_addr a ++ drop 8 garbage.
Definition seen (m : Message) : Message := match m with MOpen i a => MOpen i (seen_addr a) | m => m end.

(** What a message does at the receiving proxy. *)
Definition dispatch (m : Message) : M (World W) unit :=
  emit (Dispatched (seen m));;
  match m with
  | MOpen id a => on_connection_open ProxyMode.CONNECTION id (seen_addr a);; mret tt
  | MClose id => initiate_connection_close id
  | MData id reliable data =>
    p ← gets proxy;
    match connections p !! id with
    | Some n => c ← deref n; mrudp_send (pc_connection c) data (Z.of_nat (length data)) reliable;; mret tt
    | None => mret tt
    end
  | MOther _ => mret tt
  end.

Lemma encode_header_length h : length (encode_ProxyPacketHeader h) = 7%nat.
Proof. unfold encode_ProxyPacketHeader. by rewrite !length_app, !le_encode_length. Qed.

Lemma decode_encode_header h :
  in_u 16 (pp_size h) → in_u 32 (pp_id h) → in_u 8 (pp_type h) →
  decode_ProxyPacketHeader (encode_ProxyPacketHeader h) = h.
Proof.
  intros. unfold decode_ProxyPacketHeader, encode_ProxyPacketHeader, slice.
  pose proof (le_encode_length 2 (pp_size h)). pose proof (le_encode_length 4 (pp_id h)).
  pose proof (le_encode_length 1 (pp_type h)).
  rewrite drop_0, take_app_length' by done. rewrite drop_app_length', take_app_length' by done.
  rewrite app_assoc, drop_app_length', take_ge by (rewrite ?length_app; lia).
  rewrite !le_decode_encode by done. by destruct h.
Qed.

Lemma read_app (a rest : bytes) (k n : Z) :
  Z.of_nat (length a) = k → k ≤ n →
  read (mkDataIn (a ++ rest) n) k = Some (Some a, mkDataIn rest (n - k)).
Proof.
  intros <- Hn. unfold read. simpl. rewrite (proj2 (Z.ltb_ge _ _)) by lia.
  rewrite mem_copy_eq, Nat2Z.id, memcpy_inside by (rewrite ?length_app, ?length_replicate; lia).
  rewrite take_app_length, drop_app_length, drop_ge, app_nil_r by (rewrite length_replicate; lia). done.
Qed.

Lemma read_addr_write (a : Address) rest n :
  Z.of_nat (length a) = sizeof_Address → 7 ≤ n →
  read_addr garbage (mkDataIn (concat (write_addr a) ++ rest) n) = Some (Some (seen_addr a), mkDataIn rest (n - 7)).
Proof.
  intros Ha Hn. unfold write_addr, read_addr. unfold sizeof_Address in Ha. simpl. rewrite app_nil_r.
  assert (length (sin_addr a) = 4%nat) as H4 by (apply slice_length; lia).
  assert (length (sin_port a) = 2%nat) as H2 by (apply slice_length; lia).
  pose proof (read_app [char_4] ((sin_addr a ++ sin_port a) ++ rest) 1 n eq_refl ltac:(lia)) as R1.
  cbn [app] in R1. rewrite R1. simpl.
  rewrite <-app_assoc, (read_app (sin_addr a) _ 4) by lia. simpl.
  rewrite (read_app (sin_port a) _ 2) by lia. simpl. do 3 f_equal. lia.
Qed.

Lemma mrudp_send_app h (data rest : bytes) r (w : World W) :
  mrudp_send h (data ++ rest) (Z.of_nat (length data)) r w = mrudp_send h data (Z.of_nat (length data)) r w.
Proof.
  unfold mrudp_send. rewrite !decide_False by (rewrite ?length_app; lia).
  by rewrite Nat2Z.id, take_app_length, take_ge.
Qed.

Lemma M_bind_ext {St A B} (m : M St A) (f g : A → M St B) s :
  (∀ a s', f a s' = g a s') → (m ≫= f) s = (m ≫= g) s.
Proof. intros Hfg. unfold mbind, M_bind. destruct (m s) as [[]|]; [apply Hfg|done]. Qed.

Lemma lift_some_bind {St A B} (a : A) (f : A → M St B) s : (lift (Some a) ≫= f) s = f a s.
Proof. done. Qed.

Lemma M_bind_assoc {St A B D} (m : M St A) (f : A → M St B) (g : B → M St D) s :
  ((m ≫= f) ≫= g) s = (m ≫= λ a, f a ≫= g) s.
Proof. unfold mbind, M_bind. by destruct (m s) as [[]|]. Qed.

(** One message at the front of the data is dispatched, and the loop goes on behind it. *)
Lemma wire_message fuel m rest n (w : World W) :
  message_wf m → Z.of_nat (length (encode_message m)) ≤ n →
  on_wire_packet_loop garbage (S fuel) (mkDataIn (encode_message m ++ rest) n) w =
  (dispatch m;; on_wire_packet_loop garbage fuel (mkDataIn rest (n - Z.of_nat (length (encode_message m))))) w.
Proof.
  intros (Hid&Hsz&Hm) Hn. set (hdr := mkProxyPacketHeader (u16 (Z.of_nat (length (message_data m)))) (message_id m) (message_mode m)).
  assert (encode_message m = encode_ProxyPacketHeader hdr ++ message_data m) as Ee by done.
  pose proof (encode_header_length hdr) as Hh. rewrite Ee, length_app, Hh in *.
  cbn [on_wire_packet_loop in_remaining]. rewrite (proj2 (Z.eqb_neq _ _)) by lia.
  rewrite <-app_assoc, (read_app (encode_ProxyPacketHeader hdr) _ 7) by lia.
  rewrite lift_some_bind. cbv beta iota.
  rewrite decode_encode_header; [|apply wrap_range; lia|done|by destruct m as [| |? []|]].
  replace (n - Z.of_nat (7 + length (message_data m))) with (n - 7 - Z.of_nat (length (message_data m))) by lia.
  destruct m as [id a|id|id r data|h]; simpl in Hm, Hsz, hdr; [| | |done]; unfold dispatch.
  - assert (length (concat (write_addr a)) = 7%nat) as H7.
    { unfold sizeof_Address in Hm. unfold write_addr, sin_addr, sin_port. simpl.
      rewrite !length_app, !slice_length by lia. done. }
    cbn [message_data] in *. rewrite H7 in *. change (pp_type hdr =? ProxyPacketMode.OPEN) with true. cbv iota.
    rewrite read_addr_write by (done || lia).
    rewrite lift_some_bind. cbv beta iota. rewrite !M_bind_assoc. apply M_bind_ext. intros _ w1.
    by rewrite M_bind_assoc.
  - simpl. rewrite M_bind_assoc. rewrite Z.sub_0_r. apply M_bind_ext. by intros.
  - set (data' := in_data _). assert (data' = data ++ rest) as -> by done. cbn [pp_type pp_id pp_size hdr].
    rewrite wrap_small by done. cbn [message_data message_id message_mode] in *. rewrite Nat2Z.id, take_app_length.
    assert ((if r then ProxyPacketMode.RELIABLE else ProxyPacketMode.UNRELIABLE) =? ProxyPacketMode.RELIABLE = r) as ->
      by (by destruct r).
    assert ((if r then ProxyPacketMode.RELIABLE else ProxyPacketMode.UNRELIABLE) =? ProxyPacketMode.OPEN = false) as ->
      by (by destruct r).
    assert ((if r then ProxyPacketMode.RELIABLE else ProxyPacketMode.UNRELIABLE) =? ProxyPacketMode.CLOSE = false) as ->
      by (by destruct r).
    assert ((if r then ProxyPacketMode.RELIABLE else ProxyPacketMode.UNRELIABLE) =? ProxyPacketMode.UNRELIABLE = negb r) as ->
      by (by destruct r).
    rewrite orb_negb_r. unfold skip. simpl. rewrite (proj2 (Z.ltb_ge _ _)) by lia.
    rewrite Nat2Z.id, drop_app_length. rewrite !M_bind_assoc. apply M_bind_ext. intros _ w1.
    rewrite !M_bind_assoc. apply M_bind_ext. intros p w2. destruct (connections p !! id) as [k|]; [|done].
    rewrite !M_bind_assoc. apply M_bind_ext. intros c w3. rewrite !M_bind_assoc.
    unfold mbind at 1 3, M_bind at 1 3. by rewrite mrudp_send_app.
Qed.

Lemma message_length m : (7 ≤ length (encode_message m))%nat.
Proof. unfold encode_message. rewrite length_app, encode_header_length. lia. Qed.

Lemma wire_messages fuel ms stale (w : World W) :
  Forall message_wf ms → (length ms < fuel)%nat →
  on_wire_packet_loop garbage fuel
    (mkDataIn (concat (encode_message <$> ms) ++ stale) (Z.of_nat (length (concat (encode_message <$> ms))))) w =
  (mapM_ dispatch ms;; mret 0) w.
Proof.
  revert fuel w. induction ms as [|m ms IH]; intros [|fuel] w Hwf Hf; simpl in Hf; [lia| |lia|].
  { done. }
  inversion Hwf; subst. cbn [fmap list_fmap concat mapM_]. rewrite <-app_assoc, length_app.
  rewrite wire_message by (done || lia). rewrite M_bind_assoc. apply M_bind_ext. intros _ w1.
  replace (Z.of_nat _ - Z.of_nat _) with (Z.of_nat (length (concat (encode_message <$> ms)))) by lia.
  apply IH; [done|lia].
Qed.

Lemma on_wire_packet_messages ms stale (w : World W) :
  Forall message_wf ms →
  on_wire_packet garbage (concat (encode_message <$> ms) ++ stale) (Z.of_nat (length (concat (encode_message <$> ms)))) w =
  (mapM_ dispatch ms;; mret 0) w.
Proof.
  intros Hwf. unfold on_wire_packet. apply wire_messages; [done|]. rewrite Nat2Z.id.
  clear Hwf. induction ms as [|m ms IH]; [simpl; lia|]. cbn [fmap list_fmap concat length] in *.
  rewrite length_app. pose proof (message_length m). lia.
Qed.
End dispatch.

(** ** The output queue *)

Definition sv_wf (s : SizedVector) : Prop := 0 ≤ sv_size s ≤ Z.of_nat (length (sv_v s)).
Definition sv_contents (s : SizedVector) : bytes := take (Z.to_nat (sv_size s)) (sv_v s).

Lemma sv_contents_length s : sv_wf s → Z.of_nat (length (sv_contents s)) = sv_size s.
Proof. intros Hs. unfold sv_wf, sv_contents in *. rewrite length_take. lia. Qed.

Lemma sv_resize_length n s : 0 ≤ n → n ≤ Z.of_nat (length (sv_v (sv_resize n s))).
Proof.
  intros Hn. unfold sv_resize, sv_reserve. simpl. destruct (Z.ltb_spec (Z.of_nat (length (sv_v s))) n); simpl; [|lia].
  rewrite length_app, length_replicate. lia.
Qed.

Lemma sv_resize_prefix n k s : (k ≤ length (sv_v s))%nat → take k (sv_v (sv_resize n s)) = take k (sv_v s).
Proof.
  intros Hk. unfold sv_resize, sv_reserve. simpl. destruct (_ <? n); [|done]. simpl. by rewrite take_app_le by lia.
Qed.

Lemma memcpy_at_eq d to s size :
  0 ≤ to → 0 ≤ size → to + size ≤ Z.of_nat (length d) → size ≤ Z.of_nat (length s) →
  memcpy_at d to s 0 size =
    Some (take (Z.to_nat to) d ++ take (Z.to_nat size) s ++ drop (Z.to_nat (to + size)) d).
Proof.
  intros. unfold memcpy_at. rewrite decide_True by lia. rewrite drop_0, memcpy_inside by (rewrite ?length_drop; lia).
  simpl. rewrite drop_drop. by replace (Z.to_nat to + Z.to_nat size)%nat with (Z.to_nat (to + size)) by lia.
Qed.

Lemma write_SizedVector_spec s data :
  sv_wf s → sv_size s + Z.of_nat (length data) < 2 ^ 64 →
  ∃ s', write_SizedVector s data = Some s' ∧ sv_wf s' ∧ sv_contents s' = sv_contents s ++ data ∧
    sv_size s' = sv_size s + Z.of_nat (length data).
Proof.
  intros Hs Hn. unfold write_SizedVector. rewrite wrap_small by (unfold sv_wf, in_u in *; lia).
  set (n := sv_size s + Z.of_nat (length data)).
  assert (0 ≤ n) as Hn0 by (unfold sv_wf in Hs; lia). pose proof (sv_resize_length n s Hn0) as Hl.
  rewrite memcpy_at_eq by (unfold sv_wf in *; lia). eexists. split; [done|].
  unfold sv_wf, sv_contents in *. cbn [sv_v sv_size].
  assert (length (take (Z.to_nat (sv_size s)) (sv_v (sv_resize n s))) = Z.to_nat (sv_size s)) as Ht by (rewrite length_take; lia).
  rewrite Nat2Z.id, (take_ge data) by lia. change (sv_size (sv_resize n s)) with n.
  split; [|split; [|done]].
  - rewrite !length_app, Ht, length_drop. lia.
  - rewrite app_assoc, take_app_length' by (rewrite length_app, Ht; lia).
    by rewrite sv_resize_prefix by lia.
Qed.

Section queue.
Context {W : Type} `{!Mrudp W, !Zlib}.

Lemma send_queue_run n c mode data (w : World W) :
  nodes w !! n = Some c → sv_wf (out (proxy w)) → Z.of_nat (length data) < 2 ^ 16 → sv_size (out (proxy w)) < 2 ^ 32 →
  ∃ q, proxy_send_queue n mode data w = Some (MRUDP_OK, set_proxy (set_out q) w) ∧ sv_wf q ∧
    sv_size q = sv_size (out (proxy w)) + 7 + Z.of_nat (length data) ∧
    sv_contents q = sv_contents (out (proxy w)) ++
      encode_ProxyPacketHeader (mkProxyPacketHeader (u16 (Z.of_nat (length data))) (pc_id c) mode) ++ data.
Proof.
  intros Hn Hw Hd Hs. unfold proxy_send_queue, deref, gets, lift, modify, mbind, M_bind. rewrite Hn. cbn [mbind option_bind].
  set (hdr := mkProxyPacketHeader _ _ _). pose proof (encode_header_length hdr) as H7.
  destruct (write_SizedVector_spec (out (proxy w)) (encode_ProxyPacketHeader hdr) Hw ltac:(lia)) as (q1&E1&Hq1&C1&S1).
  destruct (write_SizedVector_spec q1 data Hq1 ltac:(lia)) as (q2&E2&Hq2&C2&S2).
  exists q2. rewrite E1. simpl. rewrite E2. simpl. split_and!; [done|done|lia|]. by rewrite C2, C1, <-app_assoc.
Qed.
End queue.

(** ** The invariant of a proxy *)

Section invariant.
Context {W : Type} `{!Mrudp W, !MrudpLaws W, !Zlib}.
(** the id of the entry of the wire *)
Context (wire_id : Z).
Implicit Types w : World W.

Record px_inv w : Prop := {
  pi_ok : api_ok (lib w);
  pi_conn : ∀ id n, connections (proxy w) !! id = Some n → ∃ c, nodes w !! n = Some c ∧ pc_id c = id;
  pi_node : ∀ n c, nodes w !! n = Some c → connections (proxy w) !! pc_id c = Some n;
  pi_handle : ∀ n c h, nodes w !! n = Some c → pc_connection c = Some h →
    is_live (lib w) h ∧ users w !! h = Some n;
  pi_armed : ∀ h, armed (lib w) h → is_live (lib w) h ∧ ∃ n c, users w !! h = Some n ∧ nodes w !! n = Some c;
  pi_armed_inj : ∀ h h' n, armed (lib w) h → armed (lib w) h' →
    users w !! h = Some n → users w !! h' = Some n → h = h';
  pi_wire : usable (lib w) (wire (proxy w));
  pi_wire_id : ∀ n c h, nodes w !! n = Some c → pc_connection c = Some h → wire (proxy w) = Some h → pc_id c = wire_id;
  pi_out : sv_wf (out (proxy w));
  pi_in : cb_wf (in_ (proxy w));
}.

(** What the ticker leaves alone, and what the handlers of messages leave alone. *)
Definition kept w w' : Prop :=
  wire (proxy w') = wire (proxy w) ∧ clientSocket (proxy w') = clientSocket (proxy w) ∧
  options (proxy w') = options (proxy w).
Definition kept_in w w' : Prop := in_ (proxy w') = in_ (proxy w) ∧ kept w w'.

#[export] Instance kept_preorder : PreOrder kept.
Proof. split; [done|]. intros x y z (?&?&?) (?&?&?). split_and!; congruence. Qed.
#[export] Instance kept_in_preorder : PreOrder kept_in.
Proof. split; [done|]. intros x y z [? ?] [? ?]. split; [congruence|by etrans]. Qed.

Lemma kept_socket w w' : kept w w' → clientSocket (proxy w') = clientSocket (proxy w).
Proof. by intros (_&?&_). Qed.
Lemma kept_in_socket w w' : kept_in w w' → clientSocket (proxy w') = clientSocket (proxy w).
Proof. by intros (_&?%kept_socket). Qed.

Definition dispatched (es : list Event) : list Message :=
  omap (λ e, match e with Dispatched m => Some m | _ => None end) es.

Lemma dispatched_app es fs : dispatched (es ++ fs) = dispatched es ++ dispatched fs.
Proof. apply omap_app. Qed.

Definition open_ids (ms : list Message) : list Z := omap (λ m, match m with MOpen id _ => Some id | _ => None end) ms.

Lemma elem_of_open_ids id ms : id ∈ open_ids ms ↔ ∃ a, MOpen id a ∈ ms.
Proof.
  unfold open_ids. rewrite list_elem_of_omap. split.
  - intros (m&Hm&E). destruct m; try done. injection E as ->. by eexists.
  - intros [a Ha]. by exists (MOpen id a).
Qed.

Lemma open_ids_app ms ms' : open_ids (ms ++ ms') = open_ids ms ++ open_ids ms'.
Proof. apply omap_app. Qed.

Lemma open_ids_seen garbage ms : open_ids (seen garbage <$> ms) = open_ids ms.
Proof. induction ms as [|[] ms IH]; cbn; [done|f_equal; exact IH|exact IH..]. Qed.

(** The library moved on, without a change that concerns the proxy. *)
Record lib_kept (x x' : W) : Prop := {
  lk_ok : api_ok x';
  lk_live : ∀ g, is_live x' g ↔ is_live x g;
  lk_armed : ∀ g, armed x' g → armed x g;
  lk_room : ∀ s k, can_connect x s k → can_connect x' s k;
}.

Lemma px_inv_set_lib w x :
  px_inv w → api_ok x → (∀ g, is_live x g ↔ is_live (lib w) g) → (∀ g, armed x g → armed (lib w) g) →
  px_inv (set_lib x w).
Proof.
  intros [] Hok Hl Ha. split; simpl; try done.
  - intros n c h Hn Hh. rewrite Hl. eauto.
  - intros h Hh. rewrite Hl. eauto.
  - intros h h' n Hh Hh'. eauto.
  - unfold usable in *. destruct (wire (proxy w)); [by rewrite Hl|done].
Qed.

Lemma px_inv_lib w x : px_inv w → lib_kept (lib w) x → px_inv (set_lib x w).
Proof. intros Hw [Hok Hl Ha _]. by apply px_inv_set_lib. Qed.

Lemma px_inv_emit w e : px_inv w → px_inv (mkWorld W (proxy w) (nodes w) (users w) (lib w) (events w ++ [e])).
Proof. by intros []. Qed.

Lemma px_inv_out w q : px_inv w → sv_wf q → px_inv (set_proxy (set_out q) w).
Proof. intros [] ?. by split. Qed.

Lemma px_inv_in w b : px_inv w → cb_wf b → px_inv (set_proxy (set_in b) w).
Proof. intros [] ?. by split. Qed.

Lemma px_inv_scratch w s t : px_inv w → px_inv (set_proxy (λ p, set_scratch1 t (set_scratch0 s p)) w).
Proof. by intros []. Qed.

(** Changing an entry without its id, to a connection that is known to be its own. *)
Lemma px_inv_assign w n c c' :
  px_inv w → nodes w !! n = Some c → pc_id c' = pc_id c →
  (∀ h, pc_connection c' = Some h → is_live (lib w) h ∧ users w !! h = Some n ∧
     (wire (proxy w) = Some h → pc_id c = wire_id)) →
  px_inv (set_nodes (<[n := c']> (nodes w)) w).
Proof.
  intros Hw Hn Hid Hh. destruct Hw as [H1 H2 H3 H4 H5 H6 H7 H8 H9 H10]. split; simpl; try done.
  - intros id m Hm. destruct (H2 id m Hm) as (x&Hx&Hxid). destruct (decide (m = n)) as [->|Hne].
    + exists c'. rewrite lookup_insert_eq. split; [done|congruence].
    + exists x. by rewrite lookup_insert_ne.
  - intros m x [[<- <-]|[_ Hx]]%lookup_insert_Some; [rewrite Hid; eauto|eauto].
  - intros m x h [[<- <-]|[_ Hx]]%lookup_insert_Some Hxh; [destruct (Hh h Hxh) as (?&?&_); done|eauto].
  - intros h Hah. destruct (H5 h Hah) as (?&m&x&?&Hx). split; [done|]. destruct (decide (m = n)) as [->|Hne].
    + exists n, c'. by rewrite lookup_insert_eq.
    + exists m, x. by rewrite lookup_insert_ne.
  - intros m x h [[<- <-]|[_ Hx]]%lookup_insert_Some Hxh Hwh; [|eauto]. rewrite Hid. by apply (Hh h Hxh).
Qed.

(** Freeing an entry whose callback has run. *)
Lemma px_inv_erase w n c :
  px_inv w → nodes w !! n = Some c → (∀ h, armed (lib w) h → users w !! h ≠ Some n) →
  px_inv (set_nodes (delete n (nodes w)) (set_proxy (λ p, set_connections (delete (pc_id c) (connections p)) p) w)).
Proof.
  intros [H1 H2 H3 H4 H5 H6 H7 H8 H9 H10] Hn Ha. split; simpl; try done.
  - intros id m [Hne Hm]%lookup_delete_Some. destruct (H2 id m Hm) as (x&Hx&Hid). exists x.
    rewrite lookup_delete_ne; [done|]. intros ->. congruence.
  - intros m x [Hne Hx]%lookup_delete_Some. rewrite lookup_delete_ne; [eauto|].
    intros E. pose proof (H3 m x Hx) as Hm. rewrite <-E, (H3 n c Hn) in Hm. congruence.
  - intros m x h [_ Hx]%lookup_delete_Some. eauto.
  - intros h Hh. destruct (H5 h Hh) as (?&m&x&Hm&Hx). split; [done|]. exists m, x. split; [done|].
    rewrite lookup_delete_ne; [done|]. intros ->. by apply (Ha h Hh).
  - intros m x h [_ Hx]%lookup_delete_Some. eauto.
Qed.

(** A handle that is no entry's and not the wire is freed. *)
Lemma px_inv_free w h x :
  px_inv w → (∀ n c, nodes w !! n = Some c → pc_connection c ≠ Some h) → wire (proxy w) ≠ Some h →
  api_ok x → (∀ g, is_live x g ↔ is_live (lib w) g ∧ g ≠ h) → (∀ g, armed x g → armed (lib w) g) → ¬ armed (lib w) h →
  px_inv (set_lib x w).
Proof.
  intros [H1 H2 H3 H4 H5 H6 H7 H8 H9 H10] Hno Hwire Hok Hl Ha Hna. split; simpl; try done.
  - intros n c g Hn Hg. rewrite Hl. destruct (H4 n c g Hn Hg). split; [|done]. split; [done|].
    intros ->. by apply (Hno n c).
  - intros g Hg. rewrite Hl. destruct (H5 g (Ha g Hg)) as (?&?). split; [|done]. split; [done|].
    intros ->. by apply Hna, Ha.
  - intros g g' n Hg Hg'. eauto.
  - unfold usable in *. destruct (wire (proxy w)); [|done]. rewrite Hl. split; [done|]. by intros ->.
Qed.

(** ** Calls of the library *)

Lemma wp_api {A} (m : M W A) Q w : wp m (λ a x, Q a (set_lib x w)) (lib w) → wp (api m) Q w.
Proof. unfold wp, api. by destruct (m (lib w)) as [[a x]|]. Qed.

Lemma wp_deref n c Q w : nodes w !! n = Some c → Q c w → wp (deref n) Q w.
Proof. unfold wp, deref. by intros ->. Qed.

Lemma wp_send h d r Q w :
  px_inv w → usable (lib w) h → Z.of_nat (length d) < 2 ^ 31 →
  (∀ code x, lib_kept (lib w) x →
     Q code (mkWorld W (proxy w) (nodes w) (users w) x (events w ++ [Sent h d r code]))) →
  wp (mrudp_send h d (Z.of_nat (length d)) r) Q w.
Proof.
  intros Hw Hu Hd HQ. unfold mrudp_send. rewrite decide_False by lia. rewrite Nat2Z.id, take_ge by done.
  apply wp_bind, wp_api. eapply wp_mono; [by apply send_law; [apply Hw|..]|].
  intros code x (Hok&Hl&_&Ha&Hr). apply wp_bind. apply (HQ code x). by split.
Qed.

(** *** Queueing *)

Lemma wp_send_queue n c mode data Q w :
  px_inv w → nodes w !! n = Some c → Z.of_nat (length data) < 2 ^ 16 → sv_size (out (proxy w)) < 2 ^ 32 →
  (∀ q, sv_wf q → sv_size q = sv_size (out (proxy w)) + 7 + Z.of_nat (length data) →
     sv_contents q = sv_contents (out (proxy w)) ++
       encode_ProxyPacketHeader (mkProxyPacketHeader (u16 (Z.of_nat (length data))) (pc_id c) mode) ++ data →
     Q MRUDP_OK (set_proxy (set_out q) w)) →
  wp (proxy_send_queue n mode data) Q w.
Proof.
  intros Hw Hn Hd Hs HQ. destruct (send_queue_run n c mode data w Hn (pi_out _ Hw) Hd Hs) as (q&E&Hq&Sq&Cq).
  unfold wp. rewrite E. by apply HQ.
Qed.

(** *** Closing *)

Lemma wp_close_none fuel Q w :
  px_inv w → (∀ code x, lib_kept (lib w) x → Q code (set_lib x w)) → wp (mrudp_close_connection_ fuel None) Q w.
Proof.
  intros Hw HQ. destruct fuel; simpl; apply wp_bind, wp_api;
    (eapply wp_mono; [by apply close_begin_law; [apply Hw|]|]);
    intros [code cb] x (Hok&Hl&_&Ha&Hc&Hcb&Hr);
    (assert (lib_kept (lib w) x) as Hk by (split; [done|done|intros g Hg; by apply Ha|done]));
    (destruct cb; [by destruct Hcb as (?&?&_)|]); wp_steps;
    (destruct (Z.eqb_spec code MRUDP_OK) as [->|?]; [by destruct (proj1 Hc eq_refl) as (?&?&_)|]);
    apply wp_ret; by apply HQ.
Qed.

(** The entry is gone, or still there without a connection; only [CLOSE] may have been queued. *)
Definition entry_closed (n : NodeRef) w w' : Prop :=
  px_inv w' ∧ kept_in w w' ∧ dom (connections (proxy w')) ⊆ dom (connections (proxy w)) ∧
  sv_size (out (proxy w')) ≤ sv_size (out (proxy w)) + 7 ∧ events w' = events w ∧
  (∀ c, nodes w' !! n = Some c → pc_connection c = None) ∧
  (∀ m c, m ≠ n → nodes w' !! m = Some c → nodes w !! m = Some c) ∧ lib_kept (lib w) (lib w').

Lemma wp_erase_entry n c Q w :
  px_inv w → nodes w !! n = Some c → (∀ h, armed (lib w) h → users w !! h ≠ Some n) →
  (∀ w', px_inv w' → lib w' = lib w → users w' = users w → events w' = events w → nodes w' = delete n (nodes w) →
     proxy w' = set_connections (delete (pc_id c) (connections (proxy w))) (proxy w) → Q tt w') →
  wp (on_connection_close_entry n) Q w.
Proof.
  intros Hw Hn Ha HQ. unfold on_connection_close_entry. apply wp_bind, (wp_deref n c); [done|]. wp_steps.
  rewrite (pi_node _ Hw n c Hn). wp_steps. apply HQ; try done. exact (px_inv_erase w n c Hw Hn Ha).
Qed.

(** The callback of an entry that has given up its connection and is not armed any more. *)
Lemma wp_callback fuel n c w :
  px_inv w → nodes w !! n = Some c → pc_connection c = None → (∀ h, armed (lib w) h → users w !! h ≠ Some n) →
  sv_size (out (proxy w)) < 2 ^ 32 →
  wp (on_connection_close (mrudp_close_connection_ fuel) n) (λ _ w', entry_closed n w w') w.
Proof.
  intros Hw Hn Hc Ha Hs. unfold on_connection_close. apply wp_bind, (wp_deref n c); [done|]. rewrite Hc.
  apply wp_bind, wp_close_none; [done|]. intros _ x Hx. set (w1 := set_lib x w).
  assert (px_inv w1) as Hw1 by (by apply px_inv_lib).
  assert (∀ h, armed (lib w1) h → users w1 !! h ≠ Some n) as Ha1 by (intros h Hh; apply Ha; by apply Hx).
  apply wp_bind. unfold set_connection. apply wp_bind, (wp_deref n c); [done|]. unfold assign. wp_steps.
  set (c2 := mkProxyConnection _ _ _). set (w2 := set_nodes _ _).
  assert (px_inv w2) as Hw2 by (by apply (px_inv_assign w1 n c c2)).
  assert (nodes w2 !! n = Some c2) as Hn2 by (apply lookup_insert_eq).
  apply (wp_deref n c2); [done|].
  assert (lib_kept (lib w) (lib w2)) as Hk2 by done.
  assert (∀ m d, m ≠ n → nodes w2 !! m = Some d → nodes w !! m = Some d) as Hm2.
  { intros m d Hne. simpl. by rewrite lookup_insert_ne. }
  assert (entry_closed n w w2) as Hec2.
  { split_and!; try done.
    - simpl. lia.
    - intros d Hd. rewrite Hn2 in Hd. by injection Hd as <-. }
  assert (∀ w3 Q, px_inv w3 → nodes w3 = nodes w2 → users w3 = users w → lib w3 = x →
    connections (proxy w3) = connections (proxy w) → kept_in w w3 → events w3 = events w →
    sv_size (out (proxy w3)) ≤ sv_size (out (proxy w)) + 7 → (∀ w4, entry_closed n w w4 → Q tt w4) →
    wp (on_connection_close_entry n) Q w3) as Herase.
  { intros w3 Q Hw3 En Eu El Ec Hk3 Ee Es3 HQ. apply (wp_erase_entry n c2); [done|by rewrite En| |].
    - rewrite Eu, El. intros h Hh. by apply Ha1.
    - intros w4 Hw4 El4 Eu4 Ee4 En4 Ep4. apply HQ. unfold entry_closed, kept_in, kept in *. rewrite Ep4, En4, El4, El, Ee4, Ee, En. simpl.
      rewrite Ec. split_and!; try done; try apply Hk3; [set_solver|..].
      + intros d [? _]%lookup_delete_Some. done.
      + intros m d Hne [_ Hd]%lookup_delete_Some. by apply (Hm2 m d). }
  change (pc_mode c2) with (pc_mode c). destruct (pc_mode c).
  - by apply wp_ret.
  - unfold on_wire_close. apply wp_bind. apply Herase; try done; try (simpl; lia).
  - unfold on_proxy_close. apply wp_bind, (wp_send_queue n c2); [done|done|simpl; lia|done|].
    intros q Hq Sq _. simpl in Sq. apply wp_bind. apply Herase; try done; try (simpl; lia).
    by apply px_inv_out.
Qed.

(** What dispatching messages may change; [k] bytes may be queued meanwhile. *)
Record dispatches (K : relation (World W)) (k : Z) (ms : list Message) w w' : Prop := {
  di_inv : px_inv w';
  di_kept : K w w';
  di_out : sv_size (out (proxy w')) ≤ sv_size (out (proxy w)) + k;
  di_events : dispatched (events w') = dispatched (events w) ++ ms;
  di_ids : ∀ id, is_Some (connections (proxy w') !! id) → is_Some (connections (proxy w) !! id) ∨ ∃ a, MOpen id a ∈ ms;
  di_room : ∀ k, can_connect (lib w) (clientSocket (proxy w)) (length (open_ids ms) + k) →
    can_connect (lib w') (clientSocket (proxy w)) k;
}.

(** Closing the handle an entry has given up. *)
Lemma wp_close_given_up n c h w :
  px_inv w → nodes w !! n = Some c → pc_connection c = None → is_live (lib w) h → users w !! h = Some n →
  (∀ m d, nodes w !! m = Some d → pc_connection d ≠ Some h) → wire (proxy w) ≠ Some h →
  sv_size (out (proxy w)) < 2 ^ 32 →
  wp (mrudp_close_connection (Some h)) (λ _ w', dispatches kept_in 7 [] w w') w.
Proof.
  intros Hw Hn Hc Hlive Hu Hno Hwire Hs. unfold mrudp_close_connection. cbn [mrudp_close_connection_].
  apply wp_bind, wp_api. eapply wp_mono; [by apply close_begin_law; [apply Hw|]|].
  intros [code cb] x (Hok&Hl&Ho&Ha&Hcode&Hcb&Hr). set (w1 := set_lib x w).
  assert (lib_kept (lib w) x) as Hk by (split; [done|done|intros g Hg; by apply Ha|done]).
  assert (px_inv w1) as Hw1 by (by apply px_inv_lib).
  assert (¬ armed x h) as Hnarm by (intros Hh; by apply Ha in Hh as [_ ?]).
  (* what is left to do after the callback *)
  enough (∀ w2, entry_closed n w1 w2 →
    wp (if code =? MRUDP_OK then api (api_close_end (Some h));; mret code else mret code)
      (λ _ w', dispatches kept_in 7 [] w w') w2) as Hrest.
  { apply wp_bind. destruct cb.
    - destruct (Hcb eq_refl) as (g&[= <-]&_&Harm). apply wp_bind, wp_mget, wp_bind.
      eapply wp_lift; [exact Hu|]. apply wp_bind. eapply wp_mono; [apply (wp_callback 0 n c w1); try done|].
      + intros g Hg Hug. apply Ha in Hg as [Hg Hne]. apply Hne. f_equal.
        by apply (pi_armed_inj _ Hw g h n).
      + intros ? w2 H2. apply wp_ret. by apply Hrest.
    - apply wp_ret. apply Hrest. split_and!; try done; simpl; [lia|]. intros d Hd. congruence. }
  intros w2 (Hw2&Hk2&Hdom&Hout&Hev&Hn2&Hm2&Hlk2).
  assert (∀ w3, px_inv w3 → proxy w3 = proxy w2 → events w3 = events w2 →
    (∀ s k, can_connect (lib w) s k → can_connect (lib w3) s k) → dispatches kept_in 7 [] w w3) as Hfin.
  { intros w3 Hw3 Ep Ee Hr3. split; [done|..].
    - unfold kept_in, kept in *. by rewrite Ep.
    - by rewrite Ep.
    - by rewrite Ee, Hev, app_nil_r.
    - intros id Hid. left. rewrite Ep in Hid. apply elem_of_dom, Hdom, elem_of_dom. exact Hid.
    - intros k. apply Hr3. }
  destruct (Z.eqb_spec code MRUDP_OK) as [->|?]; [|apply wp_ret; apply Hfin; [done..|intros s k Hs'; by apply Hlk2, Hr]].
  apply wp_bind, wp_api. eapply wp_mono.
  { apply close_end_law; [apply Hw2|]. by apply Hlk2, Hl. }
  intros _ y (Hoky&Hly&_&Hay&Hry). apply wp_ret. apply Hfin; [|done|done|intros s k Hs'; by apply Hry, Hlk2, Hr].
  apply (px_inv_free _ h); try done.
  - intros m d Hd. destruct (decide (m = n)) as [->|Hne]; [by rewrite (Hn2 d Hd)|]. apply (Hno m).
    by apply (Hm2 m d).
  - destruct Hk2 as (_&->&_). done.
  - intros Hh. apply Hnarm. by apply Hlk2.
Qed.

(** ** Dispatching keeps the invariant *)

Lemma dispatches_trans K `{!PreOrder K} k1 k2 ms1 ms2 w1 w2 w3 :
  (∀ w w', K w w' → clientSocket (proxy w') = clientSocket (proxy w)) →
  dispatches K k1 ms1 w1 w2 → dispatches K k2 ms2 w2 w3 → dispatches K (k1 + k2) (ms1 ++ ms2) w1 w3.
Proof.
  intros HK [A1 A2 A6 A7 A8 A9] [B1 B2 B6 B7 B8 B9]. split; [done|by etrans|lia| | |].
  - by rewrite B7, A7, app_assoc.
  - intros id [Hid|[a Ha]]%B8; [apply A8 in Hid as [Hid|[a Ha]]|]; [by left|right..]; exists a; set_solver.
  - intros k. rewrite open_ids_app, length_app, <-Nat.add_assoc. intros Hk%A9. rewrite <-(HK _ _ A2) in *. by apply B9.
Qed.

Lemma dispatches_refl K `{!PreOrder K} w : px_inv w → dispatches K 0 [] w w.
Proof. intros Hw. split; [done|reflexivity|lia|by rewrite app_nil_r|by left|done]. Qed.

(** A new entry, not yet connected. *)
Lemma px_inv_new w n id mode :
  px_inv w → connections (proxy w) !! id = None → n ∉ dom (nodes w) →
  px_inv (set_nodes (<[n := mkProxyConnection id mode None]> (nodes w))
    (set_proxy (λ p, set_connections (<[id := n]> (connections p)) p) w)).
Proof.
  intros [H1 H2 H3 H4 H5 H6 H7 H8 H9 H10] Hid Hn%not_elem_of_dom. split; simpl; try done.
  - intros i m [[<- <-]|[_ Hm]]%lookup_insert_Some; [eexists; by rewrite lookup_insert_eq|].
    destruct (H2 i m Hm) as (c&Hc&?). exists c. rewrite lookup_insert_ne; [done|congruence].
  - intros m c [[<- <-]|[_ Hc]]%lookup_insert_Some; [by rewrite lookup_insert_eq|].
    rewrite lookup_insert_ne; [eauto|]. intros E. pose proof (H3 m c Hc) as Hm. by rewrite <-E, Hid in Hm.
  - intros m c h [[<- <-]|[_ Hc]]%lookup_insert_Some; [done|eauto].
  - intros h Hh. destruct (H5 h Hh) as (?&m&c&?&Hc). split; [done|]. exists m, c. split; [done|].
    rewrite lookup_insert_ne; [done|congruence].
  - intros m c h [[<- <-]|[_ Hc]]%lookup_insert_Some; [done|eauto].
Qed.

(** A fresh handle for an entry that no armed handle names. *)
Lemma px_inv_connect w n c h x :
  px_inv w → nodes w !! n = Some c → (∀ g, armed (lib w) g → users w !! g ≠ Some n) →
  api_ok x → ¬ is_live (lib w) h → (∀ g, is_live x g ↔ is_live (lib w) g ∨ g = h) →
  (∀ g, armed x g → armed (lib w) g ∨ g = h) →
  px_inv (set_nodes (<[n := mkProxyConnection (pc_id c) (pc_mode c) (Some h)]> (nodes w))
    (set_users (<[h := n]> (users w)) (set_lib x w))).
Proof.
  intros [H1 H2 H3 H4 H5 H6 H7 H8 H9 H10] Hn Hna Hok Hh Hl Ha. split; simpl; try done.
  - intros i m Hm. destruct (H2 i m Hm) as (d&Hd&?). destruct (decide (m = n)) as [->|Hne].
    + eexists. rewrite lookup_insert_eq. split; [done|]. simpl. congruence.
    + exists d. by rewrite lookup_insert_ne.
  - intros m d [[<- <-]|[_ Hd]]%lookup_insert_Some; [exact (H3 n c Hn)|eauto].
  - intros m d g [[<- <-]|[_ Hd]]%lookup_insert_Some Hg.
    + injection Hg as <-. rewrite Hl, lookup_insert_eq. auto.
    + destruct (H4 m d g Hd Hg) as [Hlg Hug]. assert (h ≠ g) by (by intros ->).
      rewrite Hl, lookup_insert_ne by done. auto.
  - intros g [Hg| ->]%Ha; rewrite Hl.
    + destruct (H5 g Hg) as (Hlg&m&d&Hum&Hd). split; [by left|]. exists m.
      assert (h ≠ g) by (by intros ->). assert (n ≠ m) by (intros ->; by apply (Hna g)).
      rewrite !lookup_insert_ne by done. eauto.
    + split; [by right|]. exists n. rewrite !lookup_insert_eq. eauto.
  - intros g g' m [Hg| ->]%Ha [Hg'| ->]%Ha; [..|done].
    + rewrite !lookup_insert_ne by (intros <-; by apply Hh, H5). eauto.
    + rewrite lookup_insert_ne, lookup_insert_eq by (intros <-; by apply Hh, H5). intros E [= ->]. by destruct (Hna g Hg).
    + rewrite lookup_insert_eq, lookup_insert_ne by (intros <-; by apply Hh, H5). intros [= ->] E. by destruct (Hna g' Hg').
  - unfold usable in *. destruct (wire (proxy w)); [rewrite Hl; by left|done].
  - intros m d g [[<- <-]|[_ Hd]]%lookup_insert_Some Hg Hwg; [|eauto]. injection Hg as <-. rewrite Hwg in H7. done.
Qed.

(** The options of an opened connection. *)
Lemma open_options_keep delay cr du cu probe attempts :
  probe < 900000000 → -2 ^ 15 ≤ attempts < 2 ^ 15 →
  options_keep (mkOptions (mkCoalesce MRUDP_COALESCE_PACKET delay cr) (mkCoalesce MRUDP_COALESCE_NONE du cu) probe attempts).
Proof.
  intros Hp Ha d [Hd1 Hd2] Hu. unfold options_ok, uncompressed, merge. cbn [coalesce_reliable coalesce_unreliable mode probe_delay_ms Types.maximum_retry_attempts].
  destruct (probe =? -1), (attempts =? -1); split; done || lia.
Qed.

Lemma wp_open_entry mode id a w :
  px_inv w → connections (proxy w) !! id = None → Z.of_nat (length a) = sizeof_Address →
  can_connect (lib w) (clientSocket (proxy w)) 1 →
  wp (on_connection_open mode id a) (λ _ w', px_inv w' ∧ kept_in w w' ∧
    (∀ k, can_connect (lib w) (clientSocket (proxy w)) (S k) → can_connect (lib w') (clientSocket (proxy w)) k) ∧ out (proxy w') = out (proxy w) ∧
    events w' = events w ∧ connections (proxy w') = <[id := default xH (connections (proxy w') !! id)]> (connections (proxy w))) w.
Proof.
  intros Hw Hid Hlen Hcan. unfold on_connection_open. apply wp_bind. unfold wp at 1, at_connections. rewrite Hid.
  set (n := fresh (dom (nodes w))). assert (n ∉ dom (nodes w)) as Hn by apply is_fresh.
  apply wp_bind. eapply wp_deref; [apply lookup_insert_eq|]. unfold assign. wp_steps. cbn [pc_connection].
  pose proof (px_inv_new w n id mode Hw Hid Hn) as Hw1.
  set (w1 := set_nodes _ (set_proxy _ w)) in Hw1. match goal with |- wp _ _ ?x => replace x with w1 end; cycle 1.
  { unfold w1, set_nodes. simpl. by rewrite insert_insert_eq. }
  set (c1 := mkProxyConnection id mode None). assert (nodes w1 !! n = Some c1) as Hc1 by apply lookup_insert_eq.
  assert (∀ g, armed (lib w1) g → users w1 !! g ≠ Some n) as Hna.
  { intros g Hg Hu. destruct (pi_armed _ Hw g Hg) as (_&m&d&Hm&Hd). simpl in Hu. rewrite Hm in Hu. injection Hu as ->.
    apply Hn, elem_of_dom. by exists d. }
  unfold mrudp_connect_ex. apply wp_bind, wp_api. eapply wp_mono; [apply connect_law; [apply Hw1|done|done|by apply open_options_keep]|].
  assert (connections (proxy w1) = <[id := default xH (connections (proxy w1) !! id)]> (connections (proxy w))) as Hcs.
  { simpl. by rewrite lookup_insert_eq. }
  intros [h|] x (Hok&Hroom&Hx); apply wp_bind; wp_steps; unfold set_connection; apply wp_bind; (eapply wp_deref; [exact Hc1|]);
    unfold assign; wp_steps.
  - destruct Hx as (Hh&Hl&_&Ha). split_and!; [|done|done|done|done|exact Hcs].
    by apply (px_inv_connect w1 n c1 h x).
  - destruct Hx as (Hl&_&Ha). split_and!; [|done|done|done|done|exact Hcs].
    apply (px_inv_assign (set_lib x w1) n c1); [|done..]. by apply px_inv_set_lib.
Qed.

Lemma dispatches_weaken k ms w w' : dispatches kept_in k ms w w' → dispatches kept k ms w w'.
Proof. intros [? [_ ?] ????]. by split. Qed.

Lemma dispatches_more K k k' ms w w' : k ≤ k' → dispatches K k ms w w' → dispatches K k' ms w w'.
Proof. intros Hk [? ? ? ? ? ?]. split; [done|done|lia|done|done|done]. Qed.

Context (garbage : bytes).
Hypothesis garbage_size : Z.of_nat (length garbage) = sizeof_Address.

(** A message this proxy can take: an id it does not know yet is opened, and the wire is not
    closed by a message. *)
Definition acceptable (m : Message) w : Prop :=
  message_wf m ∧
  match m with
  | MOpen id _ => connections (proxy w) !! id = None ∧ can_connect (lib w) (clientSocket (proxy w)) 1
  | MClose id => id ≠ wire_id
  | _ => True
  end.

Lemma seen_addr_length a :
  Z.of_nat (length a) = sizeof_Address → Z.of_nat (length (seen_addr garbage a)) = sizeof_Address.
Proof.
  unfold sizeof_Address in *. intros Ha. unfold seen_addr, sin_port, sin_addr.
  rewrite !length_app, le_encode_length, !slice_length, length_drop by lia. lia.
Qed.

Lemma dispatch_wp m w :
  px_inv w → acceptable m w → sv_size (out (proxy w)) < 2 ^ 32 → wp (dispatch garbage m) (λ _ w', dispatches kept_in 7 [seen garbage m] w w') w.
Proof.
  intros Hw [(Hid32&Hsz&Hm) Hacc] Hs. unfold dispatch, emit. apply wp_bind, wp_modify.
  set (w1 := mkWorld W _ _ _ _ _). assert (px_inv w1) as Hw1 by (by apply px_inv_emit).
  assert (dispatched (events w1) = dispatched (events w) ++ [seen garbage m]) as He1 by (simpl; by rewrite dispatched_app).
  assert (∀ w', dispatches kept_in 7 [] w1 w' → dispatches kept_in 7 [seen garbage m] w w') as Hfin.
  { intros w' [D1 D2 D3 D4 D5 D6]. split; [done|done|done| | |].
    - by rewrite D4, He1, app_nil_r.
    - intros id Hid. apply D5 in Hid as [?|[a Ha]]; [by left|set_solver].
    - intros k Hk. apply D6. simpl. eapply room_law; [|exact Hk]. lia. }
  destruct m as [id a|id|id r data|h]; [| | |done].
  - apply wp_bind. eapply wp_mono; [apply wp_open_entry; [done|apply Hacc|by apply seen_addr_length|apply Hacc]|].
    intros k w' (Hw'&Hk&Hr&Ho&He&Hcs). apply wp_ret. split; [done|done|rewrite Ho; simpl; lia|by rewrite He| |exact Hr].
    intros i. rewrite Hcs. intros [j [[<- _]|[_ Hj]]%lookup_insert_Some]; [right; eexists; by left|left; by exists j].
  - unfold initiate_connection_close. wp_steps. destruct (connections (proxy w1) !! id) as [n|] eqn:Hn; cycle 1.
    { apply wp_ret. apply Hfin. split; [done|done|lia|by rewrite app_nil_r|by left|done]. }
    destruct (pi_conn _ Hw1 id n Hn) as (c&Hc&Hcid). apply wp_bind, (wp_deref n c); [done|]. apply wp_bind.
    unfold set_connection. apply wp_bind, (wp_deref n c); [done|]. unfold assign. wp_steps.
    set (c2 := mkProxyConnection _ _ _). set (w2 := set_nodes _ w1).
    assert (px_inv w2) as Hw2 by (by apply (px_inv_assign w1 n c c2)).
    assert (nodes w2 !! n = Some c2) as Hn2 by apply lookup_insert_eq.
    assert (∀ w', dispatches kept_in 7 [] w2 w' → dispatches kept_in 7 [] w1 w') as Hfin2 by (by intros w' []).
    destruct (pc_connection c) as [h|] eqn:Hh; cycle 1.
    { apply wp_close_none; [done|]. intros code x Hx. apply wp_ret. apply Hfin, Hfin2.
      split; [by apply px_inv_lib|done|simpl; lia|by rewrite app_nil_r|by left|intros k; apply Hx]. }
    destruct (pi_handle _ Hw1 n c h Hc Hh) as [Hlive Hu]. eapply wp_mono.
    { apply (wp_close_given_up n c2 h); try done.
      - intros m d. simpl. intros [[<- <-]|[Hne Hd]]%lookup_insert_Some Hdh; [done|].
        destruct (pi_handle _ Hw1 m d h Hd Hdh) as [_ Hu']. congruence.
      - intros E. apply Hacc. rewrite <-Hcid. by apply (pi_wire_id _ Hw1 n c h). }
    intros code w' Hd. apply wp_ret. by apply Hfin, Hfin2.
  - wp_steps. destruct (connections (proxy w1) !! id) as [n|] eqn:Hn; cycle 1.
    { apply wp_ret. apply Hfin. split; [done|done|lia|by rewrite app_nil_r|by left|done]. }
    destruct (pi_conn _ Hw1 id n Hn) as (c&Hc&_). apply wp_bind, (wp_deref n c); [done|]. apply wp_bind.
    simpl in Hsz. apply wp_send; [done| |unfold in_u in Hsz; lia|].
    { unfold usable. destruct (pc_connection c) eqn:Hh; [|done]. by apply (pi_handle _ Hw1 n c). }
    intros code x Hx. apply wp_ret. apply Hfin.
    split; [|done|simpl; lia|by simpl; rewrite !dispatched_app, !app_nil_r|by left|intros k; apply Hx].
    apply (px_inv_emit (set_lib x w1)). by apply px_inv_lib.
Qed.

(** Messages this proxy can take one after the other. *)
Record acceptable_all (ms : list Message) w : Prop := {
  aa_wf : Forall message_wf ms;
  aa_wire : MClose wire_id ∉ ms;
  aa_once : NoDup (open_ids ms);
  aa_new : ∀ id, id ∈ open_ids ms → connections (proxy w) !! id = None;
  aa_room : can_connect (lib w) (clientSocket (proxy w)) (length (open_ids ms));
}.

Lemma acceptable_app K k ms1 ms2 w w' :
  acceptable_all (ms1 ++ ms2) w → (∀ w w', K w w' → clientSocket (proxy w') = clientSocket (proxy w)) →
  dispatches K k (seen garbage <$> ms1) w w' → acceptable_all ms2 w'.
Proof.
  intros [Hwf Hwi Ho Hn Hr] HK Hd. rewrite open_ids_app in Ho, Hr. apply list.NoDup_app in Ho as (Ho1&Hdis&Ho2).
  apply Forall_app in Hwf as [_ ?]. rewrite length_app in Hr. split; [done|set_solver|done| |].
  { intros id Hid. apply eq_None_not_Some. intros Hs. apply (di_ids _ _ _ _ _ Hd) in Hs as [[n Hs]|[a Ha]].
  - rewrite Hn in Hs; [done|]. rewrite open_ids_app. set_solver.
  - apply (Hdis id); [|done]. apply list_elem_of_fmap in Ha as (m&E&Hm). destruct m; simpl in E; try done.
    injection E as -> _. apply elem_of_open_ids. by eexists. }
  rewrite (HK _ _ (di_kept _ _ _ _ _ Hd)). apply (di_room _ _ _ _ _ Hd). by rewrite open_ids_seen.
Qed.

Lemma dispatch_all_wp ms w :
  px_inv w → acceptable_all ms w →
  sv_size (out (proxy w)) + 7 * Z.of_nat (length ms) < 2 ^ 32 →
  wp (mapM_ (dispatch garbage) ms) (λ _ w', dispatches kept_in (7 * Z.of_nat (length ms)) (seen garbage <$> ms) w w') w.
Proof.
  revert w. induction ms as [|m ms IH]; intros w Hw Ha Hs; cbn [mapM_ length] in *.
  { by apply wp_ret, dispatches_refl; [apply _|]. }
  apply wp_bind. eapply wp_mono.
  { apply dispatch_wp; [done| |lia]. destruct Ha as [Hwf Hwi _ Hn Hr]. inversion Hwf; subst. split; [done|].
    destruct m; try done; [split; [apply Hn; by left|]|intros ->; apply Hwi; by left].
    eapply room_law; [|exact Hr]. simpl. lia. }
  intros [] w1 Hd. eapply wp_mono.
  { apply IH; [by apply (di_inv _ _ _ _ _ Hd)|by apply (acceptable_app kept_in 7 [m] ms w w1); [|apply kept_in_socket|]|].
    pose proof (di_out _ _ _ _ _ Hd). lia. }
  intros [] w2 Hd2. eapply dispatches_more; [|exact (dispatches_trans kept_in _ _ _ _ _ _ _ kept_in_socket Hd Hd2)]. lia.
Qed.
End invariant.
