(* ===== verification/Tunnel.v ===== *)
(** * The tunnel: two proxies and the wire between them

    What the ticker of one proxy sends is a sequence of framed payloads; what the ticker of the
    other makes of any prefix of their bytes is the dispatch of the payloads that are complete. The
    wire is a reliable stream of bytes, which [Protocol.v] shows a connection to be; it may hand
    the bytes over in pieces of any size and at any time. *)

From S2P Require Import Prelude MemCopy Containers Packet ReceiveQueue Types SendQueue Proxy ProxyWire.

(** The bytes of messages. *)
Abbreviation payload ms := (concat (encode_message <$> ms)).

Section ticker.
Context {W : Type} `{!Mrudp W, !MrudpLaws W, !Zlib, !ZlibLaws}.
Context (wire_id : Z).
Implicit Types w : World W.

(** ** Frames *)

(** A payload on the wire, compressed if compressing makes it no longer. *)
Definition frame (level : Z) (d : bytes) : bytes :=
  match (if 0 <? level then compress2 d (Z.of_nat (length d)) level else None) with
  | Some z => le_encode 4 (5 + Z.of_nat (length z)) ++ le_encode 1 1 ++ le_encode 4 (Z.of_nat (length d)) ++ z
  | None => le_encode 4 (1 + Z.of_nat (length d)) ++ le_encode 1 0 ++ d
  end.

Lemma frame_length level d : (5 ≤ length (frame level d) ≤ 9 + length d)%nat.
Proof.
  unfold frame. destruct (0 <? level).
  - destruct (compress2 _ _ _) as [z|] eqn:E; rewrite !length_app, !le_encode_length; [|lia].
    apply compress2_fits in E. lia.
  - rewrite !length_app, !le_encode_length. lia.
Qed.

(** ** Sending *)

(** Overwriting one piece of a buffer. *)
Lemma memcpy_piece (a b c d : bytes) at_ n :
  at_ = Z.of_nat (length a) → n = Z.of_nat (length d) → length b = length d →
  memcpy_at (a ++ b ++ c) at_ d 0 n = Some (a ++ d ++ c).
Proof.
  intros -> -> Hb. rewrite memcpy_at_eq by (rewrite ?length_app; lia). rewrite !Nat2Z.id, take_app_length, (take_ge d) by lia.
  replace (Z.to_nat (Z.of_nat (length a) + Z.of_nat (length d))) with (length (a ++ b)) by (rewrite length_app; lia).
  by rewrite (app_assoc a b c), drop_app_length.
Qed.

Lemma cut (n : nat) (v : bytes) : (n ≤ length v)%nat → ∃ a b, v = a ++ b ∧ length a = n.
Proof. intros Hn. exists (take n v), (drop n v). rewrite take_drop, length_take. split; [done|lia]. Qed.

(** The two ways the payload is laid out in the scratch buffer. *)
Lemma layout_compressed (v z : bytes) len :
  (9 + length z ≤ length v)%nat →
  ∃ v0 v1 v2 v3, memcpy_at v 9 z 0 (Z.of_nat (length z)) = Some v0 ∧ memcpy_at v0 4 (le_encode 1 1) 0 1 = Some v1 ∧
    memcpy_at v1 5 (le_encode 4 len) 0 4 = Some v2 ∧
    memcpy_at v2 0 (le_encode 4 (5 + Z.of_nat (length z))) 0 4 = Some v3 ∧
    take (9 + length z) v3 = le_encode 4 (5 + Z.of_nat (length z)) ++ le_encode 1 1 ++ le_encode 4 len ++ z ∧
    (9 + length z ≤ length v3)%nat.
Proof.
  intros Hv. destruct (cut 4 v ltac:(lia)) as (a&r&->&Ha). rewrite length_app in Hv.
  destruct (cut 1 r ltac:(lia)) as (b&r2&->&Hb). rewrite length_app in Hv.
  destruct (cut 4 r2 ltac:(lia)) as (c&r3&->&Hc). rewrite length_app in Hv.
  destruct (cut (length z) r3 ltac:(lia)) as (d&e&->&Hd).
  pose proof (le_encode_length 1 1). pose proof (le_encode_length 4 len).
  pose proof (le_encode_length 4 (5 + Z.of_nat (length z))).
  eexists _, _, _, _. split_and!.
  - rewrite !app_assoc, <-app_assoc. apply memcpy_piece; rewrite ?length_app; lia.
  - rewrite <-!app_assoc. apply memcpy_piece; lia.
  - rewrite app_assoc. apply memcpy_piece; rewrite ?length_app; lia.
  - rewrite <-!app_assoc. apply (memcpy_piece [] a _ _); simpl; lia.
  - cbn [app]. rewrite !app_assoc. apply take_app_length'. rewrite !length_app. lia.
  - cbn [app]. rewrite !length_app. lia.
Qed.

Lemma layout_plain (v d : bytes) :
  (5 + length d ≤ length v)%nat →
  ∃ v0 v1 v2, memcpy_at v 4 (le_encode 1 0) 0 1 = Some v0 ∧ memcpy_at v0 5 d 0 (Z.of_nat (length d)) = Some v1 ∧
    memcpy_at v1 0 (le_encode 4 (1 + Z.of_nat (length d))) 0 4 = Some v2 ∧
    take (5 + length d) v2 = le_encode 4 (1 + Z.of_nat (length d)) ++ le_encode 1 0 ++ d ∧ (5 + length d ≤ length v2)%nat.
Proof.
  intros Hv. destruct (cut 4 v ltac:(lia)) as (a&r&->&Ha). rewrite length_app in Hv.
  destruct (cut 1 r ltac:(lia)) as (b&r2&->&Hb). rewrite length_app in Hv.
  destruct (cut (length d) r2 ltac:(lia)) as (c&e&->&Hc).
  pose proof (le_encode_length 1 0). pose proof (le_encode_length 4 (1 + Z.of_nat (length d))).
  eexists _, _, _. split_and!.
  - apply memcpy_piece; lia.
  - rewrite app_assoc. apply memcpy_piece; rewrite ?length_app; lia.
  - rewrite <-!app_assoc. apply (memcpy_piece [] a _ _); simpl; lia.
  - cbn [app]. rewrite !app_assoc. apply take_app_length'. rewrite !length_app. lia.
  - cbn [app]. rewrite !length_app. lia.
Qed.

(** The payload of a tick and the bytes it is laid out in. *)
Lemma payload_layout level len (d : bytes) (v0 : bytes) :
  Z.of_nat (length d) = len → len + 9 < 2 ^ 31 → 9 + len ≤ Z.of_nat (length v0) →
  ∃ v p v2,
    (match (if 0 <? level then compress2 d len level else None) with
     | Some dest =>
       v ← memcpy_at v0 9 dest 0 (Z.of_nat (length dest));
       v ← memcpy_at v 4 (le_encode 1 1) 0 1;
       v ← memcpy_at v 5 (le_encode 4 (u32 len)) 0 4;
       Some (v, u32 (sizeof_WasCompressed + sizeof_UncompressedSize + Z.of_nat (length dest)))
     | None =>
       v ← memcpy_at v0 4 (le_encode 1 0) 0 1;
       v ← memcpy_at v 5 d 0 len;
       Some (v, u32 (sizeof_WasCompressed + len))
     end) = Some (v, p) ∧ memcpy_at v 0 (le_encode 4 p) 0 4 = Some v2 ∧ 0 ≤ p < 2 ^ 31 - 4 ∧
    Z.of_nat (length (frame level d)) = 4 + p ∧ ∃ rest, v2 = frame level d ++ rest.
Proof.
  intros Hd Hs Hsc. unfold frame. rewrite Hd.
  assert (∀ n (v f : bytes), take n v = f → ∃ rest, v = f ++ rest) as Hrest.
  { intros n v f <-. exists (drop n v). by rewrite take_drop. }
  destruct (if 0 <? level then _ else _) as [z|] eqn:Ez.
  - assert (Z.of_nat (length z) ≤ len) as Hz.
    { destruct (0 <? level); [|done]. by eapply compress2_fits. }
    destruct (layout_compressed v0 z len ltac:(lia)) as (x0&x1&x2&x3&E0&E1&E2&E3&Et&El).
    rewrite E0. cbn [mbind option_bind]. rewrite E1. cbn [mbind option_bind].
    rewrite (wrap_small 32 len) by (unfold in_u; lia). rewrite E2. cbn [mbind option_bind].
    unfold sizeof_WasCompressed, sizeof_UncompressedSize. rewrite wrap_small by (unfold in_u; lia).
    change (1 + 4 + Z.of_nat (length z)) with (5 + Z.of_nat (length z)).
    exists x2, (5 + Z.of_nat (length z)), x3. split_and!; [done|done|lia|lia| |by eapply Hrest].
    rewrite !length_app, !le_encode_length. lia.
  - destruct (layout_plain v0 d ltac:(lia)) as (x0&x1&x2&E0&E1&E2&Et&El). rewrite Hd in E1, E2, Et.
    rewrite E0. cbn [mbind option_bind]. rewrite E1. cbn [mbind option_bind].
    unfold sizeof_WasCompressed. rewrite wrap_small by (unfold in_u; lia).
    exists x1, (1 + len), x2. split_and!; [done|done|lia|lia| |by eapply Hrest].
    rewrite !length_app, !le_encode_length. lia.
Qed.

(** What a tick may do on the sending side. *)
Definition flushed w w' : Prop :=
  px_inv wire_id w' ∧ kept_in w w' ∧ connections (proxy w') = connections (proxy w) ∧
  (∀ s k, can_connect (lib w) s k → can_connect (lib w') s k) ∧
  ((out (proxy w') = out (proxy w) ∧ events w' = events w) ∨
   sv_contents (out (proxy w')) = [] ∧
   ∃ code, events w' = events w ++
     [Sent (wire (proxy w)) (frame (proxy_compression_level (options (proxy w))) (sv_contents (out (proxy w)))) true code]).

Lemma tick_send_wp w :
  px_inv wire_id w → sv_size (out (proxy w)) + 9 < 2 ^ 31 → wp tick_send (λ _ w', flushed w w') w.
Proof.
  intros Hw Hs. pose proof (pi_out _ _ Hw) as Ho. unfold tick_send. wp_steps.
  assert (flushed w w) as Hsame by (split_and!; try done; by left).
  unfold sv_empty. destruct (Z.eqb_spec (sv_size (out (proxy w))) 0) as [?|Hne]; [by apply wp_ret|].
  apply wp_bind, wp_api. eapply wp_mono; [by apply state_law; apply Hw|].
  intros [code [awaiting|]] x (_&Hok&Hl&_&Ha&Hr); set (w1 := set_lib x w);
    (assert (px_inv wire_id w1) as Hw1 by (apply px_inv_lib; [done|by split]));
    (assert (flushed w w1) as Hsame1 by (split_and!; try done; by left)); [|by apply wp_ret].
  destruct (mrudp_failed code); [by apply wp_ret|]. destruct (awaiting <? _); [|by apply wp_ret].
  set (len := sv_size (out (proxy w))) in *.
  rewrite (wrap_small 64) by (unfold in_u, sizeof_PayloadPacketSize, sizeof_WasCompressed, sizeof_UncompressedSize, sv_wf in *; lia).
  set (sc := sv_resize _ _). set (d := take _ _).
  assert (Z.of_nat (length d) = len) as Hd by (apply sv_contents_length, Ho).
  assert (9 + len ≤ Z.of_nat (length (sv_v sc))) as Hsc.
  { etrans; [|apply sv_resize_length]; unfold sizeof_PayloadPacketSize, sizeof_WasCompressed, sizeof_UncompressedSize, sv_wf in *; lia. }
  set (level := proxy_compression_level _).
  destruct (payload_layout level len d (sv_v sc) Hd ltac:(lia) Hsc) as (v&p&v2&E1&E2&Hp&Hfl&rest&->).
  apply wp_bind. eapply wp_lift; [exact E1|]. cbv beta iota. apply wp_bind. eapply wp_lift; [exact E2|]. apply wp_bind.
  unfold sizeof_PayloadPacketSize. rewrite (swrap_small 32) by lia.
  unfold wp at 1. rewrite <-Hfl, mrudp_send_app. change (wp (mrudp_send (wire (proxy w)) (frame level d)
    (Z.of_nat (length (frame level d))) true) (λ _, wp (modify (set_proxy (λ p, set_out (sv_resize 0 (out p))
      (set_scratch0 (mkSizedVector (frame level d ++ rest) (sv_size sc)) p)))) (λ _ w', flushed w w')) w1).
  apply (wp_send wire_id); [done|apply Hw1|lia|]. intros code' y Hy. apply wp_modify.
  assert (px_inv wire_id (set_lib y w1)) as Hwy by (by apply px_inv_lib).
  split_and!; [|done|done|intros s k Hk; by apply Hy, Hr|].
  - destruct Hwy. split; simpl; try done. unfold sv_wf. simpl. lia.
  - right. split; [done|]. by exists code'.
Qed.

(** ** Receiving *)

(** what the stack held *)
Context (garbage : bytes).
Hypothesis garbage_size : Z.of_nat (length garbage) = sizeof_Address.

Lemma wp_in_read (x y : bytes) n Q w :
  px_inv wire_id w → cb_contents (in_ (proxy w)) = x ++ y → n = Z.of_nat (length x) →
  (∀ b, cb_wf b → cb_contents b = y → Q x (set_proxy (set_in b) w)) → wp (in_read n) Q w.
Proof.
  intros Hw Hc -> HQ. pose proof (pi_in _ _ Hw) as Hb. pose proof (cb_contents_length _ Hb) as Hl.
  rewrite Hc, length_app in Hl. destruct (cb_read_spec (Z.of_nat (length x)) _ Hb ltac:(lia)) as (b&E&Hb'&Hc').
  rewrite Hc, Nat2Z.id, take_app_length, drop_app_length in *.
  unfold in_read. wp_steps. eapply wp_lift; [exact E|]. wp_steps. by apply HQ.
Qed.

Lemma wp_fill_scratch v (d : bytes) Q w :
  Z.of_nat (length d) ≤ Z.of_nat (length (sv_v v)) →
  (∀ stale, Q (mkSizedVector (d ++ stale) (sv_size v)) w) → wp (fill_scratch v d) Q w.
Proof.
  intros Hl HQ. unfold fill_scratch. apply wp_bind. eapply wp_lift; [apply memcpy_at_eq; lia|].
  apply wp_ret. simpl. rewrite Nat2Z.id, take_ge by done. apply HQ.
Qed.

(** The dispatch of a payload that lies at the front of a scratch buffer. *)
Lemma wp_on_wire_packet ms stale n Q w :
  px_inv wire_id w → acceptable_all wire_id ms w →
  sv_size (out (proxy w)) + 7 * Z.of_nat (length ms) < 2 ^ 32 → n = Z.of_nat (length (payload ms)) →
  (∀ w', dispatches wire_id kept_in (7 * Z.of_nat (length ms)) (seen garbage <$> ms) w w' → Q 0 w') →
  wp (on_wire_packet garbage (payload ms ++ stale) n) Q w.
Proof.
  intros Hw Ha Hs -> HQ. unfold wp. rewrite on_wire_packet_messages by apply Ha.
  change (wp (mapM_ (dispatch garbage) ms;; mret 0) Q w). apply wp_bind.
  eapply wp_mono; [by apply (dispatch_all_wp wire_id)|]. intros [] w' Hd. by apply wp_ret, HQ.
Qed.

(** What the dispatch of a payload needs. *)
Record ready (ms : list Message) w : Prop := {
  re_inv : px_inv wire_id w;
  re_acceptable : acceptable_all wire_id ms w;
  re_out : sv_size (out (proxy w)) + 7 * Z.of_nat (length ms) < 2 ^ 32;
  re_size : Z.of_nat (length (payload ms)) + 9 < 2 ^ 31;
}.

(** The state but for the buffers a payload is taken through. *)
Lemma ready_in ms b w : ready ms w → cb_wf b → ready ms (set_proxy (set_in b) w).
Proof. intros [] Hb. split; try done; [by apply px_inv_in|by destruct re_acceptable0]. Qed.

Lemma ready_scratch ms (f : Proxy → Proxy) w :
  ready ms w → (∀ p, ∃ s t, f p = set_scratch1 t (set_scratch0 s p)) → ready ms (set_proxy f w).
Proof.
  intros [Hi Ha Ho Hz] Hf. unfold set_proxy. destruct (Hf (proxy w)) as (s&t&->).
  split; try done; [exact (px_inv_scratch wire_id w s t Hi)|by destruct Ha].
Qed.

(** What it leaves. *)
Definition taken (ms : list Message) (more : bytes) w w' : Prop :=
  dispatches wire_id kept (7 * Z.of_nat (length ms)) (seen garbage <$> ms) w w' ∧
  cb_contents (in_ (proxy w')) = more.

Lemma payload_dispatch ms stale more w0 w :
  ready ms w → cb_contents (in_ (proxy w)) = more → kept w0 w → out (proxy w) = out (proxy w0) →
  events w = events w0 → connections (proxy w) = connections (proxy w0) → lib w = lib w0 →
  wp (on_wire_packet garbage (payload ms ++ stale) (int32 (Z.of_nat (length (payload ms)))))
    (λ _ w', taken ms more w0 w') w.
Proof.
  intros [Hi Ha Ho Hz] Hm Hk Eo Ee Ec El. rewrite (swrap_small 32) by lia.
  apply (wp_on_wire_packet ms stale); try done. intros w' [D1 [D2 D2'] D3 D4 D5 D6]. split; [|congruence].
  split; [done|by etrans|by rewrite <-Eo|by rewrite D4, Ee| |].
  - intros id Hid. rewrite <-Ec. by apply D5.
  - intros k. rewrite <-(kept_socket _ _ Hk), <-El. apply D6.
Qed.

Lemma wp_payload_plain ms more w0 w :
  ready ms w → cb_contents (in_ (proxy w)) = payload ms ++ more → kept w0 w → out (proxy w) = out (proxy w0) →
  events w = events w0 → connections (proxy w) = connections (proxy w0) → lib w = lib w0 →
  wp (payload_plain garbage (Z.of_nat (length (payload ms)))) (λ _ w', taken ms more w0 w') w.
Proof.
  intros Hr Hc Hk Eo Ee Ec El. unfold payload_plain. wp_steps. set (w3 := set_proxy _ w).
  assert (ready ms w3) as Hr3 by (apply ready_scratch; [done|intros p; by exists (sv_resize (Z.of_nat (length (payload ms))) (scratch0 p)), (scratch1 p)]).
  apply (wp_in_read (payload ms) more); [apply Hr3|done|done|]. intros b4 Hb4 Hc4. wp_steps.
  set (w4 := set_proxy (set_in b4) w3). assert (ready ms w4) as Hr4 by (by apply ready_in).
  apply wp_fill_scratch. { apply sv_resize_length. lia. }
  intros stale. wp_steps. apply payload_dispatch; try done.
  apply ready_scratch; [done|]. intros p. eexists _, (scratch1 p). done.
Qed.

Lemma wp_payload_compressed ms z more w0 w :
  ready ms w → uncompress z (Z.of_nat (length (payload ms))) = payload ms →
  Z.of_nat (length z) < 2 ^ 31 →
  cb_contents (in_ (proxy w)) = le_encode 4 (Z.of_nat (length (payload ms))) ++ z ++ more →
  kept w0 w → out (proxy w) = out (proxy w0) → events w = events w0 → connections (proxy w) = connections (proxy w0) →
  lib w = lib w0 → wp (payload_compressed garbage (4 + Z.of_nat (length z))) (λ _ w', taken ms more w0 w') w.
Proof.
  intros Hr Huz Hz Hc Hk Eo Ee Ec El. unfold payload_compressed. wp_steps. pose proof (re_size _ _ Hr) as Hs.
  apply (wp_in_read (le_encode 4 (Z.of_nat (length (payload ms)))) (z ++ more)); [apply Hr|done|by rewrite le_encode_length|].
  intros b3 Hb3 Hc3. set (w3 := set_proxy _ w). assert (ready ms w3) as Hr3 by (by apply ready_in).
  rewrite le_decode_encode by (unfold in_u; simpl; lia). unfold sizeof_UncompressedSize.
  rewrite (wrap_small 32) by (unfold in_u; lia). replace (4 + Z.of_nat (length z) - 4) with (Z.of_nat (length z)) by lia.
  wp_steps. set (w4 := set_proxy _ w3).
  assert (ready ms w4) as Hr4 by (apply ready_scratch; [done|intros p; by exists (sv_resize (Z.of_nat (length z)) (scratch0 p)), (scratch1 p)]).
  apply (wp_in_read z more); [apply Hr4|done|done|]. intros b5 Hb5 Hc5. wp_steps.
  set (w5 := set_proxy (set_in b5) w4). assert (ready ms w5) as Hr5 by (by apply ready_in).
  apply wp_fill_scratch. { apply sv_resize_length. lia. }
  intros stale. apply wp_bind. rewrite Huz. apply wp_fill_scratch. { apply sv_resize_length. lia. }
  intros stale2. wp_steps. apply payload_dispatch; try done.
  apply ready_scratch; [done|]. intros p. by eexists _, _.
Qed.

(** A frame is its size and then one of the two forms of its payload. *)
Lemma frame_cases level (d : bytes) :
  Z.of_nat (length d) + 9 < 2 ^ 31 →
  ∃ k f, frame level d = le_encode 4 k ++ f ∧ k = Z.of_nat (length f) ∧ 1 ≤ k < 2 ^ 31 ∧
    (f = le_encode 1 0 ++ d ∨ ∃ z, f = le_encode 1 1 ++ le_encode 4 (Z.of_nat (length d)) ++ z ∧
       uncompress z (Z.of_nat (length d)) = d).
Proof.
  intros Hd. pose proof (frame_length level d) as Hfl. unfold frame in *.
  destruct (if 0 <? level then _ else _) as [z|] eqn:Ez; eexists _, _; (split; [done|]);
    rewrite !length_app, !le_encode_length in *; split_and!; try lia.
  - right. exists z. split; [done|]. destruct (0 <? level); [|done]. by eapply uncompress_compress2.
  - by left.
Qed.

(** The ticker takes a whole frame off the buffer and dispatches its messages. *)
Lemma tick_round fuel level ms more Q w :
  ready ms w → cb_contents (in_ (proxy w)) = frame level (payload ms) ++ more →
  (∀ w', taken ms more w w' → wp (tick_receive_loop garbage fuel) Q w') →
  wp (tick_receive_loop garbage (S fuel)) Q w.
Proof.
  intros Hr Hc HQ. pose proof (re_inv _ _ Hr) as Hw. pose proof (re_size _ _ Hr) as Hs.
  destruct (frame_cases level (payload ms) Hs) as (k&f&Ef&Hk&Hk31&Hf). set (d := payload ms) in *.
  pose proof (pi_in _ _ Hw) as Hb. pose proof (cb_contents_length _ Hb) as Hl.
  assert (length (le_encode 4 k) = 4%nat) as Hl4 by apply le_encode_length.
  rewrite Ef, <-app_assoc in Hc. rewrite Hc, !length_app, Hl4 in Hl.
  cbn [tick_receive_loop]. wp_steps. unfold sizeof_PayloadPacketSize. rewrite (proj2 (Z.leb_gt _ _)) by lia.
  apply wp_bind. eapply wp_lift; [apply cb_peek_spec; [done|lia]|]. change (Z.to_nat 4) with 4%nat.
  rewrite Hc, <-Hl4, take_app_length, Hl4. rewrite le_decode_encode by (unfold in_u; simpl; lia).
  rewrite (proj2 (Z.ltb_ge _ _)) by lia.
  destruct (cb_skip_spec 4 _ Hb ltac:(lia)) as (b1&Es&Hb1&Hc1). change (Z.to_nat 4) with 4%nat in Hc1.
  rewrite Hc, <-Hl4, drop_app_length in Hc1.
  apply wp_bind. eapply wp_lift; [exact Es|]. wp_steps. set (w1 := set_proxy (set_in b1) w).
  assert (ready ms w1) as Hr1 by (by apply ready_in).
  unfold sizeof_WasCompressed. rewrite (wrap_small 32 (k - 1)) by (unfold in_u; lia).
  destruct Hf as [->|(z&->&Huz)]; rewrite !length_app, !le_encode_length in Hk; rewrite <-!app_assoc in Hc1.
  - apply (wp_in_read (le_encode 1 0) (d ++ more)); [apply Hr1|done|by rewrite le_encode_length|].
    intros b2 Hb2 Hc2. rewrite le_decode_encode by (unfold in_u; simpl; lia). cbn [Z.eqb].
    replace (k - 1) with (Z.of_nat (length d)) by lia. apply wp_bind.
    eapply wp_mono; [by apply (wp_payload_plain ms more w); [apply ready_in|..]|]. intros ? w' Ht. by apply HQ.
  - apply (wp_in_read (le_encode 1 1) (le_encode 4 (Z.of_nat (length d)) ++ z ++ more)); [apply Hr1|done|by rewrite le_encode_length|].
    intros b2 Hb2 Hc2. rewrite le_decode_encode by (unfold in_u; simpl; lia). cbn [Z.eqb].
    replace (k - 1) with (4 + Z.of_nat (length z)) by lia. apply wp_bind.
    eapply wp_mono; [apply (wp_payload_compressed ms z more w); try done; [by apply ready_in|lia]|]. intros ? w' Ht. by apply HQ.
Qed.

Abbreviation frames level batches := (concat ((λ b, frame level (payload b)) <$> batches)).

Lemma acceptable_prefix ms1 ms2 w : acceptable_all wire_id (ms1 ++ ms2) w → acceptable_all wire_id ms1 w.
Proof.
  intros [Hwf Hwi Ho Hn Hr]. rewrite open_ids_app in *. apply list.NoDup_app in Ho as (?&_&_).
  apply Forall_app in Hwf as [? _]. split; [done|set_solver|done|intros id Hid; apply Hn; set_solver|].
  eapply room_law; [|exact Hr]. rewrite length_app. lia.
Qed.

(** With less than a frame in the buffer the ticker waits. *)
Lemma tick_waits fuel level (d : bytes) (part rest : bytes) w :
  px_inv wire_id w → cb_contents (in_ (proxy w)) = part → part ++ rest = frame level d → rest ≠ [] →
  Z.of_nat (length d) + 9 < 2 ^ 31 → tick_receive_loop garbage (S fuel) w = Some (tt, w).
Proof.
  intros Hw Hc Hf Hr Hd. destruct (frame_cases level d Hd) as (k&f&Ef&Hk&Hk31&_).
  pose proof (pi_in _ _ Hw) as Hb. pose proof (cb_contents_length _ Hb) as Hl. rewrite Hc in Hl.
  pose proof (le_encode_length 4 k) as Hl4. rewrite Ef in Hf.
  assert (length rest ≠ 0%nat) by (by destruct rest). apply (f_equal length) in Hf as Hlen. rewrite !length_app in Hlen.
  cbn [tick_receive_loop]. unfold gets, mbind at 1, M_bind at 1. unfold sizeof_PayloadPacketSize.
  destruct (Z.leb_spec (size_ (in_ (proxy w))) 4); [done|].
  rewrite cb_peek_spec, Hc by (done || lia). change (Z.to_nat 4) with 4%nat.
  assert (take 4 part = le_encode 4 k) as ->.
  { rewrite <-Hl4. rewrite <-(take_app_le part rest), Hf by lia. apply take_app_length. }
  unfold lift. cbn [fmap option_fmap option_map mbind M_bind]. unfold mbind, M_bind.
  rewrite le_decode_encode by (unfold in_u; simpl; lia). by rewrite (proj2 (Z.ltb_lt _ _)) by lia.
Qed.

(** The payloads that are complete are dispatched, the rest waits. *)
Lemma tick_receive_loop_wp level batches fuel tail w :
  px_inv wire_id w → acceptable_all wire_id (concat batches) w →
  sv_size (out (proxy w)) + 7 * Z.of_nat (length (concat batches)) < 2 ^ 32 →
  Forall (λ b, Z.of_nat (length (payload b)) + 9 < 2 ^ 31) batches →
  cb_contents (in_ (proxy w)) ++ tail = frames level batches → size_ (in_ (proxy w)) < Z.of_nat fuel →
  wp (tick_receive_loop garbage fuel) (λ _ w', ∃ now later, batches = now ++ later ∧
    dispatches wire_id kept (7 * Z.of_nat (length (concat now))) (seen garbage <$> concat now) w w' ∧
    cb_contents (in_ (proxy w')) ++ tail = frames level later ∧ (tail = [] → later = [])) w.
Proof.
  revert fuel w. induction batches as [|b bs IH]; intros fuel w Hw Ha Hs Hb Hc Hf;
    pose proof (cb_contents_length _ (pi_in _ _ Hw)) as Hl; (destruct fuel as [|fuel]; [lia|]).
  { simpl in Hc. apply app_eq_nil in Hc as [Hc ->]. rewrite Hc in Hl. cbn [tick_receive_loop]. wp_steps.
    rewrite (proj2 (Z.leb_le _ _)) by (unfold sizeof_PayloadPacketSize; simpl in Hl; lia). apply wp_ret.
    exists [], []. split_and!; [done|by apply dispatches_refl; [apply _|]|by rewrite Hc|done]. }
  inversion Hb as [|?? Hb1 Hb2]; subst. cbn [fmap list_fmap concat] in Hc, Ha, Hs. rewrite length_app in Hs.
  destruct (decide (length (frame level (payload b)) ≤ length (cb_contents (in_ (proxy w))))%nat) as [Hle|Hgt].
  - assert (∃ more, cb_contents (in_ (proxy w)) = frame level (payload b) ++ more ∧ more ++ tail = frames level bs) as (more&Hc1&Hc2).
    { exists (drop (length (frame level (payload b))) (cb_contents (in_ (proxy w)))).
      assert (take (length (frame level (payload b))) (cb_contents (in_ (proxy w))) = frame level (payload b)) as Ht.
      { rewrite <-(take_app_le _ tail), Hc by lia. apply take_app_length. }
      split; [by rewrite <-Ht at 1; rewrite take_drop|]. rewrite <-drop_app_le, Hc, drop_app_length by lia. done. }
    apply (tick_round fuel level b more).
    { split; try done; [by eapply acceptable_prefix|lia]. }
    { done. }
    intros w' [Hd Hm]. pose proof (frame_length level (payload b)) as Hfl.
    pose proof (di_out _ _ _ _ _ _ Hd) as Hout. rewrite Hc1, length_app in Hl.
    pose proof (cb_contents_length _ (pi_in _ _ (di_inv _ _ _ _ _ _ Hd))) as Hl'. rewrite Hm in Hl'.
    eapply wp_mono; [apply IH; [apply Hd|by eapply acceptable_app; [..|apply kept_socket|]|lia|done|by rewrite Hm|lia]|].
    intros [] w2 (now&later&->&Hd2&Hc3&Htl). exists (b :: now), later. split_and!; [done| |done|done].
    cbn [concat]. rewrite fmap_app, length_app.
    apply (dispatches_more wire_id kept (7 * Z.of_nat (length b) + 7 * Z.of_nat (length (concat now)))); [lia|].
    exact (dispatches_trans wire_id kept _ _ _ _ _ _ _ kept_socket Hd Hd2).
  - set (part := cb_contents (in_ (proxy w))) in *.
    assert (frame level (payload b) = part ++ drop (length part) (frame level (payload b))) as Hp.
    { rewrite <-(take_drop (length part) (frame level (payload b))) at 1. f_equal.
      rewrite <-(take_app_le _ (frames level bs)), <-Hc by lia. apply take_app_length. }
    unfold wp. rewrite (tick_waits fuel level (payload b) part (drop (length part) (frame level (payload b)))); try done.
    + exists [], (b :: bs). split_and!; [done|by apply dispatches_refl; [apply _|]|done|].
      intros ->. rewrite app_nil_r in Hc. apply (f_equal length) in Hc. rewrite length_app in Hc. lia.
    + intros E. apply (f_equal length) in E. rewrite length_drop in E. simpl in E. lia.
Qed.
End ticker.

(** ** The tunnel *)

Section tunnel.
Context {W1 W2 : Type} `{!Mrudp W1, !MrudpLaws W1, !Mrudp W2, !MrudpLaws W2} {zlib : Zlib} {zlib_laws : ZlibLaws}.
(** the platforms of both sides, the ids of their wire entries and the entry of the wire at the
    receiving proxy *)
Context (memmoves : bool) (garbage : bytes) (wire1 wire2 : Z) (wire_entry : NodeRef).
Hypothesis garbage_size : Z.of_nat (length garbage) = sizeof_Address.
Abbreviation frames level batches := (concat ((λ b, frame level (payload b)) <$> batches)).

(** The sending proxy, the receiving proxy, the bytes on their way, and the messages queued since
    the beginning. *)
Record Tunnel := mkTunnel {
  sending : World W1;
  receiving : World W2;
  channel : bytes;
  queued : list Message;
}.

Definition sent_ok (e : Event) : Prop := match e with Sent _ _ _ code => code = MRUDP_OK | _ => True end.
Definition sent_bytes (es : list Event) : bytes :=
  concat (omap (λ e, match e with Sent _ d _ _ => Some d | _ => None end) es).

(** A handler of the sending proxy queues a message; its ticker flushes the queue onto the wire;
    the wire delivers some bytes to the receiving proxy; the ticker of that proxy runs. Buffers
    stay below 2^31 bytes, and the wire accepts what is sent. *)
Inductive tunnel_step : Tunnel → Tunnel → Prop :=
  | queues P Q ch ms n c m code P' :
      nodes P !! n = Some c → message_id m = pc_id c → message_wf m →
      sv_size (out (proxy P)) + Z.of_nat (length (encode_message m)) + 9 < 2 ^ 31 →
      proxy_send_queue n (message_mode m) (message_data m) P = Some (code, P') →
      tunnel_step (mkTunnel P Q ch ms) (mkTunnel P' Q ch (ms ++ [m]))
  | flushes P Q ch ms P' es :
      tick_send P = Some (tt, P') → events P' = events P ++ es → Forall sent_ok es →
      tunnel_step (mkTunnel P Q ch ms) (mkTunnel P' Q (ch ++ sent_bytes es) ms)
  | delivers P Q ch ms c code Q' chunk rest :
      nodes Q !! wire_entry = Some c → pc_mode c = ProxyMode.WIRE →
      ch = chunk ++ rest → chunk ≠ [] → size_ (in_ (proxy Q)) + 2 * Z.of_nat (length chunk) < 2 ^ 31 →
      on_connection_packet memmoves garbage wire_entry chunk true Q = Some (code, Q') →
      tunnel_step (mkTunnel P Q ch ms) (mkTunnel P Q' rest ms)
  | ticks P Q ch ms Q' :
      proxy_tick garbage Q = Some (tt, Q') → tunnel_step (mkTunnel P Q ch ms) (mkTunnel P Q' ch ms).

(** Both proxies in order, nothing queued and nothing on its way. *)
Record tunnel_start (s : Tunnel) : Prop := {
  ts_sending : px_inv wire1 (sending s);
  ts_receiving : px_inv wire2 (receiving s);
  ts_empty : sv_contents (out (proxy (sending s))) = [] ∧ cb_contents (in_ (proxy (receiving s))) = [] ∧
    channel s = [] ∧ queued s = [];
  ts_wire : wire (proxy (receiving s)) ≠ None;
}.

(** The messages queued suit the receiving proxy, and their echoes fit its queue. *)
Record tunnel_fits (s0 : Tunnel) (ms : list Message) : Prop := {
  tf_acceptable : acceptable_all wire2 ms (receiving s0);
  tf_room : sv_size (out (proxy (receiving s0))) + 7 * Z.of_nat (length ms) + 9 < 2 ^ 31;
}.

(** Where the messages are: dispatched, in frames on the wire or in the buffer, or still queued. *)
Record tunnel_inv (s0 s : Tunnel) (gone : list Message) (batches : list (list Message)) (pending : list Message) : Prop := {
  tv_queued : queued s = gone ++ concat batches ++ pending;
  tv_sending : px_inv wire1 (sending s) ∧ options (proxy (sending s)) = options (proxy (sending s0)) ∧
    sv_size (out (proxy (sending s))) + 9 < 2 ^ 31;
  tv_out : sv_contents (out (proxy (sending s))) = payload pending;
  tv_receiving : dispatches wire2 kept (7 * Z.of_nat (length gone)) (seen garbage <$> gone) (receiving s0) (receiving s);
  tv_bytes : cb_contents (in_ (proxy (receiving s))) ++ channel s =
    frames (proxy_compression_level (options (proxy (sending s0)))) batches;
  tv_batches : Forall (λ b, Z.of_nat (length (payload b)) + 9 < 2 ^ 31) batches;
}.

Lemma tunnel_fits_prefix s0 ms ms' : tunnel_fits s0 (ms ++ ms') → tunnel_fits s0 ms.
Proof. intros [Ha Hr]. rewrite length_app in Hr. split; [by eapply acceptable_prefix|lia]. Qed.

Lemma inv_queues s0 P Q ch ms n c m code P' gone batches pending :
  nodes P !! n = Some c → message_id m = pc_id c → message_wf m →
  sv_size (out (proxy P)) + Z.of_nat (length (encode_message m)) + 9 < 2 ^ 31 →
  proxy_send_queue n (message_mode m) (message_data m) P = Some (code, P') →
  tunnel_inv s0 (mkTunnel P Q ch ms) gone batches pending →
  tunnel_inv s0 (mkTunnel P' Q ch (ms ++ [m])) gone batches (pending ++ [m]).
Proof.
  intros Hn Hid (_&Hsz&_) Hs E [H1 (H2&H2'&H2'') H3 H4 H5 H6]. simpl in *.
  assert (wp (proxy_send_queue n (message_mode m) (message_data m)) (λ _ P', px_inv wire1 P' ∧
    options (proxy P') = options (proxy P) ∧ sv_size (out (proxy P')) + 9 < 2 ^ 31 ∧
    sv_contents (out (proxy P')) = sv_contents (out (proxy P)) ++ encode_message m) P) as Hwp.
  { unfold encode_message, in_u in *.
    eapply (wp_send_queue wire1 n c); [done|done|lia|lia|]. intros q Hq Sq Cq.
    split_and!; [by apply px_inv_out|done|simpl; lia|]. simpl. by rewrite Cq, Hid. }
  unfold wp in Hwp. rewrite E in Hwp. destruct Hwp as (Hw&Ho&Hs'&Hc). split; simpl; try done.
  - by rewrite H1, <-!app_assoc.
  - split_and!; [done|congruence|done].
  - rewrite Hc, H3, fmap_app, concat_app. cbn [fmap list_fmap concat]. by rewrite app_nil_r.
Qed.

Lemma inv_flushes s0 P Q ch ms P' es gone batches pending :
  tick_send P = Some (tt, P') → events P' = events P ++ es →
  tunnel_inv s0 (mkTunnel P Q ch ms) gone batches pending →
  ∃ batches' pending', tunnel_inv s0 (mkTunnel P' Q (ch ++ sent_bytes es) ms) gone batches' pending'.
Proof.
  intros E Ees [H1 (H2&H2'&H2'') H3 H4 H5 H6]. simpl in *.
  pose proof (tick_send_wp wire1 P H2 H2'') as Hwp. unfold wp in Hwp. rewrite E in Hwp.
  destruct Hwp as (Hw&(_&_&_&Ho)&_&_&[(Eo&Ee)|(Eo&code&Ee)]); rewrite Ee in Ees.
  - assert (es = []) as -> by (by apply (app_inv_head (events P)); rewrite app_nil_r).
    exists batches, pending. split; simpl; try done; [|by rewrite Eo|by rewrite app_nil_r].
    split_and!; [done|congruence|by rewrite Eo].
  - apply app_inv_head in Ees as <-. exists (batches ++ [pending]), []. split; simpl; try done.
    + rewrite concat_app. simpl. by rewrite !app_nil_r.
    + split_and!; [done|congruence|].
      pose proof (sv_contents_length _ (pi_out _ _ Hw)) as Hl. rewrite Eo in Hl. simpl in Hl. lia.
    + rewrite app_assoc, H5, fmap_app, concat_app. unfold sent_bytes. simpl. by rewrite !app_nil_r, H2', H3.
    + apply Forall_app. split; [done|]. apply Forall_singleton. rewrite <-H3.
      pose proof (sv_contents_length _ (pi_out _ _ H2)). lia.
Qed.

Lemma inv_delivers s0 P Q ms c code Q' chunk rest gone batches pending :
  nodes Q !! wire_entry = Some c → pc_mode c = ProxyMode.WIRE → chunk ≠ [] →
  size_ (in_ (proxy Q)) + 2 * Z.of_nat (length chunk) < 2 ^ 31 →
  on_connection_packet memmoves garbage wire_entry chunk true Q = Some (code, Q') →
  tunnel_inv s0 (mkTunnel P Q (chunk ++ rest) ms) gone batches pending →
  tunnel_inv s0 (mkTunnel P Q' rest ms) gone batches pending.
Proof.
  intros Hc Hm Hne Hs E [H1 H2 H3 H4 H5 H6]. simpl in *. pose proof (di_inv _ _ _ _ _ _ H4) as Hw.
  unfold on_connection_packet in E. cbn [on_connection_packet_] in E. rewrite decide_False in E by done.
  unfold deref, mbind at 1, M_bind at 1 in E. rewrite Hc in E. cbn [mbind option_bind] in E. rewrite Hm in E.
  unfold proxy_receive_queue, gets, lift, modify, mbind, M_bind in E.
  pose proof (cb_write_contents memmoves chunk (in_ (proxy Q)) (pi_in _ _ Hw) Hs) as Hcw.
  destruct (needs_memmove _ _ && _); [by rewrite Hcw in E|]. destruct Hcw as (b&Eb&Hb&Hcb). rewrite Eb in E.
  simpl in E. injection E as _ <-. split; simpl; try done.
  - destruct H4 as [D1 D2 D3 D4 D5 D6]. split; try done. by apply px_inv_in.
  - by rewrite Hcb, <-app_assoc.
Qed.

(** One run of the ticker of the receiving proxy. *)
Lemma inv_ticks s0 P Q ch ms gone batches pending :
  tunnel_start s0 → tunnel_fits s0 ms → tunnel_inv s0 (mkTunnel P Q ch ms) gone batches pending →
  wp (proxy_tick garbage) (λ _ Q', ∃ now later, batches = now ++ later ∧ (ch = [] → later = []) ∧
    tunnel_inv s0 (mkTunnel P Q' ch ms) (gone ++ concat now) later pending) Q.
Proof.
  intros [_ T2 _ T4] [F1 F2] [H1 H2 H3 H4 H5 H6]. simpl in *. rewrite H1 in F1, F2.
  rewrite !length_app in F2. destruct (di_kept _ _ _ _ _ _ H4) as (Kw&Kc&_).
  pose proof (di_out _ _ _ _ _ _ H4) as Hout. pose proof (pi_out _ _ T2) as Ho0. unfold sv_wf in Ho0.
  unfold proxy_tick. wp_steps. destruct (wire (proxy Q)) as [h|] eqn:Hwire; [|congruence].
  apply wp_bind. eapply wp_mono; [apply (tick_send_wp wire2); [by apply (di_inv _ _ _ _ _ _ H4)|lia]|].
  intros [] Q1 (Hw1&(Hin1&Hk1)&Hc1&Hr1&Hf). unfold tick_receive. wp_steps.
  assert (dispatches wire2 kept (7 * Z.of_nat (length gone)) (seen garbage <$> gone) (receiving s0) Q1) as Hd1.
  { destruct H4 as [D1 D2 D3 D4 D5 D6].
    split; [done|by etrans| | |intros id; rewrite Hc1; apply D5|intros k Hk; by apply Hr1, D6].
    - destruct Hf as [[-> _]|[Hf _]]; [done|]. pose proof (sv_contents_length _ (pi_out _ _ Hw1)) as Hl.
      rewrite Hf in Hl. simpl in Hl. lia.
    - destruct Hf as [[_ ->]|(_&code&->)]; [done|]. by rewrite dispatched_app, app_nil_r. }
  pose proof (di_out _ _ _ _ _ _ Hd1) as Hout1. destruct (di_kept _ _ _ _ _ _ Hd1) as (Kw1&Kc1&_).
  pose proof (cb_contents_length _ (pi_in _ _ Hw1)) as Hl1. rewrite <-Hin1 in H5.
  pose proof (acceptable_app wire2 garbage garbage_size kept _ gone (concat batches ++ pending) _ _ F1 kept_socket Hd1) as Ha.
  eapply wp_mono.
  { eapply (tick_receive_loop_wp wire2 garbage garbage_size _ batches _ ch);
      [done|by eapply acceptable_prefix|lia|done|exact H5|lia]. }
  intros [] Q2 (now&later&->&Hd2&Hc2&Htl). exists now, later. split_and!; [done|done|].
  pose proof (dispatches_trans wire2 kept _ _ _ _ _ _ _ kept_socket Hd1 Hd2) as Hd12. apply Forall_app in H6 as [_ ?].
  split; simpl; try done.
  - by rewrite H1, concat_app, <-!app_assoc.
  - rewrite fmap_app, length_app. eapply (dispatches_more wire2 kept); [|exact Hd12]. lia.
Qed.

Lemma step_queued s s' : tunnel_step s s' → ∃ l, queued s' = queued s ++ l.
Proof. destruct 1; simpl; [by eexists|exists []..]; by rewrite app_nil_r. Qed.

Lemma start_inv s0 : tunnel_start s0 → tunnel_inv s0 s0 [] [] [].
Proof.
  intros [T1 T2 (T3&T4&T5&T6) _]. split; simpl; try done.
  - split_and!; [done|done|]. pose proof (sv_contents_length _ (pi_out _ _ T1)) as Hl. rewrite T3 in Hl. simpl in Hl. lia.
  - by apply dispatches_refl; [apply _|].
  - by rewrite T4, T5.
Qed.

(** Every reachable state of a tunnel whose messages fit has a place for each of them. *)
Lemma tunnel_reachable s0 s :
  tunnel_start s0 → rtc tunnel_step s0 s → tunnel_fits s0 (queued s) →
  ∃ gone batches pending, tunnel_inv s0 s gone batches pending.
Proof.
  intros H0 Hr. revert s Hr.
  refine (rtc_ind_r (λ s, tunnel_fits s0 (queued s) → ∃ gone batches pending, tunnel_inv s0 s gone batches pending) s0 _ _).
  { intros _. eexists _, _, _. by apply start_inv. }
  intros s s' Hr Hs IH Hfit.
  destruct (step_queued _ _ Hs) as [l Hl].
  destruct IH as (gone&batches&pending&Hi); [rewrite Hl in Hfit; by eapply tunnel_fits_prefix|].
  destruct Hs as [P Q ch ms n c m code P' Hn Hid Hm Hsz E|P Q ch ms P' es E Ee Hes|
    P Q ch ms c code Q' chunk rest Hc Hmode -> Hne Hsz E|P Q ch ms Q' E].
  - eexists _, _, _. by eapply inv_queues.
  - destruct (inv_flushes _ _ _ _ _ _ _ _ _ _ E Ee Hi) as (?&?&?). eauto.
  - eexists _, _, _. by eapply inv_delivers.
  - pose proof (inv_ticks s0 P Q ch ms gone batches pending H0 Hfit Hi) as Hwp. unfold wp in Hwp. rewrite E in Hwp.
    destruct Hwp as (now&later&_&_&?). eauto.
Qed.

(** ** Claims *)

(** C16: the tunnel. Two proxies start in order with nothing queued; from then on handlers of one
    queue messages, its ticker flushes them, the wire hands the bytes over in pieces of any size,
    and the ticker of the other runs, in any order. As long as the messages suit the receiving
    proxy (it opens each id once, its socket has room for them, and none closes its wire), what it has dispatched is always a
    beginning of what was queued, message by message and in order, whether payloads were compressed
    or not and wherever they were cut; its ticker is defined at any time; and once nothing is
    queued or on its way, one more run of it has dispatched everything. A message is recorded as
    dispatched when it is decoded, before it is acted on. *)
Theorem proxy_tunnel (s0 s : Tunnel) :
  tunnel_start s0 → rtc tunnel_step s0 s → tunnel_fits s0 (queued s) →
  ∃ gone, gone `prefix_of` queued s ∧
    dispatched (events (receiving s)) = dispatched (events (receiving s0)) ++ (seen garbage <$> gone) ∧
    ∃ Q', proxy_tick garbage (receiving s) = Some (tt, Q') ∧
      (channel s = [] → sv_contents (out (proxy (sending s))) = [] →
       dispatched (events Q') = dispatched (events (receiving s0)) ++ (seen garbage <$> queued s)).
Proof.
  intros H0 Hr Hfit. destruct (tunnel_reachable s0 s H0 Hr Hfit) as (gone&batches&pending&Hi).
  pose proof (inv_ticks s0 (sending s) (receiving s) (channel s) (queued s) gone batches pending H0 Hfit) as Hwp.
  destruct s as [P Q ch ms]. specialize (Hwp Hi). apply wp_some in Hwp as ([]&Q'&E&now&later&->&Hlater&Hi').
  exists gone. split_and!; [|apply Hi|].
  - exists (concat (now ++ later) ++ pending). apply Hi.
  - exists Q'. split; [done|]. simpl. intros Hch Hout. rewrite (Hlater Hch) in *.
    pose proof (di_events _ _ _ _ _ _ (tv_receiving _ _ _ _ _ Hi')) as He. simpl in He. rewrite He. do 2 f_equal.
    pose proof (tv_queued _ _ _ _ _ Hi') as Hq. pose proof (tv_out _ _ _ _ _ Hi') as Ho. simpl in Hq, Ho.
    rewrite Hout in Ho. assert (pending = []) as ->.
    { destruct pending as [|m ?]; [done|]. exfalso. apply (f_equal length) in Ho. cbn [fmap list_fmap concat] in Ho.
      rewrite length_app in Ho. pose proof (message_length m). simpl in Ho. lia. }
    simpl in Hq. by rewrite Hq, app_nil_r.
Qed.
End tunnel.

(** ** A library of handles alone *)

(** Cells that refer to a connection ([true]) or are being closed, as the handles of [Api.v]. *)
Abbreviation Table := (gmap positive bool).

Definition table_code (h : Handle) (t : Table) : option Z :=
  match h with
  | None => Some MRUDP_ERROR_GENERAL_FAILURE
  | Some h => b ← t !! h; Some (if (b : bool) then MRUDP_OK else MRUDP_ERROR_GENERAL_FAILURE)
  end.

#[local] Instance Mrudp_table : Mrudp Table := {|
  is_live t h := is_Some (t !! h);
  api_socket _ _ := mret (Some 1%positive);
  api_listen _ := mret MRUDP_OK;
  api_close_socket _ := mret MRUDP_OK;
  api_connect _ _ _ := λ t, let h := fresh (dom t) in Some (Some h, <[h := true]> t);
  api_accept h _ := λ t, c ← table_code h t; Some (c, t);
  api_send h _ _ := λ t, c ← table_code h t; Some (c, t);
  api_close_begin h := λ t,
    c ← table_code h t;
    Some ((c, c =? MRUDP_OK), match h with Some h => <[h := false]> t | None => t end);
  api_close_end h := λ t, match h with Some h => _ ← t !! h; Some (tt, delete h t) | None => Some (tt, t) end;
  api_state h := λ t, c ← table_code h t; Some ((c, Some 0), t);
  api_options h := λ t, c ← table_code h t; Some ((c, Some getDefaultConnectionOptions), t);
  api_options_set h _ := λ t, c ← table_code h t; Some (c, t);
|}.

Lemma table_code_usable t h : usable t h → ∃ c, table_code h t = Some c ∧ (c = MRUDP_OK ↔ ∃ g, h = Some g ∧ t !! g = Some true).
Proof.
  destruct h as [h|]; simpl.
  - intros [[] E]; rewrite E; simpl; eexists; (split; [done|]); split; [by eauto|done|done|].
    intros (g&[= <-]&?). congruence.
  - intros _. eexists. split; [done|]. split; [done|]. by intros (?&?&?).
Qed.

#[local] Program Instance MrudpLaws_table : MrudpLaws Table := {|
  api_ok _ := True;
  is_open t h := t !! h = Some true;
  armed t h := t !! h = Some true;
  can_connect _ _ _ := True;
|}.
Next Obligation. intros t h E. by exists true. Qed.
Next Obligation. done. Qed.
Next Obligation.
  intros t h d r _ Hu _. destruct (table_code_usable t h Hu) as (c&E&_). unfold wp. simpl. rewrite E. by split_and!.
Qed.
Next Obligation.
  intros t h _ Hu. destruct (table_code_usable t h Hu) as (c&E&_). unfold wp. simpl. rewrite E. simpl. by split_and!.
Qed.
Next Obligation.
  intros t h _ Hu. destruct (table_code_usable t h Hu) as (c&E&Hc). unfold wp. simpl. rewrite E. simpl.
  destruct h as [h|]; simpl in *.
  - split_and!; [done|..].
    + intros g. rewrite lookup_insert_is_Some. split; [|intros; destruct (decide (h = g)); by auto]. by intros [->|[_ ?]].
    + intros g. rewrite lookup_insert_Some. split; [|intros [? Hne]; right; split; [congruence|done]].
      intros [[_ ?]|[Hne ?]]; [done|]. split; [done|congruence].
    + intros g. rewrite lookup_insert_Some. intros [[_ ?]|[Hne ?]]; [done|]. split; [done|congruence].
    + done.
    + intros Hcb%Z.eqb_eq. apply Hc in Hcb as (g&[= <-]&?). eauto.
    + done.
  - split_and!; try done; try naive_solver.
Qed.
Next Obligation.
  intros t h _ Hl. unfold wp. simpl. destruct Hl as [b E]. rewrite E. simpl. split_and!; [done|..].
  - intros g. rewrite lookup_delete_is_Some. naive_solver.
  - intros g. rewrite lookup_delete_Some. naive_solver.
  - intros g. rewrite lookup_delete_Some. by intros [??].
  - done.
Qed.
Next Obligation.
  intros t s a o _ _ _. unfold wp. simpl. split; [done|]. split; [done|]. assert (t !! fresh (dom t) = None) as Hf.
  { apply not_elem_of_dom, is_fresh. }
  split_and!.
  - by rewrite Hf; intros [].
  - intros g. rewrite lookup_insert_is_Some. destruct (decide (fresh (dom t) = g)); naive_solver.
  - intros g. rewrite lookup_insert_Some. destruct (decide (fresh (dom t) = g)) as [<-|]; [|naive_solver].
    rewrite Hf. naive_solver.
  - intros g. rewrite lookup_insert_Some. naive_solver.
Qed.
Next Obligation. intros t h Hl. apply eq_None_not_Some in Hl. simpl. by rewrite Hl. Qed.

(** A client's proxy with one connection, whose wire reaches a server's proxy. *)
Definition example_garbage : bytes := replicate 28 Byte.xcc.
Definition example_proxy (wire : Handle) (next : Z) (cs : gmap Z NodeRef) : Proxy :=
  mkProxy false (Some 1%positive) (Some 1%positive) options_default wire SizedVector_init CircularBuffer_init
    SizedVector_init SizedVector_init next cs.
Definition example_client : World Table :=
  mkWorld Table (example_proxy (Some 1%positive) 2 {[0 := 1%positive; 1 := 2%positive]})
    {[1%positive := mkProxyConnection 0 ProxyMode.WIRE None;
      2%positive := mkProxyConnection 1 ProxyMode.CONNECTION (Some 2%positive)]}
    {[1%positive := 1%positive; 2%positive := 2%positive]} {[1%positive := true; 2%positive := true]} [].
Definition example_server : World Table :=
  mkWorld Table (example_proxy (Some 1%positive) (ProxyID_SERVER + 1) {[ProxyID_SERVER := 1%positive]})
    {[1%positive := mkProxyConnection ProxyID_SERVER ProxyMode.WIRE (Some 1%positive)]}
    {[1%positive := 1%positive]} {[1%positive := true]} [].

Definition example_open : Message := MOpen 1 (replicate 28 Byte.x07).
Definition example_data : Message := MData 1 true [Byte.x61; Byte.x62; Byte.x63].

Definition after {S A} (m : M S A) (s : S) : S := match m s with Some (_, s') => s' | None => s end.

Definition example_tunnel : Tunnel := mkTunnel example_client example_server [] [].
Definition example_client1 : World Table :=
  after (proxy_send_queue 2%positive (message_mode example_open) (message_data example_open)) example_client.
Definition example_client2 : World Table :=
  after (proxy_send_queue 2%positive (message_mode example_data) (message_data example_data)) example_client1.
#[local] Existing Instance Zlib_stored.
#[local] Existing Instance ZlibLaws_stored.

Definition example_client3 : World Table := after tick_send example_client2.
Definition example_bytes : bytes := sent_bytes (events example_client3).
Definition example_server1 : World Table :=
  after (on_connection_packet false example_garbage 1%positive (take 12 example_bytes) true) example_server.
Definition example_server2 : World Table := after (proxy_tick example_garbage) example_server1.
Definition example_server3 : World Table :=
  after (on_connection_packet false example_garbage 1%positive (drop 12 example_bytes) true) example_server2.
Definition example_end : Tunnel := mkTunnel example_client3 example_server3 [] [example_open; example_data].

Lemma example_reachable :
  rtc (tunnel_step false example_garbage 1%positive) example_tunnel example_end.
Proof.
  eapply rtc_l.
  { apply (queues _ _ _ example_client example_server [] [] 2%positive
      (mkProxyConnection 1 ProxyMode.CONNECTION (Some 2%positive)) example_open MRUDP_OK example_client1);
      [reflexivity|reflexivity|by vm_compute|by vm_compute|vm_compute; reflexivity]. }
  eapply rtc_l.
  { apply (queues _ _ _ example_client1 example_server [] [example_open] 2%positive
      (mkProxyConnection 1 ProxyMode.CONNECTION (Some 2%positive)) example_data MRUDP_OK example_client2);
      [reflexivity|reflexivity|by vm_compute|by vm_compute|vm_compute; reflexivity]. }
  eapply rtc_l.
  { apply (flushes _ _ _ example_client2 example_server [] [example_open; example_data] example_client3 (events example_client3));
      [vm_compute; reflexivity|vm_compute; reflexivity|]. vm_compute. repeat constructor. }
  eapply rtc_l.
  { apply (delivers _ _ _ example_client3 example_server example_bytes [example_open; example_data]
      (mkProxyConnection ProxyID_SERVER ProxyMode.WIRE (Some 1%positive)) MRUDP_OK example_server1
      (take 12 example_bytes) (drop 12 example_bytes));
      [reflexivity|reflexivity|vm_compute; reflexivity|by vm_compute|by vm_compute|vm_compute; reflexivity]. }
  eapply rtc_l.
  { apply (ticks _ _ _ example_client3 example_server1 (drop 12 example_bytes) [example_open; example_data] example_server2).
    vm_compute; reflexivity. }
  eapply rtc_l; [|reflexivity].
  apply (delivers _ _ _ example_client3 example_server2 (drop 12 example_bytes) [example_open; example_data]
      (mkProxyConnection ProxyID_SERVER ProxyMode.WIRE (Some 1%positive)) MRUDP_OK example_server3
      (drop 12 example_bytes) []);
      [reflexivity|reflexivity|vm_compute; reflexivity|by vm_compute|by vm_compute|vm_compute; reflexivity].
Qed.

(** Cases of a look-up in a map written out. *)
Ltac lookup_cases :=
  repeat match goal with
  | H : _ ∧ _ |- _ => destruct H
  | H : _ ∨ _ |- _ => destruct H
  | H : <[_ := _]> _ !! _ = Some _ |- _ => apply lookup_insert_Some in H
  | H : singletonM _ _ !! _ = Some _ |- _ => apply lookup_singleton_Some in H
  end; subst.

Lemma example_client_inv : px_inv 0 example_client.
Proof.
  split; simpl; try done.
  - intros id n H. lookup_cases; by eexists.
  - intros n c H. by lookup_cases.
  - intros n c h H E. lookup_cases; try done. injection E as <-. split; [by exists true|done].
  - intros h H. lookup_cases; (split; [by exists true|]); by eexists _, _.
  - intros h h' n H H'. lookup_cases; simpl; intros [= <-]; by intros.
  - intros n c h H E E'. by lookup_cases; simplify_eq/=.
  - apply CircularBuffer_init_wf.
Qed.

Lemma example_server_inv : px_inv ProxyID_SERVER example_server.
Proof.
  split; simpl; try done.
  - intros id n H. lookup_cases; by eexists.
  - intros n c H. by lookup_cases.
  - intros n c h H E. lookup_cases; try done. injection E as <-. split; [by exists true|done].
  - intros h H. lookup_cases. split; [by exists true|]; by eexists _, _.
  - intros h h' n H H'. by lookup_cases.
  - intros n c h H E E'. by lookup_cases; simplify_eq/=.
  - apply CircularBuffer_init_wf.
Qed.

Lemma proxy_tunnel_witness :
  ∃ gone, gone `prefix_of` [example_open; example_data] ∧
    dispatched (events (receiving example_end)) = [] ++ (seen example_garbage <$> gone) ∧
    ∃ Q', proxy_tick example_garbage (receiving example_end) = Some (tt, Q') ∧
      dispatched (events Q') = [MOpen 1 (seen_addr example_garbage (replicate 28 Byte.x07)); example_data].
Proof.
  destruct (proxy_tunnel false example_garbage 0 ProxyID_SERVER 1%positive eq_refl example_tunnel example_end)
    as (gone&H1&H2&Q'&H3&H4).
  - split; [apply example_client_inv|apply example_server_inv|done|done].
  - apply example_reachable.
  - split; [|done]. split.
    + repeat constructor; by vm_compute.
    + intros H. lookup_cases. set_solver.
    + apply NoDup_singleton.
    + intros id H. by apply list_elem_of_singleton in H as ->.
    + done.
  - exists gone. split; [exact H1|]. split; [exact H2|]. exists Q'. split; [exact H3|].
    apply H4; vm_compute; reflexivity.
Defined.
