(* ===== verification/ProxyLifecycle.v ===== *)
(** * Connections through a proxy, from the first packet to the end

    The ids a proxy gives its connections, what the first packet of a connection does, what a
    payload does to a proxy that runs on the library modelled in [Api.v], and what the end of the
    wire leaves behind. *)

From S2P Require Import Prelude MemCopy Containers Packet ReceiveQueue Types SendQueue Proxy ProxyApi ProxyWire Tunnel.

(** ** Ids *)

Lemma connection_bits (x : Z) : 0 ≤ x → Z.land x ProxyID_CONNECTION = x `mod` 2 ^ 24.
Proof. intros Hx. change ProxyID_CONNECTION with (Z.ones 24). by rewrite Z.land_ones. Qed.

Lemma incrementProxyID_eq (id : Z) :
  in_u 32 id → incrementProxyID id = id `div` 2 ^ 24 * 2 ^ 24 + (id + 1) `mod` 2 ^ 24.
Proof.
  intros Hid. unfold incrementProxyID. pose proof (wrap_range 32 (id + 1) ltac:(lia)) as Hw.
  rewrite connection_bits by apply Hw.
  change ProxyID_SERVER with (Z.ldiff (Z.ones 32) (Z.ones 24)).
  rewrite Z.ldiff_land, Z.land_assoc, Z.land_ones, Z.mod_small, <-Z.ldiff_land, Z.ldiff_ones_r by (done || lia).
  rewrite Z.shiftr_div_pow2, Z.shiftl_mul_pow2 by lia. rewrite <-Z.add_nocarry_lor.
  - f_equal. unfold wrap. change (2 ^ 32) with (2 ^ 24 * 2 ^ 8). rewrite Z.rem_mul_r by lia.
    rewrite Z.mul_comm, Z.mod_add, Z.mod_mod by lia. done.
  - rewrite <-Z.shiftl_mul_pow2 by lia. apply Z.bits_inj'. intros k Hk. rewrite Z.land_spec, Z.bits_0.
    destruct (decide (k < 24)); [by rewrite Z.shiftl_spec_low|].
    rewrite <-Z.land_ones, Z.land_spec, Z.ones_spec_high by lia. by rewrite !andb_false_r.
Qed.

(** The id given after [n] others. *)
Fixpoint nth_id (first : Z) (n : nat) : Z :=
  match n with O => first | S n => incrementProxyID (nth_id first n) end.

Lemma nth_id_eq b n : 0 ≤ b < 2 ^ 8 → nth_id (b * 2 ^ 24) n = b * 2 ^ 24 + Z.of_nat n `mod` 2 ^ 24.
Proof.
  intros Hb. induction n as [|n IH]; [by cbn [nth_id]; rewrite Z.mod_0_l, Z.add_0_r|].
  cbn [nth_id]. rewrite IH.
  pose proof (Z.mod_pos_bound (Z.of_nat n) (2 ^ 24)). rewrite incrementProxyID_eq by (unfold in_u; lia).
  rewrite Z.div_add_l, Z.div_small, Z.add_0_r by lia. f_equal.
  rewrite <-Z.add_assoc, Z.add_comm, Z.mod_add, Z.add_mod_idemp_l by lia. f_equal. lia.
Qed.

(** ** The first packet *)

Lemma read_write_addr garbage (a : Address) :
  Z.of_nat (length a) = sizeof_Address → write_addr (seen_addr garbage a) = write_addr a.
Proof.
  unfold sizeof_Address. intros Ha. unfold write_addr, seen_addr.
  assert (length (sin_port a) = 2%nat) as H2 by (apply slice_length; lia).
  assert (length (sin_addr a) = 4%nat) as H4 by (apply slice_length; lia).
  pose proof (le_encode_length 2 AF_INET) as H0. do 2 f_equal; [|f_equal].
  - unfold sin_addr at 1, slice. rewrite app_assoc, drop_app_length', take_app_length' by (rewrite ?length_app; lia). done.
  - unfold sin_port at 1, slice. by rewrite drop_app_length', take_app_length' by lia.
Qed.

(** Seven bytes in three pieces go into the buffer of 256. *)
Lemma write_all_addr (a : Address) :
  Z.of_nat (length a) = sizeof_Address →
  ∃ o, write_all write_DataOut (mkDataOut (replicate 256 Byte.x00) 256 0) (write_addr a) = Some o ∧
    take (Z.to_nat (out_size o)) (out_data o) = concat (write_addr a).
Proof.
  unfold sizeof_Address. intros Ha.
  assert (length (sin_port a) = 2%nat) as H2 by (apply slice_length; lia).
  assert (length (sin_addr a) = 4%nat) as H4 by (apply slice_length; lia).
  unfold write_addr. generalize dependent (sin_port a). generalize dependent (sin_addr a).
  intros [|x0 [|x1 [|x2 [|x3 [|]]]]] H4 [|y0 [|y1 [|]]] H2; try done. eexists. by split; vm_compute.
Qed.

Section first.
Context {W : Type} `{!Mrudp W, !Zlib}.
Context (memmoves : bool) (garbage : bytes).
Implicit Types w : World W.

(** A packet of a connection that is established is queued as a message of it. *)
Lemma connection_packet_queued fuel n c data r w :
  nodes w !! n = Some c → pc_mode c = ProxyMode.CONNECTION → data ≠ [] →
  on_connection_packet_ memmoves garbage (S fuel) n data r w =
  proxy_send_queue n (if r then ProxyPacketMode.RELIABLE else ProxyPacketMode.UNRELIABLE) data w.
Proof.
  intros Hn Hm Hd. cbn [on_connection_packet_]. rewrite decide_False by done.
  unfold deref, mbind, M_bind. rewrite Hn. cbn [mbind option_bind]. by rewrite Hm.
Qed.

Lemma first_packet fuel n c data r w :
  nodes w !! n = Some c → pc_mode c = ProxyMode.NONE → data ≠ [] →
  on_connection_packet_ memmoves garbage (S fuel) n data r w =
  on_mode_packet garbage (on_connection_packet_ memmoves garbage fuel) n data r w.
Proof.
  intros Hn Hm Hd. cbn [on_connection_packet_]. rewrite decide_False by done.
  unfold deref, mbind at 1, M_bind at 1. rewrite Hn. cbn [mbind option_bind]. by rewrite Hm.
Qed.

Definition established (c : ProxyConnection) : ProxyConnection :=
  mkProxyConnection (pc_id c) ProxyMode.CONNECTION (pc_connection c).

(** The first packet opens a connection: what is behind the request is handled as a packet of it. *)
Lemma mode_packet_connection rest n c (a : Address) more r w :
  nodes w !! n = Some c → sv_wf (out (proxy w)) → sv_size (out (proxy w)) < 2 ^ 32 →
  Z.of_nat (length a) = sizeof_Address → in_u 64 (magic_connection (options (proxy w))) →
  magic_connection (options (proxy w)) ≠ magic_wire (options (proxy w)) →
  ∃ q, sv_wf q ∧ sv_size q = sv_size (out (proxy w)) + 14 ∧
    sv_contents q = sv_contents (out (proxy w)) ++ encode_message (MOpen (pc_id c) a) ∧
    on_mode_packet garbage rest n (connect_data a (magic_connection (options (proxy w))) ++ more) r w =
    rest n more r (set_nodes (<[n := established c]> (nodes w)) (set_proxy (set_out q) w)).
Proof.
  intros Hn Hw Hs Ha Hmagic Hne. unfold on_mode_packet, connect_data. set (magic := magic_connection _) in *.
  pose proof (le_encode_length 8 magic) as H8. rewrite <-app_assoc.
  rewrite (read_app (le_encode 8 magic) _ 8) by (rewrite ?length_app; lia).
  rewrite lift_some_bind. cbv beta iota zeta. unfold gets, mbind at 1, M_bind at 1.
  rewrite le_decode_encode by done. rewrite (proj2 (Z.eqb_neq _ _)) by done. fold magic. rewrite Z.eqb_refl.
  assert (length (concat (write_addr a)) = 7%nat) as H7.
  { unfold sizeof_Address in Ha. unfold write_addr, sin_addr, sin_port. simpl. rewrite !length_app, !slice_length by lia. done. }
  rewrite (read_addr_write garbage) by (rewrite ?length_app; lia). rewrite lift_some_bind. cbv beta iota zeta.
  rewrite read_write_addr by done. destruct (write_all_addr a Ha) as (o&Eo&Ho). rewrite Eo, lift_some_bind, Ho.
  destruct (send_queue_run n c ProxyPacketMode.OPEN (concat (write_addr a)) w Hn Hw ltac:(lia) Hs) as (q&Eq&Hq&Sq&Cq).
  exists q. split_and!; [done|lia|exact Cq|]. unfold mbind at 1, M_bind at 1. rewrite Eq. cbn [mrudp_failed].
  change (mrudp_failed MRUDP_OK) with false. cbv iota. unfold set_mode, deref, assign, modify, mbind, M_bind. simpl.
  by rewrite Hn.
Qed.
End first.

(** ** The end of the wire *)

Section ends.
Context {W : Type} `{!Mrudp W, !MrudpLaws W, !Zlib}.
Context (garbage : bytes).
Implicit Types w : World W.

(** The close callback of an entry whose handle is open and will not be called back. *)
Lemma close_callback_run n c h w :
  api_ok (lib w) → nodes w !! n = Some c → pc_connection c = Some h → is_open (lib w) h → ¬ armed (lib w) h →
  pc_mode c = ProxyMode.WIRE →
  ∃ code w', on_close_callback n w = Some (code, w') ∧ wire (proxy w') = wire (proxy w) ∧
    out (proxy w') = out (proxy w) ∧ ¬ is_live (lib w') h.
Proof.
  intros Hok Hn Hc Hopen Harm Hm. apply wp_some. unfold on_close_callback, on_connection_close.
  apply wp_bind, (wp_deref n c); [done|]. rewrite Hc. unfold mrudp_close_connection. cbn [mrudp_close_connection_].
  do 2 apply wp_bind. apply wp_api. eapply wp_mono; [by apply close_begin_law; [|apply open_live]|].
  intros [code cb] x (Hokx&Hlx&_&_&Hcode&Hcb&_). destruct cb; [by destruct (Hcb eq_refl) as (?&[= <-]&_&?)|].
  wp_steps. rewrite (proj2 Hcode) by eauto. cbn [Z.eqb]. apply wp_bind, wp_api.
  eapply wp_mono; [apply close_end_law; [done|]|]. { apply Hlx. by apply open_live. }
  intros [] y (Hoky&Hly&_). wp_steps. unfold set_connection. apply wp_bind, (wp_deref n c); [done|]. unfold assign. wp_steps.
  eapply wp_deref; [apply lookup_insert_eq|]. cbn [pc_mode]. rewrite Hm. unfold on_wire_close, on_connection_close_entry.
  do 2 apply wp_bind. eapply wp_deref; [apply lookup_insert_eq|]. wp_steps. cbn [pc_id].
  assert (¬ is_live y h) as Hdead by (rewrite Hly; naive_solver).
  simpl. destruct (connections (proxy w) !! pc_id c); wp_steps; done.
Qed.

Lemma close_dead h w : ¬ is_live (lib w) h → mrudp_close_connection (Some h) w = None.
Proof.
  intros Hh. destruct (dead_law (lib w) h Hh) as (_&_&E). unfold mrudp_close_connection. cbn [mrudp_close_connection_].
  unfold api, mbind, M_bind. by rewrite E.
Qed.
End ends.

(** ** Claims *)

(** The ids of proxied connections. A proxy that connects counts from 0, one that listens from
    [ProxyID_SERVER]: no id of the one is ever an id of the other, whatever number of connections
    they accepted; either gives 2^24 different ids before it starts over with the first. *)
Theorem proxy_ids_apart (n m : nat) :
  in_u 32 (nth_id 0 n) ∧ in_u 32 (nth_id ProxyID_SERVER m) ∧ nth_id 0 n ≠ nth_id ProxyID_SERVER m ∧
  (nth_id 0 n = nth_id 0 m ↔ Z.of_nat n `mod` 2 ^ 24 = Z.of_nat m `mod` 2 ^ 24) ∧
  (nth_id ProxyID_SERVER n = nth_id ProxyID_SERVER m ↔ Z.of_nat n `mod` 2 ^ 24 = Z.of_nat m `mod` 2 ^ 24).
Proof.
  change 0 with (0 * 2 ^ 24). change ProxyID_SERVER with (255 * 2 ^ 24). rewrite !nth_id_eq by lia.
  pose proof (Z.mod_pos_bound (Z.of_nat n) (2 ^ 24)). pose proof (Z.mod_pos_bound (Z.of_nat m) (2 ^ 24)).
  unfold in_u. lia.
Qed.

(** C19: the request of a client reaches the proxy. The packet [connect] sends, [connect_data],
    with whatever data follows in the same packet, turns an accepted connection into a proxied
    one and queues for the other proxy exactly an [OPEN] with the client's address and, if there
    was data, the data with its reliability; the code is 0 and nothing else of the proxy changes. *)
Theorem first_packet_opens {W : Type} `{!Mrudp W, !Zlib} memmoves garbage (w : World W) n c (a : Address) (more : bytes) r :
  nodes w !! n = Some c → pc_mode c = ProxyMode.NONE → sv_wf (out (proxy w)) → sv_size (out (proxy w)) < 2 ^ 31 →
  Z.of_nat (length a) = sizeof_Address → Z.of_nat (length more) < 2 ^ 16 →
  in_u 64 (magic_connection (options (proxy w))) →
  magic_connection (options (proxy w)) ≠ magic_wire (options (proxy w)) →
  ∃ q, on_connection_packet memmoves garbage n (connect_data a (magic_connection (options (proxy w))) ++ more) r w =
      Some (0, set_nodes (<[n := established c]> (nodes w)) (set_proxy (set_out q) w)) ∧
    sv_contents q = sv_contents (out (proxy w)) ++ encode_message (MOpen (pc_id c) a) ++
      (if decide (more = []) then [] else encode_message (MData (pc_id c) r more)).
Proof.
  intros Hn Hm Hw Hs Ha Hl Hmagic Hne. unfold on_connection_packet. rewrite (first_packet _ _ 1 n c) by done.
  destruct (mode_packet_connection garbage (on_connection_packet_ memmoves garbage 1) n c a more r w Hn Hw ltac:(lia) Ha Hmagic Hne)
    as (q&Hq&Sq&Cq&E). rewrite E. set (w1 := set_nodes _ _).
  destruct (decide (more = [])) as [->|Hmore]; [exists q; split; [done|by rewrite app_nil_r]|].
  rewrite (connection_packet_queued memmoves garbage 0 n (established c)); [|apply lookup_insert_eq|done|done].
  set (mode := if r then _ else _).
  destruct (send_queue_run n (established c) mode more w1) as (q'&E'&_&_&Cq'); [apply lookup_insert_eq|done|done|simpl; lia|].
  exists q'. split; [exact E'|]. rewrite Cq'. cbn [w1 set_nodes proxy set_proxy set_out out]. rewrite Cq, <-app_assoc.
  by destruct r.
Qed.

(** An accepted connection of a proxy with nothing queued. *)
Definition example_accepted : World Table :=
  mkWorld Table (example_proxy None (ProxyID_SERVER + 1) {[ProxyID_SERVER := 1%positive]})
    {[1%positive := mkProxyConnection ProxyID_SERVER ProxyMode.NONE (Some 1%positive)]}
    {[1%positive := 1%positive]} {[1%positive := true]} [].

#[local] Existing Instance Zlib_stored.
#[local] Existing Instance ZlibLaws_stored.

#[local] Existing Instance Mrudp_table.
#[local] Existing Instance MrudpLaws_table.

Lemma first_packet_opens_witness :
  ∃ q, on_connection_packet false example_garbage 1%positive (connect_data (replicate 28 Byte.x07) 13 ++ [Byte.x61]) true
        example_accepted =
      Some (0, set_nodes (<[1%positive := mkProxyConnection ProxyID_SERVER ProxyMode.CONNECTION (Some 1%positive)]>
        (nodes example_accepted)) (set_proxy (set_out q) example_accepted)) ∧
    sv_contents q = encode_message (MOpen ProxyID_SERVER (replicate 28 Byte.x07)) ++
      encode_message (MData ProxyID_SERVER true [Byte.x61]).
Proof.
  apply (first_packet_opens false example_garbage example_accepted 1%positive
    (mkProxyConnection ProxyID_SERVER ProxyMode.NONE (Some 1%positive)) (replicate 28 Byte.x07) [Byte.x61] true);
    reflexivity || discriminate || (split; discriminate || reflexivity).
Defined.

(** C20: the wire of the listening proxy. When the library calls the close callback of the wire's
    entry, the handler frees the connection's handle and the entry but leaves [proxy->wire] as it
    is: the next tick with data to send and the closing of the proxy use the freed handle. *)
Theorem wire_end_dangles {W : Type} `{!Mrudp W, !MrudpLaws W, !Zlib} garbage (w : World W) n c h :
  api_ok (lib w) → nodes w !! n = Some c → pc_mode c = ProxyMode.WIRE → pc_connection c = Some h →
  wire (proxy w) = Some h → is_open (lib w) h → ¬ armed (lib w) h →
  ∃ code w', on_close_callback n w = Some (code, w') ∧ wire (proxy w') = Some h ∧ ¬ is_live (lib w') h ∧
    proxy_close w' = None ∧ (sv_empty (out (proxy w)) = false → proxy_tick garbage w' = None).
Proof.
  intros Hok Hn Hm Hc Hwire Hopen Harm.
  destruct (close_callback_run n c h w Hok Hn Hc Hopen Harm Hm) as (code&w'&E&Ew&Eo&Hdead).
  exists code, w'. rewrite Hwire in Ew. split_and!; [done..| |].
  - unfold proxy_close, modify, gets, mbind at 1 2 3, M_bind at 1 2 3. simpl. rewrite Ew. by rewrite close_dead.
  - intros Hout. destruct (dead_law (lib w') h Hdead) as (_&E'&_).
    unfold proxy_tick, tick_send, gets, api, mbind, M_bind. rewrite Ew, Eo, Hout, Ew. simpl. by rewrite E'.
Qed.

(** A listening proxy whose wire's connection has been taken from its user. *)
#[local] Program Instance example_system : System := {|
  sys_randomLong _ := replicate 16 Byte.x05;
  sys_random _ := 1;
  sys_open _ := MRUDP_OK;
  sys_now _ := 1000000000;
|}.
Next Obligation. done. Qed.
Next Obligation. done. Qed.

Definition example_library : Api.World :=
  Api.mkWorld {[ 1%positive := Api.example_socket ]} {[ 3%positive := Some 1%positive ]}
    {[ 7%positive := Some (1%positive, 1%nat) ]} ∅ [].

Lemma example_library_inv : Api.world_inv example_library.
Proof.
  destruct Api.example_world_inv as [H1 H2 H3]. split; [exact H1|exact H2|].
  intros h s Hh. cbn in Hh. apply lookup_singleton_Some in Hh as [<- [= <-]]. by exists Api.example_socket.
Qed.

Definition example_listening : World Api.World :=
  mkWorld Api.World
    (mkProxy false (Some 3%positive) (Some 3%positive) options_default (Some 7%positive) (mkSizedVector [Byte.x61] 1)
      CircularBuffer_init SizedVector_init SizedVector_init (ProxyID_SERVER + 1) {[ProxyID_SERVER := 1%positive]})
    {[1%positive := mkProxyConnection ProxyID_SERVER ProxyMode.WIRE (Some 7%positive)]}
    {[7%positive := 1%positive]} example_library [].

Lemma example_disarmed h : ¬ armed example_library h.
Proof.
  intros (c&k&Hh&Hk&Hd). cbn in Hh. apply lookup_singleton_Some in Hh as [<- [= <-]]. vm_compute in Hk. injection Hk as <-. by vm_compute in Hd.
Qed.

Lemma wire_end_dangles_witness :
  ∃ code w', on_close_callback 1%positive example_listening = Some (code, w') ∧ wire (proxy w') = Some 7%positive ∧
    ¬ is_live (lib w') 7%positive ∧ proxy_close w' = None ∧ (false = false → proxy_tick example_garbage w' = None).
Proof.
  apply (wire_end_dangles example_garbage example_listening 1%positive
    (mkProxyConnection ProxyID_SERVER ProxyMode.WIRE (Some 7%positive)) 7%positive);
    [exact example_library_inv|reflexivity|reflexivity|reflexivity|reflexivity| |apply example_disarmed].
  by eexists.
Defined.



