(* ===== verification/ProxyProgram.v ===== *)
(** * The proxy program and the proxy's C interface: [mrudp_proxy/main.cpp], [mrudp_proxy.cpp]

    The program reads its addresses and options from the command line and opens one proxy. The
    functions of the interface that take the remote address as a string convert it first and
    ignore what the conversion says. *)

From S2P Require Import Prelude MemCopy Packet ReceiveQueue Types SendQueue Api Asio Datagram AddressText Containers Proxy Tunnel.
From stdpp Require Import list strings.
#[local] Open Scope Z_scope.

(** ** The interface *)

Section interface.
Context {W : Type} `{!Mrudp W, !Zlib, !Inet}.
Abbreviation P := (M (Proxy.World W)).

Definition mrudp_proxy_open (service : Handle) (from : Address) (on to : option Address)
    (options : mrudp_proxy_options) : P unit :=
  proxy_open service from on to options.

Definition mrudp_proxy_close : P unit := proxy_close.

Definition mrudp_proxy_connect (connection : Handle) (remote : Address) (magic : Z) : P Z :=
  proxy_connect connection remote magic.

Definition mrudp_proxy_options_default : mrudp_proxy_options := options_default.

(** The address a string stands for, whatever the code. *)
Definition address_of (remote_ : bytes) : P Address :=
  '(_, remote) ← lift (mrudp_str_to_addr remote_); mret remote.

Definition mrudp_connect_proxy_resolve (socket : Handle) (remote_ : bytes) (proxy_address : Address) (magic : Z) : P Handle :=
  remote ← address_of remote_;
  mrudp_connect_proxy socket remote proxy_address magic.

Definition mrudp_connect_ex_proxy_resolve (socket : Handle) (remote_ : bytes) (o : option ConnectionOptions)
    (proxy_address : Address) (magic : Z) : P Handle :=
  remote ← address_of remote_;
  mrudp_connect_ex_proxy socket remote o proxy_address magic.

End interface.

(** The overloads whose callbacks are function objects, [_fo] in their names. *)
Section functions.
Context {W : Type} `{!Mrudp W, !Zlib, !Inet}.
Abbreviation P := (M (Proxy.World W)).

Definition mrudp_connect_fo_ex_proxy (socket : Handle) (remote : Address) (o : option ConnectionOptions)
    (proxy_address : Address) (magic : Z) : P Handle :=
  connection ← api (api_connect socket proxy_address o);
  match connection with
  | None => mret None
  | Some _ =>
    code ← mrudp_proxy_connect connection remote magic;
    if mrudp_failed code then
      '(code, _) ← api (api_close_begin connection);
      (if code =? MRUDP_OK then api (api_close_end connection) else mret tt);;
      mret None
    else mret connection
  end.

Definition mrudp_connect_fo_proxy (socket : Handle) (remote proxy_address : Address) (magic : Z) : P Handle :=
  mrudp_connect_fo_ex_proxy socket remote None proxy_address magic.

Definition mrudp_connect_fo_proxy_resolve (socket : Handle) (remote_ : bytes) (proxy_address : Address) (magic : Z) : P Handle :=
  remote ← address_of remote_;
  mrudp_connect_fo_proxy socket remote proxy_address magic.

Definition mrudp_connect_fo_ex_proxy_resolve (socket : Handle) (remote_ : bytes) (o : option ConnectionOptions)
    (proxy_address : Address) (magic : Z) : P Handle :=
  remote ← address_of remote_;
  mrudp_connect_fo_ex_proxy socket remote o proxy_address magic.
End functions.

(** ** The command line *)

Definition text (s : string) : bytes := String.list_byte_of_string s.

(** The value of an argument [key ++ value], nothing for another argument. *)
Definition get_arg (key arg : bytes) : bytes :=
  if (length arg <? length key)%nat then []
  else if decide (take (length key) arg = key) then drop (length key) arg else [].

Record Program := mkProgram {
  pg_on : option Address;
  pg_to : option Address;
  pg_options : mrudp_proxy_options;
}.

Section program.
Context `{!Inet}.

(** One argument; [None] is undefined behaviour, [Some None] the message on usage. The values are
    converted to the types of the options. *)
Definition read_arg (arg : bytes) (p : Program) : option (option Program) :=
  let remote_ := get_arg (text "remote=") arg in
  let onAddr_ := get_arg (text "on=") arg in
  let wireMagic_ := get_arg (text "wireMagic=") arg in
  let connectionMagic_ := get_arg (text "connectionMagic=") arg in
  let compressionLevel_ := get_arg (text "compressionLevel=") arg in
  let tickIntervalMS_ := get_arg (text "tickIntervalMS=") arg in
  let wireRetryAttempts_ := get_arg (text "wireRetryAttempts=") arg in
  let o := pg_options p in
  let set_options o := Some (Some (mkProgram (pg_on p) (pg_to p) o)) in
  if decide (remote_ ≠ []) then
    '(code, to) ← mrudp_str_to_addr remote_;
    Some (if code =? MRUDP_OK then Some (mkProgram (pg_on p) (Some to) o) else None)
  else if decide (onAddr_ ≠ []) then
    '(code, on) ← mrudp_str_to_addr onAddr_;
    Some (if code =? MRUDP_OK then Some (mkProgram (Some on) (pg_to p) o) else None)
  else if decide (wireMagic_ ≠ []) then
    v ← atoll wireMagic_;
    set_options (mkProxyOptions (wrap 64 v) (magic_connection o) (tick_interval_ms o)
                   (maximum_wire_retry_attempts o) (proxy_compression_level o))
  else if decide (connectionMagic_ ≠ []) then
    v ← atoll connectionMagic_;
    set_options (mkProxyOptions (magic_wire o) (wrap 64 v) (tick_interval_ms o)
                   (maximum_wire_retry_attempts o) (proxy_compression_level o))
  else if decide (compressionLevel_ ≠ []) then
    v ← atoll compressionLevel_;
    set_options (mkProxyOptions (magic_wire o) (magic_connection o) (tick_interval_ms o)
                   (maximum_wire_retry_attempts o) (wrap 8 v))
  else if decide (tickIntervalMS_ ≠ []) then
    v ← atoll tickIntervalMS_;
    set_options (mkProxyOptions (magic_wire o) (magic_connection o) (wrap 16 v)
                   (maximum_wire_retry_attempts o) (proxy_compression_level o))
  else if decide (wireRetryAttempts_ ≠ []) then
    v ← atoll wireRetryAttempts_;
    set_options (mkProxyOptions (magic_wire o) (magic_connection o) (tick_interval_ms o)
                   (wrap 16 v) (proxy_compression_level o))
  else Some (Some p).

Fixpoint read_args (args : list bytes) (p : Program) : option (option Program) :=
  match args with
  | [] => Some (Some p)
  | arg :: args => r ← read_arg arg p; match r with Some p => read_args args p | None => Some None end
  end.

(** [main] up to [mrudp_proxy_open]: the address to accept on, and the rest. Without a first
    argument a null pointer is read as a string. *)
Definition main (argv : list bytes) : option (option (Address * Program)) :=
  match argv with
  | _ :: from_ :: args =>
    match mrudp_str_to_addr from_ with
    | Some (code, from) =>
      if code =? MRUDP_OK then
        match read_args args (mkProgram None None mrudp_proxy_options_default) with
        | Some (Some p) => Some (Some (from, p))
        | Some None => Some None
        | None => None
        end
      else Some None
    | None => None
    end
  | _ => None
  end.

(** [main] up to the line that says what was opened, [-1] after the message on usage; the program
    then sleeps for ever. *)
Definition main_open {W : Type} `{!Mrudp W, !Zlib} (service : Handle) (argv : list bytes) : M (Proxy.World W) Z :=
  r ← lift (main argv);
  match r with
  | Some (from, p) => mrudp_proxy_open service from (pg_on p) (pg_to p) (pg_options p);; mret 0
  | None => mret (-1)
  end.
End program.

(** ** Reading back a command line *)

(** The arguments differ within both keys. *)
Fixpoint mismatch (a b : bytes) : bool :=
  match a, b with x :: a, y :: b => if decide (x = y) then mismatch a b else true | _, _ => false end.

Lemma get_arg_same key v : get_arg key (key ++ v) = v.
Proof.
  unfold get_arg. rewrite (proj2 (Nat.ltb_ge _ _)) by (rewrite length_app; lia).
  rewrite decide_True by apply take_app_length. apply drop_app_length.
Qed.

Lemma get_arg_other key' key v : mismatch key' key = true → get_arg key' (key ++ v) = [].
Proof.
  intros Hm. unfold get_arg. destruct (_ <? _)%nat; [done|]. rewrite decide_False; [done|]. revert key Hm.
  induction key' as [|x key' IH]; intros [|y key]; simpl; try done.
  destruct (decide (x = y)) as [->|]; [|congruence]. intros Hm [= E]. by apply (IH key).
Qed.

Section reading.
Context `{!Inet, !InetLaws}.

(** An argument with a key, each key in turn. *)
Ltac skip_keys := repeat (first [rewrite get_arg_same | rewrite (get_arg_other (text _) (text _)) by (vm_compute; reflexivity)]).

Ltac read_key := unfold read_arg; skip_keys; repeat (rewrite decide_False by auto); rewrite decide_True by done.

Lemma read_remote v a p :
  v ≠ [] → mrudp_str_to_addr v = Some (MRUDP_OK, a) →
  read_arg (text "remote=" ++ v) p = Some (Some (mkProgram (pg_on p) (Some a) (pg_options p))).
Proof. intros Hv E. read_key. by rewrite E. Qed.

Lemma read_on v a p :
  v ≠ [] → mrudp_str_to_addr v = Some (MRUDP_OK, a) →
  read_arg (text "on=" ++ v) p = Some (Some (mkProgram (Some a) (pg_to p) (pg_options p))).
Proof. intros Hv E. read_key. by rewrite E. Qed.

(** A number on the command line. *)
Definition number (z : Z) : bytes := decimal_loop 20 z.

Lemma number_nonempty z : number z ≠ [].
Proof. unfold number. cbn [decimal_loop]. by intros [_ ?]%app_eq_nil. Qed.

Lemma atoll_number z : 0 ≤ z < 2 ^ 63 → atoll (number z) = Some z.
Proof. intros Hz. apply ato_decimal; lia. Qed.

Definition number_args (o : mrudp_proxy_options) : list bytes :=
  [text "wireMagic=" ++ number (magic_wire o); text "connectionMagic=" ++ number (magic_connection o);
   text "compressionLevel=" ++ number (proxy_compression_level o); text "tickIntervalMS=" ++ number (tick_interval_ms o);
   text "wireRetryAttempts=" ++ number (maximum_wire_retry_attempts o)].

(** The options [atoll] can read. *)
Definition options_readable (o : mrudp_proxy_options) : Prop :=
  0 ≤ magic_wire o < 2 ^ 63 ∧ 0 ≤ magic_connection o < 2 ^ 63 ∧ in_u 8 (proxy_compression_level o) ∧
  in_u 16 (tick_interval_ms o) ∧ in_u 16 (maximum_wire_retry_attempts o).

Lemma read_number_args o p :
  options_readable o → read_args (number_args o) p = Some (Some (mkProgram (pg_on p) (pg_to p) o)).
Proof.
  intros (Hw&Hm&[Hl Hl']&[Ht Ht']&[Ha Ha']). pose proof number_nonempty as Hn. unfold number_args. cbn [read_args].
  assert (read_arg (text "wireMagic=" ++ number (magic_wire o)) p = Some (Some (mkProgram (pg_on p) (pg_to p)
    (mkProxyOptions (magic_wire o) (magic_connection (pg_options p)) (tick_interval_ms (pg_options p))
       (maximum_wire_retry_attempts (pg_options p)) (proxy_compression_level (pg_options p)))))) as ->.
  { read_key. rewrite atoll_number by done. simpl. by rewrite wrap_small by (unfold in_u; lia). }
  cbn [mbind option_bind]. set (p1 := mkProgram _ _ _).
  assert (read_arg (text "connectionMagic=" ++ number (magic_connection o)) p1 = Some (Some (mkProgram (pg_on p) (pg_to p)
    (mkProxyOptions (magic_wire o) (magic_connection o) (tick_interval_ms (pg_options p))
       (maximum_wire_retry_attempts (pg_options p)) (proxy_compression_level (pg_options p)))))) as ->.
  { read_key. rewrite atoll_number by done. simpl. by rewrite wrap_small by (unfold in_u; lia). }
  cbn [mbind option_bind]. set (p2 := mkProgram _ _ (mkProxyOptions _ (magic_connection o) _ _ _)).
  assert (read_arg (text "compressionLevel=" ++ number (proxy_compression_level o)) p2 = Some (Some (mkProgram (pg_on p) (pg_to p)
    (mkProxyOptions (magic_wire o) (magic_connection o) (tick_interval_ms (pg_options p))
       (maximum_wire_retry_attempts (pg_options p)) (proxy_compression_level o))))) as ->.
  { read_key. rewrite atoll_number by lia. simpl. by rewrite wrap_small. }
  cbn [mbind option_bind]. set (p3 := mkProgram _ _ (mkProxyOptions _ _ _ _ (proxy_compression_level o))).
  assert (read_arg (text "tickIntervalMS=" ++ number (tick_interval_ms o)) p3 = Some (Some (mkProgram (pg_on p) (pg_to p)
    (mkProxyOptions (magic_wire o) (magic_connection o) (tick_interval_ms o)
       (maximum_wire_retry_attempts (pg_options p)) (proxy_compression_level o))))) as ->.
  { read_key. rewrite atoll_number by lia. simpl. by rewrite wrap_small. }
  cbn [mbind option_bind]. set (p4 := mkProgram _ _ (mkProxyOptions _ _ (tick_interval_ms o) _ _)).
  assert (read_arg (text "wireRetryAttempts=" ++ number (maximum_wire_retry_attempts o)) p4 =
    Some (Some (mkProgram (pg_on p) (pg_to p) o))) as ->; [|done].
  read_key. rewrite atoll_number by lia. simpl. rewrite wrap_small by done. by destruct o.
Qed.

(** The command line of a proxy. *)
Definition address_args (key : bytes) (e : option Endpoint) : list bytes :=
  match e with Some e => [key ++ endpoint_text e] | None => [] end.
Definition command_line (program : bytes) (from : Endpoint) (on to : option Endpoint) (o : mrudp_proxy_options) : list bytes :=
  program :: endpoint_text from :: address_args (text "on=") on ++ address_args (text "remote=") to ++ number_args o.

Definition writable (e : Endpoint) : Prop := endpoint_wf e ∧ (length (endpoint_ip e) < INET_ADDRSTRLEN)%nat.

Lemma endpoint_text_nonempty e : endpoint_text e ≠ [].
Proof. unfold endpoint_text. by intros [_ ?]%app_eq_nil. Qed.

Lemma read_args_app l1 l2 p p' :
  read_args l1 p = Some (Some p') → read_args (l1 ++ l2) p = read_args l2 p'.
Proof.
  revert p. induction l1 as [|x l1 IH]; intros p; simpl; [by intros [= ->]|].
  destruct (read_arg x p) as [[q|]|]; simpl; [apply IH|done|done].
Qed.

Lemma read_address_args on to o :
  (∀ e, on = Some e → writable e) → (∀ e, to = Some e → writable e) →
  read_args (address_args (text "on=") on ++ address_args (text "remote=") to) (mkProgram None None o) =
    Some (Some (mkProgram (toAddr <$> on) (toAddr <$> to) o)).
Proof.
  intros Hon Hto.
  assert (read_args (address_args (text "on=") on) (mkProgram None None o) = Some (Some (mkProgram (toAddr <$> on) None o))) as Eon.
  { destruct on as [e|]; [|done]. destruct (Hon e eq_refl). cbn [address_args read_args].
    rewrite (read_on _ (toAddr e)); [done|apply endpoint_text_nonempty|by apply str_to_addr_endpoint]. }
  rewrite (read_args_app _ _ _ _ Eon). destruct to as [e|]; [|done]. destruct (Hto e eq_refl). cbn [address_args read_args].
  rewrite (read_remote _ (toAddr e)); [done|apply endpoint_text_nonempty|by apply str_to_addr_endpoint].
Qed.

Lemma main_reads program from args p :
  writable from → read_args args (mkProgram None None mrudp_proxy_options_default) = Some (Some p) →
  main (program :: endpoint_text from :: args) = Some (Some (toAddr from, p)).
Proof. intros [Hf Hf'] Hp. unfold main. rewrite str_to_addr_endpoint by done. cbn [Z.eqb MRUDP_OK]. by rewrite Hp. Qed.
End reading.

(** The message on usage is never printed: the conversion reports no errors. *)
Lemma str_to_addr_code `{!Inet} str code a : mrudp_str_to_addr str = Some (code, a) → code = MRUDP_OK.
Proof.
  unfold mrudp_str_to_addr. destruct (split_port str) as [ip port]. destruct (atoi port); [|done]. simpl.
  case_match; by intros [= <- _].
Qed.

Lemma read_arg_no_usage `{!Inet} arg p : read_arg arg p ≠ Some None.
Proof.
  unfold read_arg. repeat case_decide; try (destruct (atoll _); simpl; congruence); try done.
  all: destruct (mrudp_str_to_addr _) as [[code a]|] eqn:E; simpl; [|done].
  all: by rewrite (str_to_addr_code _ _ _ E).
Qed.

Lemma read_args_no_usage `{!Inet} args p : read_args args p ≠ Some None.
Proof.
  revert p. induction args as [|x args IH]; intros p; simpl; [done|].
  pose proof (read_arg_no_usage x p). destruct (read_arg x p) as [[q|]|]; simpl; [apply IH|done|done].
Qed.

Lemma main_no_usage `{!Inet} argv : main argv ≠ Some None.
Proof.
  destruct argv as [|program [|from args]]; simpl; try done.
  destruct (mrudp_str_to_addr from) as [[code a]|] eqn:E; [|done]. rewrite (str_to_addr_code _ _ _ E). simpl.
  pose proof (read_args_no_usage args (mkProgram None None mrudp_proxy_options_default)).
  by destruct (read_args args _) as [[?|]|].
Qed.

(** A command line written for a proxy, with addresses the library can write and options [atoll]
    can read, is read back: the program opens the proxy with exactly these addresses and options,
    and options left out have their defaults. And no command line makes the program print how it is
    used. *)
Lemma main_command_line {W : Type} `{!Inet, !InetLaws, !Mrudp W, !Zlib} service program from on to o argv (w : Proxy.World W) :
  writable from → (∀ e, on = Some e → writable e) → (∀ e, to = Some e → writable e) → options_readable o →
  main_open service (command_line program from on to o) w =
    (mrudp_proxy_open service (toAddr from) (toAddr <$> on) (toAddr <$> to) o;; mret 0) w ∧
  main_open service (program :: endpoint_text from :: address_args (text "on=") on ++ address_args (text "remote=") to) w =
    (mrudp_proxy_open service (toAddr from) (toAddr <$> on) (toAddr <$> to) mrudp_proxy_options_default;; mret 0) w ∧
  main argv ≠ Some None.
Proof.
  intros Hf Hon Hto Ho. pose proof (read_address_args on to mrudp_proxy_options_default Hon Hto) as Ha.
  unfold main_open, command_line. split; [|split; [|apply main_no_usage]].
  - rewrite app_assoc. rewrite (main_reads _ _ _ (mkProgram (toAddr <$> on) (toAddr <$> to) o)); [done|done|].
    by rewrite (read_args_app _ _ _ _ Ha), read_number_args.
  - by rewrite (main_reads _ _ _ _ Hf Ha).
Qed.

(** [proxy 127.0.0.1:8080], with all options. *)
Definition example_options : mrudp_proxy_options := mkProxyOptions 7 8 100 20 1.

#[local] Existing Instance Zlib_stored.
#[local] Existing Instance ZlibLaws_stored.

#[local] Existing Instance Mrudp_table.
#[local] Existing Instance MrudpLaws_table.

#[local] Existing Instance Inet_fixed.
#[local] Existing Instance InetLaws_fixed.

Lemma main_command_line_witness :
  main_open (Some 1%positive) (command_line (text "proxy") localhost None (Some localhost) example_options) example_server =
    (mrudp_proxy_open (Some 1%positive) (toAddr localhost) None (Some (toAddr localhost)) example_options;; mret 0) example_server ∧
  main_open (Some 1%positive) (text "proxy" :: endpoint_text localhost :: address_args (text "on=") None ++ address_args (text "remote=") (Some localhost))
      example_server =
    (mrudp_proxy_open (Some 1%positive) (toAddr localhost) None (Some (toAddr localhost)) mrudp_proxy_options_default;; mret 0) example_server ∧
  main [text "proxy"; text "help"] ≠ Some None.
Proof.
  assert (writable localhost) as Hw.
  { split; [split; [reflexivity|split; reflexivity || discriminate]|]. apply (bool_decide_unpack _). vm_compute. exact I. }
  apply (main_command_line (Some 1%positive) (text "proxy") localhost None (Some localhost) example_options
    [text "proxy"; text "help"] example_server); [done|done|by intros e [= <-]|].
  unfold options_readable, in_u. simpl. lia.
Defined.

(** The program as the usage describes its last option: nothing is read. *)
Example usage_misspelt :
  main [text "proxy"; endpoint_text localhost; text "wireRetryAttempts_=5"] =
    Some (Some (toAddr localhost, mkProgram None None mrudp_proxy_options_default)) ∧
  main [text "proxy"] = None.
Proof. split; vm_compute; reflexivity. Qed.
